(* ===== verification/_CoqProject ===== *)
-Q . S2P
Prelude.v
Store.v
Htree.v
HtreeSpec.v
HtreeWrite.v
HtreeRead.v
HtreeProps.v
Io.v
Bpack.v
BpackProps.v
Cryptofile.v
CryptofileProps.v
Encrypted.v
Proto.v
ProtoProps.v
Proto9.v
Proto9Props.v
Fs.v
FsProps.v
FsTree.v
FsFile.v
FsDemo.v
Refs.v
Lru.v
Cache.v
CacheProps.v
CacheClient.v
Remote.v
Packs.v
PacksMem.v
Gc.v
GcSweep.v
GcMark.v
GcProps.v
Cstore.v
CstoreIndex.v
CstoreProps.v
Client.v
ClientProps.v
ClientConc.v
Server9.v
P9Files.v
Server9Props.v
P9Tree.v
P9Props.v
P9Demo.v
Host.v
HostProps.v
Commands.v
CommandsProps.v
CommandsSpec.v
CommandsDemo.v
Config.v
Connect.v
OpenStore.v
Daemon.v
Archive.v
ArchiveProps.v
Browse.v
BrowseProps.v
Bpy.v
Dbg.v
