(* ===== verification/Prelude.v ===== *)
(** * A verification of bpy, an encrypted, deduplicating backup tool in Go

    bpy stores trees of files as content-addressed blocks.  Blocks are gathered
    in packs, packs are encrypted files, and packs live on a remote server that
    a client talks to in a small request/response protocol.  A stored tree can be
    served over 9P, and a daemon caches blocks on disk.

    ** Parts of the program and where they are modelled

    - Prelude.v: bytes, machine integers at their width, Go slices, the error
      monad [M S A] (state, and normal return, error, panic or exhausted fuel)
      and its weakest precondition [wp].
    - Store.v: the [bpy.CStore] interface (bpy.go) as a class with laws, and
      testhelp/memstore.go.  Everything above a store is proved against the
      laws, so it holds for every store that keeps what was put.  The laws tell what a
      store holds from what it has saved, which is there when it is opened anew: [Close] saves
      all, or fails, or drops the error of a failed flush.  [Buffered] is a store that has to
      be closed.
    - Htree.v: htree/writer.go and htree/reader.go, a stream as a tree of
      blocks.  HtreeSpec.v defines the trees, HtreeWrite.v and HtreeRead.v prove
      writer and reader against them, HtreeProps.v has the results.
    - Io.v: the readers, writers and files of Go's [io] package.
    - Bpack.v, BpackProps.v: bpack/, key/value pack files with a sorted index.
    - Cryptofile.v, CryptofileProps.v: cryptofile/, counter-mode encryption of a
      seekable file with padding; the block cipher is a parameter.
    - Encrypted.v: bpack/encrypted.go, the composition of the two.
    - Proto.v, ProtoProps.v: remote/proto/proto.go, the client/server messages.
    - Proto9.v, Proto9Props.v: cmd/bpy/p9/proto9, the 9P messages.
    - Fs.v: fs/fs.go, directories and files in a store.  FsProps.v proves the
      directory codec, FsTree.v the path operations against abstract trees,
      FsFile.v open files, FsDemo.v evaluates them on a small tree.
    - Refs.v: refs/ref.go, the history of roots.
    - Lru.v: the linked list of cstore/cache/cache.go as a heap of nodes;
      Cache.v, CacheProps.v: the rest of that file, over a bolt database that is
      given by the laws its documentation states.
    - CacheClient.v: cstore/cache/client.go and server.go, the calls to the cache
      daemon over a connection that may lose them, and cstore/cached.go, the
      store that reads through the cache.
    - Remote.v: remote/remote.go, sig/sig.go and the hash strings of bpy.go, over
      the class [RemoteClient] of the calls of remote/client.
    - Packs.v: the packs of a server as the sweeper sees them, the class
      [PackClient] with its laws; PacksMem.v a server in memory that has them.
    - Gc.v: gc/gc.go.  GcMark.v proves marking against the reachable blocks,
      GcSweep.v sweeping against an invariant that holds at every step,
      GcProps.v has the results.
    - Cstore.v: cstore/mindex.go, reader.go and writer.go, the store of a client:
      working set, packs, meta index and the local directory of index files, whose
      system calls fail as an oracle decides.  CstoreIndex.v proves the meta index
      and its cache, CstoreProps.v the store against a map of blocks.
    - Client.v: remote/client, the calls to the server with one caller at a time,
      file and pack handles; ClientProps.v proves them for every server that obeys
      the class [ServerLaws].  ClientConc.v: the call table and the reading
      goroutine of client.go as a step relation over all interleavings.
    - Server9.v: cmd/bpy/p9/server9/server.go, walks, fids and the handlers over the
      classes [File] and [Handle].  Server9Props.v proves the handlers for every
      implementation that obeys the class [TreeLaws].  P9Files.v: cmd/bpy/p9/files.go
      and p9.go, the stored tree as such files.  P9Tree.v proves what the files
      show of the tree, P9Props.v that they obey [TreeLaws], P9Demo.v runs the
      server on the tree of FsDemo.v.
    - Host.v: fs/fsutil/cp.go, trees copied between a store and the host's file
      system, which is a tree whose system calls fail as an oracle decides;
      HostProps.v has what is stored and what comes back.
    - Commands.v: the commands cmd/bpy/rm, mkdir, mv, cp, put, get, revert, hist, ls,
      cat, the clearing of the history in cmd/bpy/gc, the first root of
      cmd/bpy/common/common.go, and when/when.go.  CommandsProps.v proves a round of
      such a command against the class [LogLaws] of a server that other clients use
      at the same time, CommandsSpec.v the commands, and CommandsDemo.v runs them
      against another client, over a store that buffers.
    - Config.v, Connect.v: cmd/bpy/common/config.go, the settings of a client, and
      [GetCacheClient] of common.go, how it reaches or starts the cache daemon.
      OpenStore.v: [GetCStore] of common.go, how the store of a client is opened.
    - Daemon.v: cmd/bpy/cachedaemon/cachedaemon.go, the idle timer and the accepting
      of connections as a step relation over all interleavings.
    - Archive.v, ArchiveProps.v: archive/tar.go and zip.go with the commands
      cmd/bpy/tar and zip; an archive is the list of its entries.
    - Browse.v, BrowseProps.v: cmd/bpy/browse/browse.go, pages, archives and files for
      a web browser, and how net/http serves a file.
    - Bpy.v: the rest of bpy.go, new keys, random names and the buffered writer below
      the packs.  Dbg.v: cmd/bpy/dbg, blocks of a tree as they are printed.

    State is passed explicitly: a method of a Go receiver of type [T] that may
    fail is a function [M T A], so the state after an error is part of the model.
    Each definition keeps the name of the function it translates; a loop or a
    part of a function that needs its own recursion gets a name of its own.

    ** What is proved

    - Round trips: htree streams, packs, encrypted packs, cryptofiles,
      directories, references, both wire protocols, the cache over a restart.
    - Refinements: packs are finite maps; [Walk], [Insert], [Remove], [Move] act
      on an abstract tree; the cache is a list in order of use; a store behind
      the cache daemon answers as the store itself; the content store is a map
      from hashes to blocks, also when the disk or the server fail half-way, and
      what it has flushed is there for the next client.
    - Garbage collection: marking visits exactly the reachable blocks, and no
      reachable block is ever missing from the packs or changed in them, also when the
      collector stops half-way with an error; after a full run nothing else is left.
    - The remote client: what is uploaded is what is read back; concurrent calls
      get the replies with their numbers, and all return when the server answers
      each of them once.
    - The 9P server: every request is answered and leaves files, handles and fids in
      order, whatever the store and the remote report; directories list their
      entries, files give their bytes, walks are lookups in the abstract tree.
    - Backup and restore: what is copied from the host into the store comes back with its
      names and bytes; links and special files do not, and modes are cut as the host does.
    - The commands: each is one transaction on the tree of the last root, whoever
      made it, and ends when others have no more roots to add; a new server gets a
      first root.  The tree of a root is saved before the server gets the root,
      unless its flush failed and [Close] did not say so.
    - Archives and the web browser: an archive has exactly the files of its directory,
      a page lists what the current tree has, a file is served byte for byte.
    - The cache daemon ends when nobody uses it, and never while somebody does.
    - Roots: a root is only accepted with the signature of its key.
    - Totality and safety: [Search] and [ReadIndex] terminate on every input,
      [UnpackMessage] never panics on a frame of five bytes or more.
    - Behaviour the code probably does not intend, each as a theorem: seeks that
      are ignored, reads that panic, messages that are dropped, checks that are
      too short.

    ** Bounds and fuel

    A loop whose trip count is not structural takes fuel and returns [OutOfFuel]
    when it is exhausted.  [wp] excludes that outcome, so the theorems say that the
    fuel given is enough: the length of the input plus one for byte loops, the
    length of the list for evictions, the number of entries for the index, one round
    more than other clients have roots to add for the commands.
    Unsigned integers wrap at their width; signed lengths and counts of in-memory
    objects are naturals, since memory bounds them.

    ** Not modelled

    Flags and the choice of a command by its name, the child process of the remote
    and the start of listeners, the HTML template and the static files, the JSON of
    key files, and goroutine scheduling outside ClientConc.v and Daemon.v.  The
    commands use the content store through its interface: Cstore.v is not itself an instance of
    [CStoreLaws], as its [Put] is right only while hashes do not collide and its open pack is in order
    (CstoreProps.v); what closing and opening it saves is proved of it ([cstore_close_saves],
    [store_reopens]) and assumed of the commands' store ([Store.Close_law], [GetCStore_law] of
    [LogLaws]).  The packs of Cstore.v and Gc.v are those of [PackLaws], whose calls return an error
    when they fail; a reader that panics at a read error (Cryptofile.v) is not among them.  The host
    follows no symbolic links.  Third-party packages (bolt, AES, SHA-256) are parameters with their
    documented behaviour as laws. *)

From Stdlib Require Import ZArith Lia String.
From stdpp Require Import base list gmap numbers sorting.
From coqutil Require Import Byte Word.LittleEndianList.

Set Default Goal Selector "!".

(** ** Bytes and machine integers

    A Go [byte] is the standard library's [Byte.byte]; a Go [[]byte] and a Go
    [string] are both [list byte].  Unsigned machine integers are [Z] kept at
    their width with [wrap]. *)

Abbreviation bytes := (list byte).

#[global] Instance byte_eq_dec : EqDecision byte := Byte.byte_eq_dec.

#[global] Program Instance byte_countable : Countable byte :=
  inj_countable Byte.to_N Byte.of_N _.
Next Obligation. intros b. apply Byte.of_to_N. Qed.

Declare Scope bpy_scope.
Delimit Scope bpy_scope with bpy.
Open Scope bpy_scope.

Definition wrap (w : Z) (z : Z) : Z := z mod 2 ^ w.
Abbreviation u16 := (wrap 16).
Abbreviation u32 := (wrap 32).
Abbreviation u64 := (wrap 64).

Abbreviation b0 := Byte.x00 (only parsing).

(** The two's-complement reading of a 64-bit pattern: Go's [int64(x)]. *)
Definition i64 (z : Z) : Z :=
  let u := u64 z in if decide (u < 2 ^ 63)%Z then u else (u - 2 ^ 64)%Z.

(** [encoding/binary]: little- and big-endian fixed-width integers. *)
Definition put_le (n : nat) (z : Z) : bytes := le_split n z.
Definition get_le (b : bytes) : Z := le_combine b.
Definition put_be (n : nat) (z : Z) : bytes := rev (le_split n z).
Definition get_be (b : bytes) : Z := le_combine (rev b).

#[global] Arguments put_le : simpl never.
#[global] Arguments get_le : simpl never.
#[global] Arguments put_be : simpl never.
#[global] Arguments get_be : simpl never.

(** Go's [byte(z)]. *)
Definition zbyte (z : Z) : byte := byte.of_Z z.
Definition nbyte (n : nat) : byte := zbyte (Z.of_nat n).

(** Go string literals. *)
Definition str (s : string) : bytes := String.list_byte_of_string s.
Arguments str s%_string_scope.

(** ** Errors and panics

    A Go call returns normally, returns a non-nil [error], or panics; loops
    whose trip count is not structural take fuel and report [OutOfFuel] when it
    runs out, which every theorem excludes. *)

Inductive error : Type :=
  | EOF
  | UnexpectedEOF
  | ENew (msg : string).
Arguments ENew msg%_string_scope.

#[global] Instance error_eq_dec : EqDecision error.
Proof. solve_decision. Defined.

Inductive outcome (A : Type) : Type :=
  | Ok (a : A)
  | Err (e : error)
  | Panic
  | OutOfFuel.
Arguments Ok {A} a.
Arguments Err {A} e.
Arguments Panic {A}.
Arguments OutOfFuel {A}.

#[global] Instance outcome_ret : MRet outcome := @Ok.
#[global] Instance outcome_bind : MBind outcome := λ A B k c,
  match c with
  | Ok a => k a
  | Err e => Err e
  | Panic => Panic
  | OutOfFuel => OutOfFuel
  end.

(** Methods on a receiver of type [S]: a state monad over [outcome], in which
    the state survives errors, as a Go receiver does. *)
Definition M (S A : Type) : Type := S → outcome A * S.

#[global] Instance M_ret {S} : MRet (M S) := λ A a s, (Ok a, s).
#[global] Instance M_bind {S} : MBind (M S) := λ A B k c s,
  match c s with
  | (Ok a, s') => k a s'
  | (Err e, s') => (Err e, s')
  | (Panic, s') => (Panic, s')
  | (OutOfFuel, s') => (OutOfFuel, s')
  end.

Definition get {S} : M S S := λ s, (Ok s, s).
Definition gets {S A} (f : S → A) : M S A := λ s, (Ok (f s), s).
Definition modify {S} (f : S → S) : M S unit := λ s, (Ok (), f s).
Definition throw {S A} (e : error) : M S A := λ s, (Err e, s).
Definition panic {S A} : M S A := λ s, (Panic, s).
Definition diverge {S A} : M S A := λ s, (OutOfFuel, s).
Definition lift {S A} (o : outcome A) : M S A := λ s, (o, s).
Definition when {S} (b : bool) (c : M S unit) : M S unit :=
  if b then c else mret ().
Definition try {S A} (c : M S A) : M S (A + error) := λ s,
  match c s with
  | (Ok a, s') => (Ok (inl a), s')
  | (Err e, s') => (Ok (inr e), s')
  | (Panic, s') => (Panic, s')
  | (OutOfFuel, s') => (OutOfFuel, s')
  end.

(** A method of a component held in a field of a larger receiver. *)
Definition zoom {S T A} (view : S → T) (upd : T → S → S) (c : M T A) : M S A :=
  λ s, let '(o, t) := c (view s) in (o, upd t s).

(** ** Weakest preconditions

    [wp c Q E s]: run from [s], [c] neither panics nor runs out of fuel, its
    normal results satisfy [Q] and its errors satisfy [E]. *)
Definition wp {S A} (c : M S A) (Q : A → S → Prop) (E : error → S → Prop) (s : S) : Prop :=
  match c s with
  | (Ok a, s') => Q a s'
  | (Err e, s') => E e s'
  | _ => False
  end.

Section Wp.
Context {S : Type}.
Implicit Types (s : S).

Lemma wp_bind {A B} (c : M S A) (k : A → M S B) Q E s :
  wp c (λ a s', wp (k a) Q E s') E s → wp (c ≫= k) Q E s.
Proof. unfold wp, mbind, M_bind. by destruct (c s) as [[] ?]. Qed.

Lemma wp_ret {A} (a : A) (Q : A → S → Prop) E s : Q a s → wp (mret a) Q E s.
Proof. done. Qed.

Lemma wp_mono {A} (c : M S A) (Q Q' : A → S → Prop) (E E' : error → S → Prop) s :
  wp c Q E s → (∀ a s', Q a s' → Q' a s') → (∀ e s', E e s' → E' e s') →
  wp c Q' E' s.
Proof. unfold wp. destruct (c s) as [[] ?]; naive_solver. Qed.

Lemma wp_and {A} (c : M S A) (Q Q' : A → S → Prop) (E E' : error → S → Prop) s :
  wp c Q E s → wp c Q' E' s → wp c (λ a s', Q a s' ∧ Q' a s') (λ e s', E e s' ∧ E' e s') s.
Proof. unfold wp. destruct (c s) as [[] ?]; naive_solver. Qed.

Lemma wp_ok {A} (c : M S A) Q E s : wp c Q E s → ∀ a s', c s = (Ok a, s') → Q a s'.
Proof. unfold wp. intros H a s' Hc. by rewrite Hc in H. Qed.

Lemma wp_err {A} (c : M S A) Q E s : wp c Q E s → ∀ e s', c s = (Err e, s') → E e s'.
Proof. unfold wp. intros H e s' Hc. by rewrite Hc in H. Qed.

(** With errors ruled out, [wp] is total correctness. *)
Lemma wp_total {A} (c : M S A) Q s :
  wp c Q (λ _ _, False) s → ∃ a s', c s = (Ok a, s') ∧ Q a s'.
Proof. unfold wp. destruct (c s) as [[] ?]; naive_solver. Qed.

Lemma wp_get (Q : S → S → Prop) E s : Q s s → wp get Q E s.
Proof. done. Qed.
Lemma wp_gets {A} (f : S → A) (Q : A → S → Prop) E s : Q (f s) s → wp (gets f) Q E s.
Proof. done. Qed.
Lemma wp_modify (f : S → S) (Q : unit → S → Prop) E s : Q () (f s) → wp (modify f) Q E s.
Proof. done. Qed.
Lemma wp_throw {A} e (Q : A → S → Prop) (E : error → S → Prop) s :
  E e s → wp (throw e) Q E s.
Proof. done. Qed.
Lemma wp_lift_ok {A} (o : outcome A) a (Q : A → S → Prop) E s :
  o = Ok a → Q a s → wp (lift o) Q E s.
Proof. by intros ->. Qed.
Lemma wp_when b (c : M S unit) (Q : unit → S → Prop) E s :
  (b = true → wp c Q E s) → (b = false → Q () s) → wp (when b c) Q E s.
Proof. destruct b; simpl; [auto|]. intros _ H. by apply H. Qed.
Lemma wp_try {A} (c : M S A) (Q : A + error → S → Prop) E s :
  wp c (λ a s', Q (inl a) s') (λ e s', Q (inr e) s') s → wp (try c) Q E s.
Proof. unfold wp, try. by destruct (c s) as [[] ?]. Qed.
Lemma wp_zoom {T A} (view : S → T) upd (c : M T A) Q E s :
  wp c (λ a t, Q a (upd t s)) (λ e t, E e (upd t s)) (view s) →
  wp (zoom view upd c) Q E s.
Proof. unfold wp, zoom. by destruct (c (view s)) as [[] ?]. Qed.
End Wp.

(** One step of forward symbolic execution of a monadic program. *)
Ltac wp_step :=
  lazymatch goal with
  | |- wp (_ ≫= _) _ _ _ => apply wp_bind
  | |- wp (mret _) _ _ _ => apply wp_ret
  | |- wp get _ _ _ => apply wp_get
  | |- wp (gets _) _ _ _ => apply wp_gets
  | |- wp (modify _) _ _ _ => apply wp_modify
  | |- wp (throw _) _ _ _ => apply wp_throw
  | |- wp (lift (Ok _)) _ _ _ => eapply wp_lift_ok; [reflexivity|]
  | |- wp (when _ _) _ _ _ => apply wp_when
  | |- wp (try _) _ _ _ => apply wp_try
  | |- wp (zoom _ _ _) _ _ _ => apply wp_zoom
  end.
Ltac wp_steps := repeat (wp_step; cbn beta).

(** [defer d()] around [c]: [d] runs when [c] returned, and its result is dropped. *)
Definition deferred {S A B} (c : M S A) (d : M S B) : M S A :=
  o ← try c;
  _ ← try d;
  match o with inl a => mret a | inr e => throw e end.

Lemma wp_deferred {T A B} (c : M T A) (d : M T B) Q1 E1 (Q : A → T → Prop) (E : error → T → Prop) t :
  wp c Q1 E1 t →
  (∀ a t', Q1 a t' → wp d (λ _ t'', Q a t'') (λ _ t'', Q a t'') t') →
  (∀ e t', E1 e t' → wp d (λ _ t'', E e t'') (λ _ t'', E e t'') t') →
  wp (deferred c d) Q E t.
Proof.
  intros Hc HQ HE. unfold deferred. wp_step. wp_step.
  eapply wp_mono; [exact Hc|..]; cbn beta; intros x t' Hx; wp_step; wp_step.
  - eapply wp_mono; [by apply HQ|..]; cbn beta; intros; by wp_step.
  - eapply wp_mono; [by apply HE|..]; cbn beta; intros; by wp_step.
Qed.

(** The result a postcondition speaks of is the result of the run. *)
Lemma wp_eqn {S A} (m : M S A) Q E s :
  wp m Q E s → wp m (λ a s', Q a s' ∧ m s = (Ok a, s')) E s.
Proof. unfold wp. by destruct (m s) as [[] ?]. Qed.

(** ** Slices and arrays *)

Section Slices.
Context {A : Type}.
Implicit Types (l : list A).

(** [l[i]] *)
Definition idx l (i : nat) : outcome A :=
  match l !! i with Some x => Ok x | None => Panic end.

(** [l[i] = x] *)
Definition set_idx l (i : nat) (x : A) : outcome (list A) :=
  if decide (i < length l) then Ok (<[i:=x]> l) else Panic.

(** [l[lo:hi]], for a slice whose capacity is its length. *)
Definition slice l (lo hi : nat) : outcome (list A) :=
  if decide (lo ≤ hi ∧ hi ≤ length l) then Ok (take (hi - lo) (drop lo l)) else Panic.

(** [copy(l[off:], src)] on an array: overwrite in place, as many elements as
    fit. *)
Definition splice l (off : nat) (src : list A) : list A :=
  take off l ++ take (length l - off) src ++ drop (off + length src) l.

(** [copy(l[lo:hi], src)] *)
Definition copy_at l (lo hi : nat) (src : list A) : outcome (list A) :=
  if decide (lo ≤ hi ∧ hi ≤ length l)
  then Ok (splice l lo (take (hi - lo) src)) else Panic.

Lemma idx_ok l i x : l !! i = Some x → idx l i = Ok x.
Proof. unfold idx. by intros ->. Qed.

Lemma slice_ok l lo hi :
  lo ≤ hi → hi ≤ length l → slice l lo hi = Ok (take (hi - lo) (drop lo l)).
Proof. intros. unfold slice. by rewrite decide_True by lia. Qed.

Lemma set_idx_ok l i x : i < length l → set_idx l i x = Ok (<[i:=x]> l).
Proof. intros. unfold set_idx. by rewrite decide_True. Qed.

Lemma copy_at_fits l lo hi src :
  lo ≤ hi → hi ≤ length l → length src ≤ hi - lo →
  copy_at l lo hi src = Ok (splice l lo src).
Proof.
  intros. unfold copy_at. rewrite decide_True by lia. by rewrite take_ge by lia.
Qed.

Lemma length_splice l off src :
  off ≤ length l → length (splice l off src) = length l.
Proof. intros. unfold splice. rewrite !length_app, !length_take, !length_drop. lia. Qed.

Lemma splice_fits l off src :
  off + length src ≤ length l →
  splice l off src = take off l ++ src ++ drop (off + length src) l.
Proof. intros. unfold splice. by rewrite (take_ge src) by lia. Qed.

Lemma take_splice l off src :
  off + length src ≤ length l →
  take (off + length src) (splice l off src) = take off l ++ src.
Proof.
  intros. rewrite splice_fits, app_assoc by done. apply take_app_length'.
  rewrite length_app, length_take. lia.
Qed.

Lemma take_splice_le l off src n :
  n ≤ off → off ≤ length l → take n (splice l off src) = take n l.
Proof.
  intros. unfold splice. rewrite take_app_le by (rewrite length_take; lia).
  rewrite take_take. f_equal. lia.
Qed.

Lemma drop_splice l off src :
  off + length src ≤ length l →
  drop (off + length src) (splice l off src) = drop (off + length src) l.
Proof.
  intros. rewrite splice_fits, app_assoc by done. apply drop_app_length'.
  rewrite length_app, length_take. lia.
Qed.
End Slices.

(** [drop]/[take] of a known prefix. *)
Lemma take_drop_middle_app {A} (l1 l2 l3 : list A) :
  take (length l2) (drop (length l1) (l1 ++ l2 ++ l3)) = l2.
Proof. by rewrite drop_app_length, take_app_length. Qed.

(** ** Fixed-width integer round trips *)

Lemma length_put_le n z : length (put_le n z) = n.
Proof. apply length_le_split. Qed.
Lemma length_put_be n z : length (put_be n z) = n.
Proof. unfold put_be. rewrite length_rev. apply length_le_split. Qed.

Lemma get_put_le n z : get_le (put_le n z) = wrap (8 * Z.of_nat n) z.
Proof. unfold get_le, put_le, wrap. rewrite le_combine_split. f_equal. f_equal. lia. Qed.
Lemma get_put_be n z : get_be (put_be n z) = wrap (8 * Z.of_nat n) z.
Proof. unfold get_be, put_be. rewrite rev_involutive. apply get_put_le. Qed.

Lemma wrap_small w z : (0 ≤ z < 2 ^ w)%Z → wrap w z = z.
Proof. apply Z.mod_small. Qed.
(** One wrap-around. *)
Lemma wrap_over w z : (0 ≤ w)%Z → (2 ^ w ≤ z < 2 * 2 ^ w)%Z → wrap w z = (z - 2 ^ w)%Z.
Proof.
  intros Hw Hz. unfold wrap. rewrite <-(Z.mod_small (z - 2 ^ w) (2 ^ w)) by lia.
  rewrite <-(Z_mod_plus_full (z - 2 ^ w) 1). f_equal. lia.
Qed.
Lemma wrap_range w z : (0 ≤ w)%Z → (0 ≤ wrap w z < 2 ^ w)%Z.
Proof. intros. apply Z.mod_pos_bound. lia. Qed.
Lemma wrap_wrap w z : wrap w (wrap w z) = wrap w z.
Proof. unfold wrap. by rewrite Zmod_mod. Qed.
Lemma wrap_add_l w a b : wrap w (wrap w a + b) = wrap w (a + b).
Proof. unfold wrap. by rewrite Zplus_mod_idemp_l. Qed.

Lemma put_le_wrap n z : put_le n (wrap (8 * Z.of_nat n) z) = put_le n z.
Proof. unfold put_le, wrap. rewrite (le_split_mod z). do 3 f_equal. lia. Qed.

Lemma get_put_le_small n z :
  (0 ≤ z < 2 ^ (8 * Z.of_nat n))%Z → get_le (put_le n z) = z.
Proof. intros. rewrite get_put_le. by apply wrap_small. Qed.
Lemma get_put_be_small n z :
  (0 ≤ z < 2 ^ (8 * Z.of_nat n))%Z → get_be (put_be n z) = z.
Proof. intros. rewrite get_put_be. by apply wrap_small. Qed.
Lemma put_get_le (b : bytes) n : length b = n → put_le n (get_le b) = b.
Proof. apply split_le_combine'. Qed.
Lemma put_get_be (b : bytes) n : length b = n → put_be n (get_be b) = b.
Proof.
  intros. unfold put_be, get_be. rewrite split_le_combine' by (by rewrite length_rev).
  apply rev_involutive.
Qed.
Lemma get_le_range (b : bytes) : (0 ≤ get_le b < 2 ^ (8 * Z.of_nat (length b)))%Z.
Proof. apply le_combine_bound. Qed.
Lemma get_be_range (b : bytes) : (0 ≤ get_be b < 2 ^ (8 * Z.of_nat (length b)))%Z.
Proof. unfold get_be. rewrite <-(length_rev b). apply le_combine_bound. Qed.

Lemma unsigned_zbyte z : byte.unsigned (zbyte z) = wrap 8 z.
Proof. apply byte.unsigned_of_Z. Qed.
Lemma zbyte_unsigned b : zbyte (byte.unsigned b) = b.
Proof. apply byte.of_Z_unsigned. Qed.
Lemma unsigned_nbyte n : n < 256 → byte.unsigned (nbyte n) = Z.of_nat n.
Proof. intros. unfold nbyte. rewrite unsigned_zbyte. apply wrap_small. lia. Qed.

Lemma i64_u64 z : (- 2 ^ 63 ≤ z < 2 ^ 63)%Z → i64 (u64 z) = z.
Proof.
  intros. unfold i64. rewrite wrap_wrap. unfold wrap.
  destruct (decide (0 ≤ z)%Z).
  - rewrite Z.mod_small by lia. by rewrite decide_True by lia.
  - replace (z mod 2 ^ 64)%Z with (z + 2 ^ 64)%Z
      by (apply (Zmod_unique _ _ (-1)); lia).
    rewrite decide_False by lia. lia.
Qed.

Lemma i64_small z : (0 ≤ z < 2 ^ 63)%Z → i64 z = z.
Proof. intros. unfold i64. rewrite wrap_small by lia. by rewrite decide_True by lia. Qed.

(** ** Strings in order

    Go's [<] on strings compares bytewise; a proper prefix comes first. *)
Fixpoint str_lt (l r : bytes) : bool :=
  match l, r with
  | _, [] => false
  | [], _ :: _ => true
  | x :: l, y :: r =>
    if bool_decide (x = y) then str_lt l r
    else (byte.unsigned x <? byte.unsigned y)%Z
  end.

Lemma str_lt_irrefl l : str_lt l l = false.
Proof. induction l as [|x l IH]; simpl; [done|]. by rewrite bool_decide_eq_true_2. Qed.

Lemma unsigned_inj x y : byte.unsigned x = byte.unsigned y → x = y.
Proof. intros Hxy. by rewrite <-(zbyte_unsigned x), <-(zbyte_unsigned y), Hxy. Qed.

Lemma str_lt_total l r : l = r ∨ str_lt l r = true ∨ str_lt r l = true.
Proof.
  revert r. induction l as [|x l IH]; intros [|y r]; simpl; auto.
  destruct (decide (x = y)) as [->|Hne].
  - rewrite !bool_decide_eq_true_2 by done. destruct (IH r) as [->|?]; auto.
  - rewrite !bool_decide_eq_false_2 by congruence.
    assert (byte.unsigned x ≠ byte.unsigned y) by eauto using unsigned_inj. lia.
Qed.

Lemma str_lt_trans a b c : str_lt a b = true → str_lt b c = true → str_lt a c = true.
Proof.
  revert b c. induction a as [|x a IH]; intros [|y b] [|z c]; simpl; try done.
  intros Hab Hbc.
  destruct (decide (x = y)) as [->|]; [rewrite bool_decide_eq_true_2 in Hab by done
                                      |rewrite bool_decide_eq_false_2 in Hab by done];
  (destruct (decide (y = z)) as [->|]; [rewrite bool_decide_eq_true_2 in Hbc by done
                                       |rewrite bool_decide_eq_false_2 in Hbc by done]).
  - rewrite bool_decide_eq_true_2 by done. eauto.
  - by rewrite bool_decide_eq_false_2 by done.
  - by rewrite bool_decide_eq_false_2 by done.
  - assert (x ≠ z) by (intros ->; lia). rewrite bool_decide_eq_false_2 by done. lia.
Qed.

Lemma str_lt_asym a b : str_lt a b = true → str_lt b a = false.
Proof.
  intros Hab. destruct (str_lt b a) eqn:Hba; [|done].
  by rewrite <-(str_lt_irrefl a), (str_lt_trans a b a).
Qed.

Lemma str_lt_antisym a b : str_lt a b = false → str_lt b a = false → a = b.
Proof. destruct (str_lt_total a b) as [?|[?|?]]; congruence. Qed.

(** Length normalisation, shared by every codec proof. *)
Create Rewrite HintDb len.
#[export] Hint Rewrite @length_app @length_take @length_drop @length_cons @length_nil
  @length_replicate @length_insert @length_rev length_put_le length_put_be : len.
Ltac len := autorewrite with len in *; simpl in *; try lia.

(** ** Taking fields off a buffer *)

(** [b[0:n]] together with [b = b[n:]]; the second panics when [b] is short. *)
Definition cut (b : bytes) (n : nat) : outcome (bytes * bytes) :=
  if bool_decide (length b < n) then Panic else Ok (take n b, drop n b).

Lemma cut_app (a b : bytes) n : length a = n → cut (a ++ b) n = Ok (a, b).
Proof.
  intros <-. unfold cut. rewrite bool_decide_eq_false_2 by (rewrite length_app; lia).
  by rewrite take_app_length, drop_app_length.
Qed.

(** Take the next field off the data. *)
Ltac cut_step :=
  rewrite cut_app by (done || apply length_put_le); cbn beta iota delta [mbind outcome_bind].
