(* ===== verification/Store.v ===== *)
(** The content store interface, [bpy.CStore] of bpy.go.

    [CStore] has the interface's methods, [CStoreLaws] what every client of the
    interface relies on: a block that was [Put] can be got back under the hash
    that [Put] returned, for as long as the store lives.  [MemStore] is the
    in-memory store of testhelp/memstore.go, and [Checked] discharges the laws
    for it up to the first hash collision. *)

From stdpp Require Import base list gmap strings.
From S2P Require Import Prelude.

Set Default Goal Selector "!".

(** A [[32]byte] hash. *)
Abbreviation hash := bytes (only parsing).
Definition hash_len : nat := 32.

Class CStore (St : Type) := {
  Put : bytes → M St hash;
  Get : hash → M St bytes;
  Flush : M St unit;
  Close : M St unit;
}.

(** [holds s h d]: block [d] is retrievable from [s] under hash [h].  [saved s] is the store
    as a client that opens it anew finds it: a store may buffer blocks until it is flushed or
    closed, and only those of [saved s] outlive the client.  [keeps s s']: nothing the store held is
    lost, and nothing it had saved.
    [put_fails] and [get_fails] are the errors a store may report for a [Put]
    and for a [Get] of a block it holds.  [lossy s]: a [Close] of the store succeeded although its
    flush failed; cstore/writer.go drops that error.  Nothing but closing makes a store lossy. *)
Class CStoreLaws (St : Type) `{CStore St} := {
  holds : St → hash → bytes → Prop;
  saved : St → St;
  put_fails : error → Prop;
  get_fails : error → Prop;
  lossy : St → Prop;
  saves s s' : Prop := ∀ h d, holds (saved s) h d → holds (saved s') h d;
  keeps s s' : Prop := (∀ h d, holds s h d → holds s' h d) ∧ saves s s';
  saved_holds s h d : holds (saved s) h d → holds s h d;
  saved_idem s : saved (saved s) = saved s;
  Put_law d s :
    wp (Put d)
       (λ h s', length h = hash_len ∧ holds s' h d ∧ keeps s s')
       (λ e s', put_fails e ∧ keeps s s') s;
  Get_law h d s :
    holds s h d →
    wp (Get h)
       (λ d' s', d' = d ∧ keeps s s')
       (λ e s', get_fails e ∧ keeps s s') s;
  Close_law s :
    wp Close
       (λ _ s', keeps s s' ∧ (keeps s (saved s') ∨ lossy s'))
       (λ _ s', saves s s') s;
  Put_clean d s : lossy (Put d s).2 → lossy s;
  Get_clean h s : lossy (Get h s).2 → lossy s;
}.

Section Keeps.
Context {St : Type} `{CStoreLaws St}.
#[global] Instance saves_preorder : PreOrder (saves (St:=St)).
Proof. split; [by intros ? ? ?|]. intros s1 s2 s3 H1 H2 h d ?. by apply H2, H1. Qed.
#[global] Instance keeps_preorder : PreOrder (keeps (St:=St)).
Proof.
  split; [by split|]. intros s1 s2 s3 [H1 S1] [H2 S2]. split; [by auto|by transitivity s2].
Qed.

Lemma keeps_holds s s' h d : keeps s s' → holds s h d → holds s' h d.
Proof. intros [Hk _]. apply Hk. Qed.
Lemma keeps_saves s s' : keeps s s' → saves s s'.
Proof. by intros [_ Hs]. Qed.
Lemma saved_keeps s : keeps (saved s) s.
Proof. split; [apply saved_holds|]. unfold saves. by rewrite saved_idem. Qed.
(** What was saved is kept by whatever loses nothing that was saved. *)
Lemma saves_keeps s s' : saves s s' → keeps (saved s) (saved s').
Proof. intros Hs. split; [done|]. unfold saves. by rewrite !saved_idem. Qed.
End Keeps.

Create HintDb store.
#[export] Hint Unfold keeps : store.

(** ** testhelp.MemStore *)
Module MemStore.
Section MemStore.
(** [crypto/sha256]: only its 32-byte result matters here. *)
Variable Sum256 : bytes → hash.

Record MemStore := mkMemStore { vals : gmap bytes bytes }.

Definition NewMemStore : MemStore := mkMemStore ∅.

Definition get (h : hash) : M MemStore bytes :=
  m ← Prelude.get;
  match m.(vals) !! h with
  | Some val => mret val
  | None => throw (ENew "hash not found in store")
  end.

Definition put (val : bytes) : M MemStore hash :=
  let h := Sum256 val in
  modify (λ m, mkMemStore (<[h := val]> m.(vals)));;
  mret h.

Definition flush : M MemStore unit := mret ().
Definition close : M MemStore unit := mret ().

#[local] Instance memstore_cstore : CStore MemStore :=
  {| Put := put; Get := get; Flush := flush; Close := close |}.
End MemStore.
End MemStore.

(** ** A store that reports collisions

    Content addressing is only meaningful while no two different blocks share a
    hash.  [Checked] is [MemStore] with a [put] that refuses a block whose hash
    already names a different one; as long as it does not refuse, it is
    [MemStore] step for step ([checked_put_memstore]). *)
Module Checked.
Import MemStore.
Section Checked.
Variable Sum256 : bytes → hash.
Hypothesis Sum256_len : ∀ d, length (Sum256 d) = hash_len.

Definition collision : error := ENew "hash collision".

Definition put (val : bytes) : M MemStore hash :=
  m ← Prelude.get;
  match m.(vals) !! Sum256 val with
  | Some val' => if decide (val' = val) then MemStore.put Sum256 val else throw collision
  | None => MemStore.put Sum256 val
  end.

Definition checked_cstore : CStore MemStore :=
  {| Put := put; Get := MemStore.get; Flush := flush; Close := close |}.

Lemma checked_put_memstore d s h s' :
  put d s = (Ok h, s') → MemStore.put Sum256 d s = (Ok h, s').
Proof.
  unfold put, mbind, M_bind, Prelude.get.
  destruct (vals s !! _) as [d'|]; [destruct (decide (d' = d))|]; done.
Qed.

Lemma mem_put_holds d (m : MemStore) :
  m.(vals) !! Sum256 d = None ∨ m.(vals) !! Sum256 d = Some d →
  ∀ h' d', m.(vals) !! h' = Some d' → <[Sum256 d := d]> m.(vals) !! h' = Some d'.
Proof.
  intros Hd h' d' Hh. destruct (decide (Sum256 d = h')) as [<-|Hne].
  - rewrite lookup_insert_eq. destruct Hd; congruence.
  - by rewrite lookup_insert_ne.
Qed.

Lemma checked_put_spec d m :
  wp (put d) (λ h m', h = Sum256 d ∧ vals m' !! h = Some d ∧ ∀ h' d', vals m !! h' = Some d' → vals m' !! h' = Some d')
     (λ e m', e = collision ∧ m' = m) m.
Proof.
  unfold put. wp_steps.
  destruct (vals m !! Sum256 d) as [d'|] eqn:Hd;
    [destruct (decide (d' = d)) as [->|Hne]|];
    unfold MemStore.put; wp_steps; simpl;
    split_and?; try apply lookup_insert_eq; try apply mem_put_holds; auto.
Qed.

(** Nothing is buffered: what is there is saved. *)
Program Definition checked_laws : @CStoreLaws MemStore checked_cstore :=
  {| holds s h d := s.(vals) !! h = Some d;
     saved s := s;
     put_fails e := e = collision;
     get_fails e := False;
     lossy s := False |}.
Next Obligation. done. Qed.
Next Obligation. done. Qed.
Next Obligation.
  intros d m. eapply wp_mono; [apply checked_put_spec|..]; cbn beta.
  - intros ? m' (-> & Hd & Hk). by split_and!.
  - by intros ? ? [-> ->].
Qed.
Next Obligation.
  intros h d m Hh. unfold Get; simpl. unfold MemStore.get. wp_steps.
  rewrite Hh. by wp_steps.
Qed.
Next Obligation. intros m. apply wp_ret. split; [done|by left]. Qed.
Next Obligation. done. Qed.
Next Obligation. done. Qed.
End Checked.
End Checked.

(** ** A store that buffers

    What a client puts is its own until it closes the store, as in cstore/writer.go; a store whose
    flush [fails] loses it and says nothing.  The blocks are those of [Checked]. *)
Module Buffered.
Section Buffered.
Variable Sum256 : bytes → hash.
Hypothesis Sum256_len : ∀ d, length (Sum256 d) = hash_len.
Variable fails : bool.

Record Buffered := mkBuffered { disk : gmap bytes bytes; work : gmap bytes bytes; dropped : bool }.

Definition found (s : Buffered) (h : hash) : option bytes :=
  match s.(disk) !! h with Some val => Some val | None => s.(work) !! h end.

Definition get (h : hash) : M Buffered bytes :=
  s ← Prelude.get;
  match found s h with
  | Some val => mret val
  | None => throw (ENew "hash not found in store")
  end.

Definition put (val : bytes) : M Buffered hash :=
  let h := Sum256 val in
  s ← Prelude.get;
  match found s h with
  | Some val' => if decide (val' = val) then mret h else throw Checked.collision
  | None => modify (λ s, mkBuffered s.(disk) (<[h := val]> s.(work)) s.(dropped));; mret h
  end.

Definition flush : M Buffered unit :=
  modify (λ s, if fails then mkBuffered s.(disk) s.(work) true else mkBuffered (s.(disk) ∪ s.(work)) ∅ s.(dropped)).

(** What another client sees. *)
Definition reopened (s : Buffered) : Buffered := mkBuffered s.(disk) ∅ false.

Definition buffered_cstore : CStore Buffered :=
  {| Put := put; Get := get; Flush := flush; Close := flush |}.

Lemma buffered_put_spec d s :
  wp (put d) (λ h s', h = Sum256 d ∧ disk s' = disk s ∧ found s' h = Some d ∧ ∀ h' d', found s h' = Some d' → found s' h' = Some d')
     (λ e s', e = Checked.collision ∧ s' = s) s.
Proof.
  unfold put. wp_steps. destruct (found s (Sum256 d)) as [d'|] eqn:Hd.
  { destruct (decide (d' = d)) as [->|Hne]; by wp_steps. }
  wp_steps. unfold found in *. simpl. destruct (disk s !! Sum256 d) eqn:Hdisk; [done|]. split_and!; [done|done|..].
  - by rewrite lookup_insert_eq.
  - intros h' d'. destruct (disk s !! h'); [done|]. intros Hw. rewrite lookup_insert_ne; [done|]. intros <-. congruence.
Qed.

Lemma buffered_flush_spec s :
  wp flush (λ _ s', if fails then s' = mkBuffered (disk s) (work s) true
                    else ∀ h d, found s h = Some d → found s' h = Some d ∧ disk s' !! h = Some d) (λ _ _, False) s.
Proof.
  unfold flush. destruct fails; wp_steps; [done|]. intros h d. unfold found. simpl. intros Hf.
  assert (Hu : (disk s ∪ work s) !! h = Some d).
  { apply lookup_union_Some_raw. destruct (disk s !! h); [by left; simplify_eq|by right]. }
  by rewrite Hu.
Qed.

Lemma found_reopened s h : found (reopened s) h = disk s !! h.
Proof. unfold found, reopened. simpl. rewrite lookup_empty. by destruct (disk s !! h). Qed.

Program Definition buffered_laws : @CStoreLaws Buffered buffered_cstore :=
  {| holds s h d := found s h = Some d;
     saved := reopened;
     put_fails e := e = Checked.collision;
     get_fails e := False;
     lossy s := dropped s = true |}.
Next Obligation. intros s h d. cbv beta. rewrite found_reopened. unfold found. by intros ->. Qed.
Next Obligation. done. Qed.
Next Obligation.
  intros d s. eapply wp_mono; [apply buffered_put_spec|..]; cbn beta.
  - intros ? s' (-> & Hdisk & Hd & Hk). split_and!; [apply Sum256_len|done|done|].
    intros h' d'. cbv beta. by rewrite !found_reopened, Hdisk.
  - by intros ? ? [-> ->].
Qed.
Next Obligation.
  intros h d s Hh. unfold Get; simpl. unfold get. wp_steps. rewrite Hh. by wp_steps.
Qed.
Next Obligation.
  intros s. eapply wp_mono; [apply buffered_flush_spec| |done]. cbn beta. intros _ s' Hs. destruct fails eqn:Hf.
  - subst s'. split; [done|by right].
  - assert (Hsv : ∀ h d, found s h = Some d → found (reopened s') h = Some d).
    { intros h d Hd. rewrite found_reopened. by apply Hs. }
    assert (Hold : ∀ h d, found (reopened s) h = Some d → found (reopened s') h = Some d).
    { intros h d. rewrite found_reopened. intros Hd. apply Hsv. unfold found. by rewrite Hd. }
    split; [|left; split; [exact Hsv|exact Hold]]. split; [|exact Hold]. intros h d Hd. by apply Hs.
Qed.
Next Obligation.
  intros d s. unfold Put; simpl. unfold put, mbind, M_bind, Prelude.get, modify, mret, M_ret.
  destruct (found s (Sum256 d)); [by case_decide|done].
Qed.
Next Obligation.
  intros h s. unfold Get; simpl. unfold get, mbind, M_bind, Prelude.get, mret, M_ret. by destruct (found s h).
Qed.
End Buffered.
End Buffered.
