(* ===== verification/Htree.v ===== *)
(** Hash trees, the htree package (htree.go, writer.go, reader.go).

    A stream is cut into leaves of at most [maxlen - 1] bytes; interior nodes
    list [offset:hash] pairs of their children.  This file has the program:
    the [Writer] with [flushLvl], [Write] and [Close], and the [Reader] with
    [Seek], [Read] and [next], over any content store.  HtreeSpec says what a
    stored tree is, HtreeWrite and HtreeRead prove the two halves correct. *)

From Stdlib Require Import ZArith Lia.
From stdpp Require Import base list strings.
From coqutil Require Import Byte.
From S2P Require Import Prelude Store.

Set Default Goal Selector "!".

(** [nlevels] and [maxlen] of htree.go.  The theorems hold for any values that
    leave room for two entries per node, so that concrete runs can use short
    buffers; [source_params] are the values of the source. *)
Class Params := { nlevels : nat; maxlen : nat }.

Definition source_params : Params := {| nlevels := 10; maxlen := N.to_nat 65535 |}.

Record HTree := mkHTree { Depth : nat; Data : hash }.

(** [binary.LittleEndian.PutUint64(l[off:], ...)]: panics when the eight bytes
    do not fit. *)
Definition put_at (l : bytes) (off : nat) (src : bytes) : outcome bytes :=
  if decide (off + length src ≤ length l) then Ok (splice l off src) else Panic.

(** [var h [32]byte; copy(h[:], src)] *)
Definition copy32 (src : bytes) : hash := splice (replicate hash_len b0) 0 src.

(** ** writer.go *)
Section Writer.
Context {P : Params} {St : Type} `{CStore St}.

Record Writer := mkWriter {
  w_store : St;
  w_lvls : list bytes;
  w_nbytes : list nat;
  w_offset : Z;
}.

Definition NewWriter (store : St) : Writer :=
  mkWriter store (replicate nlevels (replicate maxlen b0))
           (<[0 := 1]> (replicate nlevels 0)) 0.

Definition w_set_store (s : St) (w : Writer) : Writer :=
  mkWriter s w.(w_lvls) w.(w_nbytes) w.(w_offset).

(** [w.nbytes[lvl]], [w.nbytes[lvl] = n], [w.lvls[lvl]], [w.lvls[lvl] = r] *)
Definition w_nb (lvl : nat) : M Writer nat :=
  w ← get; lift (idx w.(w_nbytes) lvl).
Definition w_set_nb (lvl n : nat) : M Writer unit :=
  w ← get; l ← lift (set_idx w.(w_nbytes) lvl n);
  modify (λ w, mkWriter w.(w_store) w.(w_lvls) l w.(w_offset)).
Definition w_row (lvl : nat) : M Writer bytes :=
  w ← get; lift (idx w.(w_lvls) lvl).
Definition w_set_row (lvl : nat) (r : bytes) : M Writer unit :=
  w ← get; l ← lift (set_idx w.(w_lvls) lvl r);
  modify (λ w, mkWriter w.(w_store) l w.(w_nbytes) w.(w_offset)).

Definition w_set_level (lvl : nat) (r : bytes) (n : nat) : M Writer unit :=
  w_set_row lvl r;; w_set_nb lvl n.

(** The middle of [flushLvl]: append [offset:hash] to level [lvl + 1].  A leaf
    is named by the writer's offset, a node by its first entry's. *)
Definition add_entry (lvl : nat) (h : hash) : M Writer unit :=
  n1 ← w_nb (S lvl);
  when (bool_decide (n1 = 0))
    (r1 ← w_row (S lvl); r1 ← lift (set_idx r1 0 (nbyte (S lvl)));
     w_set_level (S lvl) r1 1);;
  n1 ← w_nb (S lvl);
  r1 ← w_row (S lvl);
  r1 ← (if bool_decide (lvl = 0) then
          w ← get; lift (put_at r1 n1 (put_le 8 w.(w_offset)))
        else
          r ← w_row lvl; src ← lift (slice r 1 9);
          lift (copy_at r1 n1 maxlen src));
  r1 ← lift (copy_at r1 (n1 + 8) maxlen h);
  w_set_level (S lvl) r1 (n1 + (8 + length h)).

(** The end of [flushLvl]: advance the offset past a leaf, empty the level. *)
Definition reset_level (lvl : nat) : M Writer unit :=
  when (bool_decide (lvl = 0))
    (n0 ← w_nb 0;
     modify (λ w, mkWriter w.(w_store) w.(w_lvls) w.(w_nbytes)
                    (u64 (w.(w_offset) + (Z.of_nat n0 - 1)))));;
  r ← w_row lvl; r ← lift (set_idx r 0 (nbyte lvl));
  w_set_level lvl r 1.

(** The recursion climbs the levels, so [nlevels - lvl] calls are all there
    can be: the next one indexes past the array. *)
Fixpoint flushLvl_from (fuel lvl : nat) : M Writer unit :=
  match fuel with
  | O => panic
  | S fuel =>
    r ← w_row lvl; n ← w_nb lvl;
    data ← lift (slice r 0 n);
    h ← zoom w_store w_set_store (Put data);
    n1 ← w_nb (S lvl);
    when (bool_decide (maxlen < n1 + (8 + length h))) (flushLvl_from fuel (S lvl));;
    add_entry lvl h;;
    reset_level lvl
  end.

Definition flushLvl (lvl : nat) : M Writer unit := flushLvl_from (nlevels - lvl) lvl.

(** The two branches of the loop of [Write]. *)
Definition flush_leaf : M Writer unit :=
  flushLvl 0;;
  r ← w_row 0; r ← lift (set_idx r 0 b0);
  w_set_level 0 r 1.
Definition fill_leaf (n0 n : nat) (buf : bytes) : M Writer unit :=
  r ← w_row 0; r ← lift (copy_at r n0 maxlen buf);
  w_set_level 0 r (n0 + n).

(** The loop of [Write]: an iteration that flushes is followed by one that
    copies, so twice the bytes to write bounds the trip count. *)
Fixpoint Write_loop (fuel : nat) (buf : bytes) : M Writer unit :=
  match buf with
  | [] => mret ()
  | _ =>
    match fuel with
    | O => diverge
    | S fuel =>
      n0 ← w_nb 0;
      let n := Nat.min (length buf) (maxlen - n0) in
      if bool_decide (n = 0) then
        flush_leaf;; Write_loop fuel buf
      else
        fill_leaf n0 n buf;; Write_loop fuel (drop n buf)
    end
  end.

Definition Write (buf : bytes) : M Writer nat :=
  Write_loop (2 * length buf) buf;; mret (length buf).

(** The first loop of [Close]: the highest level in use. *)
Fixpoint highest_below (nbytes : list nat) (i : nat) : outcome nat :=
  match i with
  | O => Panic
  | S i =>
    n ← idx nbytes i;
    if bool_decide (n = 0) then highest_below nbytes i else mret i
  end.

(** The second loop of [Close]: flush [count] levels from [i] up. *)
Fixpoint flush_levels (count i : nat) : M Writer unit :=
  match count with
  | O => mret ()
  | S count =>
    n ← w_nb i;
    when (negb (bool_decide (n = 0))) (flushLvl i);;
    flush_levels count (S i)
  end.

Definition CloseWriter : M Writer HTree :=
  w ← get;
  highest ← lift (highest_below w.(w_nbytes) nlevels);
  flush_levels (S highest) 0;;
  n ← w_nb (S highest);
  r ← w_row (S highest);
  if bool_decide (n = 41) then
    h ← lift (slice r 9 41);
    mret (mkHTree highest h)
  else
    finalbuf ← lift (slice r 0 n);
    h ← zoom w_store w_set_store (Put finalbuf);
    mret (mkHTree (S highest) h).
End Writer.
Arguments Writer : clear implicits.

(** ** reader.go *)
Section Reader.
Context {P : Params} {St : Type} `{CStore St}.

Record Reader := mkReader {
  r_root : hash;
  r_store : St;
  r_height : nat;
  r_lvls : list bytes;
  r_pos : list nat;
  r_length : list nat;
  r_offset : Z;
}.

Definition r_set_store (s : St) (r : Reader) : Reader :=
  mkReader r.(r_root) s r.(r_height) r.(r_lvls) r.(r_pos) r.(r_length) r.(r_offset).
Definition r_set_height (h : nat) (r : Reader) : Reader :=
  mkReader r.(r_root) r.(r_store) h r.(r_lvls) r.(r_pos) r.(r_length) r.(r_offset).
Definition r_add_offset (n : nat) (r : Reader) : Reader :=
  mkReader r.(r_root) r.(r_store) r.(r_height) r.(r_lvls) r.(r_pos) r.(r_length)
           (u64 (r.(r_offset) + Z.of_nat n)).

Definition r_posn (lvl : nat) : M Reader nat := r ← get; lift (idx r.(r_pos) lvl).
Definition r_len (lvl : nat) : M Reader nat := r ← get; lift (idx r.(r_length) lvl).
Definition r_row (lvl : nat) : M Reader bytes := r ← get; lift (idx r.(r_lvls) lvl).
Definition r_set_posn (lvl n : nat) : M Reader unit :=
  r ← get; l ← lift (set_idx r.(r_pos) lvl n);
  modify (λ r, mkReader r.(r_root) r.(r_store) r.(r_height) r.(r_lvls) l r.(r_length) r.(r_offset)).
Definition r_set_len (lvl n : nat) : M Reader unit :=
  r ← get; l ← lift (set_idx r.(r_length) lvl n);
  modify (λ r, mkReader r.(r_root) r.(r_store) r.(r_height) r.(r_lvls) r.(r_pos) l r.(r_offset)).
Definition r_set_row (lvl : nat) (b : bytes) : M Reader unit :=
  r ← get; l ← lift (set_idx r.(r_lvls) lvl b);
  modify (λ r, mkReader r.(r_root) r.(r_store) r.(r_height) l r.(r_pos) r.(r_length) r.(r_offset)).

Definition r_get (h : hash) : M Reader bytes := zoom r_store r_set_store (Get h).

(** Load the root block, shared by [NewReader] and [Seek]:
    [r.length[lvl], r.pos[lvl], r.height = len(buf), 1, lvl]. *)
Definition load_root (buf : bytes) : M Reader nat :=
  b ← lift (idx buf 0);
  let lvl := Z.to_nat (byte.unsigned b) in
  r_set_len lvl (length buf);;
  r_set_posn lvl 1;;
  modify (r_set_height lvl);;
  row ← r_row lvl;
  r_set_row lvl (splice row 0 buf);;
  mret lvl.

Definition blank_reader (store : St) (root : hash) : Reader :=
  mkReader root store 0 (replicate nlevels (replicate maxlen b0))
           (replicate nlevels 0) (replicate nlevels 0) 0.

(** [NewReader] runs on the blank reader it allocates. *)
Definition NewReader : M Reader unit :=
  r ← get;
  buf ← r_get r.(r_root);
  load_root buf;;
  mret ().

Definition GetHeight : M Reader nat := gets r_height.

(** [binary.LittleEndian.Uint64(row[off:])] *)
Definition uint64_at (row : bytes) (off : nat) : outcome Z :=
  b ← slice row off (off + 8); mret (get_le b).

(** The inner [for] of [Seek] at level [lvl]: it moves 40 bytes per iteration
    and panics at the end of the row, so [maxlen] iterations are enough. *)
Fixpoint seek_level (fuel lvl : nat) (absoff : Z) : M Reader Z :=
  match fuel with
  | O => diverge
  | S fuel =>
    row ← r_row lvl; pos ← r_posn lvl;
    curoff ← lift (uint64_at row pos);
    enthash ← lift (slice row (pos + 8) (length row));
    r_set_posn lvl (pos + 40);;
    len ← r_len lvl;
    nextoff ← (if bool_decide (pos + 40 < len) then lift (uint64_at row (pos + 40))
               else mret (u64 (absoff + 1)));
    if bool_decide (absoff < nextoff)%Z then
      buf ← r_get (copy32 enthash);
      let lvl := pred lvl in
      r_set_len lvl (length buf);;
      r_set_posn lvl 1;;
      row ← r_row lvl;
      r_set_row lvl (splice row 0 buf);;
      mret curoff
    else seek_level fuel lvl absoff
  end.

(** The outer [for lvl != 0]. *)
Fixpoint seek_down (lvl : nat) (absoff curoff : Z) : M Reader Z :=
  match lvl with
  | O => mret curoff
  | S lvl' =>
    curoff ← seek_level maxlen lvl absoff;
    seek_down lvl' absoff curoff
  end.

(** Offsets are [uint64], positions are Go [int]s.  A position that would
    become negative, which takes a node whose first offset is not its parent's,
    is a panic here; the source panics in the [Read] that follows. *)
Definition Seek (absoff : Z) : M Reader Z :=
  r ← get;
  if bool_decide (r.(r_offset) = absoff) then mret r.(r_offset)
  else
    buf ← r_get r.(r_root);
    lvl ← load_root buf;
    curoff ← seek_down lvl absoff 0;
    let skipamnt := i64 (absoff - curoff) in
    pos ← r_posn 0; len ← r_len 0;
    if bool_decide (Z.of_nat len < skipamnt + Z.of_nat pos)%Z then
      r_set_posn 0 len;;
      mret (u64 (absoff - (skipamnt + Z.of_nat pos - Z.of_nat len)))
    else if bool_decide (skipamnt + Z.of_nat pos < 0)%Z then panic
    else
      r_set_posn 0 (Z.to_nat (Z.of_nat pos + skipamnt));;
      mret absoff.

(** The end of [next]: descend into the next entry of level [lvl + 1]. *)
Definition load_child (lvl : nat) : M Reader bool :=
  pos ← r_posn (S lvl);
  up ← r_row (S lvl);
  hsrc ← lift (slice up (pos + 8) maxlen);
  buf ← r_get (copy32 hsrc);
  row ← r_row lvl;
  row ← lift (copy_at row 0 (length buf) buf);
  r_set_row lvl row;;
  r_set_posn (S lvl) (pos + 40);;
  r_set_len lvl (length buf);;
  r_set_posn lvl 1;;
  mret false.

(** [next] climbs the levels like [flushLvl]. *)
Fixpoint next_from (fuel lvl : nat) : M Reader bool :=
  match fuel with
  | O => panic
  | S fuel =>
    height ← gets r_height;
    if bool_decide (height < lvl) then throw (ENew "corrupt hash tree: overflowed")
    else
      pos ← r_posn (S lvl); len ← r_len (S lvl);
      eof ← (if bool_decide (len ≤ pos) then
               if bool_decide (height < S lvl) then mret true
               else next_from fuel (S lvl)
             else mret false);
      if (eof : bool) then mret true
      else
        load_child lvl
  end.

Definition next (lvl : nat) : M Reader bool := next_from (nlevels - lvl) lvl.

(** [r.lvls[0][r.pos[0]:r.length[0]]] *)
Definition leaf_window : M Reader bytes :=
  row ← r_row 0; pos ← r_posn 0; len ← r_len 0; lift (slice row pos len).

(** [Read(buf)] for a buffer of [n] bytes returns the bytes it puts there. *)
Definition Read (n : nat) : M Reader bytes :=
  src ← leaf_window;
  src ← (if bool_decide (length src = 0) then
           eof ← next 0;
           if (eof : bool) then throw EOF else leaf_window
         else mret src);
  let out := take n src in
  pos ← r_posn 0;
  r_set_posn 0 (pos + length out);;
  modify (r_add_offset (length out));;
  mret out.

(** [ioutil.ReadAll]: read until EOF, the i-th read with a buffer of [sz i]
    bytes. *)
Fixpoint ReadAll_from (sz : nat → nat) (fuel i : nat) : M Reader bytes :=
  match fuel with
  | O => diverge
  | S fuel =>
    o ← try (Read (sz i));
    match o with
    | inl d => rest ← ReadAll_from sz fuel (S i); mret (d ++ rest)
    | inr e => if decide (e = EOF) then mret [] else throw e
    end
  end.
End Reader.
Arguments Reader : clear implicits.
