(* ===== verification/HtreeSpec.v ===== *)
(** What a stored hash tree is.

    [tree_at s lvl h off d]: in store [s], [h] names a well-formed tree of depth
    [lvl] whose content is [d] and whose first byte is at stream offset [off].
    [forest_at] is the same for the entry list of an interior node.  [minsz]
    bounds the content of a subtree from below by its depth: the writer keeps
    full subtrees while it runs and non-empty ones when it closes. *)

From Stdlib Require Import ZArith Lia.
From stdpp Require Import base list.
From coqutil Require Import Byte.
From S2P Require Import Prelude Store Htree.

Set Default Goal Selector "!".

(** Room for two entries in a node, and a level's index fits its tag byte. *)
Class ParamsOk {P : Params} : Prop := {
  maxlen_two_entries : 81 ≤ maxlen;
  nlevels_three : 3 ≤ nlevels;
  nlevels_byte : nlevels ≤ 256;
}.

#[global] Instance source_params_ok : @ParamsOk source_params.
Proof. split; unfold nlevels, maxlen, source_params; lia. Qed.

(** Entries in a full node. *)
Definition fanout {P : Params} : nat := (maxlen - 1) / 40.

Definition entry (off : nat) (h : hash) : bytes := put_le 8 (Z.of_nat off) ++ h.

Lemma length_entry off h : length h = hash_len → length (entry off h) = 40.
Proof. unfold entry, hash_len. intros. len. Qed.

Section Spec.
Context {P : Params} {St : Type} `{CStoreLaws St}.
Variable minsz : nat → nat.

Inductive tree_at (s : St) : nat → hash → nat → bytes → Prop :=
  | tree_leaf h off d :
      holds s h (b0 :: d) → length h = hash_len → S (length d) ≤ maxlen →
      minsz 0 ≤ length d → tree_at s 0 h off d
  | tree_node lvl h off es d :
      holds s h (nbyte (S lvl) :: es) → length h = hash_len → S (length es) ≤ maxlen →
      minsz (S lvl) ≤ length d → es ≠ [] → forest_at s lvl off es d →
      tree_at s (S lvl) h off d
with forest_at (s : St) : nat → nat → bytes → bytes → Prop :=
  | forest_nil lvl off : forest_at s lvl off [] []
  | forest_cons lvl off h d es ds :
      tree_at s lvl h off d → forest_at s lvl (off + length d) es ds →
      forest_at s lvl off (entry off h ++ es) (d ++ ds).

Scheme tree_at_mut := Induction for tree_at Sort Prop
with forest_at_mut := Induction for forest_at Sort Prop.
Combined Scheme tree_forest_ind from tree_at_mut, forest_at_mut.

Lemma tree_at_hash s lvl h off d : tree_at s lvl h off d → length h = hash_len.
Proof. by destruct 1. Qed.
Lemma tree_at_minsz s lvl h off d : tree_at s lvl h off d → minsz lvl ≤ length d.
Proof. by destruct 1. Qed.

(** Trees survive whatever the store does later. *)
Lemma tree_forest_keeps s s' :
  keeps s s' →
  (∀ lvl h off d, tree_at s lvl h off d → tree_at s' lvl h off d) ∧
  (∀ lvl off es d, forest_at s lvl off es d → forest_at s' lvl off es d).
Proof.
  intros [Hk _]. apply tree_forest_ind; intros; eauto using tree_leaf, tree_node, forest_at.
Qed.
Lemma tree_at_keeps s s' lvl h off d :
  keeps s s' → tree_at s lvl h off d → tree_at s' lvl h off d.
Proof. intros. by eapply (tree_forest_keeps s s'). Qed.
Lemma forest_at_keeps s s' lvl off es d :
  keeps s s' → forest_at s lvl off es d → forest_at s' lvl off es d.
Proof. intros. by eapply (tree_forest_keeps s s'). Qed.

Lemma forest_snoc s lvl off es d h d' :
  forest_at s lvl off es d → tree_at s lvl h (off + length d) d' →
  forest_at s lvl off (es ++ entry (off + length d) h) (d ++ d').
Proof.
  induction 1 as [|lvl off h0 d0 es ds Ht Hf IH]; simpl; intros Hd'.
  - rewrite Nat.add_0_r in *. rewrite <-(app_nil_r (entry _ _)), <-(app_nil_r d').
    econstructor; eauto. constructor.
  - rewrite <-!app_assoc. econstructor; [done|].
    rewrite length_app, Nat.add_assoc in *. auto.
Qed.

(** A node of [k] entries is [40 k] bytes long and covers [k] subtrees. *)
Lemma forest_length s lvl off es d :
  forest_at s lvl off es d →
  ∃ k, length es = 40 * k ∧ k * minsz lvl ≤ length d ∧ (es ≠ [] → 0 < k).
Proof.
  induction 1 as [|lvl off h d es ds Ht Hf (k & Hk & Hd & _)]; [by exists 0|].
  exists (S k). rewrite !length_app, length_entry by eauto using tree_at_hash.
  apply tree_at_minsz in Ht. lia.
Qed.

Lemma forest_head s lvl off es d :
  forest_at s lvl off es d → es ≠ [] → take 8 es = put_le 8 (Z.of_nat off) ∧ 40 ≤ length es.
Proof.
  destruct 1 as [|? ? h]; [done|]. intros _. unfold entry at 1. split.
  - rewrite <-app_assoc. apply take_app_length'. len.
  - rewrite length_app, length_entry by eauto using tree_at_hash. lia.
Qed.
(** The body of a level-[lvl] block and the stream bytes it stands for. *)
Definition block (s : St) lvl off (body d : bytes) : Prop :=
  match lvl with
  | O => body = d
  | S l => body ≠ [] ∧ forest_at s l off body d
  end.

Lemma block_tree s lvl h off body d :
  holds s h (nbyte lvl :: body) → length h = hash_len → S (length body) ≤ maxlen →
  minsz lvl ≤ length d → block s lvl off body d → tree_at s lvl h off d.
Proof.
  destruct lvl; simpl; intros.
  - subst. by apply tree_leaf.
  - destruct_and?. by eapply tree_node.
Qed.

Lemma block_keeps s s' lvl off body d :
  keeps s s' → block s lvl off body d → block s' lvl off body d.
Proof. destruct lvl; simpl; [done|]. intros ? []. eauto using forest_at_keeps. Qed.

Lemma block_key s lvl off body d :
  block s (S lvl) off body d → take 8 body = put_le 8 (Z.of_nat off) ∧ 8 ≤ length body.
Proof. intros [Hne Hf]. destruct (forest_head _ _ _ _ _ Hf Hne). split; [done|lia]. Qed.

Lemma tree_block s lvl h off d :
  tree_at s lvl h off d →
  ∃ body, holds s h (nbyte lvl :: body) ∧ S (length body) ≤ maxlen ∧
          minsz lvl ≤ length d ∧ block s lvl off body d.
Proof. destruct 1; eexists; by repeat split. Qed.

Lemma forest_nil_inv s lvl off d : forest_at s lvl off [] d → d = [].
Proof.
  remember [] as es eqn:He. destruct 1 as [|? ? h]; [done|].
  apply (f_equal length) in He. rewrite length_app, length_entry in He
    by eauto using tree_at_hash. simpl in He. lia.
Qed.
End Spec.

Lemma tree_forest_minsz {P : Params} {St : Type} `{CStoreLaws St} (m m' : nat → nat) s :
  (∀ l, m' l ≤ m l) →
  (∀ lvl h off d, tree_at m s lvl h off d → tree_at m' s lvl h off d) ∧
  (∀ lvl off es d, forest_at m s lvl off es d → forest_at m' s lvl off es d).
Proof.
  intros Hle. apply tree_forest_ind; intros;
    eauto using tree_leaf, tree_node, forest_at, Nat.le_trans.
Qed.

(** ** Sizes *)

(** The content of a full subtree of depth [l]. *)
Definition full_size {P : Params} (l : nat) : nat := (maxlen - 1) * fanout ^ l.

(** Streams shorter than this never reach the top two levels. *)
Definition max_stream {P : Params} : nat := full_size (nlevels - 3).

Lemma fanout_ge_2 {P : Params} {Pok : ParamsOk} : 2 ≤ fanout.
Proof.
  pose proof maxlen_two_entries. unfold fanout.
  etransitivity; [|apply Nat.Div0.div_le_mono; instantiate (1 := 80); lia]. by compute.
Qed.

Lemma full_size_S {P : Params} l : full_size (S l) = fanout * full_size l.
Proof. unfold full_size. simpl. lia. Qed.

Lemma full_size_pos {P : Params} {Pok : ParamsOk} l : 1 ≤ full_size l.
Proof.
  pose proof fanout_ge_2. pose proof maxlen_two_entries. induction l as [|l IH].
  - unfold full_size. simpl. lia.
  - rewrite full_size_S. nia.
Qed.

Lemma full_size_mono {P : Params} {Pok : ParamsOk} l l' : l ≤ l' → full_size l ≤ full_size l'.
Proof.
  pose proof fanout_ge_2. induction 1 as [|l' _ IH]; [done|]. rewrite full_size_S. nia.
Qed.
