(* ===== verification/HtreeWrite.v ===== *)
(** Correctness of the htree writer.

    [used w] is the abstraction of the writer's arrays: the bytes in use at each
    level.  [pend] relates the levels above a point to the part of the stream
    they already account for; [flush_spec] is the induction over [flushLvl],
    [Write_spec] and [Close_spec] follow. *)

From Stdlib Require Import ZArith Lia.
From stdpp Require Import base list.
From coqutil Require Import Byte.
From S2P Require Import Prelude Store Htree HtreeSpec.

Set Default Goal Selector "!".

Section Arrays.
Context {P : Params} {St : Type} `{CStore St}.
Implicit Types (w : Writer St).

Record wf w : Prop := mkWf {
  wf_lvls : length (w_lvls w) = nlevels;
  wf_nbytes : length (w_nbytes w) = nlevels;
  wf_rows : Forall (λ r, length r = maxlen) (w_lvls w);
  wf_fits : Forall (λ n, n ≤ maxlen) (w_nbytes w);
}.

Definition used w : list bytes := zip_with take (w_nbytes w) (w_lvls w).

Lemma length_used w : wf w → length (used w) = nlevels.
Proof. intros []. unfold used. rewrite length_zip_with. lia. Qed.

Lemma used_lookup w lvl u :
  wf w → used w !! lvl = Some u →
  ∃ r, w_nbytes w !! lvl = Some (length u) ∧ w_lvls w !! lvl = Some r ∧
       u = take (length u) r ∧ length r = maxlen ∧ length u ≤ maxlen.
Proof.
  intros [_ _ Hrows Hfits] Hu. unfold used in Hu. apply lookup_zip_with_Some in Hu as (n & r & -> & Hn & Hr).
  pose proof (Forall_lookup_1 _ _ _ _ Hrows Hr). pose proof (Forall_lookup_1 _ _ _ _ Hfits Hn).
  simpl in *.
  exists r. rewrite length_take_le by lia. auto.
Qed.

Lemma used_is_Some w lvl : wf w → lvl < nlevels → ∃ u, used w !! lvl = Some u.
Proof. intros. apply lookup_lt_is_Some_2. by rewrite length_used. Qed.

Lemma used_lt w lvl u : wf w → used w !! lvl = Some u → lvl < nlevels.
Proof. intros Hw Hu. apply lookup_lt_Some in Hu. by rewrite length_used in Hu. Qed.

(** A level's row and byte count replaced together. *)
Definition with_level w lvl (r : bytes) (n : nat) : Writer St :=
  mkWriter (w_store w) (<[lvl:=r]> (w_lvls w)) (<[lvl:=n]> (w_nbytes w)) (w_offset w).

Lemma used_with_level w lvl r n :
  used (with_level w lvl r n) = <[lvl:=take n r]> (used w).
Proof. unfold used, with_level; simpl. by rewrite insert_zip_with. Qed.

Lemma wf_with_level w lvl r n :
  wf w → length r = maxlen → n ≤ maxlen → wf (with_level w lvl r n).
Proof.
  intros [] ??. split; simpl; rewrite ?length_insert; auto using Forall_insert.
Qed.

(** *** The primitive accesses *)

Lemma wp_w_nb w lvl u (Q : nat → Writer St → Prop) E :
  wf w → used w !! lvl = Some u → Q (length u) w → wp (w_nb lvl) Q E w.
Proof.
  intros Hw Hu HQ. destruct (used_lookup w lvl u Hw Hu) as (r & Hn & _).
  unfold w_nb. wp_steps. eapply wp_lift_ok; eauto using idx_ok.
Qed.

Lemma wp_w_row w lvl u (Q : bytes → Writer St → Prop) E :
  wf w → used w !! lvl = Some u →
  (∀ r, w_lvls w !! lvl = Some r → length r = maxlen → take (length u) r = u → Q r w) →
  wp (w_row lvl) Q E w.
Proof.
  intros Hw Hu HQ. destruct (used_lookup w lvl u Hw Hu) as (r & _ & Hr & ? & ? & _).
  unfold w_row. wp_steps. eapply wp_lift_ok; eauto using idx_ok.
Qed.

(** Storing a row and then its byte count, as every caller does. *)
Lemma wp_w_set_level w lvl r n (Q : unit → Writer St → Prop) E :
  wf w → lvl < nlevels → Q () (with_level w lvl r n) →
  wp (w_set_level lvl r n) Q E w.
Proof.
  intros [] Hlvl HQ. unfold w_set_level, w_set_row, w_set_nb. wp_steps.
  eapply wp_lift_ok; [apply set_idx_ok; lia|]. wp_steps.
  eapply wp_lift_ok; [apply set_idx_ok; simpl; lia|]. wp_steps.
  exact HQ.
Qed.
End Arrays.

Lemma take_cons_set {A} (r : list A) x n :
  0 < length r → 0 < n → take n (<[0:=x]> r) = x :: take (n - 1) (drop 1 r).
Proof.
  destruct r as [|y r]; simpl; [lia|]. destruct n as [|n]; [lia|]. intros _ _. simpl.
  by rewrite Nat.sub_0_r, drop_0.
Qed.

Section Entries.
Context {P : Params} {Pok : ParamsOk} {St : Type} `{CStore St}.
Implicit Types (w : Writer St).

(** [add_entry] appends the key and the hash to the next level's bytes. *)
Lemma add_entry_spec w lvl u t body h Q E :
  wf w → used w !! lvl = Some (t :: body) → used w !! S lvl = Some u →
  length h = hash_len → (u = [] ∨ length u + 40 ≤ maxlen) → (lvl = 0 ∨ 8 ≤ length body) →
  (∀ w', wf w' → w_store w' = w_store w → w_offset w' = w_offset w →
     used w' = <[S lvl := (if u is [] then [nbyte (S lvl)] else u) ++
                   (if lvl is 0 then put_le 8 (w_offset w) else take 8 body) ++ h]> (used w) →
     Q () w') →
  wp (add_entry lvl h) Q E w.
Proof.
  intros Hw Hb Hu Hh Hroom Hbody HQ. pose proof maxlen_two_entries.
  assert (S lvl < nlevels) by eauto using used_lt. unfold hash_len in *.
  unfold add_entry. wp_step. eapply wp_w_nb; [done..|]. wp_step.
  set (u1 := if u is [] then [nbyte (S lvl)] else u).
  apply (wp_mono _
    (λ _ w1, wf w1 ∧ w_store w1 = w_store w ∧ w_offset w1 = w_offset w ∧
             used w1 = <[S lvl := u1]> (used w)) _ E); [| |done].
  { wp_step.
    - intros Hz%bool_decide_eq_true_1. apply nil_length_inv in Hz as ->.
      wp_step. eapply wp_w_row; [done..|]. intros r Hr Hlr _. wp_step.
      eapply wp_lift_ok; [apply set_idx_ok; lia|].
      apply wp_w_set_level; [done..|].
      split_and!; [|done|done|].
      + apply wf_with_level; [done|by rewrite length_insert|lia].
      + rewrite used_with_level, take_cons_set by lia. done.
    - intros Hz%bool_decide_eq_false_1. split_and!; try done.
      rewrite list_insert_id; [done|]. destruct u; [done|]. done. }
  intros [] w1 (Hw1 & Hs1 & Ho1 & Hu1).
  assert (Hl1 : used w1 !! S lvl = Some u1)
    by (rewrite Hu1, list_lookup_insert_eq; [done|by rewrite length_used]).
  assert (Hl0 : used w1 !! lvl = Some (t :: body))
    by (rewrite Hu1, list_lookup_insert_ne by lia; done).
  assert (Hlen1 : length u1 + 40 ≤ maxlen)
    by (unfold u1; destruct u, Hroom; simplify_eq/=; lia).
  wp_step. eapply wp_w_nb; [done..|]. wp_step. eapply wp_w_row; [done..|].
  intros r1 Hr1 Hlr1 Hu1r. set (key := if lvl is 0 then put_le 8 (w_offset w) else take 8 body).
  assert (Hkey : length key = 8).
  { unfold key. destruct lvl; [apply length_put_le|]. rewrite length_take. lia. }
  wp_step.
  apply (wp_mono _ (λ r2 w2, w2 = w1 ∧ r2 = splice r1 (length u1) key) _ E); [| |done].
  { case_bool_decide as Hlvl; wp_steps.
    - subst lvl. eapply wp_lift_ok; [|done].
      unfold put_at. rewrite length_put_le, decide_True by lia. by rewrite Ho1.
    - eapply wp_w_row; [done..|]. intros r Hr Hlr Hur. wp_step.
      eapply wp_lift_ok; [apply slice_ok; simpl in *; lia|].
      eapply wp_lift_ok.
      + rewrite copy_at_fits; [done|lia..|]. rewrite length_take, length_drop. lia.
      + split; [done|]. f_equal. unfold key. destruct lvl as [|lvl]; [done|].
        destruct r as [|t' r]; simpl in *; [lia|]. injection Hur as _ Hur.
        destruct Hbody as [|Hbody]; [done|]. rewrite drop_0, <-Hur, take_take. f_equal. lia. }
  intros r2 w2 [-> ->]. wp_step. eapply wp_lift_ok.
  { rewrite copy_at_fits; [done|lia| |lia]. rewrite length_splice by lia. lia. }
  apply wp_w_set_level; [done..|]. apply HQ.
  - apply wf_with_level; [done| |lia]. rewrite !length_splice; rewrite ?length_splice; lia.
  - done.
  - done.
  - rewrite used_with_level, Hu1, list_insert_insert_eq. f_equal.
    replace (length u1 + 8) with (length u1 + length key) by lia.
    replace (length u1 + (8 + length h)) with (length u1 + length key + length h) by lia.
    rewrite take_splice by (rewrite length_splice; lia).
    rewrite take_splice by lia. by rewrite Hu1r, app_assoc.
Qed.

Lemma reset_level_spec w lvl t body Q E :
  wf w → used w !! lvl = Some (t :: body) →
  (∀ w', wf w' → w_store w' = w_store w →
     w_offset w' = (if lvl is 0 then u64 (w_offset w + Z.of_nat (length body)) else w_offset w) →
     used w' = <[lvl := [nbyte lvl]]> (used w) → Q () w') →
  wp (reset_level lvl) Q E w.
Proof.
  intros Hw Hb HQ. pose proof maxlen_two_entries. unfold reset_level.
  wp_step.
  apply (wp_mono _ (λ _ w1,
    w1 = mkWriter (w_store w) (w_lvls w) (w_nbytes w)
      (if lvl is 0 then u64 (w_offset w + Z.of_nat (length body)) else w_offset w)) _ E);
    [| |done].
  { wp_step.
    - intros ->%bool_decide_eq_true_1. wp_step. eapply wp_w_nb; [done..|]. wp_steps.
      do 2 f_equal. simpl. lia.
    - intros Hl%bool_decide_eq_false_1. destruct lvl; [done|]. by destruct w. }
  intros [] w1 ->.
  set (w1 := mkWriter _ _ _ _). assert (Hw1 : wf w1) by (by destruct Hw).
  assert (Hb1 : used w1 !! lvl = Some (t :: body)) by done.
  wp_step. eapply wp_w_row; [done..|]. intros r Hr Hlr _. wp_step.
  eapply wp_lift_ok; [apply set_idx_ok; lia|].
  apply wp_w_set_level; [done|eauto using used_lt|]. apply HQ; try done.
  - apply wf_with_level; [done|by rewrite length_insert|lia].
  - rewrite used_with_level, take_cons_set by lia. done.
Qed.
End Entries.

(** ** [flushLvl] *)

Section Room.
Context {P : Params}.
Implicit Types (U : list bytes).

(** Some level above [lvl] can take another entry. *)
Definition room (lvl : nat) U : Prop :=
  ∃ k u, lvl < k ∧ U !! k = Some u ∧ length u + 40 ≤ maxlen.

(** How a flush of [lvl] moves the levels above it: the full ones are left
    with one entry, the first one with room gains an entry. *)
Definition bumped (lvl : nat) U U' : Prop :=
  ∃ k u, lvl < k ∧ U !! k = Some u ∧ length u + 40 ≤ maxlen ∧
    length <$> U' !! k = Some (Nat.max 1 (length u) + 40) ∧
    (∀ j, lvl < j < k →
       length <$> U' !! j = Some 41 ∧ ∀ v, U !! j = Some v → maxlen < length v + 40) ∧
    (∀ j, k < j → U' !! j = U !! j).
End Room.

Lemma insert_two {A} (l1 l2 : list A) i x y a b :
  length l1 = i → <[i:=x]> (<[S i:=y]> (l1 ++ a :: b :: l2)) = l1 ++ x :: y :: l2.
Proof.
  intros <-. replace (S (length l1)) with (length l1 + 1) by lia.
  rewrite insert_app_r. simpl. by rewrite <-(Nat.add_0_r (length l1)), insert_app_r.
Qed.

Section Flush.
Context {P : Params} {Pok : ParamsOk} {St : Type} `{CStoreLaws St}.
Context (minsz : nat → nat) (Hminsz : ∀ l, minsz (S l) ≤ fanout * minsz l).
Implicit Types (w : Writer St) (s : St).

(** [pend s lvl L d]: the levels [L], from [lvl + 1] up, hold the entries of
    subtrees whose contents concatenate to [d]. *)
Inductive pend s : nat → list bytes → bytes → Prop :=
  | pend_empty lvl L : Forall (λ u, u = []) L → pend s lvl L []
  | pend_cons lvl L up es d :
      pend s (S lvl) L up → forest_at minsz s lvl (length up) es d →
      pend s lvl ((nbyte (S lvl) :: es) :: L) (up ++ d).

Lemma pend_keeps s s' lvl L d : keeps s s' → pend s lvl L d → pend s' lvl L d.
Proof. intros Hk. induction 1; eauto using pend, forest_at_keeps. Qed.

Lemma pend_add s lvl u L up h d :
  pend s lvl (u :: L) up → tree_at minsz s lvl h (length up) d →
  pend s lvl (((if u is [] then [nbyte (S lvl)] else u) ++ entry (length up) h) :: L) (up ++ d).
Proof.
  intros Hp Ht. inversion Hp as [? ? He|? ? up1 es d1 Hp1 Hf]; simplify_eq.
  - apply Forall_cons in He as [-> He]. simpl in *.
    apply (pend_cons _ _ _ [] _ d); [by apply pend_empty|].
    apply (forest_snoc minsz s lvl 0 [] [] h d); [constructor|done].
  - rewrite <-app_assoc. rewrite length_app in *. simpl.
    apply pend_cons; [done|]. by apply forest_snoc.
Qed.

(** A full level is a block whose content is large enough for its depth. *)
Lemma full_block s lvl u L up :
  pend s lvl (u :: L) up → maxlen < length u + 40 →
  ∃ up1 es d, up = up1 ++ d ∧ u = nbyte (S lvl) :: es ∧ pend s (S lvl) L up1 ∧
    block minsz s (S lvl) (length up1) es d ∧ minsz (S lvl) ≤ length d.
Proof.
  pose proof maxlen_two_entries.
  intros Hp Hfull. inversion Hp as [? ? He|? ? up1 es d1 Hp1 Hf]; simplify_eq.
  - apply Forall_cons in He as [-> _]. simpl in *. lia.
  - exists up1, es, d1. destruct (forest_length _ _ _ _ _ _ Hf) as (k & Hk & Hd & _).
    simpl in *. split_and!; try done.
    + intros ->. simpl in *. lia.
    + assert (fanout ≤ k).
      { unfold fanout. enough ((maxlen - 1) / 40 < S k) by lia.
        apply Nat.Div0.div_lt_upper_bound. lia. }
      specialize (Hminsz lvl). nia.
Qed.

(** A failed flush has changed nothing but the store: it puts its blocks before
    it touches a level. *)
Definition failed_put w (e : error) w' : Prop :=
  put_fails e ∧ ∃ s', w' = w_set_store s' w ∧ keeps (w_store w) s'.

Lemma flush_spec fuel lvl w L up body d :
  wf w → fuel + lvl = nlevels →
  used w !! lvl = Some (nbyte lvl :: body) → drop (S lvl) (used w) = L →
  pend (w_store w) lvl L up → block minsz (w_store w) lvl (length up) body d →
  minsz lvl ≤ length d → (lvl = 0 → w_offset w = u64 (Z.of_nat (length up))) →
  room lvl (used w) →
  wp (flushLvl_from fuel lvl)
    (λ _ w', wf w' ∧ keeps (w_store w) (w_store w') ∧
      w_offset w' = (if lvl is 0 then u64 (Z.of_nat (length (up ++ d))) else w_offset w) ∧
      bumped lvl (used w) (used w') ∧
      ∃ L', used w' = take lvl (used w) ++ [nbyte lvl] :: L' ∧
            pend (w_store w') lvl L' (up ++ d))
    (failed_put w) w.
Proof.
  revert lvl w L up body d.
  induction fuel as [|fuel IH]; intros lvl w L up body d Hw Hfuel Hb HL Hp Hblk Hsz Hoff Hroom.
  { apply used_lt in Hb; [lia|done]. }
  simpl. wp_step. eapply wp_w_row; [done..|]. intros r Hr Hlr Hbr. wp_step.
  eapply wp_w_nb; [done..|]. wp_step.
  assert (length (nbyte lvl :: body) ≤ maxlen)
    by (destruct (used_lookup _ _ _ Hw Hb) as (?&?&?&?&?&?); done).
  eapply wp_lift_ok; [apply slice_ok; simpl in *; lia|].
  rewrite drop_0, Nat.sub_0_r, Hbr. wp_step. wp_step.
  eapply wp_mono; [apply Put_law| |by intros e s' []; split; eauto]. cbn beta.
  intros h s1 (Hh & Hhold & Hk). set (w1 := w_set_store s1 w).
  assert (Hw1 : wf w1) by (by destruct Hw). assert (Hused : used w1 = used w) by done.
  assert (Ht : tree_at minsz s1 lvl h (length up) d)
    by (eapply block_tree; eauto using block_keeps).
  assert (Hlvl : S lvl < nlevels).
  { destruct Hroom as (k & u & ? & Hk' & _). apply used_lt in Hk'; [lia|done]. }
  destruct (used_is_Some w (S lvl) Hw Hlvl) as [u1 Hu1].
  assert (HL1 : ∃ L1, L = u1 :: L1) by (rewrite <-HL, (drop_S _ u1) by done; eauto).
  destruct HL1 as [L1 ->].
  assert (Hdec : used w = take lvl (used w) ++ (nbyte lvl :: body) :: u1 :: L1)
    by (rewrite <-HL; symmetry; by apply take_drop_middle).
  assert (Hlen : length (take lvl (used w)) = lvl)
    by (apply length_take_le; rewrite length_used by done; lia).
  wp_step. eapply (wp_w_nb w1); [done..|]. wp_step.
  apply (wp_mono _ (λ _ w2, wf w2 ∧ keeps s1 (w_store w2) ∧ w_offset w2 = w_offset w ∧
    ∃ u2 L2, used w2 = take lvl (used w) ++ (nbyte lvl :: body) :: u2 :: L2 ∧
      pend (w_store w2) lvl (u2 :: L2) up ∧ length u2 + 40 ≤ maxlen ∧
      ((u2 = u1 ∧ L2 = L1) ∨ (maxlen < length u1 + 40 ∧ u2 = [nbyte (S lvl)] ∧
          bumped (S lvl) (used w) (used w2)))) _ (failed_put w)); [| |done].
  { rewrite Hh. unfold hash_len. wp_step.
    - intros Hfull%bool_decide_eq_true_1.
      destruct (full_block s1 lvl u1 L1 up) as (up1 & es & d1 & -> & -> & Hp1 & Hblk1 & Hsz1);
        [eauto using pend_keeps|lia|].
      eapply wp_mono; [eapply (IH (S lvl) w1 L1 up1 es d1); try done; try lia|..].
      + replace (S (S lvl)) with (S lvl + 1) by lia. by rewrite <-drop_drop, Hused, HL.
      + destruct Hroom as (k & u & ? & Hk' & ?). exists k, u. split_and!; try done.
        destruct (decide (k = S lvl)) as [->|]; [|lia]. simplify_eq. lia.
      + cbn beta. intros [] w2 (Hw2 & Hk2 & Ho2 & Hbump & L2 & HL2 & Hp2).
        split_and!; try done. exists [nbyte (S lvl)], L2. rewrite Hused in *. split_and!.
        * rewrite HL2, (take_S_r _ _ (nbyte lvl :: body)) by done. by rewrite <-app_assoc.
        * rewrite <-(app_nil_r (up1 ++ d1)). apply pend_cons; [done|constructor].
        * simpl. pose proof maxlen_two_entries. lia.
        * right. split_and!; [lia|done|done].
      + intros e w' (He & s' & -> & Hk'). split; [done|]. exists s'. split; [done|by transitivity s1].
    - intros Hfull%bool_decide_eq_false_1. split_and!; try done.
      exists u1, L1. split_and!; [by rewrite Hused|eauto using pend_keeps|lia|by left]. }
  intros [] w2 (Hw2 & Hk2 & Ho2 & u2 & L2 & HL2 & Hp2 & Hroom2 & Hcase).
  assert (Hl0 : used w2 !! lvl = Some (nbyte lvl :: body))
    by (rewrite HL2; by apply list_lookup_middle).
  assert (Hl1 : used w2 !! S lvl = Some u2).
  { rewrite HL2, lookup_app_r, Hlen by lia. by replace (S lvl - lvl) with 1 by lia. }
  wp_step. eapply add_entry_spec; eauto.
  { destruct lvl; [by left|]. right. by eapply block_key. }
  intros w3 Hw3 Hs3 Ho3 Hu3.
  eapply reset_level_spec; [done| |].
  { rewrite Hu3, list_lookup_insert_ne by lia. exact Hl0. }
  intros w4 Hw4 Hs4 Ho4 Hu4.
  set (x := (if u2 is [] then [nbyte (S lvl)] else u2) ++
            (if lvl is 0 then put_le 8 (w_offset w2) else take 8 body) ++ h) in *.
  assert (Hx : x = (if u2 is [] then [nbyte (S lvl)] else u2) ++ entry (length up) h).
  { unfold x, entry. f_equal. f_equal. destruct lvl as [|lvl].
    - rewrite Ho2, Hoff by done. apply (put_le_wrap 8).
    - by eapply block_key. }
  assert (Hxlen : length x = Nat.max 1 (length u2) + 40).
  { rewrite Hx, length_app, length_entry by done. destruct u2; simpl; lia. }
  assert (HU4 : used w4 = take lvl (used w) ++ [nbyte lvl] :: x :: L2)
    by (rewrite Hu4, Hu3, HL2; by apply insert_two).
  clearbody x. split_and!; [done| | | |].
  - rewrite Hs4, Hs3. by transitivity s1.
  - rewrite Ho4, Ho3, Ho2. destruct lvl; [|done].
    rewrite Hoff, wrap_add_l, length_app by done. simpl in Hblk. subst body. do 2 f_equal. lia.
  - destruct Hcase as [[-> ->]|(Hfull & -> & k & u & Hk1 & Hu & Hroomk & Hn & Hbelow & Habove)].
    + exists (S lvl), u1. rewrite HU4. split_and!; try done; try lia.
      * rewrite lookup_app_r, Hlen by lia. replace (S lvl - lvl) with 1 by lia.
        simpl. by rewrite Hxlen.
      * intros j Hj. rewrite Hdec at 2. rewrite !lookup_app_r, Hlen by lia.
        destruct (j - lvl) as [|[|m]] eqn:Hm; [lia..|]. done.
    + assert (Hj : ∀ j, S lvl < j → used w4 !! j = used w2 !! j).
      { intros j Hj. rewrite HU4, HL2, !lookup_app_r, Hlen by lia.
        destruct (j - lvl) as [|[|m]] eqn:Hm; [lia..|]. done. }
      exists k, u. split_and!; try done; try lia.
      * by rewrite Hj.
      * intros j Hjk. destruct (decide (j = S lvl)) as [->|Hne].
        -- split; [|intros v Hv; simplify_eq; lia].
           rewrite HU4, lookup_app_r, Hlen by lia. replace (S lvl - lvl) with 1 by lia.
           simpl. by rewrite Hxlen.
        -- rewrite Hj by lia. apply Hbelow. lia.
      * intros j Hjk. rewrite Hj by lia. by apply Habove.
  - exists (x :: L2). split; [done|]. rewrite Hx, Hs4, Hs3.
    apply pend_add; [done|]. eauto using tree_at_keeps.
Qed.
End Flush.

(** ** [Write] *)

Section Write.
Context {P : Params} {Pok : ParamsOk} {St : Type} `{CStoreLaws St}.
Implicit Types (w : Writer St) (s : St).

(** A level with an entry stands for at least one full subtree. *)
Lemma pend_lookup (m : nat → nat) s lvl L up i u :
  pend m s lvl L up → L !! i = Some u → length u ≤ 1 ∨ m (lvl + i) ≤ length up.
Proof.
  intros Hp. revert i. induction Hp as [lvl L He|lvl L up es d Hp IH Hf]; intros i Hi.
  - left. rewrite (Forall_lookup_1 _ _ _ _ He Hi). simpl. lia.
  - rewrite length_app. destruct i as [|i]; simplify_eq/=.
    + destruct es as [|e es]; [simpl; auto|right].
      destruct (forest_length _ _ _ _ _ _ Hf) as (k & _ & Hd & Hk).
      specialize (Hk ltac:(done)). rewrite Nat.add_0_r. nia.
    + destruct (IH i Hi); [auto|right]. rewrite Nat.add_succ_r. lia.
Qed.

Lemma pend_minsz (m m' : nat → nat) s lvl L d :
  (∀ l, m' l ≤ m l) → pend m s lvl L d → pend m' s lvl L d.
Proof.
  intros Hle. induction 1; constructor; try done. by eapply (tree_forest_minsz m m').
Qed.

(** The top two levels are never touched. *)
Definition top_free (U : list bytes) : Prop :=
  ∀ j u, nlevels - 2 ≤ j → U !! j = Some u → u = [].

(** [wrote w d]: [d] is the stream written so far, [body] its unflushed tail. *)
Definition wrote w (d : bytes) : Prop :=
  wf w ∧ top_free (used w) ∧ ∃ body L up,
    used w = (nbyte 0 :: body) :: L ∧ pend full_size (w_store w) 0 L up ∧
    w_offset w = u64 (Z.of_nat (length up)) ∧ d = up ++ body.

(** The last leaf is empty only when nothing was written. *)
Definition tailed w : Prop := ∀ u, used w !! 0 = Some u → 2 ≤ length u.

Lemma NewWriter_used (s : St) :
  used (NewWriter s) = [nbyte 0] :: replicate (nlevels - 1) [].
Proof.
  pose proof maxlen_two_entries. pose proof nlevels_three. unfold used, NewWriter; simpl.
  destruct nlevels as [|n]; [lia|]. destruct maxlen as [|m]; [lia|]. simpl.
  rewrite Nat.sub_0_r. f_equal. by rewrite zip_with_replicate.
Qed.

Lemma NewWriter_wrote (s : St) : wrote (NewWriter s) [].
Proof.
  pose proof nlevels_three. split_and!.
  - pose proof maxlen_two_entries. split; simpl; rewrite ?length_insert, ?length_replicate;
      try done; [apply Forall_replicate, length_replicate|].
    apply Forall_insert; [apply Forall_replicate|]; lia.
  - intros j u Hj. rewrite NewWriter_used. destruct j as [|j]; [lia|]. simpl.
    by intros [-> _]%lookup_replicate.
  - exists [], (replicate (nlevels - 1) []), []. rewrite NewWriter_used. split_and!; try done.
    constructor. by apply Forall_replicate.
Qed.

Lemma used_tail w body L : used w = (nbyte 0 :: body) :: L →
  used w !! 0 = Some (nbyte 0 :: body) ∧ drop 1 (used w) = L.
Proof. by intros ->. Qed.

(** A flush during [Write] leaves the top levels alone: an entry there would
    stand for more bytes than were written. *)
Lemma bumped_top_free s (U : list bytes) t L up :
  top_free U → bumped 0 U (t :: L) → pend full_size s 0 L up → length up < max_stream →
  top_free (t :: L).
Proof.
  intros Htop (k & u & Hk & Hu & _ & Hn & Hbelow & Habove) Hp Hlt j v Hj Hv.
  pose proof nlevels_three. destruct j as [|j]; [lia|].
  destruct (decide (k < S j)) as [Hkj|]; [rewrite Habove in Hv by done; eauto|].
  exfalso. assert (41 ≤ length v) as Hlen.
  { destruct (decide (k = S j)) as [->|]; [|destruct (Hbelow (S j)) as [Hb _]; [lia|]].
    - rewrite Hv in Hn. simpl in Hn. injection Hn as Hn. lia.
    - rewrite Hv in Hb. simpl in Hb. injection Hb as Hb. lia. }
  destruct (pend_lookup _ _ _ _ _ _ _ Hp Hv) as [?|Hge]; [lia|].
  unfold max_stream in Hlt. pose proof (full_size_mono (nlevels - 3) (0 + j)). lia.
Qed.

(** The flushing branch of the loop. *)
Lemma flush_leaf_spec w d body L up :
  wf w → top_free (used w) → used w = (nbyte 0 :: body) :: L →
  pend full_size (w_store w) 0 L up → w_offset w = u64 (Z.of_nat (length up)) →
  d = up ++ body → length body = maxlen - 1 → length d < max_stream →
  wp flush_leaf
    (λ _ w', wrote w' d ∧ used w' !! 0 = Some [nbyte 0] ∧ keeps (w_store w) (w_store w'))
    (λ e _, put_fails e) w.
Proof.
  intros Hw Htop HU Hp Ho -> Hfull Hlt. pose proof nlevels_three. pose proof maxlen_two_entries.
  destruct (used_tail _ _ _ HU) as [Hrow0 HL]. unfold flush_leaf, flushLvl. wp_step.
  eapply wp_mono; [eapply (flush_spec full_size)|..]; eauto.
  - intros l. by rewrite full_size_S.
  - lia.
  - done.
  - unfold full_size. simpl. lia.
  - destruct (used_is_Some w (nlevels - 1) Hw ltac:(lia)) as [u Hu].
    pose proof (Htop (nlevels - 1) u ltac:(lia) Hu) as ->.
    exists (nlevels - 1), []. simpl. split_and!; [lia|done|lia].
  - cbn beta. intros [] w' (Hw' & Hk & Ho' & Hbump & L' & HU' & Hp'). simpl in HU'.
    wp_step. eapply wp_w_row; [done|by rewrite HU'|]. intros r Hr Hlr Hur. wp_step.
    eapply wp_lift_ok; [apply set_idx_ok; lia|].
    apply wp_w_set_level; [done|lia|]. set (w2 := with_level _ _ _ _).
    assert (HU2 : used w2 = [nbyte 0] :: L').
    { unfold w2. rewrite used_with_level, take_cons_set, HU' by lia. done. }
    assert (wf w2) by (apply wf_with_level; [done|by rewrite length_insert|lia]).
    unfold wrote. rewrite HU2, HU' in *. split_and!; try done.
    + eapply bumped_top_free; eauto.
    + exists [], L', (up ++ body). by rewrite app_nil_r.
  - by intros e w' [? _].
Qed.

(** The copying branch of the loop. *)
Lemma fill_leaf_spec w d body L up buf n Q E :
  wf w → top_free (used w) → used w = (nbyte 0 :: body) :: L →
  pend full_size (w_store w) 0 L up → w_offset w = u64 (Z.of_nat (length up)) →
  d = up ++ body → S (length body) < maxlen → 0 < n →
  n = Nat.min (length buf) (maxlen - S (length body)) →
  (∀ w', wrote w' (d ++ take n buf) → w_store w' = w_store w → tailed w' →
     used w' = (nbyte 0 :: body ++ take n buf) :: L ∧ w_offset w' = w_offset w → Q () w') →
  wp (fill_leaf (S (length body)) n buf) Q E w.
Proof.
  intros Hw Htop HU Hp Ho -> Hlt Hpos Hn HQ. pose proof nlevels_three.
  destruct (used_tail _ _ _ HU) as [Hrow0 HL]. unfold fill_leaf.
  wp_step. eapply wp_w_row; [done..|]. intros r Hr Hlr Hur. wp_step.
  eapply wp_lift_ok; [unfold copy_at; by rewrite decide_True by lia|].
  set (src := take (maxlen - S (length body)) buf).
  assert (Hsrc : src = take n buf).
  { unfold src. rewrite Hn. destruct (decide (length buf ≤ maxlen - S (length body))).
    - by rewrite !take_ge by lia.
    - f_equal. lia. }
  assert (Hls : length src = n) by (rewrite Hsrc, length_take; lia).
  apply wp_w_set_level; [done|lia|]. set (w' := with_level _ _ _ _).
  assert (HU' : used w' = (nbyte 0 :: body ++ take n buf) :: L).
  { unfold w'. rewrite used_with_level, HU. simpl. f_equal.
    rewrite <-Hls at 1. change (S (length body + length src)) with (S (length body) + length src).
    simpl in Hur. rewrite take_splice by lia. by rewrite Hur, <-Hsrc. }
  assert (Hw' : wf w') by (apply wf_with_level; [done|by rewrite length_splice by lia|lia]).
  apply HQ; [|done|..].
  - split; [done|]. rewrite HU'. split.
    + intros j u Hj Hu. destruct j as [|j]; [lia|]. apply (Htop (S j) u Hj). by rewrite HU.
    + exists (body ++ take n buf), L, up. by rewrite app_assoc.
  - intros u. rewrite HU'. intros [= <-]. simpl. rewrite length_app, length_take. lia.
  - done.
Qed.

(** One more iteration is needed when the leaf is full. *)
Definition slack (w : Writer St) (k : nat) : Prop :=
  k = 0 ∨ k = 1 ∧ ∃ u, used w !! 0 = Some u ∧ length u < maxlen.

Lemma Write_loop_spec fuel buf w d k :
  wrote w d → length (d ++ buf) < max_stream → slack w k → 2 * length buf ≤ fuel + k →
  wp (Write_loop fuel buf)
    (λ _ w', wrote w' (d ++ buf) ∧ keeps (w_store w) (w_store w') ∧
             (tailed w ∨ buf ≠ [] → tailed w'))
    (λ e _, put_fails e) w.
Proof.
  revert buf w d k. induction fuel as [|fuel IH]; intros buf w d k Hwr Hlt Hslack Hfuel.
  { destruct buf as [|b buf]; [|simpl in *; destruct Hslack; lia].
    simpl. wp_steps. rewrite app_nil_r. split_and!; [done..|]. by intros [?|?]. }
  destruct (decide (buf = [])) as [->|Hne].
  { simpl. wp_steps. rewrite app_nil_r. split_and!; [done..|]. by intros [?|?]. }
  assert (0 < length buf) by (destruct buf; simpl; [done|lia]).
  destruct Hwr as (Hw & Htop & body & L & up & HU & Hp & Ho & ->).
  destruct (used_tail _ _ _ HU) as [Hrow0 _].
  destruct (used_lookup _ _ _ Hw Hrow0) as (_ & _ & _ & _ & _ & Hmax). simpl in Hmax.
  replace (Write_loop (S fuel) buf) with
    (n0 ← w_nb 0; let n := Nat.min (length buf) (maxlen - n0) in
     if bool_decide (n = 0) then flush_leaf;; Write_loop fuel buf
     else fill_leaf n0 n buf;; Write_loop fuel (drop n buf)) by (by destruct buf).
  wp_step. eapply wp_w_nb; [done..|]. cbv zeta. case_bool_decide as Hz; wp_step.
  - eapply wp_mono; [eapply flush_leaf_spec; eauto| |done].
    + simpl in *. lia.
    + rewrite !length_app in *. lia.
    + cbn beta. intros [] w' (Hwr' & Hrow' & Hk).
      eapply wp_mono; [eapply (IH buf w' _ 1)| |done]; try done.
      * right. split; [done|]. eexists. split; [done|]. pose proof maxlen_two_entries. simpl. lia.
      * destruct Hslack as [->|(-> & u & Hu & ?)]; [lia|]. simplify_eq/=. lia.
      * cbn beta. intros [] w'' (? & ? & Ht). split_and!; [done|by transitivity (w_store w')|auto].
  - simpl in Hz |- *. eapply fill_leaf_spec; eauto; try lia.
    intros w' Hwr' Hs Htl _. set (n := Nat.min _ _) in *.
    eapply wp_mono; [eapply (IH (drop n buf) w' _ 0); [done| |by left|]| |done].
    + by rewrite <-app_assoc, take_drop.
    + rewrite length_drop. destruct Hslack as [->|[-> _]]; lia.
    + cbn beta. rewrite <-app_assoc, take_drop, Hs. intros [] w'' (? & ? & Ht). auto.
Qed.

Lemma Write_spec buf w d :
  wrote w d → length (d ++ buf) < max_stream →
  wp (Write buf)
    (λ n w', n = length buf ∧ wrote w' (d ++ buf) ∧ keeps (w_store w) (w_store w') ∧
             (tailed w ∨ buf ≠ [] → tailed w'))
    (λ e _, put_fails e) w.
Proof.
  intros. unfold Write. wp_step.
  eapply wp_mono; [eapply (Write_loop_spec _ _ _ _ 0); eauto; [by left|lia]| |done].
  cbn beta. intros [] w' ?. wp_steps. naive_solver.
Qed.
End Write.

(** ** [Close] *)

Section Shape.
Context {P : Params} {Pok : ParamsOk}.
Implicit Types (U : list bytes).

(** While [Close] flushes level [i], the levels above [top] are unused, and
    either no flush has reached [top] yet or one has, which left every level
    in between with at most one entry. *)
Definition above_free (top : nat) U : Prop := ∀ j u, top < j → U !! j = Some u → u = [].
Definition one_pending (top i : nat) U : Prop :=
  i < top →
  U !! top = Some [] ∨
  length <$> U !! top = Some 41 ∧ ∀ j u, i < j < top → U !! j = Some u → length u ≤ 41.

Lemma one_pending_room top i U : one_pending top i U → i < top → room i U.
Proof.
  pose proof maxlen_two_entries. intros Hs Hi. destruct (Hs Hi) as [Ht|[Ht _]].
  - exists top, []. simpl. split_and!; [done..|lia].
  - apply fmap_Some in Ht as (u & Hu & Hl). exists top, u. split_and!; [done..|lia].
Qed.

Lemma bumped_shape top i U U' :
  bumped i U U' → i < top → above_free top U → one_pending top i U →
  above_free top U' ∧ one_pending top (S i) U' ∧
  ∃ u, U' !! S i = Some u ∧ 41 ≤ length u.
Proof.
  pose proof maxlen_two_entries.
  intros (k & u & Hk & Hu & Hroom & Hn & Hbelow & Habove) Hi Hfree Hs.
  assert (Hktop : k ≤ top).
  { destruct (decide (k ≤ top)) as [|Hgt]; [done|]. exfalso.
    destruct (Hbelow top ltac:(lia)) as [_ Hfull].
    destruct (Hs Hi) as [Ht|[Ht _]]; [specialize (Hfull _ Ht); simpl in *; lia|].
    apply fmap_Some in Ht as (v & Hv & Hl). specialize (Hfull _ Hv). lia. }
  apply fmap_Some in Hn as (u' & Hu' & Hn). split_and!.
  - intros j v Hj Hv. rewrite Habove in Hv by lia. eauto.
  - intros HSi. destruct (Hs Hi) as [Ht|[Ht Hle]].
    + destruct (decide (k = top)) as [->|Hne]; [right|left; by rewrite Habove by lia].
      simplify_eq. simpl in Hn. rewrite Hu'. simpl. split; [by rewrite <-Hn|].
      intros j v Hj Hv. destruct (Hbelow j ltac:(lia)) as [Hb _].
      rewrite Hv in Hb. simpl in Hb. injection Hb as ->. lia.
    + assert (k = S i) as ->.
      { destruct (decide (k = S i)) as [|Hne]; [done|]. exfalso.
        destruct (Hbelow (S i) ltac:(lia)) as [Hb Hfull].
        destruct (lookup_lt_is_Some_2 U (S i)) as [v Hv].
        { apply lookup_lt_Some in Hu. lia. }
        specialize (Hfull v Hv). specialize (Hle (S i) v ltac:(lia) Hv). lia. }
      right. rewrite Habove by lia. split; [done|]. intros j v Hj Hv.
      rewrite Habove in Hv by lia. apply (Hle j v); [lia|done].
  - destruct (decide (k = S i)) as [->|Hne]; [exists u'; split; [done|lia]|].
    destruct (Hbelow (S i) ltac:(lia)) as [Hb _]. apply fmap_Some in Hb as (v & Hv & Hl).
    exists v. split; [done|lia].
Qed.
End Shape.

Section Close.
Context {P : Params} {Pok : ParamsOk} {St : Type} `{CStoreLaws St}.
Implicit Types (w : Writer St) (s : St).

(** Closing makes subtrees that are not full; they are non-empty if the
    stream is. *)
Definition some_size (data : bytes) : nat → nat := λ _, Nat.min 1 (length data).

(** The levels below [i] after their flush. *)
Definition tags (i : nat) : list bytes := (λ j, [nbyte j]) <$> seq 0 i.

Lemma tags_S i : tags (S i) = tags i ++ [[nbyte i]].
Proof. unfold tags. by rewrite seq_S, fmap_app. Qed.

(** [closing c data top i w]: [Close] has flushed the levels below [i]; every
    subtree has at least [c] bytes. *)
Definition closing (c : nat) (data : bytes) (top i : nat) w : Prop :=
  wf w ∧ above_free top (used w) ∧ one_pending top i (used w) ∧
  (take i (used w) = tags i ∧ (0 < i → w_offset w = u64 (Z.of_nat (length data)))) ∧
  ∃ body L up d,
    used w !! i = Some (nbyte i :: body) ∧ drop (S i) (used w) = L ∧
    pend (λ _, c) (w_store w) i L up ∧
    block (λ _, c) (w_store w) i (length up) body d ∧
    c ≤ length d ∧ data = up ++ d ∧
    (i = 0 → w_offset w = u64 (Z.of_nat (length up))).

Lemma close_step c data top i w :
  closing c data top i w → i < top → top < nlevels →
  wp (flushLvl i)
     (λ _ w', closing c data top (S i) w' ∧ keeps (w_store w) (w_store w') ∧
              bumped i (used w) (used w'))
     (failed_put w) w.
Proof.
  intros (Hw & Hfree & Hs & [Htags Hoff] & body & L & up & d & Hb & HL & Hp & Hblk & Hsz & Hd & Ho) Hi Htop.
  unfold flushLvl.
  eapply wp_mono; [eapply (flush_spec (λ _, c)); eauto|..].
  - intros l. pose proof fanout_ge_2. nia.
  - lia.
  - eauto using one_pending_room.
  - cbn beta. intros [] w' (Hw' & Hk & Hoff' & Hbump & L' & HU' & Hp').
    destruct (bumped_shape _ _ _ _ Hbump Hi Hfree Hs) as (Hfree' & Hs' & u & Hu & Hlen).
    split; [|done].
    assert (Hlen' : length (take i (used w)) = i)
      by (apply length_take_le; rewrite length_used by done; lia).
    split_and!; [done..| | |].
    { rewrite HU', tags_S, <-Htags. rewrite (cons_middle [nbyte i]), app_assoc.
      apply take_app_length'. rewrite length_app, Hlen'. simpl. lia. }
    { intros _. rewrite Hoff', Hd. destruct i; [done|]. rewrite Hoff by lia. by rewrite Hd. }
    assert (∃ L2, L' = u :: L2) as [L2 ->].
    { rewrite HU', lookup_app_r, Hlen' in Hu by lia. replace (S i - i) with 1 in Hu by lia.
      destruct L'; naive_solver. }
    rewrite <-Hd in Hp'. inversion Hp' as [? ? He|? ? up' es d' Hp2 Hf]; simplify_eq.
    { apply Forall_cons in He as [-> _]. simpl in *. lia. }
    assert (es ≠ []) by (intros ->; simpl in *; lia).
    destruct (forest_length _ _ _ _ _ _ Hf) as (k & _ & Hkd & Hk0).
    exists es, L2, up', d'. split_and!; try done.
    + rewrite HU'. replace (S (S i)) with (length (take i (used w)) + 2) by lia.
      by rewrite drop_app_add.
    + specialize (Hk0 ltac:(done)). nia.
  - done.
Qed.

Lemma flush_levels_spec c data top count i w :
  closing c data top i w → count + i = top → top < nlevels →
  wp (flush_levels count i) (λ _ w', closing c data top top w' ∧ keeps (w_store w) (w_store w'))
     (λ e w', put_fails e ∧ keeps (w_store w) (w_store w')) w.
Proof.
  revert i w. induction count as [|count IH]; intros i w Hc Hi Htop; simpl.
  { wp_steps. simplify_eq/=. done. }
  pose proof Hc as (Hw & _ & _ & _ & body & _ & _ & _ & Hb & _).
  wp_step. eapply wp_w_nb; [done..|]. wp_step. wp_step; [intros _|].
  - eapply wp_mono; [by apply (close_step c data top); [done|lia|]|..]; cbn beta.
    2: { by intros e w' (? & s' & -> & ?). }
    intros [] w' (Hc' & Hk & _).
    eapply wp_mono; [apply IH; [done|lia|done]|..]; cbn beta.
    + intros [] w'' [? ?]. split; [done|by transitivity (w_store w')].
    + intros e w'' [? ?]. split; [done|by transitivity (w_store w')].
  - by rewrite bool_decide_eq_false_2.
Qed.

Lemma highest_below_spec (ns : list nat) n :
  0 < n → n ≤ length ns → (∃ x, ns !! 0 = Some (S x)) →
  ∃ h x, highest_below ns n = Ok h ∧ h < n ∧ ns !! h = Some (S x) ∧
         ∀ j y, h < j < n → ns !! j = Some y → y = 0.
Proof.
  intros Hn Hlen H0'. induction n as [|n IH]; [lia|].
  destruct (lookup_lt_is_Some_2 ns n) as [y Hy]; [lia|]. simpl. rewrite (idx_ok _ _ _ Hy).
  simpl. case_bool_decide as Hz.
  - subst y. destruct n as [|n]; [destruct H0'; simplify_eq|].
    destruct IH as (h & x & Hh & Hlt & Hx & Hab); [lia..|].
    exists h, x. split_and!; [done|lia|done|]. intros j y Hj Hy'.
    destruct (decide (j = S n)) as [->|]; [congruence|]. apply (Hab j y); [lia|done].
  - destruct y as [|y]; [done|]. exists n, y. split_and!; [done|lia|done|]. intros; lia.
Qed.

(** A node with a single entry stands for just that subtree. *)
Lemma forest_single m s lvl off es d :
  forest_at m s lvl off es d → length es = 40 →
  ∃ h, es = entry off h ∧ tree_at m s lvl h off d.
Proof.
  destruct 1 as [|lvl off h d es ds Ht Hf]; [done|].
  rewrite length_app, length_entry by eauto using tree_at_hash. intros Hl.
  assert (es = []) as -> by (apply nil_length_inv; lia). exists h. rewrite app_nil_r.
  apply forest_nil_inv in Hf as ->. by rewrite app_nil_r.
Qed.

Lemma pend_all_empty m s lvl L up :
  pend m s lvl L up → Forall (λ u, u = []) L → up = [].
Proof. destruct 1; [done|]. by intros [? _]%Forall_cons. Qed.

Lemma wrote_closing w data highest x :
  wrote w data → (data = [] ∨ tailed w) → w_nbytes w !! highest = Some (S x) →
  (∀ j y, highest < j < nlevels → w_nbytes w !! j = Some y → y = 0) →
  closing (Nat.min 1 (length data)) data (S highest) 0 w ∧ S highest ≤ nlevels - 2.
Proof.
  intros (Hw & Htop & body & L & up & HU & Hp & Ho & Hd) Htl Hx Hab.
  destruct (used_tail _ _ _ HU) as [Hrow0 HL]. pose proof nlevels_three.
  assert (Hemp : ∀ j u, highest < j → used w !! j = Some u → u = []).
  { intros j u Hj Hu. pose proof (used_lt _ _ _ Hw Hu).
    destruct (used_lookup _ _ _ Hw Hu) as (r & Hn & _). apply nil_length_inv. eauto. }
  assert (Hhi : S highest ≤ nlevels - 2).
  { destruct (decide (S highest ≤ nlevels - 2)) as [|Hgt]; [done|]. exfalso.
    assert (highest < nlevels) by (rewrite <-(wf_nbytes w Hw); eauto using lookup_lt_Some).
    destruct (used_is_Some w highest Hw) as [u Hu]; [done|].
    rewrite (Htop highest u ltac:(lia) Hu) in Hu.
    destruct (used_lookup _ _ _ Hw Hu) as (r & Hn & _). simplify_eq/=. }
  split; [|done]. split_and!; [done| | |done|intros; lia|].
  - intros j u Hj. apply Hemp. lia.
  - intros _. left. destruct (used_is_Some w (S highest) Hw) as [u Hu]; [lia|].
    rewrite (Hemp (S highest) u ltac:(lia) Hu) in Hu. done.
  - exists body, L, up, body. split_and!; try done.
    + eapply pend_minsz; [|done]. intros l. pose proof (full_size_pos l). cbn beta. lia.
    + destruct Htl as [->|Ht]; [simpl; lia|]. specialize (Ht _ Hrow0).
      simpl in Ht. lia.
Qed.

Lemma closing_store c data top i w s' :
  closing c data top i w → keeps (w_store w) s' → closing c data top i (w_set_store s' w).
Proof.
  intros (Hw & Hfree & Hs & Ht & body & L & up & d & Hb & HL & Hp & Hblk & Hrest) Hk.
  split_and!; [by destruct Hw|done..|by apply Ht|by apply Ht|].
  exists body, L, up, d. split_and!; try done; try apply Hrest; [by eapply pend_keeps|].
  destruct i as [|i]; [done|]. destruct Hblk as [? ?]. split; eauto using forest_at_keeps.
Qed.

(** The part of [Close] after the flushes. *)
Lemma close_root c data highest w :
  closing c data (S highest) (S highest) w → S highest < nlevels →
  wp (n ← w_nb (S highest); r ← w_row (S highest);
      if bool_decide (n = 41) then h ← lift (slice r 9 41); mret (mkHTree highest h)
      else finalbuf ← lift (slice r 0 n);
           h ← zoom w_store w_set_store (Put finalbuf);
           mret (mkHTree (S highest) h))
    (λ t w', tree_at (λ _, c) (w_store w') (Depth t) (Data t) 0 data ∧
             Depth t ≤ S highest ∧ keeps (w_store w) (w_store w') ∧
             closing c data (S highest) (S highest) w')
    (λ e w', put_fails e ∧ keeps (w_store w) (w_store w')) w.
Proof.
  intros Hc Hlt.
  pose proof Hc as (Hw & Hfree & _ & _ & body & L & up & d & Hb & HL & Hp & [Hne Hf] & Hsz & -> & _).
  destruct (used_lookup _ _ _ Hw Hb) as (_ & _ & _ & _ & _ & Hmax). simpl in Hmax.
  assert (up = []) as ->.
  { eapply pend_all_empty; [done|]. apply Forall_lookup_2. intros j u Hj.
    rewrite <-HL, lookup_drop in Hj. eapply Hfree; [|done]. lia. }
  rewrite app_nil_l in *. simpl in Hf.
  wp_step. eapply wp_w_nb; [done..|]. wp_step. eapply wp_w_row; [done..|].
  intros r Hr Hlr Hur. case_bool_decide as H41; wp_step.
  - simpl in H41. destruct (forest_single _ _ _ _ _ _ Hf) as (h & -> & Ht); [lia|].
    eapply wp_lift_ok; [apply slice_ok; lia|]. wp_steps.
    assert (take (41 - 9) (drop 9 r) = h) as ->; [|split_and!; simpl; [done|lia|done|done]].
    change (length (?a :: ?l)) with (S (length l)) in Hur. rewrite H41 in Hur.
    rewrite <-(take_drop 41 r), Hur. unfold entry.
    rewrite app_comm_cons, <-app_assoc, drop_app_length' by len. apply take_app_length'.
    by rewrite (tree_at_hash _ _ _ _ _ _ Ht).
  - eapply wp_lift_ok; [apply slice_ok; simpl in *; lia|]. wp_step. wp_step.
    rewrite drop_0, Nat.sub_0_r, Hur.
    eapply wp_mono; [apply Put_law| |done]. cbn beta. intros h s' (Hh & Hhold & Hk).
    wp_steps. split_and!; simpl; [|lia|done|by apply closing_store].
    eapply block_tree; eauto. split; eauto using forest_at_keeps.
Qed.

Lemma Close_closing c data hi w :
  highest_below (w_nbytes w) nlevels = Ok hi → closing c data (S hi) 0 w → S hi < nlevels →
  wp CloseWriter
    (λ t w', tree_at (λ _, c) (w_store w') (Depth t) (Data t) 0 data ∧
             Depth t ≤ S hi ∧ keeps (w_store w) (w_store w') ∧ closing c data (S hi) (S hi) w')
    (λ e w', put_fails e ∧ keeps (w_store w) (w_store w')) w.
Proof.
  intros Hhi Hc Hle. unfold CloseWriter. wp_steps. eapply wp_lift_ok; [done|]. wp_step.
  eapply wp_mono; [eapply (flush_levels_spec c data (S hi)); [done|lia..]| |done].
  cbn beta. intros [] w' [Hc' Hk].
  eapply wp_mono; [by apply (close_root c data); [|lia]|..]; cbn beta.
  - intros t w'' (? & ? & ? & ?). split_and!; [done|lia|by transitivity (w_store w')|done].
  - intros e w'' [? ?]. split; [done|by transitivity (w_store w')].
Qed.

(** What [Close] leaves behind, besides the tree. *)
Definition closed (data : bytes) w : Prop :=
  ∃ c hi, closing c data (S hi) (S hi) w ∧ S hi ≤ nlevels - 2.

Lemma Close_closed w data :
  wrote w data → (data = [] ∨ tailed w) →
  wp CloseWriter
    (λ t w', tree_at (some_size data) (w_store w') (Depth t) (Data t) 0 data ∧
             Depth t ≤ nlevels - 2 ∧ keeps (w_store w) (w_store w') ∧ closed data w')
    (λ e _, put_fails e) w.
Proof.
  intros Hwr Htl. pose proof nlevels_three.
  pose proof Hwr as (Hw & _ & body & L & up & HU & _).
  destruct (used_tail _ _ _ HU) as [Hrow0 _].
  destruct (used_lookup _ _ _ Hw Hrow0) as (_ & Hn0 & _).
  destruct (highest_below_spec (w_nbytes w) nlevels) as (hi & x & Hhi & Hlt & Hx & Hab);
    [lia|rewrite (wf_nbytes w Hw); lia|eauto|].
  destruct (wrote_closing w data hi x) as [Hc Hle]; try done.
  eapply wp_mono; [apply (Close_closing _ _ _ _ Hhi Hc); lia| |by intros ? ? []]. cbn beta.
  intros t w' (? & ? & ? & ?). split_and!; [done|lia|done|]. by eexists _, _.
Qed.

Lemma Close_spec w data :
  wrote w data → (data = [] ∨ tailed w) →
  wp CloseWriter
    (λ t w', tree_at (some_size data) (w_store w') (Depth t) (Data t) 0 data ∧
             Depth t ≤ nlevels - 2 ∧ keeps (w_store w) (w_store w'))
    (λ e _, put_fails e) w.
Proof.
  intros Hw Ht. eapply wp_mono; [by apply Close_closed| |done]. cbn beta. naive_solver.
Qed.

(** *** A second [Close] *)

(** Levels holding only their tag add nothing. *)
Lemma pend_tags m s k j L d :
  pend m s (j + k) L d → pend m s j (((λ i, [nbyte i]) <$> seq (S j) k) ++ L) d.
Proof.
  revert j. induction k as [|k IH]; intros j Hp; [by rewrite Nat.add_0_r in Hp|].
  cbn [seq]. rewrite fmap_cons, <-app_comm_cons, <-(app_nil_r d).
  apply (pend_cons m s j _ d [] []); [|constructor].
  apply IH. by rewrite <-Nat.add_succ_comm in Hp.
Qed.

Lemma closing_again c data hi w :
  closing c data (S hi) (S hi) w → S (S hi) < nlevels →
  closing 0 data (S (S hi)) 0 w ∧ highest_below (w_nbytes w) nlevels = Ok (S hi).
Proof.
  intros (Hw & Hfree & _ & [Htags Hoff] & body & L & up & d & Hb & HL & Hp & [Hne Hf] & _ & -> & _) Hlt.
  assert (HLe : Forall (λ u, u = []) L).
  { apply Forall_lookup_2. intros j u Hj. rewrite <-HL, lookup_drop in Hj. eapply Hfree; [|done]. lia. }
  apply pend_all_empty in Hp as Hup; [|done]. subst up. rewrite app_nil_l in *. simpl in Hf.
  assert (HU : used w = tags (S hi) ++ (nbyte (S hi) :: body) :: L)
    by (by rewrite <-Htags, <-HL, take_drop_middle).
  assert (Hu0 : used w !! 0 = Some [nbyte 0]) by (by rewrite HU).
  split.
  - split_and!; [done|intros j u Hj; apply Hfree; lia| |done|intros; lia|].
    { intros _. left. destruct (used_is_Some w (S (S hi)) Hw) as [u Hu]; [done|].
      rewrite Hu. f_equal. eapply Hfree; [|done]. lia. }
    exists [], (drop 1 (used w)), d, []. rewrite app_nil_r. split_and!; try done; [|by intros _; apply Hoff; lia].
    rewrite HU. change (drop 1 (tags (S hi) ++ ?x)) with (((λ i, [nbyte i]) <$> seq 1 hi) ++ x).
    apply (pend_tags (λ _, 0) (w_store w) hi 0). rewrite Nat.add_0_l.
    apply (pend_cons (λ _, 0) (w_store w) hi L [] body d); [by constructor|].
    eapply (tree_forest_minsz (λ _, c)); [|done]. cbn beta. lia.
  - destruct (used_lookup _ _ _ Hw Hb) as (_ & Hnb & _). destruct (used_lookup _ _ _ Hw Hu0) as (_ & Hn0 & _).
    destruct (highest_below_spec (w_nbytes w) nlevels) as (h & x & Hh & Hhlt & Hx & Hab);
      [lia|rewrite (wf_nbytes w Hw); lia|eauto|]. rewrite Hh. f_equal.
    destruct (decide (h < S hi)) as [Hl|Hge].
    { specialize (Hab (S hi) _ ltac:(lia) Hnb). simpl in Hab. lia. }
    destruct (decide (h = S hi)) as [|Hne']; [done|]. exfalso.
    destruct (used_is_Some w h Hw) as [u Hu]; [done|].
    rewrite (Hfree h u ltac:(lia) Hu) in Hu. destruct (used_lookup _ _ _ Hw Hu) as (r & Hn & _). simplify_eq/=.
Qed.

(** It neither fails on its own nor disturbs what is stored. *)
Lemma Close_twice w data :
  closed data w →
  wp CloseWriter (λ _ w', keeps (w_store w) (w_store w'))
     (λ e w', put_fails e ∧ keeps (w_store w) (w_store w')) w.
Proof.
  intros (c & hi & Hc & Hle). pose proof nlevels_three.
  destruct (closing_again c data hi w) as [Hc' Hhi]; [done|lia|].
  eapply wp_mono; [apply (Close_closing 0 data _ _ Hhi Hc'); lia| |done]. cbn beta.
  by intros t w' (_ & _ & ? & _).
Qed.

(** *** Streams that fit one leaf *)

(** [leaf w d]: everything written so far is in the first leaf. *)
Definition leaf w (d : bytes) : Prop :=
  wf w ∧ w_offset w = 0%Z ∧ ∃ L, used w = (nbyte 0 :: d) :: L ∧ Forall (λ u, u = []) L.

Lemma leaf_wrote w d : leaf w d → wrote w d.
Proof.
  intros (Hw & Ho & L & HU & HL). pose proof nlevels_three. split_and!; [done| |].
  - intros [|j] u Hj Hu; [lia|]. rewrite HU in Hu. by apply (Forall_lookup_1 _ _ _ _ HL Hu).
  - exists d, L, []. split_and!; try done. by constructor.
Qed.

Lemma leaf_tailed w d : leaf w d → d = [] ∨ tailed w.
Proof.
  intros (_ & _ & L & HU & _). destruct d as [|b d]; [by left|right].
  intros u. rewrite HU. intros [= <-]. simpl. lia.
Qed.

Lemma leaf_store w d s' : leaf w d → leaf (w_set_store s' w) d.
Proof. intros (Hw & Ho & L & HU & HL). split_and!; [by destruct Hw|done|by exists L]. Qed.

Lemma NewWriter_leaf s : leaf (NewWriter s) [].
Proof.
  split_and!; [apply NewWriter_wrote|done|]. eexists. split; [apply NewWriter_used|].
  by apply Forall_replicate.
Qed.

(** The tree is the leaf alone, and a failed [Close] can be repeated. *)
Lemma Close_leaf w d :
  leaf w d → wp CloseWriter (λ t _, Depth t = 0) (failed_put w) w.
Proof.
  intros Hleaf. pose proof (leaf_wrote _ _ Hleaf) as Hwr. pose proof (leaf_tailed _ _ Hleaf) as Htl.
  destruct Hleaf as (Hw & _ & L & HU & HL).
  pose proof nlevels_three. pose proof maxlen_two_entries.
  destruct (used_tail _ _ _ HU) as [Hrow0 _].
  assert (Hemp : ∀ j u, 0 < j → used w !! j = Some u → u = []).
  { intros [|j] u Hj Hu; [lia|]. rewrite HU in Hu. by apply (Forall_lookup_1 _ _ _ _ HL Hu). }
  destruct (used_lookup _ _ _ Hw Hrow0) as (_ & Hn0 & _).
  destruct (highest_below_spec (w_nbytes w) nlevels) as (hi & x & Hhi & Hlt & Hx & Hab);
    [lia|rewrite (wf_nbytes w Hw); lia|eauto|].
  assert (hi = 0) as ->.
  { destruct hi as [|hi]; [done|]. destruct (used_is_Some w (S hi) Hw) as [u Hu]; [done|].
    rewrite (Hemp (S hi) u ltac:(lia) Hu) in Hu.
    destruct (used_lookup _ _ _ Hw Hu) as (r & Hn & _). simplify_eq/=. }
  destruct (wrote_closing w d 0 x) as [Hc _]; [done..|].
  unfold CloseWriter. wp_steps. eapply wp_lift_ok; [done|]. simpl. wp_step. wp_step.
  eapply wp_w_nb; [done..|]. wp_step. wp_step; [intros _|by rewrite bool_decide_eq_false_2].
  eapply wp_mono; [apply (close_step _ d 1 0 w Hc); lia| |done]. cbn beta.
  intros [] w' ((Hw' & _) & _ & k & u & Hk & Hu & Hroom & Hn & Hbelow & _). wp_steps.
  assert (k = 1) as ->.
  { destruct (decide (k = 1)) as [|Hne]; [done|]. exfalso.
    destruct (Hbelow 1 ltac:(lia)) as [_ Hfull].
    destruct (used_is_Some w 1 Hw) as [v Hv]; [lia|].
    specialize (Hfull v Hv). rewrite (Hemp 1 v ltac:(lia) Hv) in Hfull. simpl in *. lia. }
  rewrite (Hemp 1 u ltac:(lia) Hu) in Hn. apply fmap_Some in Hn as (u' & Hu' & Hn).
  eapply wp_w_nb; [done..|]. wp_step. eapply wp_w_row; [done..|]. intros r _ Hlr _.
  rewrite <-Hn. simpl. wp_step. eapply wp_lift_ok; [apply slice_ok; lia|]. by wp_steps.
Qed.

(** The tree of the empty stream is a single leaf. *)
Lemma Close_empty s : wp CloseWriter (λ t _, Depth t = 0) (λ _ _, True) (NewWriter s).
Proof. eapply wp_mono; [by eapply Close_leaf, NewWriter_leaf|done|done]. Qed.

(** A [Write] that stays in the leaf does not touch the store. *)
Lemma Write_leaf w d buf :
  leaf w d → S (length (d ++ buf)) ≤ maxlen → buf ≠ [] →
  wp (Write buf) (λ _ w', leaf w' (d ++ buf) ∧ w_store w' = w_store w) (λ _ _, False) w.
Proof.
  intros Hleaf Hfit Hne. pose proof (leaf_wrote _ _ Hleaf) as (_ & Htop & _).
  destruct Hleaf as (Hw & Ho & L & HU & HL). rewrite length_app in Hfit.
  assert (0 < length buf) by (destruct buf; simpl; [done|lia]).
  destruct (used_tail _ _ _ HU) as [Hrow0 _].
  unfold Write. destruct buf as [|b buf]; [done|]. set (buf' := b :: buf) in *.
  replace (Write_loop (2 * length buf') buf') with
    (n0 ← w_nb 0; let n := Nat.min (length buf') (maxlen - n0) in
     if bool_decide (n = 0) then flush_leaf;; Write_loop (pred (2 * length buf')) buf'
     else fill_leaf n0 n buf';; Write_loop (pred (2 * length buf')) (drop n buf')) by done.
  wp_step. wp_step. eapply wp_w_nb; [done..|]. cbv zeta. simpl length at 1 2.
  rewrite bool_decide_eq_false_2 by (simpl length; lia). wp_step.
  eapply (fill_leaf_spec w d d L []); try done; try (by constructor); try (simpl length; lia).
  intros w' [Hw' _] Hs _ [HU' Ho']. simpl length in *.
  rewrite drop_ge by (simpl length; lia). rewrite take_ge in HU' by (simpl length; lia).
  replace (Write_loop _ []) with (mret () : M (Writer St) unit) by (by destruct (pred _)).
  wp_steps. split; [|done]. split_and!; [done|by rewrite Ho'|by exists L].
Qed.
End Close.
