(* ===== verification/HtreeRead.v ===== *)
(** Correctness of the htree reader.

    [left r] is the abstraction of the reader's arrays: the bytes each level has
    still to deliver.  [rpend] relates the levels above a point to the rest of
    the stream; [next_spec] is the induction over [next], [Read_spec],
    [ReadAll_spec] and [Seek_spec] follow. *)

From Stdlib Require Import ZArith Lia.
From stdpp Require Import base list.
From coqutil Require Import Byte.
From S2P Require Import Prelude Store Htree HtreeSpec.

Set Default Goal Selector "!".

Section Arrays.
Context {P : Params} {St : Type} `{CStore St}.
Implicit Types (r : Reader St).

Record wfr r : Prop := mkWfr {
  wfr_lvls : length (r_lvls r) = nlevels;
  wfr_pos : length (r_pos r) = nlevels;
  wfr_len : length (r_length r) = nlevels;
  wfr_rows : Forall (λ row, length row = maxlen) (r_lvls r);
  wfr_le : Forall2 (λ p n, p ≤ n ∧ n ≤ maxlen) (r_pos r) (r_length r);
}.

Definition window (pn : nat * nat) (row : bytes) : bytes :=
  take (pn.2 - pn.1) (drop pn.1 row).

Definition left r : list bytes := zip_with window (zip (r_pos r) (r_length r)) (r_lvls r).

Lemma length_left r : wfr r → length (left r) = nlevels.
Proof. intros []. unfold left. rewrite length_zip_with, length_zip_with. lia. Qed.

(** What a level of the view says about the arrays. *)
Definition at_level r lvl p n row : Prop :=
  r_pos r !! lvl = Some p ∧ r_length r !! lvl = Some n ∧ r_lvls r !! lvl = Some row ∧
  p ≤ n ∧ n ≤ maxlen ∧ length row = maxlen.

Lemma left_lookup r lvl u :
  wfr r → left r !! lvl = Some u → ∃ p n row, at_level r lvl p n row ∧ u = window (p, n) row.
Proof.
  intros [_ _ _ Hrows Hle] Hu. unfold left in Hu.
  apply lookup_zip_with_Some in Hu as ([p n] & row & -> & Hpn & Hrow).
  apply lookup_zip_with_Some in Hpn as (p' & n' & [= <- <-] & Hp & Hn).
  pose proof (Forall_lookup_1 _ _ _ _ Hrows Hrow) as Hl.
  pose proof (Forall2_lookup_lr _ _ _ _ _ _ Hle Hp Hn) as [? ?].
  exists p, n, row. by unfold at_level.
Qed.

Lemma left_is_Some r lvl : wfr r → lvl < nlevels → ∃ u, left r !! lvl = Some u.
Proof. intros. apply lookup_lt_is_Some_2. by rewrite length_left. Qed.
Lemma left_lt r lvl u : wfr r → left r !! lvl = Some u → lvl < nlevels.
Proof. intros Hw Hu. apply lookup_lt_Some in Hu. by rewrite length_left in Hu. Qed.

Definition with_rlevel r lvl row p n : Reader St :=
  mkReader (r_root r) (r_store r) (r_height r) (<[lvl:=row]> (r_lvls r))
    (<[lvl:=p]> (r_pos r)) (<[lvl:=n]> (r_length r)) (r_offset r).

Lemma left_with_rlevel r lvl row p n :
  left (with_rlevel r lvl row p n) = <[lvl := window (p, n) row]> (left r).
Proof. unfold left, with_rlevel; simpl. by rewrite !insert_zip_with. Qed.

Lemma wfr_with_rlevel r lvl row p n :
  wfr r → length row = maxlen → p ≤ n → n ≤ maxlen → wfr (with_rlevel r lvl row p n).
Proof.
  intros [] ???. split; simpl; rewrite ?length_insert; auto using Forall_insert.
  by apply Forall2_insert.
Qed.

(** The window of a freshly copied block is the block after its tag. *)
Lemma window_block row t body :
  S (length body) ≤ length row → window (1, S (length body)) (splice row 0 (t :: body)) = body.
Proof.
  intros Hl. unfold window; simpl. rewrite Nat.sub_0_r, splice_fits by (simpl; lia). simpl.
  rewrite drop_0. by apply take_app_length'.
Qed.

(** The window of a level is a prefix of the row from [p] on. *)
Lemma window_drop p n (row : bytes) :
  p ≤ n → n ≤ length row → ∃ junk, drop p row = window (p, n) row ++ junk.
Proof. intros. exists (drop (n - p) (drop p row)). unfold window; simpl. by rewrite take_drop. Qed.

Lemma window_app p n (row a b : bytes) :
  window (p, n) row = a ++ b → p + length a ≤ n → window (p + length a, n) row = b.
Proof.
  unfold window; simpl. intros Hw Hle. apply (f_equal (drop (length a))) in Hw.
  rewrite drop_app_length, skipn_firstn_comm, drop_drop in Hw. rewrite <-Hw. f_equal. lia.
Qed.

Lemma length_window p n (row : bytes) :
  p ≤ n → n ≤ length row → length (window (p, n) row) = n - p.
Proof. intros. unfold window; simpl. rewrite length_take, length_drop. lia. Qed.
End Arrays.

(** The primitive accesses, executed on known array contents. *)
Section Prims.
Context {P : Params} {St : Type} `{CStore St}.
Implicit Types (r : Reader St).

Lemma wp_r_posn r lvl p (Q : nat → Reader St → Prop) E :
  r_pos r !! lvl = Some p → Q p r → wp (r_posn lvl) Q E r.
Proof. intros. unfold r_posn. wp_steps. eapply wp_lift_ok; eauto using idx_ok. Qed.
Lemma wp_r_len r lvl n (Q : nat → Reader St → Prop) E :
  r_length r !! lvl = Some n → Q n r → wp (r_len lvl) Q E r.
Proof. intros. unfold r_len. wp_steps. eapply wp_lift_ok; eauto using idx_ok. Qed.
Lemma wp_r_row r lvl row (Q : bytes → Reader St → Prop) E :
  r_lvls r !! lvl = Some row → Q row r → wp (r_row lvl) Q E r.
Proof. intros. unfold r_row. wp_steps. eapply wp_lift_ok; eauto using idx_ok. Qed.

Lemma wp_r_set_posn r lvl p (Q : unit → Reader St → Prop) E :
  lvl < length (r_pos r) →
  Q () (mkReader (r_root r) (r_store r) (r_height r) (r_lvls r) (<[lvl:=p]> (r_pos r))
          (r_length r) (r_offset r)) →
  wp (r_set_posn lvl p) Q E r.
Proof. intros. unfold r_set_posn. wp_steps. eapply wp_lift_ok; [by apply set_idx_ok|]. done. Qed.
Lemma wp_r_set_len r lvl n (Q : unit → Reader St → Prop) E :
  lvl < length (r_length r) →
  Q () (mkReader (r_root r) (r_store r) (r_height r) (r_lvls r) (r_pos r)
          (<[lvl:=n]> (r_length r)) (r_offset r)) →
  wp (r_set_len lvl n) Q E r.
Proof. intros. unfold r_set_len. wp_steps. eapply wp_lift_ok; [by apply set_idx_ok|]. done. Qed.
Lemma wp_r_set_row r lvl row (Q : unit → Reader St → Prop) E :
  lvl < length (r_lvls r) →
  Q () (mkReader (r_root r) (r_store r) (r_height r) (<[lvl:=row]> (r_lvls r)) (r_pos r)
          (r_length r) (r_offset r)) →
  wp (r_set_row lvl row) Q E r.
Proof. intros. unfold r_set_row. wp_steps. eapply wp_lift_ok; [by apply set_idx_ok|]. done. Qed.
End Prims.

Lemma copy32_app (h x : bytes) : length h = hash_len → copy32 (h ++ x) = h.
Proof.
  intros Hh. unfold copy32, splice. rewrite length_replicate, Nat.sub_0_r, take_0, app_nil_l.
  rewrite drop_ge by (rewrite length_replicate, length_app; lia).
  rewrite app_nil_r. by apply take_app_length'.
Qed.

(** The fields of the first entry of a window. *)
Lemma entry_hash p n (row : bytes) off h es :
  p ≤ n → n ≤ length row → length h = hash_len → window (p, n) row = entry off h ++ es →
  copy32 (take (length row - (p + 8)) (drop (p + 8) row)) = h.
Proof.
  intros ?? Hh Hwin. destruct (window_drop p n row) as [junk Hj]; [done..|]. rewrite Hwin in Hj.
  rewrite take_ge by (rewrite length_drop; lia). rewrite <-drop_drop, Hj. unfold entry.
  rewrite <-!app_assoc, drop_app_length' by (by rewrite length_put_le). by apply copy32_app.
Qed.

Lemma entry_offset p n (row : bytes) off x :
  p ≤ n → n ≤ length row → (Z.of_nat off < 2 ^ 63)%Z →
  window (p, n) row = put_le 8 (Z.of_nat off) ++ x → uint64_at row p = Ok (Z.of_nat off).
Proof.
  intros ?? Ho Hwin. unfold uint64_at. pose proof (length_window p n row) as Hl.
  rewrite Hwin, length_app, length_put_le in Hl. rewrite slice_ok by lia.
  unfold mbind, outcome_bind. replace (p + 8 - p) with 8 by lia.
  destruct (window_drop p n row) as [junk ->]; [done..|]. rewrite Hwin, <-app_assoc.
  rewrite take_app_length' by (by rewrite length_put_le).
  rewrite get_put_le_small by lia. done.
Qed.

(** ** [next] *)

Section Next.
Context {P : Params} {Pok : ParamsOk} {St : Type} `{CStoreLaws St}.
Context (minsz : nat → nat).
Implicit Types (r : Reader St) (s : St).

(** [rpend s lvl L R]: the levels [L], from [lvl + 1] up to the root's, have
    the stream [R] still to deliver. *)
Inductive rpend s : nat → list bytes → bytes → Prop :=
  | rpend_root lvl : rpend s lvl [] []
  | rpend_cons lvl off es d L R :
      forest_at minsz s lvl off es d → rpend s (S lvl) L R → rpend s lvl (es :: L) (d ++ R).

Lemma rpend_keeps s s' lvl L R : keeps s s' → rpend s lvl L R → rpend s' lvl L R.
Proof. intros Hk. induction 1; eauto using rpend, forest_at_keeps. Qed.

Definition above r (lvl : nat) : list bytes := take (r_height r - lvl) (drop (S lvl) (left r)).

Lemma above_S r lvl es :
  lvl < r_height r → left r !! S lvl = Some es → above r lvl = es :: above r (S lvl).
Proof.
  intros Hlt Hes. unfold above. rewrite (drop_S _ es) by done.
  replace (r_height r - lvl) with (S (r_height r - S lvl)) by lia. done.
Qed.

Lemma above_root r lvl : r_height r ≤ lvl → above r lvl = [].
Proof. intros. unfold above. by replace (r_height r - lvl) with 0 by lia. Qed.

(** What every operation of the reader keeps: the arrays' shape, the root's
    height, and nothing above the root. *)
Record steady r : Prop := mkSteady {
  st_wfr : wfr r;
  st_height : r_height r ≤ nlevels - 2;
  st_top : left r !! S (r_height r) = Some [];
}.

Definition same_root r r' : Prop :=
  r_root r' = r_root r ∧ r_height r' = r_height r ∧ r_offset r' = r_offset r ∧
  keeps (r_store r) (r_store r').

Lemma at_level_empty r lvl p n row :
  at_level r lvl p n row → window (p, n) row = [] ↔ n ≤ p.
Proof.
  intros (_ & _ & _ & ? & ? & Hl). split; intros Hw.
  - apply (f_equal length) in Hw. rewrite length_window in Hw by lia. simpl in Hw. lia.
  - apply nil_length_inv. rewrite length_window; lia.
Qed.

Lemma load_child_spec r lvl off h d es Q E :
  steady r → lvl < r_height r → left r !! S lvl = Some (entry off h ++ es) →
  tree_at minsz (r_store r) lvl h off d →
  (∀ r' body, steady r' → same_root r r' → left r' = <[lvl:=body]> (<[S lvl:=es]> (left r)) →
     block minsz (r_store r') lvl off body d → minsz lvl ≤ length d → Q false r') →
  (∀ e s', get_fails e → keeps (r_store r) s' → E e (r_set_store s' r)) →
  wp (load_child lvl) Q E r.
Proof.
  intros [Hw Hh Ht] Hlvl Hes Htree HQ HE.
  destruct (left_lookup _ _ _ Hw Hes) as (p & n & up & Hat & Hwin).
  pose proof Hat as (Hp & Hn & Hup & Hpn & Hnm & Hlup).
  destruct (left_is_Some r lvl Hw) as [u0 Hu0]; [lia|].
  destruct (left_lookup _ _ _ Hw Hu0) as (p0 & n0 & row & (Hp0 & Hn0 & Hrow & _ & _ & Hlrow) & _).
  pose proof (tree_at_hash _ _ _ _ _ _ Htree) as Hlh.
  assert (Hent : length (entry off h) = 40) by (by apply length_entry).
  assert (Hge : p + 40 ≤ n).
  { apply (f_equal length) in Hwin. rewrite length_window, length_app in Hwin by lia. lia. }
  destruct (tree_block _ _ _ _ _ _ Htree) as (body & Hhold & Hlb & Hsz & Hblk).
  unfold load_child. wp_step. eapply wp_r_posn; [done|]. wp_step. eapply wp_r_row; [done|].
  wp_step. eapply wp_lift_ok; [apply slice_ok; lia|].
  assert (copy32 (take (maxlen - (p + 8)) (drop (p + 8) up)) = h) as ->
    by (rewrite <-Hlup; eapply entry_hash; [..|by rewrite <-Hwin]; done || lia).
  wp_step. unfold r_get. wp_step.
  eapply wp_mono; [by eapply Get_law| |by intros ? ? [? ?]; apply HE].
  cbn beta. intros ? s' [-> Hk]. wp_step. eapply wp_r_row; [done|]. wp_step.
  eapply wp_lift_ok; [rewrite copy_at_fits by (simpl; lia); done|].
  destruct Hw as [Hl1 Hl2 Hl3 Hl4 Hl5].
  wp_step. apply wp_r_set_row; [simpl; lia|]. wp_step. apply wp_r_set_posn; [simpl; lia|].
  wp_step. apply wp_r_set_len; [simpl; lia|]. wp_step.
  apply wp_r_set_posn; [simpl; rewrite length_insert; lia|]. wp_steps. simpl.
  set (r' := mkReader _ _ _ _ _ _ _).
  assert (Hr' : r' = with_rlevel (with_rlevel (r_set_store s' r) (S lvl) up (p + 40) n) lvl
                       (splice row 0 (nbyte lvl :: body)) 1 (S (length body))).
  { unfold r', with_rlevel; simpl.
    by rewrite (list_insert_id (r_lvls r) (S lvl) up Hup),
      (list_insert_id (r_length r) (S lvl) n Hn). }
  assert (Hleft : left r' = <[lvl:=body]> (<[S lvl:=es]> (left r))).
  { rewrite Hr', !left_with_rlevel, window_block by lia. do 2 f_equal.
    rewrite <-Hent. apply window_app; [done|lia]. }
  apply (HQ r' body); [|done|done|eauto using block_keeps|done].
  split; [|done|].
  - rewrite Hr'. apply wfr_with_rlevel; [|rewrite length_splice; lia|lia..].
    by apply wfr_with_rlevel.
  - rewrite Hleft. unfold r'; simpl. rewrite !list_lookup_insert_ne by lia. done.
Qed.

Lemma forest_uncons s lvl off es d :
  forest_at minsz s lvl off es d → es ≠ [] →
  ∃ h d1 es' ds, es = entry off h ++ es' ∧ d = d1 ++ ds ∧ tree_at minsz s lvl h off d1 ∧
    forest_at minsz s lvl (off + length d1) es' ds.
Proof. destruct 1; [done|]. intros _. eauto 10. Qed.

Lemma same_root_trans r1 r2 r3 : same_root r1 r2 → same_root r2 r3 → same_root r1 r3.
Proof.
  intros (?&?&?&?) (?&?&?&?). split_and!; try congruence. by transitivity (r_store r2).
Qed.

Lemma steady_store r s' : steady r → steady (r_set_store s' r).
Proof. intros [[] Hh Ht]. by split. Qed.

(** After an error of the store [next lvl] can be tried again: what is below is
    as it was, and the same stream is to come. *)
Definition retry r lvl R (e : error) r' : Prop :=
  get_fails e ∧ steady r' ∧ same_root r r' ∧ rpend (r_store r') lvl (above r' lvl) R ∧
  ∀ j, j ≤ lvl → left r' !! j = left r !! j.

(** After [next lvl] level [lvl] holds the next block of the stream, or the
    stream is at its end. *)
Lemma next_spec fuel lvl r R :
  steady r → fuel + lvl = nlevels → lvl ≤ r_height r →
  rpend (r_store r) lvl (above r lvl) R →
  wp (next_from fuel lvl)
    (λ eof r', steady r' ∧ same_root r r' ∧
      if (eof : bool) then R = [] ∧ left r' = left r
      else lvl < r_height r ∧ ∃ off body d R',
        R = d ++ R' ∧ left r' !! lvl = Some body ∧ block minsz (r_store r') lvl off body d ∧
        minsz lvl ≤ length d ∧ rpend (r_store r') lvl (above r' lvl) R' ∧
        ∀ j, j < lvl → left r' !! j = left r !! j)
    (retry r lvl R) r.
Proof.
  revert lvl r R. induction fuel as [|fuel IH]; intros lvl r R Hst Hfuel Hlvl Hp.
  { pose proof (st_height _ Hst). pose proof nlevels_three. lia. }
  pose proof Hst as [Hw Hh Htop]. pose proof nlevels_three.
  destruct (left_is_Some r (S lvl) Hw) as [es Hes]; [lia|].
  destruct (left_lookup _ _ _ Hw Hes) as (p & n & up & Hat & Hwin).
  pose proof Hat as (Hpos & Hn & _).
  simpl. wp_steps. rewrite bool_decide_eq_false_2 by lia.
  wp_step. eapply wp_r_posn; [done|]. wp_step. eapply wp_r_len; [done|]. wp_step.
  (* level lvl+1 has an entry, after a recursive call if it had run out *)
  apply (wp_mono _ (λ eof r1, steady r1 ∧ same_root r r1 ∧
    if (eof : bool) then R = [] ∧ left r1 = left r
    else lvl < r_height r ∧ ∃ off es1 d R',
      R = d ++ R' ∧ left r1 !! S lvl = Some es1 ∧ es1 ≠ [] ∧
      forest_at minsz (r_store r1) lvl off es1 d ∧
      rpend (r_store r1) (S lvl) (above r1 (S lvl)) R' ∧
      ∀ j, j < S lvl → left r1 !! j = left r !! j) _ (retry r lvl R)); [| |done].
  - case_bool_decide as Hex; [case_bool_decide as Hroot|]; wp_steps.
    + split; [done|split; [by split_and!|]].
      rewrite above_root in Hp by lia. by inversion Hp.
    + rewrite (above_S _ _ es) in Hp by (lia || done).
      assert (es = []) as -> by (rewrite Hwin; by eapply at_level_empty).
      inversion Hp as [|? off ? d ? R1 Hf Hp1]; simplify_eq.
      apply forest_nil_inv in Hf as ->. simpl.
      eapply wp_mono; [apply (IH (S lvl) r R1); (done || lia)| |]; cbn beta.
      2: { intros e r1 (He & Hst1 & Hsr & Hp' & Hsame). pose proof Hsr as (_ & Hheq & _ & _).
           split_and!; [done|done|done| |intros j Hj; apply Hsame; lia].
           rewrite (above_S _ _ []) by (lia || by rewrite Hsame by lia).
           apply (rpend_cons _ _ 0 [] [] _ R1); [constructor|done]. }
      intros [] r1 (Hst1 & Hsr & Hpost); (split; [done|split; [done|]]); [done|].
      destruct Hpost as (_ & off' & body & d & R' & -> & Hb & [Hne Hf] & Hsz & Hp' & Hsame).
      split; [lia|]. by exists off', body, d, R'.
    + split; [done|split; [by split_and!|]].
      assert (lvl < r_height r) as Hlt.
      { destruct (decide (lvl = r_height r)) as [->|]; [|lia]. simplify_eq.
        exfalso. apply Hex. by eapply at_level_empty. }
      rewrite (above_S _ _ es) in Hp by done. split; [done|].
      inversion Hp as [|? off ? d ? R1 Hf Hp1]; simplify_eq.
      eexists off, _, d, R1. split_and!; try done.
      intros Hnil. apply Hex. by eapply at_level_empty.
  - intros [] r1 (Hst1 & Hsr & Hpost); wp_steps; [done|].
    destruct Hpost as (Hlt & off & es1 & d & R' & -> & Hes1 & Hne & Hf & Hp1 & Hsame).
    destruct (forest_uncons _ _ _ _ _ Hf Hne) as (h & d1 & es2 & ds & -> & -> & Ht & Hf2).
    pose proof Hsr as (_ & Hheq & _).
    eapply load_child_spec; [done|lia|done|done| |].
    2: { intros e s' He Hk. split_and!; [done|by apply steady_store| | |intros j Hj; simpl; apply Hsame; lia].
         - destruct Hsr as (? & ? & ? & ?). split_and!; try done. by transitivity (r_store r1).
         - change (above (r_set_store s' r1) lvl) with (above r1 lvl).
           rewrite (above_S _ _ (entry off h ++ es2)) by (lia || done).
           econstructor; [by eapply forest_at_keeps|by eapply rpend_keeps]. }
    intros r2 body Hst2 Hsr2 Hleft Hblk Hsz. split; [done|split; [by eapply same_root_trans|]].
    split; [done|]. pose proof Hsr2 as (_ & Hheq2 & _ & Hk2).
    assert (Hlen : S lvl < length (left r1)) by (rewrite length_left by apply Hst1; lia).
    exists off, body, d1, (ds ++ R'). rewrite <-app_assoc. split_and!; try done.
    + rewrite Hleft. apply list_lookup_insert_eq. rewrite length_insert. lia.
    + assert (Hes2 : left r2 !! S lvl = Some es2).
      { rewrite Hleft, list_lookup_insert_ne by lia. by apply list_lookup_insert_eq. }
      rewrite (above_S _ _ es2) by (lia || done).
      econstructor; [eauto using forest_at_keeps|].
      replace (above r2 (S lvl)) with (above r1 (S lvl)); [eauto using rpend_keeps|].
      unfold above. rewrite Hheq2, Hleft, !drop_insert_lt by lia. done.
    + intros j Hj. rewrite Hleft, !list_lookup_insert_ne by lia. apply Hsame. lia.
Qed.

(** [stream r R]: [R] is what the reader has still to deliver. *)
Definition stream r (R : bytes) : Prop :=
  steady r ∧ ∃ body R0, left r !! 0 = Some body ∧
    rpend (r_store r) 0 (above r 0) R0 ∧ R = body ++ R0.

(** Leaves below an interior node are not empty. *)
Definition progress r : Prop := 1 ≤ minsz 0 ∨ r_height r = 0.

(** Move [k] bytes forward within the leaf. *)
Lemma stream_at r body R0 k Q E :
  steady r → left r !! 0 = Some body → rpend (r_store r) 0 (above r 0) R0 → k ≤ length body →
  (∀ r', stream r' (drop k body ++ R0) → same_root r r' → Q () r') →
  ∀ p, r_pos r !! 0 = Some p → wp (r_set_posn 0 (p + k)) Q E r.
Proof.
  intros Hst Hb Hp Hk HQ p Hpos. pose proof Hst as [Hw Hh Htop]. pose proof nlevels_three.
  destruct (left_lookup _ _ _ Hw Hb) as (p' & m & row & Hat & Hwin).
  pose proof Hat as (Hpos' & Hlen & Hrow & Hpm & Hm & Hlr).
  assert (p' = p) as -> by congruence. pose proof (length_window p m row) as Hlw.
  rewrite <-Hwin in Hlw. apply wp_r_set_posn; [rewrite (wfr_pos _ Hw); lia|].
  set (r' := mkReader _ _ _ _ _ _ _).
  assert (Hr' : r' = with_rlevel r 0 row (p + k) m).
  { unfold r', with_rlevel. by rewrite (list_insert_id (r_lvls r) 0 row Hrow),
      (list_insert_id (r_length r) 0 m Hlen). }
  assert (Hleft : left r' = <[0:=drop k body]> (left r)).
  { rewrite Hr', left_with_rlevel. f_equal.
    replace k with (length (take k body)) at 1 by (apply length_take_le; lia).
    apply window_app; [by rewrite take_drop|rewrite length_take_le; lia]. }
  apply HQ; [|by split_and!]. split.
  - split; [rewrite Hr'; apply wfr_with_rlevel; [done|lia..]|done|].
    rewrite Hleft. simpl. by rewrite list_lookup_insert_ne by lia.
  - exists (drop k body), R0. split_and!; [| |done].
    + rewrite Hleft. apply list_lookup_insert_eq. rewrite length_left by done. lia.
    + unfold above. by rewrite Hleft, drop_insert_lt by lia.
Qed.

(** Deliver [n] bytes of a leaf window. *)
Lemma take_window r body R0 n Q E :
  steady r → left r !! 0 = Some body → rpend (r_store r) 0 (above r 0) R0 →
  (∀ r', stream r' (drop n body ++ R0) → r_root r' = r_root r → r_height r' = r_height r →
     keeps (r_store r) (r_store r') →
     r_offset r' = u64 (r_offset r + Z.of_nat (length (take n body))) → Q (take n body) r') →
  wp (pos ← r_posn 0; r_set_posn 0 (pos + length (take n body));;
      modify (r_add_offset (length (take n body)));; mret (take n body)) Q E r.
Proof.
  intros Hst Hb Hp HQ.
  destruct (left_lookup _ _ _ (st_wfr _ Hst) Hb) as (p & m & row & (Hpos & _) & _).
  wp_step. eapply wp_r_posn; [done|]. wp_step.
  eapply stream_at; [done|done|done|rewrite length_take; lia| |done].
  intros r' [[Hw Hh Ht] Hs] (Hr & Hhe & Ho & Hk). wp_steps. apply HQ; try done.
  - assert (drop (length (take n body)) body = drop n body) as Hd.
    { rewrite length_take. destruct (decide (n ≤ length body)); [by rewrite Nat.min_l by lia|].
      rewrite Nat.min_r by lia. by rewrite !drop_ge by lia. }
    rewrite Hd in Hs. split; [|done]. split; [by destruct Hw|done..].
  - simpl. by rewrite Ho.
Qed.

Lemma wp_leaf_window r body Q E :
  wfr r → left r !! 0 = Some body → Q body r → wp leaf_window Q E r.
Proof.
  intros Hw Hb HQ. destruct (left_lookup _ _ _ Hw Hb) as (p & n & row & Hat & ->).
  destruct Hat as (Hp & Hn & Hrow & ? & ? & Hl). unfold leaf_window.
  wp_step. eapply wp_r_row; [done|]. wp_step. eapply wp_r_posn; [done|].
  wp_step. eapply wp_r_len; [done|]. eapply wp_lift_ok; [apply slice_ok; lia|]. done.
Qed.

Definition delivered r R n out r' : Prop :=
  ∃ R', R = out ++ R' ∧ stream r' R' ∧ r_root r' = r_root r ∧ r_height r' = r_height r ∧
    keeps (r_store r) (r_store r') ∧
    r_offset r' = u64 (r_offset r + Z.of_nat (length out)) ∧
    length out ≤ n ∧ (progress r → 1 ≤ n → out ≠ []).

Lemma take_ne_nil (n : nat) (l : bytes) : 1 ≤ n → l ≠ [] → take n l ≠ [].
Proof. destruct n, l; naive_solver lia. Qed.

(** A read that fails leaves the reader where it was. *)
Lemma Read_retry r R n :
  stream r R →
  wp (Read n) (delivered r R n)
    (λ e r', (e = EOF ∧ R = [] ∨ get_fails e) ∧ stream r' R ∧ same_root r r') r.
Proof.
  intros (Hst & body & R0 & Hb & Hp & ->). unfold Read. wp_step.
  eapply wp_leaf_window; [apply Hst|done|]. wp_step.
  (* the window the copy takes from, after a refill if the leaf had run out *)
  apply (wp_mono _ (λ src r1, steady r1 ∧ same_root r r1 ∧ left r1 !! 0 = Some src ∧
     (progress r → src ≠ []) ∧ ∃ R1, body ++ R0 = src ++ R1 ∧
     rpend (r_store r1) 0 (above r1 0) R1) _
     (λ e r', (e = EOF ∧ body ++ R0 = [] ∨ get_fails e) ∧ stream r' (body ++ R0) ∧ same_root r r'));
    [| |done].
  - case_bool_decide as Hz; wp_steps.
    + apply nil_length_inv in Hz as ->. unfold next. simpl.
      eapply wp_mono; [eapply next_spec; [done|lia|lia|done]|..]; cbn beta.
      2: { intros e r1 (He & Hst1 & Hsr & Hp1 & Hsame). split_and!; [by right| |done]. split; [done|].
           exists [], R0. by rewrite Hsame. }
      intros [] r1 (Hst1 & Hsr & Hpost).
      * wp_steps. destruct Hpost as [-> Hleft]. split_and!; [by left| |done]. split; [done|].
        exists [], []. rewrite Hleft. split_and!; [done| |done].
        destruct Hsr as (_ & Hheq & _ & Hk). replace (above r1 0) with (above r 0); [by eapply rpend_keeps|].
        unfold above. by rewrite Hleft, Hheq.
      * destruct Hpost as (Hlt & off & body1 & d & R' & -> & Hb1 & Hblk & Hsz & Hp1 & _).
        simpl in Hblk. subst body1. eapply wp_leaf_window; [apply Hst1|done|].
        split_and!; eauto. intros [Hm|Hm] ->; simpl in *; lia.
    + split_and!; [done|by split_and!|done|by intros _ ->|]. eauto.
  - cbn beta. intros src r1 (Hst1 & (Hr1 & Hh1 & Ho1 & Hk1) & Hb1 & Hne & R1 & Heq & Hp1).
    rewrite Heq. eapply take_window; [done..|]. intros r' Hs Hr Hh Hk Ho.
    exists (drop n src ++ R1). rewrite app_assoc, take_drop.
    split_and!; [done|done|congruence|congruence|by transitivity (r_store r1)|congruence| |].
    + rewrite length_take. lia.
    + intros Hpr Hn. apply take_ne_nil; auto.
Qed.

Lemma Read_spec r R n :
  stream r R →
  wp (Read n) (delivered r R n) (λ e r', e = EOF ∧ R = [] ∧ keeps (r_store r) (r_store r') ∨ get_fails e) r.
Proof.
  intros Hs. eapply wp_mono; [by apply Read_retry|done|]; cbn beta.
  intros e r' [[[-> ->]|He] [_ (_ & _ & _ & Hk)]]; auto.
Qed.

(** [ReadAll] delivers the rest of the stream, whatever the buffer sizes. *)
Lemma ReadAll_keeps r R sz fuel i :
  stream r R → progress r → (∀ j, 1 ≤ sz j) → length R < fuel → ¬ get_fails EOF →
  wp (ReadAll_from sz fuel i) (λ out r', out = R ∧ keeps (r_store r) (r_store r'))
     (λ e r', get_fails e ∧ keeps (r_store r) (r_store r')) r.
Proof.
  intros Hs Hpr Hsz Hf Heof. revert r R i Hs Hpr Hf.
  induction fuel as [|fuel IH]; intros r R i Hs Hpr Hf; [lia|]. simpl. wp_step. wp_step.
  eapply wp_mono; [by apply (Read_retry r R (sz i))|..]; cbn beta.
  - intros out r' (R' & -> & Hs' & _ & Hh & Hk & _ & _ & Hne).
    specialize (Hne Hpr (Hsz i)). rewrite length_app in Hf.
    assert (1 ≤ length out) by (destruct out; naive_solver (simpl; lia)).
    assert (progress r') by (unfold progress; rewrite Hh; done).
    wp_step. eapply wp_mono; [apply (IH r' R'); [done..|lia]|..]; cbn beta.
    + intros out' r'' [-> Hk']. wp_steps. split; [done|by transitivity (r_store r')].
    + intros e r'' [He Hk']. split; [done|by transitivity (r_store r')].
  - intros e r' [He [_ (_ & _ & _ & Hk)]]. destruct (decide (e = EOF)) as [->|Hne].
    + destruct He as [[_ ->]|?]; [|done]. by wp_steps.
    + wp_steps. by destruct He as [[? _]|?].
Qed.

Lemma ReadAll_spec r R sz fuel i :
  stream r R → progress r → (∀ j, 1 ≤ sz j) → length R < fuel → ¬ get_fails EOF →
  wp (ReadAll_from sz fuel i) (λ out r', out = R ∧ keeps (r_store r) (r_store r'))
     (λ e _, get_fails e) r.
Proof. intros. eapply wp_mono; [by apply ReadAll_keeps|done|]. by intros ? ? []. Qed.

(** ** [NewReader] *)

Lemma load_root_spec r lvl body Q E :
  wfr r → lvl < nlevels → S (length body) ≤ maxlen →
  (∀ r', wfr r' → r_root r' = r_root r → r_store r' = r_store r → r_offset r' = r_offset r →
     r_height r' = lvl → left r' = <[lvl:=body]> (left r) → Q lvl r') →
  wp (load_root (nbyte lvl :: body)) Q E r.
Proof.
  intros Hw Hlvl Hlb HQ. pose proof nlevels_byte.
  destruct (left_is_Some r lvl Hw Hlvl) as [u Hu].
  destruct (left_lookup _ _ _ Hw Hu) as (p & n & row & (Hp & Hn & Hrow & ? & ? & Hl) & _).
  pose proof Hw as [Hl1 Hl2 Hl3 _ _].
  unfold load_root. wp_steps. eapply wp_lift_ok; [done|].
  rewrite unsigned_nbyte, Nat2Z.id by lia.
  wp_step. apply wp_r_set_len; [lia|]. wp_step. apply wp_r_set_posn; [simpl; lia|].
  wp_steps. eapply wp_r_row; [done|]. wp_step. apply wp_r_set_row; [simpl; lia|]. wp_steps.
  set (r' := mkReader _ _ _ _ _ _ _).
  assert (Hleft : left r' = left (with_rlevel r lvl (splice row 0 (nbyte lvl :: body)) 1
                                     (S (length body)))) by done.
  apply HQ; try done.
  - destruct (wfr_with_rlevel r lvl (splice row 0 (nbyte lvl :: body)) 1 (S (length body)));
      [done|rewrite length_splice; lia|lia|lia|]. by split.
  - by rewrite Hleft, left_with_rlevel, window_block by lia.
Qed.

Lemma rpend_empties s k lvl L R :
  rpend s (k + lvl) L R → rpend s lvl (replicate k [] ++ L) R.
Proof.
  revert lvl. induction k as [|k IH]; intros lvl HL; simpl; [done|].
  apply (rpend_cons _ _ 0 [] []); [constructor|]. apply IH. by rewrite Nat.add_succ_r.
Qed.

Lemma above_replicate (U : list bytes) (lvl : nat) body :
  U = <[S lvl:=body]> (replicate nlevels []) → S lvl < nlevels →
  take (S lvl) (drop 1 U) = replicate lvl [] ++ [body].
Proof.
  intros -> Hlt. rewrite drop_insert_ge, drop_replicate by lia. simpl. rewrite Nat.sub_0_r.
  assert (nlevels - 1 = lvl + S (nlevels - S (S lvl))) as -> by lia.
  rewrite replicate_add, insert_app_r_alt, length_replicate by (rewrite length_replicate; lia).
  rewrite Nat.sub_diag. simpl. rewrite cons_middle, app_assoc. apply take_app_length'.
  len.
Qed.

(** A new reader stands at the start of the tree its root names. *)
Lemma NewReader_keeps s lvl root data :
  tree_at minsz s lvl root 0 data → lvl ≤ nlevels - 2 →
  wp NewReader
    (λ _ r, stream r data ∧ r_root r = root ∧ r_height r = lvl ∧ r_offset r = 0%Z ∧
            keeps s (r_store r))
    (λ e r, get_fails e ∧ keeps s (r_store r)) (blank_reader s root).
Proof.
  intros Ht Hlvl. pose proof nlevels_three.
  destruct (tree_block _ _ _ _ _ _ Ht) as (body & Hhold & Hlb & Hsz & Hblk).
  unfold NewReader. wp_steps. unfold r_get. wp_step.
  eapply wp_mono; [by eapply Get_law| |done]. cbn beta. intros ? s' [-> Hk].
  wp_step. apply load_root_spec; [|lia|lia|].
  { split; simpl; rewrite ?length_replicate; try done.
    - apply Forall_replicate, length_replicate.
    - apply Forall2_replicate. lia. }
  intros r Hw Hr Hs Ho Hh Hleft. simpl in *. wp_step. rewrite <-Hs in Hk.
  split_and!; try done. clear Hr Ho.
  assert (left (r_set_store s' (blank_reader s root)) = replicate nlevels []) as Hbl.
  { unfold left; simpl. rewrite !zip_with_replicate. done. }
  rewrite Hbl in Hleft. split.
  - split; [done|lia|]. rewrite Hleft, Hh, list_lookup_insert_ne by lia.
    apply lookup_replicate. split; [done|lia].
  - destruct lvl as [|lvl].
    + exists body, []. rewrite above_root by lia. simpl in Hblk. rewrite app_nil_r.
      split_and!; [|constructor|done]. rewrite Hleft. apply list_lookup_insert_eq.
      rewrite length_replicate. lia.
    + exists [], data. destruct Hblk as [Hne Hf]. split_and!; [| |done].
      * rewrite Hleft, list_lookup_insert_ne by lia. apply lookup_replicate. split; [done|lia].
      * unfold above. rewrite Hh, Nat.sub_0_r, (above_replicate _ _ body) by (done || lia).
        apply rpend_empties. rewrite Nat.add_0_r, <-(app_nil_r data).
        econstructor; [eauto using forest_at_keeps|constructor].
Qed.

Lemma NewReader_spec s lvl root data :
  tree_at minsz s lvl root 0 data → lvl ≤ nlevels - 2 →
  wp NewReader
    (λ _ r, stream r data ∧ r_root r = root ∧ r_height r = lvl ∧ r_offset r = 0%Z ∧
            keeps s (r_store r))
    (λ e _, get_fails e) (blank_reader s root).
Proof. intros. eapply wp_mono; [by apply NewReader_keeps|done|]. by intros ? ? []. Qed.

(** ** [Seek] *)

(** While [Seek] descends: level [lvl] holds a block that starts at [off], no
    later than the target, and that covers the target unless the stream ends
    with the block. *)
Definition seeking (data : bytes) (target : nat) r lvl off d R : Prop :=
  steady r ∧ lvl ≤ r_height r ∧
  (∃ body, left r !! lvl = Some body ∧ block minsz (r_store r) lvl off body d) ∧
  rpend (r_store r) lvl (above r lvl) R ∧
  off ≤ target ∧ (target < off + length d ∨ R = []) ∧
  ∃ d0, length d0 = off ∧ data = d0 ++ d ++ R.

(** The child the inner loop descends into. *)
Lemma descend_spec data target r lvl p off h d es ds R Q E :
  steady r → lvl < r_height r → left r !! S lvl = Some es → p = Z.of_nat off →
  tree_at minsz (r_store r) lvl h off d →
  forest_at minsz (r_store r) lvl (off + length d) es ds →
  rpend (r_store r) (S lvl) (above r (S lvl)) R →
  off ≤ target → (target < off + length d ∨ ds ++ R = []) →
  (∃ d0, length d0 = off ∧ data = d0 ++ (d ++ ds) ++ R) →
  (∀ r', seeking data target r' lvl off d (ds ++ R) → same_root r r' → Q p r') →
  (∀ e r', get_fails e → E e r') →
  wp (buf ← r_get h; r_set_len lvl (length buf);; r_set_posn lvl 1;;
      row ← r_row lvl; r_set_row lvl (splice row 0 buf);; mret p) Q E r.
Proof.
  intros [Hw Hh Htop] Hlvl Hes -> Ht Hf Hp Hoff Hcov Hdata HQ HE.
  destruct (tree_block _ _ _ _ _ _ Ht) as (body & Hhold & Hlb & Hsz & Hblk).
  destruct (left_is_Some r lvl Hw) as [u0 Hu0]; [lia|].
  destruct (left_lookup _ _ _ Hw Hu0) as (p0 & n0 & row & (Hp0 & Hn0 & Hrow & _ & _ & Hlrow) & _).
  pose proof Hw as [Hl1 Hl2 Hl3 _ _].
  wp_step. unfold r_get. wp_step.
  eapply wp_mono; [by eapply Get_law| |by intros ? ? [? _]; apply HE]. cbn beta.
  intros ? s' [-> Hk]. wp_step. apply wp_r_set_len; [simpl; lia|].
  wp_step. apply wp_r_set_posn; [simpl; lia|]. wp_step. eapply wp_r_row; [done|].
  wp_step. apply wp_r_set_row; [simpl; lia|]. wp_steps.
  set (r' := mkReader _ _ _ _ _ _ _).
  assert (Hr' : r' = with_rlevel (r_set_store s' r) lvl (splice row 0 (nbyte lvl :: body)) 1
                       (S (length body))) by done.
  assert (Hleft : left r' = <[lvl:=body]> (left r))
    by (by rewrite Hr', left_with_rlevel, window_block by lia).
  apply HQ; [|by split_and!]. split; [split; [|done|]|split_and!]; try done.
  - rewrite Hr'. apply wfr_with_rlevel; [by destruct Hw|rewrite length_splice; lia|lia..].
  - rewrite Hleft. simpl. by rewrite list_lookup_insert_ne by lia.
  - simpl. lia.
  - exists body. split; [|eauto using block_keeps]. rewrite Hleft.
    apply list_lookup_insert_eq. rewrite length_left by done. lia.
  - rewrite (above_S r' lvl es).
    + econstructor; [eauto using forest_at_keeps|].
      unfold above. rewrite Hleft, drop_insert_lt by lia. eauto using rpend_keeps.
    + simpl. lia.
    + by rewrite Hleft, list_lookup_insert_ne by lia.
  - destruct Hdata as (d0 & ? & ->). exists d0. by rewrite !app_assoc.
Qed.

(** Step past the first entry of level [lvl]. *)
Lemma skip_entry_spec r lvl p n row e es Q E :
  steady r → lvl ≤ r_height r → at_level r lvl p n row →
  window (p, n) row = e ++ es → length e = 40 →
  (∀ r', steady r' → r_store r' = r_store r → same_root r r' →
     left r' = <[lvl:=es]> (left r) → at_level r' lvl (p + 40) n row → Q () r') →
  wp (r_set_posn lvl (p + 40)) Q E r.
Proof.
  intros [Hw Hh Htop] Hlvl (Hp & Hn & Hrow & Hpn & Hnm & Hlr) Hwin He HQ.
  pose proof nlevels_three. pose proof (length_window p n row) as Hlw.
  rewrite Hwin, length_app, He in Hlw.
  apply wp_r_set_posn; [rewrite (wfr_pos _ Hw); lia|]. set (r' := mkReader _ _ _ _ _ _ _).
  assert (Hr' : r' = with_rlevel r lvl row (p + 40) n).
  { unfold r', with_rlevel. by rewrite (list_insert_id (r_lvls r) lvl row Hrow),
      (list_insert_id (r_length r) lvl n Hn). }
  assert (Hleft : left r' = <[lvl:=es]> (left r)).
  { rewrite Hr', left_with_rlevel. f_equal. rewrite <-He. apply window_app; [done|lia]. }
  apply HQ; [|done|by split_and!|done|].
  - split; [|done|].
    + rewrite Hr'. apply wfr_with_rlevel; [done|lia..].
    + rewrite Hleft. simpl. by rewrite list_lookup_insert_ne by lia.
  - unfold at_level, r'; simpl. rewrite list_lookup_insert_eq by (rewrite (wfr_pos _ Hw); lia).
    split_and!; try done. lia.
Qed.

Lemma seek_level_spec data target fuel r lvl off d R :
  seeking data target r (S lvl) off d R →
  (∀ es, left r !! S lvl = Some es → length es ≤ fuel) →
  (Z.of_nat target < 2 ^ 63)%Z → (Z.of_nat (length data) < 2 ^ 63)%Z →
  wp (seek_level fuel (S lvl) (Z.of_nat target))
    (λ p r', ∃ off' d' R', p = Z.of_nat off' ∧ seeking data target r' lvl off' d' R' ∧
             same_root r r')
    (λ e _, get_fails e) r.
Proof.
  intros Hseek Hfuel Htg Hdl. revert r off d Hseek Hfuel.
  induction fuel as [|fuel IH];
    intros r off d (Hst & Hlvl & (es & Hes & [Hne Hf]) & Hp & Hoff & Hcov & d0 & Hd0 & Hdata)
      Hfuel; specialize (Hfuel es Hes).
  { destruct es; [done|simpl in *; lia]. }
  destruct (left_lookup _ _ _ (st_wfr _ Hst) Hes) as (p & n & row & Hat & Hwin).
  pose proof Hat as (Hpos & Hn & Hrow & Hpn & Hnm & Hlr).
  destruct (forest_uncons _ _ _ _ _ Hf Hne) as (h & d1 & es2 & ds & -> & -> & Ht & Hf2).
  pose proof (tree_at_hash _ _ _ _ _ _ Ht) as Hlh.
  assert (Hent : length (entry off h) = 40) by (by apply length_entry).
  assert (Hbig : length data = off + (length d1 + length ds) + length R)
    by (rewrite Hdata, !length_app; lia).
  pose proof (length_window p n row) as Hlw. rewrite <-Hwin, length_app, Hent in Hlw.
  simpl. wp_step. eapply wp_r_row; [done|]. wp_step. eapply wp_r_posn; [done|]. wp_step.
  eapply wp_lift_ok; [eapply (entry_offset p n row off); [done|lia|lia|]|].
  { rewrite <-Hwin. unfold entry. by rewrite <-app_assoc. }
  wp_step. eapply wp_lift_ok; [apply slice_ok; lia|].
  wp_step. eapply skip_entry_spec; [done|done|done|by rewrite <-Hwin|done|].
  intros r1 Hst1 Hs1 Hsr1 Hleft1 Hat1. pose proof Hat1 as (_ & Hn1 & _).
  pose proof Hsr1 as (_ & Hh1 & _).
  assert (Hes2 : left r1 !! S lvl = Some es2).
  { rewrite Hleft1. apply list_lookup_insert_eq. rewrite length_left by apply Hst.
    pose proof (st_height _ Hst). pose proof nlevels_three. lia. }
  assert (Hab1 : above r1 (S lvl) = above r (S lvl))
    by (unfold above; rewrite Hleft1, Hh1, drop_insert_lt by lia; done).
  rewrite <-Hs1 in Ht, Hf2, Hp. rewrite <-Hab1 in Hp.
  wp_step. eapply wp_r_len; [done|]. wp_step.
  assert (copy32 (take (length row - (p + 8)) (drop (p + 8) row)) = h) as ->
    by (eapply entry_hash; [..|by rewrite <-Hwin]; done || lia).
  assert (Hdesc : target < off + length d1 ∨ ds ++ R = [] →
    wp (buf ← r_get h; r_set_len lvl (length buf);; r_set_posn lvl 1;;
        row ← r_row lvl; r_set_row lvl (splice row 0 buf);; mret (Z.of_nat off))
      (λ p r', ∃ off' d' R', p = Z.of_nat off' ∧ seeking data target r' lvl off' d' R' ∧
               same_root r r') (λ e _, get_fails e) r1).
  { intros Hc. eapply descend_spec; eauto; [lia|].
    intros r' Hsk Hsr. eauto 10 using same_root_trans. }
  case_bool_decide as Hmore.
  - assert (Hne2 : es2 ≠ []) by (intros ->; simpl in *; lia).
    destruct (forest_head _ _ _ _ _ _ Hf2 Hne2) as [Hkey Hl40].
    eapply wp_lift_ok; [eapply (entry_offset _ n _ (off + length d1) (drop 8 es2)); [lia|lia|lia|]|].
    { replace es2 with (take 8 es2 ++ drop 8 es2) in Hwin by apply take_drop.
      rewrite Hkey in Hwin. rewrite <-Hent. apply window_app; [done|lia]. }
    case_bool_decide as Hlt; [apply Hdesc; left; lia|].
    eapply wp_mono; [eapply (IH r1 (off + length d1) ds)| |done].
    + split_and!; try done; [lia|exists es2; by split_and!|lia| |].
      * destruct Hcov as [Hcov| ->]; [left; rewrite length_app in Hcov; lia|by right].
      * exists (d0 ++ d1). rewrite length_app. split; [lia|]. by rewrite Hdata, <-!app_assoc.
    + intros es' Hes'. rewrite Hes2 in Hes'. injection Hes' as <-.
      rewrite length_app in Hfuel. lia.
    + cbn beta. intros q r' (off' & d' & R' & -> & Hsk & Hsr). eauto 10 using same_root_trans.
  - assert (es2 = []) as -> by (apply nil_length_inv; lia).
    apply forest_nil_inv in Hf2 as ->. wp_step.
    rewrite bool_decide_eq_true_2 by (rewrite wrap_small; lia). apply Hdesc. simpl.
    rewrite app_nil_r in Hcov. done.
Qed.

Lemma seek_down_spec data target lvl r off d R :
  seeking data target r lvl off d R →
  (Z.of_nat target < 2 ^ 63)%Z → (Z.of_nat (length data) < 2 ^ 63)%Z →
  wp (seek_down lvl (Z.of_nat target) (Z.of_nat off))
    (λ p r', ∃ off' d' R', p = Z.of_nat off' ∧ seeking data target r' 0 off' d' R' ∧
             same_root r r')
    (λ e _, get_fails e) r.
Proof.
  intros Hseek Htg Hdl. revert r off d R Hseek.
  induction lvl as [|lvl IH]; intros r off d R Hseek; simpl.
  { wp_step. exists off, d, R. split; [done|split; [done|by split_and!]]. }
  wp_step. eapply wp_mono; [eapply seek_level_spec; [done| |done..]| |done].
  - intros es Hes. destruct Hseek as ([Hw _ _] & _).
    destruct (left_lookup _ _ _ Hw Hes) as (p & n & row & (_ & _ & _ & ? & ? & ?) & ->).
    rewrite length_window; lia.
  - cbn beta. intros p r' (off' & d' & R' & -> & Hsk & Hsr).
    eapply wp_mono; [by eapply IH| |done]. cbn beta.
    intros q r'' (off2 & d2 & R2 & -> & Hsk2 & Hsr2). eauto 10 using same_root_trans.
Qed.

Definition opens r (data : bytes) : Prop :=
  steady r ∧ tree_at minsz (r_store r) (r_height r) (r_root r) 0 data.

(** A [Seek] that moves: the rest of the stream is what follows the target,
    and the reader's own record of its offset is not touched. *)
Lemma Seek_moves r data target :
  opens r data → r_offset r ≠ Z.of_nat target →
  (Z.of_nat target < 2 ^ 63)%Z → (Z.of_nat (length data) < 2 ^ 63)%Z →
  wp (Seek (Z.of_nat target))
    (λ o r', o = Z.of_nat (Nat.min target (length data)) ∧ stream r' (drop target data) ∧
             same_root r r')
    (λ e _, get_fails e) r.
Proof.
  intros [[Hw Hh Htop] Ht] Hoff Htg Hdl. pose proof nlevels_three.
  destruct (tree_block _ _ _ _ _ _ Ht) as (body & Hhold & Hlb & Hsz & Hblk).
  unfold Seek. wp_steps. rewrite bool_decide_eq_false_2 by done. wp_step. unfold r_get. wp_step.
  eapply wp_mono; [by eapply Get_law| |by intros ? ? []]. cbn beta. intros ? s' [-> Hk].
  wp_step. apply load_root_spec; [by destruct Hw|lia|lia|].
  intros r1 Hw1 Hr1 Hs1 Ho1 Hh1 Hleft. simpl in *. wp_step.
  assert (Hsr1 : same_root r r1) by (unfold same_root; rewrite Hs1; by split_and!).
  assert (Hseek : seeking data target r1 (r_height r) 0 data []).
  { split; [split; [done|lia|]|split_and!]; try done; [|lia| | |lia|by right|].
    - rewrite Hleft, Hh1, list_lookup_insert_ne by lia. done.
    - exists body. rewrite Hleft, Hs1. split; [|by eapply block_keeps].
      apply list_lookup_insert_eq. rewrite length_left by (by destruct Hw). lia.
    - rewrite above_root by lia. constructor.
    - exists []. by rewrite app_nil_r. }
  eapply wp_mono; [apply (seek_down_spec data target (r_height r) r1 0 data []); done| |done].
  cbn beta. intros q r2 (off & d & R & -> & Hsk & Hsr2).
  destruct Hsk as (Hst2 & _ & (b2 & Hb2 & Hblk2) & Hp2 & Ho & Hcov & d0 & Hd0 & ->).
  simpl in Hblk2. subst b2. rewrite !length_app in *.
  destruct (left_lookup _ _ _ (st_wfr _ Hst2) Hb2) as (p & n & row & (Hp & Hn & _ & ? & ? & ?) & Hwin).
  pose proof (length_window p n row) as Hlw. rewrite <-Hwin in Hlw.
  wp_step. eapply wp_r_posn; [done|]. wp_step. eapply wp_r_len; [done|].
  assert (i64 (Z.of_nat target - Z.of_nat off) = Z.of_nat (target - off)) as ->.
  { rewrite <-(i64_u64 (Z.of_nat (target - off))) by lia. unfold i64.
    rewrite wrap_wrap. by replace (Z.of_nat target - Z.of_nat off)%Z
      with (Z.of_nat (target - off)) by lia. }
  assert (Hsr : same_root r r2) by (by eapply same_root_trans).
  case_bool_decide as Hpast; [|rewrite bool_decide_eq_false_2 by lia]; wp_step.
  - destruct Hcov as [?| ->]; [lia|]. replace n with (p + length d) by lia.
    eapply stream_at; [done|done|done|lia| |done]. intros r3 Hs3 Hsr3. wp_step. split_and!.
    + rewrite wrap_small; simpl; lia.
    + rewrite drop_ge in Hs3 by done. by rewrite drop_ge by (rewrite !length_app; simpl; lia).
    + by eapply same_root_trans.
  - replace (Z.to_nat (Z.of_nat p + Z.of_nat (target - off))) with (p + (target - off)) by lia.
    eapply stream_at; [done|done|done|lia| |done]. intros r3 Hs3 Hsr3. wp_step. split_and!.
    + lia.
    + rewrite drop_app_ge, Hd0 by lia. by rewrite drop_app_le by lia.
    + by eapply same_root_trans.
Qed.
End Next.
