(* ===== verification/HtreeProps.v ===== *)
(** The theorems of the htree package: what a caller of [NewWriter], [Write],
    [Close], [NewReader], [Read] and [Seek] can rely on, over any lawful store. *)

From Stdlib Require Import ZArith Lia.
From stdpp Require Import base list.
From coqutil Require Import Byte.
From S2P Require Import Prelude Store Htree HtreeSpec HtreeWrite HtreeRead.

Set Default Goal Selector "!".

(** ** Sessions

    A writer or a reader as its caller uses it, from creation to the end. *)
Section Sessions.
Context {P : Params} {St : Type} `{CStore St}.

(** Run [c] on a new writer over the store; the store keeps what it wrote. *)
Definition with_writer {A} (c : M (Writer St) A) : M St A := λ s,
  let '(o, w) := c (NewWriter s) in (o, w_store w).

Fixpoint Writes (chunks : list bytes) : M (Writer St) unit :=
  match chunks with
  | [] => mret ()
  | c :: cs => Write c;; Writes cs
  end.

(** Write the chunks, close, and return the tree. *)
Definition save (chunks : list bytes) : M St HTree :=
  with_writer (Writes chunks;; CloseWriter).

(** Run [c] on a new reader of the tree [root] names. *)
Definition with_reader {A} (root : hash) (c : M (Reader St) A) : M St A := λ s,
  let '(o, r) := (NewReader;; c) (blank_reader s root) in (o, r_store r).

(** [ReadAll] of a stream of at most [n] bytes. *)
Definition ReadAll (sz : nat → nat) (n : nat) : M (Reader St) bytes :=
  ReadAll_from sz (S n) 0.
End Sessions.

Section Lemmas.
Context {P : Params} {Pok : ParamsOk} {St : Type} `{CStoreLaws St}.
Implicit Types (s : St).

Lemma wp_with_writer {A} (c : M (Writer St) A) Q E s :
  wp c (λ a w, Q a (w_store w)) (λ e w, E e (w_store w)) (NewWriter s) →
  wp (with_writer c) Q E s.
Proof. unfold wp, with_writer. by destruct (c (NewWriter s)) as [[] ?]. Qed.

Lemma wp_with_reader {A} root (c : M (Reader St) A) Q E s :
  wp (NewReader;; c) (λ a r, Q a (r_store r)) (λ e r, E e (r_store r)) (blank_reader s root) →
  wp (with_reader root c) Q E s.
Proof.
  unfold wp, with_reader. by destruct ((NewReader;; c) (blank_reader s root)) as [[] ?].
Qed.

Lemma Write_nil (w : Writer St) : Write [] w = (Ok 0, w).
Proof. done. Qed.

Lemma Writes_spec chunks (w : Writer St) d :
  wrote w d → (d = [] ∨ tailed w) → length (d ++ concat chunks) < max_stream →
  wp (Writes chunks)
    (λ _ w', wrote w' (d ++ concat chunks) ∧ keeps (w_store w) (w_store w') ∧
             (d ++ concat chunks = [] ∨ tailed w') ∧ (concat chunks = [] → w' = w))
    (λ e _, put_fails e) w.
Proof.
  revert w d. induction chunks as [|c cs IH]; intros w d Hw Ht Hlt; simpl in *.
  { wp_step. rewrite app_nil_r. by split_and!. }
  rewrite app_assoc in *. wp_step. destruct c as [|b c].
  { unfold wp at 1. rewrite Write_nil, app_nil_r in *. simpl. by apply IH. }
  eapply wp_mono; [apply (Write_spec _ _ d Hw)| |done].
  { rewrite length_app in Hlt. lia. }
  cbn beta. intros n w' (_ & Hw' & Hk & Htl).
  eapply wp_mono; [apply (IH w' _ Hw')| |done]; [right; auto|done|].
  cbn beta. intros [] w'' (? & ? & ? & _). split_and!; try done.
  by transitivity (w_store w').
Qed.

Lemma save_spec chunks s :
  length (concat chunks) < max_stream →
  wp (save chunks)
    (λ t s', tree_at (some_size (concat chunks)) s' (Depth t) (Data t) 0 (concat chunks) ∧
             Depth t ≤ nlevels - 2 ∧ (concat chunks = [] → Depth t = 0) ∧ keeps s s')
    (λ e _, put_fails e) s.
Proof.
  intros Hlt. apply wp_with_writer. wp_step.
  eapply wp_mono; [apply (Writes_spec chunks _ [] (NewWriter_wrote s)); [by left|done]| |done].
  cbn beta. simpl. intros [] w (Hw & Hk & Ht & Hnil).
  pose proof (Close_spec w _ Hw Ht) as Hc. unfold wp in *.
  destruct (CloseWriter w) as [[t|e| |] w'] eqn:Hrun; try done.
  destruct Hc as (? & ? & ?). split_and!; try done; [|by transitivity (w_store w)].
  intros He. rewrite (Hnil He) in Hrun. pose proof (Close_empty s) as Hce.
  unfold wp in Hce. by rewrite Hrun in Hce.
Qed.

Lemma progress_saved data (r : Reader St) :
  (data = [] → r_height r = 0) → progress (some_size data) r.
Proof.
  intros Hh. unfold progress, some_size. destruct data; [right; auto|left; simpl; lia].
Qed.

(** Reading never changes the height: only [load_root] sets it. *)
Definition keeps_height {A} (c : M (Reader St) A) : Prop := ∀ r, r_height (c r).2 = r_height r.

Lemma kh_bind {A B} (c : M (Reader St) A) (k : A → M (Reader St) B) :
  keeps_height c → (∀ a, keeps_height (k a)) → keeps_height (c ≫= k).
Proof.
  intros Hc Hk r. unfold mbind, M_bind. specialize (Hc r).
  destruct (c r) as [[a|e| |] r']; simpl in *; try done. by rewrite Hk.
Qed.
Lemma kh_pure {A} (f : Reader St → outcome A) : keeps_height (λ r, (f r, r)).
Proof. done. Qed.
Lemma kh_try {A} (c : M (Reader St) A) : keeps_height c → keeps_height (try c).
Proof. intros Hc r. unfold try. specialize (Hc r). by destruct (c r) as [[] ?]. Qed.
Lemma kh_zoom_store {A} (c : M St A) : keeps_height (zoom r_store r_set_store c).
Proof. intros r. unfold zoom. by destruct (c (r_store r)). Qed.

Ltac kh :=
  repeat lazymatch goal with
  | |- keeps_height (_ ≫= _) => apply kh_bind; [|intros ?]
  | |- keeps_height (zoom _ _ _) => apply kh_zoom_store
  | |- keeps_height (try _) => apply kh_try
  | |- keeps_height (if bool_decide _ then _ else _) => case_bool_decide
  | |- keeps_height (if ?b then _ else _) => destruct b
  | |- keeps_height (match ?x with inl _ => _ | inr _ => _ end) => destruct x
  | |- keeps_height (next_from _ _) => fail
  | |- keeps_height (Read _) => fail
  | |- keeps_height (ReadAll_from _ _ _) => fail
  | |- keeps_height _ =>
    first [apply kh_pure | intros ?; reflexivity
          | progress unfold leaf_window, r_row, r_posn, r_len, r_set_posn, r_set_len, r_set_row, r_get,
              next, load_child]
  end.

Lemma next_height fuel lvl : keeps_height (next_from (St := St) fuel lvl).
Proof.
  revert lvl. induction fuel as [|fuel IH]; intros lvl; [apply kh_pure|]. cbn [next_from].
  kh. apply IH.
Qed.
Lemma Read_height n : keeps_height (Read (St := St) n).
Proof. unfold Read. kh. apply next_height. Qed.
Lemma ReadAll_height sz fuel i : keeps_height (ReadAll_from (St := St) sz fuel i).
Proof.
  revert i. induction fuel as [|fuel IH]; intros i; [apply kh_pure|]. cbn [ReadAll_from].
  kh; [apply Read_height|apply IH].
Qed.

(** The whole content of a stored tree, and its height. *)
Lemma read_tree_spec sz fuel s lvl root data :
  tree_at (some_size data) s lvl root 0 data → lvl ≤ nlevels - 2 → (data = [] → lvl = 0) →
  length data < fuel → (∀ i, 1 ≤ sz i) → ¬ get_fails EOF →
  wp (with_reader root (d ← ReadAll_from sz fuel 0; n ← GetHeight; mret (d, n)))
    (λ r s', r = (data, lvl) ∧ keeps s s') (λ e s', get_fails e ∧ keeps s s') s.
Proof.
  intros Ht Hlvl Hnil Hf Hsz Heof. apply wp_with_reader. wp_step.
  eapply wp_mono; [by eapply NewReader_keeps| |done]. cbn beta.
  intros [] r (Hs & Hr & Hh & Ho & Hk). wp_step.
  pose proof (ReadAll_height sz fuel 0 r) as Hh'.
  pose proof (ReadAll_keeps _ r data sz fuel 0 Hs (progress_saved _ _ ltac:(by rewrite Hh)) Hsz Hf Heof) as Hra.
  unfold wp in *. destruct (ReadAll_from sz fuel 0 r) as [[out|e| |] r']; try done; destruct Hra as [? Hk']; simpl in *.
  - subst. split; [congruence|by transitivity (r_store r)].
  - split; [done|by transitivity (r_store r)].
Qed.

(** A reader opened on a saved tree: the facts its operations need. *)
Definition opened (data : bytes) (t : HTree) (r : Reader St) : Prop :=
  stream (some_size data) r data ∧ opens (some_size data) r data ∧
  progress (some_size data) r ∧ r_height r = Depth t ∧ r_offset r = 0%Z.

Lemma save_open_spec chunks s {A} (c : HTree → M (Reader St) A) Q E :
  length (concat chunks) < max_stream →
  (∀ e s', put_fails e ∨ get_fails e → E e s') →
  (∀ t r, opened (concat chunks) t r → keeps s (r_store r) →
     wp (c t) (λ a r', Q a (r_store r')) (λ e r', E e (r_store r')) r) →
  wp (t ← save chunks; with_reader (Data t) (c t)) Q E s.
Proof.
  intros Hlt HE Hc. wp_step.
  eapply wp_mono; [by apply save_spec| |by auto]. cbn beta.
  intros t s' (Ht & Hd & Hnil & Hk). apply wp_with_reader. wp_step.
  eapply wp_mono; [by eapply NewReader_spec| |by auto]. cbn beta.
  intros [] r (Hs & Hr & Hh & Ho & Hk'). apply Hc; [|by transitivity s'].
  split_and!; try done.
  - split; [apply Hs|]. rewrite Hh, Hr. by eapply tree_at_keeps.
  - apply progress_saved. rewrite Hh. done.
Qed.
End Lemmas.

(** ** Theorems *)
Section Theorems.
Context {P : Params} {Pok : ParamsOk} {St : Type} `{CStoreLaws St}.
Implicit Types (s : St).

(** C1: a stream written through an htree [Writer], however it was cut into
    [Write] calls, is read back byte for byte by a [Reader] of the returned
    root, whatever buffer sizes the reads use.  Neither side panics or loops;
    the only errors are the store's. *)
Theorem htree_roundtrip chunks sz s :
  length (concat chunks) < max_stream → (∀ i, 1 ≤ sz i) → ¬ get_fails EOF →
  wp (t ← save chunks; with_reader (Data t) (ReadAll sz (length (concat chunks))))
    (λ out s', out = concat chunks ∧ keeps s s')
    (λ e _, put_fails e ∨ get_fails e) s.
Proof.
  intros Hlt Hsz Heof. apply save_open_spec; [done..|].
  intros t r (Hs & _ & Hp & _) Hk. unfold ReadAll.
  eapply wp_mono; [eapply ReadAll_spec; (done || lia)| |by auto].
  cbn beta. intros out r' [-> Hk']. split; [done|by transitivity (r_store r)].
Qed.

(** [Seek] on a freshly opened reader positions it exactly: the reads that
    follow deliver the stream from the target on (nothing past its end), and
    the offset it returns is the target clamped to the stream's length. *)
Theorem htree_seek chunks target sz s :
  length (concat chunks) < max_stream → (∀ i, 1 ≤ sz i) → ¬ get_fails EOF →
  (Z.of_nat target < 2 ^ 63)%Z → (Z.of_nat (length (concat chunks)) < 2 ^ 63)%Z →
  wp (t ← save chunks;
      with_reader (Data t)
        (o ← Seek (Z.of_nat target); d ← ReadAll sz (length (concat chunks)); mret (o, d)))
    (λ '(o, d) s', d = drop target (concat chunks) ∧
                   o = Z.of_nat (Nat.min target (length (concat chunks))))
    (λ e _, put_fails e ∨ get_fails e) s.
Proof.
  intros Hlt Hsz Heof Ht Hl. apply save_open_spec; [done..|].
  intros t r (Hs & Hop & Hp & _ & Ho) Hk. wp_step.
  apply (wp_mono _ (λ o r', o = Z.of_nat (Nat.min target (length (concat chunks))) ∧
     stream (some_size (concat chunks)) r' (drop target (concat chunks)) ∧
     r_height r' = r_height r) _ (λ e _, get_fails e)); [| |by auto].
  - destruct (decide (target = 0)) as [->|Hne].
    + unfold Seek. wp_steps. rewrite bool_decide_eq_true_2 by done. wp_step. by rewrite Ho.
    + eapply wp_mono; [eapply (Seek_moves _ _ (concat chunks)); (done || lia)| |done].
      cbn beta. intros o r' (-> & ? & (_ & ? & _)). done.
  - intros o r' (-> & Hs' & Hh). wp_step. unfold ReadAll.
    eapply wp_mono; [eapply ReadAll_spec; try done| |by auto].
    + unfold progress. by rewrite Hh.
    + rewrite length_drop. lia.
    + cbn beta. intros d r'' [-> _]. by wp_step.
Qed.

(** [Seek] does not record where it went, so a seek back to the start of
    a freshly opened reader is ignored: it returns 0 and the reads that follow
    still deliver the bytes from the previous target on. *)
Theorem htree_seek_back_ignored chunks target sz s :
  length (concat chunks) < max_stream → (∀ i, 1 ≤ sz i) → ¬ get_fails EOF →
  0 < target → (Z.of_nat target < 2 ^ 63)%Z → (Z.of_nat (length (concat chunks)) < 2 ^ 63)%Z →
  wp (t ← save chunks;
      with_reader (Data t)
        (_ ← Seek (Z.of_nat target); o ← Seek 0;
         d ← ReadAll sz (length (concat chunks)); mret (o, d)))
    (λ '(o, d) s', o = 0%Z ∧ d = drop target (concat chunks))
    (λ e _, put_fails e ∨ get_fails e) s.
Proof.
  intros Hlt Hsz Heof Hpos Ht Hl. apply save_open_spec; [done..|].
  intros t r (Hs & Hop & Hp & _ & Ho) Hk. wp_step.
  eapply wp_mono; [eapply (Seek_moves _ _ (concat chunks)); (done || lia)| |by auto].
  cbn beta. intros o r' (-> & Hs' & (_ & Hh & Ho' & _)). wp_step.
  unfold Seek. wp_steps. rewrite bool_decide_eq_true_2 by (by rewrite Ho', Ho). wp_steps.
  unfold ReadAll. eapply wp_mono; [eapply ReadAll_spec; try done| |by auto].
  - unfold progress. by rewrite Hh.
  - rewrite length_drop. lia.
  - cbn beta. intros d r'' [-> _]. wp_step. by rewrite Ho', Ho.
Qed.

(** what [Close] stores is a well-formed tree of the whole stream, at most
    [nlevels - 2] deep, and a reader of it reports that depth as its height. *)
Theorem htree_height chunks s :
  length (concat chunks) < max_stream →
  wp (t ← save chunks; h ← with_reader (Data t) GetHeight; mret (t, h))
    (λ '(t, h) s', h = Depth t ∧ h ≤ nlevels - 2 ∧
       tree_at (some_size (concat chunks)) s' (Depth t) (Data t) 0 (concat chunks))
    (λ e _, put_fails e ∨ get_fails e) s.
Proof.
  intros Hlt. wp_step. eapply wp_mono; [by apply save_spec| |by auto].
  cbn beta. intros t s' (Ht & Hd & Hnil & Hk). wp_step. apply wp_with_reader. wp_step.
  eapply wp_mono; [by eapply NewReader_spec| |by auto]. cbn beta.
  intros [] r (Hs & Hr & Hh & Ho & Hk'). unfold GetHeight. wp_steps. rewrite Hh.
  split_and!; try done. by eapply tree_at_keeps.
Qed.
End Theorems.

(** with the source's ten levels of 65535 bytes the capacity bound is beyond
    any length a 64-bit offset can count, so no stream a program can write
    reaches it. *)
Theorem htree_capacity : (2 ^ 64 < Z.of_nat (max_stream (P := source_params)))%Z.
Proof.
  unfold max_stream, full_size, fanout, nlevels, maxlen, source_params.
  rewrite Nat2Z.inj_mul, Nat2Z.inj_pow, Nat2Z.inj_div, !Nat2Z.inj_sub by lia.
  rewrite !N_nat_Z. by vm_compute.
Qed.

(** ** A concrete instance

    Four levels of 81 bytes, so that two leaves already need a node, over the
    collision-reporting in-memory store with a small stand-in for SHA-256. *)
Module Demo.
Definition params : Params := {| nlevels := 4; maxlen := 81 |}.
#[local] Existing Instance params.

Lemma params_ok : ParamsOk (P := params).
Proof. split; simpl; lia. Qed.

Definition toy_hash (d : bytes) : hash :=
  put_le 32 (fold_left (λ a b, a * 257 + byte.unsigned b + 1)%Z d 0%Z).
Lemma toy_hash_len d : length (toy_hash d) = hash_len.
Proof. apply length_put_le. Qed.

Definition store : CStore MemStore.MemStore := Checked.checked_cstore toy_hash.
Definition laws : @CStoreLaws _ store := Checked.checked_laws toy_hash toy_hash_len.
#[local] Existing Instances params_ok store laws.

(** 90 bytes in three uneven writes. *)
Definition chunks : list bytes :=
  [nbyte <$> seq 0 50; nbyte <$> seq 50 7; []; nbyte <$> seq 57 33].

Lemma chunks_small : length (concat chunks) < max_stream.
Proof.
  apply (Nat.lt_le_trans _ (full_size 1)); [|by apply full_size_mono; simpl; lia].
  unfold full_size, fanout. simpl. lia.
Qed.

Definition run {A} (c : M MemStore.MemStore A) : outcome A := fst (c MemStore.NewMemStore).

(** The program runs: the 90 bytes come back, five at a time. *)
Example roundtrip_runs :
  run (t ← save chunks; with_reader (Data t) (ReadAll (λ _, 5) 90)) = Ok (nbyte <$> seq 0 90).
Proof. by vm_compute. Qed.

Lemma htree_roundtrip_witness :
  length (concat chunks) < max_stream ∧
  wp (t ← save chunks; with_reader (Data t) (ReadAll (λ _, 5) 90))
    (λ out s', out = concat chunks ∧ keeps MemStore.NewMemStore s')
    (λ e _, put_fails e ∨ get_fails e) MemStore.NewMemStore.
Proof.
  split; [exact chunks_small|].
  apply (htree_roundtrip chunks (λ _, 5)); [exact chunks_small|intros; lia|tauto].
Defined.

Lemma htree_seek_witness :
  wp (t ← save chunks;
      with_reader (Data t) (o ← Seek 83; d ← ReadAll (λ _, 5) 90; mret (o, d)))
    (λ '(o, d) s', d = drop 83 (concat chunks) ∧ o = 83%Z)
    (λ e _, put_fails e ∨ get_fails e) MemStore.NewMemStore.
Proof.
  apply (htree_seek chunks 83 (λ _, 5)); [exact chunks_small|intros; lia|tauto| |]; simpl; lia.
Defined.

Lemma htree_seek_back_ignored_witness :
  wp (t ← save chunks;
      with_reader (Data t)
        (_ ← Seek 83; o ← Seek 0; d ← ReadAll (λ _, 5) 90; mret (o, d)))
    (λ '(o, d) s', o = 0%Z ∧ d = drop 83 (concat chunks))
    (λ e _, put_fails e ∨ get_fails e) MemStore.NewMemStore.
Proof.
  apply (htree_seek_back_ignored chunks 83 (λ _, 5));
    [exact chunks_small|intros; lia|tauto|lia| |]; simpl; lia.
Defined.

Lemma htree_height_witness :
  wp (t ← save chunks; h ← with_reader (Data t) GetHeight; mret (t, h))
    (λ '(t, h) s', h = Depth t ∧ h ≤ nlevels - 2 ∧
       tree_at (some_size (concat chunks)) s' (Depth t) (Data t) 0 (concat chunks))
    (λ e _, put_fails e ∨ get_fails e) MemStore.NewMemStore.
Proof. apply (htree_height chunks). exact chunks_small. Defined.
End Demo.
