(* ===== verification/Io.v ===== *)
(** Go's [io] interfaces as the packages use them.

    [IoWriter], [IoReader] and [ReadSeekCloser] are the interfaces; the [Laws]
    classes say what the packages rely on.  [ReadFull] and the buffered reader of
    [bufio] are written over the interface, [MemFile] and [MemSink] are the
    in-memory instances ([bytes.Reader], [bytes.Buffer]). *)

From Stdlib Require Import ZArith Lia.
From stdpp Require Import base list strings.
From S2P Require Import Prelude.

Set Default Goal Selector "!".

(** A [Write] that reports no error has written the whole buffer. *)
Class IoWriter (S : Type) := {
  io_write : bytes → M S unit;
  io_wclose : M S unit;
}.

(** [written s d]: [d] has gone into the open writer; [finished s d]: it was
    closed after [d]. *)
Class IoWriterLaws (S : Type) `{IoWriter S} := {
  written : S → bytes → Prop;
  finished : S → bytes → Prop;
  write_fails : error → Prop;
  io_write_law s d b :
    written s d → wp (io_write b) (λ _ s', written s' (d ++ b)) (λ e _, write_fails e) s;
  io_wclose_law s d :
    written s d → wp io_wclose (λ _ s', finished s' d) (λ e _, write_fails e) s;
}.

(** [io_read n] reads into a buffer of [n] bytes and returns what it put there;
    it reports an error only when it put nothing. *)
Class IoReader (S : Type) := { io_read : nat → M S bytes }.

(** [at_pos s c p]: the reader delivers [c] from position [p] on. *)
Class IoReaderLaws (S : Type) `{IoReader S} := {
  at_pos : S → bytes → nat → Prop;
  read_fails : error → Prop;
  io_read_law s c p n :
    at_pos s c p → 1 ≤ n →
    wp (io_read n)
      (λ b s', b ≠ [] ∧ length b ≤ n ∧ at_pos s' c (p + length b) ∧
               b = take (length b) (drop p c) ∧ p + length b ≤ length c)
      (λ e s', e = EOF ∧ length c ≤ p ∨ read_fails e) s;
}.

(** [Seek] with whence [io.SeekStart]. *)
Class ReadSeekCloser (S : Type) := {
  #[global] rsc_reader :: IoReader S;
  io_seek : Z → M S Z;
  io_rclose : M S unit;
}.

Class ReadSeekCloserLaws (S : Type) `{ReadSeekCloser S} := {
  #[global] rsc_reader_laws :: IoReaderLaws S;
  seek_fails : error → Prop;
  io_seek_law s c p off :
    at_pos s c p → off ≤ length c →
    wp (io_seek (Z.of_nat off)) (λ o s', o = Z.of_nat off ∧ at_pos s' c off)
      (λ e _, seek_fails e) s;
}.

(** ** [io.ReadFull] *)
Section ReadFull.
Context {S : Type} `{IoReader S}.

(** A reader that keeps returning nothing loops forever; one that makes
    progress is called at most [n] times. *)
Fixpoint ReadFull_from (fuel n : nat) (acc : bytes) : M S bytes :=
  match n with
  | O => mret acc
  | _ =>
    match fuel with
    | O => diverge
    | Datatypes.S fuel =>
      o ← try (io_read n);
      match o with
      | inl b => ReadFull_from fuel (n - length b) (acc ++ b)
      | inr e =>
        if bool_decide (e = EOF) && bool_decide (acc ≠ []) then throw UnexpectedEOF
        else throw e
      end
    end
  end.

Definition ReadFull (n : nat) : M S bytes := ReadFull_from n n [].
End ReadFull.

Section ReadFullSpec.
Context {S : Type} `{IoReaderLaws S}.

Definition short_read (e : error) (c : bytes) (p n : nat) : Prop :=
  (e = EOF ∨ e = UnexpectedEOF) ∧ length c < p + n ∧ 0 < n ∨
  read_fails e ∨ e = UnexpectedEOF ∧ read_fails EOF.

Lemma ReadFull_from_spec fuel n acc s c p :
  at_pos s c p → n ≤ fuel →
  wp (ReadFull_from fuel n acc)
    (λ b s', b = acc ++ take n (drop p c) ∧ length b = length acc + n ∧
             at_pos s' c (p + n) ∧ (n = 0 ∨ p + n ≤ length c))
    (λ e _, short_read e c p n) s.
Proof.
  intros Hat Hn. revert n acc s p Hat Hn.
  induction fuel as [|fuel IH]; intros n acc s p Hat Hn.
  { assert (n = 0) as -> by lia. simpl. wp_step. rewrite take_0, app_nil_r, !Nat.add_0_r. auto. }
  destruct n as [|n].
  { simpl. wp_step. rewrite take_0, app_nil_r, !Nat.add_0_r. auto. }
  cbn [ReadFull_from]. wp_step. wp_step.
  eapply wp_mono; [apply io_read_law; [done|lia]|..]; cbn beta.
  - intros b s' (Hne & Hlb & Hat' & Hb & Hle).
    assert (1 ≤ length b) by (destruct b; [done|simpl; lia]).
    eapply wp_mono; [apply IH; [done|lia]|..]; cbn beta.
    + intros b' s'' (-> & Hlen & Hat'' & Hle').
      replace (p + length b + (Datatypes.S n - length b)) with (p + Datatypes.S n) in * by lia.
      split_and!; [|rewrite Hlen, length_app; lia|done|right; lia].
      rewrite <-app_assoc. f_equal. rewrite Hb at 1. rewrite <-drop_drop, take_take_drop.
      f_equal. lia.
    + intros e s'' [(? & ? & ?)|He]; [left|by right]. split_and!; [done|lia..].
  - intros e s' [[-> Hle]|Hf].
    + destruct (bool_decide (acc ≠ [])); simpl; left; split_and!; auto; lia.
    + destruct (bool_decide (e = EOF) && _) eqn:Hb; simpl.
      * apply andb_prop in Hb as [->%bool_decide_eq_true_1 _]. right; right. done.
      * right. by left.
Qed.

Lemma ReadFull_spec n s c p :
  at_pos s c p →
  wp (ReadFull n)
    (λ b s', b = take n (drop p c) ∧ length b = n ∧ at_pos s' c (p + n) ∧
             (n = 0 ∨ p + n ≤ length c))
    (λ e _, short_read e c p n) s.
Proof. intros. by apply (ReadFull_from_spec n n []). Qed.

(** Reading what is known to be there. *)
Lemma ReadFull_at n (s : S) c b rest p :
  at_pos s c p → drop p c = b ++ rest → length b = n →
  wp (ReadFull n) (λ b' s', b' = b ∧ at_pos s' c (p + n) ∧ drop (p + n) c = rest)
    (λ e _, read_fails e ∨ e = UnexpectedEOF ∧ read_fails EOF) s.
Proof.
  intros Hat Hd Hb. eapply wp_mono; [by apply ReadFull_spec|..]; cbn beta.
  - intros b' s' (-> & _ & Hat' & _). rewrite Hd, take_app_length' by done. split_and!; try done.
    by rewrite <-drop_drop, Hd, drop_app_length'.
  - intros e s' [(_ & Hs & Hn)|He]; [|done]. apply (f_equal length) in Hd.
    rewrite length_drop, length_app in Hd. lia.
Qed.
End ReadFullSpec.

(** ** [bufio.Reader] *)
Section Bufio.
Context {S : Type} `{IoReader S}.

Record BufReader := mkBufReader { br_buf : bytes; br_rd : S }.

Definition br_set_rd (s : S) (b : BufReader) : BufReader := mkBufReader b.(br_buf) s.

Definition NewReaderSize (rd : S) : BufReader := mkBufReader [] rd.

(** [Read] into [n] bytes with a buffer of [size]: serve from the buffer; when
    it is empty, read large requests past it and fill it for small ones. *)
Definition br_read (size n : nat) : M BufReader bytes :=
  b ← get;
  if bool_decide (n = 0) then mret []
  else if bool_decide (b.(br_buf) = []) then
    if bool_decide (size ≤ n) then zoom br_rd br_set_rd (io_read n)
    else
      got ← zoom br_rd br_set_rd (io_read size);
      modify (λ b, mkBufReader (drop n got) b.(br_rd));;
      mret (take n got)
  else
    modify (λ b, mkBufReader (drop n b.(br_buf)) b.(br_rd));;
    mret (take n b.(br_buf)).

Definition bufio_reader (size : nat) : IoReader BufReader := {| io_read := br_read size |}.

(** Run [c] on a buffered reader over the receiver. *)
Definition buffered {A} (c : M BufReader A) : M S A := λ s,
  let '(o, b) := c (NewReaderSize s) in (o, b.(br_rd)).
End Bufio.
Arguments BufReader : clear implicits.

Section BufioLaws.
Context {S : Type} `{IoReaderLaws S}.

(** The buffer holds the bytes between the two positions. *)
Definition br_at (b : BufReader S) (c : bytes) (p : nat) : Prop :=
  at_pos b.(br_rd) c (p + length b.(br_buf)) ∧
  b.(br_buf) = take (length b.(br_buf)) (drop p c) ∧
  (b.(br_buf) = [] ∨ p + length b.(br_buf) ≤ length c).

(** Take [n] bytes from a known buffer. *)
Lemma br_serve rd (c got : bytes) p n :
  1 ≤ n → got ≠ [] → at_pos rd c (p + length got) → got = take (length got) (drop p c) →
  p + length got ≤ length c →
  let b := take n got in
  b ≠ [] ∧ length b ≤ n ∧ br_at (mkBufReader (drop n got) rd) c (p + length b) ∧
  b = take (length b) (drop p c) ∧ p + length b ≤ length c.
Proof.
  intros Hn Hne Hat Hgot Hle b. assert (Hlb : length b = Nat.min n (length got)) by apply length_take.
  assert (1 ≤ length got) by (destruct got; [done|simpl; lia]).
  split_and!; [|lia| |rewrite Hlb|lia].
  - intros Hb. apply (f_equal length) in Hb. rewrite Hlb in Hb. simpl in Hb. lia.
  - unfold br_at; simpl. rewrite length_drop. split_and!.
    + by replace (p + length b + (length got - n)) with (p + length got) by lia.
    + rewrite Hgot at 1. rewrite skipn_firstn_comm, drop_drop. rewrite Hlb.
      destruct (decide (n ≤ length got)); [by rewrite Nat.min_l by lia|].
      replace (length got - n) with 0 by lia. by rewrite !take_0.
    + destruct (decide (n < length got)); [right; lia|left; apply drop_ge; lia].
  - unfold b. rewrite Hgot at 1. by rewrite take_take.
Qed.

#[local] Existing Instance bufio_reader.

Program Definition bufio_laws (size : nat) (Hsize : 1 ≤ size) :
  @IoReaderLaws (BufReader S) (bufio_reader size) :=
  {| at_pos := br_at; read_fails := read_fails |}.
Next Obligation.
  intros size Hsize [buf rd] c p n (Hat & Hbuf & Hle) Hn. simpl in *. unfold br_read.
  wp_steps. rewrite bool_decide_eq_false_2 by lia. simpl.
  case_bool_decide as Hemp; [subst buf; simpl in *; rewrite Nat.add_0_r in Hat|].
  - case_bool_decide as Hbig; wp_steps; simpl.
    + eapply wp_mono; [by apply io_read_law| |done]. cbn beta.
      intros b s' (? & ? & ? & ? & ?). split_and!; try done. unfold br_at, br_set_rd; simpl.
      rewrite Nat.add_0_r. auto.
    + eapply wp_mono; [by apply io_read_law| |done].
      cbn beta. intros got s' (Hne & Hl & Hat' & Hgot & Hle'). wp_steps.
      by apply br_serve.
  - wp_steps. apply br_serve; try done. by destruct Hle.
Qed.

Lemma wp_buffered {A} (c : M (BufReader S) A) Q E s :
  wp c (λ a b, Q a b.(br_rd)) (λ e b, E e b.(br_rd)) (NewReaderSize s) →
  wp (buffered c) Q E s.
Proof. unfold wp, buffered. by destruct (c (NewReaderSize s)) as [[] ?]. Qed.
End BufioLaws.

(** ** In-memory files *)

Record MemFile := mkMemFile { f_data : bytes; f_pos : nat }.

(** [bytes.Reader] *)
Definition mf_read (n : nat) : M MemFile bytes :=
  f ← get;
  let out := take n (drop f.(f_pos) f.(f_data)) in
  if bool_decide (length f.(f_data) ≤ f.(f_pos)) then throw EOF
  else
    modify (λ f, mkMemFile f.(f_data) (f.(f_pos) + length out));;
    mret out.

Definition mf_seek (off : Z) : M MemFile Z :=
  if bool_decide (off < 0)%Z then throw (ENew "bytes.Reader.Seek: negative position")
  else modify (λ f, mkMemFile f.(f_data) (Z.to_nat off));; mret off.

#[global] Instance memfile_rsc : ReadSeekCloser MemFile :=
  {| rsc_reader := {| io_read := mf_read |}; io_seek := mf_seek; io_rclose := mret () |}.

Program Definition memfile_reader_laws : IoReaderLaws MemFile :=
  {| at_pos f c p := f.(f_data) = c ∧ f.(f_pos) = p; read_fails e := False |}.
Next Obligation.
  intros [c p] _ _ n [<- <-] Hn. simpl. unfold mf_read. wp_steps. simpl.
  case_bool_decide as Hle; wp_steps; [by left|]. simpl. rewrite length_take, length_drop.
  split_and!; try lia; [|done|].
  - intros He. apply (f_equal length) in He. rewrite length_take, length_drop in He. simpl in He. lia.
  - rewrite <-(length_drop c p). destruct (decide (n ≤ length (drop p c))).
    + by rewrite Nat.min_l by lia.
    + rewrite Nat.min_r by lia. by rewrite !take_ge by lia.
Qed.

#[global] Program Instance memfile_laws : ReadSeekCloserLaws MemFile :=
  {| rsc_reader_laws := memfile_reader_laws; seek_fails e := False |}.
Next Obligation.
  intros [c p] _ _ off [<- <-] Hn. simpl. unfold mf_seek.
  rewrite bool_decide_eq_false_2 by lia. wp_steps. simpl. by rewrite Nat2Z.id.
Qed.

Lemma memfile_no_read_fails (e : error) : ¬ read_fails (S := MemFile) e.
Proof. intros []. Qed.
Lemma memfile_no_seek_fails (e : error) : ¬ seek_fails (S := MemFile) e.
Proof. intros []. Qed.

(** [bytes.Buffer] behind a no-op [Close]. *)
Record MemSink := mkMemSink { k_data : bytes; k_closed : bool }.

#[global] Instance memsink_writer : IoWriter MemSink :=
  {| io_write b := modify (λ k, mkMemSink (k.(k_data) ++ b) k.(k_closed));
     io_wclose := modify (λ k, mkMemSink k.(k_data) true) |}.

#[global] Program Instance memsink_laws : IoWriterLaws MemSink :=
  {| written k d := k = mkMemSink d false; finished k d := k = mkMemSink d true;
     write_fails e := False |}.
Next Obligation. intros _ d b ->. done. Qed.
Next Obligation. intros _ d ->. done. Qed.
