(* ===== verification/Bpack.v ===== *)
(** Pack files, the bpack package (bpack.go, writer.go, reader.go).

    A pack is the concatenation of its values, followed by an index of
    [key, size, offset] entries sorted by key and by the offset of the index.
    This file has the program; BpackProps proves that the index search, the index
    codec and the whole pack do what they promise. *)

From Stdlib Require Import ZArith Lia.
From stdpp Require Import base list gmap strings sorting.
From coqutil Require Import Byte.
From S2P Require Import Prelude Io.

Set Default Goal Selector "!".

(** ** bpack.go *)

Record IndexEnt := mkEnt { Key : bytes; Size : Z; Offset : Z }.
Abbreviation Index := (list IndexEnt).

Definition KeyCmp (l r : bytes) : Z :=
  if bool_decide (l = r) then 0
  else if str_lt l r then -1
  else 1.

(** The loop of [Search] over [lo .. hi]; the interval shrinks every time. *)
Fixpoint Search_from (fuel : nat) (ents : Index) (key : bytes) (lo hi : Z) : outcome (Z * bool) :=
  match fuel with
  | O => OutOfFuel
  | S fuel =>
    if (lo <=? hi)%Z then
      let mid := Z.quot (hi + lo) 2 in
      ent ← (if (mid <? 0)%Z then Panic else idx ents (Z.to_nat mid));
      let c := KeyCmp key (Key ent) in
      if (c =? -1)%Z then Search_from fuel ents key lo (mid - 1)
      else if (c =? 1)%Z then Search_from fuel ents key (mid + 1) hi
      else if (c =? 0)%Z then Ok (mid, true)
      else Search_from fuel ents key lo hi
    else Ok ((-1)%Z, false)
  end.

Definition Search (ents : Index) (key : bytes) : outcome (Z * bool) :=
  Search_from (S (length ents)) ents key 0 (Z.of_nat (length ents) - 1).

(** [sort.Sort(idx)] with [Less] from [KeyCmp]. *)
Definition key_le (a b : IndexEnt) : Prop := str_lt (Key b) (Key a) = false.
#[global] Instance key_le_dec : RelDecision key_le := λ a b, decide (_ = _).
Definition sort_index (ents : Index) : Index := merge_sort key_le ents.

(** ** writer.go *)
Definition MaxPackEntrySize : nat := N.to_nat 16777215.
Definition too_large : error := ENew "value too large for bpack".

Section Writer.
Context {W : Type} `{IoWriter W}.

Definition writeUInt64 (v : Z) : M W unit := io_write (put_le 8 v).
Definition writeUInt24 (v : Z) : M W unit := io_write (take 3 (put_le 4 v)).
Definition writeSlice (v : bytes) : M W unit :=
  if bool_decide (MaxPackEntrySize < length v) then throw too_large
  else writeUInt24 (u32 (Z.of_nat (length v)));; io_write v.

Record Writer := mkWriter {
  w_w : W;
  w_keys : gset bytes;
  w_index : Index;
  w_offset : Z;
}.

Definition NewWriter (w : W) : Writer := mkWriter w ∅ [] 0.

Definition w_set_w (f : W) (w : Writer) : Writer :=
  mkWriter f w.(w_keys) w.(w_index) w.(w_offset).
Definition on_w {A} (c : M W A) : M Writer A := zoom w_w w_set_w c.

Definition Has (key : bytes) : M Writer bool := gets (λ w, bool_decide (key ∈ w.(w_keys))).

Definition Add (key val : bytes) : M Writer unit :=
  has ← Has key;
  if has : bool then mret ()
  else if bool_decide (MaxPackEntrySize < length val) then throw too_large
  else
    on_w (io_write val);;
    modify (λ w, mkWriter w.(w_w) ({[key]} ∪ w.(w_keys))
                   (w.(w_index) ++ [mkEnt key (u32 (Z.of_nat (length val))) w.(w_offset)])
                   (u64 (w.(w_offset) + Z.of_nat (length val)))).

Fixpoint write_ents (ents : Index) : M W unit :=
  match ents with
  | [] => mret ()
  | e :: ents =>
    writeSlice (Key e);;
    writeUInt24 (Size e);;
    writeUInt64 (Offset e);;
    write_ents ents
  end.

(** The slice is sorted in place; the body writes it in order. *)
Definition WriteIndex (ents : Index) : M W unit :=
  let ents := sort_index ents in
  writeUInt64 (u64 (Z.of_nat (length ents)));;
  write_ents ents.

Definition CloseWriter : M Writer Index :=
  w ← get;
  let idxoffset := w.(w_offset) in
  modify (λ w, mkWriter w.(w_w) w.(w_keys) (sort_index w.(w_index)) w.(w_offset));;
  on_w (WriteIndex w.(w_index));;
  on_w (writeUInt64 idxoffset);;
  on_w io_wclose;;
  gets w_index.
End Writer.
Arguments Writer : clear implicits.

(** ** reader.go *)
Definition NotFound : error := ENew "Not Found".

Section ReadIndex.
Context {R : Type} `{IoReader R}.

Definition readUint64 : M R Z := b ← ReadFull 8; mret (get_le b).
(** Three bytes into a zeroed four-byte buffer. *)
Definition readUint24 : M R Z := b ← ReadFull 3; mret (get_le (b ++ [b0])).
Definition readSlice : M R bytes :=
  l ← readUint24;
  ReadFull (Z.to_nat l).

(** The loop of [ReadIndex]: the entries read so far are returned even when a
    read fails, so they are part of the state. *)
Fixpoint read_ents (fuel : nat) (n : Z) : M (R * Index) unit :=
  if bool_decide (n = 0)%Z then mret ()
  else
    match fuel with
    | O => diverge
    | S fuel =>
      let on_r {A} (c : M R A) := zoom fst (λ r s, (r, s.2)) c in
      ksl ← on_r readSlice;
      sz ← on_r readUint24;
      offset ← on_r readUint64;
      modify (λ s, (s.1, s.2 ++ [mkEnt ksl sz offset]));;
      read_ents fuel (n - 1)
    end.

Definition ReadIndex_body (fuel : nat) : M (R * Index) unit :=
  n ← zoom fst (λ r s, (r, s.2)) readUint64;
  read_ents fuel n.
End ReadIndex.

Section Reader.
Context {R : Type} `{ReadSeekCloser R}.

(** [ReadIndex(r)]: through a 64 KiB buffer, with the entries it got. *)
Definition ReadIndex (fuel : nat) : M (R * Index) unit := λ '(r, _),
  let '(o, (b, ents)) :=
    ReadIndex_body (H := bufio_reader (N.to_nat 65536)) fuel (NewReaderSize r, []) in
  (o, (b.(br_rd), ents)).

Record Reader := mkReader { r_r : R; r_size : Z; Idx : Index }.

Definition NewReader (r : R) (size : Z) : Reader := mkReader r size [].

Definition r_set_r (f : R) (r : Reader) : Reader := mkReader f r.(r_size) r.(Idx).
Definition on_r {A} (c : M R A) : M Reader A := zoom r_r r_set_r c.

(** The error of [Seek] is dropped. *)
Definition GetAt (offset sz : Z) : M Reader bytes :=
  try (on_r (io_seek (i64 offset)));;
  on_r (ReadFull (Z.to_nat sz)).

Definition Get (key : bytes) : M Reader bytes :=
  r ← get;
  '(i, ok) ← lift (Search r.(Idx) key);
  if negb ok then throw NotFound
  else
    ent ← lift (idx r.(Idx) (Z.to_nat i));
    GetAt (Offset ent) (Size ent).

Definition CloseReader : M Reader unit := on_r io_rclose.

Definition Reader_ReadIndex (fuel : nat) : M Reader unit :=
  r ← get;
  on_r (io_seek (i64 r.(r_size) - 8));;
  offset ← on_r readUint64;
  on_r (io_seek (i64 offset));;
  zoom (λ r, (r.(r_r), r.(Idx))) (λ '(f, ents) r, mkReader f r.(r_size) ents)
       (ReadIndex fuel).
End Reader.
Arguments Reader : clear implicits.
