(* ===== verification/BpackProps.v ===== *)
(** Correctness of the bpack package: the binary search, the index codec and
    the pack as a finite map. *)

From Stdlib Require Import ZArith Lia.
From stdpp Require Import base list gmap strings sorting.
From coqutil Require Import Byte LittleEndianList.
From S2P Require Import Prelude Io Bpack.

Set Default Goal Selector "!".

(** ** The key order *)

#[global] Instance key_le_total : Total key_le.
Proof.
  intros a b. unfold key_le. destruct (str_lt_total (Key a) (Key b)) as [->|[?|?]].
  - left. apply str_lt_irrefl.
  - left. by apply str_lt_asym.
  - right. by apply str_lt_asym.
Qed.
#[global] Instance key_le_trans : Transitive key_le.
Proof.
  intros a b c Hab Hbc. unfold key_le in *. destruct (str_lt (Key c) (Key a)) eqn:Hca; [|done].
  destruct (str_lt_total (Key b) (Key c)) as [Hq|[Hq|Hq]]; [rewrite Hq in *| |congruence].
  - congruence.
  - by rewrite (str_lt_trans _ _ _ Hq Hca) in Hab.
Qed.

Lemma KeyCmp_spec l r :
  KeyCmp l r = 0%Z ∧ l = r ∨ KeyCmp l r = (-1)%Z ∧ str_lt l r = true ∨
  KeyCmp l r = 1%Z ∧ str_lt r l = true.
Proof.
  unfold KeyCmp. case_bool_decide; [auto|]. destruct (str_lt l r) eqn:Hlt; [auto|].
  destruct (str_lt_total l r) as [?|[?|?]]; auto; congruence.
Qed.

(** ** [Search] *)

(** Strictly increasing keys. *)
Definition ordered (ents : Index) : Prop :=
  ∀ i j a b, i < j → ents !! i = Some a → ents !! j = Some b → str_lt (Key a) (Key b) = true.

Definition found (ents : Index) (key : bytes) (res : Z * bool) : Prop :=
  if res.2 then ∃ i e, res.1 = Z.of_nat i ∧ ents !! i = Some e ∧ Key e = key
  else res.1 = (-1)%Z ∧ (ordered ents → ∀ e, e ∈ ents → Key e ≠ key).

Lemma Search_from_spec fuel ents key lo hi :
  (0 ≤ lo)%Z → (hi < Z.of_nat (length ents))%Z → (hi - lo + 1 < Z.of_nat fuel)%Z →
  (-1 ≤ hi)%Z → (0 < fuel) →
  (ordered ents → ∀ i e, ents !! i = Some e → Key e = key → lo ≤ Z.of_nat i ≤ hi)%Z →
  ∃ res, Search_from fuel ents key lo hi = Ok res ∧ found ents key res.
Proof.
  revert lo hi. induction fuel as [|fuel IH]; intros lo hi Hlo Hhi Hfuel Hm1 Hpos Hin; [lia|].
  simpl. destruct (Z.leb_spec lo hi) as [Hle|Hgt].
  - set (mid := Z.quot (hi + lo) 2).
    assert (Hmid : (lo ≤ mid ≤ hi)%Z).
    { unfold mid. rewrite Z.quot_div_nonneg by lia. pose proof (Z.div_mod (hi + lo) 2).
      pose proof (Z.mod_pos_bound (hi + lo) 2). lia. }
    destruct (Z.ltb_spec mid 0) as [?|_]; [lia|].
    destruct (lookup_lt_is_Some_2 ents (Z.to_nat mid)) as [e He]; [lia|].
    rewrite (idx_ok _ _ _ He). simpl.
    destruct (KeyCmp_spec key (Key e)) as [[-> Hk]|[[-> Hk]|[-> Hk]]]; simpl.
    + exists (mid, true). split; [done|]. exists (Z.to_nat mid), e. simpl. split_and!; [lia|done..].
    + apply IH; [lia..|]. intros Hs i e' He' <-. specialize (Hin Hs i e' He' eq_refl).
      split; [lia|]. destruct (decide (Z.of_nat i < mid)%Z) as [|Hge]; [lia|]. exfalso.
      destruct (decide (i = Z.to_nat mid)) as [->|Hne].
      * simplify_eq. by rewrite str_lt_irrefl in Hk.
      * pose proof (Hs (Z.to_nat mid) i e e' ltac:(lia) He He') as Hlt.
        by rewrite (str_lt_asym _ _ Hk) in Hlt.
    + apply IH; [lia..|]. intros Hs i e' He' <-. specialize (Hin Hs i e' He' eq_refl).
      split; [|lia]. destruct (decide (mid < Z.of_nat i)%Z) as [|Hge]; [lia|]. exfalso.
      destruct (decide (i = Z.to_nat mid)) as [->|Hne].
      * simplify_eq. by rewrite str_lt_irrefl in Hk.
      * pose proof (Hs i (Z.to_nat mid) e' e ltac:(lia) He' He) as Hlt.
        by rewrite (str_lt_asym _ _ Hk) in Hlt.
  - exists ((-1)%Z, false). split; [done|]. split; [done|].
    intros Hs e [i He]%list_elem_of_lookup_1 Hk. specialize (Hin Hs i e He Hk). lia.
Qed.

Lemma Search_spec ents key : ∃ res, Search ents key = Ok res ∧ found ents key res.
Proof.
  unfold Search. apply Search_from_spec; try lia. intros _ i e He _.
  apply lookup_lt_Some in He. lia.
Qed.

(** ** Sorting *)

Lemma sort_index_perm ents : sort_index ents ≡ₚ ents.
Proof. apply merge_sort_Permutation. Qed.

Lemma sort_index_ordered ents : NoDup (Key <$> ents) → ordered (sort_index ents).
Proof.
  intros Hnd. pose proof (StronglySorted_merge_sort key_le ents) as Hs.
  fold (sort_index ents) in Hs.
  assert (NoDup (Key <$> sort_index ents)) as Hnd' by (by rewrite sort_index_perm).
  induction Hs as [|e l Hs IH Hle]; [by intros i j a b _ ?|].
  simpl in Hnd'. apply NoDup_cons in Hnd' as [Hni Hnd'].
  intros [|i] [|j] a b Hij Ha Hb; simpl in *; try lia; [|by eapply (IH Hnd' i j); [lia|..]].
  injection Ha as <-. assert (Hb' : b ∈ l) by eauto using list_elem_of_lookup_2.
  pose proof (proj1 (Forall_forall _ _) Hle b Hb') as Hkl. unfold key_le in Hkl.
  destruct (str_lt_total (Key e) (Key b)) as [Heq|[?|?]]; [|done|congruence].
  exfalso. apply Hni. rewrite Heq. by apply list_elem_of_fmap_2.
Qed.

(** ** The index codec *)

Definition enc24 (v : Z) : bytes := take 3 (put_le 4 v).
Definition enc_ent (e : IndexEnt) : bytes :=
  enc24 (Z.of_nat (length (Key e))) ++ Key e ++ enc24 (Size e) ++ put_le 8 (Offset e).
Definition enc_index (ents : Index) : bytes :=
  put_le 8 (Z.of_nat (length ents)) ++ concat (enc_ent <$> ents).

#[global] Arguments enc24 : simpl never.
#[global] Arguments enc_ent : simpl never.

Definition valid_ent (e : IndexEnt) : Prop :=
  (Z.of_nat (length (Key e)) < 2 ^ 24)%Z ∧ (0 ≤ Size e < 2 ^ 24)%Z ∧ (0 ≤ Offset e < 2 ^ 64)%Z.

Lemma length_enc24 v : length (enc24 v) = 3.
Proof. unfold enc24. by rewrite length_take, length_put_le. Qed.
#[export] Hint Rewrite length_enc24 : len.

Lemma length_enc_ent e : length (enc_ent e) = length (Key e) + 14.
Proof. unfold enc_ent. rewrite !length_app, !length_enc24, length_put_le. lia. Qed.

Lemma get_enc24 v : (0 ≤ v < 2 ^ 24)%Z → get_le (enc24 v ++ [b0]) = v.
Proof.
  intros. replace (enc24 v) with (put_le 3 v) by done. unfold get_le, put_le.
  change [b0] with (repeat b0 1). rewrite le_combine_app_0, le_combine_split.
  apply Z.mod_small. lia.
Qed.

Lemma get_le24_range (b : bytes) : length b = 3 → (0 ≤ get_le (b ++ [b0]) < 2 ^ 24)%Z.
Proof.
  intros Hb. unfold get_le. change [b0] with (repeat b0 1). rewrite le_combine_app_0.
  pose proof (le_combine_bound b). rewrite Hb in *. lia.
Qed.

Lemma MaxPackEntrySize_Z n : n ≤ MaxPackEntrySize ↔ (Z.of_nat n < 2 ^ 24)%Z.
Proof. unfold MaxPackEntrySize. lia. Qed.

Section WriteIndex.
Context {W : Type} `{IoWriterLaws W}.
Implicit Types (s : W).

Lemma writeSlice_spec s d v :
  written s d →
  wp (writeSlice v)
    (λ _ s', written s' (d ++ enc24 (Z.of_nat (length v)) ++ v))
    (λ e _, write_fails e ∨ e = too_large ∧ MaxPackEntrySize < length v) s.
Proof.
  intros Hw. unfold writeSlice. case_bool_decide as Hbig; wp_steps; [auto|].
  assert (length v ≤ MaxPackEntrySize) as ?%MaxPackEntrySize_Z by lia.
  eapply wp_mono; [by apply io_write_law| |auto]. cbn beta. intros [] s' Hw'.
  eapply wp_mono; [by apply io_write_law| |auto]. cbn beta. intros [] s'' Hw''.
  rewrite wrap_small, <-app_assoc in Hw'' by lia. done.
Qed.

Lemma write_ents_spec ents s d :
  written s d → Forall valid_ent ents →
  wp (write_ents ents) (λ _ s', written s' (d ++ concat (enc_ent <$> ents)))
    (λ e _, write_fails e) s.
Proof.
  intros Hw Hv. revert s d Hw. induction Hv as [|e ents (Hk & Hsz & Hoff) Hv IH]; intros s d Hw.
  { simpl. wp_step. by rewrite app_nil_r. }
  simpl. wp_step. eapply wp_mono; [by apply writeSlice_spec|..]; cbn beta.
  - intros [] s1 H1. wp_step. eapply wp_mono; [by apply io_write_law| |done].
    cbn beta. intros [] s2 H2. wp_step. eapply wp_mono; [by apply io_write_law| |done].
    cbn beta. intros [] s3 H3. eapply wp_mono; [by apply IH| |done].
    cbn beta. intros [] s4 H4. unfold enc_ent. by rewrite <-!app_assoc in *.
  - intros e' s1 [?|[_ Hbig]]; [done|]. apply MaxPackEntrySize_Z in Hk. lia.
Qed.

Lemma WriteIndex_spec ents s d :
  written s d → Forall valid_ent ents → (Z.of_nat (length ents) < 2 ^ 64)%Z →
  wp (WriteIndex ents) (λ _ s', written s' (d ++ enc_index (sort_index ents)))
    (λ e _, write_fails e) s.
Proof.
  intros Hw Hv Hl. unfold WriteIndex, writeUInt64.
  assert (Hlen : length (sort_index ents) = length ents) by (by rewrite sort_index_perm).
  rewrite wrap_small by lia. wp_step. eapply wp_mono; [by apply io_write_law| |done].
  cbn beta. intros [] s1 H1.
  eapply wp_mono; [apply (write_ents_spec _ _ _ H1); by rewrite sort_index_perm| |done].
  cbn beta. intros [] s2 H2. unfold enc_index. by rewrite <-app_assoc in H2.
Qed.
End WriteIndex.

Section ReadIndex.
Context {R : Type} `{IoReaderLaws R}.
Implicit Types (s : R).

(** The same in the style of the proofs below. *)
Lemma ReadFull_known n s (c b rest : bytes) p (Q : bytes → R → Prop) (E : error → R → Prop) :
  at_pos s c p → drop p c = b ++ rest → length b = n →
  (∀ s', at_pos s' c (p + n) → drop (p + n) c = rest → Q b s') →
  (∀ e s', read_fails e ∨ e = UnexpectedEOF ∧ read_fails EOF → E e s') →
  wp (ReadFull n) Q E s.
Proof.
  intros Hat Hd Hb HQ HE. eapply wp_mono; [by eapply ReadFull_at|..]; cbn beta.
  - intros b' s' (-> & Hat' & Hd'). by apply HQ.
  - intros e s' He. by apply HE.
Qed.

Definition io_error (e : error) : Prop := read_fails e ∨ e = UnexpectedEOF ∧ read_fails EOF.

Lemma readUint24_known s c v rest p (Q : Z → R → Prop) (E : error → R → Prop) :
  at_pos s c p → drop p c = enc24 v ++ rest → (0 ≤ v < 2 ^ 24)%Z →
  (∀ s', at_pos s' c (p + 3) → drop (p + 3) c = rest → Q v s') →
  (∀ e s', io_error e → E e s') → wp readUint24 Q E s.
Proof.
  intros Hat Hd Hv HQ HE. unfold readUint24. wp_step.
  eapply ReadFull_known; [done|done|apply length_enc24| |by auto].
  intros s' Hat' Hd'. wp_step. rewrite get_enc24 by done. auto.
Qed.

Lemma readUint64_known s c v rest p (Q : Z → R → Prop) (E : error → R → Prop) :
  at_pos s c p → drop p c = put_le 8 v ++ rest → (0 ≤ v < 2 ^ 64)%Z →
  (∀ s', at_pos s' c (p + 8) → drop (p + 8) c = rest → Q v s') →
  (∀ e s', io_error e → E e s') → wp readUint64 Q E s.
Proof.
  intros Hat Hd Hv HQ HE. unfold readUint64. wp_step.
  eapply ReadFull_known; [done|done|apply length_put_le| |by auto].
  intros s' Hat' Hd'. wp_step. rewrite get_put_le_small by done. auto.
Qed.

Lemma readSlice_known s c v rest p (Q : bytes → R → Prop) (E : error → R → Prop) :
  at_pos s c p → drop p c = enc24 (Z.of_nat (length v)) ++ v ++ rest →
  (Z.of_nat (length v) < 2 ^ 24)%Z →
  (∀ s', at_pos s' c (p + (3 + length v)) → drop (p + (3 + length v)) c = rest → Q v s') →
  (∀ e s', io_error e → E e s') → wp readSlice Q E s.
Proof.
  intros Hat Hd Hv HQ HE. unfold readSlice. wp_step.
  eapply (readUint24_known _ _ (Z.of_nat (length v))); [done|done|lia| |done].
  intros s' Hat' Hd'. rewrite Nat2Z.id.
  eapply ReadFull_known; [done|done|done| |by auto].
  intros s'' Hat'' Hd''. rewrite <-Nat.add_assoc in *. auto.
Qed.

Lemma read_ents_spec ents fuel s acc c rest p :
  at_pos s c p → drop p c = concat (enc_ent <$> ents) ++ rest → Forall valid_ent ents →
  length ents ≤ fuel →
  wp (read_ents fuel (Z.of_nat (length ents)))
    (λ _ t, t.2 = acc ++ ents ∧ ∃ q, at_pos t.1 c q) (λ e _, io_error e) (s, acc).
Proof.
  intros Hat Hd Hv. revert fuel s acc p Hat Hd.
  induction Hv as [|e ents (Hk & Hsz & Hoff) Hv IH]; intros fuel s acc p Hat Hd Hf.
  { destruct fuel; simpl; wp_step; rewrite app_nil_r; eauto. }
  destruct fuel as [|fuel]; [simpl in Hf; lia|].
  cbn [read_ents length]. rewrite bool_decide_eq_false_2 by lia.
  simpl in Hd. unfold enc_ent at 1 in Hd. rewrite <-!app_assoc in Hd.
  wp_step. wp_step. eapply (readSlice_known s c (Key e)); [done|exact Hd|done| |by auto].
  intros s1 Hat1 Hd1. wp_step. wp_step.
  eapply (readUint24_known s1 c (Size e)); [done|exact Hd1|done| |by auto].
  intros s2 Hat2 Hd2. wp_step. wp_step.
  eapply (readUint64_known s2 c (Offset e)); [done|exact Hd2|done| |by auto].
  intros s3 Hat3 Hd3. wp_steps. simpl.
  replace (Z.of_nat (S (length ents)) - 1)%Z with (Z.of_nat (length ents)) by lia.
  destruct e as [k sz off]. simpl.
  eapply wp_mono; [by eapply (IH _ _ (acc ++ [mkEnt k sz off])); [| |simpl in Hf; lia]| |done].
  cbn beta. intros [] t [-> ?]. by rewrite <-app_assoc.
Qed.

Lemma ReadIndex_body_spec ents fuel s acc c rest p :
  at_pos s c p → drop p c = enc_index ents ++ rest → Forall valid_ent ents →
  (Z.of_nat (length ents) < 2 ^ 64)%Z → length ents ≤ fuel →
  wp (ReadIndex_body fuel)
    (λ _ t, t.2 = acc ++ ents ∧ ∃ q, at_pos t.1 c q) (λ e _, io_error e) (s, acc).
Proof.
  intros Hat Hd Hv Hl Hf. unfold ReadIndex_body, enc_index in *. rewrite <-app_assoc in Hd.
  wp_step. wp_step.
  eapply (readUint64_known _ _ (Z.of_nat (length ents))); [done|done|lia| |by auto].
  intros s' Hat' Hd'. by eapply read_ents_spec.
Qed.

(** On any input the loop ends: every entry takes at least 14 bytes. *)
Definition bad_read (e : error) : Prop := e = EOF ∨ e = UnexpectedEOF ∨ read_fails e.

Lemma short_bad e c p n : short_read e c p n → bad_read e.
Proof. unfold short_read, bad_read. naive_solver. Qed.

Lemma ReadFull_total {A} n (k : bytes → A) s c p :
  at_pos s c p → 1 ≤ n →
  wp (b ← ReadFull n; mret (k b))
    (λ a s', at_pos s' c (p + n) ∧ p + n ≤ length c ∧ ∃ b, length b = n ∧ a = k b)
    (λ e _, bad_read e) s.
Proof.
  intros Hat Hn. wp_step. eapply wp_mono; [by apply ReadFull_spec|..]; cbn beta.
  - intros b s' (_ & ? & ? & [?|?]); [lia|]. wp_step. eauto.
  - eauto using short_bad.
Qed.

Lemma readSlice_total s c p :
  at_pos s c p →
  wp readSlice (λ _ s', ∃ q, at_pos s' c q ∧ p + 3 ≤ q) (λ e _, bad_read e) s.
Proof.
  intros Hat. unfold readSlice. wp_step.
  eapply wp_mono; [by eapply ReadFull_total; [|lia]| |done]. cbn beta.
  intros l s' (Hat' & _). eapply wp_mono; [by apply ReadFull_spec|..]; cbn beta.
  - intros b s'' (_ & _ & ? & _). eexists. split; [done|lia].
  - eauto using short_bad.
Qed.

Lemma read_ents_total fuel n s acc c p :
  at_pos s c p → 0 < fuel → length c < p + fuel →
  wp (read_ents fuel n) (λ _ _, True) (λ e _, bad_read e) (s, acc).
Proof.
  revert n s acc p. induction fuel as [|fuel IH]; intros n s acc p Hat Hpos Hf; [lia|].
  simpl. case_bool_decide; [done|].
  wp_step. wp_step. eapply wp_mono; [by apply readSlice_total| |done].
  cbn beta. intros k s1 (q & Ha1 & Hq). wp_step. wp_step.
  eapply wp_mono; [by eapply ReadFull_total; [|lia]| |done].
  cbn beta. intros sz s2 (Ha2 & _). wp_step. wp_step.
  eapply wp_mono; [by eapply ReadFull_total; [|lia]| |done].
  cbn beta. intros off s3 (Ha3 & Hle & _). wp_steps. simpl. eapply IH; [done|lia..].
Qed.

Lemma ReadIndex_body_total fuel s acc c p :
  at_pos s c p → length c < fuel →
  wp (ReadIndex_body fuel) (λ _ _, True) (λ e _, bad_read e) (s, acc).
Proof.
  intros Hat Hf. unfold ReadIndex_body. wp_step. wp_step.
  eapply wp_mono; [by eapply ReadFull_total; [|lia]| |done].
  cbn beta. intros n s' (Hat' & _). eapply read_ents_total; [done|lia..].
Qed.
End ReadIndex.

(** ** A pack as a finite map

    The specification of a pack is a map from keys to values in which the first
    value added under a key wins.  [packed] relates it to the bytes and the index
    entries of the implementation. *)

Definition pack_add (m : gmap bytes bytes) (kv : bytes * bytes) : gmap bytes bytes :=
  match m !! kv.1 with Some _ => m | None => <[kv.1 := kv.2]> m end.
Definition pack_map (kvs : list (bytes * bytes)) : gmap bytes bytes := foldl pack_add ∅ kvs.

(** Entry [e] locates value [v] in the pack's bytes [d]. *)
Definition locates (d : bytes) (e : IndexEnt) (v : bytes) : Prop :=
  Size e = Z.of_nat (length v) ∧ (Z.of_nat (length v) < 2 ^ 24)%Z ∧
  ∃ off, Offset e = Z.of_nat off ∧ off + length v ≤ length d ∧ take (length v) (drop off d) = v.

Record packed (d : bytes) (m : gmap bytes bytes) (ents : Index) : Prop := mkPacked {
  packed_nodup : NoDup (Key <$> ents);
  packed_ents e : e ∈ ents → ∃ v, m !! Key e = Some v ∧ locates d e v;
  packed_keys k : is_Some (m !! k) → ∃ e, e ∈ ents ∧ Key e = k;
}.

Lemma locates_app d d' e v : locates d e v → locates (d ++ d') e v.
Proof.
  intros (Hs & Hv & off & Ho & Hle & Ht). split_and!; [done..|]. exists off.
  rewrite length_app. split_and!; [done|lia|].
  rewrite drop_app_le, take_app_le by (rewrite ?length_drop; lia). done.
Qed.

Lemma packed_sort d m ents : packed d m ents → packed d m (sort_index ents).
Proof.
  intros [Hnd He Hk]. split.
  - by rewrite sort_index_perm.
  - intros e Hin. apply He. by rewrite sort_index_perm in Hin.
  - intros k Hs. destruct (Hk k Hs) as (e & ? & ?). exists e. by rewrite sort_index_perm.
Qed.

Lemma packed_snoc d m ents k v :
  packed d m ents → m !! k = None → (Z.of_nat (length v) < 2 ^ 24)%Z →
  packed (d ++ v) (<[k:=v]> m)
    (ents ++ [mkEnt k (Z.of_nat (length v)) (Z.of_nat (length d))]).
Proof.
  intros [Hnd He Hk] Hnone Hv.
  assert (Hne : ∀ e, e ∈ ents → Key e ≠ k).
  { intros e Hin <-. destruct (He e Hin) as (? & ? & _). congruence. }
  split.
  - rewrite fmap_app. apply NoDup_app. split_and!; [done| |apply NoDup_singleton].
    intros k' (e & -> & Hin)%list_elem_of_fmap Hk'%list_elem_of_singleton. by eapply Hne.
  - intros e [Hin|Hin]%elem_of_app.
    + destruct (He e Hin) as (v' & ? & ?). exists v'.
      rewrite lookup_insert_ne by (intros Heq; by eapply (Hne e)). auto using locates_app.
    + apply list_elem_of_singleton in Hin as ->. exists v. simpl. rewrite lookup_insert_eq. split; [done|]. split_and!; [done..|].
      exists (length d). rewrite length_app, drop_app_length. split_and!; [done..|]. by apply take_ge.
  - intros k' Hs. destruct (decide (k' = k)) as [->|Hkk].
    + eexists. split; [apply elem_of_app; right; by apply list_elem_of_singleton|done].
    + rewrite lookup_insert_ne in Hs by done. destruct (Hk k' Hs) as (e & ? & ?).
      exists e. rewrite elem_of_app. auto.
Qed.

Definition pack_file (d : bytes) (ents : Index) : bytes :=
  d ++ enc_index ents ++ put_le 8 (Z.of_nat (length d)).

Section PackWriter.
Context {W : Type} `{IoWriterLaws W}.

(** The writer holds the pack [m], its values in [d]. *)
Record packing (w : Writer W) (d : bytes) (m : gmap bytes bytes) : Prop := mkPacking {
  pk_written : written (w_w w) d;
  pk_offset : w_offset w = Z.of_nat (length d);
  pk_keys : w_keys w = dom m;
  pk_packed : packed d m (w_index w);
  pk_keylen : Forall (λ e, (Z.of_nat (length (Key e)) < 2 ^ 24)%Z) (w_index w);
}.

Lemma NewWriter_packing (f : W) : written f [] → packing (NewWriter f) [] ∅.
Proof.
  intros Hf. split; simpl; [done|done|by rewrite dom_empty_L| |constructor].
  split; simpl; [constructor|by intros ? ?%not_elem_of_nil|]. intros k [? Hk].
  by rewrite lookup_empty in Hk.
Qed.

Lemma Add_spec (w : Writer W) d m k v :
  packing w d m → (Z.of_nat (length k) < 2 ^ 24)%Z →
  (Z.of_nat (length (d ++ v)) < 2 ^ 63)%Z →
  wp (Add k v)
    (λ _ w', ∃ d', packing w' d' (pack_add m (k, v)) ∧ length d' ≤ length (d ++ v) ∧
             length (w_index w') ≤ S (length (w_index w)))
    (λ e _, write_fails e ∨ e = too_large ∧ MaxPackEntrySize < length v) w.
Proof.
  intros [Hw Ho Hks Hp Hkl] Hlk Hd. unfold Add, Has, on_w. wp_steps. rewrite Hks.
  unfold pack_add; simpl. destruct (m !! k) as [v0|] eqn:Hmk.
  - rewrite bool_decide_eq_true_2 by (by eapply elem_of_dom_2). wp_step.
    exists d. rewrite length_app. split_and!; [done|lia..].
  - rewrite bool_decide_eq_false_2 by (by apply not_elem_of_dom).
    case_bool_decide as Hbig; wp_steps; [auto|].
    assert (length v ≤ MaxPackEntrySize) as Hv%MaxPackEntrySize_Z by lia.
    eapply wp_mono; [by apply io_write_law| |by auto]. cbn beta. intros [] f Hf. wp_steps.
    exists (d ++ v). split_and!; [|done|simpl; rewrite length_app; simpl; lia].
    rewrite length_app in Hd. split; simpl.
    + done.
    + rewrite Ho, wrap_small, length_app by lia. lia.
    + rewrite dom_insert_L, Hks. done.
    + rewrite Ho, wrap_small by lia. by apply packed_snoc.
    + apply Forall_app. split; [done|]. by apply Forall_singleton.
Qed.

Fixpoint Adds (kvs : list (bytes * bytes)) : M (Writer W) unit :=
  match kvs with
  | [] => mret ()
  | (k, v) :: kvs => Add k v;; Adds kvs
  end.

Definition vals_len (kvs : list (bytes * bytes)) : nat := sum_list_with (λ kv, length kv.2) kvs.
Definition fits (kv : bytes * bytes) : Prop :=
  (Z.of_nat (length kv.1) < 2 ^ 24)%Z ∧ (Z.of_nat (length kv.2) < 2 ^ 24)%Z.

Lemma Adds_spec kvs (w : Writer W) d m :
  packing w d m → Forall fits kvs →
  (Z.of_nat (length d + vals_len kvs) < 2 ^ 63)%Z →
  wp (Adds kvs)
    (λ _ w', ∃ d', packing w' d' (foldl pack_add m kvs) ∧ length d' ≤ length d + vals_len kvs ∧
             length (w_index w') ≤ length (w_index w) + length kvs)
    (λ e _, write_fails e) w.
Proof.
  intros Hp Hfit. revert w d m Hp.
  induction Hfit as [|[k v] kvs [Hk Hv] Hfit IH]; intros w d m Hp Hlen; simpl in *.
  { wp_step. exists d. split_and!; [done|lia..]. }
  unfold vals_len in *; simpl in *. wp_step.
  eapply wp_mono; [apply (Add_spec _ _ _ _ _ Hp Hk); rewrite length_app; lia|..]; cbn beta.
  - intros [] w' (d' & Hp' & Hd' & Hi). rewrite length_app in Hd'.
    eapply wp_mono; [apply (IH _ _ _ Hp'); lia| |done]. cbn beta.
    intros [] w'' (d'' & ? & ? & ?). exists d''. split_and!; [done|lia..].
  - intros e w' [?|[_ Hbig]]; [done|]. apply MaxPackEntrySize_Z in Hv. simpl in *. lia.
Qed.

Lemma packed_valid d m ents :
  packed d m ents → (Z.of_nat (length d) < 2 ^ 64)%Z →
  Forall (λ e, (Z.of_nat (length (Key e)) < 2 ^ 24)%Z) ents → Forall valid_ent ents.
Proof.
  intros [_ He _] Hd Hk. rewrite Forall_forall in *. intros e Hin.
  destruct (He e Hin) as (v & _ & Hs & Hv & off & Ho & Hle & _).
  split_and!; [by apply Hk|lia..].
Qed.

Lemma pack_Close_spec (w : Writer W) d m :
  packing w d m → (Z.of_nat (length d) < 2 ^ 63)%Z →
  (Z.of_nat (length (w_index w)) < 2 ^ 64)%Z →
  wp CloseWriter
    (λ ents w', ents = sort_index (w_index w) ∧ finished (w_w w') (pack_file d ents))
    (λ e _, write_fails e) w.
Proof.
  intros [Hw Ho Hks Hp Hkl] Hd Hl. unfold CloseWriter, on_w. wp_steps. simpl.
  eapply wp_mono; [apply WriteIndex_spec; [done| |done]| |done].
  { eapply packed_valid; [done|lia|done]. }
  cbn beta. intros [] f1 Hf1. wp_steps. simpl. rewrite Ho.
  eapply wp_mono; [by apply io_write_law| |done]. cbn beta. intros [] f2 Hf2. wp_steps. simpl.
  eapply wp_mono; [by apply io_wclose_law| |done]. cbn beta. intros [] f3 Hf3. wp_steps. simpl.
  split; [done|]. unfold pack_file. by rewrite app_assoc.
Qed.
End PackWriter.

Lemma enc_index_length ents :
  Forall valid_ent ents →
  (Z.of_nat (length (enc_index ents)) ≤ 8 + Z.of_nat (length ents) * (2 ^ 24 + 14))%Z.
Proof.
  intros Hv. unfold enc_index. rewrite length_app, length_put_le.
  induction Hv as [|e ents (Hk & _) Hv IH]; [simpl; lia|].
  rewrite fmap_cons, concat_cons, length_app, length_enc_ent. cbn [length]. lia.
Qed.

Section PackReader.
Context {R : Type} `{ReadSeekCloserLaws R}.

Definition rsc_error (e : error) : Prop := io_error e ∨ seek_fails e.

Lemma ReadIndex_spec fuel (f : R) acc c rest p ents :
  at_pos f c p → drop p c = enc_index ents ++ rest → Forall valid_ent ents →
  (Z.of_nat (length ents) < 2 ^ 64)%Z → length ents ≤ fuel →
  wp (ReadIndex fuel) (λ _ t, t.2 = ents ∧ ∃ q, at_pos t.1 c q) (λ e _, io_error e) (f, acc).
Proof.
  intros Hat Hd Hv Hl Hf.
  assert (Hsz : 1 ≤ N.to_nat 65536) by lia.
  assert (Hb : br_at (NewReaderSize f) c p)
    by (split_and!; simpl; [by rewrite Nat.add_0_r|done|by left]).
  pose proof (ReadIndex_body_spec (H0 := bufio_laws _ Hsz) ents fuel (NewReaderSize f) []
    c rest p Hb Hd Hv Hl Hf) as Hbody.
  unfold wp in *. unfold ReadIndex. destruct (ReadIndex_body _ _) as [[[]|e| |] [b ents']]; try done.
  simpl in Hbody |- *. destruct Hbody as [-> [q Hq]]. split; [done|]. destruct Hq as [? _]. eauto.
Qed.

Lemma io_seek_at {A} (k : Z → M R A) (f : R) c p off Q E :
  at_pos f c p → off ≤ length c →
  (∀ f', at_pos f' c off → wp (k (Z.of_nat off)) Q E f') →
  (∀ e f', seek_fails e → E e f') →
  wp (io_seek (Z.of_nat off) ≫= k) Q E f.
Proof.
  intros Hat Hle HQ HE. wp_step. eapply wp_mono; [by eapply io_seek_law| |by auto].
  cbn beta. intros o f' [-> Hat']. auto.
Qed.

Lemma Reader_ReadIndex_spec fuel (r : Reader R) d ents p :
  at_pos (r_r r) (pack_file d ents) p →
  r_size r = Z.of_nat (length (pack_file d ents)) →
  (Z.of_nat (length (pack_file d ents)) < 2 ^ 63)%Z →
  Forall valid_ent ents → (Z.of_nat (length ents) < 2 ^ 64)%Z → length ents ≤ fuel →
  wp (Reader_ReadIndex fuel)
    (λ _ r', Idx r' = ents ∧ ∃ q, at_pos (r_r r') (pack_file d ents) q) (λ e _, rsc_error e) r.
Proof.
  intros Hat Hsz Hlt Hv Hl Hf. set (c := pack_file d ents) in *.
  assert (Hc : length c = length d + length (enc_index ents) + 8)
    by (unfold c, pack_file; len).
  unfold Reader_ReadIndex, on_r. wp_steps. rewrite Hsz.
  rewrite i64_small by lia. replace (Z.of_nat (length c) - 8)%Z with (Z.of_nat (length c - 8)) by lia.
  eapply wp_mono; [eapply io_seek_law; [done|lia]| |by right]. cbn beta. intros _ f1 [-> Hat1].
  wp_steps. simpl.
  eapply (readUint64_known f1 c (Z.of_nat (length d)) []); [done| |lia| |by left].
  { unfold c, pack_file. rewrite app_assoc, app_nil_r. apply drop_app_length'. len. }
  intros f2 Hat2 _. wp_steps. simpl.
  rewrite i64_small by lia.
  eapply wp_mono; [eapply io_seek_law; [done|lia]| |by right]. cbn beta. intros _ f3 [-> Hat3].
  wp_steps. simpl.
  eapply wp_mono; [eapply ReadIndex_spec; [done| |done..]| |by left].
  { unfold c, pack_file. by apply drop_app_length. }
  cbn beta. intros [] [f4 ents'] [Hents Hq]. done.
Qed.

Lemma GetAt_spec (r : Reader R) d rest e v p :
  at_pos (r_r r) (d ++ rest) p → locates d e v → (Z.of_nat (length d) < 2 ^ 63)%Z →
  (∀ e, ¬ seek_fails e) →
  wp (GetAt (Offset e) (Size e))
    (λ v' r', v' = v ∧ Idx r' = Idx r ∧ ∃ q, at_pos (r_r r') (d ++ rest) q)
    (λ e r', io_error e) r.
Proof.
  intros Hat (Hs & Hv & off & Ho & Hle & Ht) Hd Hns. unfold GetAt, on_r. wp_steps.
  rewrite Ho, Hs, i64_small, Nat2Z.id by lia.
  eapply wp_mono; [eapply io_seek_law; [done|rewrite length_app; lia]| |].
  - cbn beta. intros _ f1 [-> Hat1]. wp_steps. simpl.
    eapply (ReadFull_known _ _ _ v (drop (off + length v) (d ++ rest))); [done| |done| |by auto].
    + rewrite <-drop_drop. rewrite <-(take_drop (length v) (drop off (d ++ rest))) at 1. f_equal.
      rewrite drop_app_le, take_app_le by (rewrite ?length_drop; lia). done.
    + intros f2 Hat2 _. simpl. eauto.
  - cbn beta. intros e' f1 Hse. by destruct (Hns e').
Qed.

Lemma Get_spec (r : Reader R) d rest m key p :
  at_pos (r_r r) (d ++ rest) p → packed d m (Idx r) → ordered (Idx r) →
  (Z.of_nat (length d) < 2 ^ 63)%Z → (∀ e, ¬ seek_fails e) →
  wp (Get key)
    (λ v r', m !! key = Some v ∧ Idx r' = Idx r ∧ ∃ q, at_pos (r_r r') (d ++ rest) q)
    (λ e r', e = NotFound ∧ m !! key = None ∨ io_error e) r.
Proof.
  intros Hat [Hnd He Hk] Hord Hd Hns. unfold Get. wp_steps.
  destruct (Search_spec (Idx r) key) as ([i b] & -> & Hfound). wp_step.
  destruct b; simpl in Hfound |- *.
  - destruct Hfound as (j & e & Hi & Hj & <-). simpl in Hi. subst i. wp_step. rewrite Nat2Z.id.
    eapply wp_lift_ok; [by apply idx_ok|].
    destruct (He e) as (v & Hm & Hloc); [by eapply list_elem_of_lookup_2|].
    eapply wp_mono; [by eapply GetAt_spec| |by auto]. cbn beta. intros v' r' (-> & ? & ?). done.
  - destruct Hfound as [_ Hnone]. wp_step. left. split; [done|].
    destruct (m !! key) as [v|] eqn:Hm; [|done]. exfalso.
    destruct (Hk key) as (e & Hin & Hkey); [by eexists|]. by eapply Hnone.
Qed.
End PackReader.

(** The whole life of a pack, against the interfaces. *)
Lemma pack_session_spec {W : Type} `{IoWriterLaws W} {R : Type} `{ReadSeekCloserLaws R}
    (w : W) kvs key :
  written w [] → Forall fits kvs →
  (Z.of_nat (vals_len kvs) < 2 ^ 62)%Z → (Z.of_nat (length kvs) < 2 ^ 36)%Z →
  (∀ e : error, ¬ seek_fails e) →
  wp (Adds kvs;; CloseWriter)
    (λ _ w', ∃ c, finished (w_w w') c ∧
       (Z.of_nat (length c) ≤ Z.of_nat (vals_len kvs) + 16 +
                              Z.of_nat (length kvs) * (2 ^ 24 + 14))%Z ∧
       ∀ (f : R) p fuel, at_pos f c p → length kvs ≤ fuel →
         wp (Reader_ReadIndex fuel;; Get key)
           (λ v _, pack_map kvs !! key = Some v)
           (λ e _, e = NotFound ∧ pack_map kvs !! key = None ∨ io_error e)
           (NewReader f (Z.of_nat (length c))))
    (λ e _, write_fails e) (NewWriter w).
Proof.
  intros Hw Hfit Hlen Hcnt Hns. wp_step.
  eapply wp_mono; [eapply (Adds_spec kvs _ [] ∅); [by apply NewWriter_packing|done|simpl; lia]| |done].
  cbn beta. intros [] w1 (d & Hp & Hd & Hi). simpl in Hi, Hd.
  eapply wp_mono; [apply (pack_Close_spec _ _ _ Hp); lia| |done].
  cbn beta. intros ents w2 [-> Hfin]. pose proof (pk_packed _ _ _ Hp) as Hpk.
  set (ents := sort_index (w_index w1)) in *.
  assert (Hpe : ents ≡ₚ w_index w1) by apply sort_index_perm.
  assert (Hle : length ents = length (w_index w1)) by (by rewrite Hpe).
  assert (Hv : Forall valid_ent ents).
  { rewrite Hpe. eapply packed_valid; [done|lia|apply Hp]. }
  pose proof (enc_index_length ents Hv) as Hil.
  assert (Hfl : length (pack_file d ents) = length d + length (enc_index ents) + 8)
    by (unfold pack_file; len).
  eexists. split_and!; [done|lia|]. intros f p fuel Hat Hf.
  wp_step. eapply wp_mono; [eapply Reader_ReadIndex_spec; try done; lia|..]; cbn beta.
  - intros [] r (Hidx & q & Hq). unfold pack_file in Hq.
    eapply wp_mono; [eapply Get_spec; [done|..]|..]; try done.
    + rewrite Hidx. by apply packed_sort.
    + rewrite Hidx. apply sort_index_ordered, Hpk.
    + lia.
    + cbn beta. by intros v r' [? _].
    + cbn beta. auto.
  - intros e r [?|?]; [by right|by destruct (Hns e)].
Qed.

(** ** Theorems *)

(** C36: [Index.Search] returns for every index and key without going out of
    range; a hit is an entry with that key, and on an index with strictly
    increasing keys a miss means that no entry has it. *)
Theorem bpack_search_correct ents key :
  ∃ i b, Search ents key = Ok (i, b) ∧
    if (b : bool) then ∃ e, (0 ≤ i)%Z ∧ ents !! Z.to_nat i = Some e ∧ Key e = key
    else i = (-1)%Z ∧ (ordered ents → ∀ e, e ∈ ents → Key e ≠ key).
Proof.
  destruct (Search_spec ents key) as ([i b] & HS & Hf). exists i, b. split; [done|].
  destruct b; [|done]. destruct Hf as (j & e & Hi & He & Hk). simpl in Hi. subst i.
  exists e. rewrite Nat2Z.id. split_and!; [lia|done..].
Qed.

(** [ReadIndex] inverts [WriteIndex]: what is read back is the index sorted
    by key, for every index whose keys, sizes and offsets fit their fields and
    over any conforming writer and any conforming file with that content. *)
Theorem bpack_index_roundtrip {W : Type} `{IoWriterLaws W} {R : Type} `{ReadSeekCloserLaws R}
    (w : W) ents :
  written w [] → Forall valid_ent ents → (Z.of_nat (length ents) < 2 ^ 64)%Z →
  wp (WriteIndex ents)
    (λ _ w', ∃ c, written w' c ∧
       ∀ (f : R) fuel rest, at_pos f (c ++ rest) 0 → length ents ≤ fuel →
         wp (ReadIndex fuel) (λ _ t, t.2 = sort_index ents) (λ e _, io_error e) (f, []))
    (λ e _, write_fails e) w.
Proof.
  intros Hw Hv Hl. eapply wp_mono; [by apply (WriteIndex_spec ents w [])| |done].
  cbn beta. intros [] w' Hw'. eexists. split; [done|]. simpl. intros f fuel rest Hat Hf.
  eapply wp_mono; [eapply (ReadIndex_spec fuel f [] _ rest 0 (sort_index ents)); [done|..]| |done].
  - by rewrite drop_0.
  - by rewrite sort_index_perm.
  - by rewrite sort_index_perm.
  - by rewrite sort_index_perm.
  - cbn beta. by intros [] t [-> _].
Qed.

(** C23: a pack is a finite map.  After any sequence of [Add]s and a [Close], a
    reader of the file that loads the index finds under each key the first value
    that was added, and reports [NotFound] exactly for the keys never added. *)
Theorem bpack_roundtrip {W : Type} `{IoWriterLaws W} {R : Type} `{ReadSeekCloserLaws R}
    (w : W) kvs key :
  written w [] → Forall fits kvs →
  (Z.of_nat (vals_len kvs) < 2 ^ 62)%Z → (Z.of_nat (length kvs) < 2 ^ 36)%Z →
  (∀ e : error, ¬ seek_fails e) →
  wp (Adds kvs;; CloseWriter)
    (λ _ w', ∃ c, finished (w_w w') c ∧
       ∀ (f : R) p fuel, at_pos f c p → length kvs ≤ fuel →
         wp (Reader_ReadIndex fuel;; Get key)
           (λ v _, pack_map kvs !! key = Some v)
           (λ e _, e = NotFound ∧ pack_map kvs !! key = None ∨ io_error e)
           (NewReader f (Z.of_nat (length c))))
    (λ e _, write_fails e) (NewWriter w).
Proof.
  intros. eapply wp_mono; [by apply (pack_session_spec w kvs key)| |done]. cbn beta.
  intros _ w' (c & Hfin & _ & Hrd). eauto.
Qed.

(** [ReadIndex] of an arbitrary file, however corrupt its entry count,
    comes to an end: it returns, or reports a short read, after at most one
    iteration per byte of the file. *)
Theorem bpack_readindex_terminates {R : Type} `{ReadSeekCloserLaws R} (f : R) c p fuel :
  at_pos f c p → length c < fuel →
  wp (ReadIndex fuel) (λ _ _, True)
    (λ e _, e = EOF ∨ e = UnexpectedEOF ∨ read_fails e) (f, []).
Proof.
  intros Hat Hf. assert (Hsz : 1 ≤ N.to_nat 65536) by lia.
  assert (Hb : br_at (NewReaderSize f) c p)
    by (split_and!; simpl; [by rewrite Nat.add_0_r|done|by left]).
  pose proof (ReadIndex_body_total (H0 := bufio_laws _ Hsz) fuel (NewReaderSize f) [] c p Hb Hf)
    as Hbody.
  unfold wp in *. unfold ReadIndex. by destruct (ReadIndex_body _ _) as [[[]|e| |] [b ents']].
Qed.

(** ** A concrete pack *)
Module Demo.
Definition kvs : list (bytes * bytes) :=
  [(str "b", str "beta"); (str "a", str "alpha"); (str "b", str "other"); (str "", [])].

Definition ents : Index := [mkEnt (str "k2") 3 0; mkEnt (str "k1") 5 3].

(** The program runs: the second value under a key is not stored. *)
Example pack_runs :
  match (Adds kvs;; CloseWriter) (NewWriter (mkMemSink [] false)) with
  | (Ok _, w) =>
    let c := k_data (w_w w) in
    fst ((Reader_ReadIndex 9;; Get (str "b")) (NewReader (mkMemFile c 0) (Z.of_nat (length c))))
    = Ok (str "beta")
  | _ => False
  end.
Proof. by vm_compute. Qed.

Lemma bpack_index_roundtrip_witness :
  wp (WriteIndex ents)
    (λ _ w', ∃ c, written w' c ∧
       ∀ (f : MemFile) fuel rest, at_pos f (c ++ rest) 0 → length ents ≤ fuel →
         wp (ReadIndex fuel) (λ _ t, t.2 = sort_index ents) (λ e _, io_error e) (f, []))
    (λ e _, write_fails e) (mkMemSink [] false).
Proof.
  apply (bpack_index_roundtrip (R := MemFile) (mkMemSink [] false) ents); [done| |simpl; lia].
  repeat constructor; simpl; lia.
Defined.

Lemma bpack_roundtrip_witness :
  wp (Adds kvs;; CloseWriter)
    (λ _ w', ∃ c, finished (w_w w') c ∧
       ∀ (f : MemFile) p fuel, at_pos f c p → length kvs ≤ fuel →
         wp (Reader_ReadIndex fuel;; Get (str "b"))
           (λ v _, pack_map kvs !! str "b" = Some v)
           (λ e _, e = NotFound ∧ pack_map kvs !! str "b" = None ∨ io_error e)
           (NewReader f (Z.of_nat (length c))))
    (λ e _, write_fails e) (NewWriter (mkMemSink [] false)).
Proof.
  apply (bpack_roundtrip (R := MemFile) (mkMemSink [] false) kvs (str "b")); [done| |done|done|intros e; tauto].
  repeat constructor; simpl; lia.
Defined.

Lemma bpack_readindex_terminates_witness :
  wp (ReadIndex 10) (λ _ _, True)
    (λ e _, e = EOF ∨ e = UnexpectedEOF ∨ read_fails e)
    (mkMemFile (replicate 9 Byte.xff) 0, []).
Proof.
  apply (bpack_readindex_terminates (mkMemFile (replicate 9 Byte.xff) 0) (replicate 9 Byte.xff) 0);
    [done|simpl; lia].
Defined.
End Demo.
