(* ===== verification/Cryptofile.v ===== *)
(** Encrypted files, the cryptofile package (ctr.go, writer.go, reader.go).

    A file is a random IV block followed by the content in counter mode, padded
    with 0x80 and zeros to whole blocks.  The cipher ([crypto/cipher.Block]) and
    the bytes [crypto/rand] delivers are arguments. *)

From Stdlib Require Import ZArith Lia.
From stdpp Require Import base list strings.
From coqutil Require Import Byte.
From S2P Require Import Prelude Io.

Set Default Goal Selector "!".

(** [cipher.Block]: [Encrypt(dst, src)] for buffers of one block. *)
Class Block := { BlockSize : nat; Encrypt : bytes → bytes }.

Class BlockOk `{Block} : Prop := {
  block_pos : 1 ≤ BlockSize;
  Encrypt_len b : length b = BlockSize → length (Encrypt b) = BlockSize;
}.

(** ** ctr.go *)

Record ctrState := mkCtr { Iv : bytes; Vec : bytes }.

Definition newCtrState (iv : bytes) : ctrState := mkCtr iv iv.

(** [copy(ctr.Vec, ctr.Iv)] *)
Definition Reset (c : ctrState) : ctrState := mkCtr c.(Iv) (splice c.(Vec) 0 c.(Iv)).

(** The loop of [Add], from byte [idx] (the last is the least significant) down:
    it ends when nothing is left to add or the vector is used up. *)
Fixpoint Add_from (fuel : nat) (vec : bytes) (idx val carry : Z) : outcome bytes :=
  if bool_decide (val ≠ 0 ∨ carry ≠ 0)%Z then
    match fuel with
    | O => OutOfFuel
    | S fuel =>
      let b := Z.land val 0xff in
      let val := Z.shiftr val 8 in
      if bool_decide (idx < 0)%Z then Ok vec
      else
        x ← Prelude.idx vec (Z.to_nat idx);
        let newb := (byte.unsigned x + b + carry)%Z in
        vec ← set_idx vec (Z.to_nat idx) (zbyte newb);
        let carry := if bool_decide (Z.land newb 256 ≠ 0)%Z then 1%Z else 0%Z in
        Add_from fuel vec (idx - 1) val carry
    end
  else Ok vec.

Definition Add (val : Z) (c : ctrState) : outcome ctrState :=
  vec ← Add_from (S (length c.(Vec))) c.(Vec) (Z.of_nat (length c.(Vec)) - 1) val 0;
  Ok (mkCtr c.(Iv) vec).

Definition bxor (x y : byte) : byte := zbyte (Z.lxor (byte.unsigned x) (byte.unsigned y)).

Definition Xor (dest src : bytes) : outcome bytes :=
  if bool_decide (length dest = length src) then Ok (zip_with bxor dest src) else Panic.

(** ** writer.go *)
Section Writer.
Context {B : Block} {W : Type} `{IoWriter W}.

Record Writer := mkWriter {
  w_w : W;
  w_buf : bytes;
  w_nbuf : nat;
  w_enc : bytes;
  w_ctr : ctrState;
}.

Definition w_set_w (f : W) (w : Writer) : Writer :=
  mkWriter f w.(w_buf) w.(w_nbuf) w.(w_enc) w.(w_ctr).
Definition w_set_buf (b : bytes) (w : Writer) : Writer :=
  mkWriter w.(w_w) b w.(w_nbuf) w.(w_enc) w.(w_ctr).
Definition w_set_nbuf (n : nat) (w : Writer) : Writer :=
  mkWriter w.(w_w) w.(w_buf) n w.(w_enc) w.(w_ctr).
Definition w_set_enc (b : bytes) (w : Writer) : Writer :=
  mkWriter w.(w_w) w.(w_buf) w.(w_nbuf) b w.(w_ctr).
Definition w_set_ctr (c : ctrState) (w : Writer) : Writer :=
  mkWriter w.(w_w) w.(w_buf) w.(w_nbuf) w.(w_enc) c.

Definition blank_writer (f : W) : Writer := mkWriter f [] 0 [] (mkCtr [] []).

(** [NewWriter] fills the blank writer it allocates; [rand] is what
    [io.ReadFull(rand.Reader, iv)] gave. *)
Definition NewWriter (rand : outcome bytes) : M Writer unit :=
  iv ← lift rand;
  zoom w_w w_set_w (io_write iv);;
  modify (λ w, mkWriter w.(w_w) (replicate BlockSize b0) 0 (replicate BlockSize b0)
                 (newCtrState iv)).

(** The error of the write is returned after the counter has moved on. *)
Definition flushBlock : M Writer unit :=
  w ← get;
  modify (w_set_enc (Encrypt w.(w_ctr).(Vec)));;
  buf ← lift (Xor w.(w_buf) (Encrypt w.(w_ctr).(Vec)));
  modify (w_set_buf buf);;
  o ← try (zoom w_w w_set_w (io_write buf));
  modify (w_set_nbuf 0);;
  w ← get;
  c ← lift (Add 1 w.(w_ctr));
  modify (w_set_ctr c);;
  match o with inl _ => mret () | inr e => throw e end.

(** [Write] calls itself on what did not fit the block: once per block. *)
Fixpoint Write_from (fuel : nat) (buf : bytes) : M Writer nat :=
  match fuel with
  | O => diverge
  | S fuel =>
    w ← get;
    blk ← lift (copy_at w.(w_buf) w.(w_nbuf) (length w.(w_buf)) buf);
    let n := Nat.min (length w.(w_buf) - w.(w_nbuf)) (length buf) in
    modify (w_set_buf blk);;
    modify (w_set_nbuf (w.(w_nbuf) + n));;
    if bool_decide (w.(w_nbuf) + n ≠ length w.(w_buf)) then mret n
    else
      flushBlock;;
      nw ← Write_from fuel (drop n buf);
      mret (n + nw)
  end.

Definition Write (buf : bytes) : M Writer nat := Write_from (S (length buf)) buf.

(** Zero the rest of the block, then mark the end of the content. *)
Definition CloseWriter : M Writer unit :=
  w ← get;
  let buf := take w.(w_nbuf) w.(w_buf) ++ replicate (length w.(w_buf) - w.(w_nbuf)) b0 in
  buf ← lift (set_idx buf w.(w_nbuf) Byte.x80);
  modify (w_set_buf buf);;
  flushBlock;;
  zoom w_w w_set_w io_wclose.
End Writer.
Arguments Writer : clear implicits.

(** ** reader.go *)

(** The backwards search for the end marker in [buf[:n]]; it runs off the front
    when there is none. *)
Fixpoint find_pad (buf : bytes) (n : nat) : outcome nat :=
  match n with
  | O => Panic
  | S i =>
    x ← idx buf i;
    if bool_decide (x = Byte.x80) then Ok i else find_pad buf i
  end.

Section Reader.
Context {B : Block} {R : Type} `{ReadSeekCloser R}.

(** [rbuf] is scratch space of which only the part just read is looked at, so
    it is not part of the state. *)
Record Reader := mkReader {
  r_r : R;
  r_size : Z;
  r_offset : Z;
  r_ctr : ctrState;
  r_enc : bytes;
}.

Definition r_set_r (f : R) (r : Reader) : Reader :=
  mkReader f r.(r_size) r.(r_offset) r.(r_ctr) r.(r_enc).
Definition r_set_offset (o : Z) (r : Reader) : Reader :=
  mkReader r.(r_r) r.(r_size) o r.(r_ctr) r.(r_enc).
Definition r_set_ctr (c : ctrState) (r : Reader) : Reader :=
  mkReader r.(r_r) r.(r_size) r.(r_offset) c r.(r_enc).
Definition r_set_enc (b : bytes) (r : Reader) : Reader :=
  mkReader r.(r_r) r.(r_size) r.(r_offset) r.(r_ctr) b.
Definition on_r {A} (c : M R A) : M Reader A := zoom r_r r_set_r c.

Definition blocksz : Z := Z.of_nat BlockSize.

Definition blank_reader (f : R) : Reader := mkReader f 0 0 (mkCtr [] []) [].

Definition NewReader (fsize : Z) : M Reader unit :=
  if bool_decide (Z.rem fsize blocksz ≠ 0)%Z
  then throw (ENew "file size is not a multiple of block size")
  else
    on_r (io_seek 0);;
    iv ← on_r (ReadFull BlockSize);
    modify (λ r, mkReader r.(r_r) (fsize - Z.of_nat (length iv)) 0 (newCtrState iv)
                   (replicate (length iv) b0)).

Definition Seek (offset whence : Z) : M Reader Z :=
  if bool_decide (whence ≠ 0)%Z then throw (ENew "unsupported whence")
  else
    r ← get;
    let offset := if bool_decide (offset < 0)%Z then 0%Z else offset in
    let offset := if bool_decide (r.(r_size) < offset)%Z then r.(r_size) else offset in
    modify (r_set_offset offset);;
    mret offset.

(** The decryption loop over [n] blocks from block [i]. *)
Fixpoint decrypt (n i : nat) (buf : bytes) : M Reader bytes :=
  match n with
  | O => mret buf
  | S n =>
    toDecrypt ← lift (slice buf (i * BlockSize) (S i * BlockSize));
    r ← get;
    modify (r_set_enc (Encrypt r.(r_ctr).(Vec)));;
    x ← lift (Xor toDecrypt (Encrypt r.(r_ctr).(Vec)));
    c ← lift (Add 1 r.(r_ctr));
    modify (r_set_ctr c);;
    decrypt n (S i) (splice buf (i * BlockSize) x)
  end.

(** [readBlocks(idx, buf)] for a buffer of [buflen] bytes returns [buf[:n]]. *)
Definition readBlocks (idx : Z) (buflen : nat) : M Reader bytes :=
  if bool_decide (Z.rem (Z.of_nat buflen) blocksz ≠ 0)%Z then panic
  else
    r ← get;
    let nblocks := (buflen / BlockSize)%nat in
    if bool_decide (r.(r_size) ≤ idx * blocksz)%Z then throw EOF
    else
      let len := if bool_decide (r.(r_size) < idx * blocksz + Z.of_nat buflen)%Z
                 then Z.to_nat (r.(r_size) - idx * blocksz) else buflen in
      on_r (io_seek ((1 + idx) * blocksz));;
      data ← on_r (ReadFull len);
      r ← get;
      c ← lift (Add (u64 idx) (Reset r.(r_ctr)));
      modify (r_set_ctr c);;
      buf ← decrypt nblocks 0 (data ++ replicate (buflen - len) b0);
      let buf := take len buf in
      buf ← (if bool_decide (idx * blocksz + Z.of_nat len = r.(r_size))%Z
             then i ← lift (find_pad buf len); mret (take i buf)
             else mret buf);
      if bool_decide (buf = []) then throw EOF else mret buf.

Definition SizeOf : M Reader Z :=
  r ← get;
  o ← try (readBlocks (Z.quot r.(r_size) blocksz - 1) BlockSize);
  match o with
  | inl buf => mret (r.(r_size) - blocksz + Z.of_nat (length buf))%Z
  | inr e => if bool_decide (e = EOF) then mret (r.(r_size) - blocksz)%Z else throw e
  end.

(** [Read] into a buffer of [n] bytes.  When [readBlocks] fails it has read
    nothing, and [buf2[shiftamnt:0]] panics unless the offset was aligned. *)
Definition Read (n : nat) : M Reader bytes :=
  if bool_decide (n = 0) then mret []
  else
    r ← get;
    let aligned := (r.(r_offset) - Z.rem r.(r_offset) blocksz)%Z in
    let shiftamnt := (r.(r_offset) - aligned)%Z in
    let buflen := (Z.of_nat n + shiftamnt)%Z in
    let buflen := if bool_decide (Z.rem buflen blocksz ≠ 0)%Z
                  then (buflen + (blocksz - Z.rem buflen blocksz))%Z else buflen in
    o ← try (readBlocks (Z.quot aligned blocksz) (Z.to_nat buflen));
    let buf2 := match o with inl buf => buf | inr _ => [] end in
    src ← lift (slice buf2 (Z.to_nat shiftamnt) (length buf2));
    let out := take n src in
    modify (λ r, r_set_offset (r.(r_offset) + Z.of_nat (length out)) r);;
    match o with
    | inr e => throw e
    | inl _ => if bool_decide (out = []) then throw EOF else mret out
    end.

Definition CloseReader : M Reader unit := on_r io_rclose.
End Reader.
Arguments Reader : clear implicits.
