(* ===== verification/CryptofileProps.v ===== *)
(** Correctness of the cryptofile package: the counter is addition, a written
    file is the padded content in counter mode, and a reader of it is a seekable
    file with the content.  The writer and the reader are instances of the [Io]
    interfaces, so that a pack can be stored through them. *)

From Stdlib Require Import ZArith Lia.
From stdpp Require Import base list strings.
From coqutil Require Import Byte LittleEndianList.
From S2P Require Import Prelude Io Cryptofile.

Set Default Goal Selector "!".

(** ** The counter *)

Lemma put_be_S n z : put_be (S n) z = put_be n (Z.shiftr z 8) ++ [zbyte z].
Proof. done. Qed.

Lemma zbyte_mod z : zbyte (z mod 256) = zbyte z.
Proof. unfold zbyte. apply byte.unsigned_inj. rewrite !byte.unsigned_of_Z. apply Z.mod_mod. lia. Qed.

Lemma put_be_wrap n z : put_be n (z mod 256 ^ Z.of_nat n) = put_be n z.
Proof.
  unfold put_be. f_equal. replace (256 ^ Z.of_nat n)%Z with (2 ^ (8 * Z.of_nat n))%Z.
  - apply put_le_wrap.
  - by rewrite Z.pow_mul_r by lia.
Qed.

Lemma carry_bit z : (0 ≤ z < 512)%Z → Z.land z 256 ≠ 0%Z ↔ (256 ≤ z)%Z.
Proof.
  intros Hz.
  assert (Hall : forallb (λ n, Bool.eqb (Z.land (Z.of_nat n) 256 =? 0)%Z (n <? 256)%nat) (seq 0 512)
                 = true) by (by vm_compute).
  rewrite forallb_forall in Hall. specialize (Hall (Z.to_nat z)).
  rewrite Z2Nat.id in Hall by lia. rewrite in_seq in Hall. specialize (Hall ltac:(lia)).
  apply Bool.eqb_prop in Hall.
  destruct (Z.eqb_spec (Z.land z 256) 0), (Nat.ltb_spec (Z.to_nat z) 256); try done; lia.
Qed.

(** Adding within the first [n] bytes, the rest untouched. *)
Lemma Add_from_spec fuel n a suf val carry :
  n < fuel → (0 ≤ val)%Z → (carry = 0 ∨ carry = 1)%Z →
  Add_from fuel (put_be n a ++ suf) (Z.of_nat n - 1) val carry =
  Ok (put_be n (a + val + carry) ++ suf).
Proof.
  revert n a suf val carry. induction fuel as [|fuel IH]; intros n a suf val carry Hf Hv Hc; [lia|].
  cbn [Add_from]. case_bool_decide as Hz; [|do 2 f_equal; f_equal; lia].
  destruct n as [|n].
  { by rewrite bool_decide_eq_true_2 by lia. }
  rewrite bool_decide_eq_false_2 by lia.
  replace (Z.to_nat (Z.of_nat (S n) - 1)) with n by lia.
  rewrite !put_be_S, <-!app_assoc. cbn [app].
  assert (Hlen : length (put_be n (Z.shiftr a 8)) = n) by apply length_put_be.
  rewrite (idx_ok _ _ (zbyte a))
    by (rewrite lookup_app_r by lia; by rewrite Hlen, Nat.sub_diag).
  unfold mbind, outcome_bind. rewrite set_idx_ok by (rewrite length_app, Hlen; simpl; lia).
  rewrite insert_app_r_alt, Hlen, Nat.sub_diag by lia. cbn [insert list_insert].
  rewrite unsigned_zbyte. change (wrap 8 a) with (a mod 256)%Z.
  change 255%Z with (Z.ones 8). rewrite Z.land_ones by lia. change (2 ^ 8)%Z with 256%Z.
  rewrite !Z.shiftr_div_pow2 by lia. change (2 ^ 8)%Z with 256%Z.
  pose proof (Z.mod_pos_bound a 256 ltac:(lia)). pose proof (Z.mod_pos_bound val 256 ltac:(lia)).
  pose proof (Z.div_mod a 256 ltac:(lia)). pose proof (Z.div_mod val 256 ltac:(lia)).
  set (newb := (a mod 256 + val mod 256 + carry)%Z).
  assert (Hnew : (a + val + carry = 256 * (a / 256 + val / 256) + newb)%Z) by (unfold newb; lia).
  assert (Hb : zbyte newb = zbyte (a + val + carry)).
  { rewrite <-(zbyte_mod newb), <-(zbyte_mod (a + val + carry)), Hnew, Z.add_comm, Z.mul_comm.
    by rewrite Z_mod_plus_full. }
  assert (Hcr : ((a + val + carry) / 256 =
                 a / 256 + val / 256 + if bool_decide (Z.land newb 256 ≠ 0)%Z then 1 else 0)%Z).
  { rewrite Hnew, Z.mul_comm, Z.div_add_l by lia. f_equal.
    pose proof (carry_bit newb ltac:(lia)) as Hbit.
    destruct (decide (256 ≤ newb)%Z) as [Hcb|Hcb];
      [rewrite bool_decide_eq_true_2 by tauto|rewrite bool_decide_eq_false_2 by tauto].
    - symmetry. apply (Z.div_unique newb 256 1 (newb - 256)); lia.
    - apply Z.div_small. lia. }
  rewrite Hb, Hcr. replace (Z.of_nat (S n) - 1 - 1)%Z with (Z.of_nat n - 1)%Z by lia.
  rewrite (IH n); [done|lia|apply Z.div_pos; lia|case_bool_decide; auto].
Qed.

Lemma Add_value v c :
  (0 ≤ v)%Z → Add v c = Ok (mkCtr (Iv c) (put_be (length (Vec c)) (get_be (Vec c) + v))).
Proof.
  intros Hv. unfold Add. pose proof (Add_from_spec (S (length (Vec c))) (length (Vec c))
    (get_be (Vec c)) [] v 0 ltac:(lia) Hv ltac:(auto)) as HA.
  rewrite put_get_be, app_nil_r, Z.add_0_r in HA by done. rewrite HA.
  unfold mbind, outcome_bind. by rewrite app_nil_r.
Qed.

(** ** Xor *)

Lemma unsigned_bxor x y : byte.unsigned (bxor x y) = Z.lxor (byte.unsigned x) (byte.unsigned y).
Proof.
  unfold bxor. rewrite unsigned_zbyte. unfold wrap. rewrite <-Z.land_ones by lia.
  assert (Hland : ∀ a b c, Z.land (Z.lxor a b) c = Z.lxor (Z.land a c) (Z.land b c)).
  { intros a b c. apply Z.bits_inj'. intros n _. rewrite Z.land_spec, !Z.lxor_spec, !Z.land_spec.
    by destruct (Z.testbit a n), (Z.testbit b n), (Z.testbit c n). }
  pose proof (byte.unsigned_range x). pose proof (byte.unsigned_range y).
  rewrite Hland, !Z.land_ones, !Z.mod_small by lia. done.
Qed.

Lemma bxor_cancel x k : bxor (bxor x k) k = x.
Proof.
  apply byte.unsigned_inj. by rewrite !unsigned_bxor, Z.lxor_assoc, Z.lxor_nilpotent, Z.lxor_0_r.
Qed.

Lemma xor_cancel (a k : bytes) :
  length a ≤ length k → zip_with bxor (zip_with bxor a k) k = a.
Proof.
  revert k. induction a as [|x a IH]; intros [|y k] Hl; simpl in *; [done..|lia|].
  rewrite bxor_cancel. f_equal. apply IH. lia.
Qed.

(** ** Counter mode *)
Section Spec.
Context {B : Block} {Bok : BlockOk}.

(** The counter after [k] increments, and [n] blocks of key stream from block
    [i] on. *)
Definition ctr_at (iv : bytes) (k : Z) : bytes := put_be BlockSize (get_be iv + k).
Definition keystream (iv : bytes) (i n : nat) : bytes :=
  concat ((λ j, Encrypt (ctr_at iv (Z.of_nat j))) <$> seq i n).

Definition padding (d : bytes) : bytes :=
  d ++ Byte.x80 :: replicate (BlockSize - 1 - length d mod BlockSize) b0.
Definition nblocks (d : bytes) : nat := S (length d / BlockSize).

Definition crypt_file (iv d : bytes) : bytes :=
  iv ++ zip_with bxor (padding d) (keystream iv 0 (nblocks d)).

Lemma length_ctr_at iv k : length (ctr_at iv k) = BlockSize.
Proof. apply length_put_be. Qed.

Lemma length_keystream iv i n : length (keystream iv i n) = n * BlockSize.
Proof.
  revert i. induction n as [|n IH]; intros i; [done|]. unfold keystream in *. simpl.
  rewrite length_app, IH, Encrypt_len by apply length_ctr_at. lia.
Qed.

Lemma keystream_app iv i n m :
  keystream iv i (n + m) = keystream iv i n ++ keystream iv (i + n) m.
Proof. unfold keystream. by rewrite seq_app, fmap_app, concat_app. Qed.

Lemma keystream_1 iv i : keystream iv i 1 = Encrypt (ctr_at iv (Z.of_nat i)).
Proof. unfold keystream. simpl. apply app_nil_r. Qed.

Lemma length_padding d : length (padding d) = nblocks d * BlockSize.
Proof.
  pose proof block_pos. unfold padding, nblocks. rewrite length_app. simpl.
  rewrite length_replicate. pose proof (Nat.div_mod_eq (length d) BlockSize).
  pose proof (Nat.mod_upper_bound (length d) BlockSize). lia.
Qed.

Lemma length_crypt_file iv d :
  length iv = BlockSize → length (crypt_file iv d) = (1 + nblocks d) * BlockSize.
Proof.
  intros Hiv. unfold crypt_file. rewrite length_app, length_zip_with, length_padding,
    length_keystream, Hiv. lia.
Qed.

Lemma zip_with_app_len {A C D} (f : A → C → D) l1 l2 k1 k2 :
  length l1 = length k1 → zip_with f (l1 ++ l2) (k1 ++ k2) = zip_with f l1 k1 ++ zip_with f l2 k2.
Proof. intros. by apply zip_with_app. Qed.

Lemma ctr_at_Add iv k v vec :
  vec = ctr_at iv k → (0 ≤ v)%Z →
  Add v (mkCtr iv vec) = Ok (mkCtr iv (ctr_at iv (k + v))).
Proof.
  intros -> Hv. rewrite Add_value by done. simpl. rewrite length_ctr_at. do 2 f_equal.
  unfold ctr_at. rewrite get_put_be. unfold wrap. rewrite Z.pow_mul_r by lia.
  change (2 ^ 8)%Z with 256%Z. rewrite <-(put_be_wrap _ (_ mod _ + v)), Zplus_mod_idemp_l, put_be_wrap.
  f_equal. lia.
Qed.

Lemma ctr_at_0 iv : length iv = BlockSize → ctr_at iv 0 = iv.
Proof. intros. unfold ctr_at. rewrite Z.add_0_r. by apply put_get_be. Qed.
End Spec.

(** ** The writer *)
Section Writer.
Context {B : Block} {Bok : BlockOk} {W : Type} `{IoWriterLaws W}.
Implicit Types (w : Writer W).

(** [blocks w iv full k]: [full], [k] whole blocks, has been encrypted and
    written; the next block uses counter [k]. *)
Record blocks w (iv full : bytes) (k : nat) : Prop := mkBlocks {
  bl_iv : length iv = BlockSize;
  bl_full : length full = k * BlockSize;
  bl_written : written (w_w w) (iv ++ zip_with bxor full (keystream iv 0 k));
  bl_ctr : w_ctr w = mkCtr iv (ctr_at iv (Z.of_nat k));
  bl_buf : length (w_buf w) = BlockSize;
}.

Lemma flushBlock_spec w iv full k Q E :
  blocks w iv full k →
  (∀ w', blocks w' iv (full ++ w_buf w) (S k) → w_nbuf w' = 0 → Q () w') →
  (∀ e w', write_fails e → E e w') →
  wp flushBlock Q E w.
Proof.
  intros [Hiv Hfull Hw Hc Hb] HQ HE. unfold flushBlock. wp_steps. rewrite Hc. simpl.
  unfold Xor. assert (Henc : length (Encrypt (ctr_at iv (Z.of_nat k))) = BlockSize)
    by (apply Encrypt_len, length_ctr_at).
  rewrite bool_decide_eq_true_2 by lia. wp_steps. simpl.
  eapply wp_mono; [by apply io_write_law|..]; cbn beta.
  - intros [] f Hf. wp_steps. simpl. rewrite Hc, (ctr_at_Add _ (Z.of_nat k)) by (done || lia).
    wp_steps. apply HQ; [|done]. split; simpl; try done.
    + rewrite length_app, Hb, Hfull. lia.
    + rewrite <-Nat.add_1_r, keystream_app, keystream_1.
      rewrite zip_with_app_len by (rewrite length_keystream; lia).
      by rewrite app_assoc.
    + do 2 f_equal. lia.
    + rewrite length_zip_with. lia.
  - intros e f Hf. wp_steps. simpl. rewrite Hc, (ctr_at_Add _ (Z.of_nat k)) by (done || lia).
    wp_steps. auto.
Qed.

(** [d] is the content written so far. *)
Definition encrypting w (d : bytes) : Prop :=
  ∃ iv full tail k, blocks w iv full k ∧ d = full ++ tail ∧ w_nbuf w = length tail ∧
    length tail < BlockSize ∧ take (length tail) (w_buf w) = tail.

Lemma NewWriter_spec iv (f : W) :
  written f [] → length iv = BlockSize →
  wp (NewWriter (Ok iv)) (λ _ w, encrypting w []) (λ e _, write_fails e) (blank_writer f).
Proof.
  intros Hf Hiv. unfold NewWriter. wp_steps. simpl.
  eapply wp_mono; [by apply io_write_law| |done]. cbn beta. intros [] f' Hf'. wp_steps.
  exists iv, [], [], 0. pose proof block_pos. split_and!; try done.
  split; simpl; try done.
  - by rewrite app_nil_r.
  - unfold newCtrState. by rewrite ctr_at_0.
  - apply length_replicate.
Qed.

Lemma Write_from_spec fuel w d buf :
  encrypting w d → length buf < fuel →
  wp (Write_from fuel buf) (λ n w', n = length buf ∧ encrypting w' (d ++ buf))
    (λ e _, write_fails e) w.
Proof.
  revert w d buf. induction fuel as [|fuel IH]; intros w d buf Hw Hf; [lia|].
  destruct Hw as (iv & full & tail & k & Hbl & -> & Hn & Hlt & Htk).
  pose proof (bl_buf _ _ _ _ Hbl) as Hb. cbn [Write_from]. wp_steps. rewrite Hn, Hb.
  set (n := Nat.min (BlockSize - length tail) (length buf)).
  assert (Hcp : copy_at (w_buf w) (length tail) BlockSize buf =
                Ok (splice (w_buf w) (length tail) (take (BlockSize - length tail) buf))).
  { unfold copy_at. by rewrite decide_True by lia. }
  set (blk := splice (w_buf w) (length tail) (take (BlockSize - length tail) buf)) in *.
  assert (Htn : take (BlockSize - length tail) buf = take n buf).
  { unfold n. destruct (decide (BlockSize - length tail ≤ length buf)).
    - by rewrite Nat.min_l by lia.
    - rewrite Nat.min_r by lia. by rewrite !take_ge by lia. }
  assert (Hln : length (take n buf) = n) by (rewrite length_take; unfold n; lia).
  assert (Hblk : take (length tail + n) blk = tail ++ take n buf).
  { unfold blk. rewrite Htn. rewrite <-Hln at 1. rewrite take_splice by lia. by rewrite Htk. }
  assert (Hlb : length blk = BlockSize) by (unfold blk; rewrite length_splice; lia).
  eapply wp_lift_ok; [done|]. wp_steps. case_bool_decide as Hfull; wp_steps.
  - assert (n = length buf) as Hnb by (unfold n in *; lia). split; [done|].
    exists iv, full, (tail ++ buf), k. rewrite Hnb in *. rewrite (take_ge buf) in * by lia.
    rewrite length_app, app_assoc. split_and!; try done; [|lia]. destruct Hbl. by split.
  - eapply (flushBlock_spec _ iv full k); [by destruct Hbl|..]; [|by auto].
    intros w' Hbl' Hn'. simpl in Hbl'.
    assert (Hne : 1 ≤ n) by lia. wp_step.
    eapply wp_mono; [apply (IH w' (full ++ blk) (drop n buf))| |done].
    + exists iv, (full ++ blk), [], (S k). pose proof block_pos.
      rewrite app_nil_r. by split_and!.
    + rewrite length_drop. lia.
    + cbn beta. intros nw w'' [-> He]. wp_step. rewrite length_drop. split; [unfold n; lia|].
      rewrite (take_ge blk) in Hblk by lia. rewrite Hblk in He.
      rewrite <-!app_assoc, take_drop in He. by rewrite <-app_assoc.
Qed.

Lemma crypt_Write_spec w d buf :
  encrypting w d →
  wp (Write buf) (λ n w', n = length buf ∧ encrypting w' (d ++ buf)) (λ e _, write_fails e) w.
Proof. intros. apply Write_from_spec; [done|lia]. Qed.

Definition encrypted w (d : bytes) : Prop :=
  ∃ iv, length iv = BlockSize ∧ finished (w_w w) (crypt_file iv d).

Lemma crypt_Close_spec w d :
  encrypting w d → wp CloseWriter (λ _ w', encrypted w' d) (λ e _, write_fails e) w.
Proof.
  intros (iv & full & tail & k & Hbl & -> & Hn & Hlt & Htk).
  pose proof (bl_buf _ _ _ _ Hbl) as Hb. pose proof (bl_full _ _ _ _ Hbl) as Hfull.
  unfold CloseWriter. wp_steps.
  rewrite Hn, Hb, Htk. rewrite set_idx_ok by (rewrite length_app, length_replicate; lia).
  rewrite insert_app_r_alt, Nat.sub_diag by lia.
  destruct (BlockSize - length tail) as [|m] eqn:Hm; [lia|]. simpl. wp_steps.
  eapply (flushBlock_spec _ iv full k); [|intros w' Hbl' _|by auto].
  - destruct Hbl. split; simpl; try done. rewrite length_app. simpl. rewrite length_replicate. lia.
  - wp_steps. simpl in Hbl'. destruct Hbl' as [Hiv _ Hw _ _].
    eapply wp_mono; [by apply io_wclose_law| |done]. cbn beta. intros [] f Hf. exists iv.
    split; [done|]. simpl.
    assert (Hdiv : length (full ++ tail) / BlockSize = k ∧
                   length (full ++ tail) mod BlockSize = length tail).
    { rewrite length_app, Hfull. split.
      - symmetry. apply (Nat.div_unique _ _ _ (length tail)); lia.
      - symmetry. apply (Nat.mod_unique _ _ k); lia. }
    destruct Hdiv as [Hd1 Hd2]. unfold crypt_file, nblocks, padding. rewrite Hd1, Hd2.
    replace (BlockSize - 1 - length tail) with m by lia. by rewrite <-app_assoc.
Qed.

(** A cryptofile writer is an [io.WriteCloser]. *)
#[global] Instance crypt_writer : IoWriter (Writer W) :=
  {| io_write b := (_ ← Write b; mret ()); io_wclose := CloseWriter |}.

#[global] Program Instance crypt_writer_laws : IoWriterLaws (Writer W) :=
  {| written := encrypting; finished := encrypted; write_fails := write_fails |}.
Next Obligation.
  intros w d b Hw. simpl. wp_step. eapply wp_mono; [by apply crypt_Write_spec| |done].
  cbn beta. intros n w' [_ ?]. by wp_step.
Qed.
Next Obligation. intros w d Hw. by apply crypt_Close_spec. Qed.
End Writer.

(** ** The reader *)

(** The end marker is found behind the content, whatever bytes that has. *)
Lemma find_pad_spec (a : bytes) m j :
  j ≤ m → find_pad (a ++ Byte.x80 :: replicate m b0) (length a + S j) = Ok (length a).
Proof.
  induction j as [|j IH]; intros Hj.
  - rewrite Nat.add_1_r. simpl. rewrite (idx_ok _ _ Byte.x80); [done|].
    rewrite lookup_app_r by lia. by rewrite Nat.sub_diag.
  - rewrite Nat.add_succ_r. cbn [find_pad].
    rewrite (idx_ok _ _ b0); [unfold mbind, outcome_bind|].
    + rewrite bool_decide_eq_false_2 by done. apply IH. lia.
    + rewrite lookup_app_r by lia. replace (length a + S j - length a) with (S j) by lia.
      simpl. apply lookup_replicate. split; [done|lia].
Qed.

Section Reader.
Context {B : Block} {Bok : BlockOk} {R : Type} `{ReadSeekCloserLaws R}.
(** A read error at an unaligned offset makes [Read] panic (see
    [cryptofile_read_error_panics]), so the laws of the reader are those of a file
    that does not fail. *)
Context (no_read_fails : ∀ e, ¬ read_fails e) (no_seek_fails : ∀ e, ¬ seek_fails e).
Implicit Types (r : Reader R).

(** The reader is open on the file of content [d]. *)
Record decrypting r (d : bytes) : Prop := mkDecrypting {
  dc_iv : length (Iv (r_ctr r)) = BlockSize;
  dc_vec : length (Vec (r_ctr r)) = BlockSize;
  dc_file : ∃ q, at_pos (r_r r) (crypt_file (Iv (r_ctr r)) d) q;
  dc_size : r_size r = Z.of_nat (nblocks d * BlockSize);
  dc_bound : (Z.of_nat ((1 + nblocks d) * BlockSize) < 2 ^ 63)%Z;
}.

Lemma decrypt_spec n i idx iv (pre rest : bytes) r Q E :
  length pre = i * BlockSize → length rest = n * BlockSize →
  r_ctr r = mkCtr iv (ctr_at iv (Z.of_nat (idx + i))) →
  (∀ r', r_r r' = r_r r → r_size r' = r_size r → r_offset r' = r_offset r →
     Iv (r_ctr r') = iv → length (Vec (r_ctr r')) = BlockSize →
     Q (pre ++ zip_with bxor rest (keystream iv (idx + i) n)) r') →
  wp (decrypt n i (pre ++ rest)) Q E r.
Proof.
  revert i pre rest r. induction n as [|n IH]; intros i pre rest r Hpre Hrest Hc HQ; simpl.
  { destruct rest; [|done]. wp_step. apply HQ; try done; rewrite Hc; [done|apply length_ctr_at]. }
  assert (Henc : ∀ k, length (Encrypt (ctr_at iv k)) = BlockSize)
    by (intros; apply Encrypt_len, length_ctr_at).
  rewrite <-(take_drop BlockSize rest) in HQ |- *.
  set (blk := take BlockSize rest) in *. set (rest' := drop BlockSize rest) in *.
  assert (Hblk : length blk = BlockSize) by (unfold blk; rewrite length_take; lia).
  assert (Hrest' : length rest' = n * BlockSize) by (unfold rest'; rewrite length_drop; lia).
  wp_step. eapply wp_lift_ok; [apply slice_ok; [lia|rewrite !length_app; lia]|].
  rewrite <-Hpre, drop_app_length, take_app_length' by lia.
  wp_steps. rewrite Hc. simpl. unfold Xor. rewrite bool_decide_eq_true_2 by (by rewrite Henc).
  wp_step. wp_step. rewrite (ctr_at_Add _ (Z.of_nat (idx + i))) by (done || lia). wp_steps.
  set (x := zip_with bxor blk _).
  assert (Hx : length x = BlockSize) by (unfold x; rewrite length_zip_with, Henc; lia).
  assert (splice (pre ++ blk ++ rest') (length pre) x = (pre ++ x) ++ rest') as ->.
  { rewrite splice_fits by (rewrite !length_app; lia). rewrite take_app_length.
    rewrite <-drop_drop, drop_app_length, drop_app_length' by lia. by rewrite <-app_assoc. }
  eapply (IH (S i)); [rewrite length_app; lia|done|simpl; do 2 f_equal; lia|].
  simpl. intros r' ? ? ? ? ?.
  replace ((pre ++ x) ++ zip_with bxor rest' (keystream iv (idx + S i) n))
    with (pre ++ zip_with bxor (blk ++ rest') (keystream iv (idx + i) (S n))); [by apply HQ|].
  rewrite <-app_assoc. f_equal. change (S n) with (1 + n).
  rewrite keystream_app, keystream_1, zip_with_app_len by (by rewrite Henc).
  unfold x. do 3 f_equal. lia.
Qed.

(** The [t] blocks of the file from block [i] on. *)
Lemma crypt_file_blocks iv d i t :
  length iv = BlockSize → i + t ≤ nblocks d →
  take (t * BlockSize) (drop ((1 + i) * BlockSize) (crypt_file iv d)) =
  zip_with bxor (take (t * BlockSize) (drop (i * BlockSize) (padding d))) (keystream iv i t).
Proof.
  intros Hiv Hle. unfold crypt_file. pose proof (length_padding d) as Hlp.
  replace ((1 + i) * BlockSize) with (length iv + i * BlockSize) by lia.
  rewrite drop_app_add. rewrite <-(take_drop (i * BlockSize) (padding d)) at 1.
  set (p2 := drop (i * BlockSize) (padding d)).
  assert (Hp1 : length (take (i * BlockSize) (padding d)) = i * BlockSize)
    by (apply length_take_le; nia).
  assert (Hp2 : length p2 = (nblocks d - i) * BlockSize) by (unfold p2; rewrite length_drop; nia).
  replace (nblocks d) with (i + (nblocks d - i)) by lia.
  rewrite keystream_app, zip_with_app_len by (rewrite length_keystream; lia).
  rewrite drop_app_length' by (rewrite length_zip_with, length_keystream; lia). simpl.
  rewrite <-(take_drop (t * BlockSize) p2) at 1.
  assert (Hp3 : length (take (t * BlockSize) p2) = t * BlockSize) by (apply length_take_le; nia).
  replace (nblocks d - i) with (t + (nblocks d - i - t)) by lia.
  rewrite keystream_app, zip_with_app_len by (rewrite length_keystream; lia).
  apply take_app_length'. rewrite length_zip_with, length_keystream. lia.
Qed.

(** What the loaded blocks are in terms of the content. *)
Lemma blocks_content d i m t :
  i < nblocks d → 1 ≤ m → t = Nat.min m (nblocks d - i) →
  let mid := take (t * BlockSize) (drop (i * BlockSize) (padding d)) in
  let want := take (m * BlockSize) (drop (i * BlockSize) d) in
  length mid = t * BlockSize ∧
  (i + t = nblocks d → ∃ z, mid = want ++ Byte.x80 :: replicate z b0) ∧
  (i + t ≠ nblocks d → mid = want).
Proof.
  intros Hi Hm -> mid want. pose proof block_pos. pose proof (length_padding d) as Hlp.
  set (t := Nat.min m (nblocks d - i)) in *.
  assert (Hit : (i + t) * BlockSize ≤ nblocks d * BlockSize) by (apply Nat.mul_le_mono_r; lia).
  assert (Hlm : length mid = t * BlockSize) by (apply length_take_le; rewrite length_drop; lia).
  pose proof (Nat.div_mod_eq (length d) BlockSize) as Hdm.
  pose proof (Nat.mod_upper_bound (length d) BlockSize ltac:(lia)) as Hmod.
  assert (Hid : i * BlockSize ≤ length d) by (unfold nblocks in *; nia).
  split_and!; [done|..]; intros Hend; unfold mid, want, padding.
  - exists (BlockSize - 1 - length d mod BlockSize).
    assert (Hn : nblocks d * BlockSize = i * BlockSize + t * BlockSize) by (rewrite <-Hend; lia).
    assert (Htm : t * BlockSize ≤ m * BlockSize) by (apply Nat.mul_le_mono_r; lia).
    unfold padding in Hlp. rewrite length_app in Hlp. cbn [length] in Hlp.
    rewrite drop_app_le by lia. rewrite (take_ge (drop _ d)) by (rewrite length_drop; lia).
    apply take_ge. rewrite length_app, length_drop. cbn [length]. lia.
  - assert (t = m) as -> by lia.
    rewrite drop_app_le, take_app_le by (rewrite ?length_drop; unfold nblocks in *; nia). done.
Qed.

Lemma readBlocks_spec r d i m :
  decrypting r d → 1 ≤ m →
  wp (readBlocks (Z.of_nat i) (m * BlockSize))
    (λ buf r', buf = take (m * BlockSize) (drop (i * BlockSize) d) ∧ buf ≠ [] ∧
               decrypting r' d ∧ r_offset r' = r_offset r)
    (λ e r', e = EOF ∧ length d ≤ i * BlockSize ∧ decrypting r' d ∧ r_offset r' = r_offset r) r.
Proof.
  intros Hdec Hm. pose proof Hdec as [Hiv Hvec [q Hat] Hsz Hbd]. pose proof block_pos.
  unfold readBlocks, blocksz. rewrite Z.rem_mod_nonneg by lia.
  rewrite Nat2Z.inj_mul, Z_mod_mult, bool_decide_eq_false_2, Nat.div_mul by (lia || auto).
  wp_steps. rewrite Hsz.
  case_bool_decide as Hend; wp_steps.
  { split_and!; try done. unfold nblocks in *. pose proof (Nat.div_mod_eq (length d) BlockSize).
    pose proof (Nat.mod_upper_bound (length d) BlockSize ltac:(lia)). nia. }
  assert (Hi : i < nblocks d) by nia. set (t := Nat.min m (nblocks d - i)).
  destruct (blocks_content d i m t) as (Hlm & Hmid1 & Hmid2); [done..|].
  set (mid := take (t * BlockSize) (drop (i * BlockSize) (padding d))) in *.
  set (want := take (m * BlockSize) (drop (i * BlockSize) d)) in *.
  match goal with |- context [ReadFull ?l] => assert (l = t * BlockSize) as -> end.
  { case_bool_decide; unfold t; nia. }
  replace ((1 + Z.of_nat i) * Z.of_nat BlockSize)%Z with (Z.of_nat ((1 + i) * BlockSize)) by lia.
  set (iv := Iv (r_ctr r)) in *. pose proof (length_crypt_file iv d Hiv) as Hlc.
  unfold on_r. wp_step. eapply wp_mono; [eapply io_seek_law; [done|nia]| |].
  2: { intros e ? Hs. by destruct (no_seek_fails e). }
  cbn beta. intros _ f1 [-> Hat1]. wp_steps. simpl.
  eapply wp_mono; [by apply ReadFull_spec| |].
  2: { intros e ? [(_ & Hs & _)|[Hs|[_ Hs]]]; [unfold t in *; nia|by edestruct no_read_fails..]. }
  cbn beta. intros data f2 (-> & _ & Hat2 & _).
  change (BlockSize + i * BlockSize) with ((1 + i) * BlockSize).
  rewrite crypt_file_blocks by (done || lia). fold mid. wp_steps. simpl.
  assert (Reset (r_ctr r) = mkCtr iv (ctr_at iv 0)) as ->.
  { unfold Reset. f_equal. rewrite ctr_at_0 by done. unfold splice. fold iv.
    rewrite take_0, take_ge by lia. simpl. rewrite drop_ge by lia. apply app_nil_r. }
  rewrite wrap_small by nia. rewrite (ctr_at_Add _ 0) by (done || lia). wp_steps.
  set (xmid := zip_with bxor mid (keystream iv i t)).
  assert (Hxm : length xmid = t * BlockSize)
    by (unfold xmid; rewrite length_zip_with, length_keystream; lia).
  set (scratch := xmid ++ replicate (m * BlockSize - t * BlockSize) b0).
  apply (decrypt_spec m 0 i iv [] scratch); [done| |simpl; do 2 f_equal; lia|].
  { unfold scratch. rewrite length_app, length_replicate. unfold t in *. nia. }
  simpl. intros r' Hr1 Hr2 Hr3 Hr4 Hr5. rewrite Nat.add_0_r.
  assert (take (t * BlockSize) (zip_with bxor scratch (keystream iv i m)) = mid) as ->.
  { unfold scratch. replace m with (t + (m - t)) at 2 by lia.
    rewrite keystream_app, zip_with_app_len by (rewrite length_keystream; lia).
    rewrite take_app_length' by (rewrite length_zip_with, length_keystream; lia).
    apply xor_cancel. rewrite length_keystream. lia. }
  assert (Hdec' : decrypting r' d ∧ r_offset r' = r_offset r).
  { split; [|done]. split; rewrite ?Hr4; try done; [by rewrite Hr1; eauto|by rewrite Hr2]. }
  wp_step. apply (wp_mono _ (λ buf r', buf = want ∧ decrypting r' d ∧ r_offset r' = r_offset r)
    _ (λ _ _, False)); [| |done].
  - case_bool_decide as Hlast; wp_steps.
    + destruct Hmid1 as [z Hz]; [nia|]. rewrite Hz.
      assert (Hl : length want + S z = t * BlockSize)
        by (rewrite <-Hlm, Hz, length_app; simpl; rewrite length_replicate; lia).
      rewrite <-Hl, find_pad_spec by lia. wp_steps. rewrite take_app_length. done.
    + rewrite Hmid2; [done|nia].
  - cbn beta. intros buf r'' (-> & ? & ?). case_bool_decide as Hemp; wp_step; [|done].
    split_and!; try done. apply (f_equal length) in Hemp. unfold want in Hemp.
    rewrite length_take, length_drop in Hemp. simpl in Hemp. nia.
Qed.

(** [Read] rounds its buffer up to whole blocks. *)
Lemma round_up n :
  1 ≤ n → ∃ m, 1 ≤ m ∧ n ≤ m * BlockSize ∧
  (if bool_decide (Z.rem (Z.of_nat n) blocksz ≠ 0)%Z
   then (Z.of_nat n + (blocksz - Z.rem (Z.of_nat n) blocksz))%Z else Z.of_nat n) =
  Z.of_nat (m * BlockSize).
Proof.
  intros Hn. pose proof block_pos. unfold blocksz. rewrite Z.rem_mod_nonneg by lia.
  rewrite <-Nat2Z.inj_mod. pose proof (Nat.div_mod_eq n BlockSize) as Hdm.
  pose proof (Nat.mod_upper_bound n BlockSize ltac:(lia)) as Hmod.
  case_bool_decide as Hz.
  - exists (S (n / BlockSize)). split_and!; [lia|nia|]. nia.
  - exists (n / BlockSize). assert (n mod BlockSize = 0) as Hz' by lia.
    split_and!; [|lia|lia]. destruct (n / BlockSize); lia.
Qed.

Definition positioned r d (p : nat) : Prop :=
  decrypting r d ∧ r_offset r = Z.of_nat p ∧ p ≤ length d.

Lemma decrypting_offset r d o : decrypting r d → decrypting (r_set_offset o r) d.
Proof. intros []. by split. Qed.

Lemma crypt_Read_spec r d p n :
  positioned r d p → 1 ≤ n →
  wp (Read n)
    (λ b r', b ≠ [] ∧ length b ≤ n ∧ positioned r' d (p + length b) ∧
             b = take (length b) (drop p d) ∧ p + length b ≤ length d)
    (λ e _, e = EOF ∧ length d ≤ p) r.
Proof.
  intros (Hdec & Ho & Hp) Hn. pose proof block_pos. unfold Read.
  rewrite bool_decide_eq_false_2 by lia. wp_steps. rewrite Ho.
  pose proof (Nat.div_mod_eq p BlockSize) as Hdm.
  pose proof (Nat.mod_upper_bound p BlockSize ltac:(lia)) as Hmod.
  set (i := p / BlockSize) in *. set (sh := p mod BlockSize) in *.
  assert ((Z.of_nat p - Z.rem (Z.of_nat p) blocksz)%Z = Z.of_nat (i * BlockSize)) as ->.
  { unfold blocksz. rewrite Z.rem_mod_nonneg, <-Nat2Z.inj_mod by lia. fold sh. lia. }
  replace (Z.of_nat p - Z.of_nat (i * BlockSize))%Z with (Z.of_nat sh) by lia.
  replace (Z.of_nat n + Z.of_nat sh)%Z with (Z.of_nat (n + sh)) by lia.
  destruct (round_up (n + sh)) as (m & Hm & Hle & ->); [lia|]. rewrite !Nat2Z.id.
  assert (Z.quot (Z.of_nat (i * BlockSize)) blocksz = Z.of_nat i) as ->.
  { unfold blocksz. rewrite Nat2Z.inj_mul. apply Z.quot_mul. lia. }
  eapply wp_mono; [by apply (readBlocks_spec r d i m)|..]; cbn beta.
  - intros buf r' (-> & Hne & Hdec' & Ho'). set (buf := take _ _) in *.
    assert (Hlb : length buf = Nat.min (m * BlockSize) (length d - i * BlockSize))
      by (unfold buf; by rewrite length_take, length_drop).
    wp_step. eapply wp_lift_ok; [apply slice_ok; lia|]. wp_steps.
    assert (Hout : take n (take (length buf - sh) (drop sh buf)) = take n (drop p d)).
    { rewrite (take_ge (drop sh buf)) by (rewrite length_drop; lia). unfold buf.
      rewrite skipn_firstn_comm, take_take, drop_drop. f_equal; [lia|]. f_equal. lia. }
    rewrite Hout. set (out := take n (drop p d)).
    assert (Hlo : length out = Nat.min n (length d - p))
      by (unfold out; by rewrite length_take, length_drop).
    case_bool_decide as Hemp; wp_step.
    + split; [done|]. apply (f_equal length) in Hemp. rewrite Hlo in Hemp. simpl in Hemp. lia.
    + split_and!; [done|lia| | |lia].
      * split_and!; [by apply decrypting_offset|simpl; lia|lia].
      * rewrite Hlo. unfold out. rewrite <-(length_drop d p).
        destruct (decide (n ≤ length (drop p d))); [by rewrite Nat.min_l by lia|].
        rewrite Nat.min_r by lia. by rewrite !take_ge by lia.
  - intros e r' (-> & Hend & Hdec' & Ho'). assert (sh = 0) as -> by lia. wp_steps. split; [done|lia].
Qed.

Lemma Seek_spec r d p off :
  positioned r d p → off ≤ length d →
  wp (Seek (Z.of_nat off) 0) (λ o r', o = Z.of_nat off ∧ positioned r' d off) (λ _ _, False) r.
Proof.
  intros (Hdec & Ho & Hp) Hoff. pose proof (dc_size _ _ Hdec) as Hsz.
  pose proof (length_padding d) as Hlp. unfold padding in Hlp. rewrite length_app in Hlp.
  unfold Seek. rewrite bool_decide_eq_false_2 by auto. wp_steps.
  rewrite (bool_decide_eq_false_2 (Z.of_nat off < 0)%Z) by lia.
  rewrite bool_decide_eq_false_2 by lia. wp_steps.
  split; [done|]. split_and!; [by apply decrypting_offset|done|done].
Qed.

Lemma SizeOf_spec r d p :
  positioned r d p →
  wp SizeOf (λ n r', n = Z.of_nat (length d) ∧ positioned r' d p) (λ _ _, False) r.
Proof.
  intros (Hdec & Ho & Hp). pose proof (dc_size _ _ Hdec) as Hsz. pose proof block_pos.
  unfold SizeOf. wp_steps. rewrite Hsz.
  assert (Z.quot (Z.of_nat (nblocks d * BlockSize)) blocksz - 1 = Z.of_nat (length d / BlockSize))%Z
    as ->.
  { unfold blocksz. rewrite Nat2Z.inj_mul, Z.quot_mul by lia. unfold nblocks. lia. }
  pose proof (Nat.div_mod_eq (length d) BlockSize) as Hdm.
  pose proof (Nat.mod_upper_bound (length d) BlockSize ltac:(lia)) as Hmod.
  pose proof (readBlocks_spec r d (length d / BlockSize) 1 Hdec ltac:(lia)) as Hrd.
  rewrite Nat.mul_1_l in Hrd. eapply wp_mono; [exact Hrd|..]; cbn beta.
  - intros buf r' (-> & _ & Hdec' & Ho'). wp_step. unfold blocksz.
    rewrite length_take, length_drop. split; [unfold nblocks; lia|]. split_and!; congruence.
  - intros e r' (-> & Hle & Hdec' & Ho'). wp_steps. unfold blocksz.
    split; [unfold nblocks; lia|]. split_and!; congruence.
Qed.

Lemma crypt_NewReader_spec (f : R) iv d q :
  at_pos f (crypt_file iv d) q → length iv = BlockSize →
  (Z.of_nat ((1 + nblocks d) * BlockSize) < 2 ^ 63)%Z →
  wp (NewReader (Z.of_nat (length (crypt_file iv d)))) (λ _ r, positioned r d 0)
    (λ _ _, False) (blank_reader f).
Proof.
  intros Hat Hiv Hbd. pose proof block_pos. rewrite length_crypt_file by done.
  unfold NewReader, on_r, blocksz. rewrite Z.rem_mod_nonneg by lia.
  rewrite Nat2Z.inj_mul, Z_mod_mult, bool_decide_eq_false_2 by auto. wp_steps. simpl.
  eapply wp_mono; [eapply (io_seek_law f _ q 0); [done|lia]| |].
  2: { intros e ? Hs. by destruct (no_seek_fails e). }
  cbn beta. intros _ f1 [_ Hat1]. wp_steps. simpl.
  eapply wp_mono; [by apply ReadFull_spec| |].
  2: { intros e ? [(_ & Hs & _)|[Hs|[_ Hs]]]; [|by edestruct no_read_fails..].
       rewrite length_crypt_file in Hs by done. lia. }
  cbn beta. intros b f2 (-> & _ & Hat2 & _). wp_steps. rewrite drop_0.
  assert (take BlockSize (crypt_file iv d) = iv) as ->
    by (unfold crypt_file; by apply take_app_length').
  split_and!; [|done|lia].
  split; cbn [r_ctr r_r r_size newCtrState Iv Vec]; [done|done|eauto|rewrite Hiv; lia|done].
Qed.

(** A cryptofile reader is a [ReadSeekCloser]. *)
#[global] Instance crypt_rsc : ReadSeekCloser (Reader R) :=
  {| rsc_reader := {| io_read := Read |}; io_seek off := Seek off 0; io_rclose := CloseReader |}.

Program Definition crypt_reader_laws : IoReaderLaws (Reader R) :=
  {| at_pos := positioned; read_fails e := False |}.
Next Obligation.
  intros r d p n Hp Hn. simpl. eapply wp_mono; [by apply crypt_Read_spec|done|]. by left.
Qed.
#[global] Program Instance crypt_rsc_laws : ReadSeekCloserLaws (Reader R) :=
  {| rsc_reader_laws := crypt_reader_laws; seek_fails e := False |}.
Next Obligation. intros r d p off Hp Hoff. by eapply Seek_spec. Qed.
End Reader.

(** ** Theorems *)

(** C37: [ctr.Add] is addition: the vector, read as a big-endian number, grows by
    [val] modulo 256 to its length, whatever carries that takes, and the IV is
    left alone. *)
Theorem cryptofile_ctr_add c val :
  (0 ≤ val)%Z →
  ∃ vec, Add val c = Ok (mkCtr (Iv c) vec) ∧ length vec = length (Vec c) ∧
    get_be vec = ((get_be (Vec c) + val) mod 256 ^ Z.of_nat (length (Vec c)))%Z.
Proof.
  intros Hv. exists (put_be (length (Vec c)) (get_be (Vec c) + val)).
  split_and!; [by apply Add_value|apply length_put_be|].
  rewrite get_put_be. unfold wrap. by rewrite Z.pow_mul_r by lia.
Qed.

Section Theorems.
Context {B : Block} {Bok : BlockOk}.

Section Writes.
Context {W : Type} `{IoWriterLaws W}.

Fixpoint Writes (chunks : list bytes) : M (Writer W) unit :=
  match chunks with
  | [] => mret ()
  | c :: cs => Write c;; Writes cs
  end.

Lemma crypt_Writes_spec chunks w d :
  encrypting w d →
  wp (Writes chunks) (λ _ w', encrypting w' (d ++ concat chunks)) (λ e _, write_fails e) w.
Proof.
  revert w d. induction chunks as [|c cs IH]; intros w d Hw; simpl.
  { wp_step. by rewrite app_nil_r. }
  wp_step. eapply wp_mono; [by apply crypt_Write_spec| |done]. cbn beta. intros n w' [_ Hw'].
  rewrite app_assoc. by apply IH.
Qed.
End Writes.

(** C24: what is written through a cryptofile [Writer], in any chunks, comes
    back from a [Reader] of the file: it reports the content's size without the
    padding, and [Seek] followed by [io.ReadFull] returns exactly the bytes asked
    for, or a short-read error when they run past the end.  For positions in the content, and a
    file under the reader that does not fail. *)
Theorem cryptofile_roundtrip {W : Type} `{IoWriterLaws W} {R : Type} `{ReadSeekCloserLaws R}
    (w : W) iv chunks off n :
  (∀ e : error, ¬ read_fails e) → (∀ e : error, ¬ seek_fails e) →
  written w [] → length iv = BlockSize →
  (Z.of_nat ((1 + nblocks (concat chunks)) * BlockSize) < 2 ^ 63)%Z →
  off ≤ length (concat chunks) →
  wp (NewWriter (Ok iv);; Writes chunks;; CloseWriter)
    (λ _ w', ∃ c, finished (w_w w') c ∧ ∀ (f : R) q, at_pos f c q →
       wp (NewReader (Z.of_nat (length c));;
           size ← SizeOf; Seek (Z.of_nat off) 0;; b ← ReadFull n; mret (size, b))
         (λ '(size, b) _, size = Z.of_nat (length (concat chunks)) ∧
            b = take n (drop off (concat chunks)) ∧ length b = n)
         (λ e _, (e = EOF ∨ e = UnexpectedEOF) ∧ length (concat chunks) < off + n)
         (blank_reader f))
    (λ e _, write_fails e) (blank_writer w).
Proof.
  intros Hnr Hns Hw Hiv Hbd Hoff. wp_step.
  eapply wp_mono; [by apply NewWriter_spec| |done]. cbn beta. intros [] w1 Hw1. wp_step.
  eapply wp_mono; [by apply crypt_Writes_spec| |done]. cbn beta. simpl. intros [] w2 Hw2.
  eapply wp_mono; [by apply crypt_Close_spec| |done]. cbn beta. intros [] w3 (iv' & Hiv' & Hfin).
  eexists. split; [done|]. intros f q Hat. wp_step.
  eapply wp_mono; [by eapply crypt_NewReader_spec| |done]. cbn beta. intros [] r1 Hr1. wp_step.
  eapply wp_mono; [by eapply SizeOf_spec| |done]. cbn beta. intros size r2 [-> Hr2]. wp_step.
  eapply wp_mono; [by eapply Seek_spec| |done]. cbn beta. intros _ r3 [_ Hr3]. wp_step.
  pose proof (crypt_reader_laws Hnr Hns) as HL.
  eapply wp_mono; [eapply (ReadFull_spec (H0 := crypt_reader_laws Hnr Hns)); exact Hr3|..].
  - cbn beta. intros b r4 (-> & Hl & _ & _). by wp_step.
  - cbn beta. intros e r4 [(? & ? & _)|[[]|[_ []]]]. done.
Qed.

Section Panics.
Context {R : Type} `{ReadSeekCloserLaws R}.
Context (no_read_fails : ∀ e, ¬ read_fails e) (no_seek_fails : ∀ e, ¬ seek_fails e).

(** [Seek] clamps to the padded size, so it accepts offsets inside the
    padding, and the [Read] that follows panics (a slice whose start is past
    its end) instead of reporting the end of the file. *)
Theorem cryptofile_seek_into_padding_panics (r : Reader R) d off n :
  decrypting r d → length d < off → off < nblocks d * BlockSize → 1 ≤ n →
  ∃ r', (Seek (Z.of_nat off) 0;; Read n) r = (Panic, r').
Proof using Bok no_read_fails no_seek_fails.
  intros Hdec Hlt Hoff Hn. pose proof (dc_size _ _ Hdec) as Hsz. pose proof block_pos.
  unfold mbind, M_bind, Seek. rewrite bool_decide_eq_false_2 by auto.
  unfold mbind, M_bind, get.
  rewrite (bool_decide_eq_false_2 (Z.of_nat off < 0)%Z), bool_decide_eq_false_2 by lia.
  unfold modify, mret, M_ret. set (r1 := r_set_offset (Z.of_nat off) r).
  assert (Hdec1 : decrypting r1 d) by (by apply decrypting_offset).
  unfold Read. rewrite bool_decide_eq_false_2 by lia. unfold mbind, M_bind, get.
  change (r_offset r1) with (Z.of_nat off).
  pose proof (Nat.div_mod_eq off BlockSize) as Hdm.
  pose proof (Nat.mod_upper_bound off BlockSize ltac:(lia)) as Hmod.
  set (i := off / BlockSize) in *. set (sh := off mod BlockSize) in *.
  assert ((Z.of_nat off - Z.rem (Z.of_nat off) blocksz)%Z = Z.of_nat (i * BlockSize)) as ->.
  { unfold blocksz. rewrite Z.rem_mod_nonneg, <-Nat2Z.inj_mod by lia. fold sh. lia. }
  replace (Z.of_nat off - Z.of_nat (i * BlockSize))%Z with (Z.of_nat sh) by lia.
  replace (Z.of_nat n + Z.of_nat sh)%Z with (Z.of_nat (n + sh)) by lia.
  destruct (round_up (n + sh)) as (m & Hm & Hle & ->); [lia|]. rewrite !Nat2Z.id.
  assert (Z.quot (Z.of_nat (i * BlockSize)) blocksz = Z.of_nat i) as ->.
  { unfold blocksz. rewrite Nat2Z.inj_mul. apply Z.quot_mul. lia. }
  pose proof (readBlocks_spec no_read_fails no_seek_fails r1 d i m Hdec1 Hm) as Hrd.
  assert (Hgap : length d < i * BlockSize + sh) by lia.
  assert (Hlast : i * BlockSize ≤ length d).
  { assert (i < nblocks d) by nia. unfold nblocks in *.
    pose proof (Nat.div_mod_eq (length d) BlockSize). nia. }
  unfold try, wp in *. destruct (readBlocks _ _ r1) as [[buf|e| |] r2]; try done.
  - destruct Hrd as (-> & Hne & _ & _). eexists. unfold slice, lift.
    assert (i * BlockSize < length d).
    { destruct (decide (i * BlockSize < length d)); [done|]. exfalso. apply Hne.
      by rewrite drop_ge, take_nil by lia. }
    rewrite decide_False; [done|]. rewrite length_take, length_drop. lia.
  - destruct Hrd as (-> & Hend & _ & _). eexists. unfold slice, lift.
    rewrite decide_False; [done|]. simpl. lia.
Qed.

End Panics.

(** The offset arithmetic of [Read] at a position inside the file. *)
Lemma ReadFull_broken {R : Type} `{IoReader R} (e : error) n (s : R) :
  (∀ k s, io_read k s = (Err e, s)) → 1 ≤ n → ReadFull n s = (Err e, s).
Proof.
  intros Hbr Hn. destruct n as [|n]; [lia|]. unfold ReadFull. cbn [ReadFull_from].
  unfold mbind, M_bind, try. rewrite Hbr. by rewrite andb_false_r.
Qed.

(** an error of the underlying file during a [Read] at an offset that is
    not block-aligned makes the [Read] panic rather than return the error. *)
Theorem cryptofile_read_error_panics {R : Type} `{ReadSeekCloser R} (r : Reader R) e n :
  (∀ k (s : R), io_read k s = (Err e, s)) → (∀ o (s : R), io_seek o s = (Ok o, s)) →
  (0 ≤ r_offset r < r_size r)%Z → Z.rem (r_offset r) blocksz ≠ 0%Z → n ≠ 0 →
  ∃ r', Read n r = (Panic, r').
Proof.
  intros Hbr Hsk Ho Hrem Hn. pose proof block_pos. unfold Read.
  assert (Hbz : (0 < blocksz)%Z) by (unfold blocksz; lia).
  rewrite bool_decide_eq_false_2 by done. unfold mbind at 1, M_bind at 1, get at 1.
  rewrite Z.rem_mod_nonneg in * by (unfold blocksz; lia).
  set (o := r_offset r) in *. set (sh := (o mod blocksz)%Z) in *.
  assert (Hsh : (0 < sh < blocksz)%Z).
  { pose proof (Z.mod_pos_bound o blocksz Hbz). unfold sh in *. lia. }
  assert (Ho' : (o - sh = blocksz * (o / blocksz))%Z).
  { pose proof (Z.div_mod o blocksz). unfold sh. lia. }
  replace (o - (o - sh))%Z with (Z.of_nat (Z.to_nat sh)) by lia.
  replace (Z.of_nat n + Z.of_nat (Z.to_nat sh))%Z with (Z.of_nat (n + Z.to_nat sh)) by lia.
  destruct (round_up (n + Z.to_nat sh)) as (m & Hm & Hle & ->); [lia|].
  rewrite Ho', !Nat2Z.id, Z.mul_comm, Z.quot_mul by (unfold blocksz; lia).
  set (i := (o / blocksz)%Z) in *. assert (0 ≤ i)%Z by (apply Z.div_pos; lia).
  assert (Hrb : ∃ r', readBlocks i (m * BlockSize) r = (Err e, r')).
  { unfold readBlocks. rewrite Z.rem_mod_nonneg by (unfold blocksz; lia).
    rewrite Nat2Z.inj_mul. unfold blocksz at 1.
    rewrite bool_decide_eq_false_2 by (rewrite Z_mod_mult; auto).
    unfold mbind, M_bind, get. rewrite bool_decide_eq_false_2 by nia.
    unfold on_r, zoom. rewrite Hsk. rewrite (ReadFull_broken e); [by eexists|done|].
    case_bool_decide; nia. }
  destruct Hrb as [r' Hrb]. exists r'. unfold mbind, M_bind, try. rewrite Hrb.
  unfold slice, lift. rewrite decide_False; [done|]. simpl. lia.
Qed.
End Theorems.

(** ** A concrete cipher, that of the package's own tests *)
Module Demo.
Definition xor_block : Block :=
  {| BlockSize := 4; Encrypt b := (λ x, bxor x Byte.xf0) <$> b |}.
#[local] Existing Instance xor_block.
#[local] Instance xor_block_ok : BlockOk.
Proof. split; simpl; [lia|]. intros b. by rewrite length_fmap. Qed.

Definition iv : bytes := [Byte.xff; Byte.xff; Byte.xff; Byte.xfe].
Definition chunks : list bytes := [nbyte <$> seq 120 7; []; nbyte <$> seq 127 3].

(** The counter carries through the whole vector, and the data has a byte that
    looks like the padding. *)
Example file_runs :
  match (NewWriter (Ok iv);; Writes chunks;; CloseWriter) (blank_writer (mkMemSink [] false)) with
  | (Ok _, w) =>
    let c := k_data (w_w w) in
    fst ((NewReader (Z.of_nat (length c));; size ← SizeOf; Seek 3 0;; b ← ReadFull 7; mret (size, b))
           (blank_reader (mkMemFile c 0)))
    = Ok (10%Z, nbyte <$> seq 123 7)
  | _ => False
  end.
Proof. by vm_compute. Qed.

Lemma cryptofile_ctr_add_witness :
  ∃ vec, Add 2 (mkCtr iv iv) = Ok (mkCtr iv vec) ∧ length vec = 4 ∧
    get_be vec = ((get_be iv + 2) mod 256 ^ 4)%Z.
Proof. apply (cryptofile_ctr_add (mkCtr iv iv) 2). lia. Defined.

Lemma cryptofile_roundtrip_witness :
  wp (NewWriter (Ok iv);; Writes chunks;; CloseWriter)
    (λ _ w', ∃ c, finished (w_w w') c ∧ ∀ (f : MemFile) q, at_pos f c q →
       wp (NewReader (Z.of_nat (length c));;
           size ← SizeOf; Seek 3 0;; b ← ReadFull 7; mret (size, b))
         (λ '(size, b) _, size = 10%Z ∧ b = take 7 (drop 3 (concat chunks)) ∧ length b = 7)
         (λ e _, (e = EOF ∨ e = UnexpectedEOF) ∧ 10 < 3 + 7) (blank_reader f))
    (λ e _, write_fails e) (blank_writer (mkMemSink [] false)).
Proof.
  apply (cryptofile_roundtrip (R := MemFile) (mkMemSink [] false) iv chunks 3 7);
    [intros e; tauto|intros e; tauto|done|done|done|simpl; lia].
Defined.

(** A reader open on the file of ten bytes. *)
Definition ten : bytes := concat chunks.
Definition open_reader : Reader MemFile :=
  mkReader (mkMemFile (crypt_file iv ten) 0) 12 0 (mkCtr iv iv) iv.

Lemma cryptofile_seek_into_padding_panics_witness :
  ∃ r', (Seek 11 0;; Read 5) open_reader = (Panic, r').
Proof.
  apply (cryptofile_seek_into_padding_panics memfile_no_read_fails memfile_no_seek_fails
           open_reader ten 11 5); [|simpl; lia|simpl; lia|lia].
  split; [done|done|by exists 0|done|simpl; lia].
Defined.

(** A file of which every read fails. *)
Definition broken : ReadSeekCloser unit :=
  {| rsc_reader := {| io_read n := throw (ENew "i/o error") |};
     io_seek o := mret o; io_rclose := mret () |}.
#[local] Existing Instance broken.

Lemma cryptofile_read_error_panics_witness :
  ∃ r', Read 1 (mkReader () 12 5 (mkCtr iv iv) iv) = (Panic, r').
Proof.
  by apply (cryptofile_read_error_panics (mkReader () 12 5 (mkCtr iv iv) iv) (ENew "i/o error") 1).
Defined.
End Demo.
