(* ===== verification/Encrypted.v ===== *)
(** Encrypted packs, bpack/encrypted.go: a pack written and read through a
    cryptofile.  The constructors compose the two packages; the theorem composes
    their two halves through the [Io] interfaces. *)

From Stdlib Require Import ZArith Lia.
From stdpp Require Import base list gmap strings.
From S2P Require Import Prelude Io Bpack BpackProps Cryptofile CryptofileProps.

Set Default Goal Selector "!".

(** [crypto/aes.NewCipher] is an argument. *)
Section Encrypted.
Context (NewCipher : bytes → outcome Block).

Definition NewEncryptedWriter {W : Type} `{IoWriter W} (rand : outcome bytes) (key : bytes) (w : W) :
    outcome (Bpack.Writer (Cryptofile.Writer W)) :=
  block ← NewCipher key;
  match Cryptofile.NewWriter (B := block) rand (blank_writer w) with
  | (Ok _, cw) => Ok (Bpack.NewWriter cw)
  | (Err e, _) => Err e
  | (Panic, _) => Panic
  | (OutOfFuel, _) => OutOfFuel
  end.

Definition NewEncryptedReader {R : Type} `{ReadSeekCloser R} (key : bytes) (fsize : Z) (f : R) :
    outcome (Bpack.Reader (Cryptofile.Reader R)) :=
  block ← NewCipher key;
  match (Cryptofile.NewReader (B := block) fsize;; SizeOf (B := block)) (blank_reader f) with
  | (Ok dataLen, cr) => Ok (Bpack.NewReader cr (wrap 64 dataLen))
  | (Err e, _) => Err e
  | (Panic, _) => Panic
  | (OutOfFuel, _) => OutOfFuel
  end.
End Encrypted.

(** A call that returns an object and the use of the object. *)
Definition wpo {A} (o : outcome A) (Q : A → Prop) (E : error → Prop) : Prop :=
  match o with Ok a => Q a | Err e => E e | _ => False end.

Section Roundtrip.
Context {B : Block} {Bok : BlockOk} (NewCipher : bytes → outcome Block) (key : bytes).
Context (Hkey : NewCipher key = Ok B).
Context {W : Type} `{IoWriterLaws W} {R : Type} `{ReadSeekCloserLaws R}.

Lemma NewEncryptedWriter_spec iv (w : W) :
  written w [] → length iv = BlockSize →
  wpo (NewEncryptedWriter NewCipher (Ok iv) key w)
    (λ pw, ∃ cw, pw = Bpack.NewWriter cw ∧ encrypting cw []) write_fails.
Proof.
  intros Hw Hiv. unfold NewEncryptedWriter. rewrite Hkey. unfold mbind, outcome_bind.
  pose proof (NewWriter_spec iv w Hw Hiv) as Hnew. unfold wp in Hnew.
  destruct (Cryptofile.NewWriter _ _) as [[[]|e| |] cw]; try done. by exists cw.
Qed.

Lemma NewEncryptedReader_spec (f : R) iv d q :
  (∀ e : error, ¬ read_fails e) → (∀ e : error, ¬ seek_fails e) →
  at_pos f (crypt_file iv d) q → length iv = BlockSize →
  (Z.of_nat ((1 + nblocks d) * BlockSize) < 2 ^ 63)%Z →
  wpo (NewEncryptedReader NewCipher key (Z.of_nat (length (crypt_file iv d))) f)
    (λ pr, ∃ cr, pr = Bpack.NewReader cr (Z.of_nat (length d)) ∧ positioned cr d 0)
    (λ _, False).
Proof.
  intros Hnr Hns Hat Hiv Hbd. unfold NewEncryptedReader. rewrite Hkey. unfold mbind at 1, outcome_bind.
  assert (Hrun : wp (Cryptofile.NewReader (Z.of_nat (length (crypt_file iv d)));; SizeOf)
    (λ n r, n = Z.of_nat (length d) ∧ positioned r d 0) (λ _ _, False) (blank_reader f)).
  { wp_step. eapply wp_mono; [by eapply crypt_NewReader_spec| |done]. cbn beta. intros [] r Hr.
    by eapply SizeOf_spec. }
  unfold wp in Hrun.
  destruct ((Cryptofile.NewReader (Z.of_nat (length (crypt_file iv d)));; SizeOf) (blank_reader f))
    as [[n|e| |] cr]; try done.
  destruct Hrun as [-> Hr]. exists cr. split; [|done].
  pose proof (length_padding d) as Hlp. unfold padding in Hlp. rewrite length_app in Hlp.
  rewrite wrap_small; [done|]. lia.
Qed.
End Roundtrip.

(** What is written through [NewEncryptedWriter] is read through [NewEncryptedReader]. *)
Lemma encrypted_session_spec {B : Block} {Bok : BlockOk} (NewCipher : bytes → outcome Block)
    (ckey : bytes) {W : Type} `{IoWriterLaws W} {R : Type} `{ReadSeekCloserLaws R}
    (w : W) iv kvs key :
  NewCipher ckey = Ok B → (∀ e : error, ¬ read_fails e) → (∀ e : error, ¬ seek_fails e) →
  written w [] → length iv = BlockSize → Forall fits kvs →
  (Z.of_nat (vals_len kvs) < 2 ^ 61)%Z → (Z.of_nat (length kvs) < 2 ^ 36)%Z →
  (Z.of_nat BlockSize < 2 ^ 32)%Z →
  wpo (NewEncryptedWriter NewCipher (Ok iv) ckey w)
    (λ pw, wp (Adds kvs;; Bpack.CloseWriter)
      (λ _ pw', ∃ c, finished (Cryptofile.w_w (Bpack.w_w pw')) c ∧
         ∀ (f : R) q fuel, at_pos f c q → length kvs ≤ fuel →
           wpo (NewEncryptedReader NewCipher ckey (Z.of_nat (length c)) f)
             (λ pr, wp (Reader_ReadIndex fuel;; Get key)
                (λ v _, pack_map kvs !! key = Some v)
                (λ e _, e = NotFound ∧ pack_map kvs !! key = None) pr)
             (λ _, False))
      (λ e _, write_fails e) pw)
    write_fails.
Proof.
  intros Hkey Hnr Hns Hw Hiv Hfit Hvl Hcnt Hbs.
  pose proof (NewEncryptedWriter_spec NewCipher ckey Hkey iv w Hw Hiv) as Hnew.
  unfold wpo in Hnew |- * at 1.
  destruct (NewEncryptedWriter _ _ _ _) as [pw|e| |]; try done. destruct Hnew as (cw & -> & Hcw).
  eapply wp_mono;
    [apply (pack_session_spec (H2 := crypt_rsc_laws Hnr Hns) cw kvs key); (done || lia || tauto)| |done].
  cbn beta. intros _ pw (d & (iv' & Hiv' & Hfin) & Hlen & Hrd).
  exists (crypt_file iv' d). split; [done|]. intros f q fuel Hat Hf.
  pose proof (Nat.div_mod_eq (length d) BlockSize) as Hdm. pose proof block_pos.
  pose proof (NewEncryptedReader_spec NewCipher ckey Hkey f iv' d q Hnr Hns Hat Hiv') as Hnr'.
  unfold wpo in Hnr' |- *. destruct (NewEncryptedReader _ _ _ _) as [pr|e| |];
    try (apply Hnr'; unfold nblocks; lia).
  destruct Hnr' as (cr & -> & Hcr); [unfold nblocks; lia|].
  eapply wp_mono; [by apply (Hrd cr 0 fuel)|done|].
  cbn beta. intros e r [?|[[]|[_ []]]]. done.
Qed.

(** C10: an encrypted pack is a finite map too: values added through
    [NewEncryptedWriter] are found again through [NewEncryptedReader] with the
    same key, [NotFound] exactly for the keys never added, for every block cipher
    and every IV. *)
Theorem encrypted_pack_roundtrip {B : Block} {Bok : BlockOk} (NewCipher : bytes → outcome Block)
    (ckey : bytes) {W : Type} `{IoWriterLaws W} {R : Type} `{ReadSeekCloserLaws R}
    (w : W) iv kvs key :
  NewCipher ckey = Ok B → (∀ e : error, ¬ read_fails e) → (∀ e : error, ¬ seek_fails e) →
  written w [] → length iv = BlockSize → Forall fits kvs →
  (Z.of_nat (vals_len kvs) < 2 ^ 61)%Z → (Z.of_nat (length kvs) < 2 ^ 36)%Z →
  (Z.of_nat BlockSize < 2 ^ 32)%Z →
  wpo (NewEncryptedWriter NewCipher (Ok iv) ckey w)
    (λ pw, wp (Adds kvs;; Bpack.CloseWriter)
      (λ _ pw', ∃ c, finished (Cryptofile.w_w (Bpack.w_w pw')) c ∧
         ∀ (f : R) q fuel, at_pos f c q → length kvs ≤ fuel →
           wpo (NewEncryptedReader NewCipher ckey (Z.of_nat (length c)) f)
             (λ pr, wp (Reader_ReadIndex fuel;; Get key)
                (λ v _, pack_map kvs !! key = Some v)
                (λ e _, e = NotFound ∧ pack_map kvs !! key = None) pr)
             (λ _, False))
      (λ e _, write_fails e) pw)
    write_fails.
Proof. apply encrypted_session_spec. Qed.

(** ** A concrete encrypted pack *)
Module Demo.
Import CryptofileProps.Demo.
#[local] Existing Instances xor_block xor_block_ok.
Definition cipher (key : bytes) : outcome Block := Ok xor_block.

Lemma encrypted_pack_roundtrip_witness :
  wpo (NewEncryptedWriter cipher (Ok iv) [] (mkMemSink [] false))
    (λ pw, wp (Adds BpackProps.Demo.kvs;; Bpack.CloseWriter)
      (λ _ pw', ∃ c, finished (Cryptofile.w_w (Bpack.w_w pw')) c ∧
         ∀ (f : MemFile) q fuel, at_pos f c q → length BpackProps.Demo.kvs ≤ fuel →
           wpo (NewEncryptedReader cipher [] (Z.of_nat (length c)) f)
             (λ pr, wp (Reader_ReadIndex fuel;; Get (str "a"))
                (λ v _, pack_map BpackProps.Demo.kvs !! str "a" = Some v)
                (λ e _, e = NotFound ∧ pack_map BpackProps.Demo.kvs !! str "a" = None) pr)
             (λ _, False))
      (λ e _, write_fails e) pw)
    write_fails.
Proof.
  apply (encrypted_pack_roundtrip (R := MemFile) cipher [] (mkMemSink [] false) iv
           BpackProps.Demo.kvs (str "a"));
    [done|intros e; tauto|intros e; tauto|done|done| |done|done|done].
  repeat constructor; simpl; lia.
Defined.
End Demo.
