(* ===== verification/Proto.v ===== *)
(** The remote protocol, remote/proto/proto.go.

    A message is a big-endian length, a type byte and the fields of the message's
    struct in declaration order, which the source walks by reflection.  Here the
    struct is a constructor of [Message]; [fields] and [with_fields] are what
    reflection gives for it. *)

From Stdlib Require Import ZArith Lia.
From stdpp Require Import base list strings.
From coqutil Require Import Byte.
From S2P Require Import Prelude Io.

Set Default Goal Selector "!".

Definition NOMID : Z := 0.
Definition ErrMsgTooLarge : error := ENew "message too large".
Definition ErrStrTooLarge : error := ENew "string too large".
Definition ErrMsgCorrupt : error := ENew "message corrupt".

(** A field by its [reflect.Kind]. *)
Inductive fval : Type :=
  | VBool (b : bool)
  | VU16 (z : Z)
  | VU32 (z : Z)
  | VU64 (z : Z)
  | VStr (s : bytes)
  | VBytes (s : bytes).

Inductive Message : Type :=
  | RError (mid : Z) (message : bytes)
  | TGetRoot (mid : Z)
  | RGetRoot (mid : Z) (value : bytes) (version : bytes) (signature : bytes) (ok : bool)
  | TCasRoot (mid : Z) (version : bytes) (value : bytes) (signature : bytes) (epoch : bytes)
  | RCasRoot (mid : Z) (ok : bool)
  | TAttach (mid : Z) (maxMessageSize : Z) (version : bytes) (keyId : bytes)
  | RAttach (mid : Z) (maxMessageSize : Z)
  | TOpen (mid : Z) (fid : Z) (name : bytes)
  | ROpen (mid : Z)
  | TReadAt (mid : Z) (fid : Z) (offset : Z) (size : Z)
  | RReadAt (mid : Z) (data : bytes)
  | TClose (mid : Z) (fid : Z)
  | RClose (mid : Z)
  | TNewPack (mid : Z) (pid : Z) (name : bytes)
  | RNewPack (mid : Z)
  | TWritePack (pid : Z) (data : bytes)
  | RPackError (pid : Z) (message : bytes)
  | TClosePack (mid : Z) (pid : Z)
  | RClosePack (mid : Z)
  | TCancelPack (mid : Z) (pid : Z)
  | RCancelPack (mid : Z)
  | TRemove (mid : Z) (path : bytes) (epoch : bytes)
  | RRemove (mid : Z)
  | TStartGC (mid : Z)
  | RStartGC (mid : Z) (epoch : bytes)
  | TStopGC (mid : Z)
  | RStopGC (mid : Z)
  | TGetEpoch (mid : Z)
  | RGetEpoch (mid : Z) (epoch : bytes).

(** The fields in declaration order. *)
Definition fields (m : Message) : list fval :=
  match m with
  | RError mid message => [VU16 mid; VStr message]
  | TGetRoot mid => [VU16 mid]
  | RGetRoot mid value version signature ok =>
    [VU16 mid; VStr value; VStr version; VStr signature; VBool ok]
  | TCasRoot mid version value signature epoch =>
    [VU16 mid; VStr version; VStr value; VStr signature; VStr epoch]
  | RCasRoot mid ok => [VU16 mid; VBool ok]
  | TAttach mid maxMessageSize version keyId =>
    [VU16 mid; VU32 maxMessageSize; VStr version; VStr keyId]
  | RAttach mid maxMessageSize => [VU16 mid; VU32 maxMessageSize]
  | TOpen mid fid name => [VU16 mid; VU32 fid; VStr name]
  | ROpen mid => [VU16 mid]
  | TReadAt mid fid offset size => [VU16 mid; VU32 fid; VU64 offset; VU32 size]
  | RReadAt mid data => [VU16 mid; VBytes data]
  | TClose mid fid => [VU16 mid; VU32 fid]
  | RClose mid => [VU16 mid]
  | TNewPack mid pid name => [VU16 mid; VU32 pid; VStr name]
  | RNewPack mid => [VU16 mid]
  | TWritePack pid data => [VU32 pid; VBytes data]
  | RPackError pid message => [VU32 pid; VStr message]
  | TClosePack mid pid => [VU16 mid; VU32 pid]
  | RClosePack mid => [VU16 mid]
  | TCancelPack mid pid => [VU16 mid; VU32 pid]
  | RCancelPack mid => [VU16 mid]
  | TRemove mid path epoch => [VU16 mid; VStr path; VStr epoch]
  | RRemove mid => [VU16 mid]
  | TStartGC mid => [VU16 mid]
  | RStartGC mid epoch => [VU16 mid; VStr epoch]
  | TStopGC mid => [VU16 mid]
  | RStopGC mid => [VU16 mid]
  | TGetEpoch mid => [VU16 mid]
  | RGetEpoch mid epoch => [VU16 mid; VStr epoch]
  end.

(** The message with its fields set. *)
Definition with_fields (m : Message) (vs : list fval) : Message :=
  match m, vs with
  | RError _ _, [VU16 mid; VStr message] => RError mid message
  | TGetRoot _, [VU16 mid] => TGetRoot mid
  | RGetRoot _ _ _ _ _, [VU16 mid; VStr value; VStr version; VStr signature; VBool ok] =>
    RGetRoot mid value version signature ok
  | TCasRoot _ _ _ _ _, [VU16 mid; VStr version; VStr value; VStr signature; VStr epoch] =>
    TCasRoot mid version value signature epoch
  | RCasRoot _ _, [VU16 mid; VBool ok] => RCasRoot mid ok
  | TAttach _ _ _ _, [VU16 mid; VU32 maxMessageSize; VStr version; VStr keyId] =>
    TAttach mid maxMessageSize version keyId
  | RAttach _ _, [VU16 mid; VU32 maxMessageSize] => RAttach mid maxMessageSize
  | TOpen _ _ _, [VU16 mid; VU32 fid; VStr name] => TOpen mid fid name
  | ROpen _, [VU16 mid] => ROpen mid
  | TReadAt _ _ _ _, [VU16 mid; VU32 fid; VU64 offset; VU32 size] => TReadAt mid fid offset size
  | RReadAt _ _, [VU16 mid; VBytes data] => RReadAt mid data
  | TClose _ _, [VU16 mid; VU32 fid] => TClose mid fid
  | RClose _, [VU16 mid] => RClose mid
  | TNewPack _ _ _, [VU16 mid; VU32 pid; VStr name] => TNewPack mid pid name
  | RNewPack _, [VU16 mid] => RNewPack mid
  | TWritePack _ _, [VU32 pid; VBytes data] => TWritePack pid data
  | RPackError _ _, [VU32 pid; VStr message] => RPackError pid message
  | TClosePack _ _, [VU16 mid; VU32 pid] => TClosePack mid pid
  | RClosePack _, [VU16 mid] => RClosePack mid
  | TCancelPack _ _, [VU16 mid; VU32 pid] => TCancelPack mid pid
  | RCancelPack _, [VU16 mid] => RCancelPack mid
  | TRemove _ _ _, [VU16 mid; VStr path; VStr epoch] => TRemove mid path epoch
  | RRemove _, [VU16 mid] => RRemove mid
  | TStartGC _, [VU16 mid] => TStartGC mid
  | RStartGC _ _, [VU16 mid; VStr epoch] => RStartGC mid epoch
  | TStopGC _, [VU16 mid] => TStopGC mid
  | RStopGC _, [VU16 mid] => RStopGC mid
  | TGetEpoch _, [VU16 mid] => TGetEpoch mid
  | RGetEpoch _ _, [VU16 mid; VStr epoch] => RGetEpoch mid epoch
  | m, _ => m
  end.

(** The zero message of a type: the switch of [UnpackMessage]. *)
Definition new_message (t : byte) : option Message :=
  match Byte.to_N t with
  | 0 (* RERROR *) => Some (RError 0 [])
  | 1 (* TATTACH *) => Some (TAttach 0 0 [] [])
  | 2 (* RATTACH *) => Some (RAttach 0 0)
  | 5 (* TOPEN *) => Some (TOpen 0 0 [])
  | 6 (* ROPEN *) => Some (ROpen 0)
  | 7 (* TREADAT *) => Some (TReadAt 0 0 0 0)
  | 8 (* RREADAT *) => Some (RReadAt 0 [])
  | 9 (* TCLOSE *) => Some (TClose 0 0)
  | 10 (* RCLOSE *) => Some (RClose 0)
  | 11 (* TNEWPACK *) => Some (TNewPack 0 0 [])
  | 12 (* RNEWPACK *) => Some (RNewPack 0)
  | 13 (* TWRITEPACK *) => Some (TWritePack 0 [])
  | 14 (* RPACKERROR *) => Some (RPackError 0 [])
  | 15 (* TCLOSEPACK *) => Some (TClosePack 0 0)
  | 16 (* RCLOSEPACK *) => Some (RClosePack 0)
  | 17 (* TCANCELPACK *) => Some (TCancelPack 0 0)
  | 18 (* RCANCELPACK *) => Some (RCancelPack 0)
  | 21 (* TGETROOT *) => Some (TGetRoot 0)
  | 22 (* RGETROOT *) => Some (RGetRoot 0 [] [] [] false)
  | 23 (* TCASROOT *) => Some (TCasRoot 0 [] [] [] [])
  | 24 (* RCASROOT *) => Some (RCasRoot 0 false)
  | 19 (* TREMOVE *) => Some (TRemove 0 [] [])
  | 20 (* RREMOVE *) => Some (RRemove 0)
  | 25 (* TSTARTGC *) => Some (TStartGC 0)
  | 26 (* RSTARTGC *) => Some (RStartGC 0 [])
  | 27 (* TSTOPGC *) => Some (TStopGC 0)
  | 28 (* RSTOPGC *) => Some (RStopGC 0)
  | 29 (* TGETEPOCH *) => Some (TGetEpoch 0)
  | 30 (* RGETEPOCH *) => Some (RGetEpoch 0 [])
  | _ => None
  end%N.

Definition GetMessageType (m : Message) : byte :=
  match m with
  | RError _ _ => Byte.x00 (* RERROR *)
  | TAttach _ _ _ _ => Byte.x01 (* TATTACH *)
  | RAttach _ _ => Byte.x02 (* RATTACH *)
  | TOpen _ _ _ => Byte.x05 (* TOPEN *)
  | ROpen _ => Byte.x06 (* ROPEN *)
  | TReadAt _ _ _ _ => Byte.x07 (* TREADAT *)
  | RReadAt _ _ => Byte.x08 (* RREADAT *)
  | TClose _ _ => Byte.x09 (* TCLOSE *)
  | RClose _ => Byte.x0a (* RCLOSE *)
  | TNewPack _ _ _ => Byte.x0b (* TNEWPACK *)
  | RNewPack _ => Byte.x0c (* RNEWPACK *)
  | TWritePack _ _ => Byte.x0d (* TWRITEPACK *)
  | RPackError _ _ => Byte.x0e (* RPACKERROR *)
  | TClosePack _ _ => Byte.x0f (* TCLOSEPACK *)
  | RClosePack _ => Byte.x10 (* RCLOSEPACK *)
  | TCancelPack _ _ => Byte.x11 (* TCANCELPACK *)
  | RCancelPack _ => Byte.x12 (* RCANCELPACK *)
  | TGetRoot _ => Byte.x15 (* TGETROOT *)
  | RGetRoot _ _ _ _ _ => Byte.x16 (* RGETROOT *)
  | TCasRoot _ _ _ _ _ => Byte.x17 (* TCASROOT *)
  | RCasRoot _ _ => Byte.x18 (* RCASROOT *)
  | TRemove _ _ _ => Byte.x13 (* TREMOVE *)
  | RRemove _ => Byte.x14 (* RREMOVE *)
  | TStartGC _ => Byte.x19 (* TSTARTGC *)
  | RStartGC _ _ => Byte.x1a (* RSTARTGC *)
  | TStopGC _ => Byte.x1b (* TSTOPGC *)
  | RStopGC _ => Byte.x1c (* RSTOPGC *)
  | TGetEpoch _ => Byte.x1d (* TGETEPOCH *)
  | RGetEpoch _ _ => Byte.x1e (* RGETEPOCH *)
  end.

Definition GetMessageId (m : Message) : Z :=
  match m with
  | RError mid _ => mid
  | TGetRoot mid  => mid
  | RGetRoot mid _ _ _ _ => mid
  | TCasRoot mid _ _ _ _ => mid
  | RCasRoot mid _ => mid
  | TAttach mid _ _ _ => mid
  | RAttach mid _ => mid
  | TOpen mid _ _ => mid
  | ROpen mid  => mid
  | TReadAt mid _ _ _ => mid
  | RReadAt mid _ => mid
  | TClose mid _ => mid
  | RClose mid  => mid
  | TNewPack mid _ _ => mid
  | RNewPack mid  => mid
  | TWritePack _ _ => NOMID
  | RPackError _ _ => NOMID
  | TClosePack mid _ => mid
  | RClosePack mid  => mid
  | TCancelPack mid _ => mid
  | RCancelPack mid  => mid
  | TRemove mid _ _ => mid
  | RRemove mid  => mid
  | TStartGC mid  => mid
  | RStartGC mid _ => mid
  | TStopGC mid  => mid
  | RStopGC mid  => mid
  | TGetEpoch mid  => mid
  | RGetEpoch mid _ => mid
  end.

(** ** [unpackFields] *)

(** One iteration: decode a field of the kind of [v] from the front of [buf]. *)
Definition unpack_field (v : fval) (buf : bytes) : outcome (fval * bytes) :=
  match v with
  | VBool _ =>
    if bool_decide (length buf < 1) then Err ErrMsgCorrupt
    else x ← idx buf 0; Ok (VBool (negb (bool_decide (x = b0))), drop 1 buf)
  | VU16 _ =>
    if bool_decide (length buf < 2) then Err ErrMsgCorrupt
    else Ok (VU16 (get_be (take 2 buf)), drop 2 buf)
  | VU32 _ =>
    if bool_decide (length buf < 4) then Err ErrMsgCorrupt
    else Ok (VU32 (get_be (take 4 buf)), drop 4 buf)
  | VU64 _ =>
    if bool_decide (length buf < 8) then Err ErrMsgCorrupt
    else Ok (VU64 (get_be (take 8 buf)), drop 8 buf)
  | VStr _ =>
    if bool_decide (length buf < 2) then Err ErrMsgCorrupt
    else
      let sz := Z.to_nat (get_be (take 2 buf)) in
      let buf := drop 2 buf in
      if bool_decide (length buf < sz) then Err ErrMsgCorrupt
      else Ok (VStr (take sz buf), drop sz buf)
  | VBytes _ =>
    if bool_decide (length buf < 4) then Err ErrMsgCorrupt
    else
      let sz := Z.to_nat (get_be (take 4 buf)) in
      let buf := drop 4 buf in
      if bool_decide (length buf < sz) then Err ErrMsgCorrupt
      else Ok (VBytes (take sz buf), drop sz buf)
  end.

Fixpoint unpack_values (vs : list fval) (buf : bytes) : outcome (list fval) :=
  match vs with
  | [] => if bool_decide (length buf ≠ 0) then Err ErrMsgCorrupt else Ok []
  | v :: vs =>
    '(x, buf) ← unpack_field v buf;
    xs ← unpack_values vs buf;
    Ok (x :: xs)
  end.

Definition unpackFields (m : Message) (buf : bytes) : outcome Message :=
  vs ← unpack_values (fields m) buf;
  Ok (with_fields m vs).

Definition UnpackMessage (buf : bytes) : outcome Message :=
  t ← idx buf 4;
  match new_message t with
  | Some m => b ← slice buf 5 (length buf); unpackFields m b
  | None => Err ErrMsgCorrupt
  end.

(** ** [PackMessage]

    The source writes into [buf] and cuts what it wrote off its front; [avail] is
    what is left of it, and the bytes written are the result. *)

Definition pack_field (v : fval) (avail : nat) : outcome bytes :=
  match v with
  | VBool b =>
    if bool_decide (avail < 1) then Err ErrMsgTooLarge
    else Ok [if b then Byte.x01 else Byte.x00]
  | VU16 z => if bool_decide (avail < 2) then Err ErrMsgTooLarge else Ok (put_be 2 z)
  | VU32 z => if bool_decide (avail < 4) then Err ErrMsgTooLarge else Ok (put_be 4 z)
  | VU64 z => if bool_decide (avail < 8) then Err ErrMsgTooLarge else Ok (put_be 8 z)
  | VStr s =>
    if bool_decide (avail < 2) then Err ErrMsgTooLarge
    else if bool_decide (65535 < Z.of_nat (length s))%Z then Err ErrStrTooLarge
    else if bool_decide (avail - 2 < length s) then Err ErrMsgTooLarge
    else Ok (put_be 2 (Z.of_nat (length s)) ++ s)
  | VBytes s =>
    if bool_decide (avail < 2) then Err ErrMsgTooLarge
    else if bool_decide (avail < 4) then Panic  (* buf[0:4], buf[4:] *)
    else
      let sz := u32 (Z.of_nat (length s)) in
      if bool_decide (u32 (Z.of_nat (avail - 4)) < sz)%Z then Err ErrMsgTooLarge
      else Ok (put_be 4 sz ++ take (Z.to_nat sz) s)
  end.

Fixpoint pack_values (vs : list fval) (avail : nat) : outcome bytes :=
  match vs with
  | [] => Ok []
  | v :: vs =>
    b ← pack_field v avail;
    bs ← pack_values vs (avail - length b);
    Ok (b ++ bs)
  end.

(** [PackMessage(m, buf)] for a buffer of [buflen] bytes returns [buf[:sz]]. *)
Definition PackMessage (m : Message) (buflen : nat) : outcome bytes :=
  if bool_decide (buflen < 5) then Err ErrMsgTooLarge
  else
    body ← pack_values (fields m) (buflen - 5);
    let sz := 5 + length body in
    Ok (put_be 4 (u32 (Z.of_nat sz)) ++ GetMessageType m :: body).

(** ** Messages on a connection *)
Section Conn.
Context {R : Type} `{IoReader R} {W : Type} `{IoWriter W}.

(** For a buffer of [buflen] bytes, at least four. *)
Definition ReadMessage (buflen : nat) : M R Message :=
  hdr ← (if bool_decide (buflen < 4) then panic else ReadFull 4);
  let sz := Z.to_nat (get_be hdr) in
  if bool_decide (Z.to_nat (u32 (Z.of_nat buflen)) < sz) then throw ErrMsgTooLarge
  else if bool_decide (sz < 4) then panic  (* buf[4:sz] *)
  else
    body ← ReadFull (sz - 4);
    lift (UnpackMessage (hdr ++ body)).

(** An error of [PackMessage] is dropped: [return nil]. *)
Definition WriteMessage (m : Message) (buflen : nat) : M W unit :=
  match PackMessage m buflen with
  | Ok b => io_write b
  | Err _ => mret ()
  | Panic => panic
  | OutOfFuel => diverge
  end.
End Conn.
