(* ===== verification/ProtoProps.v ===== *)
(** Correctness of the remote protocol's codec and framing. *)

From Stdlib Require Import ZArith Lia.
From stdpp Require Import base list strings.
From coqutil Require Import Byte.
From S2P Require Import Prelude Io Proto.

Set Default Goal Selector "!".

(** Values a Go field of the kind can hold and the wire format can carry. *)
Definition valid_val (v : fval) : Prop :=
  match v with
  | VBool _ => True
  | VU16 z => (0 ≤ z < 2 ^ 16)%Z
  | VU32 z => (0 ≤ z < 2 ^ 32)%Z
  | VU64 z => (0 ≤ z < 2 ^ 64)%Z
  | VStr s => (Z.of_nat (length s) < 2 ^ 16)%Z
  | VBytes s => (Z.of_nat (length s) < 2 ^ 32)%Z
  end.
Definition valid_message (m : Message) : Prop := Forall valid_val (fields m).

(** The wire format. *)
Definition enc_val (v : fval) : bytes :=
  match v with
  | VBool b => [if b then Byte.x01 else Byte.x00]
  | VU16 z => put_be 2 z
  | VU32 z => put_be 4 z
  | VU64 z => put_be 8 z
  | VStr s => put_be 2 (Z.of_nat (length s)) ++ s
  | VBytes s => put_be 4 (Z.of_nat (length s)) ++ s
  end.
Definition enc_vals (vs : list fval) : bytes := concat (enc_val <$> vs).
Definition message_size (m : Message) : nat := 5 + length (enc_vals (fields m)).
Definition enc_message (m : Message) : bytes :=
  put_be 4 (Z.of_nat (message_size m)) ++ GetMessageType m :: enc_vals (fields m).

Definition same_kind (v w : fval) : Prop :=
  match v, w with
  | VBool _, VBool _ | VU16 _, VU16 _ | VU32 _, VU32 _ | VU64 _, VU64 _ | VStr _, VStr _
  | VBytes _, VBytes _ => True
  | _, _ => False
  end.

(** What reflection guarantees: the zero message of a message's type has the same
    kinds of fields, and setting them to the message's values gives the message. *)
Lemma new_message_fields m :
  ∃ z, new_message (GetMessageType m) = Some z ∧
       Forall2 same_kind (fields z) (fields m) ∧ with_fields z (fields m) = m.
Proof. destruct m; eexists; (split; [reflexivity|]); split; repeat constructor. Qed.

Lemma enc_vals_cons v vs : enc_vals (v :: vs) = enc_val v ++ enc_vals vs.
Proof. done. Qed.

Lemma length_enc_message m : length (enc_message m) = message_size m.
Proof. unfold enc_message, message_size. rewrite length_app, length_put_be. done. Qed.

(** ** Packing *)

Lemma pack_field_spec v avail :
  valid_val v → (Z.of_nat avail < 2 ^ 32)%Z →
  match pack_field v avail with
  | Ok b => b = enc_val v ∧ length b ≤ avail
  | Err e => e = ErrMsgTooLarge ∧ avail < length (enc_val v)
  | Panic => avail < length (enc_val v)
  | OutOfFuel => False
  end.
Proof.
  destruct v as [b|z|z|z|s|s]; simpl; intros Hv Ha; rewrite ?length_app, ?length_put_be.
  6: rewrite (wrap_small 32 (Z.of_nat (length s))), (wrap_small 32 (Z.of_nat (avail - 4))),
       Nat2Z.id, (take_ge s) by lia.
  all: repeat case_bool_decide; simpl in *; rewrite ?length_app, ?length_put_be;
    try (split; [done|lia]); lia.
Qed.

Lemma pack_values_spec vs avail :
  Forall valid_val vs → (Z.of_nat avail < 2 ^ 32)%Z →
  match pack_values vs avail with
  | Ok b => b = enc_vals vs ∧ length b ≤ avail
  | Err e => e = ErrMsgTooLarge ∧ avail < length (enc_vals vs)
  | Panic => avail < length (enc_vals vs)
  | OutOfFuel => False
  end.
Proof.
  intros Hv. revert avail. induction Hv as [|v vs Hv Hvs IH]; intros avail Ha; simpl.
  { split; [done|lia]. }
  rewrite enc_vals_cons, length_app. pose proof (pack_field_spec v avail Hv Ha) as Hp.
  unfold mbind, outcome_bind. destruct (pack_field v avail) as [b|e| |];
    [|destruct Hp; split; [done|lia]|lia|done].
  destruct Hp as [-> Hle]. specialize (IH (avail - length (enc_val v)) ltac:(lia)).
  destruct (pack_values vs _) as [bs|e| |]; [|destruct IH; split; [done|lia]|lia|done].
  destruct IH as [-> Hle']. rewrite length_app. split; [done|lia].
Qed.

Lemma PackMessage_spec m buflen :
  valid_message m → (Z.of_nat buflen < 2 ^ 32)%Z →
  match PackMessage m buflen with
  | Ok b => b = enc_message m ∧ message_size m ≤ buflen
  | Err e => e = ErrMsgTooLarge ∧ buflen < message_size m
  | Panic => buflen < message_size m
  | OutOfFuel => False
  end.
Proof.
  intros Hv Hb. unfold PackMessage, message_size, enc_message.
  case_bool_decide; [split; [done|lia]|].
  pose proof (pack_values_spec (fields m) (buflen - 5) Hv ltac:(lia)) as Hp.
  unfold mbind, outcome_bind. destruct (pack_values _ _) as [b|e| |];
    [|destruct Hp; split; [done|lia]|lia|done].
  destruct Hp as [-> Hle]. rewrite wrap_small by lia. split; [done|lia].
Qed.

(** ** Unpacking *)

Lemma unpack_field_spec z v rest :
  valid_val v → same_kind z v → unpack_field z (enc_val v ++ rest) = Ok (v, rest).
Proof.
  destruct z as [x|x|x|x|x|x], v as [y|y|y|y|y|y]; intros Hv Hk; cbn in Hk; try contradiction;
    cbn [unpack_field enc_val valid_val] in *.
  { by destruct y. }
  all: rewrite <-?app_assoc, !length_app, !length_put_be.
  all: rewrite (bool_decide_eq_false_2 (_ + _ < _)) by lia.
  all: rewrite take_app_length', drop_app_length' by (by rewrite length_put_be).
  all: rewrite get_put_be_small by lia; try reflexivity.
  all: rewrite Nat2Z.id, bool_decide_eq_false_2 by (rewrite length_app; lia).
  all: by rewrite take_app_length, drop_app_length.
Qed.

Lemma unpack_values_spec zs vs :
  Forall valid_val vs → Forall2 same_kind zs vs → unpack_values zs (enc_vals vs) = Ok vs.
Proof.
  intros Hv Hk. induction Hk as [|z v zs vs Hk Hks IH]; simpl; [done|].
  apply Forall_cons in Hv as [Hv Hvs]. rewrite enc_vals_cons.
  rewrite unpack_field_spec by done. unfold mbind, outcome_bind. by rewrite IH.
Qed.

Lemma UnpackMessage_enc m : valid_message m → UnpackMessage (enc_message m) = Ok m.
Proof.
  intros Hv. destruct (new_message_fields m) as (z & Hz & Hk & Hw).
  unfold UnpackMessage. pose proof (length_enc_message m) as Hl. unfold enc_message in *.
  rewrite (idx_ok _ _ (GetMessageType m)).
  2: { rewrite lookup_app_r by (rewrite length_put_be; lia). by rewrite length_put_be. }
  unfold mbind, outcome_bind. rewrite Hz. rewrite slice_ok by (rewrite Hl; unfold message_size; lia).
  rewrite Hl. rewrite cons_middle, app_assoc, drop_app_length' by (rewrite length_app, length_put_be; done).
  rewrite take_ge by (unfold message_size; lia). unfold unpackFields.
  rewrite unpack_values_spec by done. unfold mbind, outcome_bind. by rewrite Hw.
Qed.

(** ** Arbitrary input *)

Lemma get_be_take_range n (buf : bytes) :
  n ≤ length buf → (0 ≤ get_be (take n buf) < 2 ^ (8 * Z.of_nat n))%Z.
Proof. intros Hn. pose proof (get_be_range (take n buf)) as Hr. by rewrite length_take_le in Hr. Qed.

Lemma unpack_field_total z buf :
  match unpack_field z buf with
  | Ok (v, rest) => valid_val v ∧ same_kind z v
  | Err e => e = ErrMsgCorrupt
  | _ => False
  end.
Proof.
  destruct z; cbn [unpack_field]; case_bool_decide as Hl; try done.
  all: try (pose proof (get_be_take_range _ _ (proj1 (Nat.nlt_ge _ _) Hl)) as Hr).
  - destruct buf; [simpl in Hl; lia|done].
  - done.
  - done.
  - done.
  - case_bool_decide as Hs; [done|]. split; [|done]. cbn [valid_val]. rewrite length_take. lia.
  - case_bool_decide as Hs; [done|]. split; [|done]. cbn [valid_val]. rewrite length_take. lia.
Qed.

Lemma unpack_values_total zs buf :
  match unpack_values zs buf with
  | Ok vs => Forall valid_val vs ∧ Forall2 same_kind zs vs
  | Err e => e = ErrMsgCorrupt
  | _ => False
  end.
Proof.
  revert buf. induction zs as [|z zs IH]; intros buf; simpl; [by case_bool_decide|].
  pose proof (unpack_field_total z buf) as Hf. unfold mbind, outcome_bind.
  destruct (unpack_field z buf) as [[v rest]|e| |]; try done.
  specialize (IH rest). destruct (unpack_values zs rest) as [vs|e| |]; try done.
  destruct Hf, IH. split; by constructor.
Qed.

Lemma with_fields_fields z vs :
  Forall2 same_kind (fields z) vs →
  fields (with_fields z vs) = vs ∧ GetMessageType (with_fields z vs) = GetMessageType z.
Proof.
  intros Hk. destruct z; simpl in Hk;
    repeat match goal with
    | H : Forall2 _ (_ :: _) _ |- _ =>
      apply Forall2_cons_inv_l in H as (? & ? & ? & ? & ->)
    | H : Forall2 _ [] _ |- _ => apply Forall2_nil_inv_l in H as ->
    | H : same_kind _ ?v |- _ => destruct v; try contradiction; clear H
    end; done.
Qed.

Lemma new_message_type t z : new_message t = Some z → GetMessageType z = t.
Proof. by destruct t; intros [= <-]. Qed.

(** ** Framing *)
Section Frames.
Context {R : Type} `{IoReaderLaws R}.

Lemma ReadMessage_spec m buflen (s : R) c rest p :
  valid_message m → message_size m ≤ buflen → (Z.of_nat buflen < 2 ^ 32)%Z →
  at_pos s c p → drop p c = enc_message m ++ rest →
  wp (ReadMessage buflen)
    (λ m' s', m' = m ∧ at_pos s' c (p + message_size m) ∧ drop (p + message_size m) c = rest)
    (λ e _, read_fails e ∨ e = UnexpectedEOF ∧ read_fails EOF) s.
Proof.
  intros Hv Hle Hb Hat Hd. unfold ReadMessage.
  assert (H5 : 5 ≤ message_size m) by (unfold message_size; lia).
  pose proof (UnpackMessage_enc m Hv) as Hun. pose proof (length_enc_message m) as Hlen.
  unfold enc_message in *. set (body := GetMessageType m :: enc_vals (fields m)) in *.
  rewrite length_app, length_put_be in Hlen. rewrite <-app_assoc in Hd.
  rewrite bool_decide_eq_false_2 by lia. wp_step.
  eapply wp_mono; [eapply ReadFull_at; [done|done|apply length_put_be]| |done].
  cbn beta. intros hdr s1 (-> & Hat1 & Hd1). rewrite get_put_be_small, Nat2Z.id by lia.
  rewrite wrap_small, Nat2Z.id by lia. rewrite !bool_decide_eq_false_2 by lia. wp_step.
  eapply wp_mono; [eapply ReadFull_at; [done|done|lia]| |done].
  cbn beta. intros b s2 (-> & Hat2 & Hd2). rewrite Hun. wp_step.
  replace (p + 4 + (message_size m - 4)) with (p + message_size m) in * by lia. done.
Qed.

Fixpoint ReadMessages (n buflen : nat) : M R (list Message) :=
  match n with
  | O => mret []
  | S n => m ← ReadMessage buflen; ms ← ReadMessages n buflen; mret (m :: ms)
  end.

Lemma ReadMessages_spec ms buflen (s : R) c rest p :
  Forall (λ m, valid_message m ∧ message_size m ≤ buflen) ms → (Z.of_nat buflen < 2 ^ 32)%Z →
  at_pos s c p → drop p c = concat (enc_message <$> ms) ++ rest →
  wp (ReadMessages (length ms) buflen) (λ ms' _, ms' = ms)
    (λ e _, read_fails e ∨ e = UnexpectedEOF ∧ read_fails EOF) s.
Proof.
  intros Hms Hb. revert s p. induction Hms as [|m ms [Hv Hle] Hms IH]; intros s p Hat Hd.
  { simpl. by wp_step. }
  cbn [ReadMessages length]. rewrite fmap_cons, concat_cons, <-app_assoc in Hd.
  wp_step. eapply wp_mono; [by eapply ReadMessage_spec| |done].
  cbn beta. intros m' s' (-> & Hat' & Hd'). wp_step.
  eapply wp_mono; [by eapply IH| |done]. cbn beta. intros ms' s'' ->. by wp_step.
Qed.
End Frames.

Section WriteFrames.
Context {W : Type} `{IoWriterLaws W}.

Fixpoint WriteMessages (ms : list Message) (buflen : nat) : M W unit :=
  match ms with
  | [] => mret ()
  | m :: ms => WriteMessage m buflen;; WriteMessages ms buflen
  end.

Lemma WriteMessages_spec ms buflen (w : W) d :
  Forall (λ m, valid_message m ∧ message_size m ≤ buflen) ms → (Z.of_nat buflen < 2 ^ 32)%Z →
  written w d →
  wp (WriteMessages ms buflen) (λ _ w', written w' (d ++ concat (enc_message <$> ms)))
    (λ e _, write_fails e) w.
Proof.
  intros Hms Hb. revert w d. induction Hms as [|m ms [Hv Hle] Hms IH]; intros w d Hw; simpl.
  { wp_step. by rewrite app_nil_r. }
  wp_step. unfold WriteMessage. pose proof (PackMessage_spec m buflen Hv Hb) as Hp.
  destruct (PackMessage m buflen) as [b|e| |]; [|lia..]. destruct Hp as [-> _].
  eapply wp_mono; [by apply io_write_law| |done]. cbn beta. intros [] w' Hw'.
  eapply wp_mono; [by apply (IH w')| |done]. cbn beta. intros [] w'' Hw''.
  by rewrite <-app_assoc in Hw''.
Qed.
End WriteFrames.

(** ** Theorems *)

(** C11: for every message whose fields fit their wire width and every buffer,
    [PackMessage] either produces bytes that [UnpackMessage] turns back into the
    same message, and does so exactly when the message fits the buffer, or gives
    up because it does not fit. *)
Theorem proto_roundtrip m buflen :
  valid_message m → (Z.of_nat buflen < 2 ^ 32)%Z →
  match PackMessage m buflen with
  | Ok b => length b = message_size m ∧ message_size m ≤ buflen ∧ UnpackMessage b = Ok m
  | Err e => e = ErrMsgTooLarge ∧ buflen < message_size m
  | Panic => buflen < message_size m
  | OutOfFuel => False
  end.
Proof.
  intros Hv Hb. pose proof (PackMessage_spec m buflen Hv Hb) as Hp.
  destruct (PackMessage m buflen); [|done..]. destruct Hp as [-> ?].
  split_and!; [apply length_enc_message|done|by apply UnpackMessage_enc].
Qed.

(** C34: [UnpackMessage] of arbitrary bytes from a peer, of at least five bytes,
    never panics: it reports [ErrMsgCorrupt] or returns a message of the type the
    type byte names, all of whose fields fit their width, so that packing it again
    and unpacking gives the same message. *)
Theorem proto_unpack_total buf :
  5 ≤ length buf →
  match UnpackMessage buf with
  | Ok m => valid_message m ∧ buf !! 4 = Some (GetMessageType m) ∧
            UnpackMessage (enc_message m) = Ok m
  | Err e => e = ErrMsgCorrupt
  | _ => False
  end.
Proof.
  intros Hl. unfold UnpackMessage at 1. destruct (lookup_lt_is_Some_2 buf 4) as [t Ht]; [lia|].
  rewrite (idx_ok _ _ _ Ht). unfold mbind, outcome_bind.
  destruct (new_message t) as [z|] eqn:Hz; [|done]. rewrite slice_ok by lia. unfold unpackFields.
  match goal with |- context [unpack_values _ ?b] =>
    pose proof (unpack_values_total (fields z) b) as Hu; destruct (unpack_values (fields z) b) as [vs|e| |] end;
    try done.
  destruct Hu as [Hv Hk]. destruct (with_fields_fields z vs Hk) as [Hf Hty].
  unfold mbind, outcome_bind. assert (Hvm : valid_message (with_fields z vs))
    by (unfold valid_message; by rewrite Hf).
  split_and!; [done|by rewrite Hty, (new_message_type t z Hz)|by apply UnpackMessage_enc].
Qed.

(** framing: messages written one after the other on a connection are read
    off it in the same order, each [ReadMessage] taking exactly its message. *)
Theorem proto_stream_roundtrip {W : Type} `{IoWriterLaws W} {R : Type} `{IoReaderLaws R}
    (w : W) ms buflen :
  Forall (λ m, valid_message m ∧ message_size m ≤ buflen) ms → (Z.of_nat buflen < 2 ^ 32)%Z →
  written w [] →
  wp (WriteMessages ms buflen)
    (λ _ w', ∃ c, written w' c ∧ ∀ (s : R) rest, at_pos s (c ++ rest) 0 →
       wp (ReadMessages (length ms) buflen) (λ ms' _, ms' = ms)
         (λ e _, read_fails e ∨ e = UnexpectedEOF ∧ read_fails EOF) s)
    (λ e _, write_fails e) w.
Proof.
  intros Hms Hb Hw. eapply wp_mono; [by apply WriteMessages_spec| |done]. cbn beta.
  intros [] w' Hw'. eexists. split; [done|]. simpl. intros s rest Hat.
  eapply ReadMessages_spec; try done.
Qed.

(** C39: a message that is too large for the buffer is dropped without a trace:
    unless packing it panics, [WriteMessage] reports success and sends nothing. *)
Theorem proto_write_drops_oversized {W : Type} `{IoWriter W} (w : W) m buflen :
  valid_message m → (Z.of_nat buflen < 2 ^ 32)%Z → buflen < message_size m →
  PackMessage m buflen ≠ Panic →
  WriteMessage m buflen w = (Ok (), w).
Proof.
  intros Hv Hb Hlt Hnp. pose proof (PackMessage_spec m buflen Hv Hb) as Hp.
  unfold WriteMessage. destruct (PackMessage m buflen) as [b|e| |]; try done. lia.
Qed.

(** a peer can crash the reader with a frame whose length field is below
    five: [ReadMessage] then slices or indexes out of range. *)
Theorem proto_short_frame_panics {R : Type} `{IoReaderLaws R} (s : R) c rest p buflen sz :
  at_pos s c p → drop p c = put_be 4 sz ++ rest → (0 ≤ sz < 5)%Z →
  (4 ≤ Z.of_nat buflen < 2 ^ 32)%Z → (∀ e, ¬ read_fails e) →
  ∃ s', ReadMessage buflen s = (Panic, s').
Proof.
  intros Hat Hd Hsz Hb Hnr. unfold ReadMessage. rewrite bool_decide_eq_false_2 by lia.
  pose proof (ReadFull_at 4 s c _ rest p Hat Hd (length_put_be 4 sz)) as Hr.
  unfold wp in Hr. unfold mbind, M_bind. destruct (ReadFull 4 s) as [[hdr|e| |] s1]; try done.
  2: { destruct Hr as [?|[_ ?]]; by edestruct Hnr. }
  destruct Hr as (-> & Hat1 & Hd1). rewrite get_put_be_small by lia.
  rewrite wrap_small, Nat2Z.id, bool_decide_eq_false_2 by lia.
  case_bool_decide as H4; [by eexists|].
  replace (Z.to_nat sz - 4) with 0 by lia.
  change (ReadFull 0 s1) with (Ok (@nil byte), s1). exists s1. unfold lift, UnpackMessage, idx.
  by rewrite lookup_ge_None_2 by (rewrite length_app, length_put_be; simpl; lia).
Qed.

(** ** Concrete messages *)
Module Demo.
Definition msg : Message := TReadAt 7 9 (2 ^ 40) 512.
Definition msgs : list Message :=
  [TAttach 1 65536 (str "buppy1") (str "key"); TWritePack 3 (str "data"); RGetRoot 2 (str "v") [] [] true].

(** The bytes on the wire. *)
Example msg_wire :
  PackMessage (TClose 258 7) 64 = Ok [Byte.x00; Byte.x00; Byte.x00; Byte.x0b; Byte.x09;
                                      Byte.x01; Byte.x02; Byte.x00; Byte.x00; Byte.x00; Byte.x07].
Proof. by vm_compute. Qed.

Lemma proto_roundtrip_witness :
  match PackMessage msg 64 with
  | Ok b => length b = message_size msg ∧ message_size msg ≤ 64 ∧ UnpackMessage b = Ok msg
  | Err e => e = ErrMsgTooLarge ∧ 64 < message_size msg
  | Panic => 64 < message_size msg
  | OutOfFuel => False
  end.
Proof. apply (proto_roundtrip msg 64); [repeat constructor; simpl; lia|lia]. Defined.

Lemma proto_unpack_total_witness :
  match UnpackMessage (replicate 9 Byte.x03) with
  | Ok m => valid_message m ∧ replicate 9 Byte.x03 !! 4 = Some (GetMessageType m) ∧
            UnpackMessage (enc_message m) = Ok m
  | Err e => e = ErrMsgCorrupt
  | _ => False
  end.
Proof. apply (proto_unpack_total (replicate 9 Byte.x03)). simpl. lia. Defined.

Lemma proto_stream_roundtrip_witness :
  wp (WriteMessages msgs 64)
    (λ _ w', ∃ c, written w' c ∧ ∀ (s : MemFile) rest, at_pos s (c ++ rest) 0 →
       wp (ReadMessages (length msgs) 64) (λ ms' _, ms' = msgs)
         (λ e _, read_fails e ∨ e = UnexpectedEOF ∧ read_fails EOF) s)
    (λ e _, write_fails e) (mkMemSink [] false).
Proof.
  apply (proto_stream_roundtrip (R := MemFile) (mkMemSink [] false) msgs 64); [|lia|done].
  repeat constructor; simpl; lia.
Defined.

Lemma proto_write_drops_oversized_witness :
  WriteMessage (ROpen 1) 6 (mkMemSink [] false) = (Ok (), mkMemSink [] false).
Proof.
  apply (proto_write_drops_oversized (mkMemSink [] false) (ROpen 1) 6);
    [apply Forall_singleton; simpl; lia|lia|unfold message_size; simpl; lia|done].
Defined.

Lemma proto_short_frame_panics_witness :
  ∃ s', ReadMessage 64 (mkMemFile (put_be 4 4) 0) = (Panic, s').
Proof.
  apply (proto_short_frame_panics (mkMemFile (put_be 4 4) 0) (put_be 4 4) [] 0 64 4);
    [done|done|lia|lia|exact memfile_no_read_fails].
Defined.
End Demo.
