(* ===== verification/Proto9.v ===== *)
(** The 9P2000 protocol, cmd/bpy/p9/proto9 (9p.go, constants.go).

    [Msg] has the message structs; for each there are the three methods of the
    source, [WireLen], [PackBody] and [UnpackBody], with the source's explicit
    buffer offsets, 16-bit index arithmetic included.  [PackBody] runs in the state
    monad over the body buffer; [UnpackBody] reads a Go slice, whose backing array
    may extend beyond its length. *)

From Stdlib Require Import ZArith Lia.
From stdpp Require Import base list strings.
From coqutil Require Import Byte.
From S2P Require Import Prelude Io.

Set Default Goal Selector "!".

Definition ErrBuffTooSmall : error := ENew "buffer too small for message".
Definition ErrMsgCorrupt : error := ENew "message corrupt".

(** ** constants.go *)
Definition HeaderSize : nat := 5.
Definition QidSize : nat := 13.
Definition QTDIR : Z := 0x80.
Definition QTFILE : Z := 0x00.

Record Qid := mkQid { q_Type : Z; q_Version : Z; q_Path : Z }.

Definition IsDir (q : Qid) : bool := bool_decide (q_Type q = QTDIR).
Definition IsFile (q : Qid) : bool := bool_decide (q_Type q = QTFILE).

Record Stat := mkStat {
  s_Type : Z;
  s_Dev : Z;
  s_Qid : Qid;
  s_Mode : Z;
  s_Atime : Z;
  s_Mtime : Z;
  s_Length : Z;
  s_Name : bytes;
  s_UID : bytes;
  s_GID : bytes;
  s_MUID : bytes;
}.

Definition zero_qid : Qid := mkQid 0 0 0.
Definition zero_stat : Stat := mkStat 0 0 zero_qid 0 0 0 0 [] [] [] [].

(** The value 9P uses for "do not change" in a [Twstat]. *)
Definition MaskedStat : Stat :=
  mkStat 0xffff 0xffffffff zero_qid 0xffffffff 0xffffffff 0xffffffff 0xffffffffffffffff [] [] [] [].

Inductive Msg : Type :=
  | Tversion (Tag MessageSize : Z) (Version : bytes)
  | Rversion (Tag MessageSize : Z) (Version : bytes)
  | Tauth (Tag Afid : Z) (Uname Aname : bytes)
  | Rauth (Tag : Z) (Aqid : Qid)
  | Tattach (Tag Fid Afid : Z) (Uname Aname : bytes)
  | Rattach (Tag : Z) (qid : Qid)
  | Rerror (Tag : Z) (Err : bytes)
  | Tflush (Tag OldTag : Z)
  | Rflush (Tag : Z)
  | Tread (Tag Fid Offset Count : Z)
  | Rread (Tag : Z) (Data : bytes)
  | Twrite (Tag Fid Offset : Z) (Data : bytes)
  | Rwrite (Tag Count : Z)
  | Tclunk (Tag Fid : Z)
  | Rclunk (Tag : Z)
  | Tremove (Tag Fid : Z)
  | Rremove (Tag : Z)
  | Topen (Tag Fid Mode : Z)
  | Ropen (Tag : Z) (qid : Qid) (Iounit : Z)
  | Tcreate (Tag Fid : Z) (Name : bytes) (Perm Mode : Z)
  | Rcreate (Tag : Z) (qid : Qid) (Iounit : Z)
  | Tstat (Tag Fid : Z)
  | Rstat (Tag : Z) (stat : Stat)
  | Twstat (Tag Fid : Z) (stat : Stat)
  | Rwstat (Tag : Z)
  | Twalk (Tag Fid NewFid : Z) (Names : list bytes)
  | Rwalk (Tag : Z) (Qids : list Qid).

Definition MsgType (m : Msg) : byte :=
  zbyte (match m with
  | Tversion _ _ _ => 100 | Rversion _ _ _ => 101
  | Tauth _ _ _ _ => 102 | Rauth _ _ => 103
  | Tattach _ _ _ _ _ => 104 | Rattach _ _ => 105
  | Rerror _ _ => 107
  | Tflush _ _ => 108 | Rflush _ => 109
  | Twalk _ _ _ _ => 110 | Rwalk _ _ => 111
  | Topen _ _ _ => 112 | Ropen _ _ _ => 113
  | Tcreate _ _ _ _ _ => 114 | Rcreate _ _ _ => 115
  | Tread _ _ _ _ => 116 | Rread _ _ => 117
  | Twrite _ _ _ _ => 118 | Rwrite _ _ => 119
  | Tclunk _ _ => 120 | Rclunk _ => 121
  | Tremove _ _ => 122 | Rremove _ => 123
  | Tstat _ _ => 124 | Rstat _ _ => 125
  | Twstat _ _ _ => 126 | Rwstat _ => 127
  end)%Z.

Definition NewMsg (mt : byte) : outcome Msg :=
  match byte.unsigned mt with
  | 100 => Ok (Tversion 0 0 [])
  | 101 => Ok (Rversion 0 0 [])
  | 104 => Ok (Tattach 0 0 0 [] [])
  | 105 => Ok (Rattach 0 zero_qid)
  | 102 => Ok (Tauth 0 0 [] [])
  | 103 => Ok (Rauth 0 zero_qid)
  | 107 => Ok (Rerror 0 [])
  | 108 => Ok (Tflush 0 0)
  | 109 => Ok (Rflush 0)
  | 116 => Ok (Tread 0 0 0 0)
  | 117 => Ok (Rread 0 [])
  | 118 => Ok (Twrite 0 0 0 [])
  | 119 => Ok (Rwrite 0 0)
  | 120 => Ok (Tclunk 0 0)
  | 121 => Ok (Rclunk 0)
  | 122 => Ok (Tremove 0 0)
  | 123 => Ok (Rremove 0)
  | 112 => Ok (Topen 0 0 0)
  | 113 => Ok (Ropen 0 zero_qid 0)
  | 114 => Ok (Tcreate 0 0 [] 0 0)
  | 115 => Ok (Rcreate 0 zero_qid 0)
  | 124 => Ok (Tstat 0 0)
  | 125 => Ok (Rstat 0 zero_stat)
  | 126 => Ok (Twstat 0 0 zero_stat)
  | 127 => Ok (Rwstat 0)
  | 110 => Ok (Twalk 0 0 0 [])
  | 111 => Ok (Rwalk 0 [])
  | _ => Err ErrMsgCorrupt
  end%Z.

(** ** Buffers *)

(** [PutUintN(b[lo:hi], v)]: panics when the range is bad or too short. *)
Definition Put (n lo hi : nat) (v : Z) : M bytes unit :=
  b ← get;
  if bool_decide (lo ≤ hi ∧ hi ≤ length b ∧ n ≤ hi - lo)
  then modify (λ b, splice b lo (put_le n v)) else panic.

(** [b[i] = byte(v)] *)
Definition PutByte (i : nat) (v : Z) : M bytes unit :=
  b ← get; b ← lift (set_idx b i (zbyte v)); modify (λ _, b).

(** [copy(b[lo:hi], src)] and [copy(b[lo:], src)] *)
Definition Copy (lo hi : nat) (src : bytes) : M bytes unit :=
  b ← get; b ← lift (copy_at b lo hi src); modify (λ _, b).
Definition CopyFrom (lo : nat) (src : bytes) : M bytes unit :=
  b ← get; Copy lo (length b) src.

(** Run [c] on [b[lo:hi]]. *)
Definition at_slice (lo hi : nat) (c : M bytes unit) : M bytes unit := λ b,
  match slice b lo hi with
  | Ok s => let '(o, s') := c s in (o, splice b lo s')
  | _ => (Panic, b)
  end.
Definition at_slice_from (lo : nat) (c : M bytes unit) : M bytes unit :=
  b ← get; at_slice lo (length b) c.

(** A slice to read from: [arr] runs to its capacity, [slen] is its length. *)
Record gslice := mkSlice { arr : bytes; slen : nat }.

(** [b[lo:hi]] may reach past the length, up to the capacity; [b[lo:]] ends at
    the length. *)
Definition sub (b : gslice) (lo hi : nat) : outcome gslice :=
  if bool_decide (lo ≤ hi ∧ hi ≤ length b.(arr)) then Ok (mkSlice (drop lo b.(arr)) (hi - lo))
  else Panic.
Definition sub_from (b : gslice) (lo : nat) : outcome gslice := sub b lo b.(slen).

(** [UintN(b)], [UintN(b[lo:hi])], [b[i]], [string(b[lo:hi])] *)
Definition Uint (n : nat) (b : gslice) : outcome Z :=
  if bool_decide (b.(slen) < n) then Panic else Ok (get_le (take n b.(arr))).
Definition UintAt (n : nat) (b : gslice) (lo hi : nat) : outcome Z :=
  s ← sub b lo hi; Uint n s.
Definition ByteAt (b : gslice) (i : nat) : outcome Z :=
  if bool_decide (b.(slen) ≤ i) then Panic
  else x ← idx b.(arr) i; Ok (byte.unsigned x).
Definition StrAt (b : gslice) (lo hi : nat) : outcome bytes :=
  s ← sub b lo hi; Ok (take s.(slen) s.(arr)).

Definition truncstrlen (s : bytes) : nat := Z.to_nat (u16 (Z.of_nat (length s))).
Definition strlen16 (s : bytes) : Z := u16 (Z.of_nat (length s)).
(** An index computed in [uint16]. *)
Definition idx16 (k : Z) (n : Z) : nat := Z.to_nat (u16 (k + n)).

(** ** Qids and stats *)

Definition PackQid (q : Qid) : M bytes unit :=
  PutByte 0 (q_Type q);;
  Put 4 1 5 (q_Version q);;
  Put 8 5 13 (q_Path q).

Definition UnpackQid (b : gslice) : outcome Qid :=
  ty ← ByteAt b 0;
  version ← UintAt 4 b 1 5;
  path ← UintAt 8 b 5 13;
  Ok (mkQid ty version path).

Definition StatLen (st : Stat) : nat :=
  2 + 2 + 4 + QidSize + 4 + 4 + 4 + 8 + 2 + truncstrlen (s_Name st) + 2 + truncstrlen (s_UID st)
  + 2 + truncstrlen (s_GID st) + 2 + truncstrlen (s_MUID st).

Definition PackStat (st : Stat) : M bytes unit :=
  Put 2 0 2 (u16 (Z.of_nat (StatLen st) - 2));;
  Put 2 2 4 (s_Type st);;
  Put 4 4 8 (s_Dev st);;
  at_slice 8 21 (PackQid (s_Qid st));;
  Put 4 21 25 (s_Mode st);;
  Put 4 25 29 (s_Atime st);;
  Put 4 29 33 (s_Mtime st);;
  Put 8 33 41 (s_Length st);;
  let namelen := truncstrlen (s_Name st) in
  let uidlen := truncstrlen (s_UID st) in
  let gidlen := truncstrlen (s_GID st) in
  let muidlen := truncstrlen (s_MUID st) in
  b ← get;
  Put 2 41 (length b) (Z.of_nat namelen);;
  Put 2 (43 + namelen) (length b) (Z.of_nat uidlen);;
  Put 2 (45 + namelen + uidlen) (length b) (Z.of_nat gidlen);;
  Put 2 (47 + namelen + uidlen + gidlen) (length b) (Z.of_nat muidlen);;
  Copy 43 (43 + namelen) (s_Name st);;
  Copy (45 + namelen) (45 + namelen + uidlen) (s_UID st);;
  Copy (47 + namelen + uidlen) (47 + namelen + uidlen + gidlen) (s_GID st);;
  Copy (49 + namelen + uidlen + gidlen) (49 + namelen + uidlen + gidlen + muidlen) (s_MUID st).

(** The size read so far grows by each string's length before the next is read. *)
Definition UnpackStat (b : gslice) : outcome (nat * Stat) :=
  let sz := 2 + 2 + 4 + QidSize + 4 + 4 + 4 + 8 + 2 + 2 + 2 + 2 in
  if bool_decide (slen b < sz) then Err ErrMsgCorrupt
  else
  ty ← UintAt 2 b 2 4;
  dev ← UintAt 4 b 4 8;
  qb ← sub b 8 21; qid ← UnpackQid qb;
  mode ← UintAt 4 b 21 25;
  atime ← UintAt 4 b 25 29;
  mtime ← UintAt 4 b 29 33;
  len ← UintAt 8 b 33 41;
  namelen ← UintAt 2 b 41 43;
  let namelen := Z.to_nat namelen in
  let sz := sz + namelen in
  if bool_decide (slen b < sz) then Err ErrMsgCorrupt
  else
  uidlen ← UintAt 2 b (43 + namelen) (45 + namelen);
  let uidlen := Z.to_nat uidlen in
  let sz := sz + uidlen in
  if bool_decide (slen b < sz) then Err ErrMsgCorrupt
  else
  gidlen ← UintAt 2 b (45 + namelen + uidlen) (47 + namelen + uidlen);
  let gidlen := Z.to_nat gidlen in
  let sz := sz + gidlen in
  if bool_decide (slen b < sz) then Err ErrMsgCorrupt
  else
  muidlen ← UintAt 2 b (47 + namelen + uidlen + gidlen) (49 + namelen + uidlen + gidlen);
  let muidlen := Z.to_nat muidlen in
  let sz := sz + muidlen in
  if bool_decide (slen b < sz) then Err ErrMsgCorrupt
  else
  name ← StrAt b 43 (43 + namelen);
  uid ← StrAt b (45 + namelen) (45 + namelen + uidlen);
  gid ← StrAt b (47 + namelen + uidlen) (47 + namelen + uidlen + gidlen);
  muid ← StrAt b (49 + namelen + uidlen + gidlen) (49 + namelen + uidlen + gidlen + muidlen);
  Ok (sz, mkStat ty dev qid mode atime mtime len name uid gid muid).

(** ** The messages *)

(** *** Tversion *)
Definition Tversion_WireLen (tag : Z) (messageSize : Z) (version : bytes) : nat :=
  HeaderSize + 2 + 4 + 2 + truncstrlen version.
Definition Tversion_PackBody (tag : Z) (messageSize : Z) (version : bytes) : M bytes unit :=
  Put 2 0 2 tag;;
  Put 4 2 6 messageSize;;
  Put 2 6 8 (strlen16 version);;
  CopyFrom 8 (take (truncstrlen version) version).
Definition Tversion_UnpackBody (b : gslice) : outcome Msg :=
  if bool_decide (slen b < 8) then Err ErrMsgCorrupt
  else
  tag ← UintAt 2 b 0 2;
  messageSize ← UintAt 4 b 2 6;
  strlen ← UintAt 2 b 6 8;
  let strlen := Z.to_nat strlen in
  let sz := 8 + strlen in
  if bool_decide (slen b < sz) then Err ErrMsgCorrupt
  else
  version ← StrAt b 8 (8 + strlen);
  Ok (Tversion tag messageSize version).

(** *** Rversion *)
Definition Rversion_WireLen (tag : Z) (messageSize : Z) (version : bytes) : nat :=
  HeaderSize + 2 + 4 + 2 + truncstrlen version.
Definition Rversion_PackBody (tag : Z) (messageSize : Z) (version : bytes) : M bytes unit :=
  Put 2 0 2 tag;;
  Put 4 2 6 messageSize;;
  Put 2 6 8 (strlen16 version);;
  CopyFrom 8 (take (truncstrlen version) version).
Definition Rversion_UnpackBody (b : gslice) : outcome Msg :=
  if bool_decide (slen b < 8) then Err ErrMsgCorrupt
  else
  tag ← UintAt 2 b 0 2;
  messageSize ← UintAt 4 b 2 6;
  strlen ← UintAt 2 b 6 8;
  let strlen := Z.to_nat strlen in
  let sz := 8 + strlen in
  if bool_decide (slen b < sz) then Err ErrMsgCorrupt
  else
  version ← StrAt b 8 (8 + strlen);
  Ok (Rversion tag messageSize version).

(** *** Rerror *)
Definition Rerror_WireLen (tag : Z) (err : bytes) : nat := HeaderSize + 2 + 2 + truncstrlen err.
Definition Rerror_PackBody (tag : Z) (err : bytes) : M bytes unit :=
  Put 2 0 2 tag;;
  Put 2 2 4 (strlen16 err);;
  CopyFrom 4 (take (truncstrlen err) err).
Definition Rerror_UnpackBody (b : gslice) : outcome Msg :=
  if bool_decide (slen b < 4) then Err ErrMsgCorrupt
  else
  tag ← UintAt 2 b 0 2;
  strlen ← UintAt 2 b 2 4;
  let strlen := Z.to_nat strlen in
  let sz := 4 + strlen in
  if bool_decide (slen b < sz) then Err ErrMsgCorrupt
  else
  err ← StrAt b 4 (4 + strlen);
  Ok (Rerror tag err).

(** *** Tflush *)
Definition Tflush_WireLen (tag : Z) (oldTag : Z) : nat := HeaderSize + 2 + 2.
Definition Tflush_PackBody (tag : Z) (oldTag : Z) : M bytes unit :=
  Put 2 0 2 tag;;
  Put 2 2 4 oldTag.
Definition Tflush_UnpackBody (b : gslice) : outcome Msg :=
  if bool_decide (slen b < 4) then Err ErrMsgCorrupt
  else
  tag ← UintAt 2 b 0 2;
  oldTag ← UintAt 2 b 2 4;
  Ok (Tflush tag oldTag).

(** *** Rflush *)
Definition Rflush_WireLen (tag : Z) : nat := HeaderSize + 2.
Definition Rflush_PackBody (tag : Z) : M bytes unit :=
  Put 2 0 2 tag.
Definition Rflush_UnpackBody (b : gslice) : outcome Msg :=
  if bool_decide (slen b < 2) then Err ErrMsgCorrupt
  else
  tag ← UintAt 2 b 0 2;
  Ok (Rflush tag).

(** *** Tread *)
Definition Tread_WireLen (tag : Z) (fid : Z) (offset : Z) (count : Z) : nat :=
  HeaderSize + 2 + 4 + 8 + 4.
Definition Tread_PackBody (tag : Z) (fid : Z) (offset : Z) (count : Z) : M bytes unit :=
  Put 2 0 2 tag;;
  Put 4 2 6 fid;;
  Put 8 6 14 offset;;
  Put 4 14 18 count.
Definition Tread_UnpackBody (b : gslice) : outcome Msg :=
  if bool_decide (slen b < 18) then Err ErrMsgCorrupt
  else
  tag ← UintAt 2 b 0 2;
  fid ← UintAt 4 b 2 6;
  offset ← UintAt 8 b 6 14;
  count ← UintAt 4 b 14 18;
  Ok (Tread tag fid offset count).

(** *** Rread *)
Definition Rread_WireLen (tag : Z) (data : bytes) : nat := HeaderSize + 2 + 4 + length data.
Definition Rread_PackBody (tag : Z) (data : bytes) : M bytes unit :=
  Put 2 0 2 tag;;
  Put 4 2 6 (u32 (Z.of_nat (length data)));;
  CopyFrom 6 data.
Definition Rread_UnpackBody (b : gslice) : outcome Msg :=
  if bool_decide (slen b < 6) then Err ErrMsgCorrupt
  else
  tag ← UintAt 2 b 0 2;
  datalen ← UintAt 4 b 2 6;
  let sz := 6 + Z.to_nat datalen in
  if bool_decide (slen b < sz) then Err ErrMsgCorrupt
  else
  data ← StrAt b 6 (Z.to_nat (u32 (6 + datalen)));
  Ok (Rread tag data).

(** *** Twrite *)
Definition Twrite_WireLen (tag : Z) (fid : Z) (offset : Z) (data : bytes) : nat :=
  HeaderSize + 2 + 4 + 8 + 4 + length data.
Definition Twrite_PackBody (tag : Z) (fid : Z) (offset : Z) (data : bytes) : M bytes unit :=
  Put 2 0 2 tag;;
  Put 4 2 6 fid;;
  Put 8 6 14 offset;;
  Put 4 14 18 (u32 (Z.of_nat (length data)));;
  CopyFrom 18 data.
Definition Twrite_UnpackBody (b : gslice) : outcome Msg :=
  if bool_decide (slen b < 18) then Err ErrMsgCorrupt
  else
  tag ← UintAt 2 b 0 2;
  fid ← UintAt 4 b 2 6;
  offset ← UintAt 8 b 6 14;
  datalen ← UintAt 4 b 14 18;
  let sz := 18 + Z.to_nat datalen in
  if bool_decide (slen b < sz) then Err ErrMsgCorrupt
  else
  data ← StrAt b 18 (Z.to_nat (u32 (18 + datalen)));
  Ok (Twrite tag fid offset data).

(** *** Rwrite *)
Definition Rwrite_WireLen (tag : Z) (count : Z) : nat := HeaderSize + 2 + 4.
Definition Rwrite_PackBody (tag : Z) (count : Z) : M bytes unit :=
  Put 2 0 2 tag;;
  Put 4 2 6 count.
Definition Rwrite_UnpackBody (b : gslice) : outcome Msg :=
  if bool_decide (slen b < 6) then Err ErrMsgCorrupt
  else
  tag ← UintAt 2 b 0 2;
  count ← UintAt 4 b 2 6;
  Ok (Rwrite tag count).

(** *** Tclunk *)
Definition Tclunk_WireLen (tag : Z) (fid : Z) : nat := HeaderSize + 2 + 4.
Definition Tclunk_PackBody (tag : Z) (fid : Z) : M bytes unit :=
  Put 2 0 2 tag;;
  Put 4 2 6 fid.
Definition Tclunk_UnpackBody (b : gslice) : outcome Msg :=
  if bool_decide (slen b < 6) then Err ErrMsgCorrupt
  else
  tag ← UintAt 2 b 0 2;
  fid ← UintAt 4 b 2 6;
  Ok (Tclunk tag fid).

(** *** Rclunk *)
Definition Rclunk_WireLen (tag : Z) : nat := HeaderSize + 2.
Definition Rclunk_PackBody (tag : Z) : M bytes unit :=
  Put 2 0 2 tag.
Definition Rclunk_UnpackBody (b : gslice) : outcome Msg :=
  if bool_decide (slen b < 2) then Err ErrMsgCorrupt
  else
  tag ← UintAt 2 b 0 2;
  Ok (Rclunk tag).

(** *** Tremove *)
Definition Tremove_WireLen (tag : Z) (fid : Z) : nat := HeaderSize + 2 + 4.
Definition Tremove_PackBody (tag : Z) (fid : Z) : M bytes unit :=
  Put 2 0 2 tag;;
  Put 4 2 6 fid.
Definition Tremove_UnpackBody (b : gslice) : outcome Msg :=
  if bool_decide (slen b < 6) then Err ErrMsgCorrupt
  else
  tag ← UintAt 2 b 0 2;
  fid ← UintAt 4 b 2 6;
  Ok (Tremove tag fid).

(** *** Rremove *)
Definition Rremove_WireLen (tag : Z) : nat := HeaderSize + 2.
Definition Rremove_PackBody (tag : Z) : M bytes unit :=
  Put 2 0 2 tag.
Definition Rremove_UnpackBody (b : gslice) : outcome Msg :=
  if bool_decide (slen b < 2) then Err ErrMsgCorrupt
  else
  tag ← UintAt 2 b 0 2;
  Ok (Rremove tag).

(** *** Topen *)
Definition Topen_WireLen (tag : Z) (fid : Z) (mode : Z) : nat := HeaderSize + 2 + 4 + 1.
Definition Topen_PackBody (tag : Z) (fid : Z) (mode : Z) : M bytes unit :=
  Put 2 0 2 tag;;
  Put 4 2 6 fid;;
  PutByte 6 mode.
Definition Topen_UnpackBody (b : gslice) : outcome Msg :=
  if bool_decide (slen b < 7) then Err ErrMsgCorrupt
  else
  tag ← UintAt 2 b 0 2;
  fid ← UintAt 4 b 2 6;
  mode ← ByteAt b 6;
  Ok (Topen tag fid mode).

(** *** Ropen *)
Definition Ropen_WireLen (tag : Z) (qid : Qid) (iounit : Z) : nat := HeaderSize + 2 + QidSize + 4.
Definition Ropen_PackBody (tag : Z) (qid : Qid) (iounit : Z) : M bytes unit :=
  Put 2 0 2 tag;;
  at_slice 2 15 (PackQid qid);;
  Put 4 15 19 iounit.
Definition Ropen_UnpackBody (b : gslice) : outcome Msg :=
  if bool_decide (slen b < 19) then Err ErrMsgCorrupt
  else
  tag ← UintAt 2 b 0 2;
  qb ← sub b 2 15; qid ← UnpackQid qb;
  iounit ← UintAt 4 b 15 19;
  Ok (Ropen tag qid iounit).

(** *** Rcreate *)
Definition Rcreate_WireLen (tag : Z) (qid : Qid) (iounit : Z) : nat :=
  HeaderSize + 2 + QidSize + 4.
Definition Rcreate_PackBody (tag : Z) (qid : Qid) (iounit : Z) : M bytes unit :=
  Put 2 0 2 tag;;
  at_slice 2 15 (PackQid qid);;
  Put 4 15 19 iounit.
Definition Rcreate_UnpackBody (b : gslice) : outcome Msg :=
  if bool_decide (slen b < 19) then Err ErrMsgCorrupt
  else
  tag ← UintAt 2 b 0 2;
  qb ← sub b 2 15; qid ← UnpackQid qb;
  iounit ← UintAt 4 b 15 19;
  Ok (Rcreate tag qid iounit).

(** *** Tstat *)
Definition Tstat_WireLen (tag : Z) (fid : Z) : nat := HeaderSize + 2 + 4.
Definition Tstat_PackBody (tag : Z) (fid : Z) : M bytes unit :=
  Put 2 0 2 tag;;
  Put 4 2 6 fid.
Definition Tstat_UnpackBody (b : gslice) : outcome Msg :=
  if bool_decide (slen b < 6) then Err ErrMsgCorrupt
  else
  tag ← UintAt 2 b 0 2;
  fid ← UintAt 4 b 2 6;
  Ok (Tstat tag fid).

(** *** Rwstat *)
Definition Rwstat_WireLen (tag : Z) : nat := HeaderSize + 2.
Definition Rwstat_PackBody (tag : Z) : M bytes unit :=
  Put 2 0 2 tag.
Definition Rwstat_UnpackBody (b : gslice) : outcome Msg :=
  if bool_decide (slen b < 2) then Err ErrMsgCorrupt
  else
  tag ← UintAt 2 b 0 2;
  Ok (Rwstat tag).

(** *** Tauth *)
Definition Tauth_WireLen (tag afid : Z) (uname aname : bytes) : nat :=
  HeaderSize + 2 + 4 + 2 + truncstrlen uname + 2 + truncstrlen aname.
Definition Tauth_PackBody (tag afid : Z) (uname aname : bytes) : M bytes unit :=
  Put 2 0 2 tag;;
  Put 4 2 6 afid;;
  let unamelen := strlen16 uname in
  Put 2 6 8 unamelen;;
  CopyFrom 8 (take (truncstrlen uname) uname);;
  let anamelen := strlen16 aname in
  Put 2 (idx16 8 unamelen) (idx16 10 unamelen) anamelen;;
  CopyFrom (idx16 10 unamelen) (take (truncstrlen aname) aname).
Definition Tauth_UnpackBody (b : gslice) : outcome Msg :=
  let sz := 2 + 4 + 2 + 2 in
  if bool_decide (slen b < sz) then Err ErrMsgCorrupt
  else
  tag ← UintAt 2 b 0 2;
  afid ← UintAt 4 b 2 6;
  unamelen ← UintAt 2 b 6 8;
  let unamelen := Z.to_nat unamelen in
  let sz := sz + unamelen in
  if bool_decide (slen b < sz) then Err ErrMsgCorrupt
  else
  uname ← StrAt b 8 (8 + unamelen);
  anamelen ← UintAt 2 b (8 + unamelen) (10 + unamelen);
  let anamelen := Z.to_nat anamelen in
  let sz := sz + anamelen in
  if bool_decide (slen b < sz) then Err ErrMsgCorrupt
  else
  aname ← StrAt b (10 + unamelen) (10 + unamelen + anamelen);
  Ok (Tauth tag afid uname aname).

(** *** Rauth *)
Definition Rauth_WireLen (tag : Z) (aqid : Qid) : nat := HeaderSize + 2 + QidSize.
Definition Rauth_PackBody (tag : Z) (aqid : Qid) : M bytes unit :=
  Put 2 0 2 tag;;
  at_slice_from 2 (PackQid aqid).
(** The slice is two bytes short, [b[2:QidSize]]; [UnpackQid] reads past its
    length, into the capacity that the check above guarantees. *)
Definition Rauth_UnpackBody (b : gslice) : outcome Msg :=
  if bool_decide (slen b < 2 + QidSize) then Err ErrMsgCorrupt
  else
  tag ← UintAt 2 b 0 2;
  qb ← sub b 2 QidSize; aqid ← UnpackQid qb;
  Ok (Rauth tag aqid).

(** *** Tattach *)
Definition Tattach_WireLen (tag fid afid : Z) (uname aname : bytes) : nat :=
  HeaderSize + 2 + 4 + 4 + 2 + truncstrlen uname + 2 + truncstrlen aname.
Definition Tattach_PackBody (tag fid afid : Z) (uname aname : bytes) : M bytes unit :=
  Put 2 0 2 tag;;
  Put 4 2 6 fid;;
  Put 4 6 10 afid;;
  let unamelen := strlen16 uname in
  Put 2 10 12 unamelen;;
  CopyFrom 12 (take (truncstrlen uname) uname);;
  let anamelen := strlen16 aname in
  Put 2 (idx16 12 unamelen) (idx16 14 unamelen) anamelen;;
  CopyFrom (idx16 14 unamelen) (take (truncstrlen aname) aname).
Definition Tattach_UnpackBody (b : gslice) : outcome Msg :=
  let sz := 2 + 4 + 4 + 2 + 2 in
  if bool_decide (slen b < sz) then Err ErrMsgCorrupt
  else
  tag ← UintAt 2 b 0 2;
  fid ← UintAt 4 b 2 6;
  afid ← UintAt 4 b 6 10;
  unamelen ← UintAt 2 b 10 12;
  let unamelen := Z.to_nat unamelen in
  let sz := sz + unamelen in
  if bool_decide (slen b < sz) then Err ErrMsgCorrupt
  else
  uname ← StrAt b 12 (12 + unamelen);
  anamelen ← UintAt 2 b (12 + unamelen) (14 + unamelen);
  let anamelen := Z.to_nat anamelen in
  let sz := sz + anamelen in
  if bool_decide (slen b < sz) then Err ErrMsgCorrupt
  else
  aname ← StrAt b (14 + unamelen) (14 + unamelen + anamelen);
  Ok (Tattach tag fid afid uname aname).

(** *** Rattach *)
Definition Rattach_WireLen (tag : Z) (qid : Qid) : nat := HeaderSize + 2 + QidSize.
Definition Rattach_PackBody (tag : Z) (qid : Qid) : M bytes unit :=
  Put 2 0 2 tag;;
  at_slice_from 2 (PackQid qid).
Definition Rattach_UnpackBody (b : gslice) : outcome Msg :=
  if bool_decide (slen b < 2 + QidSize) then Err ErrMsgCorrupt
  else
  tag ← UintAt 2 b 0 2;
  qb ← sub b 2 QidSize; qid ← UnpackQid qb;
  Ok (Rattach tag qid).

(** *** Tcreate *)
Definition Tcreate_WireLen (tag fid : Z) (name : bytes) (perm mode : Z) : nat :=
  HeaderSize + 2 + 4 + 2 + truncstrlen name + 4 + 1.
Definition Tcreate_PackBody (tag fid : Z) (name : bytes) (perm mode : Z) : M bytes unit :=
  Put 2 0 2 tag;;
  Put 4 2 6 fid;;
  let namelen := strlen16 name in
  Put 2 6 8 namelen;;
  Copy 8 (idx16 8 namelen) name;;
  Put 4 (idx16 8 namelen) (idx16 12 namelen) perm;;
  PutByte (idx16 12 namelen) mode.
Definition Tcreate_UnpackBody (b : gslice) : outcome Msg :=
  let sz := 2 + 4 + 2 + 4 + 1 in
  if bool_decide (slen b < sz) then Err ErrMsgCorrupt
  else
  tag ← UintAt 2 b 0 2;
  fid ← UintAt 4 b 2 6;
  namelen ← UintAt 2 b 6 8;
  let sz := sz + Z.to_nat namelen in
  if bool_decide (slen b < sz) then Err ErrMsgCorrupt
  else
  name ← StrAt b 8 (idx16 8 namelen);
  perm ← UintAt 4 b (idx16 8 namelen) (idx16 12 namelen);
  mode ← ByteAt b (idx16 12 namelen);
  Ok (Tcreate tag fid name perm mode).

(** *** Rstat *)
Definition Rstat_WireLen (tag : Z) (stat : Stat) : nat := HeaderSize + 2 + 2 + StatLen stat.
Definition Rstat_PackBody (tag : Z) (stat : Stat) : M bytes unit :=
  Put 2 0 2 tag;;
  Put 2 2 4 (u16 (Z.of_nat (StatLen stat)));;
  at_slice_from 4 (PackStat stat).
Definition Rstat_UnpackBody (b : gslice) : outcome Msg :=
  if bool_decide (slen b < 4) then Err ErrMsgCorrupt
  else
  tag ← UintAt 2 b 0 2;
  sb ← sub_from b 4;
  '(_, stat) ← UnpackStat sb;
  Ok (Rstat tag stat).

(** *** Twstat *)
Definition Twstat_WireLen (tag fid : Z) (stat : Stat) : nat :=
  HeaderSize + 2 + 4 + 2 + StatLen stat.
Definition Twstat_PackBody (tag fid : Z) (stat : Stat) : M bytes unit :=
  Put 2 0 2 tag;;
  Put 4 2 6 fid;;
  Put 2 6 8 (u16 (Z.of_nat (StatLen stat)));;
  at_slice_from 8 (PackStat stat).
Definition Twstat_UnpackBody (b : gslice) : outcome Msg :=
  if bool_decide (slen b < 8) then Err ErrMsgCorrupt
  else
  tag ← UintAt 2 b 0 2;
  fid ← UintAt 4 b 2 6;
  sb ← sub_from b 8;
  '(_, stat) ← UnpackStat sb;
  Ok (Twstat tag fid stat).

(** *** Twalk *)
Definition Twalk_WireLen (tag fid newFid : Z) (names : list bytes) : nat :=
  HeaderSize + 2 + 4 + 4 + 2 + sum_list_with (λ s, 2 + truncstrlen s) names.
Fixpoint pack_names (offset : nat) (names : list bytes) : M bytes unit :=
  match names with
  | [] => mret ()
  | n :: names =>
    let l := truncstrlen n in
    Put 2 (12 + offset) (14 + offset) (Z.of_nat l);;
    Copy (14 + offset) (14 + offset + l) (take l n);;
    pack_names (offset + (2 + l)) names
  end.
Definition Twalk_PackBody (tag fid newFid : Z) (names : list bytes) : M bytes unit :=
  Put 2 0 2 tag;;
  Put 4 2 6 fid;;
  Put 4 6 10 newFid;;
  Put 2 10 12 (u16 (Z.of_nat (length names)));;
  pack_names 0 names.
(** The size check counts the two length bytes of each name and not the name. *)
Fixpoint unpack_names (b : gslice) (n sz offset : nat) : outcome (list bytes) :=
  match n with
  | O => Ok []
  | S n =>
    let sz := sz + 2 in
    if bool_decide (slen b < sz) then Err ErrMsgCorrupt
    else
    nlen ← UintAt 2 b (12 + offset) (14 + offset);
    let nlen := Z.to_nat nlen in
    name ← StrAt b (14 + offset) (14 + offset + nlen);
    names ← unpack_names b n sz (offset + (nlen + 2));
    Ok (name :: names)
  end.
Definition Twalk_UnpackBody (b : gslice) : outcome Msg :=
  let sz := 2 + 4 + 4 + 2 in
  if bool_decide (slen b < sz) then Err ErrMsgCorrupt
  else
  tag ← UintAt 2 b 0 2;
  fid ← UintAt 4 b 2 6;
  newFid ← UintAt 4 b 6 10;
  n ← UintAt 2 b 10 12;
  names ← unpack_names b (Z.to_nat n) sz 0;
  Ok (Twalk tag fid newFid names).

(** *** Rwalk *)
Definition Rwalk_WireLen (tag : Z) (qids : list Qid) : nat :=
  HeaderSize + 2 + 2 + length qids * QidSize.
Fixpoint pack_qids (offset : nat) (qids : list Qid) : M bytes unit :=
  match qids with
  | [] => mret ()
  | q :: qids =>
    at_slice (4 + offset) (4 + offset + QidSize) (PackQid q);;
    pack_qids (offset + QidSize) qids
  end.
Definition Rwalk_PackBody (tag : Z) (qids : list Qid) : M bytes unit :=
  Put 2 0 2 tag;;
  Put 2 2 4 (u16 (Z.of_nat (length qids)));;
  pack_qids 0 qids.
Fixpoint unpack_qids (b : gslice) (n offset : nat) : outcome (list Qid) :=
  match n with
  | O => Ok []
  | S n =>
    qb ← sub b (4 + offset) (4 + offset + QidSize); q ← UnpackQid qb;
    qids ← unpack_qids b n (offset + QidSize);
    Ok (q :: qids)
  end.
(** The size check leaves out the four bytes before the qids. *)
Definition Rwalk_UnpackBody (b : gslice) : outcome Msg :=
  if bool_decide (slen b < 2 + 2) then Err ErrMsgCorrupt
  else
  tag ← UintAt 2 b 0 2;
  n ← UintAt 2 b 2 4;
  let n := Z.to_nat n in
  if bool_decide (slen b < n * QidSize) then Err ErrMsgCorrupt
  else
  qids ← unpack_qids b n 0;
  Ok (Rwalk tag qids).

(** ** The [Msg] interface *)

Definition WireLen (m : Msg) : nat :=
  match m with
  | Tversion a b c => Tversion_WireLen a b c
  | Rversion a b c => Rversion_WireLen a b c
  | Tauth a b c d => Tauth_WireLen a b c d
  | Rauth a b => Rauth_WireLen a b
  | Tattach a b c d e => Tattach_WireLen a b c d e
  | Rattach a b => Rattach_WireLen a b
  | Rerror a b => Rerror_WireLen a b
  | Tflush a b => Tflush_WireLen a b
  | Rflush a => Rflush_WireLen a
  | Tread a b c d => Tread_WireLen a b c d
  | Rread a b => Rread_WireLen a b
  | Twrite a b c d => Twrite_WireLen a b c d
  | Rwrite a b => Rwrite_WireLen a b
  | Tclunk a b => Tclunk_WireLen a b
  | Rclunk a => Rclunk_WireLen a
  | Tremove a b => Tremove_WireLen a b
  | Rremove a => Rremove_WireLen a
  | Topen a b c => Topen_WireLen a b c
  | Ropen a b c => Ropen_WireLen a b c
  | Tcreate a b c d e => Tcreate_WireLen a b c d e
  | Rcreate a b c => Rcreate_WireLen a b c
  | Tstat a b => Tstat_WireLen a b
  | Rstat a b => Rstat_WireLen a b
  | Twstat a b c => Twstat_WireLen a b c
  | Rwstat a => Rwstat_WireLen a
  | Twalk a b c d => Twalk_WireLen a b c d
  | Rwalk a b => Rwalk_WireLen a b
  end.

Definition PackBody (m : Msg) : M bytes unit :=
  match m with
  | Tversion a b c => Tversion_PackBody a b c
  | Rversion a b c => Rversion_PackBody a b c
  | Tauth a b c d => Tauth_PackBody a b c d
  | Rauth a b => Rauth_PackBody a b
  | Tattach a b c d e => Tattach_PackBody a b c d e
  | Rattach a b => Rattach_PackBody a b
  | Rerror a b => Rerror_PackBody a b
  | Tflush a b => Tflush_PackBody a b
  | Rflush a => Rflush_PackBody a
  | Tread a b c d => Tread_PackBody a b c d
  | Rread a b => Rread_PackBody a b
  | Twrite a b c d => Twrite_PackBody a b c d
  | Rwrite a b => Rwrite_PackBody a b
  | Tclunk a b => Tclunk_PackBody a b
  | Rclunk a => Rclunk_PackBody a
  | Tremove a b => Tremove_PackBody a b
  | Rremove a => Rremove_PackBody a
  | Topen a b c => Topen_PackBody a b c
  | Ropen a b c => Ropen_PackBody a b c
  | Tcreate a b c d e => Tcreate_PackBody a b c d e
  | Rcreate a b c => Rcreate_PackBody a b c
  | Tstat a b => Tstat_PackBody a b
  | Rstat a b => Rstat_PackBody a b
  | Twstat a b c => Twstat_PackBody a b c
  | Rwstat a => Rwstat_PackBody a
  | Twalk a b c d => Twalk_PackBody a b c d
  | Rwalk a b => Rwalk_PackBody a b
  end.

(** The receiver only selects the method: every field is overwritten. *)
Definition UnpackBody (m : Msg) (b : gslice) : outcome Msg :=
  match m with
  | Tversion _ _ _ => Tversion_UnpackBody b
  | Rversion _ _ _ => Rversion_UnpackBody b
  | Tauth _ _ _ _ => Tauth_UnpackBody b
  | Rauth _ _ => Rauth_UnpackBody b
  | Tattach _ _ _ _ _ => Tattach_UnpackBody b
  | Rattach _ _ => Rattach_UnpackBody b
  | Rerror _ _ => Rerror_UnpackBody b
  | Tflush _ _ => Tflush_UnpackBody b
  | Rflush _ => Rflush_UnpackBody b
  | Tread _ _ _ _ => Tread_UnpackBody b
  | Rread _ _ => Rread_UnpackBody b
  | Twrite _ _ _ _ => Twrite_UnpackBody b
  | Rwrite _ _ => Rwrite_UnpackBody b
  | Tclunk _ _ => Tclunk_UnpackBody b
  | Rclunk _ => Rclunk_UnpackBody b
  | Tremove _ _ => Tremove_UnpackBody b
  | Rremove _ => Rremove_UnpackBody b
  | Topen _ _ _ => Topen_UnpackBody b
  | Ropen _ _ _ => Ropen_UnpackBody b
  | Tcreate _ _ _ _ _ => Tcreate_UnpackBody b
  | Rcreate _ _ _ => Rcreate_UnpackBody b
  | Tstat _ _ => Tstat_UnpackBody b
  | Rstat _ _ => Rstat_UnpackBody b
  | Twstat _ _ _ => Twstat_UnpackBody b
  | Rwstat _ => Rwstat_UnpackBody b
  | Twalk _ _ _ _ => Twalk_UnpackBody b
  | Rwalk _ _ => Rwalk_UnpackBody b
  end.

(** [PackMsg(buf, msg)] returns the front of the buffer it filled. *)
Definition PackMsg (buf : bytes) (m : Msg) : outcome bytes :=
  let nreq := WireLen m in
  if bool_decide (length buf < nreq) then Err ErrBuffTooSmall
  else
    match PackBody m (take (nreq - HeaderSize) (drop HeaderSize buf)) with
    | (Ok _, body) => Ok (put_le 4 (u32 (Z.of_nat nreq)) ++ [MsgType m] ++ body)
    | (Err e, _) => Err e
    | (Panic, _) => Panic
    | (OutOfFuel, _) => OutOfFuel
    end.

Definition UnpackMsg (buf : gslice) : outcome Msg :=
  if bool_decide (slen buf < 5) then Err ErrBuffTooSmall
  else
    t ← idx buf.(arr) 4;
    m ← NewMsg t;
    b ← sub_from buf 5;
    UnpackBody m b.

Definition MakeError (t : Z) (err : bytes) : Msg := Rerror t err.

(** ** Messages on a connection

    The receive buffer is reused from message to message, so it is part of the
    state of [ReadMsg]. *)
Section Conn.
Context {R : Type} `{IoReader R} {W : Type} `{IoWriter W}.

(** [io.ReadFull(r, buf[lo:hi])]; after an error the buffer is not used again, so
    the bytes a partial read leaves in it are not kept. *)
Definition fill (lo hi : nat) : M (R * bytes) unit :=
  s ← get;
  _ ← lift (slice s.2 lo hi);
  d ← zoom fst (λ r s, (r, s.2)) (ReadFull (hi - lo));
  modify (λ s, (s.1, splice s.2 lo d)).

Definition ReadMsg : M (R * bytes) Msg :=
  s ← get;
  if bool_decide (length s.2 < 5) then throw ErrBuffTooSmall
  else
    fill 0 5;;
    s ← get;
    let sz := get_le (take 4 s.2) in
    if bool_decide (sz < 5)%Z then throw ErrMsgCorrupt
    else if bool_decide (u32 (Z.of_nat (length s.2)) < sz)%Z then throw ErrBuffTooSmall
    else
      fill 5 (Z.to_nat sz);;
      s ← get;
      lift (UnpackMsg (mkSlice s.2 (Z.to_nat sz))).

Definition WriteMsg (buf : bytes) (m : Msg) : M W unit :=
  packed ← lift (PackMsg buf m);
  io_write packed.
End Conn.
