(* ===== verification/Proto9Props.v ===== *)
(** Correctness of the 9P codec: every message round-trips, whatever the buffers
    held before, and framing on a connection is exact. *)

From Stdlib Require Import ZArith Lia.
From stdpp Require Import base list strings.
From coqutil Require Import Byte.
From S2P Require Import Prelude Io Proto9.

Set Default Goal Selector "!".

(** ** The wire format *)

Definition fit (n : nat) (z : Z) : Prop := (0 ≤ z < 2 ^ (8 * Z.of_nat n))%Z.
Definition fits_str (s : bytes) : Prop := (Z.of_nat (length s) < 2 ^ 16)%Z.

Definition valid_qid (q : Qid) : Prop := fit 1 (q_Type q) ∧ fit 4 (q_Version q) ∧ fit 8 (q_Path q).
Definition valid_stat (st : Stat) : Prop :=
  fit 2 (s_Type st) ∧ fit 4 (s_Dev st) ∧ valid_qid (s_Qid st) ∧ fit 4 (s_Mode st) ∧
  fit 4 (s_Atime st) ∧ fit 4 (s_Mtime st) ∧ fit 8 (s_Length st) ∧
  fits_str (s_Name st) ∧ fits_str (s_UID st) ∧ fits_str (s_GID st) ∧ fits_str (s_MUID st).

(** Fields in range; the names of [Tauth], [Tattach] and [Tcreate] short enough
    for the offsets after them to fit 16 bits. *)
Definition valid_msg (m : Msg) : Prop :=
  match m with
  | Tversion tag msize v | Rversion tag msize v => fit 2 tag ∧ fit 4 msize ∧ fits_str v
  | Tauth tag afid u a =>
    fit 2 tag ∧ fit 4 afid ∧ (10 + Z.of_nat (length u) < 2 ^ 16)%Z ∧ fits_str a
  | Rauth tag q | Rattach tag q => fit 2 tag ∧ valid_qid q
  | Tattach tag fid afid u a =>
    fit 2 tag ∧ fit 4 fid ∧ fit 4 afid ∧ (14 + Z.of_nat (length u) < 2 ^ 16)%Z ∧ fits_str a
  | Rerror tag e => fit 2 tag ∧ fits_str e
  | Tflush tag old => fit 2 tag ∧ fit 2 old
  | Rflush tag | Rclunk tag | Rremove tag | Rwstat tag => fit 2 tag
  | Tread tag fid off count => fit 2 tag ∧ fit 4 fid ∧ fit 8 off ∧ fit 4 count
  | Rread tag d => fit 2 tag ∧ (6 + Z.of_nat (length d) < 2 ^ 32)%Z
  | Twrite tag fid off d => fit 2 tag ∧ fit 4 fid ∧ fit 8 off ∧ (18 + Z.of_nat (length d) < 2 ^ 32)%Z
  | Rwrite tag count => fit 2 tag ∧ fit 4 count
  | Tclunk tag fid | Tremove tag fid | Tstat tag fid => fit 2 tag ∧ fit 4 fid
  | Topen tag fid mode => fit 2 tag ∧ fit 4 fid ∧ fit 1 mode
  | Ropen tag q iounit | Rcreate tag q iounit => fit 2 tag ∧ valid_qid q ∧ fit 4 iounit
  | Tcreate tag fid name perm mode =>
    fit 2 tag ∧ fit 4 fid ∧ (12 + Z.of_nat (length name) < 2 ^ 16)%Z ∧ fit 4 perm ∧ fit 1 mode
  | Rstat tag st => fit 2 tag ∧ valid_stat st
  | Twstat tag fid st => fit 2 tag ∧ fit 4 fid ∧ valid_stat st
  | Twalk tag fid newfid names =>
    fit 2 tag ∧ fit 4 fid ∧ fit 4 newfid ∧ (Z.of_nat (length names) < 2 ^ 16)%Z ∧
    Forall fits_str names
  | Rwalk tag qids => fit 2 tag ∧ (Z.of_nat (length qids) < 2 ^ 16)%Z ∧ Forall valid_qid qids
  end.

Definition enc_str (s : bytes) : bytes := put_le 2 (Z.of_nat (length s)) ++ s.
Definition enc_data (s : bytes) : bytes := put_le 4 (Z.of_nat (length s)) ++ s.
Definition enc_byte (z : Z) : bytes := [zbyte z].
Definition enc_qid (q : Qid) : bytes :=
  enc_byte (q_Type q) ++ put_le 4 (q_Version q) ++ put_le 8 (q_Path q).
Definition enc_stat (st : Stat) : bytes :=
  put_le 2 (u16 (Z.of_nat (StatLen st) - 2)) ++ put_le 2 (s_Type st) ++ put_le 4 (s_Dev st) ++
  enc_qid (s_Qid st) ++ put_le 4 (s_Mode st) ++ put_le 4 (s_Atime st) ++ put_le 4 (s_Mtime st) ++
  put_le 8 (s_Length st) ++
  enc_str (s_Name st) ++ enc_str (s_UID st) ++ enc_str (s_GID st) ++ enc_str (s_MUID st).

Definition enc_body (m : Msg) : bytes :=
  match m with
  | Tversion tag msize v | Rversion tag msize v => put_le 2 tag ++ put_le 4 msize ++ enc_str v
  | Tauth tag afid u a => put_le 2 tag ++ put_le 4 afid ++ enc_str u ++ enc_str a
  | Rauth tag q | Rattach tag q => put_le 2 tag ++ enc_qid q
  | Tattach tag fid afid u a =>
    put_le 2 tag ++ put_le 4 fid ++ put_le 4 afid ++ enc_str u ++ enc_str a
  | Rerror tag e => put_le 2 tag ++ enc_str e
  | Tflush tag old => put_le 2 tag ++ put_le 2 old
  | Rflush tag | Rclunk tag | Rremove tag | Rwstat tag => put_le 2 tag
  | Tread tag fid off count => put_le 2 tag ++ put_le 4 fid ++ put_le 8 off ++ put_le 4 count
  | Rread tag d => put_le 2 tag ++ enc_data d
  | Twrite tag fid off d => put_le 2 tag ++ put_le 4 fid ++ put_le 8 off ++ enc_data d
  | Rwrite tag count => put_le 2 tag ++ put_le 4 count
  | Tclunk tag fid | Tremove tag fid | Tstat tag fid => put_le 2 tag ++ put_le 4 fid
  | Topen tag fid mode => put_le 2 tag ++ put_le 4 fid ++ enc_byte mode
  | Ropen tag q iounit | Rcreate tag q iounit => put_le 2 tag ++ enc_qid q ++ put_le 4 iounit
  | Tcreate tag fid name perm mode =>
    put_le 2 tag ++ put_le 4 fid ++ enc_str name ++ put_le 4 perm ++ enc_byte mode
  | Rstat tag st => put_le 2 tag ++ put_le 2 (u16 (Z.of_nat (StatLen st))) ++ enc_stat st
  | Twstat tag fid st =>
    put_le 2 tag ++ put_le 4 fid ++ put_le 2 (u16 (Z.of_nat (StatLen st))) ++ enc_stat st
  | Twalk tag fid newfid names =>
    put_le 2 tag ++ put_le 4 fid ++ put_le 4 newfid ++ put_le 2 (Z.of_nat (length names)) ++
    concat (enc_str <$> names)
  | Rwalk tag qids => put_le 2 tag ++ put_le 2 (Z.of_nat (length qids)) ++ concat (enc_qid <$> qids)
  end.

Definition enc_msg (m : Msg) : bytes :=
  put_le 4 (Z.of_nat (WireLen m)) ++ [MsgType m] ++ enc_body m.

#[global] Arguments enc_str : simpl never.
#[global] Arguments enc_data : simpl never.
#[global] Arguments enc_byte : simpl never.
#[global] Arguments enc_qid : simpl never.
#[global] Arguments enc_stat : simpl never.
#[global] Arguments StatLen : simpl never.

Lemma truncstrlen_fits s : fits_str s → truncstrlen s = length s.
Proof. unfold fits_str, truncstrlen. intros. rewrite wrap_small by lia. lia. Qed.
Lemma strlen16_fits s : fits_str s → strlen16 s = Z.of_nat (length s).
Proof. unfold fits_str, strlen16. intros. rewrite wrap_small by lia. lia. Qed.
Lemma idx16_fits k (n : nat) : (0 ≤ k)%Z → (k + Z.of_nat n < 2 ^ 16)%Z → idx16 k (Z.of_nat n) = Z.to_nat k + n.
Proof. unfold idx16. intros. rewrite wrap_small by lia. lia. Qed.

Lemma length_enc_str s : length (enc_str s) = 2 + length s.
Proof. unfold enc_str. len. Qed.
Lemma length_enc_data s : length (enc_data s) = 4 + length s.
Proof. unfold enc_data. len. Qed.
Lemma length_enc_byte z : length (enc_byte z) = 1.
Proof. done. Qed.
Lemma length_enc_qid q : length (enc_qid q) = 13.
Proof. unfold enc_qid. rewrite !length_app, !length_put_le. done. Qed.
#[export] Hint Rewrite length_enc_str length_enc_data length_enc_byte length_enc_qid : len.

Lemma length_enc_stat st : valid_stat st → length (enc_stat st) = StatLen st.
Proof.
  intros (? & ? & ? & ? & ? & ? & ? & ? & ? & ? & ?). unfold enc_stat, StatLen, QidSize.
  rewrite !truncstrlen_fits by done. autorewrite with len. lia.
Qed.

Lemma length_enc_names names :
  Forall fits_str names →
  length (concat (enc_str <$> names)) = sum_list_with (λ s, 2 + truncstrlen s) names.
Proof.
  induction 1 as [|n names Hn Hns IH]; [done|]. rewrite fmap_cons, concat_cons, length_app, IH.
  rewrite length_enc_str. simpl. by rewrite truncstrlen_fits.
Qed.

Lemma length_enc_qids qids : length (concat (enc_qid <$> qids)) = length qids * QidSize.
Proof.
  induction qids as [|q qids IH]; [done|]. rewrite fmap_cons, concat_cons, length_app, IH.
  rewrite length_enc_qid. simpl. lia.
Qed.

Lemma WireLen_enc m : valid_msg m → WireLen m = HeaderSize + length (enc_body m).
Proof.
  destruct m; cbn [valid_msg WireLen enc_body]; intros; destruct_and?;
    unfold Tversion_WireLen, Rversion_WireLen, Tauth_WireLen, Rauth_WireLen, Tattach_WireLen,
      Rattach_WireLen, Rerror_WireLen, Tflush_WireLen, Rflush_WireLen, Tread_WireLen,
      Rread_WireLen, Twrite_WireLen, Rwrite_WireLen, Tclunk_WireLen, Rclunk_WireLen,
      Tremove_WireLen, Rremove_WireLen, Topen_WireLen, Ropen_WireLen, Tcreate_WireLen,
      Rcreate_WireLen, Tstat_WireLen, Rstat_WireLen, Twstat_WireLen, Rwstat_WireLen,
      Twalk_WireLen, Rwalk_WireLen, QidSize;
    rewrite ?length_enc_stat, ?truncstrlen_fits by (done || unfold fits_str; lia);
    autorewrite with len; rewrite ?length_enc_stat, ?length_enc_names, ?length_enc_qids by done;
    unfold HeaderSize, QidSize; lia.
Qed.

(** ** Packing

    While a body is packed the buffer is [pre ++ rest], [pre] what is written. *)
Section Pack.
Implicit Types (pre rest : bytes) (E : error → bytes → Prop) (Q : unit → bytes → Prop).

Lemma splice_at {A} (pre src rest : list A) :
  length src ≤ length rest →
  splice (pre ++ rest) (length pre) src = (pre ++ src) ++ drop (length src) rest.
Proof.
  intros. rewrite splice_fits by (rewrite length_app; lia). rewrite take_app_length.
  by rewrite drop_app_add, app_assoc.
Qed.

Lemma wp_Put pre rest n lo hi v Q E :
  lo = length pre → lo + n ≤ hi → hi ≤ length pre + length rest →
  Q () ((pre ++ put_le n v) ++ drop n rest) → wp (Put n lo hi v) Q E (pre ++ rest).
Proof.
  intros -> Hhi Hle HQ. unfold Put. wp_steps.
  rewrite bool_decide_eq_true_2 by (rewrite length_app; lia). wp_steps.
  rewrite splice_at by (rewrite length_put_le; lia). by rewrite length_put_le.
Qed.

Lemma wp_PutByte pre rest i v Q E :
  i = length pre → 1 ≤ length rest →
  Q () ((pre ++ enc_byte v) ++ drop 1 rest) → wp (PutByte i v) Q E (pre ++ rest).
Proof.
  intros -> Hle HQ. unfold PutByte. wp_steps. destruct rest as [|x rest]; [simpl in Hle; lia|].
  eapply wp_lift_ok; [apply set_idx_ok; rewrite length_app; simpl; lia|]. wp_steps.
  rewrite insert_app_r_alt, Nat.sub_diag by lia. simpl. by rewrite <-app_assoc in HQ.
Qed.

Lemma wp_Copy pre rest lo hi src Q E :
  lo = length pre → hi = lo + length src → length src ≤ length rest →
  Q () ((pre ++ src) ++ drop (length src) rest) → wp (Copy lo hi src) Q E (pre ++ rest).
Proof.
  intros -> -> Hle HQ. unfold Copy. wp_steps.
  eapply wp_lift_ok; [apply copy_at_fits; rewrite ?length_app; lia|]. wp_steps.
  by rewrite splice_at.
Qed.

Lemma wp_CopyFrom pre rest lo src Q E :
  lo = length pre → length src ≤ length rest →
  Q () ((pre ++ src) ++ drop (length src) rest) → wp (CopyFrom lo src) Q E (pre ++ rest).
Proof.
  intros -> Hle HQ. unfold CopyFrom. wp_steps. unfold Copy. wp_steps.
  eapply wp_lift_ok; [apply copy_at_fits; rewrite ?length_app; lia|]. wp_steps.
  by rewrite splice_at.
Qed.

(** [packs c v]: [c] turns any buffer of the right length into [v]. *)
Definition packs (c : M bytes unit) (v : bytes) : Prop :=
  ∀ b, length b = length v → wp c (λ _ b', b' = v) (λ _ _, False) b.

Lemma wp_at_slice pre rest lo hi c v Q E :
  packs c v → lo = length pre → hi = lo + length v → length v ≤ length rest →
  Q () ((pre ++ v) ++ drop (length v) rest) → wp (at_slice lo hi c) Q E (pre ++ rest).
Proof.
  intros Hc -> -> Hle HQ. unfold wp, at_slice.
  rewrite slice_ok by (rewrite ?length_app; lia). rewrite drop_app_length.
  replace (length pre + length v - length pre) with (length v) by lia.
  specialize (Hc (take (length v) rest) ltac:(rewrite length_take; lia)). unfold wp in Hc.
  destruct (c _) as [[[]|e| |] b]; try done. subst b. by rewrite splice_at.
Qed.

Lemma wp_at_slice_from pre rest lo c v Q E :
  packs c v → lo = length pre → length v = length rest →
  Q () (pre ++ v) → wp (at_slice_from lo c) Q E (pre ++ rest).
Proof.
  intros Hc Hlo Hle HQ. unfold at_slice_from. wp_steps.
  eapply wp_at_slice; [done|done|rewrite length_app; lia|lia|].
  by rewrite drop_ge, app_nil_r by lia.
Qed.

Lemma packs_start c v :
  (∀ rest, length rest = length v → wp c (λ _ b', b' = v) (λ _ _, False) ([] ++ rest)) → packs c v.
Proof. intros Hc b Hb. by apply Hc. Qed.
End Pack.

(** Side conditions on lengths, one step, and the end of a body. *)
Ltac pack_len := autorewrite with len; simpl; lia.
Ltac pack_step :=
  lazymatch goal with
  | |- wp (_ ≫= _) _ _ _ => apply wp_bind
  | |- wp (Put _ _ _ _) _ _ _ => apply wp_Put; [pack_len|pack_len|pack_len|]
  | |- wp (PutByte _ _) _ _ _ => apply wp_PutByte; [pack_len|pack_len|]
  | |- wp (CopyFrom _ _) _ _ _ => apply wp_CopyFrom; [pack_len|pack_len|]
  | |- wp (Copy _ _ _) _ _ _ => apply wp_Copy; [pack_len|pack_len|pack_len|]
  end.
Ltac pack_done :=
  rewrite ?drop_drop, drop_ge, app_nil_r by pack_len;
  unfold enc_str, enc_data; by rewrite <-?app_assoc.

Lemma PackQid_packs q : packs (PackQid q) (enc_qid q).
Proof.
  apply packs_start. intros rest Hr. unfold PackQid. rewrite length_enc_qid in Hr.
  repeat pack_step. pack_done.
Qed.

(** Overwrite a middle segment of the same length. *)
Lemma wp_Copy_mid (a x c src b : bytes) lo hi (Q : unit → bytes → Prop) E :
  b = a ++ x ++ c → lo = length a → hi = lo + length x → length src = length x →
  Q () (a ++ src ++ c) → wp (Copy lo hi src) Q E b.
Proof.
  intros -> -> -> Hs HQ. apply wp_Copy; [done|lia|rewrite length_app; lia|].
  by rewrite drop_app_length', <-app_assoc by done.
Qed.

(** Leave a gap of [k] bytes to be filled in later. *)
Lemma skip_gap k (pre rest : bytes) : pre ++ rest = (pre ++ take k rest) ++ drop k rest.
Proof. by rewrite <-app_assoc, take_drop. Qed.

(** The second half of [PackStat]: the strings go into the gaps between their
    lengths. *)
Lemma fill_strings (p l1 n l2 u l3 g l4 m n' u' g' m' : bytes) nl ul gl ml (Q : unit → bytes → Prop) E :
  length p = 41 → length l1 = 2 → length l2 = 2 → length l3 = 2 → length l4 = 2 →
  length n = nl → length u = ul → length g = gl → length m = ml →
  length n' = nl → length u' = ul → length g' = gl → length m' = ml →
  Q () (p ++ (l1 ++ n') ++ (l2 ++ u') ++ (l3 ++ g') ++ (l4 ++ m')) →
  wp (Copy 43 (43 + nl) n';;
      Copy (45 + nl) (45 + nl + ul) u';;
      Copy (47 + nl + ul) (47 + nl + ul + gl) g';;
      Copy (49 + nl + ul + gl) (49 + nl + ul + gl + ml) m') Q E
    ((((((((p ++ l1) ++ n) ++ l2) ++ u) ++ l3) ++ g) ++ l4) ++ m).
Proof.
  intros ????? <- <- <- <- Hn Hu Hg Hm HQ. rewrite <-!app_assoc.
  wp_step. apply (wp_Copy_mid (p ++ l1) n (l2 ++ u ++ l3 ++ g ++ l4 ++ m));
    [by rewrite <-!app_assoc|rewrite ?length_app; lia..|].
  wp_step. apply (wp_Copy_mid (p ++ l1 ++ n' ++ l2) u (l3 ++ g ++ l4 ++ m));
    [by rewrite <-!app_assoc|rewrite ?length_app; lia..|].
  wp_step. apply (wp_Copy_mid (p ++ l1 ++ n' ++ l2 ++ u' ++ l3) g (l4 ++ m));
    [by rewrite <-!app_assoc|rewrite ?length_app; lia..|].
  apply (wp_Copy_mid (p ++ l1 ++ n' ++ l2 ++ u' ++ l3 ++ g' ++ l4) m []);
    [by rewrite <-!app_assoc, app_nil_r|rewrite ?length_app; lia..|].
  rewrite app_nil_r. by rewrite <-!app_assoc in *.
Qed.

Lemma PackStat_packs st : valid_stat st → packs (PackStat st) (enc_stat st).
Proof.
  intros Hv. apply packs_start. intros rest Hr. rewrite length_enc_stat in Hr by done.
  destruct Hv as (_ & _ & _ & _ & _ & _ & _ & Hn & Hu & Hg & Hm).
  unfold StatLen, QidSize in Hr. rewrite !truncstrlen_fits in Hr by done.
  unfold PackStat. rewrite !truncstrlen_fits by done.
  set (nl := length (s_Name st)) in *. set (ul := length (s_UID st)) in *.
  set (gl := length (s_GID st)) in *. set (ml := length (s_MUID st)) in *.
  do 3 (wp_step; pack_step). wp_step.
  apply (wp_at_slice _ _ _ _ _ _ _ _ (PackQid_packs (s_Qid st))); [pack_len..|].
  rewrite length_enc_qid. do 4 (wp_step; pack_step). wp_step. wp_step.
  match goal with |- context [Put 2 41 ?l] => set (len := l) end.
  assert (Hlen : len = length rest) by (unfold len; pack_len). clearbody len.
  wp_step. pack_step. rewrite (skip_gap nl). wp_step. pack_step.
  rewrite (skip_gap ul). wp_step. pack_step. rewrite (skip_gap gl). wp_step. pack_step.
  apply fill_strings; try done; pack_len.
Qed.

Lemma pack_names_spec names pre rest offset :
  Forall fits_str names → length pre = 12 + offset →
  length rest = length (concat (enc_str <$> names)) →
  wp (pack_names offset names) (λ _ b, b = pre ++ concat (enc_str <$> names)) (λ _ _, False)
    (pre ++ rest).
Proof.
  intros Hn. revert pre rest offset.
  induction Hn as [|n names Hn Hns IH]; intros pre rest offset Hpre Hrest.
  { destruct rest; [|done]. simpl. by wp_step. }
  rewrite fmap_cons, concat_cons, length_app, length_enc_str in Hrest.
  cbn [pack_names]. rewrite truncstrlen_fits by done. rewrite (take_ge n) by done.
  do 2 (wp_step; pack_step).
  eapply wp_mono; [apply (IH ((pre ++ put_le 2 (Z.of_nat (length n))) ++ n)); pack_len| |done].
  cbn beta. intros [] b ->. rewrite fmap_cons, concat_cons. unfold enc_str at 2.
  by rewrite <-!app_assoc.
Qed.

Lemma pack_qids_spec qids pre rest offset :
  length pre = 4 + offset → length rest = length (concat (enc_qid <$> qids)) →
  wp (pack_qids offset qids) (λ _ b, b = pre ++ concat (enc_qid <$> qids)) (λ _ _, False)
    (pre ++ rest).
Proof.
  revert pre rest offset. induction qids as [|q qids IH]; intros pre rest offset Hpre Hrest.
  { destruct rest; [|done]. simpl. by wp_step. }
  rewrite fmap_cons, concat_cons, length_app, length_enc_qid in Hrest.
  cbn [pack_qids]. unfold QidSize. wp_step.
  apply (wp_at_slice _ _ _ _ _ _ _ _ (PackQid_packs q)); [pack_len..|]. rewrite length_enc_qid.
  eapply wp_mono; [apply (IH (pre ++ enc_qid q)); pack_len| |done].
  cbn beta. intros [] b ->. rewrite fmap_cons, concat_cons. by rewrite <-!app_assoc.
Qed.

Lemma PackBody_packs m : valid_msg m → packs (PackBody m) (enc_body m).
Proof.
  intros Hv. apply packs_start. intros rest Hr.
  destruct m; cbn [valid_msg enc_body PackBody] in *; destruct_and?;
    autorewrite with len in Hr; rewrite ?length_enc_stat in Hr by done;
    unfold Tversion_PackBody, Rversion_PackBody, Tauth_PackBody, Rauth_PackBody, Tattach_PackBody,
      Rattach_PackBody, Rerror_PackBody, Tflush_PackBody, Rflush_PackBody, Tread_PackBody,
      Rread_PackBody, Twrite_PackBody, Rwrite_PackBody, Tclunk_PackBody, Rclunk_PackBody,
      Tremove_PackBody, Rremove_PackBody, Topen_PackBody, Ropen_PackBody, Tcreate_PackBody,
      Rcreate_PackBody, Tstat_PackBody, Rstat_PackBody, Twstat_PackBody, Rwstat_PackBody,
      Twalk_PackBody, Rwalk_PackBody;
    rewrite ?truncstrlen_fits, ?strlen16_fits by (unfold fits_str in *; lia);
    rewrite ?idx16_fits by lia; rewrite ?wrap_small, ?take_ge by lia.
  all: repeat first
    [ pack_step
    | apply (wp_at_slice _ _ _ _ _ _ _ _ (PackQid_packs _));
      [pack_len|pack_len|pack_len|rewrite length_enc_qid]
    | apply (wp_at_slice_from _ _ _ _ _ _ _ (PackQid_packs _)); [pack_len|pack_len|]
    | apply (wp_at_slice_from _ _ _ _ _ _ _ (PackStat_packs _ ltac:(eassumption)));
      [pack_len|rewrite length_enc_stat by done; pack_len|] ].
  all: try pack_done.
  all: try (unfold enc_str, enc_data; by rewrite <-?app_assoc).
  - eapply wp_mono; [apply pack_names_spec; (done || pack_len)| |done].
    cbn beta. intros [] b ->. by rewrite <-?app_assoc.
  - eapply wp_mono; [apply pack_qids_spec; (done || pack_len)| |done].
    cbn beta. intros [] b ->. by rewrite <-?app_assoc.
Qed.

Lemma PackMsg_spec m buf :
  valid_msg m → (Z.of_nat (WireLen m) < 2 ^ 32)%Z →
  PackMsg buf m = if decide (WireLen m ≤ length buf) then Ok (enc_msg m) else Err ErrBuffTooSmall.
Proof.
  intros Hv Hw. unfold PackMsg, enc_msg. pose proof (WireLen_enc m Hv) as Hl.
  destruct (decide (WireLen m ≤ length buf)).
  - rewrite bool_decide_eq_false_2 by lia.
    pose proof (PackBody_packs m Hv (take (WireLen m - HeaderSize) (drop HeaderSize buf))) as Hp.
    unfold wp in Hp. destruct (PackBody m _) as [[[]|e| |] b];
      try (exfalso; apply Hp; rewrite length_take, length_drop; lia).
    rewrite Hp by (rewrite length_take, length_drop; lia). by rewrite wrap_small by lia.
  - by rewrite bool_decide_eq_true_2 by lia.
Qed.

(** ** Unpacking

    [cursor b lo rest]: from [lo] on, the slice's backing array holds [rest]. *)
Definition cursor (b : gslice) (lo : nat) (rest : bytes) : Prop :=
  lo ≤ length (arr b) ∧ drop lo (arr b) = rest.

Lemma cursor_next b lo hi (x post : bytes) :
  cursor b lo (x ++ post) → hi = lo + length x → cursor b hi post.
Proof.
  intros [Hle Hd] ->. pose proof (f_equal length Hd) as Hl. rewrite length_drop, length_app in Hl.
  split; [lia|]. by rewrite <-drop_drop, Hd, drop_app_length.
Qed.

Lemma cursor_le b lo (x post : bytes) : cursor b lo (x ++ post) → lo + length x ≤ length (arr b).
Proof.
  intros [Hle Hd]. pose proof (f_equal length Hd) as Hl. rewrite length_drop, length_app in Hl. lia.
Qed.

Lemma sub_cursor b lo hi (x post : bytes) :
  cursor b lo (x ++ post) → lo ≤ hi → hi ≤ length (arr b) →
  ∃ s, sub b lo hi = Ok s ∧ slen s = hi - lo ∧ cursor s 0 (x ++ post).
Proof.
  intros [Hle Hd] Hlo Hhi. exists (mkSlice (drop lo (arr b)) (hi - lo)).
  unfold sub. rewrite bool_decide_eq_true_2 by done. split_and!; [done..|].
  split; simpl; [lia|]. by rewrite drop_0.
Qed.

Lemma UintAt_cursor n b lo hi v post :
  cursor b lo (put_le n v ++ post) → hi = lo + n → fit n v → UintAt n b lo hi = Ok v.
Proof.
  intros Hc -> Hv. pose proof (cursor_le _ _ _ _ Hc) as Hle. rewrite length_put_le in Hle.
  destruct (sub_cursor b lo (lo + n) _ _ Hc) as (s & Hs & Hl & _ & Hd); [lia..|].
  unfold UintAt. rewrite Hs. unfold mbind, outcome_bind, Uint.
  rewrite bool_decide_eq_false_2 by lia. rewrite drop_0 in Hd. rewrite Hd.
  rewrite take_app_length' by (by rewrite length_put_le). by rewrite get_put_le_small.
Qed.

Lemma StrAt_cursor b lo hi (s post : bytes) :
  cursor b lo (s ++ post) → hi = lo + length s → StrAt b lo hi = Ok s.
Proof.
  intros Hc ->. pose proof (cursor_le _ _ _ _ Hc) as Hle.
  destruct (sub_cursor b lo (lo + length s) _ _ Hc) as (s' & Hs & Hl & _ & Hd); [lia..|].
  unfold StrAt. rewrite Hs. unfold mbind, outcome_bind. rewrite Hl. rewrite drop_0 in Hd.
  rewrite Hd. by rewrite take_app_length' by lia.
Qed.

Lemma ByteAt_cursor b i v post :
  cursor b i (enc_byte v ++ post) → i < slen b → fit 1 v → ByteAt b i = Ok v.
Proof.
  intros [Hle Hd] Hi Hv. unfold ByteAt. rewrite bool_decide_eq_false_2 by lia.
  rewrite (idx_ok _ _ (zbyte v)).
  - unfold mbind, outcome_bind. rewrite unsigned_zbyte. by rewrite wrap_small.
  - rewrite <-(Nat.add_0_r i), <-lookup_drop, Hd. done.
Qed.

Lemma UnpackQid_cursor b q post :
  cursor b 0 (enc_qid q ++ post) → valid_qid q → 0 < slen b → UnpackQid b = Ok q.
Proof.
  intros Hc (H1 & H2 & H3) Hl. unfold enc_qid in Hc. rewrite <-!app_assoc in Hc. unfold UnpackQid.
  rewrite (ByteAt_cursor _ _ _ _ Hc) by done. apply (cursor_next _ _ 1) in Hc; [|done].
  unfold mbind, outcome_bind. rewrite (UintAt_cursor _ _ _ 5 _ _ Hc) by done.
  apply (cursor_next _ _ 5) in Hc; [|by rewrite length_put_le].
  rewrite (UintAt_cursor _ _ _ 13 _ _ Hc) by done. by destruct q.
Qed.

(** [sub] to [hi], then [UnpackQid]; [hi] may fall short of the qid's end. *)
Lemma SubQid_cursor {A} b lo hi q post (k : Qid → outcome A) :
  cursor b lo (enc_qid q ++ post) → valid_qid q → lo < hi → hi ≤ lo + 13 →
  (s ← sub b lo hi; x ← UnpackQid s; k x) = k q.
Proof.
  intros Hc Hv Hlo Hhi. pose proof (cursor_le _ _ _ _ Hc) as Hle. rewrite length_enc_qid in Hle.
  destruct (sub_cursor b lo hi _ _ Hc) as (s & Hs & Hl & Hc'); [lia..|].
  rewrite Hs. unfold mbind, outcome_bind. by rewrite (UnpackQid_cursor s q post) by (done || lia).
Qed.

(** Read the field at the cursor and move on. *)
Ltac cur_len := autorewrite with len; unfold QidSize; simpl; lia.
Ltac read_step :=
  match goal with
  | H : cursor ?b ?lo (put_le ?n ?v ++ ?post) |- context [UintAt ?n ?b ?lo ?hi] =>
    rewrite (UintAt_cursor n b lo hi v post H) by (lia || assumption || (unfold fit; lia));
    apply (cursor_next b lo hi) in H; [|cur_len]
  | H : cursor ?b ?lo (?s ++ ?post) |- context [StrAt ?b ?lo ?hi] =>
    rewrite (StrAt_cursor b lo hi s post H) by (rewrite ?wrap_small; lia);
    apply (cursor_next b lo hi) in H; [|rewrite ?wrap_small; cur_len]
  | H : cursor ?b ?lo (enc_byte ?v ++ ?post) |- context [ByteAt ?b ?lo] =>
    rewrite (ByteAt_cursor b lo v post H) by (assumption || lia)
  | H : cursor ?b ?lo (enc_qid ?q ++ ?post) |- context [sub ?b ?lo ?hi] =>
    rewrite (SubQid_cursor b lo hi q post) by (assumption || (unfold QidSize; lia));
    apply (cursor_next b lo (lo + 13)) in H; [|cur_len]; cbn [Nat.add] in H
  | |- context [bool_decide (slen ?b < ?n)] => rewrite (bool_decide_eq_false_2 (slen b < n)) by cur_len
  end; try (unfold mbind at 1, outcome_bind at 1; cbn beta iota zeta); rewrite ?Nat2Z.id.

Lemma UnpackStat_cursor b st junk :
  cursor b 0 (enc_stat st ++ junk) → valid_stat st → slen b = StatLen st →
  ∃ n, UnpackStat b = Ok (n, st).
Proof.
  intros Hc Hv Hl. destruct Hv as (H1 & H2 & H3 & H4 & H5 & H6 & H7 & Hn & Hu & Hg & Hm).
  unfold StatLen, QidSize in Hl. rewrite !truncstrlen_fits in Hl by done.
  unfold fits_str in *. unfold enc_stat, enc_str in Hc. rewrite <-!app_assoc in Hc.
  unfold UnpackStat, QidSize.
  apply (cursor_next _ _ 2) in Hc; [|by rewrite length_put_le].
  rewrite bool_decide_eq_false_2 by lia.
  do 7 read_step.
  set (nl := length (s_Name st)) in *. set (ul := length (s_UID st)) in *.
  set (gl := length (s_GID st)) in *. set (ml := length (s_MUID st)) in *.
  assert (C1 := cursor_next _ _ 43 _ _ Hc ltac:(by rewrite length_put_le)).
  assert (C2 := cursor_next _ _ (43 + nl) _ _ C1 eq_refl).
  assert (C3 := cursor_next _ _ (45 + nl) _ _ C2 ltac:(rewrite length_put_le; lia)).
  assert (C4 := cursor_next _ _ (45 + nl + ul) _ _ C3 eq_refl).
  assert (C5 := cursor_next _ _ (47 + nl + ul) _ _ C4 ltac:(rewrite length_put_le; lia)).
  assert (C6 := cursor_next _ _ (47 + nl + ul + gl) _ _ C5 eq_refl).
  assert (C7 := cursor_next _ _ (49 + nl + ul + gl) _ _ C6 ltac:(rewrite length_put_le; lia)).
  repeat read_step. eexists. by destruct st.
Qed.

Lemma unpack_names_spec names b sz offset junk :
  cursor b (12 + offset) (concat (enc_str <$> names) ++ junk) → Forall fits_str names →
  sz + 2 * length names ≤ slen b →
  unpack_names b (length names) sz offset = Ok names.
Proof.
  intros Hc Hn. revert sz offset Hc.
  induction Hn as [|n names Hn Hns IH]; intros sz offset Hc Hsz; [done|].
  rewrite fmap_cons, concat_cons in Hc. unfold enc_str at 1 in Hc. rewrite <-!app_assoc in Hc.
  cbn [length] in *. cbn [unpack_names]. rewrite bool_decide_eq_false_2 by lia.
  unfold fits_str in Hn. read_step. read_step.
  rewrite IH; [done| |lia]. by replace (12 + (offset + (length n + 2))) with (14 + offset + length n) by lia.
Qed.

Lemma unpack_qids_spec qids b offset junk :
  cursor b (4 + offset) (concat (enc_qid <$> qids) ++ junk) → Forall valid_qid qids →
  unpack_qids b (length qids) offset = Ok qids.
Proof.
  intros Hc Hq. revert offset Hc. induction Hq as [|q qids Hq Hqs IH]; intros offset Hc; [done|].
  rewrite fmap_cons, concat_cons, <-app_assoc in Hc. cbn [length unpack_qids].
  rewrite (SubQid_cursor _ _ _ q _ _ Hc) by (done || (unfold QidSize; lia)).
  rewrite IH; [done|]. apply (cursor_next _ _ (4 + (offset + QidSize))) in Hc; [done|].
  rewrite length_enc_qid. unfold QidSize. lia.
Qed.

Lemma length_names_le names : 2 * length names ≤ length (concat (enc_str <$> names)).
Proof.
  induction names as [|n names IH]; [done|]. rewrite fmap_cons, concat_cons, length_app, length_enc_str.
  simpl length. lia.
Qed.

Lemma sub_from_cursor b lo (x post : bytes) :
  cursor b lo (x ++ post) → slen b = lo + length x →
  ∃ s, sub_from b lo = Ok s ∧ slen s = length x ∧ cursor s 0 (x ++ post).
Proof.
  intros Hc Hl. pose proof (cursor_le _ _ _ _ Hc).
  destruct (sub_cursor b lo (slen b) _ _ Hc) as (s & Hs & Hls & Hcs); [lia..|].
  exists s. split_and!; [done|lia|done].
Qed.

Lemma UnpackBody_spec m b junk :
  valid_msg m → cursor b 0 (enc_body m ++ junk) → slen b = length (enc_body m) →
  ∃ z, NewMsg (MsgType m) = Ok z ∧ UnpackBody z b = Ok m.
Proof.
  intros Hv Hc Hl.
  destruct m; (eexists; split; [reflexivity|]); cbn [valid_msg enc_body UnpackBody] in *;
    destruct_and?; autorewrite with len in Hl; rewrite ?length_enc_stat in Hl by done;
    unfold enc_str, enc_data in Hc; rewrite <-?app_assoc in Hc;
    unfold Tversion_UnpackBody, Rversion_UnpackBody, Tauth_UnpackBody, Rauth_UnpackBody,
      Tattach_UnpackBody, Rattach_UnpackBody, Rerror_UnpackBody, Tflush_UnpackBody,
      Rflush_UnpackBody, Tread_UnpackBody, Rread_UnpackBody, Twrite_UnpackBody,
      Rwrite_UnpackBody, Tclunk_UnpackBody, Rclunk_UnpackBody, Tremove_UnpackBody,
      Rremove_UnpackBody, Topen_UnpackBody, Ropen_UnpackBody, Tcreate_UnpackBody,
      Rcreate_UnpackBody, Tstat_UnpackBody, Rstat_UnpackBody, Twstat_UnpackBody,
      Rwstat_UnpackBody, Twalk_UnpackBody, Rwalk_UnpackBody;
    unfold fits_str in *.
  all: try (repeat read_step; reflexivity).
  - do 5 read_step. rewrite !idx16_fits by lia.
    change (Z.to_nat 8) with 8. change (Z.to_nat 12) with 12. repeat read_step. reflexivity.
  - do 2 read_step.
    apply (cursor_next _ _ 4) in Hc; [|by rewrite length_put_le].
    destruct (sub_from_cursor b 4 (enc_stat stat) junk Hc) as (s & -> & Hs & Hcs);
      [by rewrite length_enc_stat|].
    destruct (UnpackStat_cursor s stat junk Hcs) as [n Hu]; [done|by rewrite Hs, length_enc_stat|].
    unfold mbind, outcome_bind. by rewrite Hu.
  - do 3 read_step.
    apply (cursor_next _ _ 8) in Hc; [|by rewrite length_put_le].
    destruct (sub_from_cursor b 8 (enc_stat stat) junk Hc) as (s & -> & Hs & Hcs);
      [by rewrite length_enc_stat|].
    destruct (UnpackStat_cursor s stat junk Hcs) as [n Hu]; [done|by rewrite Hs, length_enc_stat|].
    unfold mbind, outcome_bind. by rewrite Hu.
  - pose proof (length_names_le Names). do 5 read_step.
    by rewrite (unpack_names_spec _ _ _ _ junk) by (done || lia).
  - rewrite length_enc_qids in Hl. do 3 read_step.
    rewrite bool_decide_eq_false_2 by lia. by rewrite (unpack_qids_spec _ _ _ junk).
Qed.

(** A header, then the body the type byte selects a method for. *)
Lemma UnpackMsg_body n t z body len :
  NewMsg t = Ok z → 5 ≤ len ≤ 5 + length body →
  UnpackMsg (mkSlice (put_le 4 n ++ [t] ++ body) len) = UnpackBody z (mkSlice body (len - 5)).
Proof.
  intros Hz Hlen. unfold UnpackMsg. cbn [slen arr]. rewrite bool_decide_eq_false_2 by lia.
  rewrite (idx_ok _ _ t).
  2: { rewrite lookup_app_r, length_put_le by (rewrite length_put_le; lia). done. }
  unfold mbind, outcome_bind. rewrite Hz. unfold sub_from, sub. cbn [slen arr].
  rewrite !length_app, length_put_le, bool_decide_eq_true_2 by (simpl; lia).
  by rewrite app_assoc, drop_app_length' by (by rewrite length_app, length_put_le).
Qed.

(** The message at the front of a buffer, whatever lies behind it. *)
Lemma UnpackMsg_enc m junk :
  valid_msg m → UnpackMsg (mkSlice (enc_msg m ++ junk) (WireLen m)) = Ok m.
Proof.
  intros Hv. pose proof (WireLen_enc m Hv) as Hl. unfold HeaderSize in Hl.
  destruct (UnpackBody_spec m (mkSlice (enc_body m ++ junk) (WireLen m - 5)) junk Hv) as (z & Hz & Hu);
    [split; [simpl; lia|done]|simpl; lia|].
  unfold enc_msg. rewrite <-!app_assoc, (UnpackMsg_body _ _ z) by (done || (rewrite length_app; lia)).
  done.
Qed.

(** ** Framing *)
Section Frames.
Context {R : Type} `{IoReaderLaws R}.

Definition conn_error (e : error) : Prop := read_fails e ∨ e = UnexpectedEOF ∧ read_fails EOF.

Lemma fill_spec (s : R) buf c b rest p lo hi (Q : unit → R * bytes → Prop) (E : error → R * bytes → Prop) :
  at_pos s c p → drop p c = b ++ rest → hi = lo + length b → hi ≤ length buf →
  (∀ s', at_pos s' c (p + length b) → drop (p + length b) c = rest → Q () (s', splice buf lo b)) →
  (∀ e t, conn_error e → E e t) →
  wp (fill lo hi) Q E (s, buf).
Proof.
  intros Hat Hd -> Hle HQ HE. unfold fill. wp_steps. simpl.
  eapply wp_lift_ok; [apply slice_ok; lia|]. wp_steps. simpl.
  replace (lo + length b - lo) with (length b) by lia.
  eapply wp_mono; [by eapply ReadFull_at| |by intros; apply HE]. cbn beta.
  intros b' s' (-> & Hat' & Hd'). wp_steps. simpl. auto.
Qed.

Lemma ReadMsg_spec m (s : R) buf c rest p :
  valid_msg m → WireLen m ≤ length buf → (Z.of_nat (length buf) < 2 ^ 32)%Z →
  at_pos s c p → drop p c = enc_msg m ++ rest →
  wp ReadMsg
    (λ m' t, m' = m ∧ at_pos t.1 c (p + WireLen m) ∧ drop (p + WireLen m) c = rest ∧
             length t.2 = length buf)
    (λ e _, conn_error e) (s, buf).
Proof.
  intros Hv Hle Hb Hat Hd. pose proof (WireLen_enc m Hv) as Hl. unfold HeaderSize in Hl.
  pose proof (UnpackMsg_enc m (drop (WireLen m) buf) Hv) as Hun. unfold enc_msg in *.
  rewrite <-!app_assoc in Hd, Hun. rewrite app_assoc in Hd, Hun.
  remember (put_le 4 (Z.of_nat (WireLen m)) ++ [MsgType m]) as hdr eqn:Hhdr.
  assert (Hlh : length hdr = 5) by (rewrite Hhdr, length_app, length_put_le; done).
  unfold ReadMsg. wp_steps. simpl. rewrite bool_decide_eq_false_2 by lia. wp_step.
  eapply fill_spec; [done|done|by rewrite Hlh|lia| |done].
  intros s1 Hat1 Hd1. wp_steps. simpl.
  assert (Hb1 : splice buf 0 hdr = hdr ++ drop 5 buf)
    by (rewrite splice_fits by lia; by rewrite Hlh).
  rewrite Hb1. assert (get_le (take 4 (hdr ++ drop 5 buf)) = Z.of_nat (WireLen m)) as ->.
  { rewrite Hhdr, <-app_assoc, take_app_length' by (by rewrite length_put_le).
    apply get_put_le_small. lia. }
  rewrite bool_decide_eq_false_2 by lia.
  assert (Hlb : length (hdr ++ drop 5 buf) = length buf) by (rewrite length_app, length_drop; lia).
  rewrite Hlb, wrap_small, bool_decide_eq_false_2 by lia. rewrite Nat2Z.id. wp_step.
  eapply (fill_spec _ _ _ (enc_body m)); [done|done|lia|lia| |done].
  intros s2 Hat2 Hd2. wp_steps. simpl.
  assert (splice (hdr ++ drop 5 buf) 5 (enc_body m) = (hdr ++ enc_body m) ++ drop (WireLen m) buf) as ->.
  { rewrite splice_fits by lia. rewrite take_app_length', <-drop_drop, drop_app_length' by done.
    rewrite <-app_assoc. do 2 f_equal. rewrite drop_drop. f_equal. lia. }
  rewrite <-app_assoc, Hun. wp_step. simpl.
  replace (p + WireLen m) with (p + length hdr + length (enc_body m)) by lia.
  split_and!; try done. rewrite !length_app, length_drop. lia.
Qed.

Fixpoint ReadMsgs (n : nat) : M (R * bytes) (list Msg) :=
  match n with
  | O => mret []
  | S n => m ← ReadMsg; ms ← ReadMsgs n; mret (m :: ms)
  end.

Lemma ReadMsgs_spec ms (s : R) buf c rest p :
  Forall (λ m, valid_msg m ∧ WireLen m ≤ length buf) ms → (Z.of_nat (length buf) < 2 ^ 32)%Z →
  at_pos s c p → drop p c = concat (enc_msg <$> ms) ++ rest →
  wp (ReadMsgs (length ms)) (λ ms' _, ms' = ms) (λ e _, conn_error e) (s, buf).
Proof.
  intros Hms Hb. remember (length buf) as n eqn:Hn. revert s buf p Hn.
  induction Hms as [|m ms [Hv Hle] Hms IH]; intros s buf p Hn Hat Hd.
  { simpl. by wp_step. }
  cbn [ReadMsgs length]. rewrite fmap_cons, concat_cons, <-app_assoc in Hd.
  wp_step. eapply wp_mono; [eapply ReadMsg_spec; [done|lia|lia|done|done]| |done].
  cbn beta. intros m' [s' buf'] (-> & Hat' & Hd' & Hl'). simpl in *. wp_step.
  eapply wp_mono; [eapply IH; [|done|done]; congruence| |done]. cbn beta. intros ms' t ->. by wp_step.
Qed.
End Frames.

Section WriteFrames.
Context {W : Type} `{IoWriterLaws W}.

Fixpoint WriteMsgs (buf : bytes) (ms : list Msg) : M W unit :=
  match ms with
  | [] => mret ()
  | m :: ms => WriteMsg buf m;; WriteMsgs buf ms
  end.

Lemma WriteMsgs_spec ms buf (w : W) d :
  Forall (λ m, valid_msg m ∧ WireLen m ≤ length buf) ms → (Z.of_nat (length buf) < 2 ^ 32)%Z →
  written w d →
  wp (WriteMsgs buf ms) (λ _ w', written w' (d ++ concat (enc_msg <$> ms)))
    (λ e _, write_fails e) w.
Proof.
  intros Hms Hb. revert w d. induction Hms as [|m ms [Hv Hle] Hms IH]; intros w d Hw; simpl.
  { wp_step. by rewrite app_nil_r. }
  wp_step. unfold WriteMsg. rewrite PackMsg_spec, decide_True by (done || lia). wp_step. wp_step.
  eapply wp_mono; [by apply io_write_law| |done]. cbn beta. intros [] w' Hw'.
  eapply wp_mono; [by apply (IH w')| |done]. cbn beta. intros [] w'' Hw''.
  by rewrite <-app_assoc in Hw''.
Qed.
End WriteFrames.


(** ** Unpacking arbitrary bytes

    [unpacks Q o]: [o] is a value satisfying [Q] or the error [ErrMsgCorrupt],
    never a panic. *)
Definition unpacks {A} (Q : A → Prop) (o : outcome A) : Prop :=
  match o with Ok a => Q a | Err e => e = ErrMsgCorrupt | _ => False end.

Section Arbitrary.
Context {A : Type} (Q : A → Prop) (b : gslice).

Lemma unpacks_UintAt n lo hi (k : Z → outcome A) :
  lo + n ≤ hi → hi ≤ length (arr b) →
  (∀ z, fit n z → unpacks Q (k z)) → unpacks Q (z ← UintAt n b lo hi; k z).
Proof.
  intros Hn Hhi Hk. unfold UintAt, sub. rewrite bool_decide_eq_true_2 by lia.
  unfold mbind, outcome_bind, Uint. cbn [slen arr]. rewrite bool_decide_eq_false_2 by lia.
  apply Hk. unfold fit. pose proof (get_le_range (take n (drop lo (arr b)))) as Hr.
  rewrite length_take, length_drop in Hr. by rewrite Nat.min_l in Hr by lia.
Qed.

Lemma unpacks_StrAt lo hi (k : bytes → outcome A) :
  lo ≤ hi → hi ≤ length (arr b) → (∀ s, unpacks Q (k s)) → unpacks Q (s ← StrAt b lo hi; k s).
Proof.
  intros Hn Hhi Hk. unfold StrAt, sub. rewrite bool_decide_eq_true_2 by lia. apply Hk.
Qed.

Lemma unpacks_ByteAt i (k : Z → outcome A) :
  i < slen b → slen b ≤ length (arr b) → (∀ z, unpacks Q (k z)) → unpacks Q (z ← ByteAt b i; k z).
Proof.
  intros Hi Hw Hk. unfold ByteAt. rewrite bool_decide_eq_false_2 by lia.
  destruct (lookup_lt_is_Some_2 (arr b) i) as [x Hx]; [lia|]. rewrite (idx_ok _ _ _ Hx). apply Hk.
Qed.

Lemma unpacks_check n (o : outcome A) :
  (n ≤ slen b → unpacks Q o) →
  unpacks Q (if bool_decide (slen b < n) then Err ErrMsgCorrupt else o).
Proof. intros Ho. case_bool_decide; [done|]. apply Ho. lia. Qed.

(** [UnpackQid] needs one byte within the length and thirteen in the capacity. *)
Lemma unpacks_SubQid lo hi (k : Qid → outcome A) :
  lo < hi → hi ≤ length (arr b) → lo + QidSize ≤ length (arr b) → (∀ q, unpacks Q (k q)) →
  unpacks Q (qb ← sub b lo hi; q ← UnpackQid qb; k q).
Proof.
  intros Hlo Hhi Hcap Hk. unfold sub. rewrite bool_decide_eq_true_2 by lia.
  unfold mbind at 1, outcome_bind at 1. unfold UnpackQid, ByteAt. cbn [slen arr].
  rewrite bool_decide_eq_false_2 by lia. unfold QidSize in Hcap.
  destruct (lookup_lt_is_Some_2 (drop lo (arr b)) 0) as [x Hx]; [rewrite length_drop; lia|].
  rewrite (idx_ok _ _ _ Hx). unfold mbind, outcome_bind. unfold UintAt, sub. cbn [slen arr].
  rewrite !bool_decide_eq_true_2 by (rewrite length_drop; lia). unfold mbind, outcome_bind, Uint.
  cbn [slen arr]. rewrite !bool_decide_eq_false_2 by lia. apply Hk.
Qed.
End Arbitrary.

(** One step of an [UnpackBody] on arbitrary bytes. *)
Ltac unpack_step :=
  cbv zeta;
  first
    [ apply unpacks_check; intros ?
    | apply unpacks_UintAt; [lia|unfold QidSize in *; lia|intros ? ?]
    | apply unpacks_StrAt; [lia|unfold QidSize in *; lia|intros ?]
    | apply unpacks_ByteAt; [lia|lia|intros ?]
    | apply unpacks_SubQid; [unfold QidSize in *; lia..|intros ?] ].

Lemma UnpackStat_unpacks {A} (Q : A → Prop) b (k : nat * Stat → outcome A) :
  slen b ≤ length (arr b) → (∀ st, unpacks Q (k st)) → unpacks Q (st ← UnpackStat b; k st).
Proof.
  intros Hw Hk. assert (unpacks (λ _, True) (UnpackStat b)) as Hs.
  { unfold UnpackStat. repeat unpack_step. done. }
  destruct (UnpackStat b) as [st| | |]; try done. apply Hk.
Qed.

(** The messages whose size checks cover all they read. *)
Definition checked (m : Msg) : bool :=
  match m with Twalk _ _ _ _ | Rwalk _ _ | Tcreate _ _ _ _ _ => false | _ => true end.

Lemma UnpackBody_unpacks m b :
  checked m = true → slen b ≤ length (arr b) → (Z.of_nat (slen b) < 2 ^ 32)%Z →
  unpacks (λ m', MsgType m' = MsgType m) (UnpackBody m b).
Proof.
  intros Hc Hw Hb. destruct m; try done; cbn [UnpackBody];
    match goal with |- unpacks _ (?f b) => unfold f end;
    repeat first [unpack_step | done];
    (* the slice handed to UnpackStat, and the 32-bit offsets of the data *)
    first
      [ unfold sub_from, sub; rewrite bool_decide_eq_true_2 by lia;
        unfold mbind at 1, outcome_bind at 1; apply UnpackStat_unpacks;
        [cbn [slen arr]; rewrite length_drop; lia|by intros []]
      | unfold fit in *; rewrite wrap_small by lia; by unpack_step ].
Qed.

Lemma NewMsg_type t z : NewMsg t = Ok z → t = MsgType z.
Proof. revert z. destruct t; intros z Hz; vm_compute in Hz; simplify_eq; done. Qed.

Lemma NewMsg_total t : unpacks (λ _, True) (NewMsg t).
Proof. by destruct t. Qed.

(** ** The theorems *)

(** C35: a 9P message of any type, with fields that fit their widths and strings and lists that fit
    their counts, packs into a buffer that has room for it, whatever the buffer held, into exactly
    [WireLen] bytes, and these unpack to the same message, whatever lies behind them in the
    receive buffer; a smaller buffer is [ErrBuffTooSmall].  Left out by [valid_msg] are the last few lengths
    that would fit a count of 16 bits: user names of [Tauth] and [Tattach] from 65526 and 65522 bytes
    on and names of [Tcreate] from 65524 bytes on, as the offsets behind them are computed in 16 bits
    (what becomes of such a [Tcreate] is proved below); and messages of 4 GB. *)
Theorem proto9_roundtrip m buf :
  valid_msg m → (Z.of_nat (WireLen m) < 2 ^ 32)%Z →
  match PackMsg buf m with
  | Ok b => WireLen m ≤ length buf ∧ length b = WireLen m ∧
            ∀ junk, UnpackMsg (mkSlice (b ++ junk) (length b)) = Ok m
  | Err e => e = ErrBuffTooSmall ∧ length buf < WireLen m
  | _ => False
  end.
Proof.
  intros Hv Hw. rewrite PackMsg_spec by done. pose proof (WireLen_enc m Hv) as Hl.
  destruct (decide _) as [Hle|Hgt]; [|split; [done|lia]].
  assert (Hlen : length (enc_msg m) = WireLen m).
  { unfold enc_msg. rewrite !length_app, length_put_le, Hl. done. }
  split_and!; [done|done|]. intros junk. rewrite Hlen. by apply UnpackMsg_enc.
Qed.

(** 9P framing: messages written one after the other are read back in order
    through one reused receive buffer. *)
Theorem proto9_stream_roundtrip {W : Type} `{IoWriterLaws W} {R : Type} `{IoReaderLaws R}
    (w : W) ms (wbuf rbuf : bytes) :
  Forall (λ m, valid_msg m ∧ WireLen m ≤ length wbuf ∧ WireLen m ≤ length rbuf) ms →
  (Z.of_nat (length wbuf) < 2 ^ 32)%Z → (Z.of_nat (length rbuf) < 2 ^ 32)%Z → written w [] →
  wp (WriteMsgs wbuf ms)
    (λ _ w', ∃ c, written w' c ∧ ∀ (s : R) rest, at_pos s (c ++ rest) 0 →
       wp (ReadMsgs (length ms)) (λ ms' _, ms' = ms) (λ e _, conn_error e) (s, rbuf))
    (λ e _, write_fails e) w.
Proof.
  intros Hms Hwb Hrb Hw. eapply wp_mono; [apply WriteMsgs_spec; [|done|done]| |done].
  { eapply Forall_impl; [done|]. naive_solver. }
  cbn beta. intros [] w' Hw'. eexists. split; [done|]. simpl. intros s rest Hat.
  eapply ReadMsgs_spec; [|done|done|done]. eapply Forall_impl; [done|]. naive_solver.
Qed.

(** unpacking arbitrary bytes never panics for the messages whose checks are
    complete (all types but 110 [Twalk], 111 [Rwalk] and 114 [Tcreate]): it reports
    [ErrBuffTooSmall] or [ErrMsgCorrupt], or returns a message of the type the
    type byte names. *)
Theorem proto9_unpack_safe (b : gslice) t :
  slen b ≤ length (arr b) → (Z.of_nat (slen b) < 2 ^ 32)%Z →
  arr b !! 4 = Some t → byte.unsigned t ∉ [110; 111; 114]%Z →
  match UnpackMsg b with
  | Ok m => MsgType m = t
  | Err e => e = ErrMsgCorrupt ∨ e = ErrBuffTooSmall ∧ slen b < 5
  | _ => False
  end.
Proof.
  intros Hw Hb Ht Hc. unfold UnpackMsg. case_bool_decide as H5; [by right|].
  rewrite (idx_ok _ _ _ Ht). unfold mbind, outcome_bind.
  pose proof (NewMsg_total t) as Hn. destruct (NewMsg t) as [z|e| |] eqn:Hnew; try done; [|by left].
  unfold sub_from, sub. rewrite bool_decide_eq_true_2 by lia.
  apply NewMsg_type in Hnew as ->.
  match goal with |- context [UnpackBody z ?b'] => pose proof (UnpackBody_unpacks z b') as Hu;
    destruct (UnpackBody z b') as [m|e| |] end;
    cbn [unpacks slen arr] in Hu; try (left; apply Hu); try apply Hu;
    first [by destruct z; try done; exfalso; apply Hc; vm_compute; repeat constructor|rewrite ?length_drop; lia].
Qed.

(** the size check of a [Twalk] leaves out the names themselves.  A 19-byte
    message announcing one name of [nlen] bytes that are not there is answered with
    whatever the receive buffer holds behind the message, or panics. *)
Theorem proto9_twalk_overread tag fid newfid nlen junk :
  fit 2 tag → fit 4 fid → fit 4 newfid → fit 2 nlen →
  UnpackMsg (mkSlice (put_le 4 19 ++ [zbyte 110] ++ put_le 2 tag ++ put_le 4 fid ++ put_le 4 newfid ++
                      put_le 2 1 ++ put_le 2 nlen ++ junk) 19) =
  if decide (Z.to_nat nlen ≤ length junk)
  then Ok (Twalk tag fid newfid [take (Z.to_nat nlen) junk]) else Panic.
Proof.
  intros Ht Hf Hn Hl. rewrite (UnpackMsg_body _ _ (Twalk 0 0 0 [])) by (done || len).
  match goal with |- context [mkSlice ?b _] => assert (Hc : cursor (mkSlice b (19 - 5)) 0 b) by (split; [simpl; lia|done]) end.
  remember (mkSlice _ (19 - 5)) as b eqn:Hb. assert (Hs : slen b = 14) by (by subst).
  cbn [UnpackBody]. unfold Twalk_UnpackBody. clear Hb. do 5 read_step. change (Z.to_nat 1) with 1.
  cbn [unpack_names]. rewrite bool_decide_eq_false_2 by lia. change (12 + 0) with 12. change (14 + 0) with 14.
  read_step. unfold StrAt, sub. destruct Hc as [Hle Hd]. rewrite Hd. 
  pose proof (f_equal length Hd) as Hlj. rewrite length_drop in Hlj.
  destruct (decide _) as [Hj|Hj].
  - rewrite bool_decide_eq_true_2 by lia. unfold mbind, outcome_bind. cbn [slen arr].
    by replace (14 + Z.to_nat nlen - 14) with (Z.to_nat nlen) by lia.
  - by rewrite bool_decide_eq_false_2 by lia.
Qed.

(** C40: the offsets behind the name of a [Tcreate] are computed in 16 bits: a name
    length of 65528 or more wraps them and the unpacker panics, on a message that
    is otherwise complete. *)
Theorem proto9_tcreate_wraps tag fid namelen rest junk :
  fit 2 tag → fit 4 fid → (65528 ≤ namelen < 65536)%Z → (Z.of_nat (length rest) = namelen + 5)%Z →
  UnpackMsg (mkSlice (put_le 4 (18 + namelen) ++ [zbyte 114] ++ put_le 2 tag ++ put_le 4 fid ++
                      put_le 2 namelen ++ rest ++ junk) (Z.to_nat (18 + namelen))) = Panic.
Proof.
  intros Ht Hf Hn Hl. rewrite (UnpackMsg_body _ _ (Tcreate 0 0 [] 0 0)) by (done || len).
  match goal with |- context [mkSlice ?b ?n] => assert (Hc : cursor (mkSlice b n) 0 b) by (split; [simpl; lia|done]);
      remember (mkSlice b n) as s eqn:Hb; assert (Hs : slen s = n) by (by subst)
  end.
  cbn [UnpackBody]. unfold Tcreate_UnpackBody. clear Hb. do 5 read_step.
  unfold StrAt at 1, sub at 1. rewrite bool_decide_eq_false_2; [done|].
  unfold idx16. rewrite (wrap_over 16) by lia. lia.
Qed.

(** ** Concrete messages *)
Module Demo9.
Definition walk : Msg := Twalk 1 2 3 [str "usr"; str "share"].
Definition msgs : list Msg :=
  [Tversion 65535 8192 (str "9P2000"); walk; Rread 4 (str "data");
   Rstat 5 (mkStat 0 0 (mkQid QTDIR 0 7) 0x80000000 1 2 0 (str "d") (str "u") (str "g") [])].

(** The bytes of a [Twalk]. *)
Example walk_wire :
  PackMsg (replicate 64 Byte.xff) walk =
  Ok (put_le 4 29 ++ [zbyte 110] ++ put_le 2 1 ++ put_le 4 2 ++ put_le 4 3 ++ put_le 2 2 ++
      put_le 2 3 ++ str "usr" ++ put_le 2 5 ++ str "share").
Proof. by vm_compute. Qed.

Ltac valid := repeat first [split | apply Forall_cons | apply Forall_nil | vm_compute; congruence].

Lemma proto9_roundtrip_witness :
  match PackMsg (replicate 64 Byte.xff) walk with
  | Ok b => WireLen walk ≤ length (replicate 64 Byte.xff) ∧ length b = WireLen walk ∧
            ∀ junk, UnpackMsg (mkSlice (b ++ junk) (length b)) = Ok walk
  | Err e => e = ErrBuffTooSmall ∧ length (replicate 64 Byte.xff) < WireLen walk
  | _ => False
  end.
Proof. apply (proto9_roundtrip walk (replicate 64 Byte.xff)); valid. Defined.

Lemma proto9_stream_roundtrip_witness :
  wp (WriteMsgs (replicate 99 Byte.x00) msgs)
    (λ _ w', ∃ c, written w' c ∧ ∀ (s : MemFile) rest, at_pos s (c ++ rest) 0 →
       wp (ReadMsgs (length msgs)) (λ ms' _, ms' = msgs) (λ e _, conn_error (R := MemFile) e)
         (s, replicate 80 Byte.x01))
    (λ e _, write_fails e) (mkMemSink [] false).
Proof.
  apply (proto9_stream_roundtrip (R := MemFile) (mkMemSink [] false) msgs (replicate 99 Byte.x00)
    (replicate 80 Byte.x01)); [|vm_compute; congruence..|done].
  repeat (apply Forall_cons; split; [split_and!; [valid|vm_compute; lia..]|]). apply Forall_nil. done.
Defined.

(** A [Tread] cut short. *)
Lemma proto9_unpack_safe_witness :
  match UnpackMsg (mkSlice (put_le 4 12 ++ [zbyte 116] ++ replicate 7 Byte.x01) 12) with
  | Ok m => MsgType m = zbyte 116
  | Err e => e = ErrMsgCorrupt ∨ e = ErrBuffTooSmall ∧ 12 < 5
  | _ => False
  end.
Proof.
  apply (proto9_unpack_safe (mkSlice (put_le 4 12 ++ [zbyte 116] ++ replicate 7 Byte.x01) 12) (zbyte 116));
    [vm_compute; lia|vm_compute; congruence|by vm_compute|].
  apply (bool_decide_unpack _). by vm_compute.
Defined.

Lemma proto9_twalk_overread_witness :
  UnpackMsg (mkSlice (put_le 4 19 ++ [zbyte 110] ++ put_le 2 1 ++ put_le 4 2 ++ put_le 4 3 ++
                      put_le 2 1 ++ put_le 2 6 ++ str "secret of another message") 19) =
  if decide (Z.to_nat 6 ≤ length (str "secret of another message"))
  then Ok (Twalk 1 2 3 [take (Z.to_nat 6) (str "secret of another message")]) else Panic.
Proof. apply (proto9_twalk_overread 1 2 3 6 (str "secret of another message")); valid. Defined.

Lemma proto9_tcreate_wraps_witness :
  UnpackMsg (mkSlice (put_le 4 (18 + 65530) ++ [zbyte 114] ++ put_le 2 1 ++ put_le 4 2 ++
                      put_le 2 65530 ++ replicate (Z.to_nat 65535) Byte.x61 ++ [])
               (Z.to_nat (18 + 65530))) = Panic.
Proof.
  apply (proto9_tcreate_wraps 1 2 65530 (replicate (Z.to_nat 65535) Byte.x61) []);
    [valid|valid|lia|]. rewrite length_replicate. lia.
Defined.
End Demo9.
