(* ===== verification/Fs.v ===== *)
(** The file system layer, fs/fs.go.

    A directory is a hash tree whose content is a list of encoded entries, the
    first of which is ["."].  [WriteDir] and [ReadDir] are the codec; [Walk],
    [Insert], [Remove], [Copy] and [Move] work on paths; [FileReader] is a file
    opened for reading.  The operations run in the store monad, each reading and
    writing the directories the source does, in its order. *)

From Stdlib Require Import ZArith Lia String.
From stdpp Require Import base list strings sorting.
From coqutil Require Import Byte.
From S2P Require Import Prelude Store Io Htree HtreeSpec HtreeWrite HtreeRead HtreeProps.

Set Default Goal Selector "!".

(** ** Entries *)

Record DirEnt := mkDirEnt {
  EntName : bytes;
  EntSize : Z;
  EntModTime : Z;
  EntMode : Z;
  EntHTree : HTree;
}.

Definition zero_hash : hash := replicate hash_len b0.
Definition zero_dirent : DirEnt := mkDirEnt [] 0 0 0 (mkHTree 0 zero_hash).

Definition set_EntName (n : bytes) (e : DirEnt) : DirEnt :=
  mkDirEnt n (EntSize e) (EntModTime e) (EntMode e) (EntHTree e).
Definition set_EntHTree (t : HTree) (e : DirEnt) : DirEnt :=
  mkDirEnt (EntName e) (EntSize e) (EntModTime e) (EntMode e) t.

(** [os.ModeDir] is bit 31 of an [os.FileMode]. *)
Definition ModeDir : Z := 2 ^ 31.
Definition mode_IsDir (m : Z) : bool := Z.testbit m 31.
Definition IsDir (e : DirEnt) : bool := mode_IsDir (EntMode e).

Definition Less (a b : DirEnt) : bool :=
  if IsDir a && negb (IsDir b) then true
  else if negb (IsDir a) && IsDir b then false
  else str_lt (EntName a) (EntName b).

(** [sort.Sort]: entries neither of which is [Less] than the other have the same
    name and may come in either order; [WriteDir] rejects them. *)
Definition ent_le (a b : DirEnt) : Prop := Less b a = false.
#[global] Instance ent_le_dec : RelDecision ent_le.
Proof. intros a b. unfold ent_le. apply _. Defined.
Definition Sort (dir : list DirEnt) : list DirEnt := merge_sort ent_le dir.

(** [fmt.Errorf] with one name. *)
Definition errorf (pre : string) (name : bytes) (post : string) : error :=
  ENew (pre ++ string_of_list_byte name ++ post)%string.
Arguments errorf (pre name post)%_string_scope.

Definition dot : bytes := str ".".

(** The loop that rejects bad names: it looks at every entry but the last, and
    compares neighbours. *)
Fixpoint check_names (dir : list DirEnt) : outcome unit :=
  match dir with
  | a :: (b :: _) as rest =>
    if bool_decide (EntName a = dot) then Err (ENew "cannot name file or folder '.'")
    else if bool_decide (EntName a = EntName b) then
      Err (errorf "duplicate directory entry '" (EntName a) "'")
    else check_names rest
  | _ => Ok ()
  end.

Definition encode_ent (e : DirEnt) : bytes :=
  put_le 2 (Z.of_nat (length (EntName e))) ++ EntName e ++ put_le 8 (EntSize e) ++
  put_le 4 (EntMode e) ++ put_le 8 (EntModTime e) ++ [nbyte (Depth (EntHTree e))] ++
  Data (EntHTree e).

Fixpoint encode_dir (dir : list DirEnt) : outcome bytes :=
  match dir with
  | [] => Ok []
  | e :: dir =>
    if bool_decide (65535 < Z.of_nat (length (EntName e)))%Z then
      Err (errorf "directory entry name '" (EntName e) "' too long")
    else rest ← encode_dir dir; Ok (encode_ent e ++ rest)
  end.

Definition decode_ent (b : bytes) : outcome (DirEnt * bytes) :=
  '(namelen, b) ← cut b 2;
  '(name, b) ← cut b (Z.to_nat (get_le namelen));
  '(size, b) ← cut b 8;
  '(mode, b) ← cut b 4;
  '(modtime, b) ← cut b 8;
  '(depth, b) ← cut b 1;
  '(h, b) ← cut b 32;
  d ← idx depth 0;
  Ok (mkDirEnt name (i64 (get_le size)) (i64 (get_le modtime)) (get_le mode)
               (mkHTree (Z.to_nat (byte.unsigned d)) h), b).

(** Each entry takes at least 55 bytes, so the length of the data is enough fuel. *)
Fixpoint decode_dir (fuel : nat) (b : bytes) : outcome (list DirEnt) :=
  match b with
  | [] => Ok []
  | _ =>
    match fuel with
    | O => OutOfFuel
    | S fuel =>
      '(e, b) ← decode_ent b;
      dir ← decode_dir fuel b;
      Ok (e :: dir)
    end
  end.

(** ** Paths, [path] and [strings] of the standard library *)

Definition slash : byte := Byte.x2f.

(** [strings.Split(s, "/")] and [strings.Join(l, "/")] *)
Fixpoint Split (s : bytes) : list bytes :=
  match s with
  | [] => [[]]
  | c :: s =>
    if decide (c = slash) then [] :: Split s
    else match Split s with [] => [[c]] | w :: ws => (c :: w) :: ws end
  end.
Fixpoint Join (l : list bytes) : bytes :=
  match l with
  | [] => []
  | [w] => w
  | w :: ws => w ++ slash :: Join ws
  end.

(** [path.Clean] of a rooted path: empty and ["."] elements go, [".."] removes the
    element before it. *)
Definition clean_step (acc : list bytes) (e : bytes) : list bytes :=
  if decide (e = [] ∨ e = dot) then acc
  else if decide (e = str "..") then tail acc
  else e :: acc.
Definition clean_elems (els : list bytes) : list bytes := rev (foldl clean_step [] els).
Definition Clean (p : bytes) : bytes := slash :: Join (clean_elems (Split p)).

(** [path.Base], and [path.Dir] of a rooted path. *)
Definition Base (p : bytes) : bytes :=
  if decide (p = []) then dot
  else match last (filter (λ e, e ≠ []) (Split p)) with Some e => e | None => [slash] end.
Definition Dir (p : bytes) : bytes := Clean (Join (removelast (Split p)) ++ [slash]).

(** [if p == "" || p[0] != '/' { p = "/" + p }] *)
Definition rooted (p : bytes) : bytes :=
  if decide (head p = Some slash) then p else slash :: p.

(** [elems[:len(elems)-1]] when the last element is empty. *)
Definition trim_last (els : list bytes) : outcome (list bytes) :=
  match last els with
  | None => Panic
  | Some [] => Ok (removelast els)
  | Some _ => Ok els
  end.

(** The path elements [Walk] loops over, the first standing for the root itself. *)
Definition walk_elems (fpath : bytes) : outcome (list bytes) := trim_last (Split (Clean (rooted fpath))).

(** The elements of a cleaned path below the root. *)
Definition path_elems (p : bytes) : outcome (list bytes) :=
  els ← slice (Split (Clean p)) 1 (length (Split (Clean p)));
  trim_last els.

(** [for j = range ents { if ents[j].EntName == name { break } }] *)
Definition find_ent (name : bytes) (ents : list DirEnt) : option (nat * DirEnt) :=
  list_find (λ e, EntName e = name) ents.

(** ** Operations on directories

    [sz] gives the sizes of the buffers [ioutil.ReadAll] reads with; [fuel] bounds
    the number of its reads, and is enough when it exceeds the size of every
    stream read. *)
Section Fs.
Context {P : Params} {St : Type} `{CStore St}.
Variables (sz : nat → nat) (fuel : nat).

Definition WriteDir (indir : list DirEnt) (mode : Z) : M St DirEnt :=
  let ent := mkDirEnt dot 0 0 (Z.lor mode ModeDir) (mkHTree 0 zero_hash) in
  let dir := ent :: Sort indir in
  lift (check_names (tail dir));;
  buf ← lift (encode_dir dir);
  t ← with_writer (Write buf;; CloseWriter);
  mret (set_EntHTree t ent).

Definition ReadDir (h : hash) : M St (list DirEnt) :=
  '(dirdata, height) ← with_reader h (d ← ReadAll_from sz fuel 0; n ← GetHeight; mret (d, n));
  dir ← lift (decode_dir (length dirdata) dirdata);
  e ← lift (idx dir 0);
  mret (<[0 := set_EntHTree (mkHTree height h) e]> dir).

(** The loop of [Walk]: [result] is what it returns when there is nothing to walk. *)
Fixpoint walk_loop (h : hash) (elems : list bytes) (result : DirEnt) : M St DirEnt :=
  match elems with
  | [] => mret result
  | entname :: elems =>
    let entname := if decide (entname = []) then dot else entname in
    ents ← ReadDir h;
    match find_ent entname ents with
    | None => throw (errorf "no such directory: " entname "")
    | Some (_, e) =>
      if decide (elems = []) then mret e
      else if IsDir e then walk_loop (Data (EntHTree e)) elems result
      else throw (errorf "not a directory: " (EntName e) "")
    end
  end.

Definition Walk (h : hash) (fpath : bytes) : M St DirEnt :=
  elems ← lift (walk_elems fpath);
  ents ← ReadDir h;
  result ← lift (idx ents 0);
  walk_loop h elems result.

Definition Ls (roothash : hash) (fpath : bytes) : M St (list DirEnt) :=
  dirent ← Walk roothash fpath;
  if IsDir dirent then ReadDir (Data (EntHTree dirent))
  else throw (errorf "" fpath " is not a directory").

Definition EmptyDir (mode : Z) : M St DirEnt := WriteDir [] mode.

Fixpoint insert (dest : hash) (destPath : list bytes) (ent : DirEnt) : M St DirEnt :=
  destEnts ← ReadDir dest;
  match destPath with
  | [] =>
    e0 ← lift (idx destEnts 0);
    WriteDir (<[0 := ent]> destEnts) (EntMode e0)
  | name :: destPath =>
    match find_ent name destEnts with
    | None => throw (errorf "no folder or file '" name "'")
    | Some (i, e) =>
      if IsDir e then
        newEnt ← insert (Data (EntHTree e)) destPath ent;
        let destEnts := <[i := set_EntHTree (EntHTree newEnt) e]> destEnts in
        e0 ← lift (idx destEnts 0);
        WriteDir (tail destEnts) (EntMode e0)
      else throw (errorf "" (EntName e) " is not a directory")
    end
  end.

Definition Insert (dest : hash) (destPath : bytes) (ent : DirEnt) : M St DirEnt :=
  let destPath := rooted destPath in
  let is_dir := bool_decide (last destPath = Some slash) in
  let ent := if is_dir then ent else set_EntName (Base destPath) ent in
  let destPath := if is_dir then destPath else Dir destPath in
  elems ← lift (path_elems destPath);
  insert dest elems ent.

(** Removing from a directory without entries asks [make] for a negative capacity,
    which panics.  [remove] is never called with an empty path; it would index it. *)
Fixpoint remove (root : hash) (filePath : list bytes) : M St DirEnt :=
  dirEnts ← ReadDir root;
  match filePath with
  | [] => panic
  | [name] =>
    e0 ← lift (idx dirEnts 0);
    let dirEnts := tail dirEnts in
    if bool_decide (length dirEnts = 0) then panic
    else
      let nents := length dirEnts - 1 in
      let newDir := filter (λ e, name ≠ EntName e) dirEnts in
      if bool_decide (nents < length newDir) then throw (errorf "no file called '" name "'")
      else WriteDir newDir (EntMode e0)
  | name :: filePath =>
    match find_ent name dirEnts with
    | None => throw (errorf "no folder or file '" name "'")
    | Some (i, e) =>
      if IsDir e then
        newEnt ← remove (Data (EntHTree e)) filePath;
        let dirEnts := <[i := set_EntHTree (EntHTree newEnt) e]> dirEnts in
        e0 ← lift (idx dirEnts 0);
        WriteDir (tail dirEnts) (EntMode e0)
      else throw (errorf "" (EntName e) " is not a directory")
    end
  end.

Definition Remove (root : hash) (filePath : bytes) : M St DirEnt :=
  let filePath := Clean (rooted filePath) in
  if decide (filePath = [slash]) then throw (ENew "cannot remove root directory")
  else
    els ← lift (slice (Split filePath) 1 (length (Split filePath)));
    elems ← lift (trim_last els);
    remove root elems.

Definition Copy (root : hash) (destPath srcPath : bytes) : M St DirEnt :=
  srcEnt ← Walk root srcPath;
  Insert root destPath srcEnt.

Definition Move (root : hash) (destPath srcPath : bytes) : M St DirEnt :=
  copyRoot ← Copy root destPath srcPath;
  Remove (Data (EntHTree copyRoot)) srcPath.

(** ** Files *)

Record FileReader := mkFileReader {
  f_offset : Z;
  f_fsize : Z;
  f_rdr : Reader St;
}.

Definition f_set_rdr (r : Reader St) (f : FileReader) : FileReader :=
  mkFileReader (f_offset f) (f_fsize f) r.
Definition f_set_offset (o : Z) (f : FileReader) : FileReader :=
  mkFileReader o (f_fsize f) (f_rdr f).

(** The offset [Seek] asks the tree for: [SeekStart], [SeekCurrent], [SeekEnd]. *)
Definition seek_target (f : FileReader) (off whence : Z) : option Z :=
  match whence with
  | 0 => Some (u64 off)
  | 1 => Some (u64 (f_offset f + u64 off))
  | 2 => Some (u64 (i64 (f_fsize f + off)))
  | _ => None
  end%Z.

(** A failed seek of the tree returns offset 0, and that becomes the file's.  The
    message of a bad whence also has its number in the source. *)
Definition FileSeek (off whence : Z) : M FileReader Z :=
  f ← get;
  match seek_target f off whence with
  | None => throw (ENew "bad whence")
  | Some target =>
    o ← try (zoom f_rdr f_set_rdr (Seek target));
    match o with
    | inl o => modify (f_set_offset o);; mret (i64 o)
    | inr e => modify (f_set_offset 0%Z);; throw e
    end
  end.

Definition FileRead (n : nat) : M FileReader bytes :=
  out ← zoom f_rdr f_set_rdr (Read n);
  modify (λ f, f_set_offset (u64 (f_offset f + Z.of_nat (length out))) f);;
  mret out.

#[global] Instance FileReader_io : IoReader FileReader := {| io_read := FileRead |}.

(** [ReadAt] into a buffer of [n] bytes. *)
Definition ReadAt (n : nat) (off : Z) : M FileReader bytes :=
  f ← get;
  (if bool_decide (f_offset f ≠ u64 off) then FileSeek off 0;; mret () else mret ());;
  ReadFull n.

Definition FileClose : M FileReader unit := mret ().

(** [Open], and then a session on the file. *)
Definition with_file {A} (roothash : hash) (fpath : bytes) (c : M FileReader A) : M St A :=
  dirent ← Walk roothash fpath;
  if IsDir dirent then throw (errorf "" fpath " is a directory")
  else λ s,
    match NewReader (blank_reader s (Data (EntHTree dirent))) with
    | (Ok _, r) => let '(o, f) := c (mkFileReader 0 (EntSize dirent) r) in (o, r_store (f_rdr f))
    | (Err e, r) => (Err e, r_store r)
    | (Panic, r) => (Panic, r_store r)
    | (OutOfFuel, r) => (OutOfFuel, r_store r)
    end.
End Fs.
