(* ===== verification/FsProps.v ===== *)
(** Directories as stored data: the order of the entries, the codec, and what
    [WriteDir] and [ReadDir] guarantee to each other. *)

From Stdlib Require Import ZArith Lia Sorted.
From stdpp Require Import base list strings sorting.
From coqutil Require Import Byte.
From S2P Require Import Prelude Store Io Htree HtreeSpec HtreeWrite HtreeRead HtreeProps Fs.

Set Default Goal Selector "!".

(** ** The order of the entries *)

Lemma Less_irrefl e : Less e e = false.
Proof. unfold Less. rewrite str_lt_irrefl. by destruct (IsDir e). Qed.

Lemma Less_trans a b c : Less a b = true → Less b c = true → Less a c = true.
Proof.
  unfold Less. destruct (IsDir a), (IsDir b), (IsDir c); simpl; try done; apply str_lt_trans.
Qed.

Lemma Less_total a b :
  Less a b = false → Less b a = false → IsDir a = IsDir b ∧ EntName a = EntName b.
Proof.
  unfold Less. destruct (IsDir a), (IsDir b); simpl; try done;
    intros Hab Hba; (split; [done|]); by apply str_lt_antisym.
Qed.

Lemma Less_key_l a a' b :
  IsDir a = IsDir a' → EntName a = EntName a' → Less a b = Less a' b.
Proof. unfold Less. by intros -> ->. Qed.
Lemma Less_key_r a b b' :
  IsDir b = IsDir b' → EntName b = EntName b' → Less a b = Less a b'.
Proof. unfold Less. by intros -> ->. Qed.

#[global] Instance ent_le_total : Total ent_le.
Proof.
  intros a b. unfold ent_le. destruct (Less b a) eqn:Hba; [|by left]. right.
  apply not_true_iff_false. intros Hab. pose proof (Less_trans _ _ _ Hab Hba) as Haa.
  by rewrite Less_irrefl in Haa.
Qed.

#[global] Instance ent_le_trans : Transitive ent_le.
Proof.
  intros a b c. unfold ent_le. intros Hba Hcb. apply not_true_iff_false. intros Hca.
  destruct (Less a b) eqn:Hab.
  - by rewrite (Less_trans _ _ _ Hca Hab) in Hcb.
  - destruct (Less_total a b) as [Hd Hn]; [done|done|].
    rewrite (Less_key_r c b a) in Hcb; congruence.
Qed.

Lemma Sort_perm dir : Sort dir ≡ₚ dir.
Proof. apply merge_sort_Permutation. Qed.
Lemma Sort_sorted dir : StronglySorted ent_le (Sort dir).
Proof. apply (StronglySorted_merge_sort ent_le). Qed.

(** No two entries have the same kind and the same name. *)
Definition distinct (dir : list DirEnt) : Prop := NoDup ((λ e, (IsDir e, EntName e)) <$> dir).

#[global] Instance distinct_proper : Proper ((≡ₚ) ==> iff) distinct.
Proof. intros l l' Hl. unfold distinct. by rewrite Hl. Qed.

Lemma distinct_names dir : NoDup (EntName <$> dir) → distinct dir.
Proof.
  unfold distinct. intros Hn. apply (NoDup_fmap_1 snd). by rewrite <-list_fmap_compose.
Qed.

(** The order of distinct entries is determined. *)
Lemma sorted_unique dir dir' :
  distinct dir → dir ≡ₚ dir' → StronglySorted ent_le dir → StronglySorted ent_le dir' → dir = dir'.
Proof.
  intros Hd Hp Hs Hs'. apply (StronglySorted_unique_strong ent_le); [|done..].
  intros x y Hx Hy Hxy Hyx. destruct (Less_total x y) as [Hk Hn]; [done|done|].
  rewrite <-Hp in Hy.
  apply list_elem_of_lookup in Hx as [i Hi]. apply list_elem_of_lookup in Hy as [j Hj].
  assert (i = j) as ->; [|congruence]. eapply (NoDup_lookup _ i j _ Hd).
  - rewrite list_lookup_fmap, Hi. done.
  - rewrite list_lookup_fmap, Hj. simpl. congruence.
Qed.

Lemma Sort_id dir : distinct dir → StronglySorted ent_le dir → Sort dir = dir.
Proof.
  intros Hd Hs. apply sorted_unique; [|apply Sort_perm|apply Sort_sorted|done].
  by rewrite Sort_perm.
Qed.

(** ** The name checks *)

Lemma check_names_cons a b dir :
  check_names (a :: b :: dir) = Ok () ↔
  EntName a ≠ dot ∧ EntName a ≠ EntName b ∧ check_names (b :: dir) = Ok ().
Proof.
  cbn [check_names]. case_bool_decide as H1; [split; [done|intros (? & ?); done]|].
  case_bool_decide as H2; [split; [done|intros (? & ? & ?); done]|].
  split; [done|]. by intros (_ & _ & ?).
Qed.

(** In a sorted directory, comparing neighbours finds every duplicate of the
    same kind. *)
Lemma check_names_distinct dir :
  StronglySorted ent_le dir → check_names dir = Ok () → distinct dir.
Proof.
  unfold distinct. induction 1 as [|a dir Hs IH Ha]; intros Hc; [constructor|].
  rewrite fmap_cons. destruct dir as [|b dir]; [apply NoDup_singleton|].
  apply check_names_cons in Hc as (_ & Hne & Hc). constructor; [|by apply IH].
  intros (c & Hkey & Hc')%list_elem_of_fmap. injection Hkey as Hd Hn. inversion Ha as [|?? Hab _]; subst.
  inversion Hs as [|?? _ Hb]; subst. apply Hne.
  assert (Hbc : ent_le b c).
  { apply elem_of_cons in Hc' as [->|Hin]; [apply Less_irrefl|].
    rewrite Forall_forall in Hb. by apply Hb. }
  destruct (Less_total a b) as [_ ?]; [|done|done].
  unfold ent_le in Hbc. by rewrite (Less_key_l a c b).
Qed.

Lemma check_names_complete dir :
  NoDup (EntName <$> dir) → dot ∉ EntName <$> dir → check_names dir = Ok ().
Proof.
  induction dir as [|a dir IH]; [done|]. rewrite fmap_cons, NoDup_cons, not_elem_of_cons.
  intros [Ha Hn] [Hd Hds]. destruct dir as [|b dir]; [done|].
  apply check_names_cons. split_and!; [done| |by apply IH].
  intros Heq. apply Ha. rewrite Heq. rewrite fmap_cons. apply elem_of_cons. by left.
Qed.

Definition name_error (dir : list DirEnt) (e : error) : Prop :=
  ¬ NoDup (EntName <$> dir) ∨ dot ∈ EntName <$> dir.

Lemma check_names_error dir e : check_names dir = Err e → name_error dir e.
Proof.
  intros He. unfold name_error. destruct (decide (dot ∈ EntName <$> dir)); [by right|left].
  intros Hn. by rewrite check_names_complete in He.
Qed.
Lemma check_names_total dir : ∃ o, check_names dir = o ∧ (o = Ok () ∨ ∃ e, o = Err e).
Proof.
  eexists; split; [done|]. induction dir as [|a [|b dir] IH]; [by left..|].
  cbn [check_names]. case_bool_decide; [eauto|]. case_bool_decide; [eauto|]. apply IH.
Qed.

(** ** The codec *)

Definition valid_ent (e : DirEnt) : Prop :=
  (Z.of_nat (length (EntName e)) ≤ 65535)%Z ∧ (- 2 ^ 63 ≤ EntSize e < 2 ^ 63)%Z ∧
  (- 2 ^ 63 ≤ EntModTime e < 2 ^ 63)%Z ∧ (0 ≤ EntMode e < 2 ^ 32)%Z ∧
  Depth (EntHTree e) < 256 ∧ length (Data (EntHTree e)) = hash_len.

Definition ent_size (name : bytes) : nat := 55 + length name.

Lemma length_encode_ent e :
  length (Data (EntHTree e)) = hash_len → length (encode_ent e) = ent_size (EntName e).
Proof. unfold encode_ent, ent_size, hash_len. intros. len. Qed.

Lemma decode_encode_ent e rest : valid_ent e → decode_ent (encode_ent e ++ rest) = Ok (e, rest).
Proof.
  intros (Hn & Hs & Hm & Hmo & Hd & Hh). unfold decode_ent, encode_ent. rewrite <-!app_assoc.
  cut_step. rewrite get_put_le_small, Nat2Z.id by lia. do 6 cut_step.
  rewrite (idx_ok [nbyte _] 0 _ eq_refl), !get_put_le. cbn beta iota delta [mbind outcome_bind].
  rewrite unsigned_nbyte, Nat2Z.id by done. change (8 * Z.of_nat 8)%Z with 64%Z.
  rewrite !i64_u64, wrap_small by lia. by destruct e as [? ? ? ? []].
Qed.

Definition encoded (dir : list DirEnt) : bytes := concat (encode_ent <$> dir).

Lemma encode_ent_nonempty e : encode_ent e ≠ [].
Proof. unfold encode_ent. by intros [? _]%app_eq_nil. Qed.

Lemma decode_encoded dir fuel :
  Forall valid_ent dir → length (encoded dir) ≤ fuel → decode_dir fuel (encoded dir) = Ok dir.
Proof.
  intros Hv. revert fuel. induction Hv as [|e dir He Hv IH]; intros fuel Hf; [by destruct fuel|].
  unfold encoded in *. rewrite fmap_cons, concat_cons in *. rewrite length_app in Hf.
  pose proof (encode_ent_nonempty e) as Hne.
  destruct (encode_ent e ++ concat (encode_ent <$> dir)) as [|c b] eqn:Hb;
    [by apply app_eq_nil in Hb as [? _]|].
  destruct fuel as [|fuel]; [destruct (encode_ent e); simpl in *; [done|lia]|].
  cbn [decode_dir]. rewrite <-Hb, decode_encode_ent by done. unfold mbind, outcome_bind.
  rewrite IH; [done|]. destruct (encode_ent e); simpl in *; [done|lia].
Qed.

Lemma encode_dir_ok dir :
  Forall (λ e, Z.of_nat (length (EntName e)) ≤ 65535)%Z dir → encode_dir dir = Ok (encoded dir).
Proof.
  induction 1 as [|e dir He Hv IH]; [done|]. cbn [encode_dir].
  rewrite bool_decide_eq_false_2, IH by lia. done.
Qed.

Lemma encode_dir_total dir :
  match encode_dir dir with
  | Ok b => b = encoded dir ∧ Forall (λ e, Z.of_nat (length (EntName e)) ≤ 65535)%Z dir
  | Err _ => ∃ e, e ∈ dir ∧ (65535 < Z.of_nat (length (EntName e)))%Z
  | _ => False
  end.
Proof.
  induction dir as [|e dir IH]; [done|]. cbn [encode_dir]. case_bool_decide as He.
  { exists e. split; [apply elem_of_cons; by left|done]. }
  unfold mbind, outcome_bind. destruct (encode_dir dir) as [b|err| |]; try done.
  - destruct IH as [-> Hall]. split; [done|]. constructor; [lia|done].
  - destruct IH as (x & Hx & Hl). exists x. split; [apply elem_of_cons; by right|done].
Qed.

(** ** Paths

    [abs_path names] is the path with these elements; good names survive
    [path.Clean]. *)
Definition good_name (n : bytes) : Prop := n ≠ [] ∧ n ≠ dot ∧ n ≠ str ".." ∧ slash ∉ n.
Definition abs_path (names : list bytes) : bytes := slash :: Join names.

Lemma Split_slash s : Split (slash :: s) = [] :: Split s.
Proof. cbn [Split]. by rewrite decide_True. Qed.

Lemma Split_app n rest :
  slash ∉ n → Split (n ++ slash :: rest) = n :: Split rest.
Proof.
  induction n as [|c n IH]; intros Hn; [apply Split_slash|].
  apply not_elem_of_cons in Hn as [Hc Hn]. cbn [app Split]. rewrite decide_False, IH by congruence. done.
Qed.

Lemma Split_word n : slash ∉ n → Split n = [n].
Proof.
  induction n as [|c n IH]; intros Hn; [done|]. apply not_elem_of_cons in Hn as [Hc Hn].
  cbn [Split]. by rewrite decide_False, IH by congruence.
Qed.

Lemma Split_Join_app names tl :
  Forall (λ n, slash ∉ n) names → names ≠ [] → Split (Join names ++ slash :: tl) = names ++ Split tl.
Proof.
  induction 1 as [|n names Hn Hns IH]; intros Hne; [done|]. destruct names as [|n' names].
  { simpl. by apply Split_app. }
  change (Join (n :: n' :: names)) with (n ++ slash :: Join (n' :: names)).
  rewrite <-app_assoc, <-app_comm_cons, Split_app, IH by done. done.
Qed.

Lemma Split_Join names : Forall (λ n, slash ∉ n) names → names ≠ [] → Split (Join names) = names.
Proof.
  induction 1 as [|n names Hn Hns IH]; intros Hne; [done|]. destruct names as [|n' names].
  { by apply Split_word. }
  change (Join (n :: n' :: names)) with (n ++ slash :: Join (n' :: names)).
  by rewrite Split_app, IH.
Qed.

Lemma good_no_slash names : Forall good_name names → Forall (λ n, slash ∉ n) names.
Proof. intros Hg. eapply Forall_impl; [done|]. by intros n (_ & _ & _ & ?). Qed.

Lemma foldl_clean names acc : Forall good_name names → foldl clean_step acc names = rev names ++ acc.
Proof.
  intros Hg. revert acc. induction Hg as [|n names (Hne & Hd & Hdd & _) _ IH]; intros acc; [done|].
  cbn [foldl rev]. rewrite IH. unfold clean_step. rewrite decide_False by tauto.
  rewrite decide_False by done. by rewrite <-app_assoc.
Qed.

Lemma clean_good names tl :
  Forall good_name names → Forall (λ e, e = []) tl → clean_elems ([] :: names ++ tl) = names.
Proof.
  intros Hg Htl. unfold clean_elems. cbn [foldl]. unfold clean_step at 2. rewrite decide_True by auto.
  rewrite foldl_app, (foldl_clean names), app_nil_r by done.
  assert (∀ acc, foldl clean_step acc tl = acc) as ->; [|apply rev_involutive].
  induction Htl as [|e tl -> Htl IH]; intros acc; [done|]. cbn [foldl]. rewrite IH.
  unfold clean_step. by rewrite decide_True by auto.
Qed.

Lemma Split_abs names :
  Forall good_name names → Split (abs_path names) = [] :: (if decide (names = []) then [[]] else names).
Proof.
  intros Hg. unfold abs_path. rewrite Split_slash. destruct (decide _) as [->|Hne]; [done|].
  rewrite Split_Join; [done|by apply good_no_slash|done].
Qed.

Lemma Clean_abs names : Forall good_name names → Clean (abs_path names) = abs_path names.
Proof.
  intros Hg. unfold Clean. rewrite Split_abs by done. unfold abs_path. do 2 f_equal.
  destruct (decide _) as [->|Hne]; [by apply (clean_good [] [[]]); [constructor|by constructor]|].
  rewrite <-(app_nil_r names) at 1. apply clean_good; [done|constructor].
Qed.

Lemma rooted_abs names : rooted (abs_path names) = abs_path names.
Proof. unfold rooted. by rewrite decide_True. Qed.

Lemma good_last names n : Forall good_name names → last names = Some n → n ≠ [].
Proof.
  intros Hg Hn. apply last_Some in Hn as [l ->]. apply Forall_app in Hg as [_ Hg].
  by apply Forall_singleton in Hg as [? _].
Qed.

Lemma trim_good names : Forall good_name names → names ≠ [] → trim_last names = Ok names.
Proof.
  intros Hg Hne. unfold trim_last. destruct (last names) as [n|] eqn:Hn.
  - pose proof (good_last _ _ Hg Hn). by destruct n.
  - by apply last_None in Hn.
Qed.

Lemma walk_elems_abs names : Forall good_name names → walk_elems (abs_path names) = Ok ([] :: names).
Proof.
  intros Hg. unfold walk_elems. rewrite rooted_abs, Clean_abs, Split_abs by done.
  destruct (decide _) as [->|Hne]; [done|]. destruct names as [|n names]; [done|].
  unfold trim_last. rewrite last_cons_cons. destruct (last (n :: names)) as [m|] eqn:Hm.
  - pose proof (good_last _ _ Hg Hm). by destruct m.
  - by apply last_None in Hm.
Qed.

Lemma path_elems_abs names : Forall good_name names → path_elems (abs_path names) = Ok names.
Proof.
  intros Hg. unfold path_elems. rewrite Clean_abs, Split_abs by done.
  destruct (decide _) as [->|Hne]; [done|].
  rewrite slice_ok by (simpl; lia). cbn [drop length]. unfold mbind, outcome_bind.
  rewrite drop_0, take_ge by lia.
  by apply trim_good.
Qed.

Lemma Dir_abs names n : Forall good_name (names ++ [n]) → Dir (abs_path (names ++ [n])) = abs_path names.
Proof.
  intros Hg. unfold Dir. rewrite Split_abs by done. rewrite decide_False by (by destruct names).
  pose proof Hg as [Hg' _]%Forall_app. rewrite app_comm_cons, removelast_last.
  unfold Clean, abs_path. do 2 f_equal. destruct names as [|n' names].
  { by apply (clean_good [] [[]]); [constructor|by constructor]. }
  change (Join ([] :: n' :: names)) with (slash :: Join (n' :: names)).
  rewrite <-app_comm_cons, Split_slash, Split_Join_app; [|by apply good_no_slash|done].
  apply clean_good; [done|]. by constructor.
Qed.

Lemma Base_abs names n : Forall good_name (names ++ [n]) → Base (abs_path (names ++ [n])) = n.
Proof.
  intros Hg. unfold Base. rewrite decide_False by done. rewrite Split_abs by done.
  rewrite decide_False by (by destruct names). rewrite filter_cons_False by tauto.
  rewrite filter_app. assert (filter (λ e : bytes, e ≠ []) [n] = [n]) as ->.
  { apply Forall_app in Hg as [_ [? _]%Forall_singleton]. by rewrite filter_cons_True. }
  by rewrite last_snoc.
Qed.

Lemma last_abs names n : Forall good_name (names ++ [n]) → last (abs_path (names ++ [n])) ≠ Some slash.
Proof.
  intros Hg Hl. pose proof (Forall_app good_name names [n]) as Hga. apply Hga in Hg as Hgg.
  destruct Hgg as [Hg1 (Hne & _ & _ & Hs)%Forall_singleton].
  assert (∃ pre, abs_path (names ++ [n]) = pre ++ n) as [pre Hpre].
  { clear. unfold abs_path. induction names as [|m names [pre IH]]; [by exists [slash]|].
    exists (slash :: m ++ pre).
    destruct (names ++ [n]) as [|x l] eqn:Hx; [by destruct names|].
    rewrite <-app_comm_cons, Hx. change (Join (m :: x :: l)) with (m ++ slash :: Join (x :: l)).
    rewrite IH. simpl. by rewrite <-app_assoc. }
  rewrite Hpre, last_app in Hl. destruct (last n) as [c|] eqn:Hc; [|by apply last_None in Hc].
  apply last_Some in Hc as [l ->]. simplify_eq. apply Hs. apply elem_of_app. right. by left.
Qed.

(** ** Stored directories *)

(** One [Write] and [Close], as [WriteDir] does them. *)
Lemma save_one_spec {P : Params} {Pok : ParamsOk} {St : Type} `{CStoreLaws St} buf (s : St) :
  length buf < max_stream → buf ≠ [] →
  wp (with_writer (Write buf;; CloseWriter))
    (λ t s', tree_at (some_size buf) s' (Depth t) (Data t) 0 buf ∧ Depth t ≤ nlevels - 2 ∧ keeps s s')
    (λ e _, put_fails e) s.
Proof.
  intros Hlt Hne. apply wp_with_writer. wp_step.
  eapply wp_mono; [apply (Write_spec buf _ [] (NewWriter_wrote s)); done| |done].
  cbn beta. intros n w (_ & Hw & Hk & Ht). simpl in *.
  eapply wp_mono; [apply (Close_spec w _ Hw); right; auto| |done]. cbn beta.
  intros t w' (? & ? & ?). split_and!; try done. by transitivity (w_store w).
Qed.

Definition dot_ent (mode : Z) (t : HTree) : DirEnt := mkDirEnt dot 0 0 mode t.

(** What the tree of a directory contains. *)
Definition dir_data (mode : Z) (ents : list DirEnt) : bytes :=
  encoded (dot_ent mode (mkHTree 0 zero_hash) :: ents).

Definition dir_size (ents : list DirEnt) : nat :=
  ent_size dot + sum_list_with (λ e, ent_size (EntName e)) ents.

Lemma dot_ent_valid mode t :
  (0 ≤ mode < 2 ^ 32)%Z → Depth t < 256 → length (Data t) = hash_len → valid_ent (dot_ent mode t).
Proof. intros. unfold valid_ent, dot_ent. simpl. split_and!; (done || lia). Qed.

Lemma length_encoded dir :
  Forall (λ e, length (Data (EntHTree e)) = hash_len) dir →
  length (encoded dir) = sum_list_with (λ e, ent_size (EntName e)) dir.
Proof.
  unfold encoded. induction 1 as [|e dir He Hd IH]; [done|].
  rewrite fmap_cons, concat_cons, length_app, IH, length_encode_ent by done. done.
Qed.

Lemma valid_ents_hashes dir :
  Forall valid_ent dir → Forall (λ e, length (Data (EntHTree e)) = hash_len) dir.
Proof. intros Hv. eapply Forall_impl; [done|]. by intros e (_ & _ & _ & _ & _ & ?). Qed.

Lemma length_dir_data mode ents :
  Forall (λ e, length (Data (EntHTree e)) = hash_len) ents → length (dir_data mode ents) = dir_size ents.
Proof.
  intros Hv. unfold dir_data, dir_size. rewrite length_encoded; [done|].
  constructor; [by vm_compute|done].
Qed.

Lemma dir_data_nonempty mode ents : dir_data mode ents ≠ [].
Proof.
  unfold dir_data, encoded. rewrite fmap_cons, concat_cons.
  by intros [?%encode_ent_nonempty _]%app_eq_nil.
Qed.

Lemma mode_lor_range mode : (0 ≤ mode < 2 ^ 32)%Z → (0 ≤ Z.lor mode ModeDir < 2 ^ 32)%Z.
Proof.
  intros [Hlo Hhi]. assert (Hnn : (0 ≤ Z.lor mode ModeDir)%Z) by (apply Z.lor_nonneg; split; [done|by vm_compute]).
  split; [done|]. destruct (decide (Z.lor mode ModeDir = 0)%Z) as [->|Hne]; [done|].
  apply Z.log2_lt_pow2; [lia|]. rewrite Z.log2_lor by (done || by vm_compute).
  apply Z.max_lub_lt; [|by vm_compute]. destruct (decide (mode = 0)%Z) as [->|]; [done|].
  apply Z.log2_lt_pow2; lia.
Qed.

Lemma mode_lor_IsDir mode : mode_IsDir (Z.lor mode ModeDir) = true.
Proof. unfold mode_IsDir. rewrite Z.lor_spec. by apply orb_true_r. Qed.

Lemma mode_lor_idem mode : mode_IsDir mode = true → Z.lor mode ModeDir = mode.
Proof.
  intros Hd. apply Z.bits_inj'. intros n Hn. rewrite Z.lor_spec. unfold ModeDir, mode_IsDir in *.
  destruct (decide (n = 31)%Z) as [->|Hne]; [by rewrite Hd|].
  by rewrite Z.pow2_bits_false, orb_false_r by lia.
Qed.

Section Dirs.
Context {P : Params} {Pok : ParamsOk} {St : Type} `{CStoreLaws St}.
Variables (sz : nat → nat) (fuel : nat).
Implicit Types (s : St).
Hypothesis Hsz : ∀ i, 1 ≤ sz i.
Hypothesis Heof : ¬ get_fails EOF.

(** [dir_at s t mode ents]: tree [t] of the store is the directory with these
    entries besides ["."]. *)
Definition dir_at s (t : HTree) (mode : Z) (ents : list DirEnt) : Prop :=
  (0 ≤ mode < 2 ^ 32)%Z ∧ mode_IsDir mode = true ∧ Forall valid_ent ents ∧
  Depth t ≤ nlevels - 2 ∧ dir_size ents < fuel ∧
  tree_at (some_size (dir_data mode ents)) s (Depth t) (Data t) 0 (dir_data mode ents).

Lemma dir_at_keeps s s' t mode ents : keeps s s' → dir_at s t mode ents → dir_at s' t mode ents.
Proof. intros Hk (? & ? & ? & ? & ? & Ht). split_and!; try done; try lia. by eapply tree_at_keeps. Qed.

Lemma dir_at_hash s t mode ents : dir_at s t mode ents → length (Data t) = hash_len.
Proof. intros (_ & _ & _ & _ & _ & Ht). by eapply tree_at_hash. Qed.

Lemma ReadDir_keeps s t mode ents :
  dir_at s t mode ents →
  wp (ReadDir sz fuel (Data t)) (λ r s', r = dot_ent mode t :: ents ∧ keeps s s')
     (λ e s', get_fails e ∧ keeps s s') s.
Proof.
  intros (Hm & Hdir & Hv & Hlvl & Hsize & Ht). unfold ReadDir. wp_step.
  assert (Hl : length (dir_data mode ents) = dir_size ents)
    by (apply length_dir_data; by apply valid_ents_hashes).
  eapply wp_mono; [eapply read_tree_spec; [done|done|by intros ?%dir_data_nonempty|lia|done|done]| |done].
  cbn beta. intros ? s' [-> Hk]. wp_step. eapply wp_lift_ok.
  { apply decode_encoded; [|done]. constructor; [|done]. apply dot_ent_valid; [done|by simpl; lia|done]. }
  wp_step. eapply wp_lift_ok; [done|]. wp_step. simpl. split; [|done]. by destruct t.
Qed.

Lemma ReadDir_spec s t mode ents :
  dir_at s t mode ents →
  wp (ReadDir sz fuel (Data t)) (λ r s', r = dot_ent mode t :: ents ∧ keeps s s')
     (λ e _, get_fails e) s.
Proof. intros. eapply wp_mono; [by apply ReadDir_keeps|done|]. by intros ? ? []. Qed.

(** [WriteDir] stores the sorted entries when they pass its checks. *)
Lemma WriteDir_ok s indir mode :
  check_names (Sort indir) = Ok () → Forall valid_ent indir → (0 ≤ mode < 2 ^ 32)%Z →
  dir_size indir < fuel → dir_size indir < max_stream →
  wp (WriteDir indir mode)
    (λ e s', ∃ t, e = dot_ent (Z.lor mode ModeDir) t ∧ keeps s s' ∧
                  dir_at s' t (Z.lor mode ModeDir) (Sort indir))
    (λ e _, put_fails e) s.
Proof.
  intros Ho Hv Hm Hf Hs. unfold WriteDir. fold (dot_ent (Z.lor mode ModeDir) (mkHTree 0 zero_hash)).
  wp_step. cbn [tail]. eapply wp_lift_ok; [done|].
  pose proof (Sort_perm indir) as Hp. assert (Hvs : Forall valid_ent (Sort indir)) by (by rewrite Hp).
  wp_step. eapply wp_lift_ok.
  { apply encode_dir_ok. constructor; [simpl; lia|]. eapply Forall_impl; [exact Hvs|]. by intros e [? _]. }
  assert (Hl : length (dir_data (Z.lor mode ModeDir) (Sort indir)) = dir_size indir).
  { rewrite length_dir_data by (by apply valid_ents_hashes). unfold dir_size. by rewrite Hp. }
  wp_step. eapply wp_mono; [apply save_one_spec; [|apply dir_data_nonempty]; unfold dir_data in Hl; lia| |done].
  cbn beta. intros t s' (Ht & Hd & Hk). wp_step. exists t. split_and!; try done.
  split_and!; [by apply mode_lor_range..|apply mode_lor_IsDir|done|done| |done].
  unfold dir_size in *. by rewrite Hp.
Qed.

(** Otherwise it reports the bad name. *)
Lemma WriteDir_spec s indir mode :
  Forall (λ e, valid_ent e ∨ 65535 < Z.of_nat (length (EntName e)))%Z indir → (0 ≤ mode < 2 ^ 32)%Z →
  dir_size indir < fuel → dir_size indir < max_stream →
  wp (WriteDir indir mode)
    (λ e s', ∃ t, e = dot_ent (Z.lor mode ModeDir) t ∧ keeps s s' ∧ distinct indir ∧
                  dir_at s' t (Z.lor mode ModeDir) (Sort indir))
    (λ e _, put_fails e ∨ name_error indir e ∨
            ∃ x, x ∈ indir ∧ (65535 < Z.of_nat (length (EntName x)))%Z) s.
Proof.
  intros Hv Hm Hf Hs. pose proof (Sort_perm indir) as Hp.
  pose proof (check_names_total (Sort indir)) as (o & Ho & [->|[err ->]]).
  2: { unfold WriteDir. wp_step. cbn [tail]. unfold lift, wp. rewrite Ho. right. left.
       apply check_names_error in Ho. unfold name_error in *. by rewrite Hp in Ho. }
  destruct (decide (Forall (λ e, Z.of_nat (length (EntName e)) ≤ 65535)%Z indir)) as [Hn|Hn].
  - eapply wp_mono; [apply WriteDir_ok; try done|..]; cbn beta.
    + eapply Forall_impl; [apply Forall_and; split; [exact Hv|exact Hn]|]. cbn beta.
      intros x [[?|?] ?]; [done|lia].
    + intros e s' (t & -> & Hk & Hd). exists t. split_and!; try done.
      rewrite <-Hp. apply check_names_distinct; [apply Sort_sorted|done].
    + by left.
  - unfold WriteDir. wp_step. eapply wp_lift_ok; [done|]. wp_step.
    fold (dot_ent (Z.lor mode ModeDir) (mkHTree 0 zero_hash)).
    pose proof (encode_dir_total (dot_ent (Z.lor mode ModeDir) (mkHTree 0 zero_hash) :: Sort indir)) as He.
    unfold lift, wp. destruct (encode_dir _) as [buf|err| |]; try done.
    + destruct He as [_ [_ Hn']%Forall_cons]. by rewrite Hp in Hn'.
    + right. right. destruct He as (x & Hx & Hl). exists x. split; [|done].
      apply elem_of_cons in Hx as [->|Hx]; [by simpl in Hl|]. by rewrite Hp in Hx.
Qed.

(** a directory written and read back: ["."] with the mode and the tree just
    written comes first, then the entries, directories before files and each kind
    by name.  [WriteDir] only fails with the store, on a name that is taken or
    ["."], or on one of more than 65535 bytes; what it accepts has no two
    entries of the same kind and name. *)
Theorem fs_dir_roundtrip s indir mode :
  Forall (λ e, valid_ent e ∨ 65535 < Z.of_nat (length (EntName e)))%Z indir → (0 ≤ mode < 2 ^ 32)%Z →
  dir_size indir < fuel → dir_size indir < max_stream →
  wp (e ← WriteDir indir mode; ents ← ReadDir sz fuel (Data (EntHTree e)); mret (e, ents))
    (λ '(e, ents) _, ents = e :: Sort indir ∧ EntName e = dot ∧ EntMode e = Z.lor mode ModeDir ∧
                     StronglySorted ent_le (Sort indir) ∧ Sort indir ≡ₚ indir ∧ distinct indir)
    (λ e _, put_fails e ∨ get_fails e ∨ ¬ NoDup (EntName <$> indir) ∨ dot ∈ (EntName <$> indir) ∨
            ∃ x, x ∈ indir ∧ (65535 < Z.of_nat (length (EntName x)))%Z) s.
Proof.
  intros Hv Hm Hf Hs. wp_step. eapply wp_mono; [by apply WriteDir_spec|..]; cbn beta.
  2: { unfold name_error. tauto. }
  intros ? s' (t & -> & Hk & Hdi & Hd). wp_step. cbn [EntHTree dot_ent].
  eapply wp_mono; [by apply ReadDir_spec| |by auto]. cbn beta. intros ? s'' [-> _]. wp_step.
  split_and!; [done..|apply Sort_sorted|apply Sort_perm|done].
Qed.

(** the duplicate check only compares neighbours in the order that puts
    directories first: a directory and a file of the same name are accepted when a
    file of a smaller name stands between them, and both are stored. *)
Theorem fs_duplicate_accepted s d a f mode :
  Forall valid_ent [d; a; f] → (0 ≤ mode < 2 ^ 32)%Z →
  dir_size [d; a; f] < fuel → dir_size [d; a; f] < max_stream →
  IsDir d = true → IsDir a = false → IsDir f = false → EntName d = EntName f →
  str_lt (EntName a) (EntName f) = true → EntName a ≠ dot → EntName d ≠ dot →
  wp (e ← WriteDir [d; a; f] mode; ReadDir sz fuel (Data (EntHTree e)))
    (λ ents _, tail ents = [d; a; f]) (λ e _, put_fails e ∨ get_fails e) s.
Proof.
  intros Hv Hm Hf Hs Hd Ha Hfi Heq Hlt Hna Hnd.
  assert (Haf : EntName a ≠ EntName f) by (intros E; by rewrite E, str_lt_irrefl in Hlt).
  assert (Hda : ent_le d a) by (unfold ent_le, Less; by rewrite Hd, Ha).
  assert (Hdf : ent_le d f) by (unfold ent_le, Less; by rewrite Hd, Hfi).
  assert (Hle : ent_le a f).
  { destruct (total ent_le a f) as [?|Hfa]; [done|]. unfold ent_le, Less in Hfa.
    rewrite Ha, Hfi in Hfa. simpl in Hfa. congruence. }
  assert (HS : Sort [d; a; f] = [d; a; f]).
  { apply Sort_id; [|repeat constructor; done]. unfold distinct. simpl.
    rewrite Hd, Ha, Hfi. repeat constructor; rewrite ?elem_of_cons, elem_of_nil; naive_solver. }
  wp_step. eapply wp_mono; [apply WriteDir_ok; try done| |by left]; cbn beta.
  { rewrite HS. apply check_names_cons. split_and!; [done|congruence|]. by apply check_names_cons. }
  intros ? s' (t & -> & _ & Hdat). rewrite HS in Hdat. cbn [EntHTree dot_ent].
  eapply wp_mono; [by apply ReadDir_spec| |by right]. cbn beta. by intros ? s'' [-> _].
Qed.
End Dirs.
