(* ===== verification/FsTree.v ===== *)
(** The file system as a tree of finite maps.

    Abstractly a directory is a finite map from names to files and directories;
    [t_lookup], [t_insert] and [t_remove] are its operations.  [dirs s h mode kids]
    says that hash [h] of store [s] represents the directory [kids].  The theorems
    show that [Walk], [insert] and [remove] of Fs implement the abstract
    operations. *)

From Stdlib Require Import ZArith Lia.
From stdpp Require Import base list strings gmap sorting.
From coqutil Require Import Byte.
From S2P Require Import Prelude Store Io Htree HtreeSpec HtreeWrite HtreeRead HtreeProps Fs FsProps.

Set Default Goal Selector "!".

(** ** The abstract file system *)

(** What the parent says of an entry besides its name and its tree. *)
Record meta := mkMeta { m_size : Z; m_mtime : Z; m_mode : Z }.

(** A directory has two modes: its parent's and the one of its own ["."]. *)
Inductive node :=
  | File (m : meta) (t : HTree)
  | Folder (m : meta) (dmode : Z) (kids : gmap bytes node).

Abbreviation kidmap := (gmap bytes node).

Fixpoint t_lookup (kids : kidmap) (path : list bytes) : option node :=
  match path with
  | [] => None
  | [name] => kids !! name
  | name :: path =>
    match kids !! name with
    | Some (Folder _ _ kids') => t_lookup kids' path
    | _ => None
    end
  end.

(** Apply [f] to the directory at [path]. *)
Fixpoint t_update (f : kidmap → option kidmap) (kids : kidmap) (path : list bytes) : option kidmap :=
  match path with
  | [] => f kids
  | name :: path =>
    match kids !! name with
    | Some (Folder m dm kids') =>
      kids'' ← t_update f kids' path; Some (<[name := Folder m dm kids'']> kids)
    | _ => None
    end
  end.

Definition map_size (kids : kidmap) : nat :=
  ent_size dot + sum_list_with ent_size (elements (dom kids)).

(** A new entry, where the directory stays below [cap] bytes. *)
Definition add_kid (cap : nat) (name : bytes) (n : node) (kids : kidmap) : option kidmap :=
  if decide (kids !! name = None ∧ map_size kids + ent_size name < cap)
  then Some (<[name := n]> kids) else None.
Definition t_insert (cap : nat) (kids : kidmap) (path : list bytes) (name : bytes) (n : node) : option kidmap :=
  t_update (add_kid cap name n) kids path.

Definition del_kid (name : bytes) (kids : kidmap) : option kidmap :=
  if decide (is_Some (kids !! name)) then Some (delete name kids) else None.
Definition t_remove (kids : kidmap) (path : list bytes) (name : bytes) : option kidmap :=
  t_update (del_kid name) kids path.

(** ** Representation *)

Definition meta_of (e : DirEnt) : meta := mkMeta (EntSize e) (EntModTime e) (EntMode e).

Section Repr.
Context {P : Params} {Pok : ParamsOk} {St : Type} `{CStoreLaws St}.
Variables (sz : nat → nat) (fuel : nat).
Implicit Types (s : St).
Hypothesis Hsz : ∀ i, 1 ≤ sz i.
Hypothesis Heof : ¬ get_fails EOF.

(** The node an entry stands for, given the contents of the directories. *)
Definition node_of (dm : DirEnt → Z) (ks : DirEnt → kidmap) (e : DirEnt) : node :=
  if IsDir e then Folder (meta_of e) (dm e) (ks e) else File (meta_of e) (EntHTree e).

Definition kids_of (dm : DirEnt → Z) (ks : DirEnt → kidmap) (ents : list DirEnt) : kidmap :=
  list_to_map ((λ e, (EntName e, node_of dm ks e)) <$> ents).

(** Names are unique and none is ["."], which [Walk] could not tell from the
    directory itself. *)
Inductive dirs s : hash → Z → kidmap → Prop :=
  | dirs_intro t mode ents dm ks :
      dir_at fuel s t mode ents → NoDup (EntName <$> ents) → dot ∉ (EntName <$> ents) →
      (∀ e, e ∈ ents → IsDir e = true → dirs s (Data (EntHTree e)) (dm e) (ks e)) →
      dirs s (Data t) mode (kids_of dm ks ents).

(** Entry [e] stands for node [n]. *)
Definition ent_repr s (e : DirEnt) (n : node) : Prop :=
  valid_ent e ∧
  if IsDir e then ∃ dm ks, n = Folder (meta_of e) dm ks ∧ dirs s (Data (EntHTree e)) dm ks
  else n = File (meta_of e) (EntHTree e).

Lemma dirs_keeps s s' h mode kids : keeps s s' → dirs s h mode kids → dirs s' h mode kids.
Proof.
  intros Hk. induction 1 as [t mode ents dm ks Hd Hn Hdot _ IH].
  econstructor; [by eapply dir_at_keeps|done..].
Qed.

Lemma ent_repr_keeps s s' e n : keeps s s' → ent_repr s e n → ent_repr s' e n.
Proof.
  intros Hk [Hv Hn]. split; [done|]. destruct (IsDir e); [|done].
  destruct Hn as (dm & ks & ? & ?). eauto using dirs_keeps.
Qed.

(** Entries [ents] list the directory [kids]: the form the proofs use. *)
Definition lists s (ents : list DirEnt) (kids : kidmap) : Prop :=
  NoDup (EntName <$> ents) ∧ dot ∉ (EntName <$> ents) ∧ dom kids = list_to_set (EntName <$> ents) ∧
  ∀ e, e ∈ ents → ∃ n, kids !! EntName e = Some n ∧ ent_repr s e n.

Lemma kids_of_lookup dm ks ents e :
  NoDup (EntName <$> ents) → e ∈ ents → kids_of dm ks ents !! EntName e = Some (node_of dm ks e).
Proof.
  intros Hn He. unfold kids_of. apply elem_of_list_to_map_1.
  - by rewrite <-list_fmap_compose.
  - apply list_elem_of_fmap. eauto.
Qed.

Lemma dom_kids_of dm ks ents : dom (kids_of dm ks ents) = list_to_set (EntName <$> ents).
Proof. unfold kids_of. by rewrite dom_list_to_map_L, <-list_fmap_compose. Qed.

(** The contents a map gives to a directory entry. *)
Definition dm_of (kids : kidmap) (e : DirEnt) : Z :=
  match kids !! EntName e with Some (Folder _ d _) => d | _ => 0%Z end.
Definition ks_of (kids : kidmap) (e : DirEnt) : kidmap :=
  match kids !! EntName e with Some (Folder _ _ k) => k | _ => ∅ end.

Lemma lists_node s ents kids e :
  lists s ents kids → e ∈ ents → kids !! EntName e = Some (node_of (dm_of kids) (ks_of kids) e).
Proof.
  intros (_ & _ & _ & Hr) He. destruct (Hr e He) as (n & Hn & _ & Hrep). rewrite Hn.
  unfold node_of, dm_of, ks_of. rewrite Hn. destruct (IsDir e); [|congruence].
  by destruct Hrep as (dm & ks & -> & _).
Qed.

Lemma dirs_lists s h mode kids :
  dirs s h mode kids ↔ ∃ t ents, h = Data t ∧ dir_at fuel s t mode ents ∧ lists s ents kids.
Proof.
  split.
  - intros [t mode' ents dm ks Hd Hn Hdot Hk]. exists t, ents. split_and!; try done.
    split_and!; [done|done|apply dom_kids_of|]. intros e He.
    exists (node_of dm ks e). split; [by apply kids_of_lookup|].
    destruct Hd as (_ & _ & Hv & _). rewrite Forall_forall in Hv. split; [by apply Hv|].
    unfold node_of. destruct (IsDir e) eqn:Hdir; [|done]. eauto.
  - intros (t & ents & -> & Hd & Hl). pose proof Hl as (Hn & Hdot & Hdom & Hr).
    assert (kids = kids_of (dm_of kids) (ks_of kids) ents) as ->.
    { apply map_eq. intros name. destruct (decide (name ∈ EntName <$> ents)) as [Hin|Hout].
      - apply list_elem_of_fmap in Hin as (e & -> & He).
        by rewrite kids_of_lookup, (lists_node s ents).
      - rewrite !(proj1 (not_elem_of_dom _ _)); [done| |]; rewrite ?dom_kids_of, ?Hdom; set_solver. }
    eapply dirs_intro; [done..|]. intros e He Hdir. destruct (Hr e He) as (n & Hne & _ & Hrep).
    rewrite Hdir in Hrep. destruct Hrep as (dm & ks & -> & Hrep). unfold dm_of, ks_of. by rewrite Hne.
Qed.

Lemma lists_keeps s s' ents kids : keeps s s' → lists s ents kids → lists s' ents kids.
Proof.
  intros Hk (Hn & Hdot & Hdom & Hr). split_and!; try done. intros e He.
  destruct (Hr e He) as (n & ? & ?). eauto using ent_repr_keeps.
Qed.

(** The two sizes agree. *)
Lemma lists_size s ents kids : lists s ents kids → map_size kids = dir_size ents.
Proof.
  intros (Hn & _ & Hdom & _). unfold map_size, dir_size. f_equal.
  rewrite Hdom, elements_list_to_set by done. clear.
  induction ents as [|e ents IH]; [done|]. rewrite fmap_cons. simpl. by rewrite IH.
Qed.

Lemma lists_perm s ents ents' kids : ents ≡ₚ ents' → lists s ents kids → lists s ents' kids.
Proof.
  intros Hp (Hn & Hdot & Hdom & Hr). unfold lists. rewrite <-Hp. split_and!; try done.
  intros e He. apply Hr. by rewrite Hp.
Qed.

(** What the search of a directory that was read finds. *)
Lemma find_ent_lists s ents kids d name :
  lists s ents kids → EntName d = dot → name ≠ dot →
  match kids !! name with
  | Some n => ∃ i e, find_ent name (d :: ents) = Some (S i, e) ∧ ents !! i = Some e ∧
                     EntName e = name ∧ ent_repr s e n
  | None => find_ent name (d :: ents) = None
  end.
Proof.
  intros Hl Hd Hname. pose proof Hl as (Hn & _ & Hdom & Hr). unfold find_ent.
  cbn [list_find]. rewrite decide_False by congruence. destruct (kids !! name) as [n|] eqn:Hk.
  - assert (Hin : name ∈ EntName <$> ents).
    { apply elem_of_dom_2 in Hk. rewrite Hdom in Hk. set_solver. }
    apply list_elem_of_fmap in Hin as (e & -> & He).
    destruct (list_find_elem_of (λ x, EntName x = EntName e) ents e He eq_refl) as [[i e'] Hf].
    pose proof Hf as (Hi & Hne & _)%list_find_Some. exists i, e'. rewrite Hf. split_and!; try done.
    destruct (Hr e') as (n' & Hn' & Hrep); [by eapply list_elem_of_lookup_2|]. congruence.
  - rewrite (proj2 (list_find_None _ _)); [done|]. apply Forall_forall. intros e He Heq.
    destruct (Hr e He) as (n & ? & _). congruence.
Qed.
(** ** Operations *)

(** Reading a represented directory. *)
Lemma ReadDir_dirs s h mode kids :
  dirs s h mode kids →
  wp (ReadDir sz fuel h)
    (λ r s', ∃ t ents, h = Data t ∧ r = dot_ent mode t :: ents ∧ dir_at fuel s' t mode ents ∧
                       lists s' ents kids ∧ keeps s s')
    (λ e _, get_fails e) s.
Proof.
  intros (t & ents & -> & Hd & Hl)%dirs_lists.
  eapply wp_mono; [by apply ReadDir_spec| |done]. cbn beta. intros r s' [-> Hk].
  exists t, ents. split_and!; eauto using dir_at_keeps, lists_keeps.
Qed.

(** Writing a list of entries that lists [kids]. *)
Lemma WriteDir_lists s ents kids mode :
  lists s ents kids → (0 ≤ mode < 2 ^ 32)%Z → mode_IsDir mode = true →
  map_size kids < fuel → map_size kids < max_stream →
  wp (WriteDir ents mode)
    (λ e s', ∃ t, e = dot_ent mode t ∧ keeps s s' ∧ dirs s' (Data t) mode kids ∧
                  length (Data t) = hash_len ∧ Depth t < 256)
    (λ e _, put_fails e) s.
Proof.
  intros Hl Hm Hdir Hf Hms. pose proof Hl as (Hn & Hdot & Hdom & Hr).
  rewrite (lists_size _ _ _ Hl) in *.
  assert (Hv : Forall valid_ent ents).
  { apply Forall_forall. intros e He. by destruct (Hr e He) as (n & _ & ? & _). }
  eapply wp_mono; [apply (WriteDir_spec fuel); [|done|done|done]|..]; cbn beta.
  - eapply Forall_impl; [done|]. by left.
  - intros e s' (t & -> & Hk & _ & Hd). rewrite mode_lor_idem in * by done.
    exists t. split_and!; try done.
    + apply dirs_lists. exists t, (Sort ents). split_and!; try done.
      eapply lists_perm; [symmetry; apply Sort_perm|]. by eapply lists_keeps.
    + by eapply dir_at_hash.
    + destruct Hd as (_ & _ & _ & Hd & _). pose proof nlevels_byte. lia.
  - intros e _ [?|[[?|?]|(x & Hx & Hlen)]]; try done.
    rewrite Forall_forall in Hv. destruct (Hv x Hx) as [? _]. lia.
Qed.

(** [walk_loop] below the root. *)
Lemma walk_loop_spec path s h mode kids r :
  dirs s h mode kids → Forall good_name path → path ≠ [] →
  wp (walk_loop sz fuel h path r)
    (λ e s', ∃ n, t_lookup kids path = Some n ∧ last path = Some (EntName e) ∧ ent_repr s' e n ∧ keeps s s')
    (λ e _, get_fails e ∨ t_lookup kids path = None) s.
Proof.
  intros Hd Hg. revert s h mode kids Hd.
  induction Hg as [|name path (Hne & Hdot & _) Hg IH]; intros s h mode kids Hd Hp; [done|].
  cbn [walk_loop]. rewrite decide_False by done. wp_step.
  eapply wp_mono; [by apply ReadDir_dirs| |by left]. cbn beta.
  intros ? s1 (t & ents & -> & -> & Hdat & Hl & Hk).
  pose proof (find_ent_lists s1 ents kids (dot_ent mode t) name Hl eq_refl Hdot) as Hf.
  destruct (kids !! name) as [n|] eqn:Hkn.
  2: { rewrite Hf. wp_step. right. destruct path; cbn [t_lookup]; by rewrite Hkn. }
  destruct Hf as (i & e & -> & _ & Hen & Hrep). destruct (decide (path = [])) as [->|Hpne].
  { wp_step. exists n. cbn [t_lookup last]. split_and!; try done. by rewrite Hen. }
  destruct path as [|name' path]; [done|]. cbn [t_lookup]. rewrite Hkn.
  destruct Hrep as [Hv Hn]. destruct (IsDir e) eqn:Hdir; [|wp_step; right; by rewrite Hn].
  destruct Hn as (dm & ks & -> & Hks).
  eapply wp_mono; [by apply (IH _ _ _ _ Hks)| |done]. cbn beta.
  intros e' s2 (n' & ? & ? & ? & ?). exists n'. rewrite last_cons_cons. split_and!; try done.
  by transitivity s1.
Qed.
(** How the listing follows the map. *)
Lemma lists_insert s ents kids e n :
  lists s ents kids → kids !! EntName e = None → EntName e ≠ dot → ent_repr s e n →
  lists s (e :: ents) (<[EntName e := n]> kids).
Proof.
  intros (Hn & Hdot & Hdom & Hr) Hnone Hne Hrep.
  assert (Hout : EntName e ∉ EntName <$> ents).
  { intros Hin. assert (Hd : EntName e ∈ dom kids) by (rewrite Hdom; set_solver).
    by apply elem_of_dom in Hd as [? ?]; simplify_eq. }
  unfold lists. rewrite fmap_cons. split_and!.
  - by constructor.
  - rewrite not_elem_of_cons. done.
  - rewrite dom_insert_L, Hdom. set_solver.
  - intros x [->|Hx]%elem_of_cons; [exists n; by rewrite lookup_insert_eq|].
    rewrite lookup_insert_ne; [by apply Hr|]. intros Heq. apply Hout. rewrite Heq.
    apply list_elem_of_fmap. eauto.
Qed.

Lemma lists_delete s ents kids name :
  lists s ents kids → lists s (filter (λ e, name ≠ EntName e) ents) (delete name kids).
Proof.
  intros (Hn & Hdot & Hdom & Hr).
  assert (Hsub : sublist (EntName <$> filter (λ e, name ≠ EntName e) ents) (EntName <$> ents)).
  { apply fmap_sublist, sublist_filter. }
  unfold lists. split_and!.
  - by eapply sublist_NoDup.
  - intros (e & Hd & [_ He]%list_elem_of_filter)%list_elem_of_fmap. apply Hdot.
    apply list_elem_of_fmap. eauto.
  - rewrite dom_delete_L, Hdom. apply set_eq. intros x.
    rewrite elem_of_difference, !elem_of_list_to_set, !list_elem_of_fmap, elem_of_singleton.
    setoid_rewrite list_elem_of_filter. naive_solver.
  - intros e [Hne He]%list_elem_of_filter. rewrite lookup_delete_ne by done. by apply Hr.
Qed.

Lemma lists_replace s ents kids i e e' n :
  lists s ents kids → ents !! i = Some e → EntName e' = EntName e → ent_repr s e' n →
  lists s (<[i := e']> ents) (<[EntName e := n]> kids).
Proof.
  intros (Hn & Hdot & Hdom & Hr) Hi He' Hrep.
  assert (Hin : e ∈ ents) by (by eapply list_elem_of_lookup_2).
  assert (Hnames : EntName <$> <[i := e']> ents = EntName <$> ents).
  { rewrite list_fmap_insert, He'. apply list_insert_id. by rewrite list_lookup_fmap, Hi. }
  unfold lists. rewrite Hnames. split_and!; try done.
  - rewrite dom_insert_lookup_L; [done|]. destruct (Hr e Hin) as (? & ? & _). eauto.
  - intros x Hx. apply list_elem_of_lookup in Hx as [j Hj].
    destruct (decide (j = i)) as [->|Hij].
    + rewrite list_lookup_insert_eq in Hj by (by eapply lookup_lt_Some). simplify_eq.
      rewrite He'. exists n. by rewrite lookup_insert_eq.
    + rewrite list_lookup_insert_ne in Hj by done.
      rewrite lookup_insert_ne; [apply Hr; by eapply list_elem_of_lookup_2|].
      intros Heq. apply Hij. eapply (NoDup_lookup _ j i (EntName x) Hn).
      * by rewrite list_lookup_fmap, Hj.
      * rewrite list_lookup_fmap, Hi. simpl. by rewrite Heq.
Qed.

Hypothesis Hcap : fuel ≤ max_stream.

(** The result of an operation that changed a directory. *)
Definition changed s (mode : Z) (kids : kidmap) (e : DirEnt) s' : Prop :=
  ∃ t, e = dot_ent mode t ∧ keeps s s' ∧ dirs s' (Data t) mode kids ∧
       length (Data t) = hash_len ∧ Depth t < 256.

Lemma changed_after s s1 mode kids e s' :
  keeps s s1 → changed s1 mode kids e s' → changed s mode kids e s'.
Proof. intros Hk (t & -> & Hk' & ?). exists t. split_and!; [done|by transitivity s1|naive_solver..]. Qed.

Lemma lists_find s ents kids name :
  lists s ents kids → is_Some (kids !! name) → ∃ e, e ∈ ents ∧ name = EntName e.
Proof.
  intros (_ & _ & Hdom & _) Hin%elem_of_dom. rewrite Hdom, elem_of_list_to_set in Hin.
  apply list_elem_of_fmap in Hin as (e & ? & ?). eauto.
Qed.

Lemma map_size_insert (kids : kidmap) name n :
  kids !! name = None → map_size (<[name := n]> kids) = map_size kids + ent_size name.
Proof.
  intros Hn. unfold map_size. rewrite dom_insert_L, elements_disj_union.
  - rewrite elements_singleton. cbn [app sum_list_with]. lia.
  - apply disjoint_singleton_l. by apply not_elem_of_dom.
Qed.

Lemma map_size_delete (kids : kidmap) name : map_size (delete name kids) ≤ map_size kids.
Proof.
  destruct (kids !! name) as [n|] eqn:Hn; [|by rewrite delete_id].
  rewrite <-(insert_delete_id kids name n Hn) at 2. rewrite map_size_insert; [lia|].
  apply lookup_delete_eq.
Qed.

Lemma map_size_replace (kids : kidmap) name n n' :
  kids !! name = Some n → map_size (<[name := n']> kids) = map_size kids.
Proof. intros Hn. unfold map_size. by rewrite dom_insert_lookup_L by eauto. Qed.

(** Writing a directory back after one of its subdirectories changed. *)
Lemma put_back_spec s t mode ents kids i e dm ks t2 kids2 :
  dir_at fuel s t mode ents → lists s ents kids → ents !! i = Some e → IsDir e = true →
  valid_ent e → kids !! EntName e = Some (Folder (meta_of e) dm ks) →
  dirs s (Data t2) dm kids2 → length (Data t2) = hash_len → Depth t2 < 256 →
  wp (WriteDir (tail (<[S i := set_EntHTree t2 e]> (dot_ent mode t :: ents))) mode)
    (changed s mode (<[EntName e := Folder (meta_of e) dm kids2]> kids))
    (λ e _, put_fails e) s.
Proof.
  intros (Hm & Hdir & _ & _ & Hsize & _) Hl Hi He Hv Hk Hd2 Hlen Hdep. cbn [tail list_insert insert].
  change (list_insert i (set_EntHTree t2 e) ents) with (<[i := set_EntHTree t2 e]> ents).
  apply WriteDir_lists; try done.
  - apply (lists_replace _ _ _ _ e); [done|done|done|]. destruct Hv as (? & ? & ? & ? & _ & _).
    split; [split_and!; simpl; (done || lia)|]. unfold IsDir in *. simpl. rewrite He. eauto.
  - rewrite (map_size_replace _ _ _ _ Hk), (lists_size _ _ _ Hl). done.
  - rewrite (map_size_replace _ _ _ _ Hk), (lists_size _ _ _ Hl). lia.
Qed.
(** [insert] and [remove] descend a path alike and put the changed directory
    back on the way up. *)
Lemma insert_spec path s h mode kids ent n kids' :
  dirs s h mode kids → Forall good_name path → EntName ent ≠ dot → ent_repr s ent n →
  t_insert fuel kids path (EntName ent) n = Some kids' →
  wp (insert sz fuel h path ent) (changed s mode kids') (λ e _, get_fails e ∨ put_fails e) s.
Proof.
  intros Hd Hg Hent Hrep. revert s h mode kids kids' Hd Hrep.
  induction Hg as [|name path (_ & Hdot & _) Hg IH]; intros s h mode kids kids' Hd Hrep Hup;
    cbn [insert]; wp_step;
    (eapply wp_mono; [by apply ReadDir_dirs| |by left]); cbn beta;
    intros ? s1 (t & ents & -> & -> & Hdat & Hl & Hk).
  - unfold t_insert in Hup. cbn [t_update] in Hup. unfold add_kid in Hup.
    destruct (decide _) as [[Hnone Hroom]|]; [|done]. simplify_eq.
    wp_step. eapply wp_lift_ok; [done|]. cbn [EntMode dot_ent].
    change (<[0 := ent]> (dot_ent mode t :: ents)) with (ent :: ents).
    destruct Hdat as (Hm & Hdir & _). eapply wp_mono; [apply WriteDir_lists; try done| |by right].
    + apply lists_insert; try done. by eapply ent_repr_keeps.
    + rewrite map_size_insert by done. lia.
    + rewrite map_size_insert by done. lia.
    + cbn beta. intros e s2. by apply changed_after.
  - pose proof (find_ent_lists s1 ents kids (dot_ent mode t) name Hl eq_refl Hdot) as Hf.
    unfold t_insert in Hup. cbn [t_update] in Hup.
    destruct (kids !! name) as [[|m dm ks]|] eqn:Hkn; try done.
    destruct Hf as (i & e & -> & Hi & <- & Hv & Hn). destruct (IsDir e) eqn:Hdir; [|done].
    destruct Hn as (dm' & ks' & Heq & Hks). simplify_eq.
    apply bind_Some in Hup as (ks2 & Hup' & Hup). simplify_eq.
    wp_step. eapply wp_mono; [eapply (IH s1 _ _ ks' ks2); [done|by eapply ent_repr_keeps|done]| |done].
    cbn beta. intros ne s2 (t2 & -> & Hk2 & Hd2 & Hlen & Hdep). wp_step. eapply wp_lift_ok; [done|].
    eapply wp_mono; [eapply (put_back_spec s2 t mode); eauto using dir_at_keeps, lists_keeps| |by right].
    cbn beta. intros e' s3. apply changed_after. by transitivity s1.
Qed.

Lemma remove_spec path s h mode kids name kids' :
  dirs s h mode kids → Forall good_name path → t_remove kids path name = Some kids' →
  wp (remove sz fuel h (path ++ [name])) (changed s mode kids') (λ e _, get_fails e ∨ put_fails e) s.
Proof.
  intros Hd Hg. revert s h mode kids kids' Hd.
  induction Hg as [|name' path (_ & Hdot & _) Hg IH]; intros s h mode kids kids' Hd Hup;
    unfold t_remove in Hup; cbn [app remove]; wp_step;
    (eapply wp_mono; [by apply ReadDir_dirs| |by left]); cbn beta;
    intros ? s1 (t & ents & -> & -> & Hdat & Hl & Hk).
  - cbn [t_update] in Hup. unfold del_kid in Hup. destruct (decide _) as [Hin|]; [|done]. simplify_eq.
    wp_step. eapply wp_lift_ok; [done|]. cbn [EntMode dot_ent tail].
    destruct (lists_find s1 ents kids name Hl Hin) as (e & He & Hne).
    assert (length (filter (λ e, name ≠ EntName e) ents) < length ents)
      by (apply (length_filter_lt _ _ e); [done|intros Hx; by apply Hx]).
    rewrite bool_decide_eq_false_2 by lia. rewrite bool_decide_eq_false_2 by lia.
    destruct Hdat as (Hm & Hdir & _ & _ & Hsize & _).
    pose proof (map_size_delete kids name) as Hle. rewrite (lists_size _ _ _ Hl) in Hle.
    eapply wp_mono; [apply WriteDir_lists; [by apply lists_delete|done|done|lia|lia]| |by right].
    cbn beta. intros e' s2. by apply changed_after.
  - pose proof (find_ent_lists s1 ents kids (dot_ent mode t) name' Hl eq_refl Hdot) as Hf.
    cbn [t_update] in Hup. destruct (kids !! name') as [[|m dm ks]|] eqn:Hkn; try done.
    destruct Hf as (i & e & Hfind & Hi & <- & Hv & Hn). destruct (IsDir e) eqn:Hdir; [|done].
    destruct Hn as (dm' & ks' & Heq & Hks). simplify_eq.
    apply bind_Some in Hup as (ks2 & Hup' & Hup). simplify_eq.
    destruct (path ++ [name]) as [|p ps] eqn:Hp; [by destruct path|]. rewrite Hfind, Hdir.
    wp_step. eapply wp_mono; [eapply (IH s1 _ _ ks' ks2); done| |done].
    cbn beta. intros ne s2 (t2 & -> & Hk2 & Hd2 & Hlen & Hdep). wp_step. eapply wp_lift_ok; [done|].
    eapply wp_mono; [eapply (put_back_spec s2 t mode); eauto using dir_at_keeps, lists_keeps| |by right].
    cbn beta. intros e' s3. apply changed_after. by transitivity s1.
Qed.
(** The calls on paths reach [walk_loop], [insert] and [remove] with the names. *)
Lemma Walk_spec path s h mode kids :
  dirs s h mode kids → Forall good_name path →
  wp (Walk sz fuel h (abs_path path))
    (λ e s', keeps s s' ∧
       if decide (path = []) then ∃ t, Data t = h ∧ e = dot_ent mode t
       else ∃ n, t_lookup kids path = Some n ∧ last path = Some (EntName e) ∧ ent_repr s' e n)
    (λ e _, get_fails e ∨ path ≠ [] ∧ t_lookup kids path = None) s.
Proof.
  intros Hd Hg. unfold Walk. wp_step. eapply wp_lift_ok; [by apply walk_elems_abs|].
  wp_step. eapply wp_mono; [by apply ReadDir_dirs| |by left]. cbn beta.
  intros ? s1 (t & ents & -> & -> & Hdat & Hl & Hk). wp_step. eapply wp_lift_ok; [done|].
  cbn [walk_loop]. rewrite decide_True by done. wp_step.
  assert (Hd1 : dirs s1 (Data t) mode kids) by (by eapply dirs_keeps).
  eapply wp_mono; [by apply ReadDir_dirs| |by left]. cbn beta.
  intros ? s2 (t2 & ents2 & Ht2 & -> & Hdat2 & Hl2 & Hk2).
  change (find_ent dot (dot_ent mode t2 :: ents2)) with (Some (0, dot_ent mode t2)).
  assert (Hk' : keeps s s2) by (by transitivity s1).
  destruct (decide (path = [])) as [->|Hne]; [wp_step; eauto|].
  change (IsDir (dot_ent mode t2)) with (mode_IsDir mode).
  destruct Hdat2 as (_ & Hdir & _). rewrite Hdir. cbn [EntHTree dot_ent]. rewrite <-Ht2.
  assert (Hd2 : dirs s2 (Data t) mode kids) by (by eapply dirs_keeps).
  eapply wp_mono; [by eapply walk_loop_spec|..]; cbn beta.
  - intros e s3 (n & ? & ? & ? & ?). split; [by transitivity s2|eauto].
  - intros e _ [?|?]; auto.
Qed.

Lemma Insert_spec path name s h mode kids ent n kids' :
  dirs s h mode kids → Forall good_name (path ++ [name]) → ent_repr s (set_EntName name ent) n →
  t_insert fuel kids path name n = Some kids' →
  wp (Insert sz fuel h (abs_path (path ++ [name])) ent) (changed s mode kids')
     (λ e _, get_fails e ∨ put_fails e) s.
Proof.
  intros Hd Hg Hrep Hup. pose proof Hg as [Hg1 (_ & Hdot & _)%Forall_singleton]%Forall_app.
  unfold Insert. rewrite rooted_abs. rewrite bool_decide_eq_false_2 by (by apply last_abs).
  rewrite Dir_abs, Base_abs by done. wp_step. eapply wp_lift_ok; [by apply path_elems_abs|].
  by eapply insert_spec.
Qed.

Lemma Remove_names path name h :
  Forall good_name (path ++ [name]) →
  Remove sz fuel h (abs_path (path ++ [name])) = remove sz fuel h (path ++ [name]).
Proof.
  intros Hg. unfold Remove. rewrite rooted_abs, Clean_abs by done. rewrite decide_False.
  2: { intros Heq. apply (f_equal Split) in Heq.
       rewrite Split_abs, decide_False in Heq by (done || by destruct path).
       change (Split [slash]) with [[]; @nil byte] in Heq. injection Heq as Heq.
       assert (Hgn : Forall good_name [[]]) by congruence. by apply Forall_singleton in Hgn as [? _]. }
  pose proof (path_elems_abs _ Hg) as Hp. unfold path_elems in Hp. rewrite Clean_abs in Hp by done.
  destruct (slice (Split _) 1 _) as [els|e| |]; try done. unfold mbind, outcome_bind in Hp.
  unfold lift, mbind, M_bind. by rewrite Hp.
Qed.

Lemma Remove_spec path name s h mode kids kids' :
  dirs s h mode kids → Forall good_name (path ++ [name]) → t_remove kids path name = Some kids' →
  wp (Remove sz fuel h (abs_path (path ++ [name]))) (changed s mode kids')
     (λ e _, get_fails e ∨ put_fails e) s.
Proof.
  intros Hd Hg Hup. pose proof Hg as [Hg1 _]%Forall_app. rewrite Remove_names by done.
  by eapply remove_spec.
Qed.

(** The abstract operations are those of a finite map. *)
Lemma t_insert_lookup cap path kids name n kids' :
  t_insert cap kids path name n = Some kids' → t_lookup kids' (path ++ [name]) = Some n.
Proof.
  unfold t_insert. revert kids kids'. induction path as [|p path IH]; intros kids kids' Hup; simpl in *.
  - unfold add_kid in Hup. destruct (decide _); simplify_eq. apply lookup_insert_eq.
  - destruct (kids !! p) as [[|m dm ks]|]; try done. apply bind_Some in Hup as (ks' & Hup & ?).
    simplify_eq. rewrite lookup_insert_eq. rewrite (IH ks ks' Hup). by destruct (path ++ [name]) eqn:?; [destruct path|].
Qed.
(** Paths that neither lead to [p] nor go through it. *)
Definition unrelated (p q : list bytes) : Prop := ¬ p `prefix_of` q ∧ ¬ q `prefix_of` p.

Lemma t_update_frame f name path q kids kids' :
  (∀ k k' x, f k = Some k' → x ≠ name → k' !! x = k !! x) →
  t_update f kids path = Some kids' → unrelated (path ++ [name]) q → t_lookup kids' q = t_lookup kids q.
Proof.
  intros Hf. revert kids kids' q. induction path as [|p path IH]; intros kids kids' q Hup [Hpq Hqp];
    (destruct q as [|x q]; [exfalso; apply Hqp, prefix_nil|]).
  - simpl in *. assert (Hx : kids' !! x = kids !! x).
    { apply (Hf _ _ _ Hup). intros ->. apply Hpq. apply prefix_cons, prefix_nil. }
    destruct q; cbn [t_lookup]; by rewrite Hx.
  - cbn [t_update] in Hup. destruct (kids !! p) as [[|m dm ks]|] eqn:Hp; try done.
    apply bind_Some in Hup as (ks' & Hup & ?). simplify_eq.
    destruct (decide (x = p)) as [->|Hne].
    2: { destruct q; cbn [t_lookup]; by rewrite lookup_insert_ne. }
    assert (Hu : unrelated (path ++ [name]) q).
    { split; intros Hpre; [apply Hpq|apply Hqp]; by apply prefix_cons. }
    destruct q as [|y q]; [exfalso; apply Hu, prefix_nil|]. cbn [t_lookup].
    rewrite lookup_insert_eq, Hp. by apply (IH ks ks' (y :: q)).
Qed.

Lemma add_kid_frame cap name n k k' x : add_kid cap name n k = Some k' → x ≠ name → k' !! x = k !! x.
Proof. unfold add_kid. destruct (decide _); intros; simplify_eq. by rewrite lookup_insert_ne by congruence. Qed.

Lemma ent_repr_rename s e n name :
  (Z.of_nat (length name) ≤ 65535)%Z → ent_repr s e n → ent_repr s (set_EntName name e) n.
Proof.
  intros Hl [(? & ? & ? & ? & ? & ?) Hn]. split; [split_and!; simpl; (done || lia)|exact Hn].
Qed.

(** [Walk] implements lookup: for a path of proper names it returns the
    entry of the file or directory the tree has there, its content included, and
    reports an error only when the tree has none or the store fails. *)
Theorem fs_walk_refines path s h mode kids :
  dirs s h mode kids → Forall good_name path →
  wp (Walk sz fuel h (abs_path path))
    (λ e s', keeps s s' ∧
       if decide (path = []) then ∃ t, Data t = h ∧ e = dot_ent mode t
       else ∃ n, t_lookup kids path = Some n ∧ last path = Some (EntName e) ∧ ent_repr s' e n)
    (λ e _, get_fails e ∨ path ≠ [] ∧ t_lookup kids path = None) s.
Proof. apply Walk_spec. Qed.

(** C2: [Insert] of a file and then [Walk]: at the path inserted to, [Walk] finds
    exactly the inserted entry under its new name; at every unrelated path it finds
    what was there before.  The directories on the way are rewritten, and the old
    root stays readable. *)
Theorem fs_insert_refines path name q s h mode kids ent kids' :
  dirs s h mode kids → Forall good_name (path ++ [name]) → Forall good_name q →
  IsDir ent = false → valid_ent (set_EntName name ent) →
  t_insert fuel kids path name (File (meta_of ent) (EntHTree ent)) = Some kids' →
  wp (root ← Insert sz fuel h (abs_path (path ++ [name])) ent;
      e ← Walk sz fuel (Data (EntHTree root)) (abs_path q); mret (root, e))
    (λ '(root, e) s', dirs s' (Data (EntHTree root)) mode kids' ∧ dirs s' h mode kids ∧
       (q = path ++ [name] → e = set_EntName name ent) ∧
       (unrelated (path ++ [name]) q →
        ∃ n, t_lookup kids q = Some n ∧ last q = Some (EntName e) ∧ ent_repr s' e n))
    (λ e _, get_fails e ∨ put_fails e ∨ q ≠ [] ∧ t_lookup kids' q = None) s.
Proof.
  intros Hd Hg Hq Hfile Hv Hup. wp_step.
  assert (Hrep : ent_repr s (set_EntName name ent) (File (meta_of ent) (EntHTree ent))).
  { split; [done|]. unfold IsDir in *. simpl. by rewrite Hfile. }
  eapply wp_mono; [by eapply Insert_spec|..]; cbn beta.
  2: { intros e _ [?|?]; auto. }
  intros ? s1 (t & -> & Hk & Hd1 & _). wp_step.
  eapply wp_mono; [by eapply Walk_spec|..]; cbn beta; cbn [EntHTree dot_ent].
  2: { intros e _ [?|?]; auto. }
  intros e s2 [Hk2 Hres]. wp_step. cbn [EntHTree dot_ent].
  split_and!; [by eapply dirs_keeps|eapply dirs_keeps; [|done]; by transitivity s1|..].
  - intros ->. rewrite decide_False in Hres by (by destruct path). destruct Hres as (n & Hn & Hname & _ & Hr).
    rewrite (t_insert_lookup _ _ _ _ _ _ Hup) in Hn. simplify_eq. rewrite last_snoc in Hname.
    destruct (IsDir e) eqn:He; [by destruct Hr as (? & ? & ? & _)|]. injection Hr as ? ? ? ?.
    destruct e, ent. simpl in *. unfold set_EntName. simpl. congruence.
  - intros Hu. destruct (decide (q = [])) as [->|Hne]; [exfalso; apply Hu, prefix_nil|].
    by rewrite <-(t_update_frame _ _ _ _ _ _ (add_kid_frame _ _ _) Hup Hu).
Qed.

(** [Remove] implements deletion: the new root represents the tree without
    the entry, whatever else it holds, and the old root stays readable. *)
Theorem fs_remove_refines path name s h mode kids kids' :
  dirs s h mode kids → Forall good_name (path ++ [name]) → t_remove kids path name = Some kids' →
  wp (Remove sz fuel h (abs_path (path ++ [name])))
    (λ e s', EntName e = dot ∧ EntMode e = mode ∧ dirs s' (Data (EntHTree e)) mode kids' ∧
             dirs s' h mode kids)
    (λ e _, get_fails e ∨ put_fails e) s.
Proof.
  intros Hd Hg Hup. eapply wp_mono; [by eapply Remove_spec| |done]. cbn beta.
  intros e s' (t & -> & Hk & Hd' & _). split_and!; [done|done|done|by eapply dirs_keeps].
Qed.

(** [Move] is a lookup, an insertion and a removal of the abstract tree, in
    this order, on the roots it makes. *)
Theorem fs_move_refines sp sn dp dn s h mode kids n kids1 kids2 :
  dirs s h mode kids → Forall good_name (sp ++ [sn]) → Forall good_name (dp ++ [dn]) →
  (Z.of_nat (length dn) ≤ 65535)%Z →
  t_lookup kids (sp ++ [sn]) = Some n → t_insert fuel kids dp dn n = Some kids1 →
  t_remove kids1 sp sn = Some kids2 →
  wp (Move sz fuel h (abs_path (dp ++ [dn])) (abs_path (sp ++ [sn])))
    (λ e s', dirs s' (Data (EntHTree e)) mode kids2)
    (λ e _, get_fails e ∨ put_fails e) s.
Proof.
  intros Hd Hs Hdst Hlen Hl Hi Hr. unfold Move, Copy. wp_step. wp_step.
  eapply wp_mono; [by eapply Walk_spec|..]; cbn beta.
  2: { intros e _ [?|[_ ?]]; [by left|congruence]. }
  intros e s1 [Hk Hres]. rewrite decide_False in Hres by (by destruct sp).
  destruct Hres as (n' & Hn' & _ & Hrep). rewrite Hl in Hn'. simplify_eq.
  eapply wp_mono; [eapply Insert_spec; [by eapply dirs_keeps|done|by apply ent_repr_rename|done]| |done].
  cbn beta. intros ? s2 (t & -> & Hk2 & Hd2 & _). cbn [EntHTree dot_ent].
  eapply wp_mono; [by eapply Remove_spec| |done]. cbn beta.
  by intros ? s3 (t3 & -> & _ & ? & _).
Qed.

(** removing a name from a directory that has no entries panics instead of
    reporting that there is no such file. *)
Theorem fs_remove_empty_panics s h mode name :
  dirs s h mode ∅ → good_name name → (∀ e, ¬ get_fails e) →
  ∃ s', Remove sz fuel h (abs_path [name]) s = (Panic, s').
Proof.
  intros Hd Hg Hnf. rewrite (Remove_names [] name) by (by constructor). cbn [remove app].
  assert (Hr : wp (ReadDir sz fuel h) (λ r _, ∃ e, r = [e]) (λ _ _, False) s).
  { eapply wp_mono; [by apply ReadDir_dirs| |naive_solver]. cbn beta.
    intros ? s1 (t & ents & _ & -> & _ & (_ & _ & Hdom & _) & _). eexists. f_equal.
    destruct ents as [|e ents]; [done|]. rewrite fmap_cons in Hdom. set_solver. }
  apply wp_total in Hr as (? & s' & Hrun & e & ->). exists s'.
  unfold mbind, M_bind. by rewrite Hrun.
Qed.
End Repr.
