(* ===== verification/FsFile.v ===== *)
(** Files opened for reading, the [FileReader] of fs/fs.go: what [Open], [Read],
    [Seek] and [ReadAt] deliver. *)

From Stdlib Require Import ZArith Lia.
From stdpp Require Import base list strings gmap.
From coqutil Require Import Byte.
From S2P Require Import Prelude Store Io Htree HtreeSpec HtreeWrite HtreeRead HtreeProps Fs FsProps FsTree.

Set Default Goal Selector "!".

Section File.
Context {P : Params} {Pok : ParamsOk} {St : Type} `{CStoreLaws St}.
Implicit Types (s : St) (f : FileReader (St := St)).
Hypothesis Heof : ¬ get_fails EOF.

(** [f] stands at byte [p] of content [c].  The file and the tree reader below it
    each keep an offset of their own, which lag by [skew] and by [delta]: seeks do
    not update the tree reader's. *)
Definition file_at (skew delta : Z) f (c : bytes) (p : nat) : Prop :=
  stream (some_size c) (f_rdr f) (drop p c) ∧ opens (some_size c) (f_rdr f) c ∧
  progress (some_size c) (f_rdr f) ∧ p ≤ length c ∧ (Z.of_nat (length c) < 2 ^ 63)%Z ∧
  f_offset f = u64 (Z.of_nat p - skew) ∧ r_offset (f_rdr f) = u64 (Z.of_nat p - delta).

Lemma FileRead_spec skew delta f c p n :
  file_at skew delta f c p → 1 ≤ n →
  wp (FileRead n)
    (λ b f', b ≠ [] ∧ length b ≤ n ∧ file_at skew delta f' c (p + length b) ∧
             b = take (length b) (drop p c) ∧ p + length b ≤ length c)
    (λ e f', e = EOF ∧ length c ≤ p ∨ get_fails e) f.
Proof.
  intros (Hs & Hop & Hpr & Hp & Hc & Ho & Hro) Hn. unfold FileRead. wp_step. wp_step.
  eapply wp_mono; [by eapply Read_spec|..]; cbn beta.
  - intros b r' (R' & HR & Hs' & Hroot & Hh & Hk & Hoff & Hlen & Hne). wp_steps.
    pose proof (f_equal length HR) as HlR. rewrite length_drop, length_app in HlR.
    assert (HR' : R' = drop (p + length b) c) by (by rewrite <-drop_drop, HR, drop_app_length).
    split_and!; [auto|done| |by rewrite HR, take_app_length|lia].
    unfold file_at. simpl. rewrite <-HR'. split_and!; try done; try lia.
    + destruct Hop as [_ Ht]. split; [apply Hs'|]. rewrite Hh, Hroot. by eapply tree_at_keeps.
    + unfold progress in *. by rewrite Hh.
    + rewrite Ho, wrap_add_l. f_equal. lia.
    + rewrite Hoff, Hro, wrap_add_l. f_equal. lia.
  - intros e r' [(-> & Hnil & _)|?]; [left|by right]. split; [done|].
    apply (f_equal length) in Hnil. rewrite length_drop in Hnil. simpl in Hnil. lia.
Qed.

Program Definition file_laws (skew delta : Z) : IoReaderLaws (FileReader (St := St)) :=
  {| at_pos := file_at skew delta; read_fails := get_fails |}.
Next Obligation. intros skew delta f c p n Hf Hn. by apply FileRead_spec. Qed.

(** Reading [n] bytes that are there. *)
Lemma file_ReadFull skew delta f c p n :
  file_at skew delta f c p → p + n ≤ length c →
  wp (ReadFull n) (λ b f', b = take n (drop p c) ∧ file_at skew delta f' c (p + n)) (λ e _, get_fails e) f.
Proof.
  intros Hf Hn. eapply wp_mono;
    [apply (ReadFull_spec (H0 := file_laws skew delta) n f c p Hf)|..]; cbn beta.
  - intros b f' (-> & _ & Hf' & _). done.
  - intros e _ [(_ & ? & _)|[?|[_ ?]]]; [lia|done|done].
Qed.

(** A seek that moves the tree reader, and one that it takes for done. *)
Lemma FileSeek_moves delta f c p off :
  file_at 0 delta f c p → off ≤ length c → u64 (Z.of_nat p - delta) ≠ Z.of_nat off →
  wp (FileSeek (Z.of_nat off) 0)
    (λ o f', o = Z.of_nat off ∧ file_at 0 (Z.of_nat off - Z.of_nat p + delta) f' c off)
    (λ e _, get_fails e) f.
Proof.
  intros (Hs & Hop & Hpr & Hp & Hc & Ho & Hro) Hoff Hne. unfold FileSeek. wp_steps.
  cbn [seek_target]. rewrite wrap_small by lia. wp_step. wp_step. wp_step.
  eapply wp_mono; [apply (Seek_moves (some_size c) _ c off); [done|by rewrite Hro|lia|lia]|..]; cbn beta.
  2: { intros e r' He. by wp_steps. }
  intros o r' (-> & Hs' & (Hroot & Hh & Hro' & Hk)). wp_steps. rewrite Nat.min_l by done.
  split; [by apply i64_small; lia|]. unfold file_at. simpl. split_and!; try done.
  - destruct Hop as [_ Ht]. split; [apply Hs'|]. rewrite Hh, Hroot. by eapply tree_at_keeps.
  - unfold progress in *. by rewrite Hh.
  - rewrite wrap_small by lia. lia.
  - rewrite Hro', Hro. f_equal. lia.
Qed.

Lemma FileSeek_ignored delta f c p off :
  file_at 0 delta f c p → off ≤ length c → u64 (Z.of_nat p - delta) = Z.of_nat off →
  wp (FileSeek (Z.of_nat off) 0)
    (λ o f', o = Z.of_nat off ∧ file_at (Z.of_nat p - Z.of_nat off) delta f' c p) (λ _ _, False) f.
Proof.
  intros (Hs & Hop & Hpr & Hp & Hc & _ & Hro) Hoff Heq. unfold FileSeek. wp_steps.
  cbn [seek_target]. rewrite wrap_small by lia. wp_step. wp_step. wp_step. unfold Seek. wp_steps.
  rewrite bool_decide_eq_true_2 by congruence. wp_steps. rewrite Hro, Heq.
  split; [by apply i64_small; lia|]. unfold file_at. simpl. split_and!; try done.
  rewrite wrap_small by lia. lia.
Qed.

Lemma ReadAt_spec delta f c p n off :
  file_at 0 delta f c p → off + n ≤ length c → p = off ∨ u64 (Z.of_nat p - delta) ≠ Z.of_nat off →
  wp (ReadAt n (Z.of_nat off))
    (λ b f', b = take n (drop off c) ∧
             file_at 0 (if decide (p = off) then delta else Z.of_nat off - Z.of_nat p + delta) f' c (off + n))
    (λ e _, get_fails e) f.
Proof.
  intros Hf Hn Hne. pose proof Hf as (_ & _ & _ & Hp & Hc & Ho & _).
  unfold ReadAt. wp_steps. rewrite Ho, !wrap_small by lia. rewrite Z.sub_0_r. 
  destruct (decide (p = off)) as [->|Hpo].
  - rewrite bool_decide_eq_false_2 by lia. wp_step. by apply file_ReadFull.
  - rewrite bool_decide_eq_true_2 by (intros ?; lia). wp_step.
    eapply wp_mono; [eapply FileSeek_moves; [done|lia|naive_solver]| |done]. cbn beta.
    intros o f' [-> Hf']. wp_step. by apply file_ReadFull.
Qed.
(** ** Opening *)
Section Open.
Variables (sz : nat → nat) (fuel : nat).
Hypothesis Hsz : ∀ i, 1 ≤ sz i.

(** The tree of a file, as a writer leaves it. *)
Definition file_content s (t : HTree) (data : bytes) : Prop :=
  tree_at (some_size data) s (Depth t) (Data t) 0 data ∧ Depth t ≤ nlevels - 2 ∧
  (data = [] → Depth t = 0) ∧ (Z.of_nat (length data) < 2 ^ 63)%Z.

Lemma file_content_keeps s s' t data : keeps s s' → file_content s t data → file_content s' t data.
Proof. intros Hk (Ht & ? & ? & ?). split_and!; try done. by eapply tree_at_keeps. Qed.

Lemma with_file_spec {A} path s h mode kids m t data (c : M FileReader A) Q E :
  dirs fuel s h mode kids → Forall good_name path → path ≠ [] →
  t_lookup kids path = Some (File m t) → file_content s t data →
  (∀ f, file_at 0 0 f data 0 → f_fsize f = m_size m →
        wp c (λ a f', Q a (r_store (f_rdr f'))) (λ e f', E e (r_store (f_rdr f'))) f) →
  (∀ e s', get_fails e → E e s') →
  wp (with_file sz fuel h (abs_path path) c) Q E s.
Proof.
  intros Hd Hg Hne Hl (Ht & Hdep & Hnil & Hlen) Hc HE. unfold with_file. wp_step.
  eapply wp_mono; [by eapply Walk_spec|..]; cbn beta.
  2: { intros e s' [?|[_ ?]]; [by apply HE|congruence]. }
  intros e s1 [Hk Hres]. rewrite decide_False in Hres by done.
  destruct Hres as (n & Hn & _ & Hrep). rewrite Hl in Hn. simplify_eq. destruct Hrep as [_ Hrep].
  destruct (IsDir e); [by destruct Hrep as (? & ? & ? & _)|]. simplify_eq.
  assert (Ht1 : tree_at (some_size data) s1 (Depth (EntHTree e)) (Data (EntHTree e)) 0 data)
    by (by eapply tree_at_keeps).
  pose proof (NewReader_spec _ s1 _ _ _ Ht1 Hdep) as Hnr. unfold wp in Hnr |- *.
  destruct (NewReader _) as [[[]|err| |] r]; try done; [|by apply HE].
  destruct Hnr as (Hs & Hroot & Hh & Ho & Hk1).
  specialize (Hc (mkFileReader 0 (EntSize e) r)). unfold wp in Hc.
  destruct (c _) as [o f']. simpl. apply Hc; [|done]. unfold file_at. simpl.
  rewrite drop_0. split_and!; try done; try lia.
  - split; [apply Hs|]. rewrite Hh, Hroot. by eapply tree_at_keeps.
  - apply progress_saved. by rewrite Hh.
Qed.

(** a file opened by its path and read at an offset gives the bytes the tree
    of the file was written with, as many as asked for. *)
Theorem fs_open_readat path s h mode kids m t data n off :
  dirs fuel s h mode kids → Forall good_name path → path ≠ [] →
  t_lookup kids path = Some (File m t) → file_content s t data → off + n ≤ length data →
  wp (with_file sz fuel h (abs_path path) (ReadAt n (Z.of_nat off)))
    (λ b _, b = take n (drop off data)) (λ e _, get_fails e) s.
Proof.
  intros Hd Hg Hne Hl Hc Hn. eapply with_file_spec; [done..| |done]. intros f Hf _.
  eapply wp_mono; [apply (ReadAt_spec _ _ _ _ n off Hf Hn)| |done]; [|by intros b f' [-> _]].
  destruct (decide (off = 0)) as [->|?]; [by left|right]. simpl. rewrite wrap_small by lia. lia.
Qed.

(** a second [ReadAt] can return the wrong bytes: after [n] bytes were read at
    [off], a read at offset [n] is answered from [off + n], because the seek of the
    tree reader compares with an offset it did not update. *)
Theorem fs_readat_stale path s h mode kids m t data n k off :
  dirs fuel s h mode kids → Forall good_name path → path ≠ [] →
  t_lookup kids path = Some (File m t) → file_content s t data →
  0 < off → off + n + k ≤ length data →
  wp (with_file sz fuel h (abs_path path) (_ ← ReadAt n (Z.of_nat off); ReadAt k (Z.of_nat n)))
    (λ b _, b = take k (drop (off + n) data)) (λ e _, get_fails e) s.
Proof.
  intros Hd Hg Hne Hl Hc Ho Hn. pose proof Hc as (_ & _ & _ & Hlen).
  eapply with_file_spec; [done..| |done]. intros f Hf _. wp_step.
  eapply wp_mono; [apply (ReadAt_spec _ _ _ _ n off Hf); [lia|]| |done].
  { right. simpl. rewrite wrap_small by lia. lia. }
  cbn beta. intros _ f1 [_ Hf1]. rewrite decide_False in Hf1 by lia.
  unfold ReadAt. wp_steps. pose proof Hf1 as (_ & _ & _ & Hp & _ & Hof & _).
  rewrite Hof, !wrap_small by lia. rewrite bool_decide_eq_true_2 by lia. wp_step.
  eapply wp_mono; [apply (FileSeek_ignored _ _ _ _ n Hf1); [lia|rewrite wrap_small; lia]| |done].
  cbn beta. intros o f2 [-> Hf2]. wp_step.
  eapply wp_mono; [by eapply file_ReadFull| |done]. by intros b f3 [-> _].
Qed.
End Open.
End File.
