(* ===== verification/FsDemo.v ===== *)
(** A concrete file system: one file in a root directory, over the in-memory store
    with short tree nodes.  The theorems of FsProps, FsTree and FsFile apply to it. *)

From Stdlib Require Import ZArith Lia Sorted.
From stdpp Require Import base list strings gmap sorting.
From coqutil Require Import Byte.
From S2P Require Import Prelude Store Io Htree HtreeSpec HtreeWrite HtreeRead HtreeProps.
From S2P Require Import Fs FsProps FsTree FsFile.

Set Default Goal Selector "!".

Module FsDemo.
Definition params : Params := {| nlevels := 4; maxlen := 501 |}.
#[local] Existing Instance params.
Lemma fs_params_ok : ParamsOk (P := params).
Proof. split; simpl; lia. Qed.

Definition store : CStore MemStore.MemStore := Checked.checked_cstore Demo.toy_hash.
Definition laws : @CStoreLaws _ store := Checked.checked_laws Demo.toy_hash Demo.toy_hash_len.
#[local] Existing Instances fs_params_ok store laws.

Definition sz : nat → nat := λ _, 64.
Definition fuel : nat := 1000.
Lemma sz_pos : ∀ i, 1 ≤ sz i.
Proof. intros. unfold sz. lia. Qed.
Lemma fuel_capacity : fuel ≤ max_stream.
Proof. apply Nat.leb_le. by vm_compute. Qed.
Lemma no_eof : ¬ get_fails (H := store) EOF.
Proof. intros []. Qed.

(** What a call that succeeds returns, and the store after it. *)
Definition step {A} (c : M MemStore.MemStore A) (d : A) (s : MemStore.MemStore) : A * MemStore.MemStore :=
  match c s with (Ok a, s') => (a, s') | (_, s') => (d, s') end.
Definition succeeds {A} (c : M MemStore.MemStore A) (s : MemStore.MemStore) : bool :=
  match c s with (Ok _, _) => true | _ => false end.

Lemma step_ok {A} (c : M MemStore.MemStore A) d s Q E :
  wp c Q E s → succeeds c s = true → Q (step c d s).1 (step c d s).2.
Proof. unfold wp, succeeds, step. by destruct (c s) as [[] ?]. Qed.

Definition s0 : MemStore.MemStore := MemStore.NewMemStore.

(** The content of the file, then the root directory with the file in it. *)
Definition data : bytes := str "the quick brown fox jumps over the lazy dog".
Definition t1 : HTree := (step (save [data]) (mkHTree 0 []) s0).1.
Definition s1 : MemStore.MemStore := (step (save [data]) (mkHTree 0 []) s0).2.

Definition name : bytes := str "fox".
Definition file : DirEnt := mkDirEnt name 43 1467331200 0x1a4 t1.
Definition mode : Z := 0x800001ed.
Definition root : DirEnt := (step (WriteDir [file] mode) zero_dirent s1).1.
Definition s2 : MemStore.MemStore := (step (WriteDir [file] mode) zero_dirent s1).2.
Definition kids : kidmap := {[ name := File (meta_of file) t1 ]}.

Lemma data_stored : file_content s1 t1 data.
Proof.
  assert (Hlt : length (concat [data]) < max_stream)
    by (apply (Nat.lt_le_trans _ fuel); [by apply Nat.ltb_lt|apply fuel_capacity]).
  destruct (step_ok _ (mkHTree 0 []) _ _ _ (save_spec [data] s0 Hlt)) as (Ht & Hd & _ & _);
    [by vm_compute|].
  unfold t1, s1. split_and!; [exact Ht|exact Hd|done|by vm_compute].
Qed.

Lemma file_valid : valid_ent file.
Proof. split_and!; vm_compute; (congruence || lia || done). Qed.

Lemma file_lists : lists fuel s1 [file] kids.
Proof.
  split_and!.
  - apply NoDup_singleton.
  - by apply (bool_decide_unpack _).
  - unfold kids. rewrite dom_singleton_L. simpl. set_solver.
  - intros e ->%list_elem_of_singleton. exists (File (meta_of file) t1).
    split; [apply lookup_singleton_eq|]. split; [apply file_valid|done].
Qed.

Lemma root_written :
  keeps s1 s2 ∧ dirs fuel s2 (Data (EntHTree root)) mode kids.
Proof.
  assert (Hsize : map_size kids < fuel)
    by (rewrite (lists_size _ _ _ _ file_lists); by apply Nat.ltb_lt).
  pose proof fuel_capacity.
  destruct (step_ok (WriteDir [file] mode) zero_dirent s1 _ _
    (WriteDir_lists sz fuel sz_pos no_eof s1 [file] kids mode file_lists ltac:(by vm_compute) eq_refl Hsize ltac:(lia)))
    as (t & Ht & Hk & Hd & _); [by vm_compute|].
  unfold root, s2. rewrite Ht. split; [exact Hk|exact Hd].
Qed.

Definition empty : DirEnt := (step (WriteDir [] mode) zero_dirent s0).1.
Definition s3 : MemStore.MemStore := (step (WriteDir [] mode) zero_dirent s0).2.

Lemma empty_written : dirs fuel s3 (Data (EntHTree empty)) mode ∅.
Proof.
  assert (Hl : lists fuel s0 [] ∅) by (split_and!; [constructor|set_solver|set_solver|set_solver]).
  assert (Hsize : map_size ∅ < fuel) by (rewrite (lists_size _ _ _ _ Hl); by apply Nat.ltb_lt).
  pose proof fuel_capacity.
  destruct (step_ok (WriteDir [] mode) zero_dirent s0 _ _
    (WriteDir_lists sz fuel sz_pos no_eof s0 [] ∅ mode Hl ltac:(by vm_compute) eq_refl Hsize ltac:(lia)))
    as (t & Ht & _ & Hd & _); [by vm_compute|].
  unfold empty, s3. rewrite Ht. exact Hd.
Qed.

Lemma good_name_fox : good_name name.
Proof. split_and!; by apply (bool_decide_unpack _). Qed.
Definition other : bytes := str "dog".
Lemma good_name_dog : good_name other.
Proof. split_and!; by apply (bool_decide_unpack _). Qed.

(** The program runs: the entry is found, and the file gives its bytes. *)
Example walk_runs : (Walk sz fuel (Data (EntHTree root)) (str "//fox/.") s2).1 = Ok file.
Proof. by vm_compute. Qed.
Example read_runs :
  (with_file sz fuel (Data (EntHTree root)) (str "fox") (ReadAt 5 4) s2).1 = Ok (str "quick").
Proof. by vm_compute. Qed.

(** A folder, and a directory that needs several tree nodes. *)
Definition folder : DirEnt := mkDirEnt name 0 0 mode (EntHTree empty).
Definition early : DirEnt := mkDirEnt (str "ant") 43 0 0x1a4 t1.

Lemma folder_valid : valid_ent folder.
Proof. split_and!; vm_compute; (congruence || lia || done). Qed.
Lemma early_valid : valid_ent early.
Proof. split_and!; vm_compute; (congruence || lia || done). Qed.

Lemma fs_dir_roundtrip_witness :
  wp (e ← WriteDir [file; folder; early] 0x1ed; ents ← ReadDir sz fuel (Data (EntHTree e)); mret (e, ents))
    (λ '(e, ents) _, ents = e :: Sort [file; folder; early] ∧ EntName e = dot ∧
                     EntMode e = Z.lor 0x1ed ModeDir ∧ StronglySorted ent_le (Sort [file; folder; early]) ∧
                     Sort [file; folder; early] ≡ₚ [file; folder; early] ∧ distinct [file; folder; early])
    (λ e _, put_fails e ∨ get_fails e ∨ ¬ NoDup (EntName <$> [file; folder; early]) ∨
            dot ∈ (EntName <$> [file; folder; early]) ∨
            ∃ x, x ∈ [file; folder; early] ∧ (65535 < Z.of_nat (length (EntName x)))%Z) s0.
Proof.
  apply (fs_dir_roundtrip sz fuel sz_pos no_eof s0 [file; folder; early] 0x1ed); [|by vm_compute|..].
  - apply Forall_cons_2; [left; apply file_valid|]. apply Forall_cons_2; [left; apply folder_valid|].
    apply Forall_singleton. left. apply early_valid.
  - by apply Nat.ltb_lt.
  - eapply Nat.lt_le_trans; [|apply fuel_capacity]. by apply Nat.ltb_lt.
Defined.

Lemma fs_duplicate_accepted_witness :
  wp (e ← WriteDir [folder; early; file] 0x1ed; ReadDir sz fuel (Data (EntHTree e)))
    (λ ents _, tail ents = [folder; early; file]) (λ e _, put_fails e ∨ get_fails e) s0.
Proof.
  apply (fs_duplicate_accepted sz fuel sz_pos no_eof s0 folder early file 0x1ed);
    [|by vm_compute| | |by vm_compute|by vm_compute|by vm_compute|by vm_compute|by vm_compute|..].
  - apply Forall_cons_2; [apply folder_valid|]. apply Forall_cons_2; [apply early_valid|].
    apply Forall_singleton. apply file_valid.
  - by apply Nat.ltb_lt.
  - eapply Nat.lt_le_trans; [|apply fuel_capacity]. by apply Nat.ltb_lt.
  - by apply (bool_decide_unpack _).
  - by apply (bool_decide_unpack _).
Defined.

Lemma fs_walk_refines_witness :
  wp (Walk sz fuel (Data (EntHTree root)) (abs_path [name]))
    (λ e s', keeps s2 s' ∧
       if decide ([name] = []) then ∃ t, Data t = Data (EntHTree root) ∧ e = dot_ent mode t
       else ∃ n, t_lookup kids [name] = Some n ∧ last [name] = Some (EntName e) ∧ ent_repr fuel s' e n)
    (λ e _, get_fails e ∨ [name] ≠ [] ∧ t_lookup kids [name] = None) s2.
Proof.
  apply (fs_walk_refines sz fuel sz_pos no_eof [name] s2 (Data (EntHTree root)) mode kids).
  - apply root_written.
  - constructor; [apply good_name_fox|constructor].
Defined.

Lemma fs_insert_refines_witness :
  wp (r ← Insert sz fuel (Data (EntHTree root)) (abs_path ([] ++ [other])) early;
      e ← Walk sz fuel (Data (EntHTree r)) (abs_path [name]); mret (r, e))
    (λ '(r, e) s', dirs fuel s' (Data (EntHTree r)) mode (<[other := File (meta_of early) t1]> kids) ∧
       dirs fuel s' (Data (EntHTree root)) mode kids ∧
       ([name] = [] ++ [other] → e = set_EntName other early) ∧
       (unrelated ([] ++ [other]) [name] →
        ∃ n, t_lookup kids [name] = Some n ∧ last [name] = Some (EntName e) ∧ ent_repr fuel s' e n))
    (λ e _, get_fails e ∨ put_fails e ∨
            [name] ≠ [] ∧ t_lookup (<[other := File (meta_of early) t1]> kids) [name] = None) s2.
Proof.
  apply (fs_insert_refines sz fuel sz_pos no_eof fuel_capacity [] other [name] s2 (Data (EntHTree root))
    mode kids early (<[other := File (meta_of early) t1]> kids)).
  - apply root_written.
  - constructor; [apply good_name_dog|constructor].
  - constructor; [apply good_name_fox|constructor].
  - by vm_compute.
  - split_and!; vm_compute; (congruence || lia || done).
  - unfold t_insert. cbn [t_update]. unfold add_kid. rewrite decide_True; [done|].
    split; [by apply lookup_singleton_ne; apply (bool_decide_unpack _)|].
    rewrite (lists_size _ _ _ _ file_lists). by apply Nat.ltb_lt.
Defined.

Lemma fs_remove_refines_witness :
  wp (Remove sz fuel (Data (EntHTree root)) (abs_path ([] ++ [name])))
    (λ e s', EntName e = dot ∧ EntMode e = mode ∧
             dirs fuel s' (Data (EntHTree e)) mode (delete name kids) ∧
             dirs fuel s' (Data (EntHTree root)) mode kids)
    (λ e _, get_fails e ∨ put_fails e) s2.
Proof.
  apply (fs_remove_refines sz fuel sz_pos no_eof fuel_capacity [] name s2 (Data (EntHTree root)) mode kids).
  - apply root_written.
  - constructor; [apply good_name_fox|constructor].
  - unfold t_remove. cbn [t_update]. unfold del_kid. rewrite decide_True; [done|].
    unfold kids. rewrite lookup_singleton_eq. eauto.
Defined.

Lemma fs_move_refines_witness :
  wp (Move sz fuel (Data (EntHTree root)) (abs_path ([] ++ [other])) (abs_path ([] ++ [name])))
    (λ e s', dirs fuel s' (Data (EntHTree e)) mode
               (delete name (<[other := File (meta_of file) t1]> kids)))
    (λ e _, get_fails e ∨ put_fails e) s2.
Proof.
  apply (fs_move_refines sz fuel sz_pos no_eof fuel_capacity [] name [] other s2 (Data (EntHTree root))
    mode kids (File (meta_of file) t1) (<[other := File (meta_of file) t1]> kids)).
  - apply root_written.
  - constructor; [apply good_name_fox|constructor].
  - constructor; [apply good_name_dog|constructor].
  - by vm_compute.
  - apply lookup_singleton_eq.
  - unfold t_insert. cbn [t_update]. unfold add_kid. rewrite decide_True; [done|].
    split; [by apply lookup_singleton_ne; apply (bool_decide_unpack _)|].
    rewrite (lists_size _ _ _ _ file_lists). by apply Nat.ltb_lt.
  - unfold t_remove. cbn [t_update]. unfold del_kid. rewrite decide_True; [done|].
    rewrite lookup_insert_ne by (by apply (bool_decide_unpack _)).
    unfold kids. rewrite lookup_singleton_eq. eauto.
Defined.

Lemma fs_remove_empty_panics_witness :
  ∃ s', Remove sz fuel (Data (EntHTree empty)) (abs_path [name]) s3 = (Panic, s').
Proof.
  apply (fs_remove_empty_panics sz fuel sz_pos no_eof fuel_capacity s3 (Data (EntHTree empty)) mode name).
  - apply empty_written.
  - apply good_name_fox.
  - intros e [].
Defined.

Lemma data_kept : file_content s2 t1 data.
Proof.
  destruct data_stored as (Ht & Hd & Hn & Hl). split; [|split; [exact Hd|split; [exact Hn|exact Hl]]].
  eapply tree_at_keeps; [apply root_written|exact Ht].
Qed.

Lemma fs_open_readat_witness :
  wp (with_file sz fuel (Data (EntHTree root)) (abs_path [name]) (ReadAt 5 (Z.of_nat 4)))
    (λ b _, b = take 5 (drop 4 data)) (λ e _, get_fails e) s2.
Proof.
  apply (fs_open_readat no_eof sz fuel sz_pos [name] s2 (Data (EntHTree root)) mode kids
    (meta_of file) t1 data 5 4).
  - apply root_written.
  - constructor; [apply good_name_fox|constructor].
  - done.
  - apply lookup_singleton_eq.
  - apply data_kept.
  - by apply Nat.leb_le.
Defined.

(** Reads five bytes at 4, then three at 5, and gets those at 9. *)
Lemma fs_readat_stale_witness :
  wp (with_file sz fuel (Data (EntHTree root)) (abs_path [name])
       (_ ← ReadAt 5 (Z.of_nat 4); ReadAt 3 (Z.of_nat 5)))
    (λ b _, b = take 3 (drop (4 + 5) data)) (λ e _, get_fails e) s2.
Proof.
  apply (fs_readat_stale no_eof sz fuel sz_pos [name] s2 (Data (EntHTree root)) mode kids
    (meta_of file) t1 data 5 3 4).
  - apply root_written.
  - constructor; [apply good_name_fox|constructor].
  - done.
  - apply lookup_singleton_eq.
  - apply data_kept.
  - lia.
  - by apply Nat.leb_le.
Defined.
End FsDemo.
