(* ===== verification/Refs.v ===== *)
(** References to roots, refs/ref.go.

    A [Ref] names a root directory and, unless it is the first, the reference
    before it; it is stored as the content of a hash tree.  The chain of previous
    references is the history that [GetAtTime] and [GetNVersionsAgo] walk. *)

From Stdlib Require Import ZArith Lia.
From stdpp Require Import base list strings.
From coqutil Require Import Byte.
From S2P Require Import Prelude Store Htree HtreeSpec HtreeWrite HtreeRead HtreeProps.

Set Default Goal Selector "!".

Definition ErrInvalidRef : error := ENew "invalid ref".

Record Ref := mkRef {
  CreatedAt : Z;
  Root : hash;
  HasPrev : bool;
  Prev : hash;
}.

Definition no_hash : hash := replicate hash_len b0.
Definition zero_ref : Ref := mkRef 0 no_hash false no_hash.

Section Refs.
Context {P : Params} {St : Type} `{CStore St}.
Variables (sz : nat → nat) (fuel : nat).

(** What the bytes of a reference say. *)
Definition parse_ref (data : bytes) : outcome Ref :=
  '(t, data) ← cut data 8;
  let createdAt := i64 (get_le t) in
  if bool_decide (length data = 32) then Ok (mkRef createdAt data false no_hash)
  else if bool_decide (length data = 64) then
    root ← slice data 0 32; prev ← slice data 32 64;
    Ok (mkRef createdAt root true prev)
  else Err ErrInvalidRef.

(** A tree that cannot be read gives the zero reference and no error. *)
Definition GetRef (h : hash) : M St Ref :=
  o ← try (with_reader h (ReadAll_from sz fuel 0));
  match o with
  | inl data => lift (parse_ref data)
  | inr _ => mret zero_ref
  end.

Definition put_body (ref : Ref) : M (Writer St) hash :=
  Write (put_le 8 (CreatedAt ref));;
  Write (Root ref);;
  (if HasPrev ref then
     o ← try (Write (Prev ref));
     match o with
     | inl _ => mret ()
     | inr e => try CloseWriter;; throw e
     end
   else mret ());;
  tree ← CloseWriter;
  mret (Data tree).

(** The writer is closed once more on the way out. *)
Definition PutRef (ref : Ref) : M St hash :=
  with_writer (deferred (put_body ref) CloseWriter).

(** [depth] bounds the number of references followed. *)
Fixpoint GetAtTime (depth : nat) (ref : Ref) (atUnix : Z) : M St (Ref * bool) :=
  match depth with
  | O => diverge
  | S depth =>
    if bool_decide (CreatedAt ref ≤ atUnix)%Z then mret (ref, true)
    else if HasPrev ref then
      prevRef ← GetRef (Prev ref);
      GetAtTime depth prevRef atUnix
    else mret (zero_ref, false)
  end.

Fixpoint GetNVersionsAgo (ref : Ref) (n : nat) : M St Ref :=
  match n with
  | O => mret ref
  | S n =>
    if HasPrev ref then
      nextRef ← GetRef (Prev ref);
      GetNVersionsAgo nextRef n
    else mret ref
  end.
End Refs.

(** ** Stored references *)

Definition encode_ref (r : Ref) : bytes :=
  put_le 8 (CreatedAt r) ++ Root r ++ (if HasPrev r then Prev r else []).

(** A reference without predecessor has no [Prev] to lose. *)
Definition valid_ref (r : Ref) : Prop :=
  (- 2 ^ 63 ≤ CreatedAt r < 2 ^ 63)%Z ∧ length (Root r) = hash_len ∧
  length (Prev r) = hash_len ∧ (HasPrev r = false → Prev r = no_hash).

Lemma length_encode_ref r :
  valid_ref r → length (encode_ref r) = if HasPrev r then 72 else 40.
Proof.
  intros (_ & Hr & Hp & _). unfold encode_ref, hash_len in *.
  rewrite !length_app, length_put_le, Hr. destruct (HasPrev r); [lia|done].
Qed.

Lemma parse_encode_ref r : valid_ref r → parse_ref (encode_ref r) = Ok r.
Proof.
  intros (Ht & Hr & Hp & Hn). unfold parse_ref, encode_ref. cut_step.
  rewrite get_put_le. change (8 * Z.of_nat 8)%Z with 64%Z. rewrite i64_u64 by lia.
  unfold hash_len in *. destruct r as [t root [] prev]; simpl in *.
  - rewrite bool_decide_eq_false_2, bool_decide_eq_true_2 by (rewrite length_app; lia).
    rewrite !slice_ok by (rewrite ?length_app; lia). cbn beta iota delta [mbind outcome_bind].
    rewrite drop_0, take_app_length', drop_app_length' by lia. by rewrite take_ge by lia.
  - rewrite app_nil_r, bool_decide_eq_true_2 by done. by rewrite (Hn eq_refl).
Qed.

Section Stored.
Context {P : Params} {Pok : ParamsOk} {St : Type} `{CStoreLaws St}.
Implicit Types (s : St).

(** [ref_at s h r]: [h] names reference [r] in the store. *)
Definition ref_at s (h : hash) (r : Ref) : Prop :=
  valid_ref r ∧ ∃ lvl, lvl ≤ nlevels - 2 ∧
    tree_at (some_size (encode_ref r)) s lvl h 0 (encode_ref r).

Lemma ref_at_keeps s s' h r : keeps s s' → ref_at s h r → ref_at s' h r.
Proof. intros Hk (Hv & lvl & ? & ?). split; [done|]. eauto using tree_at_keeps. Qed.

(** *** Storing *)

Lemma length_nonzero (l : bytes) : length l ≠ 0 → l ≠ [].
Proof. by intros Hl ->. Qed.

(** Closing a writer that holds one leaf: it works, or can be tried again. *)
Lemma Close_leaf_again (w : Writer St) d :
  leaf w d →
  wp CloseWriter
    (λ t w', tree_at (some_size d) (w_store w') (Depth t) (Data t) 0 d ∧ Depth t = 0 ∧
             keeps (w_store w) (w_store w') ∧ closed d w')
    (λ e w', put_fails e ∧ leaf w' d ∧ keeps (w_store w) (w_store w')) w.
Proof.
  intros Hl. eapply wp_mono;
    [apply wp_and; [by eapply Close_leaf|apply Close_closed; [by apply leaf_wrote|by apply leaf_tailed]]|..];
    cbn beta.
  - intros t w' (? & ? & ? & ? & ?). done.
  - intros e w' [(? & s' & -> & Hk) _]. split_and!; [done|by apply leaf_store|done].
Qed.

Lemma put_body_spec s r :
  valid_ref r →
  wp (put_body r)
    (λ h w, ref_at (w_store w) h r ∧ keeps s (w_store w) ∧ closed (encode_ref r) w)
    (λ e w, put_fails e ∧ leaf w (encode_ref r) ∧ keeps s (w_store w)) (NewWriter s).
Proof.
  intros Hv. pose proof Hv as (_ & Hr & Hp & _). pose proof maxlen_two_entries. pose proof nlevels_three.
  unfold hash_len in *. unfold put_body. wp_step.
  eapply wp_mono; [apply Write_leaf; [apply NewWriter_leaf|rewrite app_nil_l, length_put_le; lia|
    apply length_nonzero; by rewrite length_put_le]| |done].
  cbn beta. intros _ w1 [Hl1 Hs1]. rewrite app_nil_l in Hl1. wp_step.
  eapply wp_mono; [apply Write_leaf; [done|rewrite !length_app, length_put_le; lia|
    apply length_nonzero; by rewrite Hr]| |done]. cbn beta. intros _ w2 [Hl2 Hs2]. wp_step.
  apply (wp_mono _ (λ _ w3, leaf w3 (encode_ref r) ∧ w_store w3 = s) _ (λ _ _, False)); [|clear Hl1|done].
  - unfold encode_ref. rewrite Hs1 in Hs2. destruct (HasPrev r).
    + wp_step. wp_step. eapply wp_mono; [apply Write_leaf; [done|rewrite !length_app, length_put_le; lia|
        apply length_nonzero; by rewrite Hp]| |done]. cbn beta. intros _ w3 [Hl3 Hs3]. wp_step.
      rewrite <-app_assoc in Hl3. by rewrite Hs3.
    + wp_step. by rewrite app_nil_r.
  - cbn beta. intros [] w3 [Hl3 Hs3]. wp_step.
    eapply wp_mono; [by apply Close_leaf_again| |by rewrite <-Hs3]. cbn beta.
    intros t w4 (Ht & Hd & Hk & Hc). wp_step. rewrite Hs3 in Hk. split; [|done].
    split; [done|]. exists (Depth t). split; [lia|done].
Qed.

Lemma PutRef_spec s r :
  valid_ref r →
  wp (PutRef r) (λ h s', ref_at s' h r ∧ keeps s s') (λ e s', put_fails e ∧ keeps s s') s.
Proof.
  intros Hv. apply wp_with_writer. eapply wp_deferred; [by apply put_body_spec|..]; cbn beta.
  - intros h w (Hr & Hk & Hc). eapply wp_mono; [by eapply Close_twice|..]; cbn beta.
    + intros _ w' Hk'. split; [by eapply ref_at_keeps|by transitivity (w_store w)].
    + intros _ w' [_ Hk']. split; [by eapply ref_at_keeps|by transitivity (w_store w)].
  - intros e w (He & Hl & Hk). eapply wp_mono; [by eapply Close_leaf_again|..]; cbn beta.
    + intros t w' (_ & _ & Hk' & _). split; [done|by transitivity (w_store w)].
    + intros e' w' (_ & _ & Hk'). split; [done|by transitivity (w_store w)].
Qed.
(** *** Reading back *)
Variables (sz : nat → nat) (fuel : nat).
Hypothesis Hsz : ∀ i, 1 ≤ sz i.
Hypothesis Hfuel : 72 < fuel.
Hypothesis Heof : ¬ get_fails EOF.

Lemma GetRef_spec s h r :
  ref_at s h r →
  wp (GetRef sz fuel h)
    (λ r' s', keeps s s' ∧ (r' = r ∨ r' = zero_ref ∧ ∃ e, get_fails e)) (λ _ _, False) s.
Proof.
  intros (Hv & lvl & Hlvl & Ht). unfold GetRef. wp_step. wp_step.
  pose proof (length_encode_ref r Hv) as Hlen.
  assert (Hne : encode_ref r ≠ []) by (intros He; rewrite He in Hlen; by destruct (HasPrev r)).
  apply wp_with_reader. wp_step.
  eapply wp_mono; [by eapply NewReader_keeps|..]; cbn beta.
  2: { intros e r' [He Hk]. wp_step. eauto 6. }
  intros [] rd (Hs & _ & Hh & _ & Hk).
  eapply wp_mono; [eapply (ReadAll_keeps _ rd (encode_ref r)); [done| |done| |done]|..]; cbn beta.
  - apply progress_saved. by intros ?.
  - destruct (HasPrev r); lia.
  - intros d rd' [-> Hk']. rewrite parse_encode_ref by done. unfold wp, lift.
    split; [by transitivity (r_store rd)|by left].
  - intros e rd' [He Hk']. wp_step. split; [by transitivity (r_store rd)|]. right. eauto.
Qed.
(** *** History *)

(** [history s r rs]: [rs] is [r] and the references before it, newest first. *)
Inductive history s : Ref → list Ref → Prop :=
  | history_first r : HasPrev r = false → history s r [r]
  | history_next r r' rs :
      HasPrev r = true → ref_at s (Prev r) r' → history s r' rs → history s r (r :: rs).

Lemma history_keeps s s' r rs : keeps s s' → history s r rs → history s' r rs.
Proof. intros Hk. induction 1; eauto using history, ref_at_keeps. Qed.

Lemma history_length s r rs : history s r rs → 1 ≤ length rs.
Proof. destruct 1; simpl; lia. Qed.

(** The newest reference not created after [at]. *)
Definition as_of (atUnix : Z) (rs : list Ref) : option Ref :=
  head (filter (λ r, CreatedAt r ≤ atUnix)%Z rs).

(** a reference stored with [PutRef] is read back by [GetRef], unless the store
    fails: then [PutRef] reports it, and [GetRef] returns the zero reference. *)
Theorem refs_roundtrip s r :
  valid_ref r →
  wp (h ← PutRef r; GetRef sz fuel h)
    (λ r' _, r' = r ∨ r' = zero_ref ∧ ∃ e, get_fails e) (λ e _, put_fails e) s.
Proof.
  intros Hv. wp_step. eapply wp_mono; [by apply PutRef_spec| |by intros ? ? [? _]]. cbn beta.
  intros h s' [Hr _]. eapply wp_mono; [by apply GetRef_spec| |done]. cbn beta. naive_solver.
Qed.

(** Following one link, over a store that does not fail. *)
Lemma GetRef_link s r r' :
  ref_at s (Prev r) r' → (∀ e, ¬ get_fails e) →
  wp (GetRef sz fuel (Prev r)) (λ x s', x = r' ∧ keeps s s') (λ _ _, False) s.
Proof.
  intros Hr Hnf. eapply wp_mono; [by apply GetRef_spec| |done]. cbn beta. naive_solver.
Qed.

(** What [GetAtTime] returns of the history [rs] of [r].  A reference that the store fails to read
    is taken for an empty one of 1970, without predecessor. *)
Definition at_time (r : Ref) (rs : list Ref) (atUnix : Z) (x : Ref) (ok : bool) : Prop :=
  match as_of atUnix rs with Some y => x = y ∧ ok = true | None => x = zero_ref ∧ ok = false end ∨
  (∃ e, get_fails e) ∧ (atUnix < CreatedAt r)%Z ∧ HasPrev r = true ∧ x = zero_ref ∧ ok = bool_decide (0 ≤ atUnix)%Z.

Lemma GetAtTime_lost atUnix depth s :
  GetAtTime sz fuel (S depth) zero_ref atUnix s = (Ok (zero_ref, bool_decide (0 ≤ atUnix)%Z), s).
Proof. cbn [GetAtTime]. change (CreatedAt zero_ref) with 0%Z. by case_bool_decide. Qed.

(** The two walks, started in any store that has kept the history. *)
Lemma GetAtTime_from s r rs atUnix :
  history s r rs → ∀ s0 depth, keeps s s0 → length rs ≤ depth →
  wp (GetAtTime sz fuel depth r atUnix)
    (λ '(x, ok) s', keeps s s' ∧ at_time r rs atUnix x ok) (λ _ _, False) s0.
Proof.
  intros Hh.
  induction Hh as [r Hp|r r' rs Hp Hr Hh IH]; intros s0 [|depth] Hk Hd; simpl in Hd; try lia;
    cbn [GetAtTime]; case_bool_decide as Hle.
  - wp_step. split; [done|left]. unfold as_of. by rewrite filter_cons_True.
  - rewrite Hp. wp_step. split; [done|left]. unfold as_of. by rewrite filter_cons_False.
  - wp_step. split; [done|left]. unfold as_of. by rewrite filter_cons_True.
  - rewrite Hp. unfold at_time, as_of. rewrite filter_cons_False by done. wp_step.
    eapply wp_mono; [by eapply GetRef_spec, ref_at_keeps|..]; cbn beta; [|done].
    intros x s1 [Hk1 [->|[-> Hf]]].
    + eapply wp_mono; [apply (IH s1 depth); [by transitivity s0|lia]| |done]. cbn beta.
      intros [x ok] s2 [? [?|(? & ? & ? & ? & ?)]]; (split; [done|]); [by left|right]. split_and!; try done. lia.
    + pose proof (history_length _ _ _ Hh). destruct depth as [|depth]; [lia|]. unfold wp. rewrite GetAtTime_lost.
      split; [by transitivity s0|right]. split_and!; try done. lia.
Qed.

Lemma GetNVersionsAgo_from s r rs :
  history s r rs → (∀ e, ¬ get_fails e) → ∀ s0 n, keeps s s0 →
  wp (GetNVersionsAgo sz fuel r n)
    (λ x s', keeps s s' ∧ rs !! Nat.min n (length rs - 1) = Some x) (λ _ _, False) s0.
Proof.
  intros Hh Hnf. induction Hh as [r Hp|r r' rs Hp Hr Hh IH]; intros s0 [|n] Hk; cbn [GetNVersionsAgo];
    rewrite ?Hp; try wp_step; try done.
  eapply wp_mono; [apply (GetRef_link s0); [by eapply ref_at_keeps|done]| |done]. cbn beta.
  intros x s1 [-> Hk1]. pose proof (history_length _ _ _ Hh).
  eapply wp_mono; [apply (IH s1 n); by transitivity s0| |done]. cbn beta.
  intros x s2 [? Hx]. split; [done|]. cbn [length].
  by replace (Nat.min (S n) (S (length rs) - 1)) with (S (Nat.min n (length rs - 1))) by lia.
Qed.

(** C29: [GetAtTime] returns the newest reference of the history that is not newer
    than the given time, and no reference when all are; following at most the
    whole history, it terminates.  It reports no error: over a store that may fail it can, if
    the reference it starts from is too new, return the empty reference as well, with
    success for every time from 1970 on. *)
Theorem refs_get_at_time s r rs atUnix depth :
  history s r rs → length rs ≤ depth →
  wp (GetAtTime sz fuel depth r atUnix)
    (λ '(x, ok) s', keeps s s' ∧ at_time r rs atUnix x ok) (λ _ _, False) s.
Proof. intros Hh Hd. by apply GetAtTime_from. Qed.

(** [GetNVersionsAgo] goes [n] references back, or to the first one. *)
Theorem refs_n_versions_ago s r rs n :
  history s r rs → (∀ e, ¬ get_fails e) →
  wp (GetNVersionsAgo sz fuel r n)
    (λ x s', keeps s s' ∧ rs !! Nat.min n (length rs - 1) = Some x) (λ _ _, False) s.
Proof. intros Hh Hnf. by apply GetNVersionsAgo_from. Qed.

(** a previous reference that cannot be read is taken for an empty one of 1970:
    asked for a time before the current reference, [GetAtTime] then reports success
    and returns the zero reference. *)
Theorem refs_lost_history s s' r atUnix depth e :
  HasPrev r = true → (0 ≤ atUnix < CreatedAt r)%Z → Get (Prev r) s = (Err e, s') →
  GetAtTime sz fuel (S (S depth)) r atUnix s = (Ok (zero_ref, true), s').
Proof.
  intros Hp Hat Hget. cbn [GetAtTime]. rewrite bool_decide_eq_false_2, Hp by lia.
  assert (Hr : GetRef sz fuel (Prev r) s = (Ok zero_ref, s')).
  { unfold GetRef, with_reader, NewReader, r_get, zoom, try, mbind, M_bind, Prelude.get. simpl.
    by rewrite Hget. }
  unfold mbind, M_bind. rewrite Hr. rewrite bool_decide_eq_true_2 by (simpl; lia). done.
Qed.
End Stored.

(** ** A concrete history *)
Module RefsDemo.
#[local] Existing Instances Demo.params Demo.params_ok Demo.store Demo.laws.

Definition sz : nat → nat := λ _, 9.
Lemma refs_sz_pos : ∀ i, 1 ≤ sz i.
Proof. intros. unfold sz. lia. Qed.
Definition fuel : nat := 100.
Lemma fuel_enough : 72 < fuel.
Proof. unfold fuel. lia. Qed.

Lemma refs_no_eof : ¬ get_fails (H := Demo.store) EOF.
Proof. intros []. Qed.

Definition first : Ref := mkRef 1000 (replicate 32 Byte.x01) false no_hash.
Lemma first_valid : valid_ref first.
Proof. split_and!; try done; vm_compute; congruence. Qed.

Definition h1 : hash := match PutRef first MemStore.NewMemStore with (Ok h, _) => h | _ => [] end.
Definition s1 : MemStore.MemStore := (PutRef first MemStore.NewMemStore).2.
Definition second : Ref := mkRef 2000 (replicate 32 Byte.x02) true h1.

Lemma first_stored : ref_at s1 h1 first.
Proof.
  pose proof (PutRef_spec MemStore.NewMemStore first first_valid) as Hp.
  assert (Hok : match (PutRef first MemStore.NewMemStore).1 with Ok _ => true | _ => false end = true)
    by (by vm_compute).
  unfold wp, s1, h1 in *. destruct (PutRef first MemStore.NewMemStore) as [[h| | |] s']; try done.
  apply Hp.
Qed.

Lemma second_history : history s1 second [second; first].
Proof. eapply history_next; [done|apply first_stored|by constructor]. Qed.

Lemma refs_roundtrip_witness :
  wp (h ← PutRef first; GetRef sz fuel h)
    (λ r' _, r' = first ∨ r' = zero_ref ∧ ∃ e, get_fails e) (λ e _, put_fails e) MemStore.NewMemStore.
Proof.
  apply (refs_roundtrip sz fuel refs_sz_pos fuel_enough refs_no_eof MemStore.NewMemStore first).
  apply first_valid.
Defined.

Lemma refs_get_at_time_witness :
  wp (GetAtTime sz fuel 2 second 1500)
    (λ '(x, ok) s', keeps s1 s' ∧ at_time second [second; first] 1500 x ok) (λ _ _, False) s1.
Proof.
  apply (refs_get_at_time sz fuel refs_sz_pos fuel_enough refs_no_eof s1 second [second; first] 1500 2);
    [apply second_history|done].
Defined.

Lemma refs_n_versions_ago_witness :
  wp (GetNVersionsAgo sz fuel second 7)
    (λ x s', keeps s1 s' ∧ [second; first] !! Nat.min 7 (length [second; first] - 1) = Some x)
    (λ _ _, False) s1.
Proof.
  apply (refs_n_versions_ago sz fuel refs_sz_pos fuel_enough refs_no_eof s1 second [second; first] 7);
    [apply second_history|by intros e []].
Defined.

(** The same reference over a store that lost the first one. *)
Lemma refs_lost_history_witness :
  GetAtTime sz fuel 2 second 1500 MemStore.NewMemStore = (Ok (zero_ref, true), MemStore.NewMemStore).
Proof.
  apply (refs_lost_history sz fuel fuel_enough MemStore.NewMemStore MemStore.NewMemStore second 1500 0
    (ENew "hash not found in store")); [done|simpl; lia|by vm_compute].
Defined.
End RefsDemo.
