(* ===== verification/Lru.v ===== *)
(** The linked list of cstore/cache/cache.go.

    [lruList] is a circular doubly-linked list through a sentinel, mutated in
    place: the nodes live in a heap of records that point to each other, and the
    operations assign the pointers in the source's order.  [dll l ls] says that
    the nodes [ls], front to back, form the list; every operation is shown to
    keep it. *)

From Stdlib Require Import ZArith Lia.
From stdpp Require Import base list gmap strings.
From S2P Require Import Prelude.

Set Default Goal Selector "!".

(** ** The heap *)

Abbreviation loc := nat (only parsing).
(** [&l.root] *)
Definition root : loc := 0.

Record lruListEnt := mkLru {
  Next : option loc;
  Prev : option loc;
  Hash : bytes;
  Size : Z;
}.

(** [fresh] is the next address to allocate; a length cannot overflow, each node
    taking memory. *)
Record lruList := mkLruList {
  heap : gmap nat lruListEnt;
  Len : nat;
  fresh : loc;
}.

Definition load (p : loc) : M lruList lruListEnt :=
  l ← get; match heap l !! p with Some n => mret n | None => panic end.

(** Dereferencing [nil] panics. *)
Definition deref (o : option loc) : M lruList loc :=
  match o with Some p => mret p | None => panic end.

Definition update (p : loc) (f : lruListEnt → lruListEnt) : M lruList unit :=
  n ← load p;
  modify (λ l, mkLruList (<[p := f n]> (heap l)) (Len l) (fresh l)).

(** [p.Next = v], [p.Prev = v] *)
Definition set_Next (p : loc) (v : option loc) : M lruList unit :=
  update p (λ n, mkLru v (Prev n) (Hash n) (Size n)).
Definition set_Prev (p : loc) (v : option loc) : M lruList unit :=
  update p (λ n, mkLru (Next n) v (Hash n) (Size n)).
Definition set_Len (f : nat → nat) : M lruList unit :=
  modify (λ l, mkLruList (heap l) (f (Len l)) (fresh l)).

Definition alloc (n : lruListEnt) : M lruList loc :=
  l ← get;
  modify (λ l, mkLruList (<[fresh l := n]> (heap l)) (Len l) (S (fresh l)));;
  mret (fresh l).

(** ** Operations *)

(** The zero value has only the sentinel. *)
Definition zero_list : lruList := mkLruList {[ root := mkLru None None [] 0 ]} 0 1.

Definition Init : M lruList unit :=
  set_Next root (Some root);;
  set_Prev root (Some root);;
  set_Len (λ _, 0).

Definition Front : M lruList (option loc) :=
  l ← get;
  if bool_decide (Len l = 0) then mret None else r ← load root; mret (Next r).

Definition Back : M lruList (option loc) :=
  l ← get;
  if bool_decide (Len l = 0) then mret None else r ← load root; mret (Prev r).

(** Link the node [x] in behind the sentinel. *)
Definition link_front (x : loc) : M lruList unit :=
  r ← load root;
  let n := Next r in
  set_Next root (Some x);;
  set_Prev x (Some root);;
  set_Next x n;;
  n ← deref n; set_Prev n (Some x);;
  set_Len S.

Definition PushFront (hash : bytes) (size : Z) : M lruList loc :=
  toAdd ← alloc (mkLru None None hash size);
  link_front toAdd;;
  mret toAdd.

Definition Remove (toRemove : loc) : M lruList unit :=
  e ← load toRemove;
  n ← deref (Next e); set_Prev n (Prev e);;
  e ← load toRemove;
  p ← deref (Prev e); set_Next p (Next e);;
  set_Next toRemove None;;
  set_Prev toRemove None;;
  set_Len pred.

Definition MoveToFront (toMove : loc) : M lruList unit :=
  Remove toMove;;
  link_front toMove.

(** ** The list a heap represents *)

Definition nextp (h : gmap nat lruListEnt) (a : loc) : option loc := h !! a ≫= Next.
Definition prevp (h : gmap nat lruListEnt) (a : loc) : option loc := h !! a ≫= Prev.
(** What a node holds, apart from its links. *)
Definition payload (h : gmap nat lruListEnt) (a : loc) : option (bytes * Z) :=
  (λ n, (Hash n, Size n)) <$> h !! a.

(** [b] follows [a]. *)
Definition linked (h : gmap nat lruListEnt) (a b : loc) : Prop :=
  nextp h a = Some b ∧ prevp h b = Some a.

Fixpoint chain (h : gmap nat lruListEnt) (xs : list loc) : Prop :=
  match xs with
  | a :: (b :: _) as rest => linked h a b ∧ chain h rest
  | _ => True
  end.

Record dll (l : lruList) (ls : list loc) : Prop := mkDll {
  dll_chain : chain (heap l) (root :: ls ++ [root]);
  dll_nodup : NoDup (root :: ls);
  dll_alloc : Forall (λ p, p < fresh l) (root :: ls);
  dll_node : Forall (λ p, is_Some (heap l !! p)) (root :: ls);
  dll_Len : Len l = length ls;
}.

Lemma chain_app h xs a ys :
  chain h (xs ++ a :: ys) ↔ chain h (xs ++ [a]) ∧ chain h (a :: ys).
Proof.
  induction xs as [|x xs IH]; [simpl; destruct ys; tauto|].
  destruct xs as [|y xs]; simpl in *; [destruct ys; tauto|]. rewrite IH. tauto.
Qed.

(** A chain only depends on the forward pointers of all but its last node and on
    the backward pointers of all but its first. *)
Lemma chain_frame h h' xs :
  chain h xs →
  (∀ a, a ∈ removelast xs → nextp h' a = nextp h a) →
  (∀ a, a ∈ tail xs → prevp h' a = prevp h a) → chain h' xs.
Proof.
  induction xs as [|x xs IH]; [done|]. destruct xs as [|y xs]; [done|].
  intros [[Hn Hp] Hc] HN HP. split.
  - split; [rewrite HN; [done|]|rewrite HP; [done|]]; simpl; [|by left]. by left.
  - apply IH; [done|..].
    + intros a Ha. apply HN. simpl in *. by right.
    + intros a Ha. apply HP. simpl in *. by right.
Qed.

Lemma chain_link h xs a b ys :
  chain h (xs ++ [a]) → linked h a b → chain h (b :: ys) → chain h (xs ++ a :: b :: ys).
Proof. intros. rewrite chain_app. split; [done|]. by split. Qed.

(** ** The heap through its pointers *)

Definition with_Next (v : option loc) (n : lruListEnt) := mkLru v (Prev n) (Hash n) (Size n).
Definition with_Prev (v : option loc) (n : lruListEnt) := mkLru (Next n) v (Hash n) (Size n).

Lemma nextp_with_Next h p v a :
  is_Some (h !! p) → nextp (alter (with_Next v) p h) a = if decide (a = p) then v else nextp h a.
Proof.
  intros [n Hn]. unfold nextp. destruct (decide (a = p)) as [->|Hne].
  - by rewrite lookup_alter_eq, Hn.
  - by rewrite lookup_alter_ne.
Qed.
Lemma prevp_with_Prev h p v a :
  is_Some (h !! p) → prevp (alter (with_Prev v) p h) a = if decide (a = p) then v else prevp h a.
Proof.
  intros [n Hn]. unfold prevp. destruct (decide (a = p)) as [->|Hne].
  - by rewrite lookup_alter_eq, Hn.
  - by rewrite lookup_alter_ne.
Qed.

(** The other view is not affected. *)
Lemma prevp_with_Next h p v a : prevp (alter (with_Next v) p h) a = prevp h a.
Proof.
  unfold prevp. destruct (decide (a = p)) as [->|]; [|by rewrite lookup_alter_ne].
  rewrite lookup_alter_eq. by destruct (h !! p).
Qed.
Lemma nextp_with_Prev h p v a : nextp (alter (with_Prev v) p h) a = nextp h a.
Proof.
  unfold nextp. destruct (decide (a = p)) as [->|]; [|by rewrite lookup_alter_ne].
  rewrite lookup_alter_eq. by destruct (h !! p).
Qed.
Lemma payload_with_Next h p v a : payload (alter (with_Next v) p h) a = payload h a.
Proof.
  unfold payload. destruct (decide (a = p)) as [->|]; [|by rewrite lookup_alter_ne].
  rewrite lookup_alter_eq. by destruct (h !! p).
Qed.
Lemma payload_with_Prev h p v a : payload (alter (with_Prev v) p h) a = payload h a.
Proof.
  unfold payload. destruct (decide (a = p)) as [->|]; [|by rewrite lookup_alter_ne].
  rewrite lookup_alter_eq. by destruct (h !! p).
Qed.

Lemma payload_is_Some h a : is_Some (payload h a) ↔ is_Some (h !! a).
Proof. unfold payload. by rewrite fmap_is_Some. Qed.

Lemma alter_is_Some f (p : loc) (h : gmap nat lruListEnt) (a : loc) :
  is_Some (h !! a) → is_Some (alter f p h !! a).
Proof.
  intros. destruct (decide (a = p)) as [->|]; [|by rewrite lookup_alter_ne].
  by rewrite lookup_alter_eq, fmap_is_Some.
Qed.

(** ** Steps of the heap *)

Section Steps.
Implicit Types (l : lruList) (Q : unit → lruList → Prop).

Lemma wp_load p l n (Q : lruListEnt → lruList → Prop) E :
  heap l !! p = Some n → Q n l → wp (load p) Q E l.
Proof. intros Hp HQ. unfold load. wp_steps. by rewrite Hp. Qed.

Lemma wp_deref o p l (Q : loc → lruList → Prop) E : o = Some p → Q p l → wp (deref o) Q E l.
Proof. by intros ->. Qed.

Lemma wp_update p f l Q E :
  is_Some (heap l !! p) →
  Q () (mkLruList (alter f p (heap l)) (Len l) (fresh l)) → wp (update p f) Q E l.
Proof.
  intros [n Hn] HQ. unfold update. wp_steps. eapply wp_load; [done|]. wp_steps.
  replace (<[p:=f n]> (heap l)) with (alter f p (heap l)); [done|].
  apply map_eq. intros a. destruct (decide (a = p)) as [->|].
  - by rewrite lookup_alter_eq, Hn, lookup_insert_eq.
  - by rewrite lookup_alter_ne, lookup_insert_ne.
Qed.

Lemma wp_set_Next p v l Q E :
  is_Some (heap l !! p) →
  Q () (mkLruList (alter (with_Next v) p (heap l)) (Len l) (fresh l)) →
  wp (set_Next p v) Q E l.
Proof. apply wp_update. Qed.
Lemma wp_set_Prev p v l Q E :
  is_Some (heap l !! p) →
  Q () (mkLruList (alter (with_Prev v) p (heap l)) (Len l) (fresh l)) →
  wp (set_Prev p v) Q E l.
Proof. apply wp_update. Qed.
Lemma wp_set_Len f l Q E :
  Q () (mkLruList (heap l) (f (Len l)) (fresh l)) → wp (set_Len f) Q E l.
Proof. done. Qed.
End Steps.

Create Rewrite HintDb ptr.
#[export] Hint Rewrite prevp_with_Next nextp_with_Prev payload_with_Next payload_with_Prev : ptr.
#[export] Hint Rewrite nextp_with_Next prevp_with_Prev using (repeat apply alter_is_Some; done) : ptr.

(** Execute pointer assignments through known nodes. *)
Ltac assigns :=
  repeat lazymatch goal with
  | |- wp (_ ≫= _) _ _ _ => apply wp_bind; cbn beta
  | |- wp (set_Next _ _) _ _ _ =>
      apply wp_set_Next; [simpl; repeat apply alter_is_Some; done|]; cbn beta
  | |- wp (set_Prev _ _) _ _ _ =>
      apply wp_set_Prev; [simpl; repeat apply alter_is_Some; done|]; cbn beta
  | |- wp (set_Len _) _ _ _ => apply wp_set_Len; cbn beta
  | |- wp (mret _) _ _ _ => apply wp_ret; cbn beta
  end.

(** ** Every operation keeps the list *)

Lemma Init_spec : ∃ l, Init zero_list = (Ok (), l) ∧ dll l [].
Proof.
  eexists. split; [reflexivity|]. split; simpl.
  - by split.
  - apply NoDup_singleton.
  - repeat constructor.
  - repeat constructor. by eexists.
  - done.
Qed.

Lemma dll_next l ls : dll l ls → nextp (heap l) root = Some (hd root ls).
Proof. intros [Hc _ _ _ _]. by destruct ls as [|x ls]; simpl in Hc; destruct Hc as [[]]. Qed.

(** [last ls] is in front of the sentinel. *)
Lemma dll_prev l ls x : dll l (ls ++ [x]) → prevp (heap l) root = Some x.
Proof.
  intros [Hc _ _ _ _]. rewrite <-app_assoc in Hc.
  change (root :: ls ++ _) with ((root :: ls) ++ x :: [root]) in Hc.
  apply chain_app in Hc as [_ Hc]. simpl in Hc. by destruct Hc as [[]].
Qed.

Lemma Back_spec l ls x : dll l (ls ++ [x]) → Back l = (Ok (Some x), l).
Proof.
  intros Hd. pose proof (dll_prev _ _ _ Hd) as Hp. destruct Hd as [_ _ _ Hnode HL].
  rewrite length_app in HL. simpl in HL.
  unfold Back, get, load, mbind, M_bind. rewrite bool_decide_eq_false_2 by lia.
  apply Forall_cons in Hnode as [[n Hn] _]. unfold prevp in Hp. rewrite Hn in Hp.
  simpl in Hp. cbn -[lookup]. rewrite Hn. unfold mret, M_ret. by rewrite Hp.
Qed.

Lemma wp_Back l ls x (Q : option loc → lruList → Prop) E :
  dll l (ls ++ [x]) → Q (Some x) l → wp Back Q E l.
Proof. intros Hd HQ. unfold wp. by rewrite (Back_spec _ _ _ Hd). Qed.

Lemma link_front_spec l ls x :
  dll l ls → x ∉ root :: ls → is_Some (heap l !! x) → x < fresh l →
  wp (link_front x)
     (λ _ l', dll l' (x :: ls) ∧ fresh l' = fresh l ∧
              ∀ a, payload (heap l') a = payload (heap l) a)
     (λ _ _, False) l.
Proof.
  intros Hd Hx Hsx Hfx. pose proof (dll_next _ _ Hd) as Hn. destruct Hd as [Hc Hnd Hfr Hno HL].
  set (n := hd root ls) in *.
  assert (Hin : n ∈ root :: ls) by (destruct ls; set_solver).
  assert (Hsn : is_Some (heap l !! n)) by (rewrite Forall_forall in Hno; by apply Hno).
  assert (Hsr : is_Some (heap l !! root)) by (rewrite Forall_forall in Hno; apply Hno; set_solver).
  destruct Hsr as [r Hr]. unfold nextp in Hn. rewrite Hr in Hn. simpl in Hn.
  assert (Hsr : is_Some (heap l !! root)) by by eexists.
  unfold link_front. wp_step. eapply wp_load; [done|]. rewrite Hn. assigns.
  eapply wp_deref; [done|]. assigns. simpl. split_and!; [split; simpl| |].
  - split; [split|].
    + autorewrite with ptr. rewrite decide_False by set_solver. by rewrite decide_True.
    + autorewrite with ptr. rewrite decide_False by set_solver. by rewrite decide_True.
    + destruct (ls ++ [root]) as [|b B] eqn:HB; [by destruct ls|].
      assert (b = n) as -> by (subst n; destruct ls; simpl in *; congruence).
      split; [split|].
      * autorewrite with ptr. by rewrite decide_True.
      * autorewrite with ptr. by rewrite decide_True.
      * assert (HA : chain (heap l) (n :: B)).
        { by destruct Hc as [_ Hc]. }
        eapply chain_frame; [exact HA|..].
        -- intros a Ha. autorewrite with ptr.
           assert (a ∈ ls).
           { rewrite <-HB in Ha. by rewrite removelast_last in Ha. }
           apply NoDup_cons in Hnd as [Hr0 _].
           rewrite decide_False by set_solver. rewrite decide_False by set_solver. done.
        -- intros a Ha. simpl in Ha. autorewrite with ptr.
           assert (NoDup (n :: B)) as [Hnb _]%NoDup_cons.
           { rewrite <-HB. rewrite Permutation_app_comm. exact Hnd. }
           assert (a ∈ root :: ls).
           { assert (a ∈ ls ++ [root]) by (rewrite HB; by right). set_solver. }
           rewrite decide_False by set_solver. rewrite decide_False by set_solver. done.
  - apply NoDup_cons in Hnd as [? ?]. rewrite !NoDup_cons. set_solver.
  - apply Forall_cons in Hfr as [? ?]. by repeat constructor.
  - apply Forall_forall. intros a Ha. repeat apply alter_is_Some.
    rewrite Forall_forall in Hno. apply elem_of_cons in Ha as [->|[->|Ha]%elem_of_cons]; [done..|].
    apply Hno. by right.
  - by rewrite HL.
  - done.
  - intros a. by autorewrite with ptr.
Qed.

(** What links to a node in the middle of the list. *)
Lemma dll_middle l ls1 p ls2 :
  dll l (ls1 ++ p :: ls2) →
  ∃ A a b B,
    root :: ls1 = A ++ [a] ∧ ls2 ++ [root] = b :: B ∧
    chain (heap l) (A ++ [a]) ∧ chain (heap l) (b :: B) ∧
    linked (heap l) a p ∧ linked (heap l) p b ∧
    a ∉ ls2 ∧ a ∉ A ∧ b ∉ ls1 ∧ b ∉ B ∧ p ∉ root :: ls1 ++ ls2.
Proof.
  intros [Hc Hnd _ _ _].
  destruct (exists_last (l := root :: ls1)) as (A & a & HA); [done|].
  destruct (ls2 ++ [root]) as [|b B] eqn:HB; [by destruct ls2|].
  exists A, a, b, B. rewrite <-app_assoc in Hc.
  change (root :: ls1 ++ _) with ((root :: ls1) ++ p :: (ls2 ++ [root])) in Hc.
  rewrite HB, HA, <-app_assoc in Hc.
  apply chain_app in Hc as [Hc1 [Hap [Hpb Hc2]]].
  change (root :: ls1 ++ p :: ls2) with ((root :: ls1) ++ p :: ls2) in Hnd.
  assert (HbB : ∀ x, x ∈ b :: B ↔ x ∈ ls2 ∨ x = root) by (intros; rewrite <-HB; set_solver).
  assert (HaA : ∀ x, x ∈ A ++ [a] ↔ x = root ∨ x ∈ ls1) by (intros; rewrite <-HA; set_solver).
  apply NoDup_app in Hnd as (Hnd1 & Hdis & [Hp Hnd2]%NoDup_cons).
  assert (Hr : root ∉ ls1 ∧ root ∉ ls2).
  { split; [by apply NoDup_cons in Hnd1 as [? _]|]. intros ?. apply (Hdis root); set_solver. }
  assert (HnB : b ∉ B).
  { assert (NoDup (b :: B)) as [? _]%NoDup_cons; [|done]. rewrite <-HB.
    apply NoDup_app. split_and!; [done| |apply NoDup_singleton]. set_solver. }
  assert (HnA : a ∉ A).
  { rewrite HA in Hnd1. apply NoDup_app in Hnd1 as (_ & Hd & _). intros Ha.
    apply (Hd a Ha). by left. }
  assert (Ha : a ∈ root :: ls1) by (rewrite HA; set_solver).
  assert (Hb : b ∈ ls2 ∨ b = root) by (apply HbB; by left).
  split_and!; try done; set_solver.
Qed.

Lemma lru_Remove_spec l ls1 p ls2 :
  dll l (ls1 ++ p :: ls2) →
  wp (Remove p)
     (λ _ l', dll l' (ls1 ++ ls2) ∧ fresh l' = fresh l ∧
              ∀ a, payload (heap l') a = payload (heap l) a)
     (λ _ _, False) l.
Proof.
  intros Hd.
  destruct (dll_middle _ _ _ _ Hd)
    as (A & a & b & B & HA & HB & HcA & HcB & [Hnap Hpap] & [Hnpb Hppb] & Hn2 & HnA & Hn1 & HnB & Hpn).
  destruct Hd as [Hc Hnd Hfr Hno HL].
  assert (Hall : ∀ x, x ∈ root :: ls1 ++ ls2 ∨ x = p → is_Some (heap l !! x)).
  { intros x Hx. rewrite Forall_forall in Hno. apply Hno. set_solver. }
  assert (Ha : a ∈ root :: ls1) by (rewrite HA; set_solver).
  assert (Hb : b ∈ ls2 ++ [root]) by (rewrite HB; set_solver).
  assert (Hsa : is_Some (heap l !! a)) by (apply Hall; set_solver).
  assert (Hsb : is_Some (heap l !! b)) by (apply Hall; set_solver).
  assert (Hsp : is_Some (heap l !! p)) by (apply Hall; set_solver).
  assert (Hbp : b ≠ p) by set_solver. assert (Hap : a ≠ p) by set_solver.
  destruct Hsp as [e He]. unfold nextp in Hnpb. unfold prevp in Hpap. rewrite He in Hnpb, Hpap.
  simpl in Hnpb, Hpap. assert (Hsp : is_Some (heap l !! p)) by by eexists.
  unfold Remove. wp_step. eapply wp_load; [done|]. wp_step. eapply wp_deref; [done|].
  rewrite Hpap. assigns. eapply wp_load; [simpl; by rewrite lookup_alter_ne|]. assigns.
  eapply wp_deref; [done|]. rewrite Hnpb. assigns. split_and!; [split; cbn [heap Len fresh]| |].
  - rewrite <-app_assoc, HB. change (root :: ls1 ++ b :: B) with ((root :: ls1) ++ b :: B).
    rewrite HA, <-app_assoc. apply chain_link.
    + eapply chain_frame; [exact HcA|..]; intros x Hx; autorewrite with ptr.
      * rewrite removelast_last in Hx. assert (x ∈ root :: ls1) by (rewrite HA; set_solver).
        rewrite !decide_False by set_solver. done.
      * rewrite <-HA in Hx. simpl in Hx. rewrite !decide_False by set_solver. done.
    + split; cbn [heap]; autorewrite with ptr; (rewrite decide_False by done); by rewrite decide_True.
    + eapply chain_frame; [exact HcB|..]; intros x Hx; autorewrite with ptr.
      * rewrite <-HB, removelast_last in Hx. rewrite !decide_False by set_solver. done.
      * simpl in Hx. assert (x ∈ ls2 ++ [root]) by (rewrite HB; set_solver).
        rewrite !decide_False by set_solver. done.
  - eapply sublist_NoDup; [exact Hnd|]. apply sublist_skip, sublist_app; [done|].
    by apply sublist_cons.
  - apply Forall_forall. intros x Hx. rewrite Forall_forall in Hfr. apply Hfr. set_solver.
  - apply Forall_forall. intros x Hx. repeat apply alter_is_Some. apply Hall. by left.
  - rewrite HL, !length_app. simpl. lia.
  - done.
  - intros x. cbn [heap]. by autorewrite with ptr.
Qed.

Lemma PushFront_spec l ls hash size :
  dll l ls →
  wp (PushFront hash size)
     (λ x l', dll l' (x :: ls) ∧ x ∉ root :: ls ∧ payload (heap l') x = Some (hash, size) ∧
              ∀ a, a ∈ root :: ls → payload (heap l') a = payload (heap l) a)
     (λ _ _, False) l.
Proof.
  intros [Hc Hnd Hfr Hno HL]. unfold PushFront, alloc. wp_steps.
  set (l1 := mkLruList _ _ _).
  assert (Hne : ∀ a, a ∈ root :: ls → fresh l ≠ a).
  { intros a Ha. rewrite Forall_forall in Hfr. apply Hfr in Ha. lia. }
  assert (Hfx : fresh l ∉ root :: ls) by (intros Ha; by apply Hne in Ha).
  assert (Hd1 : dll l1 ls).
  { split; cbn [l1 heap Len fresh]; try done.
    - eapply chain_frame; [exact Hc|..]; intros a Ha; unfold nextp, prevp;
        (rewrite lookup_insert_ne; [done|]); apply Hne.
      + change (root :: ls ++ [root]) with ((root :: ls) ++ [root]) in Ha.
        by rewrite removelast_last in Ha.
      + simpl in Ha. set_solver.
    - eapply Forall_impl; [exact Hfr|]. simpl. lia.
    - apply Forall_forall. intros a Ha. rewrite lookup_insert_ne by auto.
      rewrite Forall_forall in Hno. auto. }
  eapply wp_mono; [apply (link_front_spec l1 ls (fresh l)); try done|..].
  - simpl. by rewrite lookup_insert_eq.
  - simpl. lia.
  - intros _ l' (Hd' & _ & Hpl). apply wp_ret. split_and!; [done..| |].
    + rewrite Hpl. unfold payload. simpl. by rewrite lookup_insert_eq.
    + intros a Ha. rewrite Hpl. unfold payload. simpl. rewrite lookup_insert_ne by auto. done.
  - done.
Qed.

Lemma MoveToFront_spec l ls1 p ls2 :
  dll l (ls1 ++ p :: ls2) →
  wp (MoveToFront p)
     (λ _ l', dll l' (p :: ls1 ++ ls2) ∧ ∀ a, payload (heap l') a = payload (heap l) a)
     (λ _ _, False) l.
Proof.
  intros Hd. unfold MoveToFront. wp_step.
  destruct (dll_middle _ _ _ _ Hd)
    as (_ & _ & _ & _ & _ & _ & _ & _ & _ & _ & _ & _ & _ & _ & Hp).
  assert (Hsp : is_Some (heap l !! p) ∧ p < fresh l).
  { destruct Hd as [_ _ Hfr Hno _]. rewrite Forall_forall in Hfr, Hno.
    split; [apply Hno|apply Hfr]; set_solver. }
  eapply wp_mono; [by apply lru_Remove_spec|..]; [|done]. intros _ l1 (Hd1 & Hfr & Hpl).
  eapply wp_mono; [apply (link_front_spec l1 (ls1 ++ ls2) p); try done|..]; [..|done].
  - apply payload_is_Some. rewrite Hpl. apply payload_is_Some, Hsp.
  - rewrite Hfr. apply Hsp.
  - intros _ l2 (Hd2 & _ & Hpl2). split; [done|]. intros a. by rewrite Hpl2.
Qed.
