(* ===== verification/Cache.v ===== *)
(** The block cache of cstore/cache/cache.go.

    A [Cache] keeps values in a bolt database and orders them by use in the list
    of Lru.v; writes and deletions are collected in [pendingPut] and
    [pendingDel] and applied to the database in one transaction.  The database is
    third-party code: [BoltDB] has the calls the cache makes, [BoltLaws] what
    its documentation promises of them. *)

From Stdlib Require Import ZArith Lia.
From stdpp Require Import base list gmap sets strings.
From S2P Require Import Prelude Store Lru.

Set Default Goal Selector "!".

(** ** The database

    [B] is the bucket a transaction sees, [D] the database.  [Update] runs a
    function in a transaction, committing if it succeeds and rolling back if it
    fails; [View] runs a function that only reads. *)
Class BoltDB (D B : Type) := {
  bucket_Put : bytes → bytes → M B unit;
  bucket_Delete : bytes → M B unit;
  bucket_Get : bytes → B → option bytes;
  bucket_ForEach : B → list (bytes * bytes);
  CreateBucketIfNotExists : M B unit;
  Update : ∀ {A}, M B A → M D A;
  View : ∀ {A}, (B → A) → M D A;
  db_Close : M D unit;
}.

(** A committed transaction replaces the contents, a failed one leaves them. *)
Class BoltLaws (D B : Type) `{BoltDB D B} := {
  contents : D → gmap bytes bytes;
  bcontents : B → gmap bytes bytes;
  bolt_fails : error → Prop;
  bucket_Put_law k v b :
    wp (bucket_Put k v) (λ _ b', bcontents b' = <[k := v]> (bcontents b)) (λ e _, bolt_fails e) b;
  bucket_Delete_law k b :
    wp (bucket_Delete k) (λ _ b', bcontents b' = delete k (bcontents b)) (λ e _, bolt_fails e) b;
  bucket_Get_law k b : bucket_Get k b = bcontents b !! k;
  bucket_ForEach_law b : bucket_ForEach b ≡ₚ map_to_list (bcontents b);
  CreateBucket_law b :
    wp CreateBucketIfNotExists (λ _ b', bcontents b' = bcontents b) (λ e _, bolt_fails e) b;
  Update_law {A} (f : M B A) (Q : A → gmap bytes bytes → Prop) d :
    (∀ b, bcontents b = contents d →
          wp f (λ a b', Q a (bcontents b')) (λ e _, bolt_fails e) b) →
    wp (Update f) (λ a d', Q a (contents d'))
       (λ e d', bolt_fails e ∧ contents d' = contents d) d;
  View_law {A} (f : B → A) (Q : A → Prop) d :
    (∀ b, bcontents b = contents d → Q (f b)) →
    wp (View f) (λ a d', Q a ∧ contents d' = contents d)
       (λ e d', bolt_fails e ∧ contents d' = contents d) d;
  db_Close_law d :
    wp db_Close (λ _ d', contents d' = contents d)
       (λ e d', bolt_fails e ∧ contents d' = contents d) d;
}.

Section Cache.
Context {D B : Type} `{BoltDB D B}.

(** The mutex serialises the methods, so each is one step of the state. *)
Record Cache := mkCache {
  db : D;
  size : Z;
  maxSize : Z;
  lruMap : gmap bytes loc;
  lru : lruList;
  pendingPut : gmap bytes bytes;
  pendingDel : gset bytes;
}.

Definition set_db d c := mkCache d (size c) (maxSize c) (lruMap c) (lru c) (pendingPut c) (pendingDel c).
Definition set_lru l c := mkCache (db c) (size c) (maxSize c) (lruMap c) l (pendingPut c) (pendingDel c).
Definition set_size z c := mkCache (db c) z (maxSize c) (lruMap c) (lru c) (pendingPut c) (pendingDel c).
Definition set_lruMap m c := mkCache (db c) (size c) (maxSize c) m (lru c) (pendingPut c) (pendingDel c).
Definition set_pending p q c := mkCache (db c) (size c) (maxSize c) (lruMap c) (lru c) p q.

(** Methods of [c.lruList] and of [c.db]. *)
Definition on_lru {A} : M lruList A → M Cache A := zoom lru set_lru.
Definition on_db {A} : M D A → M Cache A := zoom db set_db.

Definition val_len (v : bytes) : Z := Z.of_nat (length v).

(** [var key [32]byte; copy(key[:], k)] *)
Definition copy_key (k : bytes) : hash := splice (replicate hash_len b0) 0 k.

(** The callback of [ForEach]. *)
Definition load_entry (kv : bytes * bytes) : M Cache unit :=
  let key := copy_key kv.1 in
  e ← on_lru (PushFront key (u64 (val_len kv.2)));
  modify (λ c, set_lruMap (<[key := e]> (lruMap c)) c);;
  modify (λ c, set_size (u64 (size c + u64 (val_len kv.2))) c).

Fixpoint load_entries (kvs : list (bytes * bytes)) : M Cache unit :=
  match kvs with
  | [] => mret ()
  | kv :: kvs => load_entry kv;; load_entries kvs
  end.

(** The callback only touches the cache and [ForEach] only the bucket, so the
    bucket is listed in the transaction and the cache filled from the list. *)
Definition load_cache : M Cache unit :=
  on_lru Init;;
  kvs ← on_db (Update (CreateBucketIfNotExists;; gets bucket_ForEach));
  load_entries kvs.

(** [opened] is the result of [bolt.Open]; when the transaction fails the cache
    is dropped and its database closed. *)
Definition NewCache (opened : outcome D) (max : Z) : outcome Cache :=
  d ← opened;
  match load_cache (mkCache d 0 max ∅ zero_list ∅ ∅) with
  | (Ok _, c) => Ok c
  | (Err e, _) => Err e
  | (Panic, _) => Panic
  | (OutOfFuel, _) => OutOfFuel
  end.

(** The value, and whether it was found; a key that is in the list but not in
    the database reads as empty. *)
Definition Get (h : hash) : M Cache (bytes * bool) :=
  c ← get;
  match lruMap c !! h with
  | None => mret ([], false)
  | Some elem =>
    on_lru (MoveToFront elem);;
    match pendingPut c !! h with
    | Some ret => mret (ret, true)
    | None =>
      ret ← on_db (View (λ b, default [] (bucket_Get h b)));
      mret (ret, true)
    end
  end.

(** One round of the loop in [Put]: drop the least recently used entry. *)
Definition evict_one : M Cache unit :=
  elem ← on_lru Back;
  elem ← on_lru (deref elem);
  on_lru (Remove elem);;
  e ← on_lru (load elem);
  modify (λ c, set_size (u64 (size c - Size e)) c);;
  modify (λ c, set_lruMap (delete (Hash e) (lruMap c)) c);;
  modify (λ c, set_pending (delete (Hash e) (pendingPut c)) ({[Hash e]} ∪ pendingDel c) c).

Definition too_large : error := ENew "value too large for cache".

(** Each round shortens the list, so its length bounds the rounds. *)
Fixpoint evict (fuel : nat) (n : Z) : M Cache unit :=
  match fuel with
  | O => diverge
  | S fuel =>
    c ← get;
    if bool_decide (u64 (size c + u64 n) > maxSize c)%Z then
      if bool_decide (Len (lru c) = 0) then throw too_large
      else evict_one;; evict fuel n
    else mret ()
  end.

(** The two loops of the transaction in [flushPending]; Go visits the entries of
    a map in no particular order. *)
Fixpoint put_all (kvs : list (bytes * bytes)) : M B unit :=
  match kvs with
  | [] => mret ()
  | (k, v) :: kvs => bucket_Put k v;; put_all kvs
  end.
Fixpoint delete_all (ks : list bytes) : M B unit :=
  match ks with
  | [] => mret ()
  | k :: ks => bucket_Delete k;; delete_all ks
  end.

Definition flushPending : M Cache unit :=
  c ← get;
  on_db (Update (put_all (map_to_list (pendingPut c));; delete_all (elements (pendingDel c))));;
  modify (set_pending ∅ ∅).

Definition pending_limit : Z := 10000.

Definition Put (h : hash) (val : bytes) : M Cache unit :=
  c ← get;
  match lruMap c !! h with
  | Some _ => mret ()
  | None =>
    evict (S (Len (lru c))) (val_len val);;
    modify (λ c, set_size (u64 (size c + u64 (val_len val))) c);;
    elem ← on_lru (PushFront h (u64 (val_len val)));
    modify (λ c, set_lruMap (<[h := elem]> (lruMap c)) c);;
    modify (λ c, set_pending (<[h := val]> (pendingPut c)) (pendingDel c ∖ {[h]}) c);;
    c ← get;
    when (bool_decide (Z.of_nat (base.size (pendingDel c)) > pending_limit)%Z
          || bool_decide (Z.of_nat (base.size (pendingPut c)) > pending_limit)%Z)
         flushPending
  end.

Definition Close : M Cache unit :=
  flushPending;;
  on_db db_Close.

End Cache.
