(* ===== verification/CacheProps.v ===== *)
(** The cache keeps its promises.

    The abstract cache is the list of its entries, most recently used first;
    [rep c l] ties a [Cache] to it through the linked list, the map, the running
    size and the pending writes.  [Get] promotes an entry, [Put] keeps the most
    recently used entries that leave room for the new one, and closing and
    reopening loses nothing. *)

From Stdlib Require Import ZArith Lia.
From stdpp Require Import base list gmap sets strings.
From S2P Require Import Prelude Store Lru Cache.

Set Default Goal Selector "!".

Section CacheProps.
Context {D B : Type} `{BoltLaws D B}.
Abbreviation Cache := (Cache (D := D)).

(** ** The abstract cache

    The entries, most recently used first. *)
Abbreviation entries := (list (bytes * bytes)) (only parsing).

Definition total (l : entries) : Z := foldr (λ kv n, val_len kv.2 + n)%Z 0%Z l.

(** Move the entry of [h], if any, to the front. *)
Definition promote (h : hash) (l : entries) : entries :=
  filter (λ kv, kv.1 = h) l ++ filter (λ kv, kv.1 ≠ h) l.

(** The most recently used entries that fit in [cap] bytes. *)
Fixpoint keep (cap : Z) (l : entries) : entries :=
  match l with
  | [] => []
  | kv :: l => if bool_decide (val_len kv.2 ≤ cap)%Z then kv :: keep (cap - val_len kv.2) l else []
  end.

(** What the database would hold if the pending writes were applied now. *)
Definition flushed (c : Cache) : gmap bytes bytes :=
  filter (λ kv, kv.1 ∉ pendingDel c) (pendingPut c ∪ contents (db c)).

(** The node [p] is the entry [kv]. *)
Definition node_of (c : Cache) (p : loc) (kv : bytes * bytes) : Prop :=
  payload (heap (lru c)) p = Some (kv.1, val_len kv.2) ∧ lruMap c !! kv.1 = Some p.

(** The list and the map index the entries [l]. *)
Record index (c : Cache) (l : entries) : Prop := mkIndex {
  rep_keys : NoDup l.*1;
  rep_lru : ∃ ls, dll (lru c) ls ∧ Forall2 (node_of c) ls l;
  rep_dom : ∀ h, is_Some (lruMap c !! h) → h ∈ l.*1;
  rep_size : size c = total l;
  rep_total : (total l < 2 ^ 64)%Z;
}.

(** [c] stands for the entries [l]. *)
Record rep (c : Cache) (l : entries) : Prop := mkRep {
  rep_index :> index c l;
  rep_flushed : flushed c = list_to_map l;
}.

Lemma total_app l1 l2 : total (l1 ++ l2) = (total l1 + total l2)%Z.
Proof. induction l1 as [|kv l1 IH]; simpl; [done|]. lia. Qed.
Lemma val_len_nonneg v : (0 ≤ val_len v)%Z.
Proof. unfold val_len. lia. Qed.
Lemma total_nonneg l : (0 ≤ total l)%Z.
Proof. induction l as [|kv l IH]; simpl; [done|]. pose proof (val_len_nonneg kv.2). lia. Qed.

#[local] Instance total_perm : Proper ((≡ₚ) ==> (=)) total.
Proof. induction 1; simpl; lia. Qed.

Lemma keep_all cap l : (total l ≤ cap)%Z → keep cap l = l.
Proof.
  revert cap. induction l as [|kv l IH]; intros cap Hl; simpl in *; [done|].
  pose proof (total_nonneg l). rewrite bool_decide_eq_true_2 by lia. f_equal. apply IH. lia.
Qed.
(** Dropping the last entry of a list that does not fit changes nothing. *)
Lemma keep_snoc cap l kv : (cap < total (l ++ [kv]))%Z → keep cap (l ++ [kv]) = keep cap l.
Proof.
  revert cap. induction l as [|kv' l IH]; intros cap Hl; simpl in *.
  - by rewrite bool_decide_eq_false_2 by lia.
  - case_bool_decide; [|done]. f_equal. apply IH. lia.
Qed.
Lemma keep_neg cap l : (cap < 0)%Z → keep cap l = [].
Proof.
  intros. destruct l as [|kv l]; simpl; [done|]. pose proof (val_len_nonneg kv.2).
  by rewrite bool_decide_eq_false_2 by lia.
Qed.

Lemma promote_middle h l1 v l2 :
  NoDup (l1 ++ (h, v) :: l2).*1 → promote h (l1 ++ (h, v) :: l2) = (h, v) :: l1 ++ l2.
Proof.
  rewrite fmap_app, NoDup_app, fmap_cons, NoDup_cons. intros (_ & H1 & H2 & _).
  unfold promote.
  assert (Hl1 : Forall (λ kv, kv.1 ≠ h) l1).
  { apply Forall_forall. intros kv Hkv <-. apply (H1 kv.1); [by apply list_elem_of_fmap_2|].
    simpl. by left. }
  assert (Hl2 : Forall (λ kv, kv.1 ≠ h) l2).
  { apply Forall_forall. intros kv Hkv <-. apply H2. simpl. by apply list_elem_of_fmap_2. }
  rewrite !filter_app, !filter_cons. simpl. rewrite decide_True by done.
  rewrite (decide_False (P := h ≠ h)) by auto.
  assert (Hnil : ∀ l : entries, Forall (λ kv, kv.1 ≠ h) l → filter (λ kv, kv.1 = h) l = []).
  { intros l. induction 1 as [|kv l Hne _ IH]; [done|]. by rewrite filter_cons, decide_False. }
  assert (Hid : ∀ l : entries, Forall (λ kv, kv.1 ≠ h) l → filter (λ kv, kv.1 ≠ h) l = l).
  { intros l. induction 1 as [|kv l Hne _ IH]; [done|].
    rewrite filter_cons, decide_True by done. by rewrite IH. }
  rewrite !Hnil, !Hid by done. done.
Qed.

(** ** Get *)

Lemma rep_lookup c l h :
  rep c l →
  match lruMap c !! h with
  | None => h ∉ l.*1
  | Some p => ∃ l1 v l2 ls1 ls2,
      l = l1 ++ (h, v) :: l2 ∧ dll (lru c) (ls1 ++ p :: ls2) ∧
      Forall2 (node_of c) ls1 l1 ∧ node_of c p (h, v) ∧ Forall2 (node_of c) ls2 l2
  end.
Proof.
  intros [[Hnd (ls & Hd & Hf) Hdom _ _] _]. destruct (lruMap c !! h) as [p|] eqn:Hp.
  - assert (h ∈ l.*1) as ([h' v] & -> & Hin)%list_elem_of_fmap by (apply Hdom; by eexists). simpl in *.
    apply list_elem_of_split in Hin as (l1 & l2 & ->).
    apply Forall2_app_inv_r in Hf as (ls1 & ls2 & Hf1 & Hf2 & ->).
    apply Forall2_cons_inv_r in Hf2 as (q & ls2' & Hq & Hf2 & ->).
    pose proof (proj2 Hq) as Hq'. simpl in Hq'. rewrite Hp in Hq'. injection Hq' as <-.
    exists l1, v, l2, ls1, ls2'. done.
  - intros ([h' v] & -> & Hin)%list_elem_of_fmap. apply list_elem_of_lookup in Hin as [i Hi].
    destruct (Forall2_lookup_r _ _ _ _ _ Hf Hi) as (p & _ & _ & Hm). simpl in *. congruence.
Qed.

Lemma flushed_Some c h v :
  flushed c !! h = Some v →
  pendingPut c !! h = Some v ∨ pendingPut c !! h = None ∧ contents (db c) !! h = Some v.
Proof.
  intros Hv. apply map_lookup_filter_Some in Hv as [Hv _].
  by apply lookup_union_Some_raw in Hv.
Qed.

(** Same pending writes and same database contents. *)
Lemma flushed_eq c c' :
  pendingPut c' = pendingPut c → pendingDel c' = pendingDel c →
  contents (db c') = contents (db c) → flushed c' = flushed c.
Proof. unfold flushed. by intros -> -> ->. Qed.

Lemma flushed_evict c h :
  flushed (set_pending (delete h (pendingPut c)) ({[h]} ∪ pendingDel c) c) = delete h (flushed c).
Proof.
  apply map_eq. intros k. unfold flushed. simpl. destruct (decide (k = h)) as [->|Hne].
  - rewrite lookup_delete_eq. apply map_lookup_filter_None. right. simpl. set_solver.
  - rewrite lookup_delete_ne by done. apply option_eq. intros v.
    rewrite !map_lookup_filter_Some, !lookup_union, lookup_delete_ne by done. simpl. set_solver.
Qed.

Lemma flushed_insert c h v :
  flushed (set_pending (<[h := v]> (pendingPut c)) (pendingDel c ∖ {[h]}) c) = <[h := v]> (flushed c).
Proof.
  apply map_eq. intros k. unfold flushed. simpl. destruct (decide (k = h)) as [->|Hne].
  - rewrite lookup_insert_eq. apply map_lookup_filter_Some. simpl.
    split; [|set_solver]. apply lookup_union_Some_l, lookup_insert_eq.
  - rewrite lookup_insert_ne by done. apply option_eq. intros w.
    rewrite !map_lookup_filter_Some, !lookup_union, lookup_insert_ne by done. simpl. set_solver.
Qed.

(** The cache after its list was reordered. *)
Lemma rep_reorder c c' l l' ls' :
  rep c l → l' ≡ₚ l → dll (lru c') ls' → Forall2 (node_of c') ls' l' →
  lruMap c' = lruMap c → size c' = size c → flushed c' = flushed c → rep c' l'.
Proof.
  intros [[Hnd _ Hdom Hs Ht] Hfl] Hp Hd Hf Hm Hs' Hfl'. split; [split|].
  - by rewrite Hp.
  - by exists ls'.
  - intros h Hh. rewrite Hp. apply Hdom. by rewrite <-Hm.
  - rewrite Hs', Hs. by rewrite Hp.
  - by rewrite Hp.
  - rewrite Hfl', Hfl. symmetry. apply list_to_map_proper; [by rewrite Hp|done].
Qed.

Lemma cache_Get_spec c l h :
  rep c l →
  wp (Get h)
     (λ r c', match (list_to_map l : gmap bytes bytes) !! h with
              | Some v => r = (v, true) ∧ rep c' (promote h l) ∧ maxSize c' = maxSize c
              | None => r = ([], false) ∧ c' = c
              end)
     (λ e c', bolt_fails e ∧ rep c' (promote h l) ∧ maxSize c' = maxSize c) c.
Proof.
  intros Hrep. unfold Get, on_lru, on_db. wp_steps. pose proof (rep_lookup _ _ h Hrep) as Hl.
  destruct (lruMap c !! h) as [p|].
  - destruct Hl as (l1 & v & l2 & ls1 & ls2 & -> & Hd & Hf1 & Hh & Hf2).
    pose proof (rep_keys _ _ Hrep) as Hnd. rewrite promote_middle by done.
    assert (Hv : (list_to_map (l1 ++ (h, v) :: l2) : gmap bytes bytes) !! h = Some v).
    { apply elem_of_list_to_map_1; [done|]. set_solver. }
    rewrite Hv. pose proof Hv as Hfl. rewrite <-(rep_flushed _ _ Hrep) in Hfl.
    assert (Hc : ∀ lr d, dll lr (p :: ls1 ++ ls2) →
      (∀ a, payload (heap lr) a = payload (heap (lru c)) a) → contents d = contents (db c) →
      rep (set_db d (set_lru lr c)) ((h, v) :: l1 ++ l2)).
    { intros lr d Hdll Hpl Hdc.
      eapply rep_reorder; [exact Hrep|apply Permutation_middle|exact Hdll|..]; try done.
      - apply (Forall2_impl (node_of c)); [constructor; [done|by apply Forall2_app]|].
        intros a kv [? ?]. split; simpl; [by rewrite Hpl|done].
      - by apply flushed_eq. }
    wp_steps. eapply wp_mono; [by apply MoveToFront_spec|..]; [|done].
    intros _ lr (Hdll & Hpl). apply flushed_Some in Hfl as [Hpp|[Hpp Hdb]]; rewrite Hpp.
    + wp_steps. split_and!; [done| |done]. change (set_lru lr c) with (set_db (db c) (set_lru lr c)). auto.
    + wp_steps. eapply wp_mono; [apply (View_law _ (λ a, a = v))|..].
      * intros b Hb. rewrite bucket_Get_law, Hb. simpl. by rewrite Hdb.
      * intros a d [-> Hd']. wp_steps. split_and!; [done|apply Hc; auto|done].
      * intros e d [He Hd']. split_and!; [done|apply Hc; auto|done].
  - wp_steps. rewrite not_elem_of_list_to_map_1 by done. done.
Qed.

(** ** Put *)

Lemma Forall2_impl_in {X Y} (P Q : X → Y → Prop) l k :
  Forall2 P l k → (∀ x y, x ∈ l → y ∈ k → P x y → Q x y) → Forall2 Q l k.
Proof.
  induction 1 as [|x y l k Hxy _ IH]; intros HQ; constructor.
  - apply HQ; [by left|by left|done].
  - apply IH. intros x' y' Hx Hy. by apply HQ; right.
Qed.

Lemma evict_one_spec c l kv :
  rep c (l ++ [kv]) →
  wp evict_one (λ _ c', rep c' l ∧ maxSize c' = maxSize c) (λ _ _, False) c.
Proof.
  intros [[Hnd (ls & Hd & Hf) Hdom Hs Ht] Hfl]. destruct kv as [h v].
  apply Forall2_app_inv_r in Hf as (ls1 & ls2 & Hf1 & Hf2 & ->).
  apply Forall2_cons_inv_r in Hf2 as (p & ls2' & [Hpp Hpm] & Hf2 & ->).
  apply Forall2_nil_inv_r in Hf2 as ->. simpl in Hpp, Hpm.
  rewrite fmap_app in Hnd. simpl in Hnd. apply NoDup_app in Hnd as (Hnd & Hh & _).
  rewrite total_app in Hs, Ht. simpl in Hs, Ht.
  pose proof (total_nonneg l) as Hn. pose proof (val_len_nonneg v) as Hn'.
  unfold evict_one, on_lru. wp_steps. eapply wp_Back; [done|].
  wp_steps. eapply wp_deref; [done|]. wp_steps.
  eapply wp_mono; [by apply lru_Remove_spec|..]; [|done]. intros _ lr (Hdll & _ & Hpl).
  wp_steps. rewrite app_nil_r in Hdll. pose proof Hpp as Hpp'. rewrite <-Hpl in Hpp'.
  unfold payload in Hpp'. apply fmap_Some in Hpp' as (n & Hpn & [= -> Hn2]). simpl.
  eapply wp_load; [done|]. wp_steps. split; [|done]. split; [split|]; simpl.
  - done.
  - exists ls1. split; [done|]. apply (Forall2_impl_in _ _ _ _ Hf1).
    intros a kv _ Hin [Hpa Hma]. split; simpl; [by rewrite Hpl|].
    rewrite lookup_delete_ne; [done|]. intros Heq. apply (Hh kv.1); [|rewrite <-Heq; by left].
    by apply list_elem_of_fmap_2.
  - intros h' [q Hq]. apply lookup_delete_Some in Hq as [Hne Hq].
    assert (h' ∈ (l ++ [(Hash n, v)]).*1) as Hin by (apply Hdom; by eexists).
    rewrite fmap_app in Hin. set_solver.
  - rewrite Hs, <-Hn2. rewrite wrap_small by lia. lia.
  - lia.
  - transitivity (delete (Hash n) (flushed c)).
    { rewrite <-flushed_evict. by apply flushed_eq. }
    rewrite Hfl, list_to_map_app. simpl. rewrite insert_empty, delete_union, delete_singleton_eq, (right_id_L ∅ (∪)).
    apply delete_id. apply not_elem_of_list_to_map_1. intros Hin. by apply (Hh _ Hin); left.
Qed.

Lemma rep_Len c l : rep c l → Len (lru c) = length l.
Proof.
  intros [[_ (ls & [_ _ _ _ ->] & Hf) _ _ _] _]. by eapply Forall2_length.
Qed.

Lemma rep_size_add c l n :
  rep c l → (0 ≤ n)%Z → (total l + n < 2 ^ 64)%Z → u64 (size c + u64 n) = (total l + n)%Z.
Proof.
  intros Hrep Hn Ht. pose proof (total_nonneg l). rewrite (rep_size _ _ Hrep).
  rewrite (wrap_small 64 n) by lia. apply wrap_small. lia.
Qed.

Lemma evict_spec n l : ∀ c fuel,
  rep c l → length l < fuel → (0 ≤ n)%Z → (total l + n < 2 ^ 64)%Z →
  wp (evict fuel n)
     (λ _ c', rep c' (keep (maxSize c - n) l) ∧ maxSize c' = maxSize c ∧ (n ≤ maxSize c)%Z)
     (λ e c', e = too_large ∧ rep c' [] ∧ maxSize c' = maxSize c ∧ (maxSize c < n)%Z) c.
Proof.
  induction l as [|kv l IH] using rev_ind; intros c fuel Hrep Hfuel Hn Ht;
    (destruct fuel as [|fuel]; [lia|]); simpl; wp_steps;
    rewrite (rep_size_add _ _ n Hrep) by done.
  - rewrite (rep_Len _ _ Hrep). simpl. case_bool_decide; wp_steps; split_and!; try done; lia.
  - rewrite (rep_Len _ _ Hrep). rewrite length_app in Hfuel |- *. simpl in Hfuel |- *.
    case_bool_decide.
    + rewrite bool_decide_eq_false_2 by lia. wp_steps.
      eapply wp_mono; [by eapply evict_one_spec|..]; [|done]. intros _ c1 [Hrep1 Hm1].
      rewrite total_app in Ht, H1. simpl in Ht, H1. pose proof (val_len_nonneg kv.2).
      rewrite keep_snoc by (rewrite total_app; simpl; lia). rewrite <-Hm1.
      apply IH; try done; lia.
    + wp_steps. rewrite keep_all by lia. split_and!; [done..|].
      pose proof (total_nonneg (l ++ [kv])). lia.
Qed.
(** Filing a new entry: the node, the map and the size. *)
Lemma index_push c l h v :
  index c l → h ∉ l.*1 → (total l + val_len v < 2 ^ 64)%Z →
  wp (PushFront h (u64 (val_len v)))
     (λ x lr, ∀ c', lru c' = lr → lruMap c' = <[h := x]> (lruMap c) →
                    size c' = u64 (size c + u64 (val_len v)) → index c' ((h, v) :: l))
     (λ _ _, False) (lru c).
Proof.
  intros [Hnd (ls & Hd & Hf) Hdom Hs Ht] Hh Htv.
  pose proof (total_nonneg l). pose proof (val_len_nonneg v).
  eapply wp_mono; [by apply PushFront_spec|..]; [|done].
  intros x lr (Hdll & Hx & Hpx & Hpl) c' <- Hm Hsz. split; simpl.
  - by apply NoDup_cons.
  - exists (x :: ls). split; [done|]. constructor.
    + split; simpl; [|rewrite Hm; apply lookup_insert_eq]. rewrite Hpx, wrap_small by lia. done.
    + apply (Forall2_impl_in _ _ _ _ Hf). intros a kv Ha Hkv [Hpa Hma]. split.
      * by rewrite Hpl by set_solver.
      * rewrite Hm, lookup_insert_ne; [done|]. intros ->. apply Hh. by apply list_elem_of_fmap_2.
  - intros k. rewrite Hm. destruct (decide (k = h)) as [->|Hne]; [by left|].
    rewrite lookup_insert_ne by done. right. auto.
  - rewrite Hsz, Hs, (wrap_small 64 (val_len v)) by lia. rewrite wrap_small by lia. lia.
  - lia.
Qed.

Lemma put_all_spec kvs : ∀ b,
  NoDup kvs.*1 →
  wp (put_all kvs) (λ _ b', bcontents b' = list_to_map kvs ∪ bcontents b) (λ e _, bolt_fails e) b.
Proof.
  induction kvs as [|[k v] kvs IH]; intros b Hnd; simpl.
  - wp_steps. by rewrite (left_id_L ∅ (∪)).
  - simpl in Hnd. apply NoDup_cons in Hnd as [Hk Hnd]. wp_steps.
    eapply wp_mono; [apply bucket_Put_law|..]; [|done]. intros u b1 Hb1.
    eapply wp_mono; [by apply IH|..]; [|done]. intros y b2 Hb2. rewrite Hb2, Hb1.
    rewrite <-insert_union_r by (by apply not_elem_of_list_to_map_1).
    by rewrite insert_union_l.
Qed.

Lemma delete_all_spec ks : ∀ b,
  wp (delete_all ks) (λ _ b', bcontents b' = filter (λ kv, kv.1 ∉ ks) (bcontents b))
     (λ e _, bolt_fails e) b.
Proof.
  induction ks as [|k ks IH]; intros b; simpl.
  - wp_steps. symmetry. apply map_filter_id. set_solver.
  - wp_steps. eapply wp_mono; [apply bucket_Delete_law|..]; [|done]. intros u b1 Hb1.
    eapply wp_mono; [apply IH|..]; [|done]. intros y b2 Hb2. rewrite Hb2, Hb1.
    apply map_eq. intros k'. apply option_eq. intros v.
    rewrite !map_lookup_filter_Some, lookup_delete_Some. simpl. set_solver.
Qed.

Lemma flushPending_spec c :
  wp flushPending
     (λ _ c', ∃ d, c' = set_pending ∅ ∅ (set_db d c) ∧ contents d = flushed c)
     (λ e c', bolt_fails e ∧ ∃ d, c' = set_db d c ∧ contents d = contents (db c)) c.
Proof.
  unfold flushPending, on_db. wp_steps.
  eapply wp_mono; [apply (Update_law _ (λ _ m, m = flushed c))|..].
  - intros b Hb. wp_steps. eapply wp_mono; [apply put_all_spec, NoDup_fst_map_to_list|..]; [|done].
    intros u b1 Hb1. eapply wp_mono; [apply delete_all_spec|..]; [|done]. intros y b2 Hb2.
    rewrite Hb2, Hb1, Hb, list_to_map_to_list. unfold flushed. apply map_filter_ext.
    intros k v _. simpl. by rewrite elem_of_elements.
  - intros u d Hd. wp_steps. by exists d.
  - intros e d [He Hd]. eauto.
Qed.

(** Flushing is invisible. *)
Lemma rep_flush c l :
  rep c l →
  wp flushPending
     (λ _ c', rep c' l ∧ maxSize c' = maxSize c ∧ contents (db c') = list_to_map l)
     (λ e c', bolt_fails e ∧ rep c' l ∧ maxSize c' = maxSize c) c.
Proof.
  intros [[Hnd Hl Hdom Hs Ht] Hfl].
  eapply wp_mono; [apply flushPending_spec|..].
  - intros _ c' (d & -> & Hd). split_and!; [|done|by rewrite <-Hfl].
    split; [by split|]. unfold flushed. simpl. rewrite (left_id_L ∅ (∪)), Hd, <-Hfl.
    apply map_filter_id. set_solver.
  - intros e c' (He & d & -> & Hd). split_and!; [done| |done].
    split; [by split|]. rewrite <-Hfl. by apply flushed_eq.
Qed.

(** The entries after [Put h v]. *)
Definition install (cap : Z) (h : hash) (v : bytes) (l : entries) : entries :=
  (h, v) :: keep (cap - val_len v) l.

Lemma keep_prefix cap l : keep cap l `prefix_of` l.
Proof.
  revert cap. induction l as [|kv l IH]; intros cap; simpl; [done|].
  case_bool_decide; [|by exists (kv :: l)]. by apply prefix_cons.
Qed.
Lemma keep_total cap l : (0 ≤ cap)%Z → (total (keep cap l) ≤ cap)%Z.
Proof.
  revert cap. induction l as [|kv l IH]; intros cap Hc; simpl; [done|].
  case_bool_decide; simpl; [|done]. specialize (IH (cap - val_len kv.2)%Z). lia.
Qed.

Lemma cache_Put_spec c l h v :
  rep c l → (total l + val_len v < 2 ^ 64)%Z →
  wp (Put h v)
     (λ _ c', if decide (h ∈ l.*1) then c' = c
              else rep c' (install (maxSize c) h v l) ∧ maxSize c' = maxSize c ∧
                   (val_len v ≤ maxSize c)%Z)
     (λ e c', h ∉ l.*1 ∧
              maxSize c' = maxSize c ∧
              (e = too_large ∧ rep c' [] ∧ (maxSize c < val_len v)%Z ∨
               bolt_fails e ∧ rep c' (install (maxSize c) h v l) ∧
               (val_len v ≤ maxSize c)%Z)) c.
Proof.
  intros Hrep Ht. unfold Put, on_lru. wp_steps. pose proof (rep_lookup _ _ h Hrep) as Hl.
  pose proof (val_len_nonneg v) as Hv.
  destruct (lruMap c !! h) as [p|].
  - destruct Hl as (l1 & w & l2 & _ & _ & -> & _). wp_steps. rewrite decide_True; [done|].
    rewrite fmap_app. set_solver.
  - wp_steps. rewrite (rep_Len _ _ Hrep).
    eapply wp_mono; [apply (evict_spec _ l); try done; lia|..]; [|naive_solver].
    intros _ c1 (Hrep1 & Hm1 & Hfit). wp_steps.
    destruct (keep_prefix (maxSize c - val_len v) l) as [l' Hl'].
    assert (Hh : h ∉ (keep (maxSize c - val_len v) l).*1).
    { intros Hin. apply Hl. rewrite Hl', fmap_app. set_solver. }
    assert (Htk : (total (keep (maxSize c - val_len v) l) + val_len v < 2 ^ 64)%Z).
    { rewrite Hl', total_app in Ht. pose proof (total_nonneg l'). lia. }
    eapply wp_mono; [apply (index_push c1); [apply Hrep1|done|done]|..]; [|done].
    intros x lr Hix.
    set (c2 := set_pending (<[h := v]> (pendingPut c1)) (pendingDel c1 ∖ {[h]})
                 (set_lruMap (<[h := x]> (lruMap c1))
                   (set_lru lr (set_size (u64 (size c1 + u64 (val_len v))) c1)))).
    assert (Hrep2 : rep c2 (install (maxSize c) h v l)).
    { split; [by apply Hix|]. simpl. rewrite <-(rep_flushed _ _ Hrep1), <-flushed_insert.
      by apply flushed_eq. }
    wp_steps; intros _; [|by rewrite decide_False].
    eapply wp_mono; [by apply rep_flush|..].
    + intros _ c3 (Hrep3 & Hm3 & _). rewrite decide_False by done. by rewrite Hm3.
    + intros e c3 (He & Hrep3 & Hm3). split_and!; [done|by rewrite Hm3|right; by split_and!].
Qed.

(** ** Opening and closing *)

Lemma copy_key_id k : length k = hash_len → copy_key k = k.
Proof.
  intros Hk. unfold copy_key, splice. rewrite length_replicate, Nat.sub_0_r, Nat.add_0_l, Hk.
  rewrite drop_ge by (by rewrite length_replicate). rewrite (take_ge k) by lia. apply app_nil_r.
Qed.

Lemma load_entries_spec kvs : ∀ c l,
  index c l → NoDup (kvs.*1 ++ l.*1) → Forall (λ k, length k = hash_len) kvs.*1 →
  (total kvs + total l < 2 ^ 64)%Z →
  wp (load_entries kvs)
     (λ _ c', index c' (rev kvs ++ l) ∧ db c' = db c ∧ pendingPut c' = pendingPut c ∧
              pendingDel c' = pendingDel c)
     (λ _ _, False) c.
Proof.
  induction kvs as [|[k v] kvs IH]; intros c l Hi Hnd Hlen Ht; simpl.
  - by wp_steps.
  - simpl in *. apply NoDup_cons in Hnd as [Hk Hnd]. apply Forall_cons in Hlen as [Hk32 Hlen].
    pose proof (total_nonneg kvs). pose proof (total_nonneg l).
    unfold load_entry, on_lru. wp_steps. simpl.
    rewrite copy_key_id by done.
    eapply wp_mono; [apply (index_push c l k v); [done|set_solver|lia]|..]; [|done].
    intros x lr Hix. wp_steps.
    eapply wp_mono; [apply (IH _ ((k, v) :: l)); [by apply Hix|..]|..]; [..|done].
    + simpl. by rewrite <-Permutation_middle, NoDup_cons.
    + done.
    + simpl. lia.
    + intros _ c' (Hi' & Hd & Hp & Hq). rewrite <-app_assoc. done.
Qed.

Lemma NewCache_spec d max :
  Forall (λ k, length k = hash_len) (map_to_list (contents d)).*1 →
  (total (map_to_list (contents d)) < 2 ^ 64)%Z →
  match NewCache (Ok d) max with
  | Ok c => ∃ l, l ≡ₚ map_to_list (contents d) ∧ rep c l
  | Err e => bolt_fails e
  | _ => False
  end.
Proof.
  intros Hlen Ht.
  assert (Hwp : wp load_cache (λ _ c, ∃ l, l ≡ₚ map_to_list (contents d) ∧ rep c l) (λ e _, bolt_fails e)
     (mkCache d 0 max ∅ zero_list ∅ ∅)); cycle 1.
  { revert Hwp. unfold wp, NewCache. simpl. by destruct (load_cache _) as [[] ?]. }
  unfold load_cache, on_lru, on_db. wp_steps.
  destruct Init_spec as (lr & Hinit & Hdll). unfold wp at 1. simpl lru. rewrite Hinit.
  wp_steps. simpl.
  eapply wp_mono; [apply (Update_law _ (λ kvs m, kvs ≡ₚ map_to_list m ∧ m = contents d))|..].
  - intros b Hb. wp_steps. eapply wp_mono; [apply CreateBucket_law|..]; [|done].
    intros u b' Hb'. wp_steps. split; [apply bucket_ForEach_law|congruence].
  - intros kvs d' [Hkvs Hd']. rewrite Hd' in Hkvs.
    eapply wp_mono; [apply (load_entries_spec kvs _ [])|..]; [..|done].
    + split; simpl; try done; [apply NoDup_nil_2|by exists []|by intros h []].
    + rewrite app_nil_r, Hkvs. apply NoDup_fst_map_to_list.
    + by rewrite Hkvs.
    + rewrite Hkvs. simpl. lia.
    + intros _ c' (Hi & Hdb & Hp & Hq). rewrite app_nil_r in Hi. simpl in *. subst.
      exists (rev kvs). split; [by rewrite <-Permutation_rev|]. split; [done|].
      unfold flushed. rewrite Hp, Hq, (left_id_L ∅ (∪)), Hd', map_filter_id by set_solver.
      rewrite <-(list_to_map_to_list (contents d)). apply list_to_map_proper.
      * apply NoDup_fst_map_to_list.
      * by rewrite <-Permutation_rev, Hkvs.
  - by intros e d' [He _].
Qed.

(** ** Theorems *)

(** C25: [Put] refines the abstract cache.  A key that is already cached is left
    as it is.  Otherwise the least recently used entries are evicted, no more than
    needed, and the new entry is put in front, even when the flush that may
    follow fails; a value larger than the whole cache is refused, after
    everything has been evicted. *)
Theorem cache_put_refines c l h v :
  rep c l → (total l + val_len v < 2 ^ 64)%Z →
  wp (Put h v)
     (λ _ c', if decide (h ∈ l.*1) then c' = c
              else rep c' (install (maxSize c) h v l) ∧ maxSize c' = maxSize c ∧
                   (val_len v ≤ maxSize c)%Z)
     (λ e c', h ∉ l.*1 ∧
              maxSize c' = maxSize c ∧
              (e = too_large ∧ rep c' [] ∧ (maxSize c < val_len v)%Z ∨
               bolt_fails e ∧ rep c' (install (maxSize c) h v l) ∧
               (val_len v ≤ maxSize c)%Z)) c.
Proof. apply cache_Put_spec. Qed.

(** C33: [Get] refines the abstract cache.  A key that is cached comes back with
    its value, whether it is still pending or already in the database, and moves
    to the front; a key that is not cached is reported missing and nothing
    changes.  A database error is reported with the entry already promoted. *)
Theorem cache_get_refines c l h :
  rep c l →
  wp (Get h)
     (λ r c', match (list_to_map l : gmap bytes bytes) !! h with
              | Some v => r = (v, true) ∧ rep c' (promote h l) ∧ maxSize c' = maxSize c
              | None => r = ([], false) ∧ c' = c
              end)
     (λ e c', bolt_fails e ∧ rep c' (promote h l) ∧ maxSize c' = maxSize c) c.
Proof. apply cache_Get_spec. Qed.

(** closing writes everything out: whoever opens the database again, with
    any size limit, finds exactly the entries the cache had. *)
Theorem cache_reopen c l :
  rep c l → Forall (λ k, length k = hash_len) l.*1 →
  wp Close
     (λ _ c', ∀ d max, contents d = contents (db c') →
        match NewCache (Ok d) max with
        | Ok c2 => ∃ l', l' ≡ₚ l ∧ rep c2 l'
        | Err e => bolt_fails e
        | _ => False
        end)
     (λ e c', bolt_fails e ∧ rep c' l) c.
Proof.
  intros Hrep Hlen. unfold Close, on_db. wp_steps.
  eapply wp_mono; [by apply rep_flush|..]; [|by intros e c' (He & Hr & _)].
  intros _ c1 (Hrep1 & _ & Hc1). wp_steps. eapply wp_mono; [apply db_Close_law|..].
  - intros u d1 Hd1 d max Hd. simpl in Hd. rewrite Hd1, Hc1 in Hd.
    assert (Hp : map_to_list (contents d) ≡ₚ l).
    { rewrite Hd. apply map_to_list_to_map, (rep_keys _ _ Hrep). }
    assert (Hnew := NewCache_spec d max ltac:(by rewrite Hp)
                      ltac:(rewrite Hp; apply (rep_total _ _ Hrep))).
    destruct (NewCache (Ok d) max) as [c2| | |]; try done.
    destruct Hnew as (l' & Hl' & Hr'). exists l'. split; [by rewrite Hl', Hp|done].
  - intros e d1 [He Hd1]. split; [done|]. destruct Hrep1 as [[Hnd Hl Hdom Hs Ht] Hfl].
    split; [by split|]. rewrite <-Hfl. by apply flushed_eq.
Qed.

End CacheProps.

(** ** A database in memory *)
Module CacheDemo.
Abbreviation mem := (gmap bytes bytes).

Definition key_required : error := ENew "key required".

(** As bolt does, it refuses an empty key; transactions take effect at once. *)
#[local] Instance mem_db : BoltDB mem mem := {|
  bucket_Put k v :=
    if bool_decide (k = []) then throw key_required else modify (λ m, <[k := v]> m);
  bucket_Delete k := modify (λ m, delete k m);
  bucket_Get k m := m !! k;
  bucket_ForEach m := map_to_list m;
  CreateBucketIfNotExists := mret ();
  Update A f := λ m, match f m with (Ok a, m') => (Ok a, m') | (o, _) => (o, m) end;
  View A f := gets f;
  db_Close := mret ();
|}.

#[local] Program Instance mem_laws : BoltLaws mem mem := {|
  contents m := m;
  bcontents m := m;
  bolt_fails e := e = key_required;
|}.
Next Obligation. intros k v m. simpl. by case_bool_decide. Qed.
Next Obligation. by intros k m. Qed.
Next Obligation. done. Qed.
Next Obligation. done. Qed.
Next Obligation. done. Qed.
Next Obligation.
  intros A f Q m Hf. specialize (Hf m eq_refl). unfold wp in *. simpl.
  by destruct (f m) as [[] ?].
Qed.
Next Obligation. intros A f Q m Hf. split; [by apply Hf|done]. Qed.
Next Obligation. done. Qed.

Definition key (n : nat) : bytes := replicate 32 (nbyte n).
Definition three : bytes := str "abc".
Definition db0 : mem := {[ key 1 := three ]}.

(** A cache of four bytes over a database that has one entry of three. *)
Definition cache0 : Cache :=
  match NewCache (Ok db0) 4 with Ok c => c | _ => mkCache ∅ 0 0 ∅ zero_list ∅ ∅ end.

Lemma cache0_new : NewCache (Ok db0) 4 = Ok cache0.
Proof.
  assert (Hok : (if NewCache (Ok db0) 4 is Ok _ then true else false) = true)
    by (vm_compute; reflexivity).
  revert Hok. unfold cache0. by destruct (NewCache (Ok db0) 4).
Qed.
Lemma cache0_max : maxSize cache0 = 4%Z.
Proof. vm_compute. reflexivity. Qed.

Lemma cache0_rep : rep cache0 [(key 1, three)].
Proof.
  assert (Hml : map_to_list (contents db0) = [(key 1, three)])
    by apply map_to_list_singleton.
  assert (Hn := NewCache_spec db0 4 ltac:(rewrite Hml; by repeat constructor)
                  ltac:(by rewrite Hml)).
  rewrite cache0_new, Hml in Hn. destruct Hn as (l & Hl & Hr).
  by apply Permutation_singleton_r in Hl as ->.
Qed.

Lemma cache_get_refines_witness :
  wp (Get (key 1))
     (λ r c', r = (three, true) ∧ rep c' [(key 1, three)] ∧ maxSize c' = maxSize cache0)
     (λ e c', e = key_required ∧ rep c' [(key 1, three)] ∧ maxSize c' = maxSize cache0) cache0.
Proof.
  eapply wp_mono; [exact (cache_get_refines cache0 _ (key 1) cache0_rep)|..].
  - intros r c' Hq. exact Hq.
  - intros e c' Hq. exact Hq.
Defined.

(** A second value of two bytes drives the first one out. *)
Lemma cache_put_refines_witness :
  wp (Put (key 2) (str "de"))
     (λ _ c', rep c' [(key 2, str "de")] ∧ maxSize c' = 4%Z)
     (λ e c', e = key_required) cache0.
Proof.
  eapply wp_mono;
    [exact (cache_put_refines cache0 _ (key 2) (str "de") cache0_rep ltac:(by vm_compute))|..];
    rewrite cache0_max.
  - intros u c' Hq. rewrite decide_False in Hq; [|by apply (bool_decide_unpack _); vm_compute].
    destruct Hq as (Hr & Hm & _). by split.
  - intros e c' [_ [_ [(_ & _ & Hlt)|(He & _)]]]; [by vm_compute in Hlt|done].
Defined.

Lemma cache_reopen_witness :
  wp Close
     (λ _ c', ∀ d max, contents d = contents (db c') →
        match NewCache (Ok d) max with
        | Ok c2 => ∃ l', l' ≡ₚ [(key 1, three)] ∧ rep c2 l'
        | Err e => bolt_fails e
        | _ => False
        end)
     (λ e c', bolt_fails e ∧ rep c' [(key 1, three)]) cache0.
Proof. exact (cache_reopen cache0 _ cache0_rep ltac:(by repeat constructor)). Defined.
End CacheDemo.
