(* ===== verification/CacheClient.v ===== *)
(** The cache daemon's client and server, cstore/cache/client.go and server.go,
    and the store that uses them, cstore/cached.go.

    The client compresses values and calls the server, which calls the cache of
    Cache.v.  [RawCache] is what the garbage collector uses of the client;
    [client_raw_laws] discharges its laws from the cache's refinement. *)

From Stdlib Require Import ZArith Lia.
From stdpp Require Import base list gmap sets strings.
From S2P Require Import Prelude Store Lru Cache CacheProps.

Set Default Goal Selector "!".

(** The raw calls: values as they are in packs. *)
Class RawCache (Ca : Type) := {
  GetRaw : hash → M Ca (bytes * bool);
  PutRaw : hash → bytes → M Ca unit;
}.

(** [good h v]: [v] is a raw value of block [h]. *)
Class RawCacheLaws (Ca : Type) `{RawCache Ca} (good : hash → bytes → Prop) := {
  cache_ok : Ca → Prop;
  GetRaw_law ca h :
    cache_ok ca →
    wp (GetRaw h) (λ r ca', cache_ok ca' ∧ (r.2 = true → good h r.1)) (λ _ ca', cache_ok ca') ca;
  PutRaw_law ca h v :
    cache_ok ca → good h v → wp (PutRaw h v) (λ _ ca', cache_ok ca') (λ _ ca', cache_ok ca') ca;
}.

Section Client.
Context {D B : Type} `{BoltDB D B}.
Abbreviation Cache := (Cache (D := D)).

(** ** server.go *)

Record RGet := mkRGet { Val : bytes; ROk : bool }.

Definition server_Get (h : hash) : M Cache RGet :=
  '(v, ok) ← Cache.Get h;
  mret (mkRGet v ok).

Definition server_Put (h : hash) (val : bytes) : M Cache unit := Cache.Put h val.

(** ** client.go *)

(** What happens to a call: it arrives and is answered, or an error is reported
    and it did not arrive, or it arrived and the answer was lost. *)
Inductive delivery := Delivered | RequestLost (e : error) | ReplyLost (e : error).

(** The cache behind the connection, and what happens to the next calls. *)
Record Client := mkClient { served : Cache; link : list delivery }.

(** [rpc.Client.Call] *)
Definition Call {A} (method : M Cache A) : M Client A :=
  cl ← get;
  let run := zoom served (λ ca cl, mkClient ca (link cl)) in
  modify (λ cl, mkClient (served cl) (tail (link cl)));;
  match head (link cl) with
  | Some (RequestLost e) => throw e
  | Some (ReplyLost e) => _ ← try (run method); throw e
  | _ => run method
  end.

Definition client_GetRaw (h : hash) : M Client (bytes * bool) :=
  r ← Call (server_Get h);
  mret (Val r, ROk r).

Definition client_PutRaw (h : hash) (val : bytes) : M Client unit := Call (server_Put h val).

#[global] Instance client_raw : RawCache Client :=
  {| GetRaw := client_GetRaw; PutRaw := client_PutRaw |}.

(** [compress/flate] at [BestSpeed] into and out of a buffer. *)
Context (deflate : bytes → bytes) (inflate : bytes → outcome bytes).

Definition Get (h : hash) : M Client (bytes * bool) :=
  '(val, ok) ← client_GetRaw h;
  if negb ok then mret ([], false)
  else
    buf ← lift (inflate val);
    mret (buf, true).

Definition Put (h : hash) (val : bytes) : M Client unit := client_PutRaw h (deflate val).

(** ** cached.go *)

Context {St : Type} `{CStore St}.

Record CachedCStore := mkCached { cc_store : St; cc_cache : Client }.

Definition NewCachedCStore (store : St) (cache : Client) : CachedCStore := mkCached store cache.

Definition on_st {A} : M St A → M CachedCStore A := zoom cc_store (λ s c, mkCached s (cc_cache c)).
Definition on_cl {A} : M Client A → M CachedCStore A := zoom cc_cache (λ l c, mkCached (cc_store c) l).

Definition cached_Get (h : hash) : M CachedCStore bytes :=
  '(v, ok) ← on_cl (Get h);
  if ok : bool then mret v
  else
    v ← on_st (Store.Get h);
    on_cl (Put h v);;
    mret v.

Definition cached_Put (val : bytes) : M CachedCStore hash :=
  h ← on_st (Store.Put val);
  on_cl (Put h val);;
  mret h.

Definition cached_Flush : M CachedCStore unit := on_st Store.Flush.
Definition cached_Close : M CachedCStore unit := on_st Store.Close.

#[global] Instance cached_cstore : CStore CachedCStore :=
  {| Store.Put := cached_Put; Store.Get := cached_Get;
     Store.Flush := cached_Flush; Store.Close := cached_Close |}.
End Client.
Arguments Client : clear implicits.

(** What the connection may report. *)
Definition lost (lk : list delivery) (e : error) : Prop := RequestLost e ∈ lk ∨ ReplyLost e ∈ lk.
Lemma lost_tail lk e : lost (tail lk) e → lost lk e.
Proof. destruct lk; [done|]. unfold lost. set_solver. Qed.

(** ** The client keeps raw values *)
Section ClientLaws.
Context {D B : Type} `{BoltLaws D B} (good : hash → bytes → Prop).
#[local] Instance total_perm : Proper ((≡ₚ) ==> (=)) total := CacheProps.total_perm.
Context (good_small : ∀ h v, good h v → (val_len v < 2 ^ 63)%Z).

(** The cache behind the client is sound and holds good values only. *)
Definition client_ok (cl : Client D) : Prop :=
  ∃ l, rep (served cl) l ∧ (total l < 2 ^ 63)%Z ∧ (maxSize (served cl) < 2 ^ 63)%Z ∧
       Forall (λ kv, good kv.1 kv.2) l.

Lemma promote_perm h (l : list (bytes * bytes)) : promote h l ≡ₚ l.
Proof.
  unfold promote. induction l as [|kv l IH]; [done|]. rewrite !filter_cons.
  destruct (decide (kv.1 = h)) as [Hk|Hk].
  - rewrite (decide_False (P := kv.1 ≠ h)) by (intros Hn; by apply Hn). by apply perm_skip.
  - rewrite (decide_True (P := kv.1 ≠ h)) by done.
    etrans; [symmetry; apply Permutation_middle|by apply perm_skip].
Qed.

(** What the cache may report, and a call to it. *)
Definition cache_fails (e : error) : Prop := bolt_fails e ∨ e = too_large.
Definition call_fails (lk : list delivery) (e : error) : Prop := lost lk e ∨ cache_fails e.

(** A call on a sound cache, whatever becomes of it. *)
Lemma Call_spec {A} (m : M Cache A) (Q : A → Prop) cl :
  client_ok cl →
  wp m (λ a c', Q a ∧ client_ok (mkClient c' (tail (link cl))))
       (λ e c', cache_fails e ∧ client_ok (mkClient c' (tail (link cl)))) (served cl) →
  wp (Call m) (λ a cl', Q a ∧ client_ok cl' ∧ link cl' = tail (link cl))
     (λ e cl', call_fails (link cl) e ∧ client_ok cl') cl.
Proof.
  intros Hok Hm. unfold Call, call_fails. wp_steps. destruct (link cl) as [|[|e|e] lk]; simpl.
  - wp_step. eapply wp_mono; [exact Hm|..]; cbn beta; naive_solver.
  - wp_step. eapply wp_mono; [exact Hm|..]; cbn beta; naive_solver.
  - wp_step. split; [|done]. left. left. set_solver.
  - assert (Hl : lost (ReplyLost e :: lk) e) by (right; set_solver).
    wp_step. wp_step. wp_step. eapply wp_mono; [exact Hm|..]; cbn beta; intros x c' Hx; wp_step; naive_solver.
Qed.

Lemma server_Get_spec cl h lk :
  client_ok cl →
  wp (server_Get h) (λ r c', (ROk r = true → good h (Val r)) ∧ client_ok (mkClient c' lk))
     (λ e c', cache_fails e ∧ client_ok (mkClient c' lk)) (served cl).
Proof.
  intros (l & Hrep & Ht & Hm & Hg). unfold server_Get. wp_step.
  assert (Hprom : ∀ c', rep c' (promote h l) → maxSize c' = maxSize (served cl) →
    client_ok (mkClient c' lk)).
  { intros c' Hr Hm'. exists (promote h l). split_and!; [done| |by simpl; rewrite Hm'|by rewrite promote_perm].
    by rewrite promote_perm. }
  eapply wp_mono; [by apply cache_Get_spec|..]; cbn beta.
  - intros [v ok] c'. destruct (list_to_map l !! h) as [v0|] eqn:E.
    + intros ([= -> ->] & Hr & Hm'). wp_step. split; [|by apply Hprom]. intros _. simpl.
      apply elem_of_list_to_map_2 in E. rewrite Forall_forall in Hg. by apply (Hg (h, v0)).
    + intros [[= -> ->] ->]. wp_step. split; [done|]. by exists l.
  - intros e c' (He & Hr & Hm'). split; [by left|by apply Hprom].
Qed.

Lemma server_Put_spec cl h v lk :
  client_ok cl → good h v →
  wp (server_Put h v) (λ _ c', client_ok (mkClient c' lk))
     (λ e c', cache_fails e ∧ client_ok (mkClient c' lk)) (served cl).
Proof.
  intros (l & Hrep & Ht & Hm & Hg) Hv. unfold server_Put. pose proof (good_small h v Hv) as Hs.
  assert (Hinst : ∀ c', rep c' (install (maxSize (served cl)) h v l) → maxSize c' = maxSize (served cl) →
    (val_len v ≤ maxSize (served cl))%Z → client_ok (mkClient c' lk)).
  { intros c' Hr Hm' Hle. eexists. split_and!; [exact Hr| |simpl; lia|].
    - unfold install. simpl. pose proof (keep_total (maxSize (served cl) - val_len v) l). lia.
    - unfold install. constructor; [done|].
      destruct (keep_prefix (maxSize (served cl) - val_len v) l) as [l' Hl'].
      rewrite Hl' in Hg. by apply Forall_app in Hg as [? _]. }
  eapply wp_mono; [apply (cache_Put_spec (served cl) l h v); [done|lia]|..]; cbn beta.
  - intros _ c'. destruct (decide (h ∈ l.*1)); [intros ->; by exists l|]. intros (? & ? & ?). by apply Hinst.
  - intros e c' (_ & Hm' & [(-> & Hr & _)|(He & Hr & Hle)]); [|split; [by left|by apply Hinst]].
    split; [by right|]. exists []. split_and!; [done|done|simpl; lia|by constructor].
Qed.

Lemma client_GetRaw_spec cl h :
  client_ok cl →
  wp (client_GetRaw h) (λ r cl', (r.2 = true → good h r.1) ∧ client_ok cl' ∧ link cl' = tail (link cl))
     (λ e cl', call_fails (link cl) e ∧ client_ok cl') cl.
Proof.
  intros Hok. unfold client_GetRaw. wp_step.
  eapply wp_mono; [apply (Call_spec _ (λ r, ROk r = true → good h (Val r))); [done|by apply server_Get_spec]|..];
    cbn beta; [|done].
  intros r cl' (Hr & Hok' & Hl). by wp_step.
Qed.

Lemma client_PutRaw_spec cl h v :
  client_ok cl → good h v →
  wp (client_PutRaw h v) (λ _ cl', client_ok cl') (λ e cl', call_fails (link cl) e ∧ client_ok cl') cl.
Proof.
  intros Hok Hv. unfold client_PutRaw.
  eapply wp_mono; [apply (Call_spec _ (λ _, True)); [done|]|..]; cbn beta; [|by intros _ cl' (_ & ? & _)|done].
  eapply wp_mono; [by apply (server_Put_spec cl h v (tail (link cl)))|..]; cbn beta; auto.
Qed.

#[global] Program Instance client_raw_laws : RawCacheLaws (Client D) good := {| cache_ok := client_ok |}.
Next Obligation.
  intros cl h Hok. eapply wp_mono; [by apply client_GetRaw_spec|..]; cbn beta; naive_solver.
Qed.
Next Obligation.
  intros cl h v Hok Hv. eapply wp_mono; [by apply client_PutRaw_spec|..]; cbn beta; naive_solver.
Qed.
End ClientLaws.

Lemma client_ok_mono {D B : Type} `{BoltLaws D B} (P Q : hash → bytes → Prop) (cl : Client D) :
  (∀ h v, P h v → Q h v) → client_ok P cl → client_ok Q cl.
Proof.
  intros HPQ (l & ? & ? & ? & Hg). exists l. split_and!; [done..|].
  eapply Forall_impl; [exact Hg|]. intros kv. apply HPQ.
Qed.

(** ** The cached store *)
Section Cached.
Context {D B : Type} `{BoltLaws D B} {St : Type} `{CStoreLaws St}.
Context (deflate : bytes → bytes) (inflate : bytes → outcome bytes).
Context (inflate_deflate : ∀ d, inflate (deflate d) = Ok d).
(** No two blocks share a hash. *)
Context (holds_fun : ∀ (s : St) h d d', holds s h d → holds s h d' → d = d').
Abbreviation Cached := (CachedCStore (D := D) (St := St)).
Implicit Types c : Cached.

(** [v] is a compressed block that the store has as [h]. *)
Definition copy_of (s : St) (h : hash) (v : bytes) : Prop :=
  (val_len v < 2 ^ 63)%Z ∧ ∃ d, inflate v = Ok d ∧ holds s h d.

(** Everything cached is a copy of what the store has. *)
Definition coherent c : Prop := client_ok (copy_of (cc_store c)) (cc_cache c).

Lemma copy_of_small s h v : copy_of s h v → (val_len v < 2 ^ 63)%Z.
Proof. by intros [? _]. Qed.
Lemma copy_of_keeps s s' : keeps s s' → ∀ h v, copy_of s h v → copy_of s' h v.
Proof. intros [Hk _] h v (? & d & ? & ?). split; [done|]. exists d. auto. Qed.
Lemma coherent_keeps s s' cl : keeps s s' → coherent (mkCached s cl) → coherent (mkCached s' cl).
Proof. intros Hk. apply client_ok_mono. by apply copy_of_keeps. Qed.

Lemma client_Get_spec c h :
  coherent c →
  wp (Get inflate h)
     (λ r cl', (r.2 = true → holds (cc_store c) h r.1) ∧ coherent (mkCached (cc_store c) cl') ∧
               link cl' = tail (link (cc_cache c)))
     (λ e cl', call_fails (link (cc_cache c)) e ∧ coherent (mkCached (cc_store c) cl')) (cc_cache c).
Proof.
  intros Hc. unfold Get. wp_step.
  eapply wp_mono; [by apply (client_GetRaw_spec (copy_of (cc_store c)) (copy_of_small _))|..]; cbn beta; [|done].
  intros [v ok] cl' (Hv & Hok & Hl). simpl in Hv. destruct ok; cbn [negb].
  - destruct (Hv eq_refl) as (_ & d & Hd & Hh). rewrite Hd. wp_steps. split_and!; done.
  - wp_steps. split_and!; done.
Qed.

Lemma client_Put_spec c h d :
  coherent c → holds (cc_store c) h d → (val_len (deflate d) < 2 ^ 63)%Z →
  wp (Put deflate h d) (λ _ cl', coherent (mkCached (cc_store c) cl'))
     (λ e cl', call_fails (link (cc_cache c)) e ∧ coherent (mkCached (cc_store c) cl')) (cc_cache c).
Proof.
  intros Hc Hh Hs. unfold Put. apply (client_PutRaw_spec (copy_of (cc_store c)) (copy_of_small _)); [done|].
  split; [done|]. by exists d.
Qed.

(** C30: A [Get] through the cache returns what the store under it has, whether
    the block was cached or not, keeps the cache coherent with the store and loses
    no block; it fails only as the store, the cache or the connection do. *)
Theorem cached_get_transparent c h d :
  coherent c → holds (cc_store c) h d → (val_len (deflate d) < 2 ^ 63)%Z →
  wp (cached_Get deflate inflate h)
     (λ d' c', d' = d ∧ coherent c' ∧ keeps (cc_store c) (cc_store c'))
     (λ e c', (get_fails e ∨ call_fails (link (cc_cache c)) e) ∧ coherent c' ∧
              keeps (cc_store c) (cc_store c')) c.
Proof.
  intros Hc Hh Hs. unfold cached_Get, on_cl, on_st. wp_step. wp_step.
  eapply wp_mono; [by apply client_Get_spec|..]; cbn beta; [|naive_solver].
  intros [v ok] cl1 (Hv & Hc1 & Hl). destruct ok.
  { wp_step. split_and!; [|done|done]. by eapply holds_fun; [apply Hv|]. }
  wp_step. wp_step. eapply wp_mono; [by apply Get_law|..]; cbn beta.
  - intros d1 s1 [-> Hk]. wp_step. wp_step.
    eapply wp_mono; [apply (client_Put_spec (mkCached s1 cl1)); [by eapply coherent_keeps|by apply Hk|done]|..];
      cbn beta.
    + intros _ cl2 Hc2. wp_step. done.
    + intros e cl2 [He Hc2]. split_and!; [right|done|done].
      destruct He as [He|?]; [left|by right]. simpl in He. rewrite Hl in He. by apply lost_tail.
  - intros e s1 [He Hk]. split_and!; [by left|by eapply coherent_keeps|done].
Qed.

(** C31: A [Put] through the cache stores the block, keeps the cache coherent and
    loses no block; it fails only as the store, the cache or the connection do. *)
Theorem cached_put_transparent c d :
  coherent c → (val_len (deflate d) < 2 ^ 63)%Z →
  wp (cached_Put deflate d)
     (λ h c', holds (cc_store c') h d ∧ coherent c' ∧ keeps (cc_store c) (cc_store c'))
     (λ e c', (put_fails e ∨ call_fails (link (cc_cache c)) e) ∧ coherent c' ∧
              keeps (cc_store c) (cc_store c')) c.
Proof.
  intros Hc Hs. unfold cached_Put, on_cl, on_st. wp_step. wp_step.
  eapply wp_mono; [apply Put_law|..]; cbn beta.
  - intros h s1 (_ & Hh & Hk). wp_step. wp_step.
    eapply wp_mono; [apply (client_Put_spec (mkCached s1 (cc_cache c))); [by eapply coherent_keeps|done..]|..];
      cbn beta; [|naive_solver].
    intros _ cl2 Hc2. by wp_step.
  - intros e s1 [He Hk]. split_and!; [by left|by eapply coherent_keeps|done].
Qed.

(** A block that does not fit the cache cannot be stored through it, even though
    the store under it accepts the block. *)
Theorem cached_put_oversized c d :
  rep (served (cc_cache c)) [] → (∀ e, ¬ lost (link (cc_cache c)) e) →
  (maxSize (served (cc_cache c)) < val_len (deflate d) < 2 ^ 64)%Z →
  wp (cached_Put deflate d) (λ _ _, False)
     (λ e c', put_fails e ∨ e = too_large ∧ ∃ h, holds (cc_store c') h d) c.
Proof.
  intros Hr Hl Hs. unfold cached_Put, on_cl, on_st. wp_step. wp_step.
  eapply wp_mono; [apply Put_law|..]; cbn beta; [|naive_solver].
  intros h s1 (_ & Hh & _). wp_step. wp_step. unfold Put, client_PutRaw, Call. wp_steps. simpl.
  assert (Hput : wp (server_Put h (deflate d)) (λ _ _, False) (λ e _, e = too_large) (served (cc_cache c))).
  { eapply wp_mono; [apply (cache_Put_spec _ [] h (deflate d) Hr); simpl; lia|..]; cbn beta.
    - intros _ c'. rewrite decide_False by set_solver. intros (_ & _ & ?). lia.
    - intros e c' (_ & _ & [(? & _)|(_ & _ & ?)]); [done|lia]. }
  destruct (head (link (cc_cache c))) as [[|e|e]|] eqn:E.
  2,3: exfalso; apply (Hl e); unfold lost;
       destruct (link (cc_cache c)); simplify_eq/=; set_solver.
  all: wp_step; eapply wp_mono; [exact Hput|..]; cbn beta; naive_solver.
Qed.
End Cached.

(** ** A cache of four bytes over a store of one block *)
Module CachedDemo.
Import CacheDemo.
#[local] Existing Instances mem_db mem_laws.

Definition Sum256 (d : bytes) : hash := take 32 (d ++ replicate 32 Byte.x00).
Lemma Sum256_len d : length (Sum256 d) = hash_len.
Proof. unfold Sum256, hash_len. rewrite length_take, length_app, length_replicate. lia. Qed.
#[local] Instance demo_store : CStore MemStore.MemStore := Checked.checked_cstore Sum256.
#[local] Instance demo_laws : CStoreLaws MemStore.MemStore := Checked.checked_laws Sum256 Sum256_len.

Definition cached0 : CachedCStore (D := mem) (St := MemStore.MemStore) :=
  NewCachedCStore (MemStore.mkMemStore {[ key 1 := three ]}) (mkClient cache0 [Delivered; ReplyLost EOF]).

Lemma demo_holds_fun (s : MemStore.MemStore) h d d' : holds s h d → holds s h d' → d = d'.
Proof. simpl. congruence. Qed.
Lemma cached0_coherent : coherent Ok cached0.
Proof.
  exists [(key 1, three)]. split_and!; [exact cache0_rep|done|by vm_compute|].
  apply Forall_singleton. split; [done|]. exists three. split; [done|]. exact (lookup_singleton_eq _ _).
Qed.

Lemma cached_get_transparent_witness :
  wp (cached_Get id Ok (key 1))
     (λ d' c', d' = three ∧ coherent Ok c' ∧ keeps (cc_store cached0) (cc_store c'))
     (λ e c', (get_fails e ∨ call_fails (link (cc_cache cached0)) e) ∧ coherent Ok c' ∧
              keeps (cc_store cached0) (cc_store c')) cached0.
Proof.
  exact (cached_get_transparent id Ok (λ _, eq_refl) demo_holds_fun cached0 (key 1) three cached0_coherent
           (lookup_singleton_eq _ _) ltac:(by vm_compute)).
Defined.

Lemma cached_put_transparent_witness :
  wp (cached_Put id (str "de"))
     (λ h c', holds (cc_store c') h (str "de") ∧ coherent Ok c' ∧ keeps (cc_store cached0) (cc_store c'))
     (λ e c', (put_fails e ∨ call_fails (link (cc_cache cached0)) e) ∧ coherent Ok c' ∧
              keeps (cc_store cached0) (cc_store c')) cached0.
Proof.
  exact (cached_put_transparent id Ok (λ _, eq_refl) cached0 (str "de") cached0_coherent ltac:(by vm_compute)).
Defined.
End CachedDemo.
