(* ===== verification/Remote.v ===== *)
(** The root and the packs of a remote store: remote/remote.go, sig/sig.go and
    the hash strings of bpy.go.

    [RemoteClient] has the calls of remote/client that remote.go makes; what the
    server behind them answers is not assumed here.  The theorems say what a root
    that [GetRoot] accepts must look like and that the listing parser is exact on
    what a server may send. *)

From Stdlib Require Import ZArith Lia.
From stdpp Require Import base list gmap strings.
From coqutil Require Import Byte.
From S2P Require Import Prelude Store.

Set Default Goal Selector "!".

(** ** encoding/hex *)

Definition hex_digit (n : Z) : byte :=
  zbyte (if bool_decide (n < 10)%Z then n + 48 else n + 87)%Z.

Definition hex_byte (b : byte) : bytes :=
  [hex_digit (byte.unsigned b / 16); hex_digit (byte.unsigned b mod 16)].

(** [hex.EncodeToString] *)
Definition EncodeToString (b : bytes) : bytes := b ≫= hex_byte.

(** Both cases are accepted. *)
Definition from_hex (c : byte) : option Z :=
  let n := byte.unsigned c in
  if bool_decide (48 ≤ n ≤ 57)%Z then Some (n - 48)%Z
  else if bool_decide (97 ≤ n ≤ 102)%Z then Some (n - 87)%Z
  else if bool_decide (65 ≤ n ≤ 70)%Z then Some (n - 55)%Z
  else None.

Definition ErrLength : error := ENew "encoding/hex: odd length hex string".
Definition InvalidByte : error := ENew "encoding/hex: invalid byte".

(** [hex.Decode], with the bytes it produces. *)
Fixpoint hex_Decode (s : bytes) : outcome bytes :=
  match s with
  | [] => Ok []
  | [_] => Err ErrLength
  | a :: b :: s =>
    match from_hex a, from_hex b with
    | Some x, Some y => d ← hex_Decode s; Ok (zbyte (x * 16 + y) :: d)
    | _, _ => Err InvalidByte
    end
  end.

(** ** bpy.go: hash strings *)

Definition bad_length : error := ENew "bad length".

Definition ParseHash (hashstr : bytes) : outcome hash :=
  if bool_decide (length hashstr ≠ 64) then Err bad_length else hex_Decode hashstr.

Section NextVersion.
Variable Sum256 : bytes → hash.
Definition NextRootVersion (value : bytes) : bytes := EncodeToString (Sum256 value).
End NextVersion.

(** ** sig.go *)

(** [crypto/hmac] over SHA-256. *)
Section Sig.
Variable HMAC : bytes → bytes → bytes.

Record Key := mkKey { CipherKey : bytes; HmacKey : bytes; Id : bytes }.

(** [fmt.Sprintf("%s:%s", value, version)] *)
Definition toSign (value version : bytes) : bytes := value ++ str ":" ++ version.

Definition SignValue (k : Key) (value version : bytes) : bytes :=
  EncodeToString (HMAC (HmacKey k) (toSign value version)).
End Sig.

(** ** remote.go *)

Definition ErrCorruptPackListing : error := ENew "corrupt pack listing".
Definition ErrRootSignatureFailed : error :=
  ENew "root signature failed! corruption or tampering detected!".

Record PackListing := mkListing { PackName : bytes; PackSize : Z }.

(** What the server answers to [TGetRoot]. *)
Record RootReply := mkRootReply { Value : bytes; Version : bytes; Signature : bytes; ReplyOk : bool }.

(** [ReadDirFile path] opens a file of the server, reads it to the end and closes
    it. *)
Class RemoteClient (R : Type) := {
  ReadDirFile : bytes → M R bytes;
  TGetRoot : M R RootReply;
  TCasRoot : bytes → bytes → bytes → bytes → M R bool;
  TRemove : bytes → bytes → M R unit;
  TGetEpoch : M R bytes;
  TStartGC : M R bytes;
  TStopGC : M R unit;
}.

(** The loop of [ListPacks]: an entry takes at least ten bytes. *)
Fixpoint parse_listing (fuel : nat) (data : bytes) : outcome (list PackListing) :=
  if bool_decide (data = []) then Ok []
  else
    match fuel with
    | O => OutOfFuel
    | S fuel =>
      if bool_decide (length data < 2) then Err ErrCorruptPackListing
      else
        let namesz := Z.to_nat (get_be (take 2 data)) in
        if bool_decide (length data < namesz + 10) then Err ErrCorruptPackListing
        else
          name ← slice data 2 (2 + namesz);
          sz ← slice data (2 + namesz) (10 + namesz);
          rest ← slice data (10 + namesz) (length data);
          listing ← parse_listing fuel rest;
          Ok (mkListing name (get_be sz) :: listing)
    end.

Section Remote.
Context {R : Type} `{RemoteClient R}.
Variable HMAC : bytes → bytes → bytes.

Definition ListPacks : M R (list PackListing) :=
  data ← ReadDirFile (str "packs");
  lift (parse_listing (S (length data)) data).

(** The hash, the version, and whether there is a root. *)
Definition GetRoot (k : Key) : M R (hash * bytes * bool) :=
  r ← TGetRoot;
  if negb (ReplyOk r) then mret (replicate hash_len b0, Version r, false)
  else
    let signature := SignValue HMAC k (Value r) (Version r) in
    if bool_decide (signature ≠ Signature r) then throw ErrRootSignatureFailed
    else
      h ← lift (ParseHash (Value r));
      mret (h, Version r, true).

Definition CasRoot (k : Key) (newHash : hash) (newVersion epoch : bytes) : M R bool :=
  let newValue := EncodeToString newHash in
  let newSignature := SignValue HMAC k newValue newVersion in
  TCasRoot newValue newVersion newSignature epoch.

Definition Remove (path epoch : bytes) : M R unit := TRemove path epoch.
Definition GetEpoch : M R bytes := TGetEpoch.
Definition StartGC : M R bytes := TStartGC.
Definition StopGC : M R unit := TStopGC.
End Remote.

(** ** Hex strings and hashes *)

Lemma from_hex_digit n : (0 ≤ n < 16)%Z → from_hex (hex_digit n) = Some n.
Proof.
  intros Hn. unfold from_hex, hex_digit. rewrite unsigned_zbyte.
  destruct (bool_decide_reflect (n < 10)%Z).
  - rewrite wrap_small by lia. rewrite bool_decide_eq_true_2 by lia. f_equal. lia.
  - rewrite wrap_small by lia. rewrite bool_decide_eq_false_2 by lia.
    rewrite bool_decide_eq_true_2 by lia. f_equal. lia.
Qed.

Lemma EncodeToString_cons b bs : EncodeToString (b :: bs) = hex_byte b ++ EncodeToString bs.
Proof. done. Qed.

Lemma length_EncodeToString b : length (EncodeToString b) = 2 * length b.
Proof. induction b as [|x b IH]; [done|]. rewrite EncodeToString_cons, length_app, IH. simpl. lia. Qed.

Lemma hex_roundtrip b : hex_Decode (EncodeToString b) = Ok b.
Proof.
  induction b as [|x b IH]; [done|]. rewrite EncodeToString_cons. unfold hex_byte.
  pose proof (byte.unsigned_range x) as Hx. cbn [app hex_Decode].
  rewrite !from_hex_digit, IH.
  - simpl. do 2 f_equal. rewrite <-(zbyte_unsigned x) at 3. f_equal.
    pose proof (Z.div_mod (byte.unsigned x) 16). lia.
  - apply Z.mod_pos_bound. lia.
  - split; [apply Z.div_pos; lia|apply Z.div_lt_upper_bound; lia].
Qed.

Lemma ParseHash_Encode h : length h = hash_len → ParseHash (EncodeToString h) = Ok h.
Proof.
  intros Hh. unfold ParseHash. rewrite bool_decide_eq_false_2; [apply hex_roundtrip|].
  rewrite length_EncodeToString, Hh. unfold hash_len. lia.
Qed.

(** Decoding inverts encoding on 64 hex digits, so what parses has 32 bytes. *)
Lemma hex_Decode_length n : ∀ s d, length s = 2 * n → hex_Decode s = Ok d → length d = n.
Proof.
  induction n as [|n IH]; intros s d Hs Hd.
  - destruct s; [|simpl in Hs; lia]. by injection Hd as <-.
  - destruct s as [|a [|b s]]; simpl in Hs; try lia. simpl in Hd.
    destruct (from_hex a), (from_hex b); try done.
    destruct (hex_Decode s) as [d'| | |] eqn:E; try done. injection Hd as <-. simpl.
    f_equal. eapply IH; [|done]. lia.
Qed.

Lemma ParseHash_length s h : ParseHash s = Ok h → length h = hash_len.
Proof.
  unfold ParseHash. case_bool_decide as Hs; [done|]. apply (hex_Decode_length 32). lia.
Qed.

(** A hash string holds no colon, so the signed text determines its parts. *)
Lemma toSign_inj v1 v2 ver1 ver2 :
  length v1 = length v2 → toSign v1 ver1 = toSign v2 ver2 → v1 = v2 ∧ ver1 = ver2.
Proof.
  unfold toSign. intros Hl Heq. apply app_inj_1 in Heq as [-> Hv]; [|done].
  split; [done|]. by apply app_inv_head in Hv.
Qed.

(** ** Listings *)

Definition enc_listing (ls : list PackListing) : bytes :=
  ls ≫= λ l, put_be 2 (Z.of_nat (length (PackName l))) ++ PackName l ++ put_be 8 (PackSize l).

Definition valid_listing (l : PackListing) : Prop :=
  (Z.of_nat (length (PackName l)) < 2 ^ 16)%Z ∧ (0 ≤ PackSize l < 2 ^ 64)%Z.

Lemma parse_enc_listing ls : ∀ fuel,
  Forall valid_listing ls → length ls ≤ fuel → parse_listing fuel (enc_listing ls) = Ok ls.
Proof.
  induction ls as [|[name sz] ls IH]; intros fuel Hv Hf.
  { by destruct fuel. }
  apply Forall_cons in Hv as [[Hn Hs] Hv]. simpl in Hn, Hs.
  destruct fuel as [|fuel]; [simpl in Hf; lia|].
  unfold enc_listing. cbn [mbind list_bind PackName PackSize].
  change (ls ≫= _) with (enc_listing ls). set (rest := enc_listing ls).
  rewrite <-!app_assoc. cbn [parse_listing].
  set (data := put_be 2 _ ++ _).
  assert (Hlen : length data = 2 + length name + 8 + length rest) by (unfold data; len).
  assert (Hsz : get_be (take 2 data) = Z.of_nat (length name)).
  { unfold data. rewrite take_app_length' by (by rewrite length_put_be).
    apply get_put_be_small. simpl. lia. }
  rewrite bool_decide_eq_false_2 by (intros E; rewrite E in Hlen; simpl in Hlen; lia).
  rewrite Hsz, Nat2Z.id, !bool_decide_eq_false_2 by lia.
  rewrite !slice_ok by lia. cbn beta iota delta [mbind outcome_bind].
  replace (2 + length name - 2) with (length name) by lia.
  replace (10 + length name - (2 + length name)) with 8 by lia.
  rewrite (take_ge (drop (10 + length name) data)) by (rewrite length_drop; lia).
  assert (Hd2 : drop 2 data = name ++ put_be 8 sz ++ rest)
    by (unfold data; apply drop_app_length'; by rewrite length_put_be).
  assert (Hd3 : drop (2 + length name) data = put_be 8 sz ++ rest)
    by (rewrite <-drop_drop, Hd2; apply drop_app_length).
  assert (Hd4 : drop (10 + length name) data = rest).
  { replace (10 + length name) with (2 + length name + 8) by lia.
    rewrite <-drop_drop, Hd3. apply drop_app_length'. by rewrite length_put_be. }
  rewrite Hd2, take_app_length, Hd3, take_app_length' by (by rewrite length_put_be).
  rewrite Hd4. unfold rest. rewrite IH by (try done; simpl in Hf; lia).
  by rewrite get_put_be_small by (simpl; lia).
Qed.

Lemma enc_listing_length ls : length ls ≤ length (enc_listing ls).
Proof.
  induction ls as [|l ls IH]; [done|]. unfold enc_listing. rewrite bind_cons.
  change (ls ≫= _) with (enc_listing ls). rewrite !length_app, !length_put_be.
  cbn [length]. lia.
Qed.

(** Whatever the server sends is accepted or refused; the loop ends. *)
Lemma parse_listing_total fuel data :
  length data < fuel →
  match parse_listing fuel data with
  | Ok _ => True
  | Err e => e = ErrCorruptPackListing
  | _ => False
  end.
Proof.
  revert data. induction fuel as [|fuel IH]; intros data Hf; [lia|]. cbn [parse_listing].
  case_bool_decide as Hne; [done|]. case_bool_decide as H2; [done|].
  case_bool_decide as Hn; [done|]. rewrite !slice_ok by lia.
  cbn beta iota delta [mbind outcome_bind].
  set (rest := take _ (drop (10 + _) data)).
  assert (Hr : length rest < fuel) by (unfold rest; rewrite length_take, length_drop; lia).
  specialize (IH rest Hr). by destruct (parse_listing fuel rest).
Qed.

(** ** Theorems *)
Section Theorems.
Context {R : Type} `{RemoteClient R}.
Variable HMAC : bytes → bytes → bytes.

(** C32: [GetRoot] only accepts a root that the holder of the key signed: when it
    returns a hash, the server's signature is the key's signature of the 64
    hex digits and the version it returned, and the digits spell the hash. *)
Theorem remote_root_signed k r reply r1 h version :
  TGetRoot r = (Ok reply, r1) →
  GetRoot HMAC k r = (Ok (h, version, true), r1) →
  Signature reply = SignValue HMAC k (Value reply) version ∧ Version reply = version ∧
  ParseHash (Value reply) = Ok h ∧ length h = hash_len.
Proof.
  intros Hget. unfold GetRoot, mbind, M_bind. rewrite Hget.
  destruct (ReplyOk reply); simpl; [|done]. case_bool_decide as Hs; [done|]. unfold lift. destruct (ParseHash (Value reply)) as [h'| | |] eqn:Hp; try done.
  intros [= <- <-]. split_and!; try done. by eapply ParseHash_length.
Qed.

(** A server that remembers the root it was given. *)
Definition remembers_root : Prop :=
  ∀ value version sg epoch r r1,
    TCasRoot value version sg epoch r = (Ok true, r1) →
    ∃ r2, TGetRoot r1 = (Ok (mkRootReply value version sg true), r2).

(** the root that [CasRoot] sets is the root that [GetRoot] returns. *)
Theorem remote_root_roundtrip k newHash newVersion epoch r r1 :
  remembers_root → length newHash = hash_len →
  CasRoot HMAC k newHash newVersion epoch r = (Ok true, r1) →
  ∃ r2, GetRoot HMAC k r1 = (Ok (newHash, newVersion, true), r2).
Proof.
  intros Hsrv Hh Hcas. destruct (Hsrv _ _ _ _ _ _ Hcas) as [r2 Hget]. exists r2.
  unfold GetRoot, mbind, M_bind. rewrite Hget. simpl.
  rewrite bool_decide_eq_false_2 by (intros Hn; by apply Hn).
  unfold lift. by rewrite ParseHash_Encode.
Qed.

(** [ListPacks] returns exactly the packs the server lists, and for any other
    answer it returns or reports a corrupt listing: it never reads past the data
    and never loops. *)
Theorem remote_listpacks r data r1 :
  ReadDirFile (str "packs") r = (Ok data, r1) →
  (∀ ls, Forall valid_listing ls → data = enc_listing ls → ListPacks r = (Ok ls, r1)) ∧
  match ListPacks r with
  | (Ok _, r2) => r2 = r1
  | (Err e, r2) => e = ErrCorruptPackListing ∧ r2 = r1
  | _ => False
  end.
Proof.
  intros Hd. unfold ListPacks, mbind, M_bind, lift. rewrite Hd. split.
  - intros ls Hv ->. rewrite parse_enc_listing; [done|done|].
    transitivity (length (enc_listing ls)); [|lia]. apply enc_listing_length.
  - pose proof (parse_listing_total (S (length data)) data) as Ht.
    destruct (parse_listing _ data); try apply Ht; try done; try lia. split; [|done]. apply Ht. lia.
Qed.
End Theorems.

(** ** A server in memory *)
Module RemoteDemo.
Definition hmac (key msg : bytes) : bytes := take 4 (key ++ msg).

Record Server := mkServer { root_of : RootReply; listing_of : bytes }.

(** It keeps the root it is given and lists its packs. *)
#[local] Instance server_client : RemoteClient Server := {|
  ReadDirFile path := gets listing_of;
  TGetRoot := gets root_of;
  TCasRoot value version sg epoch :=
    modify (λ s, mkServer (mkRootReply value version sg true) (listing_of s));; mret true;
  TRemove path epoch := mret ();
  TGetEpoch := mret [];
  TStartGC := mret [];
  TStopGC := mret ();
|}.

Definition key : Key := mkKey (str "c") (str "h") (str "i").
Definition hash0 : hash := replicate 32 Byte.xab.
Definition listing : list PackListing := [mkListing (str "a.ebpack") 17; mkListing [] 0].
Definition server0 : Server := mkServer (mkRootReply [] [] [] false) (enc_listing listing).
Definition server1 : Server := (CasRoot hmac key hash0 (str "v1") [] server0).2.

Lemma remote_root_roundtrip_witness :
  ∃ r2, GetRoot hmac key server1 = (Ok (hash0, str "v1", true), r2).
Proof.
  apply (remote_root_roundtrip hmac key hash0 (str "v1") [] server0 server1).
  - intros value version sg epoch r r1 [= <-]. by eexists.
  - reflexivity.
  - reflexivity.
Defined.

Lemma remote_root_signed_witness :
  Signature (root_of server1) = SignValue hmac key (Value (root_of server1)) (str "v1") ∧
  Version (root_of server1) = str "v1" ∧
  ParseHash (Value (root_of server1)) = Ok hash0 ∧ length hash0 = hash_len.
Proof.
  apply (remote_root_signed hmac key server1 (root_of server1) server1 hash0 (str "v1")).
  - reflexivity.
  - vm_compute. reflexivity.
Defined.

Lemma remote_listpacks_witness :
  (∀ ls, Forall valid_listing ls → enc_listing listing = enc_listing ls →
         ListPacks server0 = (Ok ls, server0)) ∧
  match ListPacks server0 with
  | (Ok _, r2) => r2 = server0
  | (Err e, r2) => e = ErrCorruptPackListing ∧ r2 = server0
  | _ => False
  end.
Proof. apply (remote_listpacks server0 (enc_listing listing) server0). reflexivity. Defined.
End RemoteDemo.
