(* ===== verification/Packs.v ===== *)
(** What the garbage collector and the content store see of the packs.

    [PackClient] has the calls the two make on packs: the calls of
    remote/client/client.go that name a pack, composed with the constructors and
    methods of bpack as the callers compose them.  Open packs are handles.
    [PackLaws] states what the calls promise in terms of a [view]: the packs that
    the server keeps, those being written and those being read.  A pack is the
    list of its entries in the order in which they were added; [layout] gives the
    index entries of such a list.

    An error may come before or after the server has acted, so the laws leave
    both possibilities open.  They take a call that fails to return an error.  That is not all of
    the program's behaviour: a read error of the connection at an offset inside a block of the
    cipher makes the reader of cryptofile panic ([Cryptofile], cryptofile_read_error_panics), which ends
    the client; what is proved over these laws is about runs in which this does not happen. *)

From Stdlib Require Import ZArith Lia.
From stdpp Require Import base list gmap strings sorting.
From S2P Require Import Prelude Store Io Bpack Remote.

Set Default Goal Selector "!".

(** ** Packs *)

Abbreviation pack := (list (bytes * bytes)) (only parsing).

Definition pack_data (p : pack) : bytes := concat p.*2.

(** The index entries of the values laid out from [off] on. *)
Fixpoint layout (off : Z) (p : pack) : Index :=
  match p with
  | [] => []
  | (k, v) :: p =>
    let n := Z.of_nat (length v) in mkEnt k n off :: layout (off + n) p
  end.

(** [bpack.Writer.Add] keeps the first value of a key. *)
Definition add_entry (p : pack) (k v : bytes) : pack :=
  if bool_decide (k ∈ p.*1) then p else p ++ [(k, v)].

(** [path.Join("packs", name)] for a name that is a single path element ([path_Join_packs] of
    ArchiveProps): the names are those of a directory listing, and hexadecimal digits with a
    suffix. *)
Definition pack_path (name : bytes) : bytes := str "packs/" ++ name.

(** ** The calls *)

Class PackClient (R : Type) := {
  #[global] pc_client :: RemoteClient R;
  (** [bpy.RandomFileName] *)
  RandomFileName : M R bytes;
  (** [Client.NewPack], a [BufferedWriteCloser], [bpack.NewEncryptedWriter] *)
  NewPack : bytes → M R nat;
  (** [bpack.Writer.Add] and [bpack.Writer.Close] *)
  pack_Add : nat → bytes → bytes → M R unit;
  pack_Close : nat → M R Index;
  (** [Client.Open], [bpack.NewEncryptedReader] *)
  OpenPack : bytes → Z → M R nat;
  (** [bpack.Reader.ReadIndex], [GetAt] and [Close] *)
  pack_ReadIndex : nat → M R Index;
  pack_GetAt : nat → Z → Z → M R bytes;
  pack_CloseReader : nat → M R unit;
}.

(** ** What they promise *)

Record view := mkView {
  packs : gmap bytes pack;
  writers : gmap nat (bytes * pack);
  readers : gmap nat pack;
}.

(** The server lists every pack once, under its size. *)
Definition lists_packs (size_of : pack → Z) (ls : list PackListing) (m : gmap bytes pack) : Prop :=
  NoDup (pack_path ∘ PackName <$> ls) ∧
  (∀ p, p ∈ dom m → p ∈ pack_path ∘ PackName <$> ls) ∧
  Forall (λ l, ∃ p, m !! pack_path (PackName l) = Some p ∧ PackSize l = size_of p) ls.

Class PackLaws (R : Type) `{PackClient R} := {
  view_of : R → view;
  stored_size : pack → Z;
  remote_fails : error → Prop;
  unchanged (r : R) (e : error) (r' : R) : Prop := remote_fails e ∧ view_of r' = view_of r;
  ReadDirFile_law r :
    wp (ReadDirFile (str "packs"))
      (λ d r', view_of r' = view_of r ∧ ∃ ls, d = enc_listing ls ∧ Forall valid_listing ls ∧
               lists_packs stored_size ls (packs (view_of r)))
      (unchanged r) r;
  RandomFileName_law r : wp RandomFileName (λ _ r', view_of r' = view_of r) (unchanged r) r;
  TGetRoot_law r : wp TGetRoot (λ _ r', view_of r' = view_of r) (unchanged r) r;
  TStartGC_law r : wp TStartGC (λ _ r', view_of r' = view_of r) (unchanged r) r;
  TStopGC_law r : wp TStopGC (λ _ r', view_of r' = view_of r) (unchanged r) r;
  TRemove_law r path epoch :
    let after := mkView (delete path (packs (view_of r))) (writers (view_of r)) (readers (view_of r)) in
    wp (TRemove path epoch) (λ _ r', view_of r' = after)
      (λ e r', remote_fails e ∧ (view_of r' = view_of r ∨ view_of r' = after)) r;
  NewPack_law r path :
    wp (NewPack path)
      (λ w r', packs (view_of r) !! path = None ∧ writers (view_of r) !! w = None ∧
               view_of r' = mkView (packs (view_of r)) (<[w := (path, [])]> (writers (view_of r)))
                                   (readers (view_of r)))
      (unchanged r) r;
  pack_Add_law r w path p k v :
    writers (view_of r) !! w = Some (path, p) →
    wp (pack_Add w k v)
      (λ _ r', view_of r' = mkView (packs (view_of r))
                 (<[w := (path, add_entry p k v)]> (writers (view_of r))) (readers (view_of r)))
      (λ e r', remote_fails e ∧ packs (view_of r') = packs (view_of r) ∧
               readers (view_of r') = readers (view_of r)) r;
  pack_Close_law r w path p :
    writers (view_of r) !! w = Some (path, p) →
    let after := mkView (<[path := p]> (packs (view_of r))) (delete w (writers (view_of r)))
                        (readers (view_of r)) in
    wp (pack_Close w)
      (λ idx r', idx = sort_index (layout 0 p) ∧ view_of r' = after)
      (λ e r', remote_fails e ∧ readers (view_of r') = readers (view_of r) ∧
               (packs (view_of r') = packs (view_of r) ∨ packs (view_of r') = packs after)) r;
  OpenPack_law r path p sz :
    packs (view_of r) !! path = Some p → sz = stored_size p →
    wp (OpenPack path sz)
      (λ f r', readers (view_of r) !! f = None ∧
               view_of r' = mkView (packs (view_of r)) (writers (view_of r))
                                   (<[f := p]> (readers (view_of r))))
      (unchanged r) r;
  pack_ReadIndex_law r f p :
    readers (view_of r) !! f = Some p →
    wp (pack_ReadIndex f) (λ idx r', idx = sort_index (layout 0 p) ∧ view_of r' = view_of r)
      (unchanged r) r;
  pack_GetAt_law r f p off n :
    readers (view_of r) !! f = Some p → off + n ≤ length (pack_data p) →
    wp (pack_GetAt f (Z.of_nat off) (Z.of_nat n))
      (λ b r', b = take n (drop off (pack_data p)) ∧ view_of r' = view_of r)
      (unchanged r) r;
  pack_CloseReader_law r f :
    let after := mkView (packs (view_of r)) (writers (view_of r)) (delete f (readers (view_of r))) in
    wp (pack_CloseReader f) (λ _ r', view_of r' = after)
      (λ e r', remote_fails e ∧ (view_of r' = view_of r ∨ view_of r' = after)) r;
}.

(** ** Layouts *)

Lemma layout_keys p : ∀ off, Bpack.Key <$> layout off p = p.*1.
Proof. induction p as [|[k v] p IH]; intros off; simpl; [done|]. by rewrite IH. Qed.

Lemma length_layout p off : length (layout off p) = length p.
Proof. revert off. induction p as [|[k v] p IH]; intros off; simpl; [done|]. by rewrite IH. Qed.

Lemma layout_app p q : ∀ off,
  layout off (p ++ q) = layout off p ++ layout (off + Z.of_nat (length (pack_data p))) q.
Proof.
  induction p as [|[k v] p IH]; intros off; simpl.
  - by rewrite Z.add_0_r.
  - rewrite IH. unfold pack_data. simpl. by rewrite length_app, Nat2Z.inj_add, Z.add_assoc.
Qed.

Lemma pack_data_app p q : pack_data (p ++ q) = pack_data p ++ pack_data q.
Proof. unfold pack_data. by rewrite fmap_app, concat_app. Qed.

Lemma pack_data_cons k v p : pack_data ((k, v) :: p) = v ++ pack_data p.
Proof. done. Qed.

(** [remote.ListPacks] on such a server. *)
Lemma wp_ListPacks {R : Type} `{PackLaws R} r :
  wp ListPacks
    (λ ls r', view_of r' = view_of r ∧ lists_packs stored_size ls (packs (view_of r)))
    (unchanged r) r.
Proof.
  unfold ListPacks. wp_step. eapply wp_mono; [apply ReadDirFile_law| |done]. cbn beta.
  intros d r' (Hv & ls & -> & Hvl & Hls).
  eapply wp_lift_ok; [|split; [exact Hv|exact Hls]].
  apply parse_enc_listing; [done|]. pose proof (enc_listing_length ls). lia.
Qed.
