(* ===== verification/PacksMem.v ===== *)
(** A remote in memory that keeps the laws of [PackLaws]: the packs, the open
    packs and the root are fields, and nothing fails except what must. *)

From Stdlib Require Import ZArith Lia.
From stdpp Require Import base list gmap strings sorting.
From S2P Require Import Prelude Store Io Bpack Remote Packs.

Set Default Goal Selector "!".

Record MemRemote := mkMem { m_view : view; m_next : nat; m_root : RootReply }.

Definition m_set (v : view) (m : MemRemote) : MemRemote := mkMem v (S (m_next m)) (m_root m).

Definition refused : error := ENew "refused".

(** The name of a pack from its path. *)
Definition pack_name (path : bytes) : bytes := drop 6 path.

Definition listable (path : bytes) : bool :=
  bool_decide (path = pack_path (pack_name path)) &&
  bool_decide (Z.of_nat (length (pack_name path)) < 2 ^ 16)%Z.

Definition mem_size (p : pack) : Z := u64 (Z.of_nat (length (pack_data p))).

Definition mem_list (m : gmap bytes pack) : list PackListing :=
  (λ kp, mkListing (pack_name kp.1) (mem_size kp.2)) <$> map_to_list m.


#[local] Instance mem_client : RemoteClient MemRemote := {|
  ReadDirFile path :=
    m ← get;
    if forallb listable (map_to_list (packs (m_view m))).*1
    then mret (enc_listing (mem_list (packs (m_view m)))) else throw refused;
  TGetRoot := gets m_root;
  TCasRoot value version sg epoch :=
    modify (λ m, mkMem (m_view m) (m_next m) (mkRootReply value version sg true));; mret true;
  TRemove path epoch :=
    modify (λ m, m_set (mkView (delete path (packs (m_view m))) (writers (m_view m)) (readers (m_view m))) m);
  TGetEpoch := mret [];
  TStartGC := mret (str "epoch");
  TStopGC := mret ();
|}.

#[local] Instance mem_packs : PackClient MemRemote := {|
  pc_client := mem_client;
  RandomFileName := m ← get; modify (m_set (m_view m));; mret (EncodeToString (put_be 8 (Z.of_nat (m_next m))));
  NewPack path :=
    m ← get;
    match packs (m_view m) !! path, writers (m_view m) !! m_next m with
    | None, None =>
      modify (m_set (mkView (packs (m_view m)) (<[m_next m := (path, [])]> (writers (m_view m)))
                            (readers (m_view m))));;
      mret (m_next m)
    | _, _ => throw refused
    end;
  pack_Add w k v :=
    m ← get;
    match writers (m_view m) !! w with
    | Some (path, p) =>
      modify (m_set (mkView (packs (m_view m)) (<[w := (path, add_entry p k v)]> (writers (m_view m)))
                            (readers (m_view m))))
    | None => throw refused
    end;
  pack_Close w :=
    m ← get;
    match writers (m_view m) !! w with
    | Some (path, p) =>
      modify (m_set (mkView (<[path := p]> (packs (m_view m))) (delete w (writers (m_view m)))
                            (readers (m_view m))));;
      mret (sort_index (layout 0 p))
    | None => throw refused
    end;
  OpenPack path size :=
    m ← get;
    match packs (m_view m) !! path, readers (m_view m) !! m_next m with
    | Some p, None =>
      modify (m_set (mkView (packs (m_view m)) (writers (m_view m)) (<[m_next m := p]> (readers (m_view m)))));;
      mret (m_next m)
    | _, _ => throw refused
    end;
  pack_ReadIndex f :=
    m ← get;
    match readers (m_view m) !! f with
    | Some p => mret (sort_index (layout 0 p)) | None => throw refused end;
  pack_GetAt f off n :=
    m ← get;
    match readers (m_view m) !! f with
    | Some p => mret (take (Z.to_nat n) (drop (Z.to_nat off) (pack_data p))) | None => throw refused end;
  pack_CloseReader f :=
    modify (λ m, m_set (mkView (packs (m_view m)) (writers (m_view m)) (delete f (readers (m_view m)))) m);
|}.

Lemma mem_list_ok (m : gmap bytes pack) :
  forallb listable (map_to_list m).*1 = true →
  Forall valid_listing (mem_list m) ∧ lists_packs mem_size (mem_list m) m.
Proof.
  intros Hl. rewrite forallb_forall in Hl.
  assert (Hk : ∀ path p, m !! path = Some p →
    path = pack_path (pack_name path) ∧ (Z.of_nat (length (pack_name path)) < 2 ^ 16)%Z).
  { intros path p Hp. specialize (Hl path). unfold listable in Hl.
    rewrite andb_true_iff, !bool_decide_eq_true in Hl. apply Hl. apply list_elem_of_In, list_elem_of_fmap.
    exists (path, p). split; [done|]. by apply elem_of_map_to_list. }
  assert (Hpaths : pack_path ∘ PackName <$> mem_list m = (map_to_list m).*1).
  { unfold mem_list. rewrite <-list_fmap_compose. apply list_fmap_ext. intros i [path p] Hi. simpl.
    apply list_elem_of_lookup_2, elem_of_map_to_list in Hi. symmetry. by eapply Hk. }
  unfold lists_packs. rewrite Hpaths. split; [|split; [|split]].
  - apply Forall_fmap, Forall_forall. intros [path p] Hin%elem_of_map_to_list. split; simpl.
    + by eapply Hk.
    + apply wrap_range. lia.
  - apply NoDup_fst_map_to_list.
  - intros path Hp. apply elem_of_dom in Hp as [p Hp]. apply list_elem_of_fmap.
    exists (path, p). by rewrite elem_of_map_to_list.
  - apply Forall_fmap, Forall_forall. intros [path p] Hin%elem_of_map_to_list. exists p. simpl.
    destruct (Hk path p Hin) as [<- _]. done.
Qed.

#[local] Program Instance mem_laws : PackLaws MemRemote := {|
  view_of := m_view;
  stored_size := mem_size;
  remote_fails e := e = refused;
|}.
Next Obligation.
  intros m. simpl. wp_steps. destruct (forallb _ _) eqn:E; wp_steps; [|done].
  split; [done|]. exists (mem_list (packs (m_view m))). split; [done|]. by apply mem_list_ok.
Qed.
Next Obligation. done. Qed.
Next Obligation. done. Qed.
Next Obligation. done. Qed.
Next Obligation. done. Qed.
Next Obligation. done. Qed.
Next Obligation.
  intros m path. simpl. wp_steps.
  destruct (packs (m_view m) !! path) eqn:?; [by wp_steps|].
  destruct (writers (m_view m) !! m_next m) eqn:?; by wp_steps.
Qed.
Next Obligation. intros m w path p k v Hw. simpl. wp_steps. rewrite Hw. by wp_steps. Qed.
Next Obligation. intros m w path p Hw. simpl. wp_steps. rewrite Hw. by wp_steps. Qed.
Next Obligation.
  intros m path p size Hp _. simpl. wp_steps. rewrite Hp.
  destruct (readers (m_view m) !! m_next m) eqn:?; by wp_steps.
Qed.
Next Obligation. intros m f p Hf. simpl. wp_steps. rewrite Hf. by wp_steps. Qed.
Next Obligation. intros m f p off n Hf _. simpl. wp_steps. rewrite Hf. wp_steps. by rewrite !Nat2Z.id. Qed.
Next Obligation. done. Qed.
