(* ===== verification/Gc.v ===== *)
(** The garbage collector, gc/gc.go.

    [GC] marks every block that can be reached from the root and then sweeps the
    packs: what is marked is copied into new packs, each block once, and the old
    packs are removed, but only after the new ones are closed.

    The store that marking reads, the remote that sweeping rewrites and the cache
    are separate parts of the state; in the program the store and the sweeper
    talk to the same server, and the store is closed before sweeping starts. *)

From Stdlib Require Import ZArith Lia.
From stdpp Require Import base list gmap sets strings sorting.
From coqutil Require Import Byte.
From S2P Require Import Prelude Store Io Htree HtreeProps Bpack Cache CacheClient Fs Refs Remote Packs.

Set Default Goal Selector "!".

Section Gc.
Context {P : Params} {St : Type} `{CStore St} {R : Type} `{PackClient R} {Ca : Type} `{RawCache Ca}.
(** [ReadAll]'s buffers and fuel, and [crypto/hmac]. *)
Variables (sz : nat → nat) (fuel : nat).
Variable HMAC : bytes → bytes → bytes.

Record gcState := mkGc {
  epoch : bytes;
  k : Key;
  c : R;
  store : St;
  cache : option Ca;
  visited : gset hash;
  newPackSize : Z;
  newPack : option nat;
  moved : gset hash;
  canDelete : list bytes;
}.

Definition set_c r g := mkGc (epoch g) (k g) r (store g) (cache g) (visited g) (newPackSize g) (newPack g) (moved g) (canDelete g).
Definition set_store s g := mkGc (epoch g) (k g) (c g) s (cache g) (visited g) (newPackSize g) (newPack g) (moved g) (canDelete g).
Definition set_cache ca g := mkGc (epoch g) (k g) (c g) (store g) ca (visited g) (newPackSize g) (newPack g) (moved g) (canDelete g).
Definition set_visited v g := mkGc (epoch g) (k g) (c g) (store g) (cache g) v (newPackSize g) (newPack g) (moved g) (canDelete g).
Definition set_newPack n w g := mkGc (epoch g) (k g) (c g) (store g) (cache g) (visited g) n w (moved g) (canDelete g).
Definition set_moved m g := mkGc (epoch g) (k g) (c g) (store g) (cache g) (visited g) (newPackSize g) (newPack g) m (canDelete g).
Definition set_canDelete l g := mkGc (epoch g) (k g) (c g) (store g) (cache g) (visited g) (newPackSize g) (newPack g) (moved g) l.

Definition on_c {A} : M R A → M gcState A := zoom c set_c.
Definition on_store {A} : M St A → M gcState A := zoom store set_store.

(** ** Marking *)

Definition visit (h : hash) : M gcState unit := modify (λ g, set_visited ({[h]} ∪ visited g) g).
Definition is_visited (h : hash) : M gcState bool := gets (λ g, bool_decide (h ∈ visited g)).

(** [for i := 1; i < len(data); i += 40 { hash := data[i+8:i+40]; ... }]: the
    hashes of the entries; a trailing part of an entry panics. *)
Fixpoint for_entries (n : nat) (data : bytes) (i : nat) (body : hash → M gcState unit) : M gcState unit :=
  match n with
  | O => diverge
  | S n =>
    if bool_decide (length data ≤ i) then mret ()
    else
      h ← lift (slice data (i + 8) (i + 40));
      body h;;
      for_entries n data (i + 40) body
  end.

(** [depth] bounds the height of the tree. *)
Fixpoint markHTree (depth : nat) (root : hash) : M gcState unit :=
  match depth with
  | O => diverge
  | S depth =>
    ok ← is_visited root;
    if ok : bool then mret ()
    else
      data ← on_store (Store.Get root);
      tag ← lift (idx data 0);
      if bool_decide (tag = b0) then visit root
      else
        for_entries (S (length data)) data 1 (λ h,
          (if bool_decide (tag = Byte.x01) then visit h else mret ());;
          markHTree depth h);;
        visit root
  end.

(** The body of the loop of [markFsDir], [mark_dir] being the recursive call. *)
Definition mark_ent (depth : nat) (mark_dir : hash → M gcState unit) (e : DirEnt) : M gcState unit :=
  (if IsDir e then mark_dir (Data (EntHTree e)) else mret ());;
  if bool_decide (Depth (EntHTree e) = 0) then visit (Data (EntHTree e))
  else markHTree depth (Data (EntHTree e)).

Fixpoint mark_ents (depth : nat) (mark_dir : hash → M gcState unit) (es : list DirEnt) : M gcState unit :=
  match es with
  | [] => mret ()
  | e :: es => mark_ent depth mark_dir e;; mark_ents depth mark_dir es
  end.

(** [n] bounds the nesting of directories. *)
Fixpoint markFsDir (depth n : nat) (root : hash) : M gcState unit :=
  match n with
  | O => diverge
  | S n =>
    markHTree depth root;;
    dirEnts ← on_store (ReadDir sz fuel root);
    es ← lift (slice dirEnts 1 (length dirEnts));
    mark_ents depth (markFsDir depth n) es
  end.

(** [m] bounds the number of versions. *)
Fixpoint markRef (depth n m : nat) (h : hash) : M gcState unit :=
  match m with
  | O => diverge
  | S m =>
    markHTree depth h;;
    ref ← on_store (GetRef sz fuel h);
    markFsDir depth n (Root ref);;
    if HasPrev ref then markRef depth n m (Prev ref) else mret ()
  end.

(** ** Sweeping *)

Fixpoint remove_all (paths : list bytes) : M gcState unit :=
  match paths with
  | [] => mret ()
  | p :: paths => g ← get; on_c (Remove p (epoch g));; remove_all paths
  end.

Definition closeCurrentWriterAndDeleteOldPacks : M gcState unit :=
  g ← get;
  match newPack g with
  | Some w => _ ← on_c (pack_Close w); mret ()
  | None => mret ()
  end;;
  modify (set_newPack 0 None);;
  remove_all (canDelete g);;
  modify (set_canDelete []).

(** 128 MiB *)
Definition max_pack : Z := 134217728.

Definition putValue (h : hash) (val : bytes) : M gcState unit :=
  g ← get;
  if bool_decide (h ∈ moved g) then mret ()
  else
    (if bool_decide (u64 (newPackSize g + Z.of_nat (length val) + Z.of_nat (length h)) > max_pack)%Z
     then closeCurrentWriterAndDeleteOldPacks else mret ());;
    g ← get;
    match newPack g with
    | Some _ => mret ()
    | None =>
      name ← on_c RandomFileName;
      w ← on_c (NewPack (pack_path name ++ str ".ebpack"));
      modify (λ g, set_newPack (newPackSize g) (Some w) g)
    end;;
    g ← get;
    match newPack g with
    | None => panic
    | Some w => on_c (pack_Add w h val)
    end;;
    modify (λ g, set_newPack (u64 (newPackSize g + Z.of_nat (length h) + Z.of_nat (length val)))
                             (newPack g) g);;
    modify (λ g, set_moved ({[h]} ∪ moved g) g).

(** [sort.Sort(offsetSortedIdx(idx))] *)
Definition off_le (a b : IndexEnt) : Prop := ¬ (Offset b < Offset a)%Z.
#[local] Instance off_le_dec : RelDecision off_le.
Proof. intros a b. unfold off_le. apply _. Defined.
Definition sort_offsets (ents : Index) : Index := merge_sort off_le ents.

(** A pack above 100 MiB whose entries are all marked and none moved is left
    alone. *)
Definition skip_size : Z := 104857600.

Definition can_skip (g : gcState) (ents : Index) : bool :=
  forallb (λ e, bool_decide (copy_key (Bpack.Key e) ∈ visited g) &&
                negb (bool_decide (copy_key (Bpack.Key e) ∈ moved g))) ents.

(** The inner loop that collects a run of entries to fetch, its size in 32 bits,
    and the entries behind it.  The array [hash] is overwritten by each key. *)
Fixpoint take_run (g : gcState) (h : hash) (ents : Index) (runSize : Z) : Index * Z * Index :=
  match ents with
  | [] => ([], runSize, [])
  | e :: rest =>
    let h := splice h 0 (Bpack.Key e) in
    if bool_decide (h ∉ visited g) then ([], runSize, ents)
    else if bool_decide (h ∈ moved g) then ([], runSize, ents)
    else
      let '(run, size, rest) := take_run g h rest (u32 (runSize + Size e)) in
      (e :: run, size, rest)
  end.

Definition cache_put (h : hash) (val : bytes) : M gcState unit :=
  g ← get;
  match cache g with
  | None => mret ()
  | Some ca => zoom (λ _, ca) (λ ca g, set_cache (Some ca) g) (PutRaw h val)
  end.

Definition cache_get (h : hash) : M gcState (bytes * bool) :=
  g ← get;
  match cache g with
  | None => mret ([], false)
  | Some ca => zoom (λ _, ca) (λ ca g, set_cache (Some ca) g) (GetRaw h)
  end.

(** Cut the data of a run into its values. *)
Fixpoint move_run (run : Index) (runData : bytes) : M gcState unit :=
  match run with
  | [] => mret ()
  | e :: run =>
    let h := copy_key (Bpack.Key e) in
    val ← lift (slice runData 0 (Z.to_nat (Size e)));
    runData ← lift (slice runData (Z.to_nat (Size e)) (length runData));
    putValue h val;;
    cache_put h val;;
    move_run run runData
  end.

(** The outer loop; the entry at which a run stopped is passed over. *)
Fixpoint sweep_ents (n : nat) (f : nat) (ents : Index) : M gcState unit :=
  match ents, n with
  | [], _ => mret ()
  | _, O => diverge
  | e :: rest, S n =>
    let h := copy_key (Bpack.Key e) in
    g ← get;
    if bool_decide (h ∉ visited g) then sweep_ents n f rest
    else if bool_decide (h ∈ moved g) then sweep_ents n f rest
    else
      '(val, ok) ← cache_get h;
      if ok : bool then putValue h val;; sweep_ents n f rest
      else
        g ← get;
        let '(run, runSize, rest) := take_run g h ents 0 in
        match run with
        | [] => sweep_ents n f (tail rest)
        | e0 :: _ =>
          runData ← on_c (pack_GetAt f (Offset e0) runSize);
          move_run run runData;;
          sweep_ents n f (tail rest)
        end
  end.

Definition sweep_open (pack : PackListing) (packPath : bytes) (f : nat) : M gcState unit :=
  ents ← on_c (pack_ReadIndex f);
  let ents := sort_offsets ents in
  g ← get;
  if bool_decide (PackSize pack > skip_size)%Z && can_skip g ents then
    modify (λ g, set_moved (list_to_set ((λ e, copy_key (Bpack.Key e)) <$> ents) ∪ moved g) g)
  else
    sweep_ents (S (length ents)) f ents;;
    modify (λ g, set_canDelete (canDelete g ++ [packPath]) g).

Definition sweepPack (pack : PackListing) : M gcState unit :=
  let packPath := pack_path (PackName pack) in
  f ← on_c (OpenPack packPath (PackSize pack));
  deferred (sweep_open pack packPath f) (on_c (pack_CloseReader f)).

Fixpoint sweep_packs (packs : list PackListing) : M gcState unit :=
  match packs with
  | [] => mret ()
  | pack :: packs => sweepPack pack;; sweep_packs packs
  end.

Definition sweep : M gcState unit :=
  packs ← on_c ListPacks;
  sweep_packs packs;;
  closeCurrentWriterAndDeleteOldPacks.

(** ** Collecting *)

Definition root_missing : error := ENew "root missing".

(** The state that [GC] makes from its arguments. *)
Definition new_gc (key : Key) (r : R) (s : St) (ca : option Ca) : gcState :=
  mkGc [] key r s ca ∅ 0 None ∅ [].

Definition GC (depth n m : nat) : M gcState unit :=
  ep ← on_c StartGC;
  modify (λ g, mkGc ep (k g) (c g) (store g) (cache g) ∅ 0 None ∅ []);;
  g ← get;
  '(h, _, ok) ← on_c (GetRoot HMAC (k g));
  if negb ok then throw root_missing
  else
    markRef depth n m h;;
    on_store Store.Close;;
    sweep;;
    on_c StopGC.
End Gc.
