(* ===== verification/GcSweep.v ===== *)
(** The sweep phase loses nothing.

    [swept] is the invariant of the phase: it relates the packs the server has
    now to the packs [m0] it had at the start and to the marked blocks [live].
    At every step, and so also when an operation fails half-way, each marked block
    that was stored at the start is still stored; at the end nothing else is. *)

From Stdlib Require Import ZArith Lia.
From stdpp Require Import base list gmap sets strings sorting.
From S2P Require Import Prelude Store Io Htree HtreeProps Bpack Cache CacheProps CacheClient Fs Refs Remote Packs Gc.

Set Default Goal Selector "!".

(** Some pack of [m] has an entry for [h]. *)
Definition stored (m : gmap bytes pack) (h : hash) : Prop :=
  ∃ path p, m !! path = Some p ∧ h ∈ p.*1.

(** Some pack of [m] has the value [v] for [h]. *)
Definition held (m : gmap bytes pack) (h : hash) (v : bytes) : Prop :=
  ∃ path p, m !! path = Some p ∧ (h, v) ∈ p.

Lemma stored_held m h : stored m h ↔ ∃ v, held m h v.
Proof.
  split.
  - intros (path & p & Hp & ([k v] & -> & Hkv)%list_elem_of_fmap). by exists v, path, p.
  - intros (v & path & p & Hp & Hkv). exists path, p. split; [done|]. by apply (list_elem_of_fmap_2 fst _ (h, v)).
Qed.

(** What a pack of a server is: distinct 32-byte keys, values that are not empty, a size in 32
    bits. *)
Definition sound_pack (p : pack) : Prop :=
  NoDup p.*1 ∧ Forall (λ kv, length kv.1 = hash_len ∧ kv.2 ≠ []) p ∧ (Z.of_nat (length (pack_data p)) < 2 ^ 32)%Z.

Definition drop_packs (D : list bytes) (m : gmap bytes pack) : gmap bytes pack :=
  filter (λ kv, kv.1 ∉ D) m.

Section Sweep.
Context {P : Params} {St : Type} `{CStore St} {R : Type} `{PackLaws R}.
Context (good : hash → bytes → Prop) {Ca : Type} `{RawCacheLaws Ca good}.
(** No raw value is empty. *)
Context (good_nonempty : ∀ h v, good h v → v ≠ []).
Context (m0 : gmap bytes pack) (live : gset hash).
Abbreviation gcState := (gcState (St := St) (R := R) (Ca := Ca)).
Implicit Types (g : gcState) (vw : view) (todo cd : list bytes) (mv : gset hash).

Definition good_pack (p : pack) : Prop := Forall (λ kv, good kv.1 kv.2) p.

(** What sweeping needs of a pack: distinct 32-byte keys and a size in 32 bits. *)
Definition sweepable (p : pack) : Prop :=
  NoDup p.*1 ∧ Forall (λ key, length key = hash_len) p.*1 ∧ good_pack p ∧
  (Z.of_nat (length (pack_data p)) < 2 ^ 32)%Z.

(** The pack being written. *)
Definition open_pack vw (np : option nat) : option (bytes * pack) := np ≫= λ w, writers vw !! w.

Record swept vw (np : option nat) mv cd todo : Prop := mkSwept {
  (* a pack being written is not yet on the server *)
  sw_open : is_Some np → ∃ path p, open_pack vw np = Some (path, p) ∧
              packs vw !! path = None ∧ good_pack p ∧
              ∀ h, h ∈ p.*1 → h ∈ live ∧ stored m0 h;
  (* packs to be deleted and packs to be swept are there, and distinct *)
  sw_cd : ∀ path, path ∈ cd → is_Some (packs vw !! path) ∧ path ∉ todo;
  sw_todo : ∀ path, path ∈ todo → packs vw !! path = m0 !! path ∧ is_Some (m0 !! path);
  (* what was moved is in a pack that stays *)
  sw_moved : ∀ h, h ∈ mv →
              (∃ path p, open_pack vw np = Some (path, p) ∧ h ∈ p.*1) ∨
              (∃ path p, packs vw !! path = Some p ∧ path ∉ cd ∧ path ∉ todo ∧ h ∈ p.*1);
  (* a pack to be deleted has nothing left to move *)
  sw_done : ∀ path p h, path ∈ cd → packs vw !! path = Some p → h ∈ p.*1 → h ∈ live → h ∈ mv;
  sw_good : ∀ path p, packs vw !! path = Some p → good_pack p;
  sw_live : ∀ h, h ∈ live → stored m0 h → stored (packs vw) h;
  sw_kept : ∀ path p h, packs vw !! path = Some p → h ∈ p.*1 →
              stored m0 h ∧ (h ∈ live ∨ path ∈ cd ∨ path ∈ todo);
}.

(** No marked block is lost, and every value is one of its block. *)
Definition safe vw : Prop :=
  (∀ h, h ∈ live → stored m0 h → stored (packs vw) h) ∧
  ∀ path p, packs vw !! path = Some p → good_pack p.

Lemma swept_safe vw np mv cd todo : swept vw np mv cd todo → safe vw.
Proof. intros [? ? ? ? ? ? ? ?]. by split. Qed.

Lemma stored_insert m path p h :
  m !! path = None → stored m h → stored (<[path := p]> m) h.
Proof.
  intros Hn (path' & p' & Hp & Hh). exists path', p'. split; [|done].
  rewrite lookup_insert_ne; [done|]. congruence.
Qed.

(** Only packs matter for [safe]. *)
Lemma safe_packs vw vw' : packs vw' = packs vw → safe vw → safe vw'.
Proof. unfold safe. by intros ->. Qed.

(** *** Closing the new pack *)

Lemma swept_close vw w mv cd todo path p :
  swept vw (Some w) mv cd todo → writers vw !! w = Some (path, p) →
  swept (mkView (<[path := p]> (packs vw)) (delete w (writers vw)) (readers vw)) None mv cd todo.
Proof.
  intros [Hop Hcd Htd Hmv Hdn Hgd Hlv Hkp] Hw. unfold open_pack in *. simpl in *. rewrite Hw in *.
  destruct Hop as (path' & p' & [= <- <-] & Hnone & Hgp & Hall); [done|].
  assert (Hncd : path ∉ cd) by (intros Hin; destruct (Hcd _ Hin) as [[? ?] _]; congruence).
  assert (Hntd : path ∉ todo) by (intros Hin; destruct (Htd _ Hin) as [Heq [? ?]]; congruence).
  assert (Hold : ∀ q, q ∈ cd ∨ q ∈ todo → q ≠ path) by (intros q [?|?] ->; done).
  split; simpl.
  - by intros [].
  - intros q Hq. rewrite lookup_insert_ne by (symmetry; auto). auto.
  - intros q Hq. rewrite lookup_insert_ne by (symmetry; auto). auto.
  - intros h Hh. right. destruct (Hmv h Hh) as [(path1 & p1 & [= <- <-] & Hin)|(path1 & p1 & Hp1 & ? & ? & ?)].
    + exists path, p. by rewrite lookup_insert_eq.
    + exists path1, p1. rewrite lookup_insert_ne by congruence. done.
  - intros q p1 h Hq. rewrite lookup_insert_ne by (symmetry; auto). by apply Hdn.
  - intros q p1. destruct (decide (q = path)) as [->|].
    + rewrite lookup_insert_eq. by intros [= <-].
    + rewrite lookup_insert_ne by done. apply Hgd.
  - intros h Hh Hs. apply stored_insert; auto.
  - intros q p1 h. destruct (decide (q = path)) as [->|].
    + rewrite lookup_insert_eq. intros [= <-] Hin. destruct (Hall h Hin). auto.
    + rewrite lookup_insert_ne by done. apply Hkp.
Qed.

(** *** Deleting the old packs *)

Lemma drop_packs_lookup D m path p :
  drop_packs D m !! path = Some p ↔ m !! path = Some p ∧ path ∉ D.
Proof. unfold drop_packs. by rewrite map_lookup_filter_Some. Qed.

Lemma drop_safe vw mv cd todo D vw' :
  swept vw None mv cd todo → (∀ path, path ∈ D → path ∈ cd) →
  packs vw' = drop_packs D (packs vw) → safe vw'.
Proof.
  intros [_ Hcd Htd Hmv Hdn Hgd Hlv Hkp] HD Heq. unfold safe. rewrite Heq. split.
  - intros h Hh Hs. destruct (Hlv h Hh Hs) as (path & p & Hp & Hin).
    destruct (decide (path ∈ D)) as [Hd|Hd].
    + destruct (Hmv h) as [(? & ? & [=] & _)|(path1 & p1 & Hp1 & Hn & _ & Hin1)]; [by eapply Hdn; eauto|].
      exists path1, p1. split; [|done]. apply drop_packs_lookup. auto.
    + exists path, p. split; [|done]. by apply drop_packs_lookup.
  - intros path p [Hp _]%drop_packs_lookup. by eapply Hgd.
Qed.

Lemma drop_swept vw mv cd todo vw' :
  swept vw None mv cd todo → packs vw' = drop_packs cd (packs vw) →
  swept vw' None mv [] todo.
Proof.
  intros Hsw Heq. pose proof (drop_safe _ _ _ _ cd vw' Hsw ltac:(done) Heq) as [Hs1 Hs2].
  destruct Hsw as [_ Hcd Htd Hmv Hdn Hgd Hlv Hkp]. split; rewrite ?Heq in *.
  - by intros [].
  - by intros path ?%not_elem_of_nil.
  - intros path Hin. destruct (Htd path Hin) as [Hp [p Hm]]. split; [|by eexists].
    rewrite Hm in *. apply drop_packs_lookup. split; [done|]. intros Hc. by destruct (Hcd _ Hc).
  - intros h Hh. right. destruct (Hmv h Hh) as [(? & ? & [=] & _)|(path & p & Hp & ? & ? & ?)].
    exists path, p. rewrite drop_packs_lookup. split_and!; try done. apply not_elem_of_nil.
  - by intros ? ? ? ?%not_elem_of_nil.
  - done.
  - done.
  - intros path p h [Hp Hn]%drop_packs_lookup Hin. destruct (Hkp _ _ _ Hp Hin) as [? [?|[?|?]]]; auto; done.
Qed.
(** *** The operations *)

Definition cache_fine (ca : option Ca) : Prop := match ca with Some ca => cache_ok ca | None => True end.

(** The invariant on the collector's state. *)
Definition inv g todo : Prop :=
  visited g = live ∧ cache_fine (cache g) ∧
  swept (view_of (c g)) (newPack g) (moved g) (canDelete g) todo.

Definition gsafe (_ : error) g : Prop := safe (view_of (c g)).

(** What stays as it is while a pack is read. *)
Definition same_readers g g' : Prop := readers (view_of (c g')) = readers (view_of (c g)).

Lemma remove_all_spec paths : ∀ g,
  wp (remove_all paths)
    (λ _ g', ∃ r, g' = set_c r g ∧ readers (view_of r) = readers (view_of (c g)) ∧
                  packs (view_of r) = drop_packs paths (packs (view_of (c g))))
    (λ _ g', ∃ r D, g' = set_c r g ∧ (∀ path, path ∈ D → path ∈ paths) ∧
                  packs (view_of r) = drop_packs D (packs (view_of (c g)))) g.
Proof.
  assert (Hnil : ∀ m : gmap bytes pack, drop_packs [] m = m).
  { intros m. apply map_filter_id. intros. apply not_elem_of_nil. }
  assert (Hcons : ∀ path D (m : gmap bytes pack),
    drop_packs D (delete path m) = drop_packs (path :: D) m).
  { intros path D m. apply map_eq. intros q. apply option_eq. intros p'.
    rewrite !drop_packs_lookup, lookup_delete_Some, not_elem_of_cons. naive_solver. }
  induction paths as [|path paths IH]; intros g; simpl.
  { wp_steps. exists (c g). rewrite Hnil. by destruct g. }
  unfold on_c, Remove. wp_steps. eapply wp_mono; [apply TRemove_law|..]; cbn beta zeta.
  - intros _ r Hr. eapply wp_mono; [apply IH|..]; cbn beta; simpl; rewrite Hr; simpl; setoid_rewrite Hcons.
    + intros _ g' (r' & -> & Hrd & Hp). exists r'. done.
    + intros e g' (r' & D & -> & HD & Hp). exists r', (path :: D). split_and!; try done.
      intros q. rewrite !elem_of_cons. naive_solver.
  - intros e r [_ [Hr|Hr]].
    + exists r, []. rewrite Hnil, Hr. split_and!; try done. by intros q ?%not_elem_of_nil.
    + exists r, [path]. rewrite Hr, <-Hcons, Hnil. simpl. split_and!; try done.
      intros q. rewrite list_elem_of_singleton. intros ->. by left.
Qed.

Lemma close_spec g todo :
  inv g todo →
  wp closeCurrentWriterAndDeleteOldPacks
    (λ _ g', inv g' todo ∧ newPack g' = None ∧ canDelete g' = [] ∧ moved g' = moved g ∧
             same_readers g g') gsafe g.
Proof.
  intros (Hv & Hca & Hsw). unfold closeCurrentWriterAndDeleteOldPacks, on_c. wp_steps.
  apply (wp_mono _ (λ _ g1, ∃ r, g1 = set_c r g ∧ readers (view_of r) = readers (view_of (c g)) ∧
           swept (view_of r) None (moved g) (canDelete g) todo) _ gsafe); [|clear Hsw|done].
  - destruct (newPack g) as [w|] eqn:Hnp; [|wp_steps; exists (c g); by destruct g].
    destruct (sw_open _ _ _ _ _ Hsw) as (path & p & Hw & Hnone & Hgp & _); [done|].
    unfold open_pack in Hw. simpl in Hw.
    wp_steps. eapply wp_mono; [by apply pack_Close_law|..]; cbn beta zeta.
    + intros idx r [_ Hr]. wp_steps. exists r. rewrite Hr. simpl. split_and!; try done.
      by apply swept_close.
    + intros e r (_ & _ & Hp). unfold gsafe; simpl. destruct Hp as [Hp|Hp].
      * eapply safe_packs; [done|]. by eapply swept_safe.
      * pose proof (swept_close _ _ _ _ _ _ _ Hsw Hw) as Hc.
        eapply safe_packs; [exact Hp|]. by eapply swept_safe.
  - intros _ g1 (r & -> & Hrd & Hsw). wp_steps.
    eapply wp_mono; [apply remove_all_spec|..]; cbn beta; simpl.
    + intros _ g2 (r2 & -> & Hrd2 & Hp2). wp_steps. unfold inv, same_readers; simpl. split_and!; try done.
      * by eapply drop_swept.
      * congruence.
    + intros e g2 (r2 & D & -> & HD & Hp2). unfold gsafe; simpl. by eapply drop_safe.
Qed.

Lemma swept_new vw mv cd todo w path :
  swept vw None mv cd todo → packs vw !! path = None →
  swept (mkView (packs vw) (<[w := (path, [])]> (writers vw)) (readers vw)) (Some w) mv cd todo.
Proof.
  intros [_ Hcd Htd Hmv Hdn Hgd Hlv Hkp] Hnone. split; simpl; try done.
  - intros _. exists path, []. unfold open_pack; simpl. rewrite lookup_insert_eq.
    split_and!; try done; [by constructor|]. by intros h ?%not_elem_of_nil.
  - intros h Hh. right. destruct (Hmv h Hh) as [(? & ? & [=] & _)|?]. done.
Qed.

Lemma add_entry_keys p h v h' : h' ∈ (add_entry p h v).*1 ↔ h' = h ∨ h' ∈ p.*1.
Proof.
  unfold add_entry. case_bool_decide; [naive_solver|].
  rewrite fmap_app, elem_of_app. simpl. rewrite list_elem_of_singleton. naive_solver.
Qed.

Lemma swept_add vw w mv cd todo path p h v :
  swept vw (Some w) mv cd todo → writers vw !! w = Some (path, p) →
  h ∈ live → stored m0 h → good h v →
  swept (mkView (packs vw) (<[w := (path, add_entry p h v)]> (writers vw)) (readers vw))
        (Some w) ({[h]} ∪ mv) cd todo.
Proof.
  intros [Hop Hcd Htd Hmv Hdn Hgd Hlv Hkp] Hw Hh Hst Hg. unfold open_pack in *. simpl in *.
  rewrite Hw in *. destruct Hop as (path' & p' & [= <- <-] & Hnone & Hgp & Hall); [done|].
  split; unfold open_pack; simpl; rewrite ?lookup_insert_eq; try done.
  - intros _. exists path, (add_entry p h v). split_and!; try done.
    + unfold good_pack, add_entry. case_bool_decide; [done|]. apply Forall_app. split; [done|].
      by apply Forall_singleton.
    + intros h' [->|?]%add_entry_keys; auto.
  - intros h' [->%elem_of_singleton|Hh']%elem_of_union.
    + left. exists path, (add_entry p h v). split; [done|]. rewrite add_entry_keys. auto.
    + destruct (Hmv h' Hh') as [(? & ? & [= <- <-] & ?)|?]; [|by right].
      left. exists path, (add_entry p h v). split; [done|]. rewrite add_entry_keys. auto.
  - intros q p1 h' ? ? ? ?. apply elem_of_union_r. by eapply Hdn.
Qed.

(** What [putValue] and the loops over it keep. *)
Definition progress todo g g' : Prop :=
  inv g' todo ∧ moved g ⊆ moved g' ∧ same_readers g g'.

#[local] Instance progress_trans todo : Transitive (progress todo).
Proof.
  intros g1 g2 g3 (? & ? & Hr) (? & ? & Hr'). unfold progress, same_readers in *.
  split_and!; [done|by transitivity (moved g2)|congruence].
Qed.

(** The pack to write to, opened if there is none. *)
Lemma ensure_pack_spec g todo :
  inv g todo →
  wp (match newPack g with
      | Some _ => mret ()
      | None =>
        name ← on_c RandomFileName;
        w ← on_c (NewPack (pack_path name ++ str ".ebpack"));
        modify (λ g, set_newPack (newPackSize g) (Some w) g)
      end)
    (λ _ g', inv g' todo ∧ is_Some (newPack g') ∧ moved g' = moved g ∧ same_readers g g')
    gsafe g.
Proof.
  intros (Hv & Hca & Hsw). destruct (newPack g) as [w|] eqn:Hnp.
  { wp_steps. unfold inv. rewrite Hnp. by split_and!. }
  assert (Hfail : ∀ e r, unchanged (c g) e r → gsafe e (set_c r g)).
  { intros e r [_ Hr]. unfold gsafe; simpl. rewrite Hr. by eapply swept_safe. }
  unfold on_c. wp_steps. eapply wp_mono; [apply RandomFileName_law| |done]. cbn beta.
  intros name r Hr. wp_steps. simpl.
  eapply wp_mono; [apply NewPack_law|..]; cbn beta; simpl.
  - intros w r2 (Hnone & _ & Hr2). rewrite Hr in *. wp_steps. unfold inv, same_readers; simpl. rewrite Hr2; simpl.
    split_and!; try done. by apply swept_new.
  - intros e r2 [He Hr2]. apply (Hfail e r2). split; [done|]. congruence.
Qed.

Lemma putValue_spec g todo h v :
  inv g todo → h ∈ live → stored m0 h → good h v →
  wp (putValue h v) (λ _ g', progress todo g g' ∧ h ∈ moved g') gsafe g.
Proof.
  intros Hi Hh Hst Hg. unfold putValue. wp_step. wp_step. case_bool_decide as Hm.
  { wp_steps. split; [|done]. split_and!; try done. }
  wp_step.
  apply (wp_mono _ (λ _ g1, inv g1 todo ∧ moved g1 = moved g ∧ same_readers g g1) _ gsafe); [|clear Hi|done].
  { case_bool_decide; [|by wp_steps]. eapply wp_mono; [by apply close_spec| |done]. cbn beta. naive_solver. }
  intros _ g1 (Hi1 & Hm1 & Hr1). wp_step. wp_step. wp_step.
  eapply wp_mono; [by apply ensure_pack_spec| |done]. cbn beta.
  intros _ g2 (Hi2 & [w Hw] & Hm2 & Hr2). wp_step. wp_step. wp_step. rewrite Hw.
  destruct Hi2 as (Hv2 & Hca2 & Hsw2). rewrite Hw in Hsw2.
  destruct (sw_open _ _ _ _ _ Hsw2) as (path & p & Hop & _); [done|]. unfold open_pack in Hop; simpl in Hop.
  unfold on_c. wp_steps. eapply wp_mono; [by apply pack_Add_law|..]; cbn beta.
  - intros _ r Hr. wp_steps. unfold progress, inv, same_readers in *; simpl. rewrite Hr, Hw; simpl.
    rewrite Hr1 in Hr2. split_and!; try done; [|set_solver|set_solver].
    by apply swept_add.
  - intros e r (_ & Hp & _). unfold gsafe; simpl. eapply safe_packs; [exact Hp|]. by eapply swept_safe.
Qed.

(** *** Runs of entries *)

Lemma splice_full (h h' : bytes) : length h = length h' → splice h 0 h' = h'.
Proof.
  intros Hl. unfold splice. rewrite Nat.sub_0_r, Nat.add_0_l, Hl, (take_ge h') by lia.
  rewrite drop_ge by lia. by rewrite app_nil_r.
Qed.

Lemma pack_data_len p q : length (pack_data (p ++ q)) = length (pack_data p) + length (pack_data q).
Proof. by rewrite pack_data_app, length_app. Qed.

(** The run is a prefix of the entries, all to be moved; the entry behind it, if
    there is one, is not. *)
Lemma take_run_spec g suf : ∀ off h n,
  length h = hash_len → Forall (λ key, length key = hash_len) suf.*1 →
  (0 ≤ n)%Z → (n + Z.of_nat (length (pack_data suf)) < 2 ^ 32)%Z →
  ∃ run rest, suf = run ++ rest ∧
    take_run g h (layout off suf) n =
      (layout off run, n + Z.of_nat (length (pack_data run)),
       layout (off + Z.of_nat (length (pack_data run))) rest)%Z ∧
    Forall (λ key, key ∈ visited g ∧ key ∉ moved g) run.*1 ∧
    (∀ key, head rest.*1 = Some key → key ∈ visited g → key ∈ moved g).
Proof.
  induction suf as [|[key v] suf IH]; intros off h n Hh Hk Hn Hlt.
  { exists [], []. simpl. rewrite !Z.add_0_r. by split_and!. }
  simpl in Hk. apply Forall_cons in Hk as [Hkey Hk]. rewrite pack_data_cons, length_app in Hlt.
  cbn [layout take_run Bpack.Key Size]. rewrite splice_full by congruence.
  destruct (decide (key ∈ visited g)) as [Hv|Hv]; cycle 1.
  { rewrite bool_decide_eq_true_2 by done. exists [], ((key, v) :: suf). simpl. rewrite !Z.add_0_r.
    split_and!; try done. naive_solver. }
  rewrite bool_decide_eq_false_2 by (intros Hc; by apply Hc).
  destruct (decide (key ∈ moved g)) as [Hm|Hm].
  { rewrite bool_decide_eq_true_2 by done. exists [], ((key, v) :: suf). simpl. rewrite !Z.add_0_r.
    split_and!; try done. naive_solver. }
  rewrite bool_decide_eq_false_2 by done. rewrite wrap_small by lia.
  destruct (IH (off + Z.of_nat (length v))%Z key (n + Z.of_nat (length v))%Z)
    as (run & rest & -> & Heq & Hrun & Hrest); [done|done|lia|lia|].
  exists ((key, v) :: run), rest. rewrite Heq, pack_data_cons, length_app. simpl.
  rewrite !Nat2Z.inj_add, !Z.add_assoc. split_and!; try done. by constructor.
Qed.

Lemma cache_put_spec g todo h v :
  inv g todo → good h v → wp (cache_put h v) (λ _ g', progress todo g g' ∧ moved g' = moved g) gsafe g.
Proof.
  intros Hi Hg. pose proof Hi as (Hv & Hca & Hsw). unfold cache_put. wp_steps.
  destruct (cache g) as [ca|] eqn:Hc; wp_steps.
  - eapply wp_mono; [by apply PutRaw_law|..]; cbn beta; intros x ca' Hok.
    + by split_and!.
    + unfold gsafe; simpl. by eapply swept_safe.
  - done.
Qed.

Lemma cache_get_spec g todo h :
  inv g todo →
  wp (cache_get h) (λ r g', progress todo g g' ∧ moved g' = moved g ∧ (r.2 = true → good h r.1)) gsafe g.
Proof.
  intros Hi. pose proof Hi as (Hv & Hca & Hsw). unfold cache_get. wp_steps.
  destruct (cache g) as [ca|] eqn:Hc; wp_steps.
  - eapply wp_mono; [by apply GetRaw_law|..]; cbn beta.
    + intros x ca' [Hok Hx]. by split_and!.
    + intros e ca' Hok. unfold gsafe; simpl. by eapply swept_safe.
  - done.
Qed.

(** The entries of a pack are marked blocks that were stored, or not of interest. *)
Definition movable (p : pack) : Prop :=
  good_pack p ∧ Forall (λ key, length key = hash_len ∧ stored m0 key) p.*1.

Lemma movable_app p q : movable (p ++ q) ↔ movable p ∧ movable q.
Proof. unfold movable, good_pack. rewrite fmap_app, !Forall_app. tauto. Qed.

Lemma move_run_spec todo run : ∀ g off,
  inv g todo → movable run → Forall (λ key, key ∈ live) run.*1 →
  wp (move_run (layout off run) (pack_data run))
    (λ _ g', progress todo g g' ∧ ∀ h, h ∈ run.*1 → h ∈ moved g') gsafe g.
Proof.
  induction run as [|[key v] run IH]; intros g off Hi Hmv Hlv; simpl.
  { wp_steps. split; [by split_and!|]. by intros h ?%not_elem_of_nil. }
  destruct Hmv as [[Hg Hgs]%Forall_cons [[Hk Hst] Hks]%Forall_cons].
  simpl in Hlv. apply Forall_cons in Hlv as [Hl Hlv]. simpl in *.
  rewrite pack_data_cons, Nat2Z.id, copy_key_id by done. wp_step.
  eapply wp_lift_ok; [apply slice_ok; [lia|rewrite length_app; lia]|]. wp_step.
  eapply wp_lift_ok; [apply slice_ok; rewrite length_app; lia|].
  rewrite drop_0, Nat.sub_0_r, take_app_length, drop_app_length.
  rewrite (take_ge (pack_data run)) by (rewrite length_app; lia).
  wp_step. eapply wp_mono; [by apply putValue_spec| |done]. cbn beta. intros _ g1 (Hp1 & Hm1).
  wp_step. eapply wp_mono; [apply cache_put_spec; [apply Hp1|done]| |done]. cbn beta.
  intros _ g2 (Hp2 & Hm2). eapply wp_mono; [apply (IH g2); [apply Hp2|by split|done]| |done]. cbn beta.
  intros _ g3 (Hp3 & Hm3). split; [by do 2 (etrans; [done|])|].
  intros h [->|Hin]%elem_of_cons; [|auto]. destruct Hp3 as (_ & Hsub & _). apply Hsub. by rewrite Hm2.
Qed.

Lemma wp_bind_assoc {S A B C} (m : M S A) (f : A → M S B) (k : B → M S C) Q E s :
  wp ((m ≫= f) ≫= k) Q E s → wp (m ≫= λ a, f a ≫= k) Q E s.
Proof. unfold wp, mbind, M_bind. by destruct (m s) as [[] ?]. Qed.

(** Fetch a run and move it. *)
Lemma fetch_run_spec todo f p pre run rest g :
  p = pre ++ run ++ rest → inv g todo → movable p → readers (view_of (c g)) !! f = Some p →
  Forall (λ key, key ∈ live) run.*1 →
  wp (runData ← on_c (pack_GetAt f (Z.of_nat (length (pack_data pre))) (Z.of_nat (length (pack_data run))));
      move_run (layout (Z.of_nat (length (pack_data pre))) run) runData)
    (λ _ g', progress todo g g' ∧ ∀ h, h ∈ run.*1 → h ∈ moved g') gsafe g.
Proof.
  intros Hp Hi Hmv Hf Hlv. pose proof Hi as (Hvis & Hca & Hsw). unfold on_c. wp_step. wp_step.
  rewrite Hp, !movable_app in Hmv.
  eapply wp_mono; [eapply pack_GetAt_law; [exact Hf|]|..]; cbn beta.
  - rewrite Hp, !pack_data_len. lia.
  - intros d r [-> Hr]. rewrite Hp, !pack_data_app, drop_app_length, take_app_length.
    eapply wp_mono; [apply (move_run_spec todo run); [|tauto|done]| |done]; cbn beta.
    + by unfold inv; simpl; rewrite Hr.
    + intros _ g' [(? & ? & Hrd) ?]. split; [|done]. split_and!; try done.
      unfold same_readers in *. simpl in Hrd. by rewrite Hrd, Hr.
  - intros e r [_ Hr]. unfold gsafe; simpl. rewrite Hr. by eapply swept_safe.
Qed.

Lemma sweep_ents_spec todo f p n : ∀ suf pre g,
  p = pre ++ suf → inv g todo → movable p → (Z.of_nat (length (pack_data p)) < 2 ^ 32)%Z →
  readers (view_of (c g)) !! f = Some p → length suf ≤ n →
  wp (sweep_ents n f (layout (Z.of_nat (length (pack_data pre))) suf))
    (λ _ g', progress todo g g' ∧ ∀ h, h ∈ suf.*1 → h ∈ live → h ∈ moved g') gsafe g.
Proof.
  induction n as [|n IH]; intros suf pre g Hp Hi Hmv Hsz Hf Hn;
    (destruct suf as [|[key v] suf];
      [simpl; wp_steps; split; [by split_and!|by intros h ?%not_elem_of_nil]|]);
    simpl in Hn; [lia|].
  (* the rest of the loop, from a state further on *)
  assert (Hrec : ∀ pre' suf' g', p = pre' ++ suf' → progress todo g g' → length suf' ≤ n →
    (∀ h, h ∈ ((key, v) :: suf).*1 → h ∈ live → h ∈ moved g' ∨ h ∈ suf'.*1) →
    wp (sweep_ents n f (layout (Z.of_nat (length (pack_data pre'))) suf'))
      (λ _ g'', progress todo g g'' ∧ ∀ h, h ∈ ((key, v) :: suf).*1 → h ∈ live → h ∈ moved g'')
      gsafe g').
  { intros pre' suf' g' Hp' (Hi' & Hsub & Hrd) Hn' Hrest.
    eapply wp_mono; [apply (IH suf' pre' g'); try done; by rewrite Hrd| |done]. cbn beta.
    intros _ g'' [(? & Hsub' & ?) Hm]. split; [split_and!; [done|by etrans|congruence]|].
    intros h Hh Hl. destruct (Hrest h Hh Hl); auto. }
  pose proof Hmv as Hmv'. rewrite Hp in Hmv'. apply movable_app in Hmv' as [_ Hsuf].
  pose proof Hsuf as [[Hg _]%Forall_cons [[Hk Hst] _]%Forall_cons]. simpl in Hg.
  assert (Hnext : p = (pre ++ [(key, v)]) ++ suf) by (by rewrite <-app_assoc).
  assert (Hoff : (Z.of_nat (length (pack_data pre)) + Z.of_nat (length v))%Z =
                 Z.of_nat (length (pack_data (pre ++ [(key, v)])))).
  { rewrite pack_data_len, pack_data_cons, app_nil_r. lia. }
  pose proof Hi as (Hvis & _ & _).
  cbn [layout sweep_ents Bpack.Key]. rewrite copy_key_id by done. rewrite Hoff. wp_step. wp_step.
  destruct (decide (key ∈ live)) as [Hl|Hl]; cycle 1.
  { rewrite bool_decide_eq_true_2 by (by rewrite Hvis). apply Hrec; try done; [lia|].
    intros h [->|?]%elem_of_cons ?; auto. done. }
  rewrite bool_decide_eq_false_2 by (rewrite Hvis; intros Hc; by apply Hc).
  case_bool_decide as Hm.
  { apply Hrec; try done; [lia|]. intros h [->|?]%elem_of_cons ?; auto. }
  wp_step. eapply wp_mono; [by apply cache_get_spec| |done]. cbn beta.
  intros [val ok] g1 (Hp1 & Hm1 & Hok). simpl in Hok. destruct ok.
  { wp_step. eapply wp_mono; [apply putValue_spec; [apply Hp1|done|done|by apply Hok]| |done]. cbn beta.
    intros _ g2 (Hp2 & Hm2). apply Hrec; [done|by etrans|lia|].
    intros h [->|?]%elem_of_cons ?; auto. }
  wp_step. wp_step. destruct Hp1 as (Hi1 & Hsub1 & Hrd1).
  destruct (take_run_spec g1 ((key, v) :: suf) (Z.of_nat (length (pack_data pre))) key 0)
    as (run & rest & Hsplit & Heq & Hrun & Hrest); [done| |lia| |].
  { eapply Forall_impl; [apply Hsuf|]. by intros ? []. }
  { rewrite Hp, pack_data_len in Hsz. lia. }
  rewrite <-Hoff. change (mkEnt key _ _ :: layout _ suf) with (layout (Z.of_nat (length (pack_data pre))) ((key, v) :: suf)).
  rewrite Heq. destruct run as [|[k0 v0] run].
  { destruct Hm. rewrite <-Hm1. apply Hrest; [|by rewrite (proj1 Hi1)]. simpl in Hsplit. by rewrite <-Hsplit. }
  assert (Hlive : Forall (λ key, key ∈ live) ((k0, v0) :: run).*1).
  { rewrite <-(proj1 Hi1). eapply Forall_impl; [exact Hrun|]. by intros ? []. }
  cbn match. apply wp_bind_assoc, wp_bind.
  eapply wp_mono; [apply (fetch_run_spec todo f p pre ((k0, v0) :: run) rest g1); try done| |done].
  { by rewrite <-Hsplit. }
  { by rewrite Hrd1. }
  cbn beta. intros _ g2 (Hp2 & Hm2).
  assert (Hpg : progress todo g g2) by (etrans; [|exact Hp2]; by split_and!).
  assert (Hlen := f_equal length Hsplit). rewrite length_app in Hlen. simpl in Hlen.
  destruct rest as [|[k1 v1] rest]; cbn [layout tail].
  - rewrite app_nil_r in Hsplit. apply (Hrec p [] g2); [by rewrite app_nil_r|done|simpl; lia|].
    rewrite Hsplit. auto.
  - specialize (Hrec (pre ++ ((k0, v0) :: run) ++ [(k1, v1)]) rest g2).
    assert (Hv1 : length (pack_data [(k1, v1)]) = length v1) by (unfold pack_data; simpl; by rewrite app_nil_r).
    rewrite !pack_data_len, Hv1 in Hrec.
    rewrite <-!Z.add_assoc, <-!Nat2Z.inj_add. apply Hrec; [|done|simpl in Hlen; lia|].
    + rewrite Hp, Hsplit. by rewrite <-!app_assoc.
    + rewrite Hsplit, fmap_app. intros h [Hh|[->|Hh]%elem_of_cons]%elem_of_app Hlh; auto.
      left. apply (proj1 (proj2 Hp2)). apply Hrest; [done|]. by rewrite (proj1 Hi1).
Qed.

(** *** Packs *)

#[local] Existing Instance off_le_dec.

Lemma layout_offsets p : ∀ off e,
  Forall (λ kv, kv.2 ≠ []) p → e ∈ layout off p → (off ≤ Offset e)%Z.
Proof.
  induction p as [|[key v] p IH]; intros off e Hp; simpl; [by intros ?%not_elem_of_nil|].
  apply Forall_cons in Hp as [Hv Hp]. intros [->|He]%elem_of_cons; simpl; [lia|].
  apply IH in He; [lia|done].
Qed.

Lemma layout_sorted p : ∀ off, Forall (λ kv, kv.2 ≠ []) p →
  StronglySorted (λ a b, Offset a < Offset b)%Z (layout off p).
Proof.
  induction p as [|[key v] p IH]; intros off Hp; simpl; [constructor|].
  apply Forall_cons in Hp as [Hv Hp]. constructor; [by apply IH|]. apply Forall_forall.
  intros e He. apply layout_offsets in He; [|done]. simpl. destruct v; [done|]. simpl in He. lia.
Qed.

(** Sorting the index of a pack by offset gives back its entries in order. *)
Lemma sort_offsets_layout p : good_pack p → sort_offsets (sort_index (layout 0 p)) = layout 0 p.
Proof.
  intros Hg. assert (Hne : Forall (λ kv, kv.2 ≠ []) p).
  { eapply Forall_impl; [exact Hg|]. intros kv. apply good_nonempty. }
  assert (Hss := layout_sorted p 0 Hne).
  assert (Hperm : sort_offsets (sort_index (layout 0 p)) ≡ₚ layout 0 p).
  { unfold sort_offsets, sort_index. by rewrite !merge_sort_Permutation. }
  apply (StronglySorted_unique_strong off_le); [| | |done].
  - intros e1 e2 He1 He2. rewrite Hperm in He1. unfold off_le. intros H12 H21.
    assert (Heq : Offset e1 = Offset e2) by lia. clear -Hss He1 He2 Heq.
    induction Hss as [|e es _ IH Hall]; [by apply not_elem_of_nil in He1|].
    rewrite Forall_forall in Hall.
    apply elem_of_cons in He1 as [->|He1]; apply elem_of_cons in He2 as [->|He2]; auto;
      [specialize (Hall _ He2)|specialize (Hall _ He1)]; lia.
  - apply StronglySorted_merge_sort.
    + intros a b d. unfold off_le. lia.
    + intros a b. unfold off_le. lia.
  - clear -Hss. induction Hss as [|e es _ IH Hall]; constructor; [done|].
    eapply Forall_impl; [exact Hall|]. unfold off_le. simpl. lia.
Qed.

(** A pack that has been dealt with: deleted later, or skipped. *)
Lemma swept_delete vw np mv cd todo path p :
  swept vw np mv cd (path :: todo) → path ∉ todo → packs vw !! path = Some p →
  (∀ h, h ∈ p.*1 → h ∈ live → h ∈ mv) → swept vw np mv (cd ++ [path]) todo.
Proof.
  intros [Hop Hcd Htd Hmv Hdn Hgd Hlv Hkp] Hn Hp Hall. split; try done.
  - intros q [Hq| ->%list_elem_of_singleton]%elem_of_app.
    + destruct (Hcd q Hq) as [? ?]. set_solver.
    + split; [by eexists|done].
  - intros q Hq. apply Htd. by right.
  - intros h Hh. destruct (Hmv h Hh) as [?|(q & p1 & ? & ? & ? & ?)]; [by left|right].
    exists q, p1. set_solver.
  - intros q p1 h [Hq| ->%list_elem_of_singleton]%elem_of_app Hp1; [by eapply Hdn|].
    assert (p1 = p) as -> by congruence. auto.
  - intros q p1 h Hp1 Hh. destruct (Hkp q p1 h Hp1 Hh) as [? ?]. set_solver.
Qed.

Lemma swept_skip vw np mv cd todo path p :
  swept vw np mv cd (path :: todo) → path ∉ todo → packs vw !! path = Some p →
  (∀ h, h ∈ p.*1 → h ∈ live) → swept vw np (list_to_set p.*1 ∪ mv) cd todo.
Proof.
  intros [Hop Hcd Htd Hmv Hdn Hgd Hlv Hkp] Hn Hp Hall. split; try done.
  - intros q Hq. destruct (Hcd q Hq). set_solver.
  - intros q Hq. apply Htd. by right.
  - intros h [Hh%elem_of_list_to_set|Hh]%elem_of_union.
    + right. exists path, p. split_and!; try done. intros Hc. destruct (Hcd _ Hc). set_solver.
    + destruct (Hmv h Hh) as [?|(q & p1 & ? & ? & ? & ?)]; [by left|right].
      exists q, p1. set_solver.
  - intros q p1 h Hq Hp1 Hh Hl. apply elem_of_union_r. by eapply Hdn.
  - intros q p1 h Hp1 Hh. destruct (Hkp q p1 h Hp1 Hh) as [? [?|[?|[->|?]%elem_of_cons]]]; auto.
    assert (p1 = p) as -> by congruence. auto.
Qed.

Lemma sweepable_movable path p : m0 !! path = Some p → sweepable p → movable p.
Proof.
  intros Hp (_ & Hk & Hg & _). split; [done|]. apply Forall_forall. intros key Hin. split.
  - rewrite Forall_forall in Hk. auto.
  - by exists path, p.
Qed.

Lemma layout_hashes p : ∀ off,
  Forall (λ key, length key = hash_len) p.*1 →
  (λ e, copy_key (Bpack.Key e)) <$> layout off p = p.*1.
Proof.
  induction p as [|[key v] p IH]; intros off Hk; simpl in *; [done|].
  apply Forall_cons in Hk as [? ?]. by rewrite copy_key_id, IH.
Qed.

Lemma can_skip_live g p off :
  can_skip g (layout off p) = true → Forall (λ key, length key = hash_len) p.*1 →
  ∀ h, h ∈ p.*1 → h ∈ visited g.
Proof.
  intros Hs Hk h Hh. rewrite <-(layout_hashes p off Hk) in Hh.
  apply list_elem_of_fmap in Hh as (e & -> & He). unfold can_skip in Hs.
  rewrite forallb_forall in Hs. apply list_elem_of_In in He. apply Hs in He.
  apply andb_prop in He as [He _]. by apply bool_decide_eq_true in He.
Qed.

Lemma sweep_open_spec g todo pk path p f :
  inv g (path :: todo) → path ∉ todo → m0 !! path = Some p → sweepable p →
  readers (view_of (c g)) !! f = Some p →
  wp (sweep_open pk path f) (λ _ g', inv g' todo) gsafe g.
Proof.
  intros Hi Hn Hp Hsw Hf. pose proof Hi as (Hvis & Hca & Hinv). pose proof Hsw as (_ & Hk & Hg & Hsz).
  assert (Hpk : ∀ g', inv g' (path :: todo) → packs (view_of (c g')) !! path = Some p).
  { intros g' (_ & _ & Hs'). destruct (sw_todo _ _ _ _ _ Hs' path) as [-> _]; [by left|done]. }
  unfold sweep_open, on_c. wp_step. wp_step. eapply wp_mono; [by apply pack_ReadIndex_law|..]; cbn beta; cycle 1.
  { intros e r [_ Hr]. unfold gsafe; simpl. rewrite Hr. by eapply swept_safe. }
  intros idx r [-> Hr]. rewrite sort_offsets_layout by done. wp_step. wp_step.
  assert (Hi1 : inv (set_c r g) (path :: todo)) by (unfold inv; simpl; by rewrite Hr).
  destruct (bool_decide _ && can_skip _ _) eqn:Hskip.
  - apply andb_prop in Hskip as [_ Hskip]. wp_steps. destruct Hi1 as (? & ? & Hs1). split_and!; try done.
    simpl. rewrite layout_hashes by done. eapply swept_skip; [done|done|by apply (Hpk (set_c r g))|].
    rewrite <-Hvis. by eapply (can_skip_live (set_c r g)).
  - wp_step. rewrite length_layout.
    eapply wp_mono; [eapply (sweep_ents_spec (path :: todo) f p _ p []); try done| |done].
    + by eapply sweepable_movable.
    + simpl. by rewrite Hr.
    + lia.
    + cbn beta. intros _ g2 [(Hi2 & _ & _) Hm2]. wp_steps. destruct Hi2 as (? & ? & Hs2).
      split_and!; try done. simpl. eapply swept_delete; [done|done|by apply (Hpk g2)|done].
Qed.

Lemma swept_view vw vw' np mv cd todo :
  packs vw' = packs vw → writers vw' = writers vw →
  swept vw np mv cd todo → swept vw' np mv cd todo.
Proof.
  intros Hp Hw [? ? ? ? ? ? ? ?]. split; unfold open_pack in *; by rewrite ?Hp, ?Hw.
Qed.

(** Opening and closing the reader. *)
Lemma sweepPack_spec g todo pk p :
  let path := pack_path (PackName pk) in
  inv g (path :: todo) → path ∉ todo → m0 !! path = Some p → PackSize pk = stored_size p →
  sweepable p →
  wp (sweepPack pk) (λ _ g', inv g' todo) gsafe g.
Proof.
  intros path Hi Hn Hp Hs Hsw. pose proof Hi as (Hvis & Hca & Hinv). unfold sweepPack, on_c. wp_steps.
  assert (Hpk : packs (view_of (c g)) !! path = Some p).
  { destruct (sw_todo _ _ _ _ _ Hinv path) as [-> _]; [by left|done]. }
  eapply wp_mono; [by eapply OpenPack_law|..]; cbn beta.
  - intros f r (_ & Hr). eapply wp_deferred; [eapply (sweep_open_spec (set_c r g)); try done|..]; cbn beta.
    + split_and!; try done. simpl. rewrite Hr. by apply (swept_view (view_of (c g))).
    + simpl. rewrite Hr. apply lookup_insert_eq.
    + intros [] g1 (? & ? & Hs1). wp_step.
      eapply wp_mono; [apply pack_CloseReader_law|..]; cbn beta zeta; intros x r1.
      * intros Hr1. split_and!; try done. simpl. rewrite Hr1. by apply (swept_view (view_of (c g1))).
      * intros [_ [Hr1|Hr1]]; split_and!; try done; simpl; rewrite Hr1; [done|by apply (swept_view (view_of (c g1)))].
    + intros e g1 Hs1. wp_step. unfold gsafe in *.
      eapply wp_mono; [apply pack_CloseReader_law|..]; cbn beta zeta; intros x r1; simpl.
      * intros Hr1. by rewrite Hr1.
      * intros [_ [Hr1|Hr1]]; by rewrite Hr1.
  - intros e r [_ Hr]. unfold gsafe; simpl. rewrite Hr. by eapply swept_safe.
Qed.

Lemma sweep_packs_spec ls : ∀ g,
  inv g (pack_path ∘ PackName <$> ls) → NoDup (pack_path ∘ PackName <$> ls) →
  Forall (λ l, ∃ p, m0 !! pack_path (PackName l) = Some p ∧ PackSize l = stored_size p) ls →
  map_Forall (λ _ p, sweepable p) m0 →
  wp (sweep_packs ls) (λ _ g', inv g' []) gsafe g.
Proof.
  induction ls as [|l ls IH]; intros g Hi Hnd Hls Hm0; simpl in *; [by wp_steps|].
  apply NoDup_cons in Hnd as [Hn Hnd]. apply Forall_cons in Hls as [(p & Hp & Hs) Hls].
  wp_step. eapply wp_mono; [eapply sweepPack_spec; [exact Hi|..]| |done]; try done.
  - by eapply Hm0.
  - cbn beta. intros _ g1 Hi1. by apply IH.
Qed.

(** *** The whole phase *)
Lemma sweep_spec g :
  visited g = live → cache_fine (cache g) → newPack g = None → moved g = ∅ → canDelete g = [] →
  packs (view_of (c g)) = m0 → map_Forall (λ _ p, sweepable p) m0 →
  wp sweep
    (λ _ g', safe (view_of (c g')) ∧
             ∀ h, stored (packs (view_of (c g'))) h ↔ h ∈ live ∧ stored m0 h)
    gsafe g.
Proof.
  intros Hv Hca Hnp Hmv Hcd Hm Hm0.
  assert (Hsafe : safe (view_of (c g))).
  { split; rewrite Hm; [done|]. intros path p Hp. apply (Hm0 path p Hp). }
  unfold sweep, on_c. wp_steps. eapply wp_mono; [apply wp_ListPacks|..]; cbn beta; cycle 1.
  { intros e r [_ Hr]. unfold gsafe; simpl. by rewrite Hr. }
  intros ls r (Hr & Hnd & Hdom & Hls). rewrite Hm in Hdom, Hls. wp_step.
  eapply wp_mono; [apply (sweep_packs_spec ls); try done| |done]; cbn beta.
  - split_and!; try done. simpl. rewrite Hr, Hnp, Hmv, Hcd. split.
    + by intros [].
    + by intros ? ?%not_elem_of_nil.
    + intros path Hin. rewrite Hm. split; [done|].
      apply list_elem_of_fmap in Hin as (l & -> & Hl). rewrite Forall_forall in Hls.
      destruct (Hls l Hl) as (p & Hp & _). by eexists.
    + by intros h ?%elem_of_empty.
    + by intros ? ? ? ?%not_elem_of_nil.
    + apply Hsafe.
    + by rewrite Hm.
    + intros path p h Hp Hh. rewrite Hm in Hp. split; [by exists path, p|]. right. right.
      apply Hdom. by eapply elem_of_dom_2.
  - intros _ g1 Hi1. eapply wp_mono; [by apply close_spec| |done]. cbn beta.
    intros _ g2 ((Hv2 & _ & Hs2) & Hnp2 & Hcd2 & _). rewrite Hnp2, Hcd2 in Hs2.
    split; [by eapply swept_safe|]. intros h. split.
    + intros (path & p & Hp & Hh). destruct (sw_kept _ _ _ _ _ Hs2 path p h Hp Hh) as [? [?|[Hx|Hx]]];
        [done|by apply not_elem_of_nil in Hx..].
    + intros [? ?]. by apply (sw_live _ _ _ _ _ Hs2).
Qed.
End Sweep.
