(* ===== verification/GcMark.v ===== *)
(** The mark phase visits exactly what the root reaches.

    [block_in s h x]: block [x] belongs to the hash tree [h]; [fs_block] and
    [repo_block] add the directories below a directory and the versions before
    a version.  [fs_at] and [repo_at] say that what is reached is well-formed, and
    bound its nesting, from which the fuel of the marking functions follows. *)

From Stdlib Require Import ZArith Lia.
From stdpp Require Import base list gmap sets strings.
From coqutil Require Import Byte.
From S2P Require Import Prelude Store Io Htree HtreeSpec HtreeWrite HtreeRead HtreeProps.
From S2P Require Import Bpack CacheClient Fs FsProps Refs Remote Packs Gc.

Set Default Goal Selector "!".

#[local] Instance Ref_eq_dec : EqDecision Ref.
Proof. solve_decision. Defined.

(** The hash in entry [i] of an interior node. *)
Definition child (es : bytes) (i : nat) : hash := take 32 (drop (40 * i + 8) es).

Section Mark.
Context {P : Params} {Pok : ParamsOk} {St : Type} `{CStoreLaws St} {R : Type} `{PackClient R}.
Context {Ca : Type} `{RawCache Ca}.
Context (sz : nat → nat) (fuel : nat).
Context (Hsz : ∀ i, 1 ≤ sz i) (Heof : ¬ get_fails EOF) (Hfuel : 72 < fuel).
(** A hash names one block. *)
Context (holds_fun : ∀ (s : St) h d1 d2, holds s h d1 → holds s h d2 → d1 = d2).
(** [GetRef] turns a failing store into the zero reference; the store never fails
    for a block it has, or no block has the zero hash. *)
Definition no_zero : Prop := ∀ s : St, wp (Store.Get no_hash) (λ _ _, False) (λ _ _, True) s.
Context (reliable : (∀ e, ¬ get_fails e) ∨ no_zero).
(** The store as it is when marking starts. *)
Context (s0 : St).
Abbreviation gcState := (gcState (St := St) (R := R) (Ca := Ca)).
Implicit Types (g : gcState) (vis : gset hash).

Inductive block_in : hash → hash → Prop :=
  | block_self h : block_in h h
  | block_child h tag es i x :
      holds s0 h (tag :: es) → tag ≠ b0 → 40 * i + 40 ≤ length es →
      block_in (child es i) x → block_in h x.

(** Whoever is visited has its children visited. *)
Definition closed vis : Prop :=
  ∀ h tag es i, h ∈ vis → holds s0 h (tag :: es) → tag ≠ b0 → 40 * i + 40 ≤ length es →
    child es i ∈ vis.

Lemma closed_block vis h x : closed vis → h ∈ vis → block_in h x → x ∈ vis.
Proof. intros Hc Hh Hb. induction Hb; eauto. Qed.

(** What marking keeps: only the store and the visited set change. *)
Definition framed g g' : Prop := ∃ s v, g' = set_store s (set_visited v g).

Record marking g : Prop := mkMarking {
  mk_keeps : keeps s0 (store g);
  mk_closed : closed (visited g);
}.

(** From [g] to [g'] at least [h] was visited and nothing outside [B]. *)
Record marks (B : hash → Prop) g g' : Prop := mkMarks {
  ms_framed : framed g g';
  ms_marking : marking g';
  ms_grows : visited g ⊆ visited g';
  ms_bound : ∀ x, x ∈ visited g' → x ∈ visited g ∨ B x;
}.

Definition stopped g (e : error) g' : Prop := framed g g'.

Lemma framed_refl g : framed g g.
Proof. exists (store g), (visited g). by destruct g. Qed.
Lemma framed_trans g1 g2 g3 : framed g1 g2 → framed g2 g3 → framed g1 g3.
Proof. intros (s & v & ->) (s' & v' & ->). by exists s', v'. Qed.

Lemma marks_refl B g : marking g → marks B g g.
Proof. intros. split; [apply framed_refl|done|done|auto]. Qed.
Lemma marks_trans (B B1 B2 : hash → Prop) g1 g2 g3 :
  marks B1 g1 g2 → marks B2 g2 g3 → (∀ x, B1 x → B x) → (∀ x, B2 x → B x) → marks B g1 g3.
Proof.
  intros [F1 M1 G1 U1] [F2 M2 G2 U2] H1' H2'. split; [by eapply framed_trans|done|set_solver|].
  intros x Hx. destruct (U2 x Hx) as [Hx'|]; [destruct (U1 x Hx')|]; auto.
Qed.
Lemma marks_mono (B B' : hash → Prop) g g' : marks B g g' → (∀ x, B x → B' x) → marks B' g g'.
Proof. intros [? ? ? U] HB. split; try done. intros x Hx. destruct (U x Hx); auto. Qed.

(** Visiting a block whose children are all visited. *)
Lemma visit_spec (B : hash → Prop) g h :
  marking g → B h →
  (∀ tag es i, holds s0 h (tag :: es) → tag ≠ b0 → 40 * i + 40 ≤ length es → child es i ∈ visited g) →
  wp (visit h) (λ _ g', marks B g g' ∧ h ∈ visited g') (stopped g) g.
Proof.
  intros [Hk Hc] HB Hch. unfold visit. wp_step. split; [|simpl; set_solver]. split.
  - exists (store g), ({[h]} ∪ visited g). by destruct g.
  - split; [done|]. simpl. intros h' tag es i [->%elem_of_singleton|Hh]%elem_of_union Hd Ht Hi;
      apply elem_of_union_r; [by eapply Hch|by eapply Hc].
  - simpl. set_solver.
  - simpl. set_solver.
Qed.

(** A block of the store. *)
Lemma on_store_Get g h d :
  marking g → holds s0 h d →
  wp (on_store (Store.Get h)) (λ d' g', d' = d ∧ marks (λ _, False) g g' ∧ visited g' = visited g)
    (stopped g) g.
Proof.
  intros [Hk Hc] Hd. unfold on_store. wp_step.
  eapply wp_mono; [apply Get_law; by apply Hk|..]; cbn beta; intros x s' Hx.
  - destruct Hx as [-> Hk']. split; [done|]. split; [|done]. split.
    + exists s', (visited g). by destruct g.
    + split; [|done]. simpl. etrans; [exact Hk|exact Hk'].
    + done.
    + auto.
  - exists s', (visited g). by destruct g.
Qed.

(** ** Hash trees *)
Section Tree.
Variable minsz : nat → nat.

Lemma child_head off h es : length h = hash_len → child (entry off h ++ es) 0 = h.
Proof.
  intros Hh. unfold child, entry. change (40 * 0 + 8) with 8. rewrite <-app_assoc.
  rewrite drop_app_length' by (by rewrite length_put_le). by apply take_app_length'.
Qed.
Lemma child_tail off h es i : length h = hash_len → child (entry off h ++ es) (S i) = child es i.
Proof.
  intros Hh. unfold child. f_equal.
  replace (40 * S i + 8) with (length (entry off h) + (40 * i + 8)) by (rewrite length_entry by done; lia).
  by rewrite <-drop_drop, drop_app_length.
Qed.

Lemma tag_node lvl : S lvl ≤ 255 → nbyte (S lvl) ≠ b0 ∧ (nbyte (S lvl) = Byte.x01 ↔ lvl = 0).
Proof.
  intros Hl. pose proof (unsigned_nbyte (S lvl) ltac:(lia)) as Hu. split.
  - intros Heq. rewrite Heq in Hu. change (byte.unsigned b0) with 0%Z in Hu. lia.
  - split; [|by intros ->]. intros Heq. rewrite Heq in Hu. change (byte.unsigned Byte.x01) with 1%Z in Hu. lia.
Qed.

(** The loop over the entries, given what its body does for a subtree. *)
Lemma for_entries_spec lvl body tag off es d :
  (∀ h off d g, tree_at minsz s0 lvl h off d → marking g →
     wp (body h) (λ _ g', marks (block_in h) g g' ∧ h ∈ visited g') (stopped g) g) →
  forest_at minsz s0 lvl off es d → ∀ pre n g,
  marking g → length es < n →
  wp (for_entries n (tag :: pre ++ es) (S (length pre)) body)
    (λ _ g', marks (λ x, ∃ i, 40 * i + 40 ≤ length es ∧ block_in (child es i) x) g g' ∧
             ∀ i, 40 * i + 40 ≤ length es → child es i ∈ visited g') (stopped g) g.
Proof.
  intros Hbody. induction 1 as [|lvl off h d es ds Ht Hf IH]; intros pre n g Hm Hn;
    (destruct n as [|n]; [simpl in Hn; lia|]); cbn [for_entries].
  { rewrite bool_decide_eq_true_2 by (simpl; rewrite length_app; simpl; lia). wp_step.
    split; [by apply marks_refl|]. simpl. lia. }
  pose proof (tree_at_hash _ _ _ _ _ _ Ht) as Hh. pose proof (length_entry off h Hh) as Hle.
  rewrite length_app in Hn.
  rewrite bool_decide_eq_false_2 by (cbn [length]; rewrite !length_app, Hle; lia). wp_step.
  eapply wp_lift_ok; [apply slice_ok; [lia|cbn [length]; rewrite !length_app, Hle; lia]|].
  replace (S (length pre) + 40 - (S (length pre) + 8)) with 32 by lia.
  replace (drop (S (length pre) + 8) (tag :: pre ++ entry off h ++ es))
    with (drop 8 (entry off h ++ es)) by (simpl; by rewrite <-drop_drop, drop_app_length).
  change (take 32 (drop 8 (entry off h ++ es))) with (child (entry off h ++ es) 0).
  rewrite child_head by done. wp_step.
  eapply wp_mono; [by eapply Hbody| |done]. cbn beta. intros _ g1 [Hm1 Hv1].
  replace (S (length pre) + 40) with (S (length (pre ++ entry off h))) by (rewrite length_app; lia).
  replace (pre ++ entry off h ++ es) with ((pre ++ entry off h) ++ es) by (by rewrite <-app_assoc).
  eapply wp_mono; [apply IH; [done|apply Hm1|lia]|..]; cbn beta.
  - intros _ g2 [Hm2 Hv2]. split.
    + eapply marks_trans; [exact Hm1|exact Hm2|..].
      * intros x Hx. exists 0. rewrite child_head, length_app by done. split; [lia|done].
      * intros x (i & Hi & Hx). exists (S i). rewrite child_tail, length_app by done. split; [lia|done].
    + intros [|i] Hi; rewrite length_app in Hi.
      * rewrite child_head by done. by apply (ms_grows _ _ _ Hm2).
      * rewrite child_tail by done. apply Hv2. lia.
  - intros e g2. unfold stopped. apply framed_trans, Hm1.
Qed.

Lemma markHTree_spec depth : ∀ lvl h off d g,
  tree_at minsz s0 lvl h off d → lvl < depth → lvl ≤ 255 → marking g →
  wp (markHTree depth h) (λ _ g', marks (block_in h) g g' ∧ h ∈ visited g') (stopped g) g.
Proof.
  induction depth as [|depth IH]; intros lvl h off d g Ht Hd Hl Hm; [lia|].
  cbn [markHTree]. wp_step. unfold is_visited. wp_step. case_bool_decide as Hv.
  { wp_step. split; [by apply marks_refl|done]. }
  destruct Ht as [h off d Hh _ _ _|lvl h off es d Hh _ _ _ _ Hf]; wp_step;
    (eapply wp_mono; [by eapply on_store_Get| |done]; cbn beta; intros data g1 (-> & Hm1 & Hv1));
    wp_step; (eapply wp_lift_ok; [done|]).
  - rewrite bool_decide_eq_true_2 by done.
    eapply wp_mono; [apply (visit_spec (block_in h)); [apply Hm1|constructor|]|..]; cbn beta.
    + intros tag es i Hd'. pose proof (holds_fun _ _ _ _ Hh Hd') as [= <- _]. done.
    + intros _ g2 [Hm2 Hv2]. split; [|done]. by eapply marks_trans.
    + intros e g2. unfold stopped. apply framed_trans, Hm1.
  - destruct (tag_node lvl ltac:(lia)) as [Hne Hx01]. rewrite bool_decide_eq_false_2 by done. wp_step.
    assert (Hbody : ∀ h' off' d' g', tree_at minsz s0 lvl h' off' d' → marking g' →
      wp ((if bool_decide (nbyte (S lvl) = Byte.x01) then visit h' else mret ());; markHTree depth h')
        (λ _ g'', marks (block_in h') g' g'' ∧ h' ∈ visited g'') (stopped g') g').
    { intros h' off' d' g' Ht' Hm'. wp_step.
      apply (wp_mono _ (λ _ g'', marks (block_in h') g' g'') _ (stopped g')); [| |done].
      - case_bool_decide as Htag; [|wp_step; by apply marks_refl]. apply Hx01 in Htag as ->.
        inversion Ht' as [? ? ? Hh' _ _ _|]; subst.
        eapply wp_mono; [apply (visit_spec (block_in h')); [done|constructor|]|by intros ? ? []|done].
        intros tag es' i Hd'. pose proof (holds_fun _ _ _ _ Hh' Hd') as [= <- _]. done.
      - intros _ g2 Hm2. eapply wp_mono; [eapply (IH lvl); [done|lia|lia|apply Hm2]|..]; cbn beta.
        + intros _ g3 [Hm3 Hv3]. split; [by eapply marks_trans|done].
        + intros e g3. unfold stopped. apply framed_trans, Hm2. }
    eapply wp_mono; [apply (for_entries_spec lvl _ _ off es d Hbody Hf []); [apply Hm1|simpl; lia]|..]; cbn beta.
    + intros _ g2 [Hm2 Hc2]. eapply wp_mono; [apply (visit_spec (block_in h)); [apply Hm2|constructor|]|..]; cbn beta.
      * intros tag es' i Hd' _ Hi. pose proof (holds_fun _ _ _ _ Hh Hd') as [= <- <-]. by apply Hc2.
      * intros _ g3 [Hm3 Hv3]. split; [|done].
        eapply marks_trans; [exact Hm1| |done|done].
        eapply marks_trans; [exact Hm2|exact Hm3| |done].
        intros x (i & Hi & Hx). by eapply block_child.
      * intros e g3. unfold stopped. apply framed_trans. eapply framed_trans; [apply Hm1|apply Hm2].
    + intros e g2. unfold stopped. apply framed_trans, Hm1.
Qed.
End Tree.

(** ** Directories *)

(** The entry of a file has a tree. *)
Definition file_ok (e : DirEnt) : Prop :=
  Depth (EntHTree e) ≤ nlevels - 2 ∧
  ∃ minsz d, tree_at minsz s0 (Depth (EntHTree e)) (Data (EntHTree e)) 0 d.

(** [fs_at n h]: a directory with [n] levels of directories at most. *)
Inductive fs_at : nat → hash → Prop :=
  | fs_at_intro n t mode ents :
      dir_at fuel s0 t mode ents →
      (∀ e, e ∈ ents → IsDir e = true → fs_at n (Data (EntHTree e))) →
      (∀ e, e ∈ ents → IsDir e = false → file_ok e) →
      fs_at (S n) (Data t).

Inductive fs_block : hash → hash → Prop :=
  | fs_block_tree h x : block_in h x → fs_block h x
  | fs_block_file t mode ents e x :
      dir_at fuel s0 t mode ents → e ∈ ents → IsDir e = false →
      block_in (Data (EntHTree e)) x → fs_block (Data t) x
  | fs_block_dir t mode ents e x :
      dir_at fuel s0 t mode ents → e ∈ ents → IsDir e = true →
      fs_block (Data (EntHTree e)) x → fs_block (Data t) x.

Definition ent_block (e : DirEnt) (x : hash) : Prop :=
  if IsDir e then fs_block (Data (EntHTree e)) x else block_in (Data (EntHTree e)) x.

Lemma fs_block_inv h x :
  fs_block h x →
  block_in h x ∨ ∃ t mode ents e, Data t = h ∧ dir_at fuel s0 t mode ents ∧ e ∈ ents ∧ ent_block e x.
Proof.
  unfold ent_block. destruct 1 as [h x Hx|t mode ents e x Hd He Hde Hx|t mode ents e x Hd He Hde Hx]; [by left|..];
    right; exists t, mode, ents, e; by rewrite Hde.
Qed.

(** All of [B] is visited. *)
Definition complete (B : hash → Prop) g : Prop := ∀ x, B x → x ∈ visited g.

Lemma complete_grows B B' g g' : complete B g → marks B' g g' → complete B g'.
Proof. intros Hc Hm x Hx. apply (ms_grows _ _ _ Hm). auto. Qed.

Lemma complete_tree h g : marking g → h ∈ visited g → complete (block_in h) g.
Proof. intros [_ Hc] Hh x. by apply closed_block. Qed.

(** What [ReadDir] returns is the one directory there. *)
Lemma ReadDir_unique s t mode ents :
  dir_at fuel s t mode ents →
  wp (ReadDir sz fuel (Data t))
    (λ r s', (∀ t' mode' ents', Data t' = Data t → dir_at fuel s t' mode' ents' →
                                r = dot_ent mode' t' :: ents') ∧ keeps s s')
    (λ e _, get_fails e) s.
Proof.
  intros Hd. pose proof (ReadDir_spec sz fuel Hsz Heof s t mode ents Hd) as Hr. unfold wp in *.
  destruct (ReadDir sz fuel (Data t) s) as [[r| | |] s'] eqn:E; try done.
  split; [|by destruct Hr]. intros t' mode' ents' Ht' Hd'.
  pose proof (ReadDir_spec sz fuel Hsz Heof s t' mode' ents' Hd') as Hr'. unfold wp in Hr'.
  rewrite Ht', E in Hr'. by destruct Hr'.
Qed.

Lemma markHTree_visited depth h g :
  0 < depth → h ∈ visited g → markHTree depth h g = (Ok (), g).
Proof.
  intros Hd Hh. destruct depth; [lia|]. cbn [markHTree].
  unfold is_visited, gets, mbind, M_bind. by rewrite bool_decide_eq_true_2.
Qed.

Lemma nlevels_bounds : 3 ≤ nlevels ∧ nlevels ≤ 256.
Proof. split; [apply nlevels_three|apply nlevels_byte]. Qed.

Lemma mark_ent_spec depth mark_dir e g :
  nlevels ≤ depth → marking g →
  (IsDir e = true → ∀ g', marking g' → wp (mark_dir (Data (EntHTree e)))
     (λ _ g'', marks (fs_block (Data (EntHTree e))) g' g'' ∧
               complete (fs_block (Data (EntHTree e))) g'') (stopped g') g') →
  (IsDir e = false → file_ok e) →
  wp (mark_ent depth mark_dir e)
    (λ _ g', marks (ent_block e) g g' ∧ complete (ent_block e) g') (stopped g) g.
Proof.
  intros Hd Hm Hdir Hfile. pose proof nlevels_bounds. unfold mark_ent, ent_block. wp_step.
  destruct (IsDir e).
  - eapply wp_mono; [by apply Hdir| |done]. cbn beta. intros _ g1 [Hm1 Hc1].
    assert (Hv : Data (EntHTree e) ∈ visited g1) by (apply Hc1; do 2 constructor).
    case_bool_decide.
    + eapply wp_mono; [apply (visit_spec (λ x, x = Data (EntHTree e))); [apply Hm1|done|]|..]; cbn beta.
      * intros tag es i. eapply mk_closed; [apply Hm1|done].
      * intros _ g2 [Hm2 _]. split; [|by eapply complete_grows].
        eapply marks_trans; [done..|]. intros x ->. do 2 constructor.
      * intros e' g2. unfold stopped. apply framed_trans, Hm1.
    + unfold wp. by rewrite markHTree_visited by (lia || done).
  - wp_step. destruct (Hfile eq_refl) as (Hlvl & minsz & d & Ht). case_bool_decide as H0'.
    + rewrite H0' in Ht. inversion Ht as [? ? ? Hh _ _ _|]; subst.
      eapply wp_mono; [apply (visit_spec (block_in (Data (EntHTree e)))); [done|constructor|]| |done]; cbn beta.
      * intros tag es i Hd'. pose proof (holds_fun _ _ _ _ Hh Hd') as [= <- _]. done.
      * intros _ g2 [Hm2 Hv2]. split; [done|]. apply complete_tree; [apply Hm2|done].
    + eapply wp_mono; [eapply markHTree_spec; [exact Ht|lia|lia|done]| |done]. cbn beta.
      intros _ g2 [Hm2 Hv2]. split; [done|]. apply complete_tree; [apply Hm2|done].
Qed.

Lemma mark_ents_spec depth mark_dir es : ∀ g,
  nlevels ≤ depth → marking g →
  (∀ e, e ∈ es → IsDir e = true → ∀ g', marking g' → wp (mark_dir (Data (EntHTree e)))
     (λ _ g'', marks (fs_block (Data (EntHTree e))) g' g'' ∧
               complete (fs_block (Data (EntHTree e))) g'') (stopped g') g') →
  (∀ e, e ∈ es → IsDir e = false → file_ok e) →
  wp (mark_ents depth mark_dir es)
    (λ _ g', marks (λ x, ∃ e, e ∈ es ∧ ent_block e x) g g' ∧
             ∀ e, e ∈ es → complete (ent_block e) g') (stopped g) g.
Proof.
  induction es as [|e es IH]; intros g Hd Hm Hdir Hfile; simpl.
  { wp_step. split; [by apply marks_refl|]. by intros e ?%not_elem_of_nil. }
  wp_step. eapply wp_mono; [apply mark_ent_spec; [done|done|..]| |done]; cbn beta.
  - apply Hdir. by left.
  - apply Hfile. by left.
  - intros _ g1 [Hm1 Hc1]. eapply wp_mono; [apply (IH g1); [done|apply Hm1|..]|..]; cbn beta.
    + intros e' He'. apply Hdir. by right.
    + intros e' He'. apply Hfile. by right.
    + intros _ g2 [Hm2 Hc2]. split.
      * eapply marks_trans; [exact Hm1|exact Hm2|..].
        -- intros x Hx. exists e. split; [by left|done].
        -- intros x (e' & He' & Hx). exists e'. split; [by right|done].
      * intros e' [->|He']%elem_of_cons; [by eapply complete_grows|by apply Hc2].
    + intros e' g2. unfold stopped. apply framed_trans, Hm1.
Qed.

(** Reading through the store. *)
Lemma on_store_wp {A} (m : M St A) Q E g :
  marking g →
  wp m (λ a s', Q a ∧ keeps (store g) s') E (store g) →
  wp (on_store m) (λ a g', Q a ∧ marks (λ _, False) g g' ∧ visited g' = visited g) (stopped g) g.
Proof.
  intros [Hk Hc] Hm. unfold on_store. wp_step. eapply wp_mono; [exact Hm|..]; cbn beta.
  - intros a s' [Ha Hk']. split; [done|]. split; [|done]. split; [|split; [by etrans|done]|done|auto].
    exists s', (visited g). by destruct g.
  - intros e s' _. exists s', (visited g). by destruct g.
Qed.

Lemma markFsDir_spec depth n : ∀ h g,
  nlevels ≤ depth → fs_at n h → marking g →
  wp (markFsDir sz fuel depth n h) (λ _ g', marks (fs_block h) g g' ∧ complete (fs_block h) g')
    (stopped g) g.
Proof.
  induction n as [|n IH]; intros h g Hd Hfs Hm; inversion Hfs as [? t mode ents Hdir Hdirs Hfiles]; subst.
  pose proof Hdir as (_ & _ & _ & Hlvl & _ & Ht). pose proof nlevels_bounds. cbn [markFsDir]. wp_step.
  eapply wp_mono; [eapply markHTree_spec; [exact Ht|lia|lia|done]| |done]. cbn beta. intros _ g1 [Hm1 Hv1].
  wp_step. eapply wp_mono; [apply (on_store_wp _ (λ r, ∀ t' mode' ents', Data t' = Data t →
     dir_at fuel s0 t' mode' ents' → r = dot_ent mode' t' :: ents') (λ e _, get_fails e)); [apply Hm1|]|..];
    cbn beta.
  { eapply wp_mono; [eapply (ReadDir_unique _ t mode ents)|..]; cbn beta.
    - eapply dir_at_keeps; [apply Hm1|done].
    - intros r s' [Hr Hk]. split; [|done]. intros t' mode' ents' Ht' Hd'. apply Hr; [done|].
      eapply dir_at_keeps; [apply Hm1|done].
    - intros e s' He. exact He. }
  2: { intros e g2. unfold stopped. apply framed_trans, Hm1. }
  intros r g2 (Hr & Hm2 & Hv2). rewrite (Hr t mode ents eq_refl Hdir). wp_step.
  eapply wp_lift_ok; [apply slice_ok; simpl; lia|]. simpl. rewrite Nat.sub_0_r, take_ge, drop_0 by done.
  assert (Hm12 : marks (fs_block (Data t)) g g2).
  { eapply marks_trans; [exact Hm1|exact Hm2| |done]. by constructor. }
  eapply wp_mono; [apply mark_ents_spec; [done|apply Hm2| |done]|..]; cbn beta.
  - intros e He Hde g' Hm'. by apply IH; auto.
  - intros _ g3 [Hm3 Hc3]. split.
    + eapply marks_trans; [exact Hm12|exact Hm3|done|]. intros x (e & He & Hx). unfold ent_block in Hx.
      destruct (IsDir e) eqn:Hde; [by eapply fs_block_dir|by eapply fs_block_file].
    + intros x [Hx|(t' & mode' & ents' & e & Ht' & Hd' & He & Hx)]%fs_block_inv.
      * apply (ms_grows _ _ _ Hm3). rewrite Hv2. apply complete_tree with (Data t); [apply Hm1|done|done].
      * pose proof (Hr t mode ents eq_refl Hdir) as E1. rewrite (Hr t' mode' ents' Ht' Hd') in E1.
        injection E1 as _ _ ->. by apply (Hc3 e He).
  - intros e g3. unfold stopped. apply framed_trans, Hm12.
Qed.

(** ** Versions *)

(** [repo_at n m h]: [h] names a version with at most [m] versions, itself
    included, of trees of at most [n] levels. *)
Inductive repo_at (n : nat) : nat → hash → Prop :=
  | repo_at_intro m h r :
      ref_at s0 h r → fs_at n (Root r) →
      (HasPrev r = true → repo_at n m (Prev r)) → repo_at n (S m) h.

Inductive repo_block : hash → hash → Prop :=
  | repo_block_tree h x : block_in h x → repo_block h x
  | repo_block_root h r x : ref_at s0 h r → fs_block (Root r) x → repo_block h x
  | repo_block_prev h r x :
      ref_at s0 h r → HasPrev r = true → repo_block (Prev r) x → repo_block h x.

(** The zero hash names nothing, so marking it fails. *)
Lemma ReadDir_zero s : no_zero → wp (ReadDir sz fuel no_hash) (λ _ _, False) (λ _ _, True) s.
Proof.
  intros no_zero. unfold ReadDir. wp_step. apply wp_with_reader. wp_step. unfold Htree.NewReader, r_get. wp_steps. simpl.
  eapply wp_mono; [apply no_zero|done|done].
Qed.

Lemma markFsDir_zero depth n g :
  no_zero → 0 < depth → 0 < n → wp (markFsDir sz fuel depth n no_hash) (λ _ _, False) (stopped g) g.
Proof.
  intros Hz Hd Hn. destruct n as [|n]; [lia|]. destruct depth as [|depth]; [lia|]. cbn [markFsDir]. wp_step.
  destruct (decide (no_hash ∈ visited g)) as [Hv|Hv].
  - unfold wp at 1. rewrite markHTree_visited by (lia || done). wp_step. unfold on_store. wp_step.
    eapply wp_mono; [by apply ReadDir_zero|done|]. intros e s' _. exists s', (visited g). by destruct g.
  - cbn [markHTree]. wp_step. unfold is_visited. wp_step. rewrite bool_decide_eq_false_2 by done.
    wp_step. unfold on_store. wp_step. eapply wp_mono; [apply Hz|done|].
    intros e s' _. exists s', (visited g). by destruct g.
Qed.

(** [GetRef] returns the one reference there, or the zero reference. *)
Lemma GetRef_unique s h r :
  ref_at s h r →
  wp (GetRef sz fuel h)
    (λ r' s', r' = zero_ref ∧ no_zero ∨ keeps s s' ∧ ∀ r2, ref_at s h r2 → r' = r2) (λ _ _, False) s.
Proof.
  intros Hr. pose proof (GetRef_spec sz fuel Hsz Hfuel Heof s h r Hr) as Hg. unfold wp in *.
  destruct (GetRef sz fuel h s) as [[r'| | |] s'] eqn:E; try done.
  assert (Hcase : r' = zero_ref ∧ no_zero ∨ ¬ (r' = zero_ref ∧ ∃ e, get_fails e)).
  { destruct reliable as [Hno|Hz]; [right; naive_solver|].
    destruct (decide (r' = zero_ref)); [by left|right; naive_solver]. }
  destruct Hcase as [|Hz]; [by left|right]. split; [naive_solver|]. intros r2 Hr2.
  pose proof (GetRef_spec sz fuel Hsz Hfuel Heof s h r2 Hr2) as Hg2. unfold wp in Hg2.
  rewrite E in Hg2. naive_solver.
Qed.

Lemma markRef_spec depth n m : ∀ h g,
  nlevels ≤ depth → repo_at n m h → marking g →
  wp (markRef sz fuel depth n m h)
    (λ _ g', marks (repo_block h) g g' ∧ complete (repo_block h) g') (stopped g) g.
Proof.
  induction m as [|m IH]; intros h g Hd Hrepo Hm; inversion Hrepo as [? ? r Href Hfs Hprev]; subst.
  pose proof nlevels_bounds. pose proof Href as (_ & lvl & Hlvl & Ht). cbn [markRef]. wp_step.
  eapply wp_mono; [eapply markHTree_spec; [exact Ht|lia|lia|done]| |done]. cbn beta. intros _ g1 [Hm1 Hv1].
  wp_step. unfold on_store. wp_step.
  assert (Hk1 : keeps s0 (store g1)) by apply Hm1.
  eapply wp_mono; [eapply GetRef_unique, ref_at_keeps; [exact Hk1|done]| |done]. cbn beta.
  intros r' s' [[-> Hz]|[Hk Hu]].
  { wp_step. inversion Hfs; subst. eapply wp_mono; [apply markFsDir_zero; (done || lia)|done|].
    cbn beta. intros e g2. unfold stopped. apply framed_trans. eapply framed_trans; [apply Hm1|].
    exists s', (visited g1). by destruct g1. }
  assert (Hu' : ∀ r2, ref_at s0 h r2 → r2 = r).
  { intros r2 Hr2. rewrite <-(Hu r2) by (by eapply ref_at_keeps). apply Hu. by eapply ref_at_keeps. }
  assert (r' = r) as -> by (apply Hu; by eapply ref_at_keeps).
  set (g2 := set_store s' g1).
  assert (Hm12 : marks (repo_block h) g g2).
  { eapply (marks_trans _ _ (λ _, False)); [exact Hm1| |by constructor|done].
    split; [exists s', (visited g1); by destruct g1| |done|auto].
    split; [simpl; by etrans|apply Hm1]. }
  wp_step. eapply wp_mono; [apply (markFsDir_spec depth n (Root r) g2); [done|done|apply Hm12]|..]; cbn beta; cycle 1.
  { intros e g3. unfold stopped. apply framed_trans, Hm12. }
  intros _ g3 [Hm3 Hc3].
  assert (Hm13 : marks (repo_block h) g g3).
  { eapply marks_trans; [exact Hm12|exact Hm3|done|]. intros x. by apply repo_block_root. }
  assert (Hdone : ∀ g4, marks (repo_block h) g3 g4 →
    (HasPrev r = true → complete (repo_block (Prev r)) g4) → complete (repo_block h) g4).
  { intros g4 Hm4 Hp4 x Hx. destruct Hx as [h x Hx|h r2 x Hr2 Hx|h r2 x Hr2 Hh Hx].
    - apply (complete_tree h g4); [apply Hm4| |done]. apply (ms_grows _ _ _ Hm4), (ms_grows _ _ _ Hm3). exact Hv1.
    - rewrite (Hu' r2 Hr2) in Hx. apply (ms_grows _ _ _ Hm4). by apply Hc3.
    - rewrite (Hu' r2 Hr2) in *. by apply Hp4. }
  destruct (HasPrev r) eqn:Hhp.
  - eapply wp_mono; [apply (IH (Prev r) g3); [done|by apply Hprev|apply Hm3]|..]; cbn beta.
    + intros _ g4 [Hm4 Hc4].
      assert (Hm34 : marks (repo_block h) g3 g4).
      { eapply marks_mono; [exact Hm4|]. intros x. by apply repo_block_prev. }
      split; [by eapply marks_trans|auto].
    + intros e g4. unfold stopped. apply framed_trans, Hm13.
  - wp_step. split; [done|]. apply Hdone; [|done]. apply marks_refl, Hm3.
Qed.

(** Marking from nothing. *)
Lemma markRef_exact depth n m h g :
  nlevels ≤ depth → repo_at n m h → store g = s0 → visited g = ∅ →
  wp (markRef sz fuel depth n m h)
    (λ _ g', framed g g' ∧ ∀ x, x ∈ visited g' ↔ repo_block h x) (stopped g) g.
Proof.
  intros Hd Hrepo Hs Hv.
  assert (Hm : marking g).
  { split; [by rewrite Hs|]. intros h' tag es i Hh. rewrite Hv in Hh. by apply elem_of_empty in Hh. }
  eapply wp_mono; [by apply (markRef_spec depth n m h g)| |done]. cbn beta.
  intros _ g' [[Hf _ _ Hb] Hc]. split; [done|]. intros x. split; [|apply Hc].
  intros Hx. destruct (Hb x Hx) as [Hx'|]; [|done]. rewrite Hv in Hx'. by apply elem_of_empty in Hx'.
Qed.
End Mark.
