(* ===== verification/GcProps.v ===== *)
(** The garbage collector keeps what is reachable and removes the rest.

    The theorems about the two phases and about [GC] as a whole, and a run of the
    collector over a server in memory. *)

From Stdlib Require Import ZArith Lia.
From stdpp Require Import base list gmap sets strings.
From coqutil Require Import Byte.
From S2P Require Import Prelude Store Io Htree HtreeSpec HtreeWrite HtreeRead HtreeProps.
From S2P Require Import Bpack Fs FsProps FsTree FsDemo Refs Remote Cache CacheClient Packs PacksMem Gc GcMark GcSweep.

Set Default Goal Selector "!".

Section Theorems.
Context {P : Params} {Pok : ParamsOk} {St : Type} `{CStoreLaws St} {R : Type} `{PackLaws R}.
Context (good : hash → bytes → Prop) {Ca : Type} `{RawCacheLaws Ca good}.
Context (sz : nat → nat) (fuel : nat) (HMAC : bytes → bytes → bytes).
Abbreviation gcState := (gcState (St := St) (R := R) (Ca := Ca)).
Implicit Types (g : gcState).

(** The root that is accepted. *)
Lemma GetRoot_root key r root :
  wp TGetRoot (λ reply _, ReplyOk reply = true → ParseHash (Value reply) = Ok root) (λ _ _, True) r →
  wp (GetRoot HMAC key)
    (λ '(h, _, ok) r', view_of r' = view_of r ∧ (ok = true → h = root))
    (λ _ r', view_of r' = view_of r) r.
Proof.
  intros Hroot. unfold GetRoot. wp_step.
  eapply wp_mono; [apply wp_and; [apply TGetRoot_law|exact Hroot]|..]; cbn beta; [|by intros e r' [[_ ?] _]].
  intros reply r' [Hr Hv]. destruct (ReplyOk reply); simpl; [|by wp_step].
  case_bool_decide; [by wp_step|]. wp_step. eapply wp_lift_ok; [by apply Hv|]. by wp_step.
Qed.

(** C22: marking from a version visits exactly the blocks of its trees, of
    every directory and file below its root and of all versions before it: the
    marking functions return, unless the store fails, and neither miss a block
    nor visit one that is not reachable. *)
Theorem gc_mark_exact depth n m h g :
  (∀ i, 1 ≤ sz i) → ¬ get_fails EOF → 72 < fuel →
  (∀ (s : St) h d1 d2, holds s h d1 → holds s h d2 → d1 = d2) →
  (∀ e, ¬ get_fails e) ∨ no_zero (St := St) →
  nlevels ≤ depth → repo_at fuel (store g) n m h → visited g = ∅ →
  wp (markRef sz fuel depth n m h)
    (λ _ g', c g' = c g ∧ ∀ x, x ∈ visited g' ↔ repo_block fuel (store g) h x)
    (λ _ g', c g' = c g) g.
Proof.
  intros Hsz Heof Hfu Hfun Hrel Hd Hrepo Hv.
  eapply wp_mono; [by eapply (markRef_exact sz fuel Hsz Heof Hfu Hfun Hrel (store g))|..]; cbn beta.
  - by intros _ g' [(s & v & ->) Hx].
  - by intros e g' (s & v & ->).
Qed.

(** C21: sweeping keeps every marked block: whether it ends normally or with
    an error at any point, each marked block that some pack had is still in a
    pack, with a value of that block; when it ends normally, the packs have
    nothing else. *)
Theorem gc_sweep_exact g :
  (∀ h v, good h v → v ≠ []) →
  cache_fine good (cache g) → newPack g = None → moved g = ∅ → canDelete g = [] →
  map_Forall (λ _ p, sweepable good p) (packs (view_of (c g))) →
  wp sweep
    (λ _ g', safe good (packs (view_of (c g))) (visited g) (view_of (c g')) ∧
             ∀ x, stored (packs (view_of (c g'))) x ↔ x ∈ visited g ∧ stored (packs (view_of (c g))) x)
    (λ _ g', safe good (packs (view_of (c g))) (visited g) (view_of (c g'))) g.
Proof.
  intros Hgood Hca Hnp Hmv Hcd Hm. by apply (sweep_spec good Hgood _ (visited g)).
Qed.

(** The whole collection, whatever is [good] of the values. *)
Definition all_good g : Prop := ∀ path p, packs (view_of (c g)) !! path = Some p → good_pack good p.

Lemma GC_spec depth n m root g :
  (∀ i, 1 ≤ sz i) → ¬ get_fails EOF → 72 < fuel →
  (∀ (s : St) h d1 d2, holds s h d1 → holds s h d2 → d1 = d2) →
  (∀ e, ¬ get_fails e) ∨ no_zero (St := St) →
  (∀ s : St, wp Store.Close (λ _ _, True) (λ _ _, True) s) →
  (∀ ep r, TStartGC (c g) = (Ok ep, r) →
     wp TGetRoot (λ reply _, ReplyOk reply = true → ParseHash (Value reply) = Ok root) (λ _ _, True) r) →
  nlevels ≤ depth → repo_at fuel (store g) n m root →
  (∀ h v, good h v → v ≠ []) → cache_fine good (cache g) →
  map_Forall (λ _ p, sweepable good p) (packs (view_of (c g))) →
  wp (GC sz fuel HMAC depth n m)
    (λ _ g', all_good g' ∧
             ∀ x, stored (packs (view_of (c g'))) x ↔
                  repo_block fuel (store g) root x ∧ stored (packs (view_of (c g))) x)
    (λ _ g', all_good g' ∧
             ∀ x, repo_block fuel (store g) root x → stored (packs (view_of (c g))) x →
                  stored (packs (view_of (c g'))) x) g.
Proof.
  intros Hsz Heof Hfu Hfun Hrel Hclose Hroot Hd Hrepo Hgood Hca Hm. unfold GC, on_c, on_store, StartGC, StopGC.
  wp_steps.
  (* a server that has the packs it had *)
  assert (Hsame : ∀ g', packs (view_of (c g')) = packs (view_of (c g)) → all_good g' ∧
    ∀ x, repo_block fuel (store g) root x → stored (packs (view_of (c g))) x → stored (packs (view_of (c g'))) x).
  { intros g' Hg'. unfold all_good. rewrite Hg'. split; [|done]. intros path p Hp. apply (Hm path p Hp). }
  eapply wp_mono; [apply wp_eqn, TStartGC_law|..]; cbn beta; [|intros e r [_ Hr]; apply Hsame; simpl; congruence].
  intros ep r1 [Hr1 Hstart]. wp_steps. simpl.
  eapply wp_mono; [apply (GetRoot_root (k g) r1 root (Hroot ep r1 Hstart))|..]; cbn beta; cycle 1.
  { intros e r2 Hr2. apply Hsame. simpl. congruence. }
  intros [[h ver] ok] r2 [Hr2 Hh]. destruct ok; simpl; [|wp_step; apply Hsame; simpl; congruence].
  rewrite (Hh eq_refl). set (g1 := set_c r2 _). wp_step.
  eapply wp_mono; [by eapply (markRef_exact sz fuel Hsz Heof Hfu Hfun Hrel (store g))|..]; cbn beta; cycle 1.
  { intros e g2 (s & v & ->). apply Hsame. simpl. congruence. }
  intros _ g2 [(s & v & ->) Hlive]. simpl in Hlive. wp_steps.
  eapply wp_mono; [apply Hclose|..]; cbn beta; [|intros e s' _; apply Hsame; simpl; congruence].
  intros _ s' _. wp_steps. set (g3 := set_store s' _).
  assert (Hm3 : packs (view_of (c g3)) = packs (view_of (c g))) by (simpl; congruence).
  eapply wp_mono; [apply (sweep_spec good Hgood (packs (view_of (c g))) v g3); (done || by rewrite Hm3)|..];
    cbn beta.
  - intros _ g4 [[_ Hall] Hex]. wp_steps. eapply wp_mono; [apply TStopGC_law|..]; cbn beta; simpl.
    + intros _ r5 Hr5. unfold all_good. simpl. rewrite Hr5. split; [done|]. intros x. by rewrite Hex, Hlive.
    + intros e r5 [_ Hr5]. unfold all_good. simpl. rewrite Hr5. split; [done|]. intros x Hx Hst. by rewrite Hex, Hlive.
  - intros e g4 [Hs Hall]. split; [done|]. intros x Hx Hst. apply Hs; [by apply Hlive|done].
Qed.
End Theorems.

Section Kept.
Context {P : Params} {Pok : ParamsOk} {St : Type} `{CStoreLaws St} {R : Type} `{PackLaws R} {Ca : Type} `{RawCache Ca}.
Context (sz : nat → nat) (fuel : nat) (HMAC : bytes → bytes → bytes).
Implicit Types (g : gcState (St := St) (R := R) (Ca := Ca)) (m : gmap bytes pack).

Lemma sound_sweepable m : map_Forall (λ _ p, sound_pack p) m → map_Forall (λ _ p, sweepable (held m) p) m.
Proof.
  intros Hm path p Hp. destruct (Hm path p Hp) as (Hnd & Hf & Hsz). split_and!; [done| |..|done].
  - apply Forall_fmap. eapply Forall_impl; [exact Hf|]. by intros kv [? _].
  - apply Forall_forall. intros [h v] Hkv. by exists path, p.
Qed.
Lemma sound_nonempty m h v : map_Forall (λ _ p, sound_pack p) m → held m h v → v ≠ [].
Proof.
  intros Hm (path & p & Hp & Hkv). destruct (Hm path p Hp) as (_ & Hf & _). rewrite Forall_forall in Hf.
  by apply (Hf (h, v)).
Qed.

(** C6: a garbage collection never loses a reachable block.  However it ends, every block that the
    signed root reaches and that some pack had before is in a pack afterwards, and every value in
    a pack is one that a pack had before for the same hash; when it succeeds, the packs
    hold exactly the reachable blocks they held before.  The cache has copies of what the packs
    have, if anything. *)
Theorem gc_keeps_reachable depth n k root g {RL : RawCacheLaws Ca (held (packs (view_of (c g))))} :
  let m := packs (view_of (c g)) in
  (∀ i, 1 ≤ sz i) → ¬ get_fails EOF → 72 < fuel →
  (∀ (s : St) h d1 d2, holds s h d1 → holds s h d2 → d1 = d2) →
  (∀ e, ¬ get_fails e) ∨ no_zero (St := St) →
  (∀ s : St, wp Store.Close (λ _ _, True) (λ _ _, True) s) →
  (∀ ep r, TStartGC (c g) = (Ok ep, r) →
     wp TGetRoot (λ reply _, ReplyOk reply = true → ParseHash (Value reply) = Ok root) (λ _ _, True) r) →
  nlevels ≤ depth → repo_at fuel (store g) n k root →
  cache_fine (held m) (cache g) → map_Forall (λ _ p, sound_pack p) m →
  wp (GC sz fuel HMAC depth n k)
    (λ _ g', let m' := packs (view_of (c g')) in
       (∀ x v, held m' x v → held m x v) ∧
       ∀ x, (∃ v, held m' x v) ↔ repo_block fuel (store g) root x ∧ ∃ v, held m x v)
    (λ _ g', let m' := packs (view_of (c g')) in
       (∀ x v, held m' x v → held m x v) ∧
       ∀ x, repo_block fuel (store g) root x → (∃ v, held m x v) → ∃ v, held m' x v) g.
Proof.
  intros m Hsz Heof Hfu Hfun Hrel Hclose Hroot Hd Hrepo Hca Hm.
  assert (Hheld : ∀ g', all_good (held m) g' → ∀ x v, held (packs (view_of (c g'))) x v → held m x v).
  { intros g' Hall x v (path & p & Hp & Hkv). apply Hall in Hp. unfold good_pack in Hp. rewrite Forall_forall in Hp. by apply (Hp (x, v)). }
  eapply wp_mono; [apply (GC_spec (held m) sz fuel HMAC depth n k root g); try done|..]; cbn beta zeta.
  - intros h v. by apply sound_nonempty.
  - by apply sound_sweepable.
  - intros _ g' [Hall Hx]. split; [by apply Hheld|]. intros x. rewrite <-!stored_held. apply Hx.
  - intros e g' [Hall Hx]. split; [by apply Hheld|]. intros x. rewrite <-!stored_held. apply Hx.
Qed.
End Kept.

(** ** A collection over a server in memory *)
Module GcDemo.
Import FsDemo.
#[local] Existing Instances params fs_params_ok FsDemo.store laws mem_client mem_packs mem_laws.

Definition raw_good (h : hash) (v : bytes) : Prop := v ≠ [].
#[local] Instance mem_cache : RawCache (gmap bytes bytes) := {|
  GetRaw h := gets (λ m, match m !! h with Some v => (v, true) | None => ([], false) end);
  PutRaw h v := modify (λ m, <[h := v]> m);
|}.
#[local] Program Instance mem_cache_laws (good : hash → bytes → Prop) : RawCacheLaws (gmap bytes bytes) good := {|
  cache_ok m := map_Forall good m;
|}.
Next Obligation.
  intros good m h Hm. unfold wp. simpl. split; [done|]. destruct (m !! h) eqn:E; [|done].
  intros _. by apply (Hm h).
Qed.
Next Obligation. intros good m h v Hm Hv. unfold wp. simpl. by apply map_Forall_insert_2. Qed.

(** One version of the tree of FsDemo. *)
Definition ref1 : Ref := mkRef 1467331200 (Data (EntHTree root)) false no_hash.
Definition root1 : hash := (step (PutRef ref1) [] s2).1.
Definition s4 : MemStore.MemStore := (step (PutRef ref1) [] s2).2.

Lemma ref1_valid : valid_ref ref1.
Proof. split_and!; try done; vm_compute; congruence. Qed.

Lemma ref1_stored : ref_at s4 root1 ref1 ∧ keeps s2 s4.
Proof.
  assert (Hok : succeeds (PutRef ref1) s2 = true) by (by vm_compute).
  pose proof (step_ok (PutRef ref1) [] s2 _ _ (PutRef_spec s2 ref1 ref1_valid) Hok) as Hp.
  unfold root1, s4. exact Hp.
Qed.

Lemma file_reached : file_ok s4 file.
Proof.
  destruct root_written as [Hk _]. destruct ref1_stored as [_ Hk'].
  destruct data_stored as (Ht & Hd & _). split; [exact Hd|].
  eexists _, _. eapply tree_at_keeps; [exact Hk'|]. eapply tree_at_keeps; [exact Hk|exact Ht].
Qed.

Lemma demo_repo : repo_at fuel s4 1 1 root1.
Proof.
  destruct ref1_stored as [Hr Hk]. econstructor; [exact Hr| |done].
  assert (Hw : wp (WriteDir [file] mode) (λ e s', ∃ t, e = dot_ent (Z.lor mode ModeDir) t ∧
    keeps s1 s' ∧ distinct [file] ∧ dir_at fuel s' t (Z.lor mode ModeDir) (Sort [file])) (λ _ _, True) s1).
  { eapply wp_mono; [apply (WriteDir_spec fuel s1 [file] mode)|done|done].
    - apply Forall_singleton. left. apply file_valid.
    - by vm_compute.
    - by apply Nat.ltb_lt.
    - eapply Nat.lt_le_trans; [|apply fuel_capacity]. by apply Nat.ltb_lt. }
  destruct (step_ok _ zero_dirent _ _ _ Hw) as (t & Ht & _ & _ & Hd); [by vm_compute|].
  assert (Hroot : Data t = Data (EntHTree root)) by (unfold root; rewrite Ht; reflexivity).
  change (Root ref1) with (Data (EntHTree root)). rewrite <-Hroot. econstructor; [eapply dir_at_keeps; [exact Hk|exact Hd]|..].
  - intros e He Hdir. rewrite Sort_perm in He. apply list_elem_of_singleton in He as ->.
    change (false = true) in Hdir. discriminate.
  - intros e He _. rewrite Sort_perm in He. apply list_elem_of_singleton in He as ->. apply file_reached.
Qed.

Definition garbage : hash := replicate 32 Byte.xee.
Definition pack1 : list (bytes * bytes) := [(garbage, str "old"); (root1, str "ref")].
Definition remote1 : MemRemote :=
  mkMem (mkView {[ pack_path (str "p1") := pack1 ]} ∅ ∅) 0
        (mkRootReply (EncodeToString root1) [] [] true).
Definition key1 : Key := mkKey [] [] [].
Definition g0 : gcState (St := MemStore.MemStore) (R := MemRemote) (Ca := gmap bytes bytes) :=
  new_gc key1 remote1 s4 (Some ∅).

Lemma root1_len : length root1 = 32.
Proof. by vm_compute. Qed.

Lemma pack1_sweepable : map_Forall (λ _ p, sweepable raw_good p) (packs (view_of (c g0))).
Proof.
  apply map_Forall_singleton. split_and!.
  - by apply (bool_decide_unpack _); vm_compute.
  - repeat constructor.
  - repeat constructor; unfold raw_good; simpl; discriminate.
  - by vm_compute.
Qed.

Lemma demo_fun (s : MemStore.MemStore) h d1 d2 : holds s h d1 → holds s h d2 → d1 = d2.
Proof. simpl. congruence. Qed.

Lemma fuel_72 : 72 < fuel.
Proof. apply Nat.ltb_lt. by vm_compute. Qed.
Lemma demo_reliable : (∀ e, ¬ get_fails (H := FsDemo.store) e) ∨ no_zero (St := MemStore.MemStore).
Proof. left. by intros e []. Qed.
Lemma demo_levels : nlevels ≤ 4.
Proof. done. Qed.
Lemma demo_nonempty h v : raw_good h v → v ≠ [].
Proof. done. Qed.
Lemma demo_cache : cache_fine raw_good (cache g0).
Proof. apply map_Forall_empty. Qed.

Lemma gc_mark_exact_witness :
  wp (markRef sz fuel 4 1 1 root1)
    (λ _ g', c g' = c g0 ∧ ∀ x, x ∈ visited g' ↔ repo_block fuel (Gc.store g0) root1 x)
    (λ _ g', c g' = c g0) g0.
Proof.
  exact (gc_mark_exact sz fuel 4 1 1 root1 g0 sz_pos no_eof fuel_72 demo_fun demo_reliable demo_levels
           demo_repo eq_refl).
Defined.

Lemma gc_sweep_exact_witness :
  wp sweep
    (λ _ g', safe raw_good (packs (view_of (c g0))) (visited g0) (view_of (c g')) ∧
             ∀ x, stored (packs (view_of (c g'))) x ↔ x ∈ visited g0 ∧ stored (packs (view_of (c g0))) x)
    (λ _ g', safe raw_good (packs (view_of (c g0))) (visited g0) (view_of (c g'))) g0.
Proof.
  exact (gc_sweep_exact raw_good g0 demo_nonempty demo_cache eq_refl eq_refl eq_refl pack1_sweepable).
Defined.

Lemma demo_root ep r :
  TStartGC (c g0) = (Ok ep, r) →
  wp TGetRoot (λ reply _, ReplyOk reply = true → ParseHash (Value reply) = Ok root1) (λ _ _, True) r.
Proof. intros [= _ <-] _. apply ParseHash_Encode. by vm_compute. Qed.
Lemma demo_close (s : MemStore.MemStore) : wp Store.Close (λ _ _, True) (λ _ _, True) s.
Proof. done. Qed.

Lemma pack1_sound : map_Forall (λ _ p, sound_pack p) (packs (view_of (c g0))).
Proof.
  apply map_Forall_singleton. split_and!.
  - by apply (bool_decide_unpack _); vm_compute.
  - repeat constructor; discriminate.
  - by vm_compute.
Qed.

Lemma gc_keeps_reachable_witness :
  let m := packs (view_of (c g0)) in
  wp (GC sz fuel (λ _ _, []) 4 1 1)
    (λ _ g', let m' := packs (view_of (c g')) in
       (∀ x v, held m' x v → held m x v) ∧
       ∀ x, (∃ v, held m' x v) ↔ repo_block fuel (Gc.store g0) root1 x ∧ ∃ v, held m x v)
    (λ _ g', let m' := packs (view_of (c g')) in
       (∀ x v, held m' x v → held m x v) ∧
       ∀ x, repo_block fuel (Gc.store g0) root1 x → (∃ v, held m x v) → ∃ v, held m' x v) g0.
Proof.
  exact (gc_keeps_reachable sz fuel (λ _ _, []) 4 1 1 root1 g0 sz_pos no_eof fuel_72 demo_fun
           demo_reliable demo_close demo_root demo_levels demo_repo (map_Forall_empty _) pack1_sound).
Defined.
End GcDemo.
