(* ===== verification/Cstore.v ===== *)
(** The content store of a client, cstore/mindex.go, reader.go and writer.go.

    Blocks are gathered, compressed, in an encrypted pack that is uploaded while
    it grows; a working set keeps the blocks of the open pack in memory.  A meta
    index, from each hash to the pack that has it, is read from the indexes of
    all packs, which are cached as files in a local directory.

    The packs are those of Packs.v.  The directory is a map from file names to
    contents; every call of the operating system may fail, as an oracle decides. *)

From Stdlib Require Import ZArith Lia.
From stdpp Require Import base list gmap sets strings.
From S2P Require Import Prelude Store Io Bpack Remote Packs.

Set Default Goal Selector "!".

(** ** The local directory *)

(** The files of the cache directory by name, and the number of system calls so
    far. *)
Record HostDir := mkDir { files : gmap bytes bytes; clock : nat }.

Definition ErrNotExist : error := ENew "file does not exist".
Definition ErrExist : error := ENew "file already exists".
Definition IsNotExist (e : error) : bool := bool_decide (e = ErrNotExist).

(** An open temporary file, and a file that is being read. *)
Record TmpFile := mkTmp { t_data : bytes; t_clock : nat }.
Record OpenFile := mkOpen { o_file : MemFile; o_clock : nat }.

Section Host.
(** Which system calls fail; a failing write has written a part. *)
Variable fault : nat → option (nat * error).

Definition syscall : M HostDir unit :=
  d ← get;
  modify (λ d, mkDir (files d) (S (clock d)));;
  match fault (clock d) with
  | Some (_, e) => throw e
  | None => mret ()
  end.

Definition set_files (fs : gmap bytes bytes) (d : HostDir) : HostDir := mkDir fs (clock d).

Definition os_Stat (name : bytes) : M HostDir unit :=
  syscall;;
  d ← get;
  if bool_decide (name ∈ dom (files d)) then mret () else throw ErrNotExist.

(** [os.Open] and what the file then holds. *)
Definition os_Open (name : bytes) : M HostDir bytes :=
  syscall;;
  d ← get;
  match files d !! name with Some c => mret c | None => throw ErrNotExist end.

(** [os.OpenFile] with [O_CREATE|O_EXCL|O_WRONLY] *)
Definition os_Create (name : bytes) : M HostDir unit :=
  syscall;;
  d ← get;
  if bool_decide (name ∈ dom (files d)) then throw ErrExist
  else modify (set_files (<[name := []]> (files d))).

Definition os_Remove (name : bytes) : M HostDir unit :=
  syscall;;
  d ← get;
  if bool_decide (name ∈ dom (files d)) then modify (set_files (delete name (files d)))
  else throw ErrNotExist.

Definition os_Rename (old new : bytes) : M HostDir unit :=
  syscall;;
  d ← get;
  match files d !! old with
  | Some c => modify (set_files (<[new := c]> (delete old (files d))))
  | None => throw ErrNotExist
  end.

(** A failing [Close] leaves what was written. *)
Definition os_Close : M HostDir unit := syscall.

(** The names of the files; nothing depends on their order. *)
Definition os_ReadDir : M HostDir (list bytes) :=
  syscall;;
  gets (λ d, (map_to_list (files d)).*1).

#[local] Instance tmp_writer : IoWriter TmpFile := {|
  io_write b :=
    t ← get;
    match fault (t_clock t) with
    | None => modify (λ t, mkTmp (t_data t ++ b) (S (t_clock t)))
    | Some (n, e) => modify (λ t, mkTmp (t_data t ++ take n b) (S (t_clock t)));; throw e
    end;
  io_wclose := mret ();
|}.

#[local] Instance open_reader : ReadSeekCloser OpenFile := {|
  rsc_reader := {| io_read n :=
    f ← get;
    modify (λ f, mkOpen (o_file f) (S (o_clock f)));;
    match fault (o_clock f) with
    | None => zoom o_file (λ m f, mkOpen m (o_clock f)) (mf_read n)
    | Some (_, e) => throw e
    end |};
  io_seek off := zoom o_file (λ m f, mkOpen m (o_clock f)) (mf_seek off);
  io_rclose := mret ();
|}.

(** [bpack.WriteIndex(tmpf, index)] into the file [name]. *)
Definition write_index (name : bytes) (ents : Index) : M HostDir unit := λ d,
  let '(o, t) := WriteIndex ents (mkTmp [] (clock d)) in
  (o, mkDir (<[name := t_data t]> (files d)) (t_clock t)).

(** [bpack.ReadIndex(f)] of a file with content [c]. *)
Definition read_index (c : bytes) : M HostDir Index := λ d,
  let '(o, (f, ents)) := ReadIndex (S (length c)) (mkOpen (mkMemFile c 0) (clock d), []) in
  ((_ ← o; Ok ents), mkDir (files d) (o_clock f)).
End Host.

(** ** mindex.go *)

Record packInfo := mkInfo { Name : bytes; InfoSize : Z; InfoIdx : Index }.
Abbreviation metaIndex := (gmap bytes packInfo).

Definition searchMetaIndex (midx : metaIndex) (h : hash) : outcome (option (packInfo * IndexEnt)) :=
  match midx !! h with
  | Some info =>
    '(packIdx, ok) ← Search (InfoIdx info) h;
    if negb ok then Panic
    else
      e ← idx (InfoIdx info) (Z.to_nat packIdx);
      Ok (Some (info, e))
  | None => Ok None
  end.

(** [packname+".index"] *)
Definition index_name (packname : bytes) : bytes := packname ++ str ".index".

(** [strings.HasSuffix] *)
Definition HasSuffix (s suffix : bytes) : bool :=
  bool_decide (length suffix ≤ length s) && bool_decide (drop (length s - length suffix) s = suffix).

(** [for i := range idx { midx[idx[i].Key] = info }] *)
Fixpoint index_all (info : packInfo) (ents : Index) (midx : metaIndex) : metaIndex :=
  match ents with
  | [] => midx
  | e :: ents => index_all info ents (<[Bpack.Key e := info]> midx)
  end.

Section Cstore.
Context {R : Type} `{PackClient R}.
Variable fault : nat → option (nat * error).
(** [compress/flate] and [crypto/sha256] *)
Variables (deflate : bytes → bytes) (inflate : bytes → outcome bytes) (Sum256 : bytes → hash).

(** The client connection and the cache directory, which readers and writers share. *)
Record Shared := mkShared { remote : R; cachepath : HostDir }.

Definition on_remote {A} : M R A → M Shared A := zoom remote (λ r s, mkShared r (cachepath s)).
Definition on_dir {A} : M HostDir A → M Shared A := zoom cachepath (λ d s, mkShared (remote s) d).

Fixpoint clean_ents (indexSet : gset bytes) (ents : list bytes) : M HostDir unit :=
  match ents with
  | [] => mret ()
  | ent :: ents =>
    (if negb (HasSuffix ent (str ".index")) then mret ()
     else if bool_decide (ent ∈ indexSet) then mret ()
     else _ ← try (os_Remove fault ent); mret ());;
    clean_ents indexSet ents
  end.

Definition cleanOldIndexes (listing : list PackListing) : M HostDir unit :=
  let indexSet : gset bytes := list_to_set (index_name ∘ PackName <$> listing) in
  dirEnts ← os_ReadDir fault;
  clean_ents indexSet dirEnts.

(** An error of [Close] is not returned; the rename that follows decides. *)
Definition cacheIndex (idxpath : bytes) (ents : Index) : M Shared unit :=
  o ← try (on_dir (os_Stat fault idxpath));
  match o with
  | inl _ => mret ()
  | inr e =>
    if negb (IsNotExist e) then throw e
    else
      tmpname ← on_remote RandomFileName;
      let tmppath := tmpname ++ str ".tmp" in
      on_dir (os_Create fault tmppath);;
      o ← try (on_dir (write_index fault tmppath ents));
      match o with
      | inr e =>
        try (on_dir (os_Close fault));;
        try (on_dir (os_Remove fault tmppath));;
        throw e
      | inl _ =>
        o ← try (on_dir (os_Close fault));
        match o with
        | inr _ => _ ← try (on_dir (os_Remove fault tmppath)); mret ()
        | inl _ => mret ()
        end;;
        o ← try (on_dir (os_Rename fault tmppath idxpath));
        match o with
        | inr e => try (on_dir (os_Remove fault tmppath));; throw e
        | inl _ => mret ()
        end
      end
  end.

Definition fetch_index (idxpath : bytes) (f : nat) : M Shared Index :=
  ents ← on_remote (pack_ReadIndex f);
  cacheIndex idxpath ents;;
  mret ents.

Definition getAndCacheIndex (packname : bytes) (packsize : Z) : M Shared Index :=
  let idxpath := index_name packname in
  o ← try (on_dir (os_Stat fault idxpath));
  match o with
  | inl _ => c ← on_dir (os_Open fault idxpath); on_dir (read_index fault c)
  | inr e =>
    if negb (IsNotExist e) then throw e
    else
      f ← on_remote (OpenPack (pack_path packname) packsize);
      deferred (fetch_index idxpath f) (on_remote (pack_CloseReader f))
  end.

Fixpoint index_packs (listing : list PackListing) (midx : metaIndex) : M Shared metaIndex :=
  match listing with
  | [] => mret midx
  | pack :: listing =>
    ents ← getAndCacheIndex (PackName pack) (PackSize pack);
    let info := mkInfo (PackName pack) (PackSize pack) ents in
    index_packs listing (index_all info ents midx)
  end.

Definition readAndCacheMetaIndex : M Shared metaIndex :=
  listing ← on_remote ListPacks;
  on_dir (cleanOldIndexes listing);;
  index_packs listing ∅.

(** ** reader.go *)

Definition NotFound : error := ENew "hash not in cstore".

(** The open packs by name, the last used one first. *)
Record Reader := mkReader { r_sh : Shared; midx : metaIndex; lru : list (bytes * nat) }.

Definition on_shared {A} : M Shared A → M Reader A := zoom r_sh (λ s r, mkReader s (midx r) (lru r)).

(** [NewReader]: the index and the list of a reader over the same connection. *)
Definition NewReader : M Shared (metaIndex * list (bytes * nat)) :=
  midx ← readAndCacheMetaIndex;
  mret (midx, []).

Definition reader_Has (h : hash) : M Reader bool :=
  r ← get;
  o ← lift (searchMetaIndex (midx r) h);
  mret (bool_decide (is_Some o)).

Definition max_open : nat := 5.

(** Close the last used pack when there are too many; its error is dropped. *)
Definition trim_lru : M Reader unit :=
  r ← get;
  if bool_decide (max_open < length (lru r)) then
    match last (lru r) with
    | Some (_, f) =>
      modify (λ r, mkReader (r_sh r) (midx r) (take (length (lru r) - 1) (lru r)));;
      _ ← try (on_shared (on_remote (pack_CloseReader f))); mret ()
    | None => mret ()
    end
  else mret ().

Definition getPackReader (packname : bytes) (packsize : Z) : M Reader nat :=
  r ← get;
  match list_find (λ ent, ent.1 = packname) (lru r) with
  | Some (i, ent) =>
    modify (λ r, mkReader (r_sh r) (midx r) (ent :: delete i (lru r)));;
    mret ent.2
  | None =>
    f ← on_shared (on_remote (OpenPack (pack_path packname) packsize));
    modify (λ r, mkReader (r_sh r) (midx r) ((packname, f) :: lru r));;
    trim_lru;;
    mret f
  end.

(** Look the hash up, with a fresh index when it is not in the current one. *)
Definition find_block (h : hash) : M Reader (packInfo * IndexEnt) :=
  r ← get;
  o ← lift (searchMetaIndex (midx r) h);
  match o with
  | Some found => mret found
  | None =>
    m ← on_shared readAndCacheMetaIndex;
    modify (λ r, mkReader (r_sh r) m (lru r));;
    o ← lift (searchMetaIndex m h);
    match o with
    | Some found => mret found
    | None => throw NotFound
    end
  end.

Definition reader_Get (h : hash) : M Reader bytes :=
  '(info, e) ← find_block h;
  f ← getPackReader (Name info) (InfoSize info);
  buf ← on_shared (on_remote (pack_GetAt f (Offset e) (Size e)));
  lift (inflate buf).

Fixpoint close_all (ents : list (bytes * nat)) : M Shared unit :=
  match ents with
  | [] => mret ()
  | ent :: ents => on_remote (pack_CloseReader ent.2);; close_all ents
  end.

Definition reader_Close : M Reader unit := r ← get; on_shared (close_all (lru r)).

(** ** writer.go *)

Record Writer := mkWriter {
  w_sh : Shared;
  (* nil after a failed [Flush] *)
  rdr : option (metaIndex * list (bytes * nat));
  w_pack : option nat;
  w_name : bytes;
  workingSet : gmap bytes bytes;
  workingSetSz : Z;
}.

Definition w_set_sh (s : Shared) (w : Writer) : Writer :=
  mkWriter s (rdr w) (w_pack w) (w_name w) (workingSet w) (workingSetSz w).
Definition w_set_rdr rd (w : Writer) : Writer :=
  mkWriter (w_sh w) rd (w_pack w) (w_name w) (workingSet w) (workingSetSz w).
Definition w_set_pack p n (w : Writer) : Writer :=
  mkWriter (w_sh w) (rdr w) p n (workingSet w) (workingSetSz w).
Definition w_set_ws ws sz (w : Writer) : Writer :=
  mkWriter (w_sh w) (rdr w) (w_pack w) (w_name w) ws sz.
Definition in_shared {A} : M Shared A → M Writer A := zoom w_sh w_set_sh.

(** A method call on [w.rdr]. *)
Definition on_rdr {A} (m : M Reader A) : M Writer A :=
  w ← get;
  match rdr w with
  | None => panic
  | Some (mi, l) =>
    zoom (λ w, mkReader (w_sh w) mi l) (λ r w, w_set_rdr (Some (midx r, lru r)) (w_set_sh (r_sh r) w)) m
  end.

Definition NewWriter : M Shared Writer :=
  rd ← NewReader;
  s ← get;
  mret (mkWriter s (Some rd) None [] ∅ 0).

Definition flushWorkingSet : M Writer unit :=
  w ← get;
  match w_pack w with
  | None => mret ()
  | Some p =>
    ents ← in_shared (on_remote (pack_Close p));
    in_shared (cacheIndex (index_name (w_name w)) ents);;
    modify (λ w, w_set_ws ∅ 0 (w_set_pack None [] w))
  end.

Definition Get (h : hash) : M Writer bytes :=
  w ← get;
  match workingSet w !! h with
  | Some val => mret val
  | None => on_rdr (reader_Get h)
  end.

Definition Has (h : hash) : M Writer bool :=
  w ← get;
  match workingSet w !! h with
  | Some _ => mret true
  | None => on_rdr (reader_Has h)
  end.

(** 128 MiB *)
Definition max_workingset : Z := 134217728.

(** The pack that is being written, a new one when there is none. *)
Definition open_pack : M Writer nat :=
  w ← get;
  match w_pack w with
  | Some p => mret p
  | None =>
    name ← in_shared (on_remote RandomFileName);
    let name := name ++ str ".ebpack" in
    p ← in_shared (on_remote (NewPack (pack_path name)));
    modify (w_set_pack (Some p) name);;
    mret p
  end.

(** Add a block that the store does not have. *)
Definition add_block (h : hash) (data : bytes) : M Writer hash :=
  p ← open_pack;
  let compressed := deflate data in
  in_shared (on_remote (pack_Add p h compressed));;
  modify (λ w, w_set_ws (<[h := data]> (workingSet w))
                 (u64 (workingSetSz w + Z.of_nat (length compressed))) w);;
  w ← get;
  if bool_decide (workingSetSz w > max_workingset)%Z then flushWorkingSet;; mret h
  else mret h.

Definition Put (data : bytes) : M Writer hash :=
  let h := Sum256 data in
  w ← get;
  match workingSet w !! h with
  | Some _ => mret h
  | None =>
    ok ← on_rdr (reader_Has h);
    if ok : bool then mret h else add_block h data
  end.

(** Both return nil when the working set cannot be flushed. *)
Definition Flush : M Writer unit :=
  o ← try flushWorkingSet;
  match o with
  | inr _ => mret ()
  | inl _ =>
    on_rdr reader_Close;;
    o ← try (in_shared NewReader);
    match o with
    | inl rd => modify (w_set_rdr (Some rd))
    | inr e => modify (w_set_rdr None);; throw e
    end
  end.

Definition Close : M Writer unit :=
  o ← try flushWorkingSet;
  match o with
  | inr _ => mret ()
  | inl _ => on_rdr reader_Close
  end.

#[global] Instance cstore_writer : CStore Writer :=
  {| Store.Put := Put; Store.Get := Get; Store.Flush := Flush; Store.Close := Close |}.
End Cstore.
