(* ===== verification/CstoreIndex.v ===== *)
(** The meta index and its cache of index files, the proofs about mindex.go.

    Whatever system calls fail, an index file in the cache directory that belongs
    to a pack holds the index of that pack, and the meta index that is read
    refers every hash to a pack that has it. *)

From Stdlib Require Import ZArith Lia.
From stdpp Require Import base list gmap sets strings.
From S2P Require Import Prelude Store Io Bpack BpackProps Remote Packs Cstore.

Set Default Goal Selector "!".

(** ** File names *)

#[global] Instance index_name_inj : Inj (=) (=) index_name.
Proof. intros a b Hab. by apply app_inv_tail in Hab. Qed.
#[global] Instance pack_path_inj : Inj (=) (=) pack_path.
Proof. intros a b Hab. by apply app_inv_head in Hab. Qed.

Lemma index_name_not_tmp a b : index_name a ≠ b ++ str ".tmp".
Proof.
  unfold index_name. intros Hab. apply (f_equal last) in Hab.
  change (str ".index") with (str ".inde" ++ [Byte.x78]) in Hab.
  change (str ".tmp") with (str ".tm" ++ [Byte.x70]) in Hab.
  by rewrite !app_assoc, !last_snoc in Hab.
Qed.

(** ** Indexes of packs *)

(** [ents] is an index of the pack [p]. *)
Definition index_for (p : pack) (ents : Index) : Prop := ents ≡ₚ layout 0 p ∧ ordered ents.

(** What the formats of pack and index can hold. *)
Definition pack_wf (p : pack) : Prop :=
  NoDup p.*1 ∧ Forall valid_ent (layout 0 p) ∧ (Z.of_nat (length p) < 2 ^ 64)%Z.

Lemma index_for_keys p ents : index_for p ents → Bpack.Key <$> ents ≡ₚ p.*1.
Proof. intros [Hp _]. by rewrite Hp, layout_keys. Qed.

Lemma index_for_sort p ents : pack_wf p → ents ≡ₚ layout 0 p → index_for p (sort_index ents).
Proof.
  intros (Hnd & _) Hp. split; [by rewrite sort_index_perm|]. apply sort_index_ordered.
  by rewrite Hp, layout_keys.
Qed.

Lemma index_for_valid p ents :
  pack_wf p → index_for p ents → Forall valid_ent ents ∧ (Z.of_nat (length ents) < 2 ^ 64)%Z.
Proof. intros (_ & Hv & Hl) [Hp _]. rewrite Hp, length_layout. done. Qed.

Lemma enc_index_long ents : length ents ≤ length (enc_index ents).
Proof.
  unfold enc_index. rewrite length_app. transitivity (length (concat (enc_ent <$> ents))); [|lia].
  induction ents as [|e ents IH]; [done|].
  rewrite fmap_cons, concat_cons, length_app, length_enc_ent. cbn [length]. lia.
Qed.

(** An entry of the layout is where the value is. *)
Lemma layout_elem p : ∀ off e, e ∈ layout off p →
  ∃ pre v post, p = pre ++ (Bpack.Key e, v) :: post ∧
    Offset e = (off + Z.of_nat (length (pack_data pre)))%Z ∧ Size e = Z.of_nat (length v).
Proof.
  induction p as [|[k v] p IH]; intros off e He; simpl in He; [by apply not_elem_of_nil in He|].
  apply elem_of_cons in He as [->|He].
  - exists [], v, p. simpl. split_and!; [done|lia|done].
  - destruct (IH _ _ He) as (pre & v' & post & -> & Ho & Hs). exists ((k, v) :: pre), v', post.
    split_and!; [done| |done]. rewrite Ho, pack_data_cons, length_app. lia.
Qed.

Section Dir.
Variable fault : nat → option (nat * error).

(** ** System calls *)

Definition host_error (e : error) : Prop := ∃ t n, fault t = Some (n, e).
Definition host_fails (e : error) : Prop :=
  host_error e ∨ e = ErrNotExist ∨ e = ErrExist ∨ e = UnexpectedEOF ∧ host_error EOF.

#[local] Instance tmp_io : IoWriter TmpFile := tmp_writer fault.
#[local] Instance open_io : ReadSeekCloser OpenFile := open_reader fault.

#[local] Program Instance tmp_laws : IoWriterLaws TmpFile :=
  {| written t d := t_data t = d; finished t d := t_data t = d; write_fails := host_error |}.
Next Obligation.
  intros t _ b <-. unfold io_write; simpl. wp_steps.
  destruct (fault (t_clock t)) as [[n e]|] eqn:E; wp_steps; [by eexists _, _|done].
Qed.
Next Obligation. intros t _ <-. done. Qed.

#[local] Program Instance open_reader_laws : IoReaderLaws OpenFile :=
  {| at_pos f c p := at_pos (o_file f) c p; read_fails := host_error |}.
Next Obligation.
  intros f c p n Hat Hn. unfold io_read; simpl. wp_steps.
  destruct (fault (o_clock f)) as [[k e]|] eqn:E; wp_steps; [right; by eexists _, _|].
  eapply wp_mono; [exact (io_read_law (S := MemFile) (o_file f) c p n Hat Hn)|done|]; cbn beta.
  intros e m' [?|[]]. by left.
Qed.
#[local] Program Instance open_laws : ReadSeekCloserLaws OpenFile :=
  {| rsc_reader_laws := open_reader_laws; seek_fails e := False |}.
Next Obligation.
  intros f c p off Hat Hle. unfold io_seek; simpl. wp_steps.
  eapply wp_mono; [exact (io_seek_law (S := MemFile) (o_file f) c p off Hat Hle)|done|done].
Qed.

Lemma write_index_spec nm ents d :
  Forall valid_ent ents → (Z.of_nat (length ents) < 2 ^ 64)%Z →
  wp (write_index fault nm ents)
    (λ _ d', files d' = <[nm := enc_index (sort_index ents)]> (files d))
    (λ e d', host_fails e ∧ ∃ c, files d' = <[nm := c]> (files d)) d.
Proof.
  intros Hv Hl. pose proof (WriteIndex_spec ents (mkTmp [] (clock d)) [] eq_refl Hv Hl) as Hw.
  unfold wp, write_index in *. destruct (WriteIndex ents _) as [[]]; try done; simpl in *.
  - by rewrite Hw.
  - split; [by left|]. by eexists.
Qed.

Lemma read_index_spec ents d :
  Forall valid_ent ents → (Z.of_nat (length ents) < 2 ^ 64)%Z →
  wp (read_index fault (enc_index ents))
    (λ ents' d', ents' = ents ∧ files d' = files d)
    (λ e d', host_fails e ∧ files d' = files d) d.
Proof.
  intros Hv Hl. pose proof (enc_index_long ents) as Hle.
  set (c := enc_index ents) in *. set (f := mkOpen (mkMemFile c 0) (clock d)).
  assert (Hat : at_pos f c 0) by done.
  assert (Hd : drop 0 c = enc_index ents ++ []) by (by rewrite app_nil_r).
  pose proof (ReadIndex_spec (R := OpenFile) (S (length c)) f [] c [] 0 ents Hat Hd Hv Hl ltac:(lia)) as Hr.
  unfold wp, read_index in *. fold f.
  destruct (ReadIndex (S (length c)) (f, [])) as [[] [f' ents']]; try done; simpl in Hr |- *.
  - by destruct Hr as [-> _].
  - split; [|done]. destruct Hr as [?|?]; [by left|]. by right; right; right.
Qed.

Lemma syscall_spec d :
  wp (syscall fault) (λ _ d', files d' = files d) (λ e d', host_error e ∧ files d' = files d) d.
Proof.
  unfold syscall. wp_steps. destruct (fault (clock d)) as [[n e]|] eqn:E; wp_steps; [|done].
  split; [by eexists _, _|done].
Qed.

(** Reading calls change nothing. *)
Definition same_files {A} (d : HostDir) (Q : A → Prop) (a : A) (d' : HostDir) : Prop :=
  files d' = files d ∧ Q a.

Ltac call := wp_step; eapply wp_mono; [apply syscall_spec|..]; cbn beta;
  [intros ? ? Hfiles; wp_step; wp_step; rewrite ?Hfiles|intros ? ? [? ?]; split; [|done]; by left].

Lemma os_Stat_spec nm d :
  wp (os_Stat fault nm) (same_files d (λ _, nm ∈ dom (files d)))
     (λ e d', host_fails e ∧ files d' = files d) d.
Proof.
  unfold os_Stat. call. case_bool_decide; wp_step; [by split|]. split; [by right; left|done].
Qed.
Lemma os_Open_spec nm d :
  wp (os_Open fault nm) (λ c d', files d' = files d ∧ files d !! nm = Some c)
     (λ e d', host_fails e ∧ files d' = files d) d.
Proof.
  unfold os_Open. call. destruct (files d !! nm) eqn:E; wp_step; [by split|]. split; [by right; left|done].
Qed.
Lemma os_Create_spec nm d :
  wp (os_Create fault nm) (λ _ d', files d' = <[nm := []]> (files d))
     (λ e d', host_fails e ∧ files d' = files d) d.
Proof.
  unfold os_Create. call. case_bool_decide; wp_step; [|done]. split; [by right; right; left|done].
Qed.
Lemma os_Remove_spec nm d :
  wp (os_Remove fault nm) (λ _ d', files d' = delete nm (files d))
     (λ e d', host_fails e ∧ files d' = files d) d.
Proof.
  unfold os_Remove. call. case_bool_decide; wp_step; [done|]. split; [by right; left|done].
Qed.
Lemma os_Rename_spec old new d :
  wp (os_Rename fault old new)
     (λ _ d', ∃ c, files d !! old = Some c ∧ files d' = <[new := c]> (delete old (files d)))
     (λ e d', host_fails e ∧ files d' = files d) d.
Proof.
  unfold os_Rename. call. destruct (files d !! old) eqn:E; wp_step; [by eexists|]. split; [by right; left|done].
Qed.

(** ** What may change in the cache directory *)
Section Steps.
Context (m : gmap bytes pack).

(** An index file of a pack holds an index of the pack. *)
Definition dir_ok (fs : gmap bytes bytes) : Prop :=
  ∀ nm p c, m !! pack_path nm = Some p → fs !! index_name nm = Some c →
    ∃ ents, c = enc_index ents ∧ index_for p ents.

(** Index files stay right, and none appears for a pack that does not exist. *)
Definition dir_step (fs fs' : gmap bytes bytes) : Prop :=
  (dir_ok fs → dir_ok fs') ∧
  ∀ nm, m !! pack_path nm = None → fs !! index_name nm = None → fs' !! index_name nm = None.

#[global] Instance dir_step_preorder : PreOrder dir_step.
Proof. split; unfold dir_step; [done|]. intros ? ? ? [] []. naive_solver. Qed.

Lemma dir_step_delete nm fs : dir_step fs (delete nm fs).
Proof.
  split.
  - intros Hok x p c Hp Hc. apply lookup_delete_Some in Hc as [_ Hc]. by eapply Hok.
  - intros x _ Hx. rewrite lookup_delete_None. by right.
Qed.
Lemma dir_step_tmp a c fs : dir_step fs (<[a ++ str ".tmp" := c]> fs).
Proof.
  assert (Hne : ∀ nm, a ++ str ".tmp" ≠ index_name nm) by (intros nm Ha; by eapply index_name_not_tmp).
  split.
  - intros Hok x p c' Hp Hc. rewrite lookup_insert_ne in Hc by done. by eapply Hok.
  - intros x _ Hx. by rewrite lookup_insert_ne.
Qed.
Lemma dir_step_index nm p ents fs :
  m !! pack_path nm = Some p → index_for p ents →
  dir_step fs (<[index_name nm := enc_index ents]> fs).
Proof.
  intros Hp Hi. split.
  - intros Hok x p' c Hp' Hc. apply lookup_insert_Some in Hc as [[Hx <-]|[_ Hc]]; [|by eapply Hok].
    apply (inj index_name) in Hx as <-. simplify_eq. by exists ents.
  - intros x Hn Hx. rewrite lookup_insert_ne; [done|]. intros Hy%(inj index_name). congruence.
Qed.
End Steps.
End Dir.

(** ** The meta index *)

(** A step of [wp], into the fields of a larger state too. *)
Ltac st := first [wp_step | apply wp_zoom].

Section Meta.
Context {R : Type} `{PackLaws R}.
Variable fault : nat → option (nat * error).
Abbreviation Shared := (Shared (R := R)).
Implicit Types s : Shared.

Definition cs_fails (e : error) : Prop := remote_fails e ∨ host_fails fault e.
Definition sh_view s : view := view_of (remote s).
Definition sh_packs s : gmap bytes pack := packs (sh_view s).
Definition sh_files s : gmap bytes bytes := files (cachepath s).

(** Reading indexes leaves packs and open packs alone and the cache right. *)
Record sh_step s s' : Prop := mkStep {
  step_packs : sh_packs s' = sh_packs s;
  step_writers : writers (sh_view s') = writers (sh_view s);
  step_readers : readers (sh_view s) ⊆ readers (sh_view s');
  step_dir : dir_step (sh_packs s) (sh_files s) (sh_files s');
}.

#[global] Instance sh_step_preorder : PreOrder sh_step.
Proof.
  split.
  - intros s. by split.
  - intros s1 s2 s3 [P1 W1 R1 D1] [P2 W2 R2 D2]. split; [congruence..|by etrans|].
    rewrite P1 in D2. by etrans.
Qed.

Lemma step_of_dir s d : dir_step (sh_packs s) (sh_files s) (files d) → sh_step s (mkShared (remote s) d).
Proof. by split. Qed.
Lemma step_of_files s d : files d = sh_files s → sh_step s (mkShared (remote s) d).
Proof. intros Hd. apply step_of_dir. by rewrite Hd. Qed.
Lemma step_of_view s r : view_of r = sh_view s → sh_step s (mkShared r (cachepath s)).
Proof. unfold sh_view. intros Hr. split; unfold sh_packs, sh_view; simpl; by rewrite ?Hr. Qed.
Lemma step_dir_ok s s' : sh_step s s' → dir_ok (sh_packs s) (sh_files s) → dir_ok (sh_packs s') (sh_files s').
Proof. intros [-> _ _ [Hd _]] Hok. by apply Hd. Qed.

Lemma try_remove_spec nm s (Q : _ → Shared → Prop) E :
  (∀ o d, files d = sh_files s ∨ files d = delete nm (sh_files s) → Q o (mkShared (remote s) d)) →
  wp (try (on_dir (os_Remove fault nm))) Q E s.
Proof.
  intros HQ. st. st. eapply wp_mono; [apply os_Remove_spec|..]; cbn beta; [auto|].
  intros e d' [_ ?]. auto.
Qed.
Lemma try_close_spec s (Q : _ → Shared → Prop) E :
  (∀ o d, files d = sh_files s → Q o (mkShared (remote s) d)) →
  wp (try (on_dir (os_Close fault))) Q E s.
Proof.
  intros HQ. st. st. eapply wp_mono; [apply syscall_spec|..]; cbn beta; [auto|].
  intros e d' [_ ?]. auto.
Qed.

(** Writing an index file: the pack exists, so the file may appear. *)
Definition writes s (nm : bytes) (p : pack) (ents : Index) : Prop :=
  sh_packs s !! pack_path nm = Some p ∧ pack_wf p ∧ index_for p ents.

(** The new file under its temporary name. *)
Lemma rename_spec s0 s nm p ents tmp F :
  writes s0 nm p ents → sh_step s0 s → dir_step (sh_packs s0) (sh_files s0) F →
  (let F' := <[tmp ++ str ".tmp" := enc_index (sort_index ents)]> F in
   sh_files s = F' ∨ sh_files s = delete (tmp ++ str ".tmp") F') →
  wp (on_dir (os_Rename fault (tmp ++ str ".tmp") (index_name nm)))
    (λ _ s', sh_step s0 s') (λ e s', cs_fails e ∧ sh_step s0 s') s.
Proof.
  intros (Hp & Hwf & Hi) Hs HF Hfs. st. eapply wp_mono; [apply os_Rename_spec|..]; cbn beta.
  - intros _ d (c & Hc & Hd). destruct Hfs as [Hfs|Hfs]; unfold sh_files in Hfs; rewrite Hfs in Hc, Hd.
    2: { by rewrite lookup_delete_eq in Hc. }
    rewrite lookup_insert_eq in Hc. injection Hc as <-. destruct Hs as [P W Rd _]. split; try done.
    unfold sh_files. simpl. rewrite Hd. etrans; [exact HF|]. etrans; [apply dir_step_tmp|].
    etrans; [apply dir_step_delete|]. eapply dir_step_index; [exact Hp|]. apply index_for_sort; [done|]. apply Hi.
  - intros e d [He Hd]. split; [by right|]. etrans; [exact Hs|]. by apply step_of_files.
Qed.

(** The end of [cacheIndex]. *)
Lemma commit_spec s0 s nm p ents tmp F :
  writes s0 nm p ents → sh_step s0 s → dir_step (sh_packs s0) (sh_files s0) F →
  (let F' := <[tmp ++ str ".tmp" := enc_index (sort_index ents)]> F in
   sh_files s = F' ∨ sh_files s = delete (tmp ++ str ".tmp") F') →
  wp (o ← try (on_dir (os_Rename fault (tmp ++ str ".tmp") (index_name nm)));
      match o with
      | inl _ => mret ()
      | inr e => try (on_dir (os_Remove fault (tmp ++ str ".tmp")));; throw e
      end) (λ _ s', sh_step s0 s') (λ e s', cs_fails e ∧ sh_step s0 s') s.
Proof.
  intros Hwr Hs HF Hfs. st. st. eapply wp_mono; [by eapply rename_spec|..]; cbn beta.
  - intros [] s' Hs'. by st.
  - intros e s' [He Hs']. st. apply try_remove_spec. intros o d Hd. st. split; [done|].
    etrans; [exact Hs'|]. apply step_of_dir. destruct Hd as [-> | ->]; [done|apply dir_step_delete].
Qed.

(** From the creation of the temporary file on. *)
Lemma write_tmp_spec s0 s nm p ents tmp :
  writes s0 nm p ents → sh_step s0 s →
  wp (o ← try (on_dir (write_index fault (tmp ++ str ".tmp") ents));
      match o with
      | inr e =>
        try (on_dir (os_Close fault));; try (on_dir (os_Remove fault (tmp ++ str ".tmp")));; throw e
      | inl _ =>
        o ← try (on_dir (os_Close fault));
        match o with
        | inr _ => _ ← try (on_dir (os_Remove fault (tmp ++ str ".tmp"))); mret ()
        | inl _ => mret ()
        end;;
        o ← try (on_dir (os_Rename fault (tmp ++ str ".tmp") (index_name nm)));
        match o with
        | inr e => try (on_dir (os_Remove fault (tmp ++ str ".tmp")));; throw e
        | inl _ => mret ()
        end
      end) (λ _ s', sh_step s0 s') (λ e s', cs_fails e ∧ sh_step s0 s') s.
Proof.
  intros Hwr Hs. pose proof Hwr as (Hp & Hwf & Hi). pose proof (index_for_valid p ents Hwf Hi) as [Hv Hl].
  set (t := tmp ++ str ".tmp"). assert (HP : sh_packs s = sh_packs s0) by apply Hs.
  st. st. st. eapply wp_mono; [by apply write_index_spec|..]; cbn beta.
  - intros _ d1 Hd1. set (F' := <[t := enc_index (sort_index ents)]> (sh_files s)).
    change (files d1 = F') in Hd1. set (s1 := mkShared (remote s) d1).
    assert (Hany : ∀ d, files d = F' ∨ files d = delete t F' → sh_step s0 (mkShared (remote s) d)).
    { intros d Hd. etrans; [exact Hs|]. apply step_of_dir.
      destruct Hd as [-> | ->]; [apply dir_step_tmp|]. etrans; [apply dir_step_tmp|apply dir_step_delete]. }
    assert (Hend : ∀ d, files d = F' ∨ files d = delete t F' → _) by
      exact (λ d Hd, commit_spec s0 (mkShared (remote s) d) nm p ents tmp (sh_files s) Hwr (Hany d Hd)
               (step_dir _ _ Hs) Hd).
    st. apply try_close_spec. intros o2 d2 Hd2. change (files d2 = files d1) in Hd2. rewrite Hd1 in Hd2.
    st. destruct o2 as [[]|e2]; st; [apply Hend; by left|].
    apply try_remove_spec. intros o3 d3 Hd3. st. apply Hend.
    unfold sh_files in Hd3. simpl in Hd3. by rewrite Hd2 in Hd3.
  - intros e d1 [He [c Hd1]]. st. apply try_close_spec. intros o2 d2 Hd2. change (files d2 = files d1) in Hd2.
    st. apply try_remove_spec. intros o3 d3 Hd3. st. split; [by right|]. etrans; [exact Hs|].
    apply (step_of_dir s d3). assert (Ht : dir_step (sh_packs s) (sh_files s) (files d2)).
    { rewrite Hd2, Hd1. apply dir_step_tmp. }
    destruct Hd3 as [-> | ->]; [done|]. etrans; [exact Ht|apply dir_step_delete].
Qed.

Lemma cacheIndex_spec s nm p ents :
  writes s nm p ents →
  wp (cacheIndex fault (index_name nm) ents) (λ _ s', sh_step s s') (λ e s', cs_fails e ∧ sh_step s s') s.
Proof.
  intros Hwr. unfold cacheIndex. st. st. st. eapply wp_mono; [apply os_Stat_spec|..]; cbn beta.
  { intros _ d [Hd _]. st. by apply step_of_files. }
  intros e d1 [He Hd1]. destruct (negb (IsNotExist e)).
  { st. split; [by right|]. by apply step_of_files. }
  assert (H1 : ∀ r, view_of r = sh_view s → sh_step s (mkShared r d1)).
  { intros r Hr. etrans; [by apply (step_of_files s d1)|]. by apply step_of_view. }
  st. st. eapply wp_mono; [apply RandomFileName_law|..]; cbn beta.
  2: { intros e2 r [He2 Hr]. split; [by left|]. by apply H1. }
  intros tmp r Hr. st. st. eapply wp_mono; [apply os_Create_spec|..]; cbn beta.
  2: { intros e2 d2 [He2 Hd2]. split; [by right|]. etrans; [by apply H1|]. by apply (step_of_files (mkShared r d1)). }
  intros _ d2 Hd2. eapply write_tmp_spec; [exact Hwr|]. etrans; [by apply H1|].
  apply (step_of_dir (mkShared r d1)). rewrite Hd2. apply dir_step_tmp.
Qed.

(** A reader opened on the way is closed again, or leaked. *)
Lemma step_opened s f p r1 s2 r3 :
  readers (sh_view s) !! f = None →
  view_of r1 = mkView (sh_packs s) (writers (sh_view s)) (<[f := p]> (readers (sh_view s))) →
  sh_step (mkShared r1 (cachepath s)) s2 →
  (let v := sh_view s2 in
   view_of r3 = v ∨ view_of r3 = mkView (packs v) (writers v) (delete f (readers v))) →
  sh_step s (mkShared r3 (cachepath s2)).
Proof.
  intros Hf Hr1 [P W Rd D] Hr3. unfold sh_packs, sh_view, sh_files in *. simpl in *.
  rewrite Hr1 in P, W, Rd, D. simpl in *.
  assert (Hsub : readers (view_of (remote s)) ⊆ readers (view_of (remote s2))).
  { etrans; [|exact Rd]. by apply insert_subseteq. }
  split; unfold sh_packs, sh_view, sh_files; simpl; destruct Hr3 as [Hr3|Hr3]; rewrite ?Hr3; simpl; try done.
  rewrite <-(delete_id (readers (view_of (remote s))) f) by done. by apply delete_mono.
Qed.

Lemma getAndCacheIndex_spec s nm p size :
  dir_ok (sh_packs s) (sh_files s) → sh_packs s !! pack_path nm = Some p → size = stored_size p → pack_wf p →
  wp (getAndCacheIndex fault nm size)
    (λ ents s', index_for p ents ∧ sh_step s s') (λ e s', cs_fails e ∧ sh_step s s') s.
Proof.
  intros Hok Hp Hsz Hwf. unfold getAndCacheIndex. st. st. st.
  eapply wp_mono; [apply os_Stat_spec|..]; cbn beta.
  - intros _ d1 [Hd1 _]. st. st. eapply wp_mono; [apply os_Open_spec|..]; cbn beta; simpl; rewrite Hd1.
    2: { intros e d2 [He Hd2]. split; [by right|]. by apply (step_of_files s d2). }
    intros c d2 [Hd2 Hc]. destruct (Hok nm p c Hp Hc) as (ents & -> & Hi).
    destruct (index_for_valid p ents Hwf Hi) as [Hv Hl]. st.
    eapply wp_mono; [by apply read_index_spec|..]; cbn beta; simpl; rewrite Hd2.
    + intros ents' d3 [-> Hd3]. split; [done|]. by apply (step_of_files s d3).
    + intros e d3 [He Hd3]. split; [by right|]. by apply (step_of_files s d3).
  - intros e d1 [He Hd1]. destruct (negb (IsNotExist e)).
    { st. split; [by right|]. by apply step_of_files. }
    set (s1 := mkShared (remote s) d1). assert (H1 : sh_step s s1) by (by apply step_of_files).
    st. st. eapply wp_mono; [by apply (OpenPack_law (remote s) (pack_path nm) p)|..]; cbn beta.
    2: { intros e2 r [He2 Hr]. split; [by left|]. etrans; [exact H1|]. by apply (step_of_view s1). }
    intros f r (Hf & Hr). set (s2 := mkShared r d1).
    assert (Hdone : ∀ s3, sh_step s2 s3 → wp (on_remote (pack_CloseReader f)) (λ _, sh_step s) (λ _, sh_step s) s3).
    { intros s3 H3. st. eapply wp_mono; [apply pack_CloseReader_law|..]; cbn beta.
      - intros _ r4 Hr4. etrans; [exact H1|]. eapply (step_opened s1); [done|exact Hr|exact H3|by right].
      - intros e4 r4 [_ Hr4]. etrans; [exact H1|]. by eapply (step_opened s1); [done|exact Hr|exact H3|]. }
    eapply (wp_deferred _ _ (λ ents s', index_for p ents ∧ sh_step s2 s') (λ e s', cs_fails e ∧ sh_step s2 s')).
    + assert (HP : sh_packs s2 !! pack_path nm = Some p) by (unfold sh_packs, sh_view; simpl; by rewrite Hr).
      unfold fetch_index. st. st. eapply wp_mono; [apply (pack_ReadIndex_law r f p); rewrite Hr; apply lookup_insert_eq|..];
        cbn beta.
      2: { intros e2 r2 [He2 Hr2]. split; [by left|]. by apply (step_of_view s2). }
      intros ents r2 [-> Hr2]. assert (H3 : sh_step s2 (mkShared r2 d1)) by (by apply (step_of_view s2)).
      assert (Hi : index_for p (sort_index (layout 0 p))) by (by apply index_for_sort).
      st. eapply wp_mono; [apply (cacheIndex_spec (mkShared r2 d1) nm p)|..]; cbn beta.
      * split_and!; [by rewrite (step_packs _ _ H3)|done|done].
      * intros _ s4 H4. st. split; [done|]. by etrans.
      * intros e4 s4 [He4 H4]. split; [done|]. by etrans.
    + intros ents s3 [Hi H3]. eapply wp_mono; [by apply Hdone|..]; cbn beta; auto.
    + intros e3 s3 [He3 H3]. eapply wp_mono; [by apply Hdone|..]; cbn beta; auto.
Qed.

(** Every hash of the meta index is in the pack it names. *)
Definition midx_ok (m : gmap bytes pack) (mi : metaIndex) : Prop :=
  map_Forall (λ h info, ∃ p, m !! pack_path (Name info) = Some p ∧ InfoSize info = stored_size p ∧
    index_for p (InfoIdx info) ∧ h ∈ p.*1) mi.

Lemma index_all_lookup info ents : ∀ mi h,
  index_all info ents mi !! h = if decide (h ∈ Bpack.Key <$> ents) then Some info else mi !! h.
Proof.
  induction ents as [|e ents IH]; intros mi h; simpl; [done|]. rewrite IH.
  destruct (decide (h ∈ Bpack.Key <$> ents)) as [Hin|Hni].
  - rewrite decide_True by set_solver. done.
  - destruct (decide (h = Bpack.Key e)) as [->|Hne].
    + rewrite lookup_insert_eq, decide_True by set_solver. done.
    + rewrite lookup_insert_ne, decide_False by set_solver. done.
Qed.

Lemma index_all_ok m nm p size ents mi :
  m !! pack_path nm = Some p → size = stored_size p → index_for p ents → midx_ok m mi →
  midx_ok m (index_all (mkInfo nm size ents) ents mi) ∧
  ∀ h, is_Some (index_all (mkInfo nm size ents) ents mi !! h) ↔ h ∈ p.*1 ∨ is_Some (mi !! h).
Proof.
  intros Hp Hsz Hi Hmi. pose proof (index_for_keys p ents Hi) as Hk. split.
  - intros h info. rewrite index_all_lookup. case_decide as Hin; [|apply Hmi].
    intros [= <-]. exists p. rewrite <-Hk. done.
  - intros h. rewrite index_all_lookup, <-Hk. case_decide as Hin; [by split; [left|eexists]|]. naive_solver.
Qed.

Definition listed (m : gmap bytes pack) (l : PackListing) : Prop :=
  ∃ p, m !! pack_path (PackName l) = Some p ∧ PackSize l = stored_size p.

Lemma index_packs_spec ls : ∀ s mi,
  dir_ok (sh_packs s) (sh_files s) → map_Forall (λ _ p, pack_wf p) (sh_packs s) →
  Forall (listed (sh_packs s)) ls → midx_ok (sh_packs s) mi →
  wp (index_packs fault ls mi)
    (λ mi' s', midx_ok (sh_packs s) mi' ∧ sh_step s s' ∧
       ∀ h, is_Some (mi !! h) ∨ (∃ l p, l ∈ ls ∧ sh_packs s !! pack_path (PackName l) = Some p ∧ h ∈ p.*1) →
            is_Some (mi' !! h))
    (λ e s', cs_fails e ∧ sh_step s s') s.
Proof.
  induction ls as [|[nm size] ls IH]; intros s mi Hok Hwf Hls Hmi; cbn [index_packs].
  { st. split_and!; [done|done|]. intros h [?|(l & ? & Hl & _)]; [done|]. by apply not_elem_of_nil in Hl. }
  apply Forall_cons in Hls as [(p & Hp & Hsz) Hls]. simpl in Hp, Hsz. cbn [PackName PackSize].
  st. eapply wp_mono; [by apply (getAndCacheIndex_spec s nm p); [..|apply (Hwf (pack_path nm))]| |done]; cbn beta.
  intros ents s1 [Hi H1]. pose proof (step_packs _ _ H1) as P1.
  destruct (index_all_ok _ nm p size ents mi Hp Hsz Hi Hmi) as [Hmi1 Hdom].
  eapply wp_mono; [apply IH; rewrite ?P1; [rewrite <-P1; by eapply step_dir_ok|done..]|..]; cbn beta; rewrite ?P1.
  - intros mi' s2 (Hmi2 & H2 & Hall). split_and!; [done|by etrans|]. intros h Hh. apply Hall.
    rewrite Hdom. destruct Hh as [?|(l & p' & Hl & Hp' & Hh)]; [by left; right|].
    apply elem_of_cons in Hl as [->|Hl]; [left; left; simpl in Hp'; congruence|]. right. eauto.
  - intros e s2 [He H2]. split; [done|]. by etrans.
Qed.

Lemma clean_ents_spec m I ents : ∀ d,
  wp (clean_ents fault I ents) (λ _ d', dir_step m (files d) (files d')) (λ _ _, False) d.
Proof.
  induction ents as [|ent ents IH]; intros d; cbn [clean_ents]; [by st|].
  assert (Hnext : ∀ d1, dir_step m (files d) (files d1) →
    wp (clean_ents fault I ents) (λ _ d', dir_step m (files d) (files d')) (λ _ _, False) d1).
  { intros d1 H1. eapply wp_mono; [apply IH| |done]; cbn beta. intros _ d2 H2. by etrans. }
  st. destruct (negb _); [st; by apply Hnext|]. case_bool_decide; [st; by apply Hnext|].
  st. st. eapply wp_mono; [apply os_Remove_spec|..]; cbn beta.
  - intros _ d1 Hd1. st. apply Hnext. rewrite Hd1. apply dir_step_delete.
  - intros e d1 [_ Hd1]. st. apply Hnext. by rewrite Hd1.
Qed.

Lemma cleanOldIndexes_spec ls s :
  wp (on_dir (cleanOldIndexes fault ls)) (λ _ s', sh_step s s') (λ e s', cs_fails e ∧ sh_step s s') s.
Proof.
  st. unfold cleanOldIndexes, os_ReadDir. st. st. eapply wp_mono; [apply syscall_spec|..]; cbn beta.
  - intros _ d1 Hd1. st. eapply wp_mono; [apply (clean_ents_spec (sh_packs s))| |done]; cbn beta.
    intros _ d2 H2. apply step_of_dir. by rewrite Hd1 in H2.
  - intros e d1 [He Hd1]. split; [right; by left|]. by apply step_of_files.
Qed.

(** Everything that reading the meta index needs. *)
Definition shared_ok s : Prop :=
  dir_ok (sh_packs s) (sh_files s) ∧ map_Forall (λ _ p, pack_wf p) (sh_packs s).

Lemma shared_ok_step s s' : sh_step s s' → shared_ok s → shared_ok s'.
Proof. intros Hs [Hd Hw]. split; [by eapply step_dir_ok|]. by rewrite (step_packs _ _ Hs). Qed.

(** Some pack has the hash. *)
Definition in_packs (m : gmap bytes pack) (h : hash) : Prop := ∃ path p, m !! path = Some p ∧ h ∈ p.*1.

Lemma readAndCacheMetaIndex_spec s :
  shared_ok s →
  wp (readAndCacheMetaIndex fault)
    (λ mi s', midx_ok (sh_packs s) mi ∧ sh_step s s' ∧ ∀ h, in_packs (sh_packs s) h → is_Some (mi !! h))
    (λ e s', cs_fails e ∧ sh_step s s') s.
Proof.
  intros Hok. unfold readAndCacheMetaIndex. st. st. eapply wp_mono; [apply wp_ListPacks|..]; cbn beta.
  2: { intros e r [He Hr]. split; [by left|]. by apply step_of_view. }
  intros ls r (Hr & Hls). assert (H1 : sh_step s (mkShared r (cachepath s))) by (by apply step_of_view).
  st. eapply wp_mono; [apply cleanOldIndexes_spec|..]; cbn beta.
  2: { intros e s2 [He H2]. split; [done|]. by etrans. }
  intros _ s2 H2'. assert (H2 : sh_step s s2) by (by etrans). clear H2'.
  pose proof (step_packs _ _ H2) as P2. destruct (shared_ok_step _ _ H2 Hok) as [Hd Hw].
  destruct Hls as (_ & Hall & Hls).
  eapply wp_mono; [apply (index_packs_spec ls s2 ∅ Hd Hw); [by rewrite P2|by apply map_Forall_empty]|..]; cbn beta;
    rewrite ?P2.
  - intros mi s3 (Hmi & H3 & Hin). split_and!; [done|by etrans|]. intros h (path & p & Hp & Hh). apply Hin. right.
    assert (Hpath : path ∈ pack_path ∘ PackName <$> ls) by (apply Hall; by apply elem_of_dom).
    apply list_elem_of_fmap in Hpath as (l & -> & Hl). eauto.
  - intros e s3 [He H3]. split; [done|]. by etrans.
Qed.
End Meta.
