(* ===== verification/CstoreProps.v ===== *)
(** The content store refines a map from hashes to blocks: the proofs about
    cstore/reader.go and writer.go.

    [store_ok B w]: the store answers every [Get] as the map [B] does; [writable B w]:
    its open pack is in order, so blocks can be added.  The first holds after every
    call, also a failing one; a failed call may lose the second. *)

From Stdlib Require Import ZArith Lia.
From stdpp Require Import base list gmap sets strings.
From S2P Require Import Prelude Store Io Bpack BpackProps Remote Packs PacksMem Cstore CstoreIndex.

Set Default Goal Selector "!".

Section Reader.
Context {R : Type} `{PackLaws R}.
Variable fault : nat → option (nat * error).
Variable inflate : bytes → outcome bytes.
Abbreviation Shared := (Shared (R := R)).
Abbreviation Reader := (Reader (R := R)).
Abbreviation cs_fails := (cs_fails fault).
Implicit Types (s : Shared) (r : Reader) (B : gmap bytes bytes).

(** What a reader leaves alone: packs, open writers, foreign index files. *)
Record sh_keep s s' : Prop := mkKeep {
  keep_packs : sh_packs s' = sh_packs s;
  keep_writers : writers (sh_view s') = writers (sh_view s);
  keep_dir : dir_step (sh_packs s) (sh_files s) (sh_files s');
}.
#[global] Instance sh_keep_preorder : PreOrder sh_keep.
Proof.
  split; [by intros s; split|]. intros s1 s2 s3 [P1 W1 D1] [P2 W2 D2]. split; [congruence..|].
  rewrite P1 in D2. by etrans.
Qed.
Lemma step_keep s s' : sh_step s s' → sh_keep s s'.
Proof. by intros []. Qed.
Lemma shared_ok_keep s s' : sh_keep s s' → shared_ok s → shared_ok s'.
Proof. intros [P _ [D _]] [Hd Hw]. unfold shared_ok. rewrite P. auto. Qed.

(** The entries of a pack are blocks of [B]. *)
Definition conforms B (p : pack) : Prop :=
  Forall (λ kv, ∃ d, inflate kv.2 = Ok d ∧ B !! kv.1 = Some d) p.

(** The open packs of the list are open, each under its own handle. *)
Definition lru_ok (vw : view) (l : list (bytes * nat)) : Prop :=
  NoDup l.*2 ∧ Forall (λ e, ∃ p, readers vw !! e.2 = Some p ∧ packs vw !! pack_path e.1 = Some p) l.

Record reader_ok B r : Prop := mkReaderOk {
  rd_shared : shared_ok (r_sh r);
  rd_packs : map_Forall (λ _ p, conforms B p) (sh_packs (r_sh r));
  rd_midx : midx_ok (sh_packs (r_sh r)) (midx r);
  rd_lru : lru_ok (sh_view (r_sh r)) (lru r);
}.

Lemma lru_ok_perm vw l l' : l ≡ₚ l' → lru_ok vw l → lru_ok vw l'.
Proof. intros Hl [Hn Hf]. split; by rewrite <-Hl. Qed.

Lemma lru_ok_mono vw vw' l : packs vw ⊆ packs vw' → readers vw ⊆ readers vw' → lru_ok vw l → lru_ok vw' l.
Proof.
  intros Hp Hr [Hn Hf]. split; [done|]. eapply Forall_impl; [exact Hf|].
  intros e (p & Hre & Hpe). exists p. split; by eapply lookup_weaken.
Qed.

Lemma reader_ok_step B s s' mi l :
  sh_step s s' → reader_ok B (mkReader s mi l) → reader_ok B (mkReader s' mi l).
Proof.
  intros Hs [Hok Hp Hm Hl]. destruct Hs as [P W Rd D] eqn:E. simpl in *. split; simpl.
  - by eapply shared_ok_step.
  - by rewrite P.
  - by rewrite P.
  - eapply lru_ok_mono; [|done|done]. unfold sh_packs in P. by rewrite P.
Qed.

(** ** Lookup *)

Definition locates_block (m : gmap bytes pack) (h : hash) (info : packInfo) (e : IndexEnt) : Prop :=
  ∃ p, m !! pack_path (Name info) = Some p ∧ InfoSize info = stored_size p ∧
       e ∈ layout 0 p ∧ Bpack.Key e = h.

Lemma searchMetaIndex_spec m mi h :
  midx_ok m mi →
  match mi !! h with
  | Some info => ∃ e, searchMetaIndex mi h = Ok (Some (info, e)) ∧ locates_block m h info e
  | None => searchMetaIndex mi h = Ok None
  end.
Proof.
  intros Hmi. unfold searchMetaIndex. destruct (mi !! h) as [info|] eqn:E; [|done].
  destruct (Hmi h info E) as (p & Hp & Hsz & [Hperm Hord] & Hh).
  destruct (Search_spec (InfoIdx info) h) as ([i ok] & -> & Hf). simpl.
  destruct ok; unfold found in Hf; simpl in Hf.
  - destruct Hf as (j & e & -> & He & Hk). rewrite Nat2Z.id, (idx_ok _ _ _ He). simpl. exists e.
    split; [done|]. exists p. split_and!; try done. rewrite <-Hperm. by eapply list_elem_of_lookup_2.
  - exfalso. destruct Hf as [_ Hf]. rewrite <-(layout_keys p 0), <-Hperm in Hh.
    apply list_elem_of_fmap in Hh as (e & -> & He). by apply (Hf Hord e).
Qed.

Lemma find_block_spec B r h :
  reader_ok B r →
  wp (find_block fault h)
    (λ x r', locates_block (sh_packs (r_sh r)) h x.1 x.2 ∧ reader_ok B r' ∧ sh_keep (r_sh r) (r_sh r'))
    (λ e r', (e = NotFound ∧ ¬ in_packs (sh_packs (r_sh r)) h ∨ cs_fails e) ∧
             reader_ok B r' ∧ sh_keep (r_sh r) (r_sh r')) r.
Proof.
  intros Hr. pose proof (searchMetaIndex_spec _ _ h (rd_midx _ _ Hr)) as Hs. unfold find_block. st. st.
  destruct (midx r !! h) as [info|].
  { destruct Hs as (e & -> & Hl). st. st. cbn beta iota. by st. }
  rewrite Hs. st. st. cbn beta iota. st. st. eapply wp_mono; [apply (readAndCacheMetaIndex_spec fault (r_sh r) (rd_shared _ _ Hr))|..];
    cbn beta.
  - intros mi s1 (Hmi & H1 & Hin). st. st.
    pose proof (searchMetaIndex_spec _ _ h Hmi) as Hs2.
    assert (Hr2 : reader_ok B (mkReader s1 mi (lru r))).
    { destruct (reader_ok_step B _ s1 (midx r) (lru r) H1) as [? ? _ ?]; [by destruct r|]. split; try done.
      simpl. by rewrite (step_packs _ _ H1). }
    destruct (mi !! h) as [info|] eqn:E.
    + destruct Hs2 as (e & -> & Hl). st. st. cbn beta iota. st. split_and!; [done|done|by apply step_keep].
    + rewrite Hs2. st. st. cbn beta iota. st. split_and!; [|done|by apply step_keep]. left. split; [done|].
      intros Hh. apply Hin in Hh as [? Hh]. congruence.
  - intros e s1 [He H1]. split_and!; [by right| |by apply step_keep].
    eapply (reader_ok_step B _ s1); [exact H1|]. by destruct r.
Qed.

(** ** Open packs *)

Lemma take_init {A} (l : list A) x : last l = Some x → l = take (length l - 1) l ++ [x].
Proof.
  intros Hl. destruct (last_Some l x) as [Hx _]. destruct (Hx Hl) as [l' ->].
  rewrite length_app, Nat.add_sub, take_app_length. done.
Qed.

(** Closing a handle that is not in the list. *)
Lemma lru_ok_close vw f l :
  lru_ok vw l → f ∉ l.*2 → lru_ok (mkView (packs vw) (writers vw) (delete f (readers vw))) l.
Proof.
  intros [Hn Hf] Hni. split; [done|]. rewrite Forall_forall in Hf |- *. intros e He.
  destruct (Hf e He) as (p & Hre & Hpe). exists p. simpl. split; [|done].
  rewrite lookup_delete_ne; [done|]. intros ->. apply Hni. by apply list_elem_of_fmap_2.
Qed.

Lemma trim_lru_spec B r :
  reader_ok B r →
  wp trim_lru (λ _ r', reader_ok B r' ∧ sh_keep (r_sh r) (r_sh r') ∧ head (lru r') = head (lru r))
    (λ _ _, False) r.
Proof.
  intros Hr. pose proof Hr as [[Hd Hw] Hp Hm Hl]. unfold trim_lru. st. st.
  case_bool_decide as Hlen; [|by st]. unfold max_open in Hlen.
  destruct (last (lru r)) as [[nm f]|] eqn:Hlast; [|by st]. pose proof (take_init _ _ Hlast) as Hinit.
  set (l := take (length (lru r) - 1) (lru r)) in *.
  assert (Hl' : lru_ok (sh_view (r_sh r)) l ∧ f ∉ l.*2).
  { rewrite Hinit in Hl. destruct Hl as [Hn Hf]. rewrite fmap_app in Hn. apply NoDup_app in Hn as (Hn & Hni & _).
    apply Forall_app in Hf as [Hf _]. split; [by split|]. intros Hin. apply (Hni f Hin). simpl. set_solver. }
  destruct Hl' as [Hl' Hni].
  assert (Hhead : head l = head (lru r)).
  { unfold l. destruct (lru r) as [|e [|e' l'']]; simpl in Hlen |- *; [lia..|done]. }
  st. st. st. st. st. st. eapply wp_mono; [apply pack_CloseReader_law|..]; cbn beta; simpl.
  - intros _ r1 Hr1. st. split_and!; [|by split; unfold sh_packs, sh_view; simpl; rewrite ?Hr1|done].
    split; simpl; unfold shared_ok, sh_packs, sh_view in *; simpl; rewrite ?Hr1; simpl; try done.
    by apply (lru_ok_close (sh_view (r_sh r))).
  - intros e r1 [_ Hr1]. st. split_and!; [|split; unfold sh_packs, sh_view; simpl; by destruct Hr1 as [Hr1|Hr1]; rewrite ?Hr1|done].
    split; simpl; unfold shared_ok, sh_packs, sh_view in *; simpl; destruct Hr1 as [Hr1|Hr1]; rewrite ?Hr1; simpl; try done.
    by apply (lru_ok_close (sh_view (r_sh r))).
Qed.

Lemma getPackReader_spec B r nm p size :
  reader_ok B r → sh_packs (r_sh r) !! pack_path nm = Some p → size = stored_size p →
  wp (getPackReader nm size)
    (λ f r', readers (sh_view (r_sh r')) !! f = Some p ∧ reader_ok B r' ∧ sh_keep (r_sh r) (r_sh r'))
    (λ e r', cs_fails e ∧ reader_ok B r' ∧ sh_keep (r_sh r) (r_sh r')) r.
Proof.
  intros Hr Hp Hsz. pose proof Hr as [Hok Hpk Hm [Hn Hf]]. unfold getPackReader. st. st.
  destruct (list_find _ (lru r)) as [[i ent]|] eqn:E.
  - apply list_find_Some in E as (Hi & Hnm & _). st. st. st. simpl.
    assert (Hperm : ent :: delete i (lru r) ≡ₚ lru r) by (by rewrite <-delete_Permutation).
    assert (Hl : lru_ok (sh_view (r_sh r)) (ent :: delete i (lru r))) by (by eapply lru_ok_perm; [symmetry|]).
    split_and!; [|by split|done]. destruct Hl as [_ Hl]. apply Forall_cons in Hl as [(p' & Hre & Hpe) _].
    unfold sh_packs in Hp. rewrite Hnm in Hpe. congruence.
  - st. st. st. eapply wp_mono; [by apply (OpenPack_law (remote (r_sh r)) (pack_path nm) p)|..]; cbn beta.
    + intros f r1 (Hfree & Hr1). st. st.
      assert (Hlru : lru_ok (view_of r1) ((nm, f) :: lru r)).
      { rewrite Hr1. split; simpl.
        - apply NoDup_cons. split; [|done]. intros Hin. apply list_elem_of_fmap in Hin as (e & -> & He).
          rewrite Forall_forall in Hf. destruct (Hf e He) as (p' & Hre & _). unfold sh_view in Hre. congruence.
        - constructor; [exists p; simpl; split; [apply lookup_insert_eq|done]|].
          eapply Forall_impl; [exact Hf|]. intros e (p' & Hre & Hpe). exists p'. simpl. split; [|done].
          rewrite lookup_insert_ne; [done|]. unfold sh_view in Hre. congruence. }
      set (r2 := mkReader _ _ _). assert (Hr2 : reader_ok B r2).
      { split; simpl; unfold shared_ok, sh_packs, sh_view in *; simpl; rewrite ?Hr1; simpl; try done.
        rewrite <-Hr1. exact Hlru. }
      assert (K2 : sh_keep (r_sh r) (r_sh r2)) by (split; unfold sh_packs, sh_view; simpl; by rewrite ?Hr1).
      st. eapply wp_mono; [by apply trim_lru_spec| |done]; cbn beta. intros _ r3 (Hr3 & K3 & Hhead). st.
      split_and!; [|done|by etrans]. destruct (lru r3) as [|e l] eqn:E3; [done|]. injection Hhead as ->.
      destruct Hr3 as [_ _ _ [_ Hl3]]. rewrite E3 in Hl3. apply Forall_cons in Hl3 as [(p' & Hre & Hpe) _].
      simpl in Hre, Hpe. fold (sh_packs (r_sh r3)) in Hpe.
      rewrite (keep_packs _ _ K3), (keep_packs _ _ K2) in Hpe. congruence.
    + intros e r1 [He Hr1]. assert (H1 : sh_step (r_sh r) (mkShared r1 (cachepath (r_sh r)))) by (by apply step_of_view).
      split_and!; [by left| |by apply step_keep]. eapply (reader_ok_step B _ _ (midx r) (lru r)); [exact H1|].
      by destruct r.
Qed.

Lemma reader_Get_spec B r h :
  reader_ok B r →
  wp (reader_Get fault inflate h)
    (λ d r', B !! h = Some d ∧ reader_ok B r' ∧ sh_keep (r_sh r) (r_sh r'))
    (λ e r', (e = NotFound ∧ ¬ in_packs (sh_packs (r_sh r)) h ∨ cs_fails e) ∧
             reader_ok B r' ∧ sh_keep (r_sh r) (r_sh r')) r.
Proof.
  intros Hr. unfold reader_Get. st. eapply wp_mono; [by apply find_block_spec| |done]; cbn beta.
  intros [info e] r1 ((p & Hp & Hsz & He & Hk) & Hr1 & K1). simpl in Hp, Hsz, He, Hk.
  pose proof (keep_packs _ _ K1) as P1. rewrite <-P1 in Hp.
  st. eapply wp_mono; [by apply (getPackReader_spec B r1 (Name info) p)|..]; cbn beta.
  2: { intros e2 r2 (He2 & Hr2 & K2). split_and!; [by right|done|by etrans]. }
  intros f r2 (Hf & Hr2 & K2). destruct (layout_elem p 0 e He) as (pre & v & post & Hpe & Ho & Hs).
  rewrite Ho, Hs, Z.add_0_l. st. st. st.
  assert (Hdata : pack_data p = pack_data pre ++ v ++ pack_data post)
    by (rewrite Hpe, pack_data_app, pack_data_cons; done).
  eapply wp_mono; [apply (pack_GetAt_law _ f p); [exact Hf|rewrite Hdata, !length_app; lia]|..]; cbn beta.
  - intros b r3 [-> Hr3]. rewrite Hdata, drop_app_length, take_app_length.
    pose proof (rd_packs _ _ Hr1 _ p Hp) as Hc. unfold conforms in Hc. rewrite Hpe in Hc.
    apply Forall_app in Hc as [_ Hc]. apply Forall_cons in Hc as [(d & Hd & HB) _]. simpl in Hd, HB.
    rewrite Hd. st. cbn beta. rewrite Hk in HB.
    assert (H3 : sh_step (r_sh r2) (mkShared r3 (cachepath (r_sh r2)))) by (by apply step_of_view).
    split_and!; [done|by destruct r2; eapply reader_ok_step|]. etrans; [exact K1|]. etrans; [exact K2|].
    by apply step_keep.
  - intros e3 r3 [He3 Hr3].
    assert (H3 : sh_step (r_sh r2) (mkShared r3 (cachepath (r_sh r2)))) by (by apply step_of_view).
    split_and!; [by right; left|by destruct r2; eapply reader_ok_step|]. etrans; [exact K1|]. etrans; [exact K2|].
    by apply step_keep.
Qed.
End Reader.

Section Writer.
Context {R : Type} `{PackLaws R}.
Variable fault : nat → option (nat * error).
Variables (deflate : bytes → bytes) (inflate : bytes → outcome bytes) (Sum256 : bytes → hash).
Abbreviation Shared := (Shared (R := R)).
Abbreviation Writer := (Writer (R := R)).
Abbreviation cs_fails := (cs_fails fault).
Abbreviation conforms := (conforms inflate).
Abbreviation reader_ok := (reader_ok inflate).
Implicit Types (s : Shared) (w : Writer) (B : gmap bytes bytes).

Definition w_packs w : gmap bytes pack := sh_packs (w_sh w).

(** The store holds exactly [B]: each block of the working set and of the packs
    is in [B], and each block of [B] is in one of them. *)
Record store_ok B w : Prop := mkStoreOk {
  so_rdr : ∃ mi l, rdr w = Some (mi, l) ∧ reader_ok B (mkReader (w_sh w) mi l);
  so_ws : workingSet w ⊆ B;
  so_all : ∀ h, is_Some (B !! h) → is_Some (workingSet w !! h) ∨ in_packs (w_packs w) h;
}.

(** Values of the open pack: one for each block of the working set. *)
Record open_ok B (ws : gmap bytes bytes) (sz : Z) (p : pack) : Prop := mkOpenOk {
  op_keys : ∀ h, h ∈ p.*1 ↔ is_Some (ws !! h);
  op_nodup : NoDup p.*1;
  op_conforms : conforms B p;
  op_size : sz = Z.of_nat (length (pack_data p));
  op_max : (sz < 2 ^ 62)%Z;
  op_fits : Forall (λ kv, length kv.1 = hash_len ∧ kv.2 ≠ [] ∧ (Z.of_nat (length kv.2) < 2 ^ 24)%Z) p;
}.

Definition pending B w : Prop :=
  match w_pack w with
  | None => workingSet w = ∅ ∧ workingSetSz w = 0%Z
  | Some wr => ∃ p, writers (sh_view (w_sh w)) !! wr = Some (pack_path (w_name w), p) ∧
      w_packs w !! pack_path (w_name w) = None ∧
      sh_files (w_sh w) !! index_name (w_name w) = None ∧
      open_ok B (workingSet w) (workingSetSz w) p
  end.
Definition writable B w : Prop := pending B w ∧ (0 ≤ workingSetSz w ≤ max_workingset)%Z.

(** *** Packs within limits *)

Lemma data_length p : Forall (λ kv : bytes * bytes, kv.2 ≠ []) p → length p ≤ length (pack_data p).
Proof.
  induction 1 as [|[k v] p Hv Hp IH]; [done|]. rewrite pack_data_cons, length_app. simpl in Hv |- *.
  destruct v; [done|]. simpl. lia.
Qed.

Lemma layout_valid p : ∀ off,
  Forall (λ kv : bytes * bytes, length kv.1 = hash_len ∧ kv.2 ≠ [] ∧ (Z.of_nat (length kv.2) < 2 ^ 24)%Z) p →
  (0 ≤ off)%Z → (off + Z.of_nat (length (pack_data p)) < 2 ^ 64)%Z → Forall valid_ent (layout off p).
Proof.
  induction p as [|[k v] p IH]; intros off Hf Ho Hl; simpl; [constructor|].
  apply Forall_cons in Hf as [(Hk & _ & Hv) Hf]. simpl in Hk, Hv. rewrite pack_data_cons, length_app in Hl.
  constructor; [|apply IH; [done|lia..]]. unfold valid_ent, hash_len in *; simpl. lia.
Qed.

Lemma open_ok_wf B ws sz p : open_ok B ws sz p → pack_wf p.
Proof.
  intros [_ Hn _ -> Hsz Hf]. split_and!; [done|apply layout_valid; [done|lia..]|].
  assert (length p ≤ length (pack_data p)) by (apply data_length; eapply Forall_impl; [exact Hf|]; naive_solver). lia.
Qed.

(** *** More blocks, more packs *)

Lemma conforms_mono B B' p : B ⊆ B' → conforms B p → conforms B' p.
Proof.
  intros HB Hc. eapply Forall_impl; [exact Hc|]. intros kv (d & Hd & Hk). exists d. split; [done|].
  by eapply lookup_weaken.
Qed.
Lemma reader_ok_mono B B' r : B ⊆ B' → reader_ok B r → reader_ok B' r.
Proof.
  intros HB [? Hp ? ?]. split; try done. eapply map_Forall_impl; [exact Hp|]. intros path p.
  by apply conforms_mono.
Qed.
Lemma midx_ok_mono m m' mi : m ⊆ m' → midx_ok m mi → midx_ok m' mi.
Proof.
  intros Hm Hmi h info Hh. destruct (Hmi h info Hh) as (p & Hp & ? & ?). exists p.
  split; [by eapply lookup_weaken|done].
Qed.

(** A pack that was just closed. *)
Lemma reader_ok_grow B s r' nm p mi l :
  reader_ok B (mkReader s mi l) → pack_wf p → conforms B p →
  sh_packs s !! pack_path nm = None → sh_files s !! index_name nm = None →
  packs (view_of r') = <[pack_path nm := p]> (sh_packs s) → readers (view_of r') = readers (sh_view s) →
  reader_ok B (mkReader (mkShared r' (cachepath s)) mi l).
Proof.
  intros [[Hd Hw] Hp Hm Hl] Hwf Hc Hn Hi Hpk Hrd. simpl in *.
  assert (Hsub : sh_packs s ⊆ packs (view_of r')) by (rewrite Hpk; by apply insert_subseteq).
  split; simpl; unfold shared_ok; change (sh_packs (mkShared r' (cachepath s))) with (packs (view_of r')).
  - split; [|rewrite Hpk; by apply map_Forall_insert_2].
    intros x q c Hq Hx. rewrite Hpk in Hq. apply lookup_insert_Some in Hq as [[Hx' _]|[_ Hq]]; [|by eapply Hd].
    apply (inj pack_path) in Hx' as <-. change (sh_files s !! index_name nm = Some c) in Hx. congruence.
  - rewrite Hpk. by apply map_Forall_insert_2.
  - by eapply midx_ok_mono.
  - eapply lru_ok_mono; [exact Hsub| |exact Hl]. unfold sh_view; simpl. by rewrite Hrd.
Qed.

Lemma in_packs_insert m path p h : in_packs m h → m !! path = None → in_packs (<[path := p]> m) h.
Proof. intros (q & p' & Hq & Hh) Hn. exists q, p'. rewrite lookup_insert_ne by congruence. done. Qed.

(** *** Flushing *)

(** The store after its pack was closed on the server. *)
Lemma store_ok_closed B w nm p r' :
  store_ok B w → pack_wf p → conforms B p →
  w_packs w !! pack_path nm = None → sh_files (w_sh w) !! index_name nm = None →
  packs (view_of r') = <[pack_path nm := p]> (w_packs w) → readers (view_of r') = readers (sh_view (w_sh w)) →
  store_ok B (w_set_sh (mkShared r' (cachepath (w_sh w))) w).
Proof.
  intros [(mi & l & Hrd & Hr) Hws Hall] Hwf Hc Hn Hi Hpk Hrs. split; simpl; [|done|].
  - exists mi, l. split; [done|]. by eapply reader_ok_grow.
  - intros h Hh. destruct (Hall h Hh) as [?|?]; [by left|]. right. unfold w_packs, sh_packs, sh_view at 1.
    simpl. rewrite Hpk. by apply in_packs_insert.
Qed.

Lemma store_ok_step B w s' : sh_step (w_sh w) s' → store_ok B w → store_ok B (w_set_sh s' w).
Proof.
  intros Hs [(mi & l & Hrd & Hr) Hws Hall]. split; simpl; [|done|].
  - exists mi, l. split; [done|]. by eapply reader_ok_step.
  - unfold w_packs. simpl. by rewrite (step_packs _ _ Hs).
Qed.

(** Only writers changed. *)
Lemma store_ok_view B w r' :
  store_ok B w → packs (view_of r') = w_packs w → readers (view_of r') = readers (sh_view (w_sh w)) →
  store_ok B (w_set_sh (mkShared r' (cachepath (w_sh w))) w).
Proof.
  intros [(mi & l & Hrd & [[Hd Hw] Hp Hm Hl]) Hws Hall] Hpk Hrs. unfold w_packs, sh_packs, sh_view in *. simpl in *.
  split; simpl; [|done|by unfold w_packs, sh_packs, sh_view; simpl; rewrite Hpk].
  exists mi, l. split; [done|]. split; simpl; unfold shared_ok, sh_packs, sh_view; simpl; rewrite ?Hpk; try done.
  eapply lru_ok_mono; [| |exact Hl]; simpl; [by rewrite Hpk|by rewrite Hrs].
Qed.

Lemma flushWorkingSet_spec B w :
  store_ok B w → pending B w →
  wp (flushWorkingSet fault)
    (λ _ w', store_ok B w' ∧ writable B w' ∧ workingSet w' = ∅)
    (λ e w', cs_fails e ∧ store_ok B w') w.
Proof.
  intros Hok Hpe. unfold flushWorkingSet. st. st. unfold pending in Hpe.
  destruct (w_pack w) as [wr|] eqn:Hpk.
  2: { destruct Hpe as [Hws Hsz]. st. split_and!; [done| |done]. unfold writable, pending, max_workingset.
       rewrite Hpk, Hws, Hsz. split; [done|lia]. }
  destruct Hpe as (p & Hw & Hn & Hi & Ho). pose proof (open_ok_wf _ _ _ _ Ho) as Hwf.
  st. st. st. eapply wp_mono; [by apply (pack_Close_law _ wr (pack_path (w_name w)) p)|..]; cbn beta.
  - intros ents r1 [-> Hr1].
    assert (H1 : store_ok B (w_set_sh (mkShared r1 (cachepath (w_sh w))) w)).
    { eapply store_ok_closed; [done|exact Hwf|apply Ho|exact Hn|exact Hi|by rewrite Hr1|by rewrite Hr1]. }
    set (w1 := w_set_sh _ w) in *.
    assert (HP1 : w_packs w1 = <[pack_path (w_name w) := p]> (w_packs w)) by (unfold w_packs, sh_packs, sh_view; simpl; by rewrite Hr1).
    st. st. eapply wp_mono; [apply (cacheIndex_spec fault (w_sh w1) (w_name w) p)|..]; cbn beta.
    + split_and!; [|done|by apply index_for_sort]. change (w_packs w1 !! pack_path (w_name w) = Some p).
      rewrite HP1. apply lookup_insert_eq.
    + intros _ s2 H2. pose proof (store_ok_step B w1 s2 H2 H1) as [Hrd _ Hall]. st.
      assert (HP2 : sh_packs s2 = w_packs w1) by apply (step_packs _ _ H2).
      split_and!; [|split; [done|unfold max_workingset; simpl; lia]|done]. split; simpl; [exact Hrd|apply map_empty_subseteq|].
      intros h Hh. right. destruct (Hall h Hh) as [Hws|?]; [|done]. simpl in Hws.
      unfold w_packs. simpl. rewrite HP2, HP1. exists (pack_path (w_name w)), p.
      split; [apply lookup_insert_eq|]. by apply Ho.
    + intros e s2 [He H2]. split; [done|]. by apply (store_ok_step B w1 s2).
  - intros e r1 (He & Hrd & Hpk1). split; [by left|]. destruct Hpk1 as [Hpk1|Hpk1].
    + by apply store_ok_view.
    + eapply store_ok_closed; [done|exact Hwf|apply Ho|exact Hn|exact Hi|by rewrite Hpk1|by rewrite Hrd].
Qed.

(** *** Reading *)

(** A call of the reader changes nothing else of the store. *)
Definition w_keep w w' : Prop :=
  sh_keep (w_sh w) (w_sh w') ∧ w' = w_set_rdr (rdr w') (w_set_sh (w_sh w') w).

Lemma pending_keep B w w' : w_keep w w' → pending B w → pending B w'.
Proof.
  intros [[P W [_ D]] ->]. unfold pending, w_packs in *. simpl. destruct (w_pack w); [|done].
  intros (p & Hw & Hn & Hi & Ho). exists p. rewrite W, P. split_and!; [done..| |done]. by apply D.
Qed.

Lemma on_rdr_spec B w {A} (m : M Reader A) (Q : A → Prop) (E : error → Prop) :
  store_ok B w →
  (∀ r, reader_ok B r → r_sh r = w_sh w →
     wp m (λ a r', Q a ∧ reader_ok B r' ∧ sh_keep (r_sh r) (r_sh r'))
          (λ e r', E e ∧ reader_ok B r' ∧ sh_keep (r_sh r) (r_sh r')) r) →
  wp (on_rdr m) (λ a w', Q a ∧ store_ok B w' ∧ w_keep w w') (λ e w', E e ∧ store_ok B w' ∧ w_keep w w') w.
Proof.
  intros [(mi & l & Hrd & Hr) Hws Hall] Hm. unfold on_rdr. st. st. rewrite Hrd. st.
  assert (Hput : ∀ r', reader_ok B r' → sh_keep (w_sh w) (r_sh r') →
    let w' := w_set_rdr (Some (midx r', lru r')) (w_set_sh (r_sh r') w) in store_ok B w' ∧ w_keep w w').
  { intros r' Hr' K. split; [|by split]. split; simpl; [|done|].
    - exists (midx r'), (lru r'). split; [done|]. by destruct r'.
    - unfold w_packs. simpl. by rewrite (keep_packs _ _ K). }
  eapply wp_mono; [by apply Hm|..]; cbn beta; simpl; intros x r' (Hx & Hr' & K); (split; [done|]); by apply Hput.
Qed.

Lemma in_packs_block B r h : reader_ok B r → in_packs (sh_packs (r_sh r)) h → is_Some (B !! h).
Proof.
  intros Hr (path & p & Hp & Hh). pose proof (rd_packs _ _ _ Hr path p Hp) as Hc. unfold CstoreProps.conforms in Hc.
  rewrite Forall_forall in Hc. apply list_elem_of_fmap in Hh as (kv & -> & Hkv).
  destruct (Hc kv Hkv) as (d & _ & Hd). by exists d.
Qed.

(** [Has] changes nothing. *)
Lemma Has_spec B w h :
  store_ok B w →
  wp (on_rdr (reader_Has h)) (λ b w', w' = w ∧ (b = true → is_Some (B !! h))) (λ _ _, False) w.
Proof.
  intros [(mi & l & Hrd & Hr) _ _]. pose proof (searchMetaIndex_spec _ _ h (rd_midx _ _ _ Hr)) as Hs.
  assert (Hw : w_set_rdr (Some (mi, l)) (w_set_sh (w_sh w) w) = w) by (destruct w; simpl in *; by subst).
  unfold on_rdr, reader_Has. st. st. rewrite Hrd. st. st. st. simpl in Hs |- *. destruct (mi !! h) as [info|].
  - destruct Hs as (e & -> & (p & Hp & _ & He & Hk)). st. st. cbn beta. st. split; [done|]. intros _.
    apply (in_packs_block B _ h Hr). exists (pack_path (Name info)), p. split; [done|].
    rewrite <-(layout_keys p 0). rewrite <-Hk. by apply list_elem_of_fmap_2.
  - rewrite Hs. st. st. cbn beta. st. split; [done|]. by rewrite bool_decide_eq_false_2 by (by intros []).
Qed.

Lemma cs_Get_spec B w h :
  store_ok B w →
  wp (Cstore.Get fault inflate h) (λ d w', B !! h = Some d ∧ store_ok B w' ∧ w_keep w w')
    (λ e w', (e = NotFound ∧ B !! h = None ∨ cs_fails e) ∧ store_ok B w' ∧ w_keep w w') w.
Proof.
  intros Hok. pose proof Hok as [_ Hws Hall]. unfold Cstore.Get. st. st.
  destruct (workingSet w !! h) as [d|] eqn:E.
  { st. split_and!; [by eapply lookup_weaken|done|split; [done|by destruct w]]. }
  apply on_rdr_spec; [done|]. intros r Hr Hsh.
  eapply wp_mono; [by apply (reader_Get_spec fault inflate B r h)|done|]; cbn beta.
  intros e r' (He & Hr' & K). split; [|done]. destruct He as [[-> Hni]|?]; [left|by right].
  split; [done|]. apply eq_None_not_Some. intros Hs. destruct (Hall h Hs) as [[? ?]|Hin]; [congruence|].
  apply Hni. by rewrite Hsh.
Qed.

(** *** Adding a block *)

(** The name drawn for the next pack has no index file yet. *)
Definition fresh_draw w : Prop :=
  w_pack w = None → ∀ nm r', RandomFileName (remote (w_sh w)) = (Ok nm, r') →
  sh_files (w_sh w) !! index_name (nm ++ str ".ebpack") = None.

Lemma open_pack_spec B w :
  store_ok B w → writable B w → fresh_draw w →
  wp open_pack
    (λ wr w', w_pack w' = Some wr ∧ store_ok B w' ∧ writable B w' ∧
              workingSet w' = workingSet w ∧ workingSetSz w' = workingSetSz w)
    (λ e w', cs_fails e ∧ store_ok B w') w.
Proof.
  intros Hok [Hpe Hsz] Hfr. unfold open_pack. st. st. destruct (w_pack w) as [wr|] eqn:Hpk; [by st|].
  st. st. st. eapply wp_mono; [apply wp_eqn, RandomFileName_law|..]; cbn beta.
  2: { intros e r [He Hr]. split; [by left|]. apply (store_ok_step B w); [by apply step_of_view|done]. }
  intros nm r1 [Hr1 Hrun]. specialize (Hfr Hpk nm r1 Hrun).
  set (s1 := mkShared r1 (cachepath (w_sh w))). assert (H1 : sh_step (w_sh w) s1) by (by apply step_of_view).
  st. st. st. eapply wp_mono; [apply NewPack_law|..]; cbn beta.
  2: { intros e r [He Hr]. split; [by left|]. apply (store_ok_step B w); [|done]. etrans; [exact H1|].
       by apply (step_of_view s1). }
  intros wr r2 (Hn & Hwr & Hr2). st. st. st. unfold pending in Hpe. rewrite Hpk in Hpe. destruct Hpe as [Hws Hz].
  set (s2 := mkShared r2 (cachepath (w_sh w))).
  assert (H2 : store_ok B (w_set_sh s2 w)).
  { apply store_ok_view; [done|..]; rewrite Hr2; simpl; by rewrite Hr1. }
  split_and!; [done|destruct H2 as [Hrd Hwsb Hall]; split; simpl; [exact Hrd|exact Hwsb|exact Hall]| |done|done].
  split; [|simpl; done]. unfold pending, w_packs. simpl. exists []. unfold sh_packs, sh_view. simpl. rewrite Hr2. simpl.
  rewrite lookup_insert_eq, Hws, Hz. split_and!; [done|exact Hn|exact Hfr|].
  split; simpl; try done; [|constructor|constructor]. intros h. rewrite lookup_empty. split; [set_solver|by intros []].
Qed.

(** What a block must be like: it fits a pack, and no other block has its hash. *)
Definition admissible B (h : hash) (d : bytes) : Prop :=
  (B !! h = None ∨ B !! h = Some d) ∧ length h = hash_len ∧ inflate (deflate d) = Ok d ∧
  deflate d ≠ [] ∧ (Z.of_nat (length (deflate d)) < 2 ^ 24)%Z.

Lemma admissible_sub B h d : admissible B h d → B ⊆ <[h := d]> B.
Proof. intros [[?|?] _]; [by apply insert_subseteq|by rewrite insert_id]. Qed.

(** The open pack with one more value. *)
Lemma open_ok_add B ws sz p h d :
  admissible B h d → ws !! h = None → (sz ≤ max_workingset)%Z → open_ok B ws sz p →
  let sz' := u64 (sz + Z.of_nat (length (deflate d))) in
  add_entry p h (deflate d) = p ++ [(h, deflate d)] ∧ (0 ≤ sz')%Z ∧
  open_ok (<[h := d]> B) (<[h := d]> ws) sz' (p ++ [(h, deflate d)]).
Proof.
  intros Ha Hws Hmax [Hk Hn Hc Hs Hm Hf]. pose proof Ha as (_ & Hl & Hi & Hne & H24).
  assert (Hni : h ∉ p.*1) by (rewrite Hk, Hws; by intros []). unfold max_workingset in Hmax.
  cbv zeta. rewrite wrap_small by lia. split_and!; [|lia|].
  { unfold add_entry. by rewrite bool_decide_eq_false_2. }
  split.
  - intros h'. rewrite fmap_app, elem_of_app, Hk, lookup_insert_is_Some'. simpl. set_solver.
  - rewrite fmap_app. apply NoDup_app. split_and!; [done|set_solver|apply NoDup_singleton].
  - apply Forall_app. split; [eapply conforms_mono; [by apply admissible_sub|done]|].
    constructor; [|constructor]. exists d. simpl. split; [done|apply lookup_insert_eq].
  - rewrite pack_data_app, length_app, Hs. unfold pack_data at 3. simpl. rewrite app_nil_r. lia.
  - lia.
  - apply Forall_app. split; [done|]. by constructor.
Qed.

Lemma store_ok_insert B w h d :
  admissible B h d → store_ok B w →
  store_ok (<[h := d]> B) (w_set_ws (<[h := d]> (workingSet w)) (workingSetSz w) w).
Proof.
  intros Ha [(mi & l & Hrd & Hr) Hws Hall]. split; simpl.
  - exists mi, l. split; [done|]. eapply reader_ok_mono; [by apply admissible_sub|done].
  - by apply insert_mono.
  - intros h'. rewrite !lookup_insert_is_Some'. intros [->|Hh]; [by left; left|].
    destruct (Hall h' Hh); [left; by right|by right].
Qed.

Lemma add_block_spec B w h d :
  store_ok B w → writable B w → fresh_draw w → admissible B h d → workingSet w !! h = None →
  let B' := <[h := d]> B in
  wp (add_block fault deflate h d) (λ h' w', h' = h ∧ store_ok B' w' ∧ writable B' w')
    (λ e w', cs_fails e ∧ (store_ok B w' ∨ store_ok B' w')) w.
Proof.
  intros Hok Hwr Hfr Ha Hws B'. unfold add_block. st. eapply wp_mono; [by apply open_pack_spec|..]; cbn beta.
  2: { intros e w' [He Hw']. split; [done|by left]. }
  intros wr w1 (Hpk & Hok1 & [Hpe1 Hsz1] & Hws1 & Hz1). rewrite <-Hws1 in Hws. clear Hws1 Hz1 Hok Hwr Hfr w.
  unfold pending in Hpe1. rewrite Hpk in Hpe1. destruct Hpe1 as (p & Hw & Hn & Hi & Ho).
  destruct (open_ok_add B _ _ p h d Ha Hws (proj2 Hsz1) Ho) as (Hadd & Hnn & Ho').
  st. st. st. eapply wp_mono; [by apply (pack_Add_law _ wr (pack_path (w_name w1)) p)|..]; cbn beta.
  2: { intros e r (He & Hp & Hr). split; [by left|]. left. by apply store_ok_view. }
  intros _ r Hr. rewrite Hadd in Hr. set (s2 := mkShared r (cachepath (w_sh w1))).
  assert (Hok2 : store_ok B (w_set_sh s2 w1)) by (apply store_ok_view; [done|by rewrite Hr..]).
  st. st. st. st. set (w3 := w_set_ws _ _ _).
  assert (Hok3 : store_ok B' w3).
  { destruct (store_ok_insert B _ h d Ha Hok2) as [Hrd Hw3 Hall]. by split. }
  assert (Hpe3 : pending B' w3).
  { unfold pending, w_packs, sh_packs, sh_view. simpl. rewrite Hpk, Hr. simpl. eexists.
    split_and!; [apply lookup_insert_eq|exact Hn|exact Hi|exact Ho']. }
  case_bool_decide as Hbig.
  - st. eapply wp_mono; [by apply (flushWorkingSet_spec B' w3)|..]; cbn beta.
    + intros _ w4 (Hok4 & Hwr4 & _). by st.
    + intros e w4 [He Hok4]. split; [done|by right].
  - st. split_and!; [done..|]. split; [done|]. split; [exact Hnn|lia].
Qed.

Lemma admissible_id B h d x : admissible B h d → B !! h = Some x → <[h := d]> B = B.
Proof. intros [[?|?] _] Hx; [congruence|]. by apply insert_id. Qed.

Lemma Put_spec B w d :
  let h := Sum256 d in let B' := <[h := d]> B in
  store_ok B w → writable B w → fresh_draw w → admissible B h d →
  wp (Cstore.Put fault deflate Sum256 d) (λ h' w', h' = h ∧ store_ok B' w' ∧ writable B' w')
    (λ e w', cs_fails e ∧ (store_ok B w' ∨ store_ok B' w')) w.
Proof.
  intros h B' Hok Hwr Hfr Ha. unfold Cstore.Put. fold h. st. st.
  destruct (workingSet w !! h) as [x|] eqn:E.
  { st. assert (HB : B !! h = Some x) by (by eapply lookup_weaken; [|apply Hok]).
    unfold B'. by rewrite (admissible_id B h d x Ha HB). }
  st. eapply wp_mono; [by apply (Has_spec B w h)| |done]; cbn beta. intros b w1 [-> Hb]. destruct b.
  - destruct (Hb eq_refl) as [x HB]. st. unfold B'. by rewrite (admissible_id B h d x Ha HB).
  - by apply add_block_spec.
Qed.

(** *** Opening and flushing *)

(** The packs of the server hold exactly [B]. *)
Definition packs_hold B s : Prop :=
  shared_ok s ∧ map_Forall (λ _ p, conforms B p) (sh_packs s) ∧ ∀ h, is_Some (B !! h) → in_packs (sh_packs s) h.

Lemma packs_hold_keep B s s' : sh_keep s s' → packs_hold B s → packs_hold B s'.
Proof.
  intros K (Hok & Hp & Hall). pose proof (shared_ok_keep _ _ K Hok). unfold packs_hold. by rewrite (keep_packs _ _ K).
Qed.

Lemma cs_NewReader_spec B s :
  packs_hold B s →
  wp (NewReader fault)
    (λ rd s', reader_ok B (mkReader s' rd.1 rd.2) ∧ packs_hold B s')
    (λ e s', cs_fails e ∧ packs_hold B s') s.
Proof.
  intros Hs. pose proof Hs as (Hok & Hp & Hall). unfold NewReader. st.
  eapply wp_mono; [by apply readAndCacheMetaIndex_spec|..]; cbn beta.
  - intros mi s' (Hmi & H1 & _). st. pose proof (step_packs _ _ H1) as P. simpl.
    split; [|by eapply packs_hold_keep; [apply step_keep|]]. split; simpl; rewrite ?P; try done.
    + by eapply shared_ok_step.
    + split; constructor.
  - intros e s' [He H1]. split; [done|]. by eapply packs_hold_keep; [apply step_keep|].
Qed.

Lemma cs_NewWriter_spec B s :
  packs_hold B s →
  wp (NewWriter fault) (λ w _, store_ok B w ∧ writable B w) (λ e s', cs_fails e ∧ packs_hold B s') s.
Proof.
  intros Hs. unfold NewWriter. st. eapply wp_mono; [by apply (cs_NewReader_spec B)| |done]; cbn beta.
  intros [mi l] s' (Hr & Hs'). st. st. st. split.
  - split; simpl; [by exists mi, l|apply map_empty_subseteq|]. intros h Hh. right. by apply Hs'.
  - split; [done|]. unfold max_workingset. simpl. lia.
Qed.

Lemma close_all_spec l : ∀ s,
  wp (close_all l) (λ _ s', sh_keep s s') (λ e s', cs_fails e ∧ sh_keep s s') s.
Proof.
  induction l as [|e l IH]; intros s; cbn [close_all]; [by st|]. st. st.
  assert (Hk : ∀ r', view_of r' = sh_view s ∨
    view_of r' = mkView (sh_packs s) (writers (sh_view s)) (delete e.2 (readers (sh_view s))) →
    sh_keep s (mkShared r' (cachepath s))).
  { intros r' Hr'. split; unfold sh_packs, sh_view in *; simpl; destruct Hr' as [Hr'|Hr']; rewrite ?Hr'; done. }
  eapply wp_mono; [apply pack_CloseReader_law|..]; cbn beta.
  - intros _ r' Hr'. eapply wp_mono; [apply IH|..]; cbn beta.
    + intros _ s' K. etrans; [|exact K]. apply Hk. by right.
    + intros e' s' [He' K]. split; [done|]. etrans; [|exact K]. apply Hk. by right.
  - intros e' r' [He' Hr']. split; [by left|]. by apply Hk.
Qed.

(** After a flush the packs hold everything. *)
Lemma store_ok_flushed B w : store_ok B w → workingSet w = ∅ → packs_hold B (w_sh w).
Proof.
  intros [(mi & l & _ & [Hok Hp _ _]) _ Hall] Hws. split_and!; [done|done|]. intros h Hh.
  destruct (Hall h Hh) as [[? Hx]|?]; [|done]. by rewrite Hws, lookup_empty in Hx.
Qed.

Lemma Flush_spec B w :
  store_ok B w → pending B w →
  wp (Cstore.Flush fault) (λ _ w', store_ok B w') (λ e w', cs_fails e ∧ packs_hold B (w_sh w')) w.
Proof.
  intros Hok Hpe. unfold Cstore.Flush. st. st. eapply wp_mono; [by apply (flushWorkingSet_spec B)|..]; cbn beta.
  2: { intros e w1 [He H1]. by st. }
  intros _ w1 (Hok1 & _ & Hws). pose proof (store_ok_flushed B w1 Hok1 Hws) as Hh1.
  destruct Hok1 as [(mi & l & Hrd & _) _ _]. st. unfold on_rdr. st. st. rewrite Hrd. st.
  unfold reader_Close. st. st. st. simpl. eapply wp_mono; [apply close_all_spec|..]; cbn beta.
  2: { intros e s2 [He K]. split; [done|]. simpl. by eapply packs_hold_keep. }
  intros _ s2 K. pose proof (packs_hold_keep B _ _ K Hh1) as Hh2. st. st. st. simpl.
  eapply wp_mono; [by apply (cs_NewReader_spec B s2)|..]; cbn beta.
  - intros [mi' l'] s3 (Hr & Hh3). st. split; simpl; [by exists mi', l'|rewrite Hws; apply map_empty_subseteq|].
    intros h Hh. right. by apply Hh3.
  - intros e s3 [He Hh3]. st. st. by st.
Qed.

(** ** Theorems *)

(** C7: [Get] of the content store is lookup in the map of its blocks: it returns
    the block, from the working set or from the pack that has it, reports
    [NotFound] only for a hash without a block, and otherwise fails only as the
    server or the local disk do; the store is the same afterwards.  A request that fails is
    reported by the reader of the pack as an error ([PackLaws]): a read error inside a block of the
    cipher, at which cryptofile/reader.go panics ([cryptofile_read_error_panics]), is left out. *)
Theorem cstore_get_refines B w h :
  store_ok B w →
  wp (Cstore.Get fault inflate h)
    (λ d w', B !! h = Some d ∧ store_ok B w' ∧ (writable B w → writable B w'))
    (λ e w', (e = NotFound ∧ B !! h = None ∨ cs_fails e) ∧ store_ok B w' ∧ (writable B w → writable B w')) w.
Proof.
  intros Hok.
  assert (Hwr : ∀ w', w_keep w w' → writable B w → writable B w').
  { intros w' K [Hpe Hsz]. split; [by eapply pending_keep|]. destruct K as [_ ->]. exact Hsz. }
  eapply wp_mono; [by apply cs_Get_spec|..]; cbn beta; intros x w' (Hx & Hok' & K);
    (split_and!; [exact Hx|exact Hok'|by apply Hwr]).
Qed.

(** C8: [Put] of the content store inserts the block under the hash of its bytes, as they are before
    they are compressed (doc/man/5/bpy_htree.md has the hash of the compressed bytes); when it fails
    the store still holds every block it had. *)
Theorem cstore_put_refines B w d :
  let h := Sum256 d in let B' := <[h := d]> B in
  store_ok B w → writable B w → fresh_draw w → admissible B h d →
  wp (Cstore.Put fault deflate Sum256 d) (λ h' w', h' = h ∧ store_ok B' w' ∧ writable B' w')
    (λ e w', cs_fails e ∧ (store_ok B w' ∨ store_ok B' w')) w.
Proof. intros h B'. apply Put_spec. Qed.

(** C9: after the working set has been flushed, a store that is opened anew over
    the same packs, with any sound cache directory, has all the blocks. *)
Theorem cstore_flush_durable B w :
  store_ok B w → writable B w →
  wp (flushWorkingSet fault)
    (λ _ w', ∀ s, sh_packs s = w_packs w' → dir_ok (sh_packs s) (sh_files s) →
       wp (NewWriter fault) (λ w2 _, store_ok B w2 ∧ writable B w2) (λ e _, cs_fails e) s)
    (λ e w', cs_fails e ∧ store_ok B w') w.
Proof.
  intros Hok [Hpe _]. eapply wp_mono; [by apply flushWorkingSet_spec| |done]; cbn beta.
  intros _ w' (Hok' & _ & Hws) s HP Hd. destruct (store_ok_flushed B w' Hok' Hws) as ([_ Hw] & Hp & Hall).
  assert (Hs : packs_hold B s).
  { unfold packs_hold, shared_ok. unfold w_packs in HP. rewrite HP in *. done. }
  eapply wp_mono; [by apply cs_NewWriter_spec|done|]; cbn beta. by intros e s' [? _].
Qed.

(** [Close], as the commands rely on it ([Store.Close_law]): when it returns, the packs hold every
    block, or the flush failed and its error was dropped; when it fails the packs hold them too. *)
Theorem cstore_close_saves B w :
  store_ok B w → writable B w →
  wp (Cstore.Close fault)
    (λ _ w', packs_hold B (w_sh w') ∨ ∃ e, cs_fails e ∧ (flushWorkingSet fault w).1 = Err e ∧ store_ok B w')
    (λ e w', cs_fails e ∧ packs_hold B (w_sh w')) w.
Proof.
  intros Hok [Hpe _]. unfold Cstore.Close. st. st.
  pose proof (flushWorkingSet_spec B w Hok Hpe) as Hf. unfold wp in Hf |- *.
  destruct (flushWorkingSet fault w) as [[[]|e| |] w1]; [|..|done|done].
  2: { right. exists e. by destruct Hf. }
  destruct Hf as (Hok1 & _ & Hws). pose proof (store_ok_flushed B w1 Hok1 Hws) as Hh1.
  destruct Hok1 as [(mi & l & Hrd & _) _ _]. change (wp (on_rdr reader_Close)
    (λ _ w', packs_hold B (w_sh w') ∨ ∃ e, cs_fails e ∧ Ok () = Err e ∧ store_ok B w') (λ e w', cs_fails e ∧ packs_hold B (w_sh w')) w1).
  unfold on_rdr. st. st. rewrite Hrd. st. unfold reader_Close. st. st. st. simpl.
  eapply wp_mono; [apply close_all_spec|..]; cbn beta.
  - intros _ s2 K. left. by eapply packs_hold_keep.
  - intros e s2 [He K]. split; [done|]. simpl. by eapply packs_hold_keep.
Qed.

(** [Flush] and [Close] report success when the pack could not be closed. *)
Theorem cstore_flush_swallows w wr e r' :
  w_pack w = Some wr → pack_Close wr (remote (w_sh w)) = (Err e, r') →
  Cstore.Flush fault w = (Ok (), w_set_sh (mkShared r' (cachepath (w_sh w))) w) ∧
  Cstore.Close fault w = (Ok (), w_set_sh (mkShared r' (cachepath (w_sh w))) w).
Proof.
  intros Hw Hc. unfold Cstore.Flush, Cstore.Close, flushWorkingSet, mbind, M_bind, try, Prelude.get.
  rewrite Hw. unfold in_shared, on_remote, zoom. by rewrite Hc.
Qed.

(** Once [Flush] failed to read the index again, every [Get] past the working set
    panics. *)
Theorem cstore_reader_lost w h :
  rdr w = None → workingSet w !! h = None → Cstore.Get fault inflate h w = (Panic, w).
Proof.
  intros Hr Hw. unfold Cstore.Get, on_rdr, mbind, M_bind, Prelude.get. by rewrite Hw, Hr.
Qed.
End Writer.

(** ** A store over one pack *)
Module CstoreDemo.
#[local] Existing Instances mem_client mem_packs mem_laws.

Definition Sum256 (d : bytes) : hash := take 32 (d ++ replicate 32 Byte.x00).
Definition no_fault : nat → option (nat * error) := λ _, None.
Definition old : bytes := str "old block".
Definition blocks : gmap bytes bytes := {[ Sum256 old := old ]}.
Definition path1 : bytes := pack_path (str "p1.ebpack").
Definition shared0 : Shared (R := MemRemote) :=
  mkShared (mkMem (mkView {[ path1 := [(Sum256 old, old)] ]} ∅ ∅) 1 (mkRootReply [] [] [] false)) (mkDir ∅ 0).
Definition blank : Writer (R := MemRemote) := mkWriter shared0 None None [] ∅ 0.
Definition w0 : Writer (R := MemRemote) :=
  match NewWriter no_fault shared0 with (Ok w, _) => w | _ => blank end.

Lemma packs0 : packs_hold Ok blocks shared0.
Proof.
  split_and!.
  - split; [|apply map_Forall_singleton; split_and!; [apply NoDup_singleton|repeat constructor; by vm_compute|done]].
    intros nm p c _ Hc. unfold sh_files in Hc. simpl in Hc. by rewrite lookup_empty in Hc.
  - apply map_Forall_singleton. constructor; [|constructor]. exists old. split; [done|apply lookup_singleton_eq].
  - intros h [d Hd]. unfold blocks in Hd. apply lookup_singleton_Some in Hd as [<- _]. exists path1, [(Sum256 old, old)].
    split; [apply lookup_singleton_eq|set_solver].
Qed.

Lemma w0_ok : store_ok Ok blocks w0 ∧ writable Ok blocks w0.
Proof.
  assert (Hw := cs_NewWriter_spec no_fault Ok blocks shared0 packs0).
  assert (Hok : match NewWriter no_fault shared0 with (Ok _, _) => true | _ => false end = true) by (by vm_compute).
  unfold w0. unfold wp in Hw. destruct (NewWriter no_fault shared0) as [[] s']; done.
Qed.

Definition fresh : bytes := str "new block".
Lemma fresh_admissible : admissible id Ok blocks (Sum256 fresh) fresh.
Proof.
  split_and!; [left; by vm_compute|done..].
Qed.
Lemma w0_fresh : fresh_draw w0.
Proof.
  intros _ nm r' Hr. assert (Hnm : nm = EncodeToString (put_be 8 4)).
  { apply (f_equal fst) in Hr. assert (Hc : (RandomFileName (remote (w_sh w0))).1 = Ok (EncodeToString (put_be 8 4)))
      by (by vm_compute). rewrite Hc in Hr. by injection Hr. }
  subst nm. by vm_compute.
Qed.

Lemma cstore_get_refines_witness :
  wp (Cstore.Get no_fault Ok (Sum256 old))
    (λ d w', blocks !! Sum256 old = Some d ∧ store_ok Ok blocks w' ∧ (writable Ok blocks w0 → writable Ok blocks w'))
    (λ e w', (e = NotFound ∧ blocks !! Sum256 old = None ∨ cs_fails no_fault e) ∧ store_ok Ok blocks w' ∧
             (writable Ok blocks w0 → writable Ok blocks w')) w0.
Proof. exact (cstore_get_refines no_fault Ok blocks w0 (Sum256 old) (proj1 w0_ok)). Defined.

Lemma cstore_put_refines_witness :
  wp (Cstore.Put no_fault id Sum256 fresh)
    (λ h' w', h' = Sum256 fresh ∧ store_ok Ok (<[Sum256 fresh := fresh]> blocks) w' ∧
              writable Ok (<[Sum256 fresh := fresh]> blocks) w')
    (λ e w', cs_fails no_fault e ∧ (store_ok Ok blocks w' ∨ store_ok Ok (<[Sum256 fresh := fresh]> blocks) w')) w0.
Proof.
  exact (cstore_put_refines no_fault id Ok Sum256 blocks w0 fresh (proj1 w0_ok) (proj2 w0_ok) w0_fresh
           fresh_admissible).
Defined.

(** The store with the new block in its open pack. *)
Definition w1 : Writer (R := MemRemote) := (Cstore.Put no_fault id Sum256 fresh w0).2.
Definition blocks1 : gmap bytes bytes := <[Sum256 fresh := fresh]> blocks.
Lemma w1_ok : store_ok Ok blocks1 w1 ∧ writable Ok blocks1 w1.
Proof.
  assert (Hw := Put_spec no_fault id Ok Sum256 blocks w0 fresh (proj1 w0_ok) (proj2 w0_ok) w0_fresh fresh_admissible).
  assert (Hok : match (Cstore.Put no_fault id Sum256 fresh w0).1 with Ok _ => true | _ => false end = true)
    by (by vm_compute).
  unfold w1. unfold wp in Hw. destruct (Cstore.Put no_fault id Sum256 fresh w0) as [[] w']; try done.
  by destruct Hw as [_ Hw].
Qed.

Lemma cstore_flush_durable_witness :
  wp (flushWorkingSet no_fault)
    (λ _ w', ∀ s, sh_packs s = w_packs w' → dir_ok (sh_packs s) (sh_files s) →
       wp (NewWriter no_fault) (λ w2 _, store_ok Ok blocks1 w2 ∧ writable Ok blocks1 w2)
          (λ e _, cs_fails no_fault e) s)
    (λ e w', cs_fails no_fault e ∧ store_ok Ok blocks1 w') w1.
Proof. exact (cstore_flush_durable no_fault Ok blocks1 w1 (proj1 w1_ok) (proj2 w1_ok)). Defined.
End CstoreDemo.
