(* ===== verification/Client.v ===== *)
(** The client of a remote server, remote/client: client.go, file.go and pack.go.

    Calls are numbered; a goroutine reads what the server sends and hands each
    reply to the call whose number it carries.  Here one caller runs at a time and
    the reading goroutine runs while it waits; ClientConc.v has the interleavings.

    The server is not part of the repository: it is a function from a state and a
    request to a state and the messages it sends.  An oracle says which reads and
    writes of the connection fail, before and after the client has closed it. *)

From Stdlib Require Import ZArith Lia String.
From stdpp Require Import base list gmap sets strings.
From S2P Require Import Prelude Io Remote Proto.

Set Default Goal Selector "!".

Definition ErrTooManyCalls : error := ENew "too many calls in progress".
Definition ErrTooManyFiles : error := ENew "too many open files".
Definition ErrTooManyPacks : error := ENew "too many open pack uploads".
Definition ErrBadResponse : error := ENew "server sent bad response".
Definition ErrDisconnected : error := ENew "connection disconnected".
Definition ErrNoSuchPid : error := ENew "no such pack id".

Definition READOVERHEAD : Z := 4 + 1 + 2 + 4.
Definition WRITEOVERHEAD : Z := 4 + 1 + 4 + 4.

(** [errors.New(resp.Message)] *)
Definition server_error (msg : bytes) : error := ENew (String.string_of_list_byte msg).

Section Client.
Context {Srv : Type}.
Variable handle : Srv → Message → Srv * list Message.
Variable conn_fault : bool → nat → option error.

(** The server behind the connection, what it has sent and is not read yet, the
    number of reads and writes so far, whether the client has closed it. *)
Record Conn := mkConn { srv : Srv; inbox : list Message; ticks : nat; shut : bool }.

Record Client := mkClient {
  conn : Conn;
  maxMessageSize : Z;
  bufSize : nat;               (* len(wBuf), len(rBuf) *)
  mIdCount : Z;
  closed : bool;
  calls : gset Z;
  fidCount : Z;
  fids : gset Z;
  pidCount : Z;
  pids : gmap Z (option error);
}.


Definition set_conn (x : Conn) (c : Client) : Client :=
  mkClient x (maxMessageSize c) (bufSize c) (mIdCount c) (closed c) (calls c) (fidCount c) (fids c) (pidCount c) (pids c).
Definition set_closed (x : bool) (c : Client) : Client :=
  mkClient (conn c) (maxMessageSize c) (bufSize c) (mIdCount c) x (calls c) (fidCount c) (fids c) (pidCount c) (pids c).
Definition set_calls (x : gset Z) (c : Client) : Client :=
  mkClient (conn c) (maxMessageSize c) (bufSize c) (mIdCount c) (closed c) x (fidCount c) (fids c) (pidCount c) (pids c).
Definition set_fids (x : gset Z) (c : Client) : Client :=
  mkClient (conn c) (maxMessageSize c) (bufSize c) (mIdCount c) (closed c) (calls c) (fidCount c) x (pidCount c) (pids c).
Definition set_pids (x : gmap Z (option error)) (c : Client) : Client :=
  mkClient (conn c) (maxMessageSize c) (bufSize c) (mIdCount c) (closed c) (calls c) (fidCount c) (fids c) (pidCount c) x.

(** ** The connection *)

(** One read or write of the connection. *)
Definition tick : M Conn unit :=
  x ← get;
  modify (λ x, mkConn (srv x) (inbox x) (S (ticks x)) (shut x));;
  match conn_fault (shut x) (ticks x) with Some e => throw e | None => mret () end.

Definition conn_send (m : Message) : M Conn unit :=
  tick;;
  modify (λ x, let '(s, out) := handle (srv x) m in mkConn s (inbox x ++ out) (ticks x) (shut x)).

(** [proto.ReadMessage] with a buffer of [buflen] bytes; it waits for ever when
    nothing comes. *)
Definition conn_recv (buflen : nat) : M Conn Message :=
  tick;;
  x ← get;
  match inbox x with
  | [] => diverge
  | m :: ms =>
    modify (λ x, mkConn (srv x) ms (ticks x) (shut x));;
    match PackMessage m buflen with Ok _ => mret m | _ => throw ErrMsgTooLarge end
  end.

Definition conn_close : M Conn unit := modify (λ x, mkConn (srv x) (inbox x) (ticks x) true).

Definition on_conn {A} : M Conn A → M Client A := zoom conn set_conn.

Definition getMaxMessageSize : M Client Z := gets maxMessageSize.
Definition setMaxMessageSize (sz : Z) : M Client unit :=
  modify (λ c, mkClient (conn c) sz (Z.to_nat sz) (mIdCount c) (closed c) (calls c) (fidCount c) (fids c) (pidCount c) (pids c)).

(** [proto.WriteMessage] drops what does not fit the buffer. *)
Definition WriteMessage (m : Message) : M Client unit :=
  c ← get;
  match PackMessage m (bufSize c) with
  | Ok _ => on_conn (conn_send m)
  | Err _ => mret ()
  | Panic => panic
  | OutOfFuel => diverge
  end.

(** Waiting calls are told by their closed channels. *)
Definition Close : M Client unit :=
  c ← get;
  if closed c then mret () else modify (set_closed true);; on_conn conn_close.

(** ** Calls *)

(** The loop of [newCall]: it never comes back to [mIdCount], which stays zero,
    so it only ends when a number is free. *)
Fixpoint find_mid (fuel : nat) (mid : Z) : M Client Z :=
  match fuel with
  | O => diverge
  | S fuel =>
    let mid := if bool_decide (mid = 0)%Z then u16 (mid + 1) else mid in
    c ← get;
    if bool_decide (mid = mIdCount c) then throw ErrTooManyCalls
    else if bool_decide (mid ∉ calls c) then
      modify (set_calls ({[mid]} ∪ calls c));;
      mret mid
    else find_mid fuel (u16 (mid + 1))
  end.

Definition newCall : M Client Z :=
  c ← get;
  if closed c then throw ErrDisconnected
  else find_mid (S (S (size (calls c)))) (u16 (mIdCount c + 1)).

(** The new error is overwritten by the old one before it is stored. *)
Definition setPidError (pid : Z) (err : error) : M Client unit :=
  c ← get;
  match pids c !! pid with
  | None => mret ()
  | Some old => modify (set_pids (<[pid := old]> (pids c)))
  end.

(** [readMessages] until the reply to [mid] comes; [None] when the connection
    is lost. *)
Fixpoint await (fuel : nat) (mid : Z) : M Client (option Message) :=
  match fuel with
  | O => diverge
  | S fuel =>
    c ← get;
    o ← try (on_conn (conn_recv (bufSize c)));
    match o with
    | inr _ => Close;; mret None
    | inl m =>
      let id := GetMessageId m in
      match m with
      | RPackError pid msg =>
        setPidError pid (server_error msg);;
        if bool_decide (id = mid) then mret (Some m) else await fuel mid
      | _ =>
        if bool_decide (id = NOMID) then await fuel mid
        else if bool_decide (id = mid) then mret (Some m)
        else await fuel mid
      end
    end
  end.

Definition Call (m : Message) (mid : Z) : M Client Message :=
  o ← try (WriteMessage m;; c ← get; await (S (length (inbox (conn c)))) mid);
  modify (λ c, set_calls (calls c ∖ {[mid]}) c);;
  match o with
  | inr e => throw e
  | inl None => throw ErrDisconnected
  | inl (Some (RError _ msg)) => throw (server_error msg)
  | inl (Some resp) => mret resp
  end.

(** What every request method does: a new call, the call, a switch on the type of
    the reply. *)
Definition rpc {A} (request : Z → Message) (reply : Message → option A) : M Client A :=
  mid ← newCall;
  resp ← Call (request mid) mid;
  match reply resp with
  | Some a => mret a
  | None => throw ErrBadResponse
  end.

(** ** Requests *)

Definition client_TCasRoot (newValue newVersion sg epoch : bytes) : M Client bool :=
  rpc (λ mid, TCasRoot mid newVersion newValue sg epoch) (λ r, match r with RCasRoot _ ok => Some ok | _ => None end).
Definition client_TGetRoot : M Client RootReply :=
  rpc TGetRoot (λ r, match r with
    | RGetRoot _ value version sg ok => Some (mkRootReply value version sg ok) | _ => None end).
Definition client_TRemove (path epoch : bytes) : M Client unit :=
  rpc (λ mid, TRemove mid path epoch) (λ r, match r with RRemove _ => Some () | _ => None end).
Definition client_TOpen (fid : Z) (name : bytes) : M Client unit :=
  rpc (λ mid, TOpen mid fid name) (λ r, match r with ROpen _ => Some () | _ => None end).
Definition client_TReadAt (fid offset size : Z) : M Client bytes :=
  rpc (λ mid, TReadAt mid fid offset size) (λ r, match r with RReadAt _ data => Some data | _ => None end).
Definition client_TClose (fid : Z) : M Client unit :=
  rpc (λ mid, TClose mid fid) (λ r, match r with RClose _ => Some () | _ => None end).
(** Without a name; [NewPack] sends its own request. *)
Definition client_TNewPack (pid : Z) : M Client unit :=
  rpc (λ mid, TNewPack mid pid []) (λ r, match r with RNewPack _ => Some () | _ => None end).
(** Not answered. *)
Definition client_TWritePack (pid : Z) (data : bytes) : M Client unit := WriteMessage (TWritePack pid data).
Definition client_TClosePack (pid : Z) : M Client unit :=
  rpc (λ mid, TClosePack mid pid) (λ r, match r with RClosePack _ => Some () | _ => None end).
Definition client_TCancelPack (pid : Z) : M Client unit :=
  rpc (λ mid, TCancelPack mid pid) (λ r, match r with RCancelPack _ => Some () | _ => None end).
Definition client_TGetEpoch : M Client bytes :=
  rpc TGetEpoch (λ r, match r with RGetEpoch _ epoch => Some epoch | _ => None end).
Definition client_TStartGC : M Client bytes :=
  rpc TStartGC (λ r, match r with RStartGC _ epoch => Some epoch | _ => None end).
Definition client_TStopGC : M Client unit :=
  rpc TStopGC (λ r, match r with RStopGC _ => Some () | _ => None end).

(** ** Files and packs by number *)

Fixpoint find_fid (fuel : nat) (fid : Z) : M Client Z :=
  match fuel with
  | O => diverge
  | S fuel =>
    c ← get;
    if bool_decide (fid = fidCount c) then throw ErrTooManyFiles
    else if bool_decide (fid ∉ fids c) then
      modify (set_fids ({[fid]} ∪ fids c));;
      mret fid
    else find_fid fuel (u32 (fid + 1))
  end.

Definition nextFid : M Client Z :=
  c ← get; find_fid (S (S (size (fids c)))) (u32 (fidCount c + 1)).
Definition freeFid (fid : Z) : M Client unit := modify (λ c, set_fids (fids c ∖ {[fid]}) c).

Fixpoint find_pid (fuel : nat) (pid : Z) : M Client Z :=
  match fuel with
  | O => diverge
  | S fuel =>
    c ← get;
    if bool_decide (pid = pidCount c) then throw ErrTooManyPacks
    else if bool_decide (pids c !! pid = None) then
      modify (set_pids (<[pid := None]> (pids c)));;
      mret pid
    else find_pid fuel (u32 (pid + 1))
  end.

Definition nextPid : M Client Z :=
  c ← get; find_pid (S (S (size (pids c)))) (u32 (pidCount c + 1)).
Definition checkPidError (pid : Z) : M Client unit :=
  c ← get;
  match pids c !! pid with
  | None => throw ErrNoSuchPid
  | Some (Some e) => throw e
  | Some None => mret ()
  end.
Definition freePid (pid : Z) : M Client unit := modify (λ c, set_pids (delete pid (pids c)) c).

(** The number of the pack; it is not freed when there is no call left. *)
Definition NewPack (name : bytes) : M Client Z :=
  pid ← nextPid;
  mid ← newCall;
  o ← try (Call (TNewPack mid pid name) mid);
  match o with
  | inr e => freePid pid;; throw e
  | inl (RNewPack _) => mret pid
  | inl _ => freePid pid;; throw ErrBadResponse
  end.

(** The number of the file. *)
Definition Open (name : bytes) : M Client Z :=
  fid ← nextFid;
  o ← try (client_TOpen fid name);
  match o with
  | inr e => freeFid fid;; throw e
  | inl _ => mret fid
  end.

(** ** Attaching *)

Definition attach_size : Z := 1024 * 1024.

Definition blank_client (x : Conn) : Client :=
  mkClient x attach_size (Z.to_nat attach_size) 0 false ∅ 0 ∅ 0 ∅.

(** From [blank_client]; the buffers take the size that the server asks for.
    The connection is closed on every error but a size over the client's own. *)
Definition Attach (keyId : bytes) : M Client unit :=
  let fail e := on_conn conn_close;; throw e in
  w ← try (WriteMessage (TAttach 1 attach_size (str "buppy1") keyId));
  match w with
  | inr e => fail e
  | inl _ =>
    c ← get;
    r ← try (on_conn (conn_recv (bufSize c)));
    match r with
    | inr e => fail e
    | inl resp =>
      if bool_decide (GetMessageId resp ≠ 1)%Z then fail ErrBadResponse
      else
        match resp with
        | RAttach mid max =>
          if bool_decide (max > attach_size)%Z || bool_decide (mid ≠ 1)%Z then throw ErrBadResponse
          else setMaxMessageSize max
        | RError _ msg => fail (server_error msg)
        | _ => fail ErrBadResponse
        end
    end
  end.

(** ** file.go *)

Record File := mkFile { f_c : Client; fid : Z; offset : Z }.
Definition on_file {A} : M Client A → M File A := zoom f_c (λ c f, mkFile c (fid f) (offset f)).

(** Into a buffer of [n] bytes. *)
Definition file_Read (n : nat) : M File bytes :=
  max ← on_file getMaxMessageSize;
  let maxn := u32 (max - READOVERHEAD) in
  let sz := u32 (Z.of_nat n) in
  let sz := if bool_decide (sz > maxn)%Z then maxn else sz in
  f ← get;
  data ← on_file (client_TReadAt (fid f) (offset f) sz);
  if bool_decide (data = []) then throw EOF
  else
    let data := take n data in
    modify (λ f, mkFile (f_c f) (fid f) (u64 (offset f + Z.of_nat (length data))));;
    mret data.

(** With [io.SeekStart]. *)
Definition file_Seek (off : Z) : M File Z :=
  modify (λ f, mkFile (f_c f) (fid f) (u64 off));;
  mret (i64 off).

Definition file_Close : M File unit :=
  f ← get;
  on_file (freeFid (fid f));;
  on_file (client_TClose (fid f)).

#[global] Instance file_rsc : ReadSeekCloser File :=
  {| rsc_reader := {| io_read := file_Read |}; io_seek := file_Seek; io_rclose := file_Close |}.

(** ** pack.go *)

Record Pack := mkPack { p_c : Client; pid : Z }.
Definition on_pack {A} : M Client A → M Pack A := zoom p_c (λ c p, mkPack c (pid p)).

(** The loop of [Write]; a chunk of no bytes makes it loop for ever. *)
Fixpoint send_chunks (fuel : nat) (maxn : Z) (buf : bytes) : M Pack unit :=
  match buf with
  | [] => mret ()
  | _ =>
    match fuel with
    | O => diverge
    | S fuel =>
      let n := if bool_decide (u32 (Z.of_nat (length buf)) < maxn)%Z
               then u32 (Z.of_nat (length buf)) else maxn in
      p ← get;
      on_pack (client_TWritePack (pid p) (take (Z.to_nat n) buf));;
      send_chunks fuel maxn (drop (Z.to_nat n) buf)
    end
  end.

Definition pack_Write (buf : bytes) : M Pack unit :=
  p ← get;
  on_pack (checkPidError (pid p));;
  max ← on_pack getMaxMessageSize;
  send_chunks (length buf) (u32 (max - WRITEOVERHEAD)) buf.

Definition pack_Close : M Pack unit :=
  p ← get;
  on_pack (freePid (pid p));;
  on_pack (client_TClosePack (pid p)).
Definition pack_Cancel : M Pack unit :=
  p ← get;
  on_pack (freePid (pid p));;
  on_pack (client_TCancelPack (pid p)).

#[global] Instance pack_writer : IoWriter Pack := {| io_write := pack_Write; io_wclose := pack_Close |}.
End Client.
