(* ===== verification/ClientProps.v ===== *)
(** What the remote client promises: a remote file is a file and a remote pack a
    writer in the sense of Io.v, for every server that answers as documented.

    [ServerLaws] states what the requests do to the files, open files and uploads
    of a server; it may refuse any of them. *)

From Stdlib Require Import ZArith Lia.
From stdpp Require Import base list gmap sets strings.
From S2P Require Import Prelude Io Remote Proto ProtoProps Client.

Set Default Goal Selector "!".

(** ** The server *)

Record srv_view := mkSrv {
  s_files : gmap bytes bytes;
  s_fids : gmap Z bytes;
  s_packs : gmap Z (bytes * bytes);
}.

Class ServerLaws {Srv : Type} (handle : Srv → Message → Srv * list Message) := {
  sv : Srv → srv_view;
  refuses (s : Srv) (m : Message) : Prop :=
    ∃ msg s', handle s m = (s', [RError (GetMessageId m) msg]) ∧ sv s' = sv s;
  open_law s mid fid name :
    refuses s (TOpen mid fid name) ∨
    ∃ d s', handle s (TOpen mid fid name) = (s', [ROpen mid]) ∧ s_files (sv s) !! name = Some d ∧
            sv s' = mkSrv (s_files (sv s)) (<[fid := d]> (s_fids (sv s))) (s_packs (sv s));
  (** A short read is not empty before the end of the file. *)
  readat_law s mid fid off n d :
    s_fids (sv s) !! fid = Some d → (0 < n)%Z →
    refuses s (TReadAt mid fid (Z.of_nat off) n) ∨
    ∃ data s', handle s (TReadAt mid fid (Z.of_nat off) n) = (s', [RReadAt mid data]) ∧ sv s' = sv s ∧
               data = take (length data) (drop off d) ∧ (Z.of_nat (length data) ≤ n)%Z ∧
               (data = [] → length d ≤ off);
  newpack_law s mid pid name :
    refuses s (TNewPack mid pid name) ∨
    ∃ s', handle s (TNewPack mid pid name) = (s', [RNewPack mid]) ∧
          sv s' = mkSrv (s_files (sv s)) (s_fids (sv s)) (<[pid := (name, [])]> (s_packs (sv s)));
  (** An upload grows, or the server gives it up and says so. *)
  writepack_law s pid data :
    ∃ s' out, handle s (TWritePack pid data) = (s', out) ∧
      (out = [] ∨ ∃ msg, out = [RPackError pid msg]) ∧
      (sv s' = mkSrv (s_files (sv s)) (s_fids (sv s)) (delete pid (s_packs (sv s))) ∨
       ∃ name acc, s_packs (sv s) !! pid = Some (name, acc) ∧
         sv s' = mkSrv (s_files (sv s)) (s_fids (sv s)) (<[pid := (name, acc ++ data)]> (s_packs (sv s))));
  (** What is there after a refused [TClosePack] is left open. *)
  closepack_law s mid pid :
    (∃ msg s', handle s (TClosePack mid pid) = (s', [RError mid msg])) ∨
    ∃ name d s', handle s (TClosePack mid pid) = (s', [RClosePack mid]) ∧ s_packs (sv s) !! pid = Some (name, d) ∧
                 sv s' = mkSrv (<[name := d]> (s_files (sv s))) (s_fids (sv s)) (delete pid (s_packs (sv s)));
}.

Section Calls.
Context {Srv : Type} (handle : Srv → Message → Srv * list Message) (conn_fault : bool → nat → option error).
Abbreviation Client := (Client (Srv := Srv)).
Implicit Types c : Client.

(** The errors of calls. *)
Definition net_fails (e : error) : Prop :=
  e = ErrDisconnected ∨ (∃ msg, e = server_error msg) ∨ ∃ shut t, conn_fault shut t = Some e.

(** Between calls: nothing unread but notices about uploads, buffers of a size
    that short messages fit. *)
Record client_ok c : Prop := mkClientOk {
  co_closed : closed c = false;
  co_calls : calls c = ∅;
  co_mid : mIdCount c = 0%Z;
  co_inbox : Forall (λ m, ∃ pid msg, m = RPackError pid msg) (inbox (conn c));
  co_buf : bufSize c = Z.to_nat (maxMessageSize c);
  co_max : (64 ≤ maxMessageSize c ≤ attach_size)%Z;
}.

Lemma PackMessage_ok m buflen :
  valid_message m → message_size m ≤ buflen → (Z.of_nat buflen < 2 ^ 32)%Z → PackMessage m buflen = Ok (enc_message m).
Proof.
  intros Hv Hs Hb. pose proof (PackMessage_spec m buflen Hv Hb) as Hp.
  destruct (PackMessage m buflen) as [b|e| |]; [by destruct Hp as [-> _]|lia..|done].
Qed.

(** [m] can be sent. *)
Definition sendable c (m : Message) : Prop := valid_message m ∧ message_size m ≤ bufSize c.

Lemma tick_spec x :
  wp (tick conn_fault) (λ _ x', srv x' = srv x ∧ inbox x' = inbox x)
     (λ e x', (∃ shut t, conn_fault shut t = Some e)) (x : Conn (Srv := Srv)).
Proof. unfold tick. wp_steps. destruct (conn_fault (shut x) (ticks x)) eqn:E; wp_steps; by eauto. Qed.

Lemma WriteMessage_spec c m :
  (Z.of_nat (bufSize c) < 2 ^ 32)%Z → sendable c m →
  wp (WriteMessage handle conn_fault m)
    (λ _ c', ∃ x out, c' = set_conn x c ∧ handle (srv (conn c)) m = (srv x, out) ∧
             inbox x = inbox (conn c) ++ out)
    (λ e _, net_fails e) c.
Proof.
  intros Hb [Hv Hs]. unfold WriteMessage. wp_steps. rewrite PackMessage_ok by done.
  unfold on_conn. wp_step. unfold conn_send. wp_step. eapply wp_mono; [apply tick_spec|..]; cbn beta.
  - intros _ x [Hx Hi]. wp_step. rewrite Hx, Hi. destruct (handle (srv (conn c)) m) as [s' out] eqn:E. by eexists _, _.
  - intros e x He. right. by right.
Qed.

Lemma client_ok_buf c : client_ok c → (Z.of_nat (bufSize c) < 2 ^ 32)%Z.
Proof. intros [_ _ _ _ -> Hm]. unfold attach_size in Hm. lia. Qed.

Lemma setPidError_id pid e c : wp (setPidError pid e) (λ _ c', c' = c) (λ _ _, False) c.
Proof.
  unfold setPidError. wp_steps. destruct (pids c !! pid) as [old|] eqn:E; wp_steps; [|done].
  rewrite insert_id by done. by destruct c.
Qed.

Lemma recv_spec c m ms buflen (Q : Message + error → Client → Prop) E :
  inbox (conn c) = m :: ms →
  (∀ x, srv x = srv (conn c) → inbox x = ms → Q (inl m) (set_conn x c)) →
  (∀ e c', Q (inr e) c') →
  wp (try (on_conn (conn_recv conn_fault buflen))) Q E c.
Proof.
  intros Hi HQ HE. unfold on_conn, conn_recv. wp_step. wp_step. wp_step.
  eapply wp_mono; [apply tick_spec|..]; cbn beta; [|auto].
  intros _ x [Hs Hx]. rewrite Hi in Hx. wp_step. wp_step. rewrite Hx. wp_step. wp_step.
  destruct (PackMessage m buflen); wp_step; auto.
Qed.

Lemma close_lost c : wp (Close;; mret None) (λ o (_ : Client), o = @None Message) (λ _ _, False) c.
Proof. unfold Close. wp_steps. destruct (closed c); [by wp_steps|]. unfold on_conn, conn_close. by wp_steps. Qed.

(** Waiting for [r] behind notices about uploads. *)
Lemma await_spec r pre : ∀ fuel c,
  inbox (conn c) = pre ++ [r] → Forall (λ m, ∃ pid msg, m = RPackError pid msg) pre →
  length pre < fuel → GetMessageId r ≠ 0%Z →
  wp (await conn_fault fuel (GetMessageId r))
    (λ o c', o = None ∨ o = Some r ∧ ∃ x, c' = set_conn x c ∧ srv x = srv (conn c) ∧ inbox x = [])
    (λ _ _, False) c.
Proof.
  induction pre as [|m pre IH]; intros fuel c Hi Hpre Hf Hid; (destruct fuel as [|fuel]; [simpl in Hf; lia|]);
    cbn [await]; wp_step; wp_step; wp_step; (eapply recv_spec; [exact Hi|..];
      [|intros e c'; eapply wp_mono; [apply close_lost| |done]; cbn beta; auto]); intros x Hs Hx; cbn beta zeta.
  - assert (Hr : (if bool_decide (GetMessageId r = NOMID) then await conn_fault fuel (GetMessageId r)
      else if bool_decide (GetMessageId r = GetMessageId r) then mret (Some r)
      else await conn_fault fuel (GetMessageId r)) = (mret (Some r) : M Client _)).
    { unfold NOMID. by rewrite bool_decide_eq_false_2, bool_decide_eq_true_2. }
    destruct r; try (cbn [GetMessageId] in *; rewrite Hr; wp_step; right; split; [done|]; by exists x);
      simpl in Hid; done.
  - apply Forall_cons in Hpre as [(pid & msg & ->) Hpre].
    wp_step. eapply wp_mono; [apply setPidError_id| |done]; cbn beta. intros _ c1 ->.
    rewrite bool_decide_eq_false_2 by (simpl; unfold NOMID; lia).
    eapply wp_mono; [apply IH; [done|done|simpl in Hf; lia|done]| |done]; cbn beta.
    intros o c2 [->|[-> (x2 & -> & Hs2 & Hi2)]]; [by left|]. right. split; [done|]. exists x2.
    split_and!; [done|by rewrite Hs2|done].
Qed.

(** With no call in progress the first number is free. *)
Lemma newCall_spec c :
  client_ok c → wp newCall (λ mid c', mid = 1%Z ∧ c' = set_calls {[1%Z]} c) (λ _ _, False) c.
Proof.
  intros [Hcl Hca Hmid _ _ _]. unfold newCall. wp_steps. rewrite Hcl, Hca, Hmid, size_empty. simpl.
  wp_steps. rewrite Hmid, Hca. simpl. wp_steps. split; [done|]. by f_equal.
Qed.

(** A request that the server answers. *)
Lemma client_Call_spec c m r s' :
  client_ok c → sendable c m → GetMessageId r = 1%Z → handle (srv (conn c)) m = (s', [r]) →
  wp (Call handle conn_fault m 1)
    (λ resp c', resp = r ∧ (∀ id msg, r ≠ RError id msg) ∧
       ∃ x, c' = set_conn x c ∧ srv x = s' ∧ inbox x = [])
    (λ e _, net_fails e) (set_calls {[1%Z]} c).
Proof.
  intros Hc Hs Hid Hh. unfold Call. wp_step. wp_step. wp_step.
  set (c1 := set_calls {[1%Z]} c). eapply wp_mono; [apply (WriteMessage_spec c1); [exact (client_ok_buf c Hc)|exact Hs]|..];
    cbn beta.
  - intros _ c2 (x & out & -> & Hh' & Hi). change (srv (conn c1)) with (srv (conn c)) in Hh'.
    change (inbox (conn c1)) with (inbox (conn c)) in Hi. rewrite Hh in Hh'. injection Hh' as Hs1 <-.
    wp_step. wp_step. rewrite <-Hid.
    eapply wp_mono; [apply (await_spec r (inbox (conn c)) _ (set_conn x c1) Hi)| |done]; cbn beta.
    + by destruct Hc.
    + simpl. rewrite Hi, length_app. simpl. lia.
    + by rewrite Hid.
    + intros o c3 Ho. wp_step. wp_step. destruct Ho as [->|[-> (x2 & -> & Hs2 & Hi2)]].
      { wp_step. by left. }
      simpl in Hs2. assert (Hend : ∃ x0, set_calls (calls (set_conn x2 (set_conn x c1)) ∖ {[GetMessageId r]})
        (set_conn x2 (set_conn x c1)) = set_conn x0 c ∧ srv x0 = s' ∧ inbox x0 = []).
      { exists x2. rewrite Hid. split; [|by rewrite Hs2]. unfold set_calls, set_conn; simpl. f_equal.
        rewrite (co_calls _ Hc). set_solver. }
      destruct r; wp_step; try (split; [done|split; [done|exact Hend]]). right; left. by eexists.
  - intros e c2 He. wp_step. wp_step. by wp_step.
Qed.

Lemma client_ok_conn c x : client_ok c → inbox x = [] → client_ok (set_conn x c).
Proof. intros [] Hx. split; simpl; try done. by rewrite Hx. Qed.

(** A request answered by a reply of the right type, or refused. *)
Lemma rpc_spec {A} c (request : Z → Message) (reply : Message → option A) (Q : A → Srv → Prop) :
  client_ok c → sendable c (request 1%Z) →
  (∃ r s', handle (srv (conn c)) (request 1%Z) = (s', [r]) ∧ GetMessageId r = 1%Z ∧
     ((∃ msg, r = RError 1 msg) ∨ ∃ a, reply r = Some a ∧ Q a s')) →
  wp (rpc handle conn_fault request reply)
    (λ a c', ∃ x, c' = set_conn x c ∧ inbox x = [] ∧ Q a (srv x)) (λ e _, net_fails e) c.
Proof.
  intros Hc Hs (r & s' & Hh & Hid & Hr). unfold rpc. wp_step.
  eapply wp_mono; [by apply newCall_spec| |done]; cbn beta. intros mid c1 [-> ->]. wp_step.
  eapply wp_mono; [by apply (client_Call_spec c (request 1%Z) r s')| |done]; cbn beta.
  intros resp c2 (-> & Hne & x & -> & Hs' & Hi). destruct Hr as [[msg ->]|(a & -> & HQ)]; [by destruct (Hne 1%Z msg)|].
  wp_step. exists x. by rewrite Hs'.
Qed.

(** ** Files and packs *)
Section Server.
Context `{!ServerLaws handle}.
Definition view_of_client c : srv_view := sv (srv (conn c)).
Definition small (z : Z) : Prop := (0 ≤ z < 2 ^ 32)%Z.

Lemma fits_64 c m : client_ok c → message_size m ≤ 64 → message_size m ≤ bufSize c.
Proof. intros [_ _ _ _ -> Hm] Hs. lia. Qed.

Lemma TReadAt_spec c fid off n d :
  client_ok c → s_fids (view_of_client c) !! fid = Some d → small fid → (Z.of_nat off < 2 ^ 64)%Z → (0 < n < 2 ^ 32)%Z →
  wp (client_TReadAt handle conn_fault fid (Z.of_nat off) n)
    (λ data c', client_ok c' ∧ maxMessageSize c' = maxMessageSize c ∧ view_of_client c' = view_of_client c ∧
       data = take (length data) (drop off d) ∧ (Z.of_nat (length data) ≤ n)%Z ∧ (data = [] → length d ≤ off))
    (λ e _, net_fails e) c.
Proof.
  intros Hc Hf Hsf Ho Hn. unfold client_TReadAt.
  eapply wp_mono; [apply (rpc_spec c _ _ (λ data s', sv s' = sv (srv (conn c)) ∧ data = take (length data) (drop off d) ∧
    (Z.of_nat (length data) ≤ n)%Z ∧ (data = [] → length d ≤ off)))| |done]; cbn beta.
  - done.
  - split; [|apply fits_64; [done|unfold message_size, enc_vals; simpl; len]]. unfold small in Hsf. repeat constructor; simpl; lia.
  - destruct (readat_law (srv (conn c)) 1 fid off n d Hf) as [(msg & s' & Hh & _)|(data & s' & Hh & Hv & Hd)]; [lia|..].
    + exists (RError 1 msg), s'. split_and!; [done|done|left; eauto].
    + exists (RReadAt 1 data), s'. split_and!; [done|done|]. right. by exists data.
  - intros data c' (x & -> & Hi & Hv & Hd). split_and!; try apply Hd; [by apply client_ok_conn|done|exact Hv].
Qed.

(** The file [fid] holds [d] and is at [p]. *)
Definition file_at (f : File (Srv := Srv)) (d : bytes) (p : nat) : Prop :=
  client_ok (f_c f) ∧ small (fid f) ∧ s_fids (view_of_client (f_c f)) !! fid f = Some d ∧
  offset f = Z.of_nat p ∧ (Z.of_nat p < 2 ^ 63)%Z ∧ (Z.of_nat (length d) < 2 ^ 63)%Z.

#[local] Instance file_io : ReadSeekCloser (File (Srv := Srv)) := file_rsc handle conn_fault.

Lemma file_Read_spec f d p n :
  file_at f d p → 1 ≤ n → (Z.of_nat n < 2 ^ 32)%Z →
  wp (file_Read handle conn_fault n)
    (λ b f', b ≠ [] ∧ length b ≤ n ∧ file_at f' d (p + length b) ∧ b = take (length b) (drop p d) ∧
             p + length b ≤ length d)
    (λ e _, e = EOF ∧ length d ≤ p ∨ net_fails e) f.
Proof.
  intros (Hc & Hfid & Hf & Ho & Hp & Hd) Hn Hn32. unfold file_Read, on_file, getMaxMessageSize. wp_steps.
  pose proof (co_max _ Hc) as Hmax. unfold attach_size, READOVERHEAD in *.
  rewrite !wrap_small by lia. rewrite Ho. set (sz := if bool_decide _ then _ else _).
  assert (Hsz : (0 < sz ≤ Z.of_nat n)%Z) by (unfold sz; case_bool_decide; lia).
  eapply wp_mono; [apply (TReadAt_spec (f_c f) (fid f) p sz d); [done..|lia|lia]|..]; cbn beta; [|auto].
  intros data c' (Hc' & Hm' & Hv' & Hdata & Hlen & Hend). case_bool_decide as Hne.
  { wp_step. left. auto. }
  rewrite (take_ge data n) by lia. wp_steps. simpl.
  assert (Hld : length data ≤ length (drop p d)) by (rewrite Hdata at 1; rewrite length_take; lia).
  assert (0 < length data) by (destruct data; [done|simpl; lia]).
  rewrite length_drop in Hld. split_and!; [done|lia| |done|lia].
  split_and!; simpl; [done|done|by rewrite Hv'| |lia|done]. rewrite wrap_small; lia.
Qed.

Definition short (e : error) (d : bytes) (p n : nat) : Prop :=
  (e = EOF ∨ e = UnexpectedEOF) ∧ length d < p + n.

(** [io.ReadFull] renames an [EOF] of the connection too. *)
Definition read_fails (e : error) : Prop := net_fails e ∨ e = UnexpectedEOF ∧ net_fails EOF.

Lemma file_ReadFull_from fuel : ∀ n acc f d p,
  file_at f d p → n ≤ fuel → (Z.of_nat n < 2 ^ 32)%Z →
  wp (ReadFull_from fuel n acc)
    (λ b f', b = acc ++ take n (drop p d) ∧ length b = length acc + n ∧ file_at f' d (p + n))
    (λ e _, short e d p n ∨ read_fails e) f.
Proof.
  induction fuel as [|fuel IH]; intros n acc f d p Hat Hn Hn32.
  { assert (n = 0) as -> by lia. simpl. wp_step. by rewrite take_0, app_nil_r, !Nat.add_0_r. }
  destruct n as [|n]; [simpl; wp_step; by rewrite take_0, app_nil_r, !Nat.add_0_r|].
  cbn [ReadFull_from]. wp_step. wp_step. eapply wp_mono; [apply (file_Read_spec f d p); [done|lia|done]|..]; cbn beta.
  - intros b f' (Hne & Hlb & Hat' & Hb & Hle). assert (1 ≤ length b) by (destruct b; [done|simpl; lia]).
    eapply wp_mono; [apply (IH (S n - length b) (acc ++ b) f' d (p + length b) Hat'); lia|..]; cbn beta.
    + intros b' f'' (-> & Hlen & Hat''). replace (p + length b + (S n - length b)) with (p + S n) in * by lia.
      split_and!; [|rewrite Hlen, length_app; lia|done]. rewrite <-app_assoc. f_equal. rewrite Hb at 1.
      rewrite <-drop_drop, take_take_drop. f_equal. lia.
    + intros e f'' [[? ?]|?]; [left|by right]. split; [done|lia].
  - intros e f' He.
    assert (Hs : ∀ e', e' = EOF ∨ e' = UnexpectedEOF → length d ≤ p → short e' d p (S n)) by (intros; split; [done|lia]).
    destruct He as [[-> Hle]|He].
    + case_bool_decide; simpl; [|done]. destruct (bool_decide (acc ≠ [])); wp_step; left; auto.
    + destruct (bool_decide (e = EOF)) eqn:HE; simpl; [|wp_step; right; by left].
      apply bool_decide_eq_true in HE as ->.
      destruct (bool_decide (acc ≠ [])); wp_step; right; [by right|by left].
Qed.

(** ** Opening and uploading *)

Definition short_name (c : Client) (name : bytes) : Prop :=
  (Z.of_nat (length name) < 2 ^ 16)%Z ∧ (Z.of_nat (length name) + 32 ≤ maxMessageSize c)%Z.

Lemma set_fids_ok x c : client_ok c → client_ok (set_fids x c).
Proof. by intros []. Qed.
Lemma set_pids_ok x c : client_ok c → client_ok (set_pids x c).
Proof. by intros []. Qed.

(** Numbers in use from one up are no more than there are numbers in use. *)
Lemma first_free (X : gset Z) k : (1 ≤ k)%Z → (∀ i, (1 ≤ i < k)%Z → i ∈ X) → (k ≤ Z.of_nat (size X) + 1)%Z.
Proof.
  intros Hk Hin. assert (Hsub : list_to_set (seqZ 1 (k - 1)) ⊆ X).
  { intros i Hi. apply elem_of_list_to_set, elem_of_seqZ in Hi. apply Hin. lia. }
  apply subseteq_size in Hsub. rewrite size_list_to_set in Hsub by apply NoDup_seqZ.
  rewrite length_seqZ in Hsub. lia.
Qed.

Lemma find_fid_spec c fuel : ∀ k,
  fidCount c = 0%Z → (Z.of_nat (size (fids c)) < 2 ^ 32 - 1)%Z →
  (1 ≤ k)%Z → (∀ i, (1 ≤ i < k)%Z → i ∈ fids c) → (Z.of_nat (size (fids c)) + 2 ≤ k + Z.of_nat fuel)%Z →
  wp (find_fid fuel k) (λ n c', n ∉ fids c ∧ small n ∧ c' = set_fids ({[n]} ∪ fids c) c) (λ _ _, False) c.
Proof.
  induction fuel as [|fuel IH]; intros k H0 Hsz Hk Hin Hf; pose proof (first_free (fids c) k Hk Hin) as Hk'; [lia|].
  cbn [find_fid]. wp_step. wp_step. rewrite bool_decide_eq_false_2 by lia. case_bool_decide as Hfree.
  - wp_steps. split_and!; [done|unfold small; lia|done].
  - destruct (decide (k = Z.of_nat (size (fids c)) + 1)%Z) as [Hlast|].
    { exfalso. assert (∀ i, (1 ≤ i < k + 1)%Z → i ∈ fids c) as Hin'.
      { intros i Hi. destruct (decide (i = k)) as [->|]; [done|]. apply Hin. lia. }
      pose proof (first_free (fids c) (k + 1) ltac:(lia) Hin'). lia. }
    rewrite wrap_small by lia. apply IH; [done|done|lia| |lia].
    intros i Hi. destruct (decide (i = k)) as [->|]; [done|]. apply Hin. lia.
Qed.

Lemma nextFid_spec c :
  fidCount c = 0%Z → (Z.of_nat (size (fids c)) < 2 ^ 32 - 1)%Z →
  wp nextFid (λ n c', n ∉ fids c ∧ small n ∧ c' = set_fids ({[n]} ∪ fids c) c) (λ _ _, False) c.
Proof.
  intros H0 Hsz. unfold nextFid. wp_step. wp_step. rewrite H0, wrap_small by lia.
  apply find_fid_spec; [done|done|lia|lia|lia].
Qed.

Lemma Open_spec c name :
  client_ok c → fidCount c = 0%Z → (Z.of_nat (size (fids c)) < 2 ^ 32 - 1)%Z → short_name c name →
  (∀ d, s_files (view_of_client c) !! name = Some d → (Z.of_nat (length d) < 2 ^ 63)%Z) →
  wp (Open handle conn_fault name)
    (λ n c', ∃ d, s_files (view_of_client c) !! name = Some d ∧ file_at (mkFile c' n 0) d 0)
    (λ e _, net_fails e) c.
Proof.
  intros Hc H0 Hsz [Hn16 Hnm] Hlen. unfold Open. wp_step. eapply wp_mono; [by apply nextFid_spec| |done]; cbn beta.
  intros n c1 (_ & Hsn & ->). set (c1 := set_fids _ c). assert (Hc1 : client_ok c1) by (by apply set_fids_ok).
  wp_step. wp_step. unfold client_TOpen.
  eapply wp_mono; [apply (rpc_spec c1 _ _ (λ _ s', ∃ d, s_files (view_of_client c) !! name = Some d ∧
    sv s' = mkSrv (s_files (view_of_client c)) (<[n := d]> (s_fids (view_of_client c))) (s_packs (view_of_client c))))|..];
    cbn beta.
  - done.
  - unfold small in Hsn. split; [repeat constructor; simpl; lia|].
    rewrite (co_buf _ Hc1). unfold message_size, enc_vals. simpl. len.
  - destruct (open_law (srv (conn c)) 1 n name) as [(msg & s' & Hh & _)|(d & s' & Hh & Hd & Hv)].
    + exists (RError 1 msg), s'. split_and!; [done|done|left; eauto].
    + exists (ROpen 1), s'. split_and!; [done|done|]. right. exists (). split; [done|]. by exists d.
  - intros _ c2 (x & -> & Hi & d & Hd & Hv). wp_step. exists d. split; [done|].
    split_and!; simpl; [by apply client_ok_conn|done| |done|lia|by apply Hlen].
    unfold view_of_client; simpl. rewrite Hv. simpl. apply lookup_insert_eq.
  - intros e c2 He. unfold freeFid. by wp_steps.
Qed.

(** ** Uploads *)

Lemma find_pid_spec c fuel : ∀ k,
  pidCount c = 0%Z → (Z.of_nat (size (dom (pids c))) < 2 ^ 32 - 1)%Z →
  (1 ≤ k)%Z → (∀ i, (1 ≤ i < k)%Z → i ∈ dom (pids c)) → (Z.of_nat (size (dom (pids c))) + 2 ≤ k + Z.of_nat fuel)%Z →
  wp (find_pid fuel k) (λ n c', pids c !! n = None ∧ small n ∧ c' = set_pids (<[n := None]> (pids c)) c) (λ _ _, False) c.
Proof.
  induction fuel as [|fuel IH]; intros k H0 Hsz Hk Hin Hf; pose proof (first_free (dom (pids c)) k Hk Hin) as Hk'; [lia|].
  cbn [find_pid]. wp_step. wp_step. rewrite bool_decide_eq_false_2 by lia. case_bool_decide as Hfree.
  - wp_steps. split_and!; [done|unfold small; lia|done].
  - assert (Hd : k ∈ dom (pids c)) by (by apply elem_of_dom, not_eq_None_Some).
    assert (Hin' : ∀ i, (1 ≤ i < k + 1)%Z → i ∈ dom (pids c)).
    { intros i Hi. destruct (decide (i = k)) as [->|]; [done|]. apply Hin. lia. }
    pose proof (first_free (dom (pids c)) (k + 1) ltac:(lia) Hin'). rewrite wrap_small by lia.
    apply IH; [done|done|lia|done|lia].
Qed.

(** Upload [pid] to [name] has received [d], or the server has given it up. *)
Record pack_at (p : Pack (Srv := Srv)) (F : gmap bytes bytes) (name d : bytes) : Prop := mkPackAt {
  pa_ok : client_ok (p_c p);
  pa_pid : small (pid p);
  pa_err : pids (p_c p) !! pid p = Some None;
  pa_files : s_files (view_of_client (p_c p)) = F;
  pa_data : s_packs (view_of_client (p_c p)) !! pid p = Some (name, d) ∨
            s_packs (view_of_client (p_c p)) !! pid p = None;
}.

(** The tables of numbers stay as they are. *)
Definition same_tables (c c' : Client) : Prop :=
  fidCount c' = fidCount c ∧ fids c' = fids c ∧ maxMessageSize c' = maxMessageSize c.

Lemma TWritePack_spec p F name d b :
  pack_at p F name d → (Z.of_nat (length b) + WRITEOVERHEAD ≤ maxMessageSize (p_c p))%Z →
  wp (on_pack (client_TWritePack handle conn_fault (pid p) b))
    (λ _ p', pack_at p' F name (d ++ b) ∧ pid p' = pid p ∧ same_tables (p_c p) (p_c p')) (λ e _, net_fails e) p.
Proof.
  intros [Hok Hp He Hf Hd] Hb. unfold on_pack. wp_step. unfold client_TWritePack.
  pose proof (co_max _ Hok) as Hmax. unfold attach_size, WRITEOVERHEAD, small in *.
  eapply wp_mono; [apply WriteMessage_spec; [by apply client_ok_buf|]|..]; cbn beta.
  - split; [repeat constructor; simpl; lia|]. rewrite (co_buf _ Hok). unfold message_size, enc_vals. simpl. len.
  - intros _ c' (x & out & -> & Hh & Hi). split; [|done].
    destruct (writepack_law (srv (conn (p_c p))) (pid p) b) as (s' & out' & Hh' & Hout & Hv).
    rewrite Hh in Hh'. injection Hh' as <- <-. unfold view_of_client in *.
    assert (Hok' : client_ok (set_conn x (p_c p))).
    { destruct Hok as [? ? ? Hin ? ?]. split; simpl; try done. rewrite Hi. apply Forall_app. split; [done|].
      destruct Hout as [->|[msg ->]]; [constructor|]. constructor; [by eexists _, _|constructor]. }
    split; unfold view_of_client; simpl; try done.
    + by destruct Hv as [->|(nm & acc & _ & ->)].
    + destruct Hv as [->|(nm & acc & Hacc & ->)]; simpl; [right; apply lookup_delete_eq|].
      left. rewrite lookup_insert_eq. destruct Hd as [Hd|Hd]; congruence.
  - done.
Qed.

(** A chunk with its overhead fits a message, and each round sends some bytes. *)
Lemma send_chunks_spec maxn buf : ∀ fuel p F name d,
  pack_at p F name d → maxn = (maxMessageSize (p_c p) - WRITEOVERHEAD)%Z →
  (Z.of_nat (length buf) < 2 ^ 32)%Z → length buf ≤ fuel →
  wp (send_chunks handle conn_fault fuel maxn buf)
    (λ _ p', pack_at p' F name (d ++ buf) ∧ pid p' = pid p ∧ same_tables (p_c p) (p_c p')) (λ e _, net_fails e) p.
Proof.
  intros fuel. revert buf. induction fuel as [|fuel IH]; intros buf p F name d Hp Hmaxn Hb Hf;
    (destruct buf as [|b0 buf0]; [simpl; wp_step; by rewrite app_nil_r|]); [simpl in Hf; lia|].
  set (buf := b0 :: buf0) in *. cbn [send_chunks]. fold buf.
  pose proof (co_max _ (pa_ok _ _ _ _ Hp)) as Hmax. unfold attach_size, WRITEOVERHEAD in *.
  assert (Hlen : 0 < length buf) by (simpl; lia).
  rewrite wrap_small by lia. set (n := if bool_decide _ then _ else maxn).
  assert (Hn : (0 < n ≤ maxn)%Z ∧ (n ≤ Z.of_nat (length buf))%Z) by (unfold n; case_bool_decide; lia).
  change (match buf with [] => mret () | _ :: _ => ?x end) with x.
  wp_step. wp_step. wp_step. eapply wp_mono; [apply (TWritePack_spec p F name d); [done|]|..]; cbn beta; [|..|done].
  - rewrite length_take. unfold WRITEOVERHEAD. lia.
  - intros _ p1 (Hp1 & Hpid & Hfc & Hfi & Hm).
    eapply wp_mono; [apply (IH (drop (Z.to_nat n) buf) p1 F name _ Hp1)|..]; cbn beta; [| | | |done].
    + by rewrite Hm.
    + rewrite length_drop. lia.
    + rewrite length_drop. lia.
    + intros _ p2 (Hp2 & Hpid2 & Hfc2 & Hfi2 & Hm2). rewrite <-app_assoc, take_drop in Hp2.
      split_and!; [done|congruence|]. unfold same_tables. split_and!; congruence.
Qed.

Lemma pack_Write_spec p F name d b :
  pack_at p F name d → (Z.of_nat (length b) < 2 ^ 32)%Z →
  wp (pack_Write handle conn_fault b)
    (λ _ p', pack_at p' F name (d ++ b) ∧ pid p' = pid p ∧ same_tables (p_c p) (p_c p')) (λ e _, net_fails e) p.
Proof.
  intros Hp Hb. pose proof (co_max _ (pa_ok _ _ _ _ Hp)) as Hmax. unfold attach_size in Hmax.
  unfold pack_Write, on_pack, checkPidError, getMaxMessageSize. wp_steps. rewrite (pa_err _ _ _ _ Hp). wp_steps. simpl.
  rewrite wrap_small by (unfold WRITEOVERHEAD; lia). destruct p as [c n]. by apply send_chunks_spec.
Qed.

Lemma rpack_Close_spec p F name d :
  pack_at p F name d →
  wp (pack_Close handle conn_fault)
    (λ _ p', client_ok (p_c p') ∧ s_files (view_of_client (p_c p')) = <[name := d]> F ∧ same_tables (p_c p) (p_c p'))
    (λ e _, net_fails e) p.
Proof.
  intros [Hok Hp He Hf Hd]. unfold pack_Close, on_pack, freePid. wp_steps. simpl. set (c1 := set_pids _ (p_c p)).
  assert (Hc1 : client_ok c1) by (by apply set_pids_ok). unfold client_TClosePack.
  eapply wp_mono; [apply (rpc_spec c1 _ _ (λ _ s', s_files (sv s') = <[name := d]> F))|..]; cbn beta; [done|..|done].
  - unfold small in Hp. split; [repeat constructor; simpl; lia|]. apply fits_64; [done|]. unfold message_size, enc_vals. simpl. len.
  - destruct (closepack_law (srv (conn (p_c p))) 1 (pid p)) as [(msg & s' & Hh)|(nm & d' & s' & Hh & Hd' & Hv)].
    + exists (RError 1 msg), s'. split_and!; [done|done|left; eauto].
    + exists (RClosePack 1), s'. split_and!; [done|done|]. right. exists (). split; [done|]. rewrite Hv. simpl.
      unfold view_of_client in Hd, Hf. rewrite Hf. destruct Hd as [Hd|Hd]; congruence.
  - intros _ c2 (x & -> & Hi & Hv). split_and!; [by apply client_ok_conn|exact Hv|done].
Qed.

Lemma NewPack_spec c name :
  client_ok c → pidCount c = 0%Z → (Z.of_nat (size (dom (pids c))) < 2 ^ 32 - 1)%Z → short_name c name →
  wp (NewPack handle conn_fault name)
    (λ n c', pack_at (mkPack c' n) (s_files (view_of_client c)) name [] ∧ same_tables c c') (λ e _, net_fails e) c.
Proof.
  intros Hc H0 Hsz [Hn16 Hnm]. unfold NewPack, nextPid. wp_step. wp_step. wp_step.
  eapply wp_mono; [apply (find_pid_spec c); [done|done|..]| |done]; cbn beta; rewrite ?H0, ?wrap_small by lia.
  1-3: rewrite <-?size_dom; lia.
  intros n c1 (_ & Hn & ->). set (c1 := set_pids _ c). assert (Hc1 : client_ok c1) by (by apply set_pids_ok).
  wp_step. eapply wp_mono; [by apply newCall_spec| |done]; cbn beta. intros mid c2 [-> ->]. wp_step. wp_step.
  assert (Hs : sendable c1 (TNewPack 1 n name)).
  { unfold small in Hn. split; [repeat constructor; simpl; lia|]. rewrite (co_buf _ Hc1).
    unfold message_size, enc_vals. simpl. len. }
  assert (Hcall : ∃ r s', handle (srv (conn c)) (TNewPack 1 n name) = (s', [r]) ∧ GetMessageId r = 1%Z ∧
    ((∃ msg, r = RError 1 msg) ∨ r = RNewPack 1 ∧
      sv s' = mkSrv (s_files (view_of_client c)) (s_fids (view_of_client c)) (<[n := (name, [])]> (s_packs (view_of_client c))))).
  { destruct (newpack_law (srv (conn c)) 1 n name) as [(msg & s' & Hh & _)|(s' & Hh & Hv)].
    - exists (RError 1 msg), s'. split_and!; [done|done|left; eauto].
    - exists (RNewPack 1), s'. split_and!; [done|done|by right]. }
  destruct Hcall as (r & s' & Hh & Hid & Hr).
  eapply wp_mono; [by apply (client_Call_spec c1 (TNewPack 1 n name) r s')|..]; cbn beta.
  - intros resp c3 (-> & Hne & x & -> & Hs' & Hi). destruct Hr as [[msg ->]|[-> Hv]]; [by destruct (Hne 1%Z msg)|].
    wp_step. split; [|done]. split; unfold view_of_client; simpl; rewrite ?Hs', ?Hv; simpl; try done.
    + by apply client_ok_conn.
    + apply lookup_insert_eq.
    + left. apply lookup_insert_eq.
  - intros e c3 He. unfold freePid. by wp_steps.
Qed.

(** ** Uploading and reading back *)

(** Use a handle on the client's connection. *)
Definition with_pack {A} (n : Z) (m : M (Pack (Srv := Srv)) A) : M Client A := zoom (λ c, mkPack c n) (λ p _, p_c p) m.
Definition with_rfile {A} (n : Z) (m : M (File (Srv := Srv)) A) : M Client A := zoom (λ c, mkFile c n 0) (λ f _, f_c f) m.

Fixpoint write_all (chunks : list bytes) : M (Pack (Srv := Srv)) unit :=
  match chunks with
  | [] => mret ()
  | b :: chunks => pack_Write handle conn_fault b;; write_all chunks
  end.

Lemma write_all_spec chunks : ∀ p F name d,
  pack_at p F name d → Forall (λ b : bytes, Z.of_nat (length b) < 2 ^ 32)%Z chunks →
  wp (write_all chunks)
    (λ _ p', pack_at p' F name (d ++ concat chunks) ∧ same_tables (p_c p) (p_c p')) (λ e _, net_fails e) p.
Proof.
  induction chunks as [|b chunks IH]; intros p F name d Hp Hl; cbn [write_all].
  { wp_step. by rewrite app_nil_r. }
  apply Forall_cons in Hl as [Hb Hl]. wp_step. eapply wp_mono; [by apply pack_Write_spec| |done]; cbn beta.
  intros _ p1 (Hp1 & _ & T1). eapply wp_mono; [by apply IH| |done]; cbn beta. intros _ p2 [Hp2 T2].
  rewrite <-app_assoc in Hp2. split; [done|]. unfold same_tables in *. naive_solver congruence.
Qed.

(** What is written to a pack is in the server's file once [Close] succeeded. *)
Lemma upload_spec c name chunks :
  client_ok c → pidCount c = 0%Z → (Z.of_nat (size (dom (pids c))) < 2 ^ 32 - 1)%Z → short_name c name →
  Forall (λ b : bytes, Z.of_nat (length b) < 2 ^ 32)%Z chunks →
  wp (n ← NewPack handle conn_fault name; with_pack n (write_all chunks;; pack_Close handle conn_fault))
    (λ _ c', client_ok c' ∧ s_files (view_of_client c') = <[name := concat chunks]> (s_files (view_of_client c)) ∧
             same_tables c c')
    (λ e _, net_fails e) c.
Proof.
  intros Hc H0 Hsz Hnm Hl. wp_step. eapply wp_mono; [by apply NewPack_spec| |done]; cbn beta.
  intros n c1 [Hp T1]. unfold with_pack. wp_step. wp_step. eapply wp_mono; [by apply write_all_spec| |done]; cbn beta.
  intros _ p2 [Hp2 T2]. eapply wp_mono; [by apply rpack_Close_spec| |done]; cbn beta.
  intros _ p3 (Hok & Hf & T3). split_and!; [done|done|]. simpl in *. unfold same_tables in *. naive_solver congruence.
Qed.

(** C12: A file uploaded in any chunks through a pack and closed is there under its
    name, no other file has changed, and reading it through a file handle gives
    what was written; every error is one of the server or of the connection. *)
Theorem client_upload_roundtrip c name chunks n :
  client_ok c → pidCount c = 0%Z → (Z.of_nat (size (dom (pids c))) < 2 ^ 32 - 1)%Z →
  fidCount c = 0%Z → (Z.of_nat (size (fids c)) < 2 ^ 32 - 1)%Z → short_name c name →
  Forall (λ b : bytes, Z.of_nat (length b) < 2 ^ 32)%Z chunks → (Z.of_nat n < 2 ^ 32)%Z →
  (Z.of_nat (length (concat chunks)) < 2 ^ 63)%Z →
  wp (p ← NewPack handle conn_fault name; with_pack p (write_all chunks;; pack_Close handle conn_fault))
    (λ _ c', s_files (view_of_client c') = <[name := concat chunks]> (s_files (view_of_client c)) ∧
       wp (f ← Open handle conn_fault name; with_rfile f (ReadFull (S := File (Srv := Srv)) n))
         (λ b _, b = take n (concat chunks) ∧ length b = n)
         (λ e _, short e (concat chunks) 0 n ∨ read_fails e) c')
    (λ e _, net_fails e) c.
Proof.
  intros Hc Hp Hps Hfc Hfs Hnm Hl Hn Hlen. eapply wp_mono; [by apply upload_spec| |done]; cbn beta.
  intros _ c1 (Hok & Hf & Tc & Tf & Tm). split; [done|]. wp_step.
  assert (Hd : s_files (view_of_client c1) !! name = Some (concat chunks)) by (rewrite Hf; apply lookup_insert_eq).
  eapply wp_mono; [apply (Open_spec c1 name)|..]; cbn beta; rewrite ?Tc, ?Tf; [done|done|done| | | |].
  - unfold short_name. by rewrite Tm.
  - intros d Hd'. congruence.
  - intros f c2 (d & Hd' & Hat). rewrite Hd in Hd'. injection Hd' as <-. unfold with_rfile. wp_step.
    unfold ReadFull. eapply wp_mono; [by apply file_ReadFull_from| |done]; cbn beta.
    intros b f' (-> & Hlb & _). done.
  - intros e c2 He. right. by left.
Qed.
End Server.
End Calls.

(** ** A server in memory *)
Module ClientDemo.

Definition mem_handle (s : srv_view) (m : Message) : srv_view * list Message :=
  let '(mkSrv files open packs) := s in
  let refuse msg := (s, [RError (GetMessageId m) (str msg)]) in
  match m with
  | TOpen mid fid name =>
    match files !! name with
    | Some d => (mkSrv files (<[fid := d]> open) packs, [ROpen mid])
    | None => refuse "no such file"
    end
  | TReadAt mid fid off n =>
    match open !! fid with
    | Some d => (s, [RReadAt mid (take (Z.to_nat n) (drop (Z.to_nat off) d))])
    | None => refuse "bad fid"
    end
  | TNewPack mid pid name => (mkSrv files open (<[pid := (name, [])]> packs), [RNewPack mid])
  | TWritePack pid data =>
    match packs !! pid with
    | Some (name, acc) => (mkSrv files open (<[pid := (name, acc ++ data)]> packs), [])
    | None => (s, [RPackError pid (str "bad pid")])
    end
  | TClosePack mid pid =>
    match packs !! pid with
    | Some (name, d) => (mkSrv (<[name := d]> files) open (delete pid packs), [RClosePack mid])
    | None => refuse "bad pid"
    end
  | _ => refuse "unsupported"
  end.

#[local] Instance mem_server_laws : ServerLaws mem_handle.
Proof.
  refine {| sv := id |}; unfold id.
  - intros [files open packs] mid fid name. simpl. destruct (files !! name) as [d|]; [right; by eexists _, _|left].
    by eexists _, _.
  - intros [files open packs] mid fid off n d Hf Hn. simpl in *. rewrite Hf. right. eexists _, _.
    split_and!; [done|done|..]; rewrite ?Nat2Z.id.
    + rewrite length_take. destruct (decide (Z.to_nat n ≤ length (drop off d))).
      * by rewrite Nat.min_l by lia.
      * rewrite Nat.min_r, !take_ge by lia. done.
    + rewrite length_take. lia.
    + intros H%(f_equal length). rewrite length_take, length_drop in H. simpl in H. lia.
  - intros [files open packs] mid pid name. right. by eexists.
  - intros [files open packs] pid data. simpl. destruct (packs !! pid) as [[name acc]|] eqn:E; eexists _, _; (split; [done|]).
    + split; [by left|]. right. by eexists _, _.
    + split; [right; by eexists|]. left. by rewrite delete_id.
  - intros [files open packs] mid pid. simpl. destruct (packs !! pid) as [[name d]|] eqn:E.
    + right. by eexists _, _, _.
    + left. by eexists _, _.
Defined.

Definition c0 : Client (Srv := srv_view) :=
  mkClient (mkConn (mkSrv ∅ ∅ ∅) [] 0 false) 64 64 0 false ∅ 0 ∅ 0 ∅.
Definition no_fault : bool → nat → option error := λ _ _, None.
Definition chunks0 : list bytes := [str "first"; replicate 60 Byte.x2a].

Lemma c0_ok : client_ok c0 ∧ short_name c0 (str "f") ∧
  Forall (λ b : bytes, Z.of_nat (length b) < 2 ^ 32)%Z chunks0 ∧ (Z.of_nat (length (concat chunks0)) < 2 ^ 63)%Z.
Proof.
  split_and!; [split; [done|done|done|constructor|done|by vm_compute]|split; by vm_compute|repeat constructor; by vm_compute|by vm_compute].
Qed.

Lemma client_upload_roundtrip_witness :
  wp (p ← NewPack mem_handle no_fault (str "f");
      with_pack p (write_all mem_handle no_fault chunks0;; pack_Close mem_handle no_fault))
    (λ _ c', s_files (view_of_client mem_handle c') = <[ str "f" := concat chunks0 ]> ∅ ∧
       wp (f ← Open mem_handle no_fault (str "f");
           with_rfile f (ReadFull (H := rsc_reader (ReadSeekCloser := file_rsc mem_handle no_fault)) 65))
         (λ b _, b = take 65 (concat chunks0) ∧ length b = 65)
         (λ e _, short e (concat chunks0) 0 65 ∨ read_fails no_fault e) c')
    (λ e _, net_fails no_fault e) c0.
Proof.
  destruct c0_ok as (Hc & Hn & Hl & Hlen).
  exact (client_upload_roundtrip mem_handle no_fault c0 (str "f") chunks0 65 Hc eq_refl eq_refl eq_refl eq_refl Hn Hl eq_refl Hlen).
Defined.

(** Nothing fails in that run. *)
Example upload_runs :
  match (p ← NewPack mem_handle no_fault (str "f");
         with_pack p (write_all mem_handle no_fault chunks0;; pack_Close mem_handle no_fault)) c0 with
  | (Ok _, c') => bool_decide (s_files (srv (conn c')) !! str "f" = Some (concat chunks0))
  | _ => false
  end = true.
Proof. by vm_compute. Qed.
End ClientDemo.
