(* ===== verification/ClientConc.v ===== *)
(** Concurrent calls of the remote client: [newCall], [Call], [Close] and the goroutine
    [readMessages] of remote/client/client.go, one step per statement that another
    goroutine can see.

    [midLock] protects the table of calls, and [readMessages] keeps it while it hands a
    reply to a call: an unbuffered send, which waits for the other side.  The
    rest of the requests (Client.v) is on top of this. *)

From Stdlib Require Import ZArith Lia Permutation.
From stdpp Require Import base list gmap sets relations.
From S2P Require Import Prelude Proto Client ClientProps.

Set Default Goal Selector "!".

(** What a call comes back with. *)
Inductive result : Type :=
  | Got (r : Message)   (* a message from its channel *)
  | Lost                (* the channel was closed *)
  | WriteErr.           (* the request was not sent *)

(** A goroutine that makes one call. *)
Inductive Caller : Type :=
  | CStart                                (* before [newCall] *)
  | CRefused                              (* [newCall] found the client closed *)
  | CSpinning                             (* in the loop of [newCall], all numbers in use *)
  | CWriting (mid : Z)                    (* in [WriteMessage] *)
  | CWaiting (mid : Z)                    (* at [<-ch] *)
  | CDeleting (mid : Z) (o : result)      (* in the deferred function *)
  | CDone (mid : Z) (o : result).

(** The goroutine [readMessages]. *)
Inductive Reader : Type :=
  | RIdle                                 (* in [ReadMessage] *)
  | RGot (m : Message)
  | RSending (m : Message) (k : nat)      (* at [ch <- m], with [midLock] *)
  | RClosing                              (* out of the loop, before [Close] *)
  | RDone
  | RPanic.                               (* sent on a closed channel *)

(** The channel of a call is named by its goroutine. *)
Record Cfg := mkCfg {
  callers : list Caller;
  table : gmap Z nat;                     (* [c.calls] *)
  midLock : bool;
  c_closed : bool;
  closed_chans : gset nat;
  reader : Reader;
  pending : list Z;                       (* requests the server has not answered *)
  arrived : list Message;                 (* sent by the server and not read *)
  notices : nat;                          (* messages without number the server may still send *)
}.

(** The number [newCall] stops at: the first one that is free. *)
Definition first_free_mid (X : gset Z) (mid : Z) : Prop :=
  (1 ≤ mid < 2 ^ 16)%Z ∧ mid ∉ X ∧ ∀ i, (1 ≤ i < mid)%Z → i ∈ X.
Definition all_in_use (X : gset Z) : Prop := ∀ i, (1 ≤ i < 2 ^ 16)%Z → i ∈ X.

(** Messages that go on to the table: [continue] skips the others. *)
Definition looks_up (m : Message) : bool :=
  bool_decide (GetMessageId m ≠ NOMID) || match m with RPackError _ _ => true | _ => false end.

(** [close(ch)] for every channel of the table. *)
Definition close_all (tbl : gmap Z nat) (cc : gset nat) : gset nat := list_to_set (snd <$> map_to_list tbl) ∪ cc.

(** The surroundings: does the server answer each request once, does the connection
    break, does someone else call [Close]? *)
Record Env := mkEnv { polite : bool; faulty : bool; may_close : bool }.

Section Steps.
Variable env : Env.

Inductive act : Cfg → Cfg → Prop :=
  | s_refuse cs tbl cc rd pd ar n k :
      cs !! k = Some CStart →
      act (mkCfg cs tbl false true cc rd pd ar n) (mkCfg (<[k := CRefused]> cs) tbl false true cc rd pd ar n)
  | s_new cs tbl cc rd pd ar n k mid :
      cs !! k = Some CStart → first_free_mid (dom tbl) mid →
      act (mkCfg cs tbl false false cc rd pd ar n)
          (mkCfg (<[k := CWriting mid]> cs) (<[mid := k]> tbl) false false cc rd pd ar n)
  | s_spin cs tbl cc rd pd ar n k :
      cs !! k = Some CStart → all_in_use (dom tbl) →
      act (mkCfg cs tbl false false cc rd pd ar n) (mkCfg (<[k := CSpinning]> cs) tbl true false cc rd pd ar n)
  | s_write cs tbl lk cl cc rd pd ar n k mid :
      cs !! k = Some (CWriting mid) →
      act (mkCfg cs tbl lk cl cc rd pd ar n) (mkCfg (<[k := CWaiting mid]> cs) tbl lk cl cc rd (pd ++ [mid]) ar n)
  | s_write_err cs tbl lk cl cc rd pd ar n k mid :
      cs !! k = Some (CWriting mid) → faulty env || cl = true →
      act (mkCfg cs tbl lk cl cc rd pd ar n) (mkCfg (<[k := CDeleting mid WriteErr]> cs) tbl lk cl cc rd pd ar n)
  | s_lost cs tbl lk cl cc rd pd ar n k mid :
      cs !! k = Some (CWaiting mid) → k ∈ cc →
      act (mkCfg cs tbl lk cl cc rd pd ar n) (mkCfg (<[k := CDeleting mid Lost]> cs) tbl lk cl cc rd pd ar n)
  | s_delete cs tbl cl cc rd pd ar n k mid o :
      cs !! k = Some (CDeleting mid o) →
      act (mkCfg cs tbl false cl cc rd pd ar n) (mkCfg (<[k := CDone mid o]> cs) (delete mid tbl) false cl cc rd pd ar n)
  | s_reply cs tbl lk cl cc rd l1 l2 ar n r :
      act (mkCfg cs tbl lk cl cc rd (l1 ++ GetMessageId r :: l2) ar n) (mkCfg cs tbl lk cl cc rd (l1 ++ l2) (ar ++ [r]) n)
  | s_notice cs tbl lk cl cc rd pd ar n r :
      GetMessageId r = NOMID →
      act (mkCfg cs tbl lk cl cc rd pd ar (S n)) (mkCfg cs tbl lk cl cc rd pd (ar ++ [r]) n)
  | s_rude cs tbl lk cl cc rd pd ar n r :
      polite env = false →
      act (mkCfg cs tbl lk cl cc rd pd ar n) (mkCfg cs tbl lk cl cc rd pd (ar ++ [r]) n)
  | s_read cs tbl lk cl cc pd r ar n :
      act (mkCfg cs tbl lk cl cc RIdle pd (r :: ar) n) (mkCfg cs tbl lk cl cc (RGot r) pd ar n)
  | s_read_err cs tbl lk cl cc pd ar n :
      faulty env || cl = true →
      act (mkCfg cs tbl lk cl cc RIdle pd ar n) (mkCfg cs tbl lk cl cc RClosing pd ar n)
  | s_skip cs tbl lk cl cc r pd ar n :
      looks_up r = false →
      act (mkCfg cs tbl lk cl cc (RGot r) pd ar n) (mkCfg cs tbl lk cl cc RIdle pd ar n)
  | s_unknown cs tbl cl cc r pd ar n :
      looks_up r = true → tbl !! GetMessageId r = None →
      act (mkCfg cs tbl false cl cc (RGot r) pd ar n) (mkCfg cs tbl false cl cc RIdle pd ar n)
  | s_found cs tbl cl cc r k pd ar n :
      looks_up r = true → tbl !! GetMessageId r = Some k →
      act (mkCfg cs tbl false cl cc (RGot r) pd ar n) (mkCfg cs tbl true cl cc (RSending r k) pd ar n)
  | s_send cs tbl lk cl cc r k mid pd ar n :
      k ∉ cc → cs !! k = Some (CWaiting mid) →
      act (mkCfg cs tbl lk cl cc (RSending r k) pd ar n)
          (mkCfg (<[k := CDeleting mid (Got r)]> cs) tbl false cl cc RIdle pd ar n)
  | s_panic cs tbl lk cl cc r k pd ar n :
      k ∈ cc →
      act (mkCfg cs tbl lk cl cc (RSending r k) pd ar n) (mkCfg cs tbl lk cl cc RPanic pd ar n)
  | s_reader_close cs tbl cl cc pd ar n :
      act (mkCfg cs tbl false cl cc RClosing pd ar n)
          (mkCfg cs tbl false true (if cl then cc else close_all tbl cc) RDone pd ar n)
  | s_close cs tbl cc rd pd ar n :
      may_close env = true →
      act (mkCfg cs tbl false false cc rd pd ar n) (mkCfg cs tbl false true (close_all tbl cc) rd pd ar n).

(** A panic ends every goroutine. *)
Definition step (c c' : Cfg) : Prop := reader c ≠ RPanic ∧ act c c'.
End Steps.

(** [ncalls] calls to make, no more than [nnotices] notices from the server. *)
Definition init (ncalls nnotices : nat) : Cfg :=
  mkCfg (replicate ncalls CStart) ∅ false false ∅ RIdle [] [] nnotices.

Definition in_flight (c : Caller) : option Z :=
  match c with CWriting m | CWaiting m | CDeleting m _ => Some m | _ => None end.
Definition returned (c : Caller) : bool :=
  match c with CRefused | CDone _ _ => true | _ => false end.

(** The message a call comes back with carries its number. *)
Definition own_reply (c : Caller) : Prop :=
  match c with CDeleting m (Got r) | CDone m (Got r) => GetMessageId r = m | _ => True end.

(** ** The table of calls *)

Definition table_ok (cs : list Caller) (tbl : gmap Z nat) : Prop :=
  ∀ m k, tbl !! m = Some k ↔ ∃ c, cs !! k = Some c ∧ in_flight c = Some m.

Lemma table_ok_same cs tbl k a b :
  table_ok cs tbl → cs !! k = Some a → in_flight a = in_flight b → table_ok (<[k := b]> cs) tbl.
Proof.
  unfold table_ok. intros Ht Ha Hab m j. rewrite Ht. destruct (decide (j = k)) as [->|Hne]; [|by rewrite list_lookup_insert_ne].
  rewrite list_lookup_insert_eq by (by eapply lookup_lt_Some). naive_solver congruence.
Qed.

Lemma table_ok_new cs tbl k a b m :
  table_ok cs tbl → cs !! k = Some a → in_flight a = None → in_flight b = Some m → tbl !! m = None →
  table_ok (<[k := b]> cs) (<[m := k]> tbl).
Proof.
  unfold table_ok. intros Ht Ha Hfa Hfb Hm m' j. rewrite lookup_insert_Some, Ht.
  destruct (decide (j = k)) as [->|Hne].
  - rewrite list_lookup_insert_eq by (by eapply lookup_lt_Some). naive_solver congruence.
  - rewrite list_lookup_insert_ne by done. split; [naive_solver|].
    intros (c & Hc & Hf). right. split; [|eauto]. intros ->. assert (tbl !! m' = Some j) by (apply Ht; eauto). congruence.
Qed.

Lemma table_ok_delete cs tbl k a b m :
  table_ok cs tbl → cs !! k = Some a → in_flight a = Some m → in_flight b = None →
  table_ok (<[k := b]> cs) (delete m tbl).
Proof.
  unfold table_ok. intros Ht Ha Hfa Hfb m' j. assert (Hk : tbl !! m = Some k) by (apply Ht; eauto).
  rewrite lookup_delete_Some, Ht. destruct (decide (j = k)) as [->|Hne].
  - rewrite list_lookup_insert_eq by (by eapply lookup_lt_Some). naive_solver congruence.
  - rewrite list_lookup_insert_ne by done. split; [naive_solver|].
    intros (c & Hc & Hf). split; [|eauto]. intros <-. assert (tbl !! m = Some j) by (apply Ht; eauto). congruence.
Qed.

(** What every server leaves true. *)
Record inv (c : Cfg) : Prop := mkInv {
  i_table : table_ok (callers c) (table c);
  i_range : ∀ m, m ∈ dom (table c) → (1 ≤ m < 2 ^ 16)%Z;
  i_send : ∀ r k, reader c = RSending r k → midLock c = true ∧ table c !! GetMessageId r = Some k;
  i_own : Forall own_reply (callers c);
}.

#[local] Hint Resolve Forall_insert : core.

Lemma inv_init n m : inv (init n m).
Proof.
  split; simpl; [|set_solver|done|by apply Forall_replicate].
  intros i k. rewrite lookup_empty. split; [done|]. intros (c & Hc & Hf). apply lookup_replicate in Hc as [-> _]. done.
Qed.

Lemma inv_act env c c' : act env c c' → inv c → inv c'.
Proof.
  intros Hact [Ht Hr Hs Ho]. destruct Hact; simpl in *; split; simpl; try done.
  all: try (by eapply table_ok_same); try (apply Forall_insert; done).
  - eapply table_ok_new; try done. destruct H0 as (_ & Hn & _). by apply not_elem_of_dom.
  - intros m Hm. rewrite dom_insert in Hm. apply elem_of_union in Hm as [Hm%elem_of_singleton|?]; [|auto].
    destruct H0 as (? & _). by subst.
  - intros r j Hrd. by destruct (Hs r j Hrd).
  - intros r j Hrd. by destruct (Hs r j Hrd).
  - by eapply table_ok_delete.
  - intros m. rewrite dom_delete. set_solver.
  - intros r j Hrd. by destruct (Hs r j Hrd).
  - apply Forall_insert; [done|]. by apply (Forall_lookup_1 _ _ _ _ Ho) in H.
  - intros r' j [= <- <-]. done.
  - apply Forall_insert; [done|]. simpl. destruct (Hs r k eq_refl) as [_ Hk].
    apply Ht in Hk as (c & Hc & Hf). naive_solver.
Qed.

Lemma inv_reachable env n m c : rtc (step env) (init n m) c → inv c.
Proof.
  revert c. apply rtc_ind_r; [apply inv_init|]. intros c c' _ [_ Hact]. by eapply inv_act.
Qed.

(** ** Servers that answer each request once *)

Definition waits_for (c : Caller) : list Z := match c with CWaiting m => [m] | _ => [] end.
Definition waiting (cs : list Caller) : list Z := cs ≫= waits_for.

(** Answers on their way. *)
Definition reader_has (rd : Reader) : list Z :=
  match rd with RGot r | RSending r _ => [GetMessageId r] | _ => [] end.
Definition on_the_way (pd : list Z) (ar : list Message) (rd : Reader) : list Z :=
  filter (.≠ NOMID) (pd ++ (GetMessageId <$> ar) ++ reader_has rd).

Lemma bind_insert {A B} (f : A → list B) cs k a b :
  cs !! k = Some a → (<[k := b]> cs ≫= f) ++ f a ≡ₚ (cs ≫= f) ++ f b.
Proof.
  revert k. induction cs as [|x cs IH]; intros [|k] Hk; simplify_eq/=; [solve_Permutation|].
  rewrite <-!app_assoc. by apply Permutation_app_head, IH.
Qed.

Lemma waiting_skip cs k a b :
  cs !! k = Some a → waits_for a = [] → waits_for b = [] → waiting (<[k := b]> cs) ≡ₚ waiting cs.
Proof. intros Hk Ha Hb. pose proof (bind_insert waits_for cs k a b Hk) as H. by rewrite Ha, Hb, !app_nil_r in H. Qed.

Lemma elem_of_waiting cs m : m ∈ waiting cs ↔ ∃ k, cs !! k = Some (CWaiting m).
Proof.
  unfold waiting. rewrite list_elem_of_bind. split.
  - intros (c & Hm & Hc). apply list_elem_of_lookup in Hc as [k Hk]. exists k. destruct c; simpl in Hm; set_solver.
  - intros [k Hk]. exists (CWaiting m). split; [set_solver|]. by eapply list_elem_of_lookup_2.
Qed.

(** Not turned away. *)
Definition replied (x : Caller) : Prop :=
  match x with CDeleting _ o | CDone _ o => ∃ r, o = Got r | CRefused => False | _ => True end.

(** With a server that answers each request once and nobody else closing. *)
Record calm (env : Env) (ncalls : nat) (c : Cfg) : Prop := mkCalm {
  k_inv : inv c;
  k_len : length (callers c) = ncalls;
  k_panic : reader c ≠ RPanic;
  k_lock : midLock c = true → ∃ r k, reader c = RSending r k;
  k_spin : CSpinning ∉ callers c;
  k_open : c_closed c = false → closed_chans c = ∅ ∧ reader c ≠ RDone ∧
             on_the_way (pending c) (arrived c) (reader c) ≡ₚ waiting (callers c);
  k_closed : c_closed c = true → reader c = RDone ∧ ∀ m k, table c !! m = Some k → k ∈ closed_chans c;
  k_faultless : faulty env = false → c_closed c = false ∧ reader c ≠ RClosing ∧
    Forall replied (callers c);
}.

Lemma length_omap_le {A B} (f : A → option B) l : length (omap f l) ≤ length l.
Proof. induction l as [|x l IH]; csimpl; [done|]. destruct (f x); csimpl; lia. Qed.

Lemma size_list_le (l : list Z) : size (list_to_set l : gset Z) ≤ length l.
Proof.
  induction l as [|x l IH]; [done|]. rewrite list_to_set_cons, size_union_alt, size_singleton.
  assert (size (list_to_set l ∖ {[x]} : gset Z) ≤ size (list_to_set l : gset Z)) by (apply subseteq_size; set_solver).
  simpl. lia.
Qed.

Lemma length_omap_lt {A B} (f : A → option B) l k a :
  l !! k = Some a → f a = None → length (omap f l) < length l.
Proof.
  revert k. induction l as [|x l IH]; intros [|k] Hk Ha; csimpl in *; simplify_eq.
  - rewrite Ha. pose proof (length_omap_le f l). lia.
  - pose proof (IH k Hk Ha). destruct (f x); csimpl; lia.
Qed.

(** All numbers in use takes as many calls. *)
Lemma all_in_use_callers cs tbl k :
  table_ok cs tbl → cs !! k = Some CStart → all_in_use (dom tbl) → (2 ^ 16 ≤ Z.of_nat (length cs))%Z.
Proof.
  intros Ht Hk Hall. pose proof (first_free (dom tbl) (2 ^ 16) ltac:(lia) Hall) as Hsz.
  assert (Hsub : dom tbl ⊆ (list_to_set (omap in_flight cs) : gset Z)).
  { intros m [j Hj]%elem_of_dom. apply Ht in Hj as (c & Hc & Hf). apply elem_of_list_to_set, list_elem_of_omap.
    exists c. split; [by eapply list_elem_of_lookup_2|done]. }
  apply subseteq_size in Hsub. pose proof (size_list_le (omap in_flight cs)).
  pose proof (length_omap_lt in_flight cs k CStart Hk eq_refl). lia.
Qed.

Lemma first_free_or_full (X : gset Z) : (∃ mid, first_free_mid X mid) ∨ all_in_use X.
Proof.
  assert (H : ∀ n, (∃ mid, first_free_mid X mid) ∨ ∀ i, (1 ≤ i ≤ Z.of_nat n)%Z → (i < 2 ^ 16)%Z → i ∈ X).
  { induction n as [|n [IH|IH]]; [right; lia|by left|].
    destruct (decide (Z.of_nat (S n) < 2 ^ 16)%Z) as [Hn|]; [|right; intros i ? ?; apply IH; lia].
    destruct (decide (Z.of_nat (S n) ∈ X)) as [Hin|Hin].
    - right. intros i Hi Hi'. destruct (decide (i = Z.of_nat (S n))) as [->|]; [done|]. apply IH; lia.
    - left. exists (Z.of_nat (S n)). split_and!; [lia|done|done|]. intros i Hi. apply IH; lia. }
  destruct (H (Z.to_nat 65535)) as [?|Hall]; [by left|right]. intros i Hi. apply Hall; lia.
Qed.

Lemma Forall_waiting cs tbl m : table_ok cs tbl → m ∈ waiting cs → m ∈ dom tbl.
Proof. intros Ht [k Hk]%elem_of_waiting. apply elem_of_dom. exists k. apply Ht. by exists (CWaiting m). Qed.

Lemma on_the_way_reader pd ar r rd : reader_has rd = [GetMessageId r] → GetMessageId r ≠ NOMID → GetMessageId r ∈ on_the_way pd ar rd.
Proof. intros Hr Hne. unfold on_the_way. rewrite Hr. apply list_elem_of_filter. split; [done|set_solver]. Qed.

Lemma waiting_insert cs k a m :
  cs !! k = Some a → waits_for a = [] → waiting (<[k := CWaiting m]> cs) ≡ₚ m :: waiting cs.
Proof.
  intros Hk Ha. pose proof (bind_insert waits_for cs k a (CWaiting m) Hk) as H. rewrite Ha, app_nil_r in H.
  etrans; [exact H|]. simpl. symmetry. apply Permutation_cons_append.
Qed.

Lemma not_elem_of_insert {A} (x b : A) (l : list A) (k : nat) : x ∉ l → b ≠ x → x ∉ <[k := b]> l.
Proof.
  intros Hx Hb Hin. apply list_elem_of_lookup in Hin as [j Hj]. apply list_lookup_insert_Some in Hj as [(-> & -> & _)|[_ Hj]]; [done|].
  by eapply Hx, list_elem_of_lookup_2.
Qed.

(** Each way a message moves. *)
Lemma on_the_way_reply l1 l2 ar rd r :
  on_the_way (l1 ++ l2) (ar ++ [r]) rd ≡ₚ on_the_way (l1 ++ GetMessageId r :: l2) ar rd.
Proof. unfold on_the_way. rewrite fmap_app. simpl. apply filter_Permutation. solve_Permutation. Qed.
Lemma on_the_way_write pd m ar rd : m ≠ NOMID → on_the_way (pd ++ [m]) ar rd ≡ₚ m :: on_the_way pd ar rd.
Proof.
  intros Hm. unfold on_the_way. rewrite <-filter_cons_True by done. apply filter_Permutation. solve_Permutation.
Qed.
Lemma on_the_way_notice pd ar r rd : GetMessageId r = NOMID → on_the_way pd (ar ++ [r]) rd ≡ₚ on_the_way pd ar rd.
Proof.
  intros Hm. unfold on_the_way. rewrite <-(filter_cons_False _ (GetMessageId r) (pd ++ (GetMessageId <$> ar) ++ _)) by naive_solver.
  apply filter_Permutation. rewrite fmap_app. simpl. solve_Permutation.
Qed.
Lemma on_the_way_read pd r ar : on_the_way pd ar (RGot r) ≡ₚ on_the_way pd (r :: ar) RIdle.
Proof. unfold on_the_way. simpl. apply filter_Permutation. solve_Permutation. Qed.
Lemma on_the_way_drop pd ar rd r :
  reader_has rd = [GetMessageId r] → GetMessageId r = NOMID → on_the_way pd ar RIdle ≡ₚ on_the_way pd ar rd.
Proof.
  intros Hr Hm. unfold on_the_way. rewrite Hr. simpl. rewrite <-(filter_cons_False _ (GetMessageId r) (pd ++ (GetMessageId <$> ar) ++ [])) by naive_solver.
  apply filter_Permutation. solve_Permutation.
Qed.
Lemma on_the_way_take pd ar rd r :
  reader_has rd = [GetMessageId r] → GetMessageId r ≠ NOMID → on_the_way pd ar rd ≡ₚ GetMessageId r :: on_the_way pd ar RIdle.
Proof.
  intros Hr Hm. unfold on_the_way. rewrite Hr. simpl. rewrite <-(filter_cons_True _ (GetMessageId r) (pd ++ (GetMessageId <$> ar) ++ [])) by done.
  apply filter_Permutation. solve_Permutation.
Qed.

Lemma in_table_pos c m k : inv c → table c !! m = Some k → m ≠ NOMID.
Proof. intros Hi Hk. assert (Hm : m ∈ dom (table c)) by (by apply elem_of_dom). apply (i_range _ Hi) in Hm. unfold NOMID. lia. Qed.

Lemma calm_open env n c c' :
  polite env = true → may_close env = false → act env c c' → calm env n c → c_closed c' = false →
  closed_chans c' = ∅ ∧ reader c' ≠ RDone ∧ on_the_way (pending c') (arrived c') (reader c') ≡ₚ waiting (callers c').
Proof.
  intros Hpol Hmc Hact [Hinv _ _ _ _ Hopen _ _] Hcl. pose proof (inv_act _ _ _ Hact Hinv) as Hinv'.
  destruct Hact; simpl in *; try done; destruct (Hopen Hcl) as (Hcc & Hrd & Hway); (split; [done|]); (split; [done|]).
  - by rewrite (waiting_skip _ _ CStart).
  - by rewrite (waiting_skip _ _ CStart).
  - assert (Hm : mid ≠ NOMID). { eapply (in_table_pos _ _ k Hinv). apply (i_table _ Hinv). by exists (CWriting mid). }
    etrans; [by apply on_the_way_write|]. etrans; [by apply Permutation_skip|]. symmetry.
    by apply (waiting_insert cs k (CWriting mid)).
  - by rewrite (waiting_skip _ _ (CWriting mid)).
  - set_solver.
  - by rewrite (waiting_skip _ _ (CDeleting mid o)).
  - by rewrite on_the_way_reply.
  - by rewrite on_the_way_notice.
  - congruence.
  - by rewrite on_the_way_read.
  - done.
  - unfold looks_up in H. apply orb_false_iff in H as [Hid _]. apply bool_decide_eq_false, dec_stable in Hid.
    by rewrite (on_the_way_drop _ _ (RGot r) r).
  - destruct (decide (GetMessageId r = NOMID)) as [Hid|Hid]; [by rewrite (on_the_way_drop _ _ (RGot r) r)|].
    pose proof (on_the_way_reader pd ar r (RGot r) eq_refl Hid) as Hin. rewrite Hway in Hin.
    apply (Forall_waiting _ _ _ (i_table _ Hinv)) in Hin. by apply not_elem_of_dom in H0.
  - done.
  - destruct (i_send _ Hinv r k eq_refl) as [_ Hk]. pose proof (in_table_pos _ _ _ Hinv Hk) as Hid. simpl in *.
    apply (i_table _ Hinv) in Hk as (c & Hc & Hf). simpl in Hc. rewrite H0 in Hc. injection Hc as <-. injection Hf as ->.
    rewrite (on_the_way_take _ _ (RSending r k) r) in Hway by done.
    apply (Permutation_cons_inv (a := GetMessageId r)). etrans; [exact Hway|].
    rewrite <-(list_insert_id cs k (CWaiting (GetMessageId r)) H0) at 1.
    rewrite <-(list_insert_insert_eq cs k _ (CDeleting (GetMessageId r) (Got r))).
    eapply waiting_insert; [by apply list_lookup_insert_eq, (lookup_lt_Some _ _ _ H0)|done].
  - set_solver.
Qed.

Lemma calm_closed env n c c' :
  may_close env = false → act env c c' → calm env n c → c_closed c' = true →
  reader c' = RDone ∧ ∀ m k, table c' !! m = Some k → k ∈ closed_chans c'.
Proof.
  intros Hmc Hact [_ _ _ _ _ _ Hclosed _] Hcl.
  destruct Hact; simpl in *; try done; try (by destruct (Hclosed Hcl)); try congruence.
  - destruct (Hclosed Hcl) as [Hrd Hall]. split; [done|]. intros m j [_ Hj]%lookup_delete_Some. by eapply Hall.
  - split; [done|]. destruct cl; [by destruct (Hclosed eq_refl)|]. intros m k Hk. unfold close_all.
    apply elem_of_union_l, elem_of_list_to_set, list_elem_of_fmap. exists (m, k). split; [done|]. by apply elem_of_map_to_list.
Qed.

Lemma calm_faultless env n c c' :
  may_close env = false → act env c c' → calm env n c → faulty env = false →
  c_closed c' = false ∧ reader c' ≠ RClosing ∧ Forall replied (callers c').
Proof.
  intros Hmc Hact [_ _ _ _ _ Hopen _ Hfl] Hf. destruct (Hfl Hf) as (Hcl & Hrd & Hall).
  destruct Hact; simpl in *; try done; try (split_and!; [done|done|by apply Forall_insert]); rewrite ?Hf in *; simpl in *; try congruence.
  - destruct (Hopen Hcl) as [-> _]. set_solver.
  - split_and!; [done|done|]. apply Forall_insert; [done|]. exact (Forall_lookup_1 _ _ _ _ Hall H).
  - split_and!; [done|done|]. apply Forall_insert; [done|]. simpl. eauto.
Qed.

Lemma calm_lock env n c c' :
  (Z.of_nat n < 2 ^ 16)%Z → act env c c' → calm env n c →
  (midLock c' = true → ∃ r k, reader c' = RSending r k) ∧ CSpinning ∉ callers c' ∧ reader c' ≠ RPanic.
Proof.
  intros Hn Hact [Hinv Hlen Hpan Hlk Hspin Hopen Hclosed _].
  destruct Hact; simpl in *;
    try (split_and!; [done || exact Hlk || (by eauto) || (intros Hl; by destruct (Hlk Hl) as (? & ? & ?))
                     |exact Hspin || by apply not_elem_of_insert|done]).
  - pose proof (all_in_use_callers cs tbl k (i_table _ Hinv) H H0). lia.
  - destruct cl; [by destruct (Hclosed eq_refl)|]. destruct (Hopen eq_refl) as [-> _]. set_solver.
Qed.

Lemma calm_act env n c c' :
  polite env = true → may_close env = false → (Z.of_nat n < 2 ^ 16)%Z → act env c c' → calm env n c → calm env n c'.
Proof.
  intros Hpol Hmc Hn Hact Hc. destruct (calm_lock env n c c' Hn Hact Hc) as (Hl & Hsp & Hp). split; try done.
  - eapply inv_act; [done|]. apply Hc.
  - rewrite <-(k_len _ _ _ Hc). destruct Hact; simpl; by rewrite ?length_insert.
  - by eapply calm_open.
  - by eapply calm_closed.
  - by eapply calm_faultless.
Qed.

Lemma calm_init env n m : calm env n (init n m).
Proof.
  split; simpl; try done.
  - apply inv_init.
  - apply length_replicate.
  - intros [? _]%elem_of_replicate. done.
  - intros _. split_and!; [done|done|]. unfold waiting. induction n; simpl; [done|exact IHn].
  - intros _. split_and!; [done|done|by apply Forall_replicate].
Qed.

Lemma calm_reachable env n m c :
  polite env = true → may_close env = false → (Z.of_nat n < 2 ^ 16)%Z → rtc (step env) (init n m) c → calm env n c.
Proof.
  intros Hp Hm Hn. revert c. apply rtc_ind_r; [apply calm_init|]. intros c c' _ [_ Hact]. by eapply calm_act.
Qed.

(** ** Nothing is left waiting *)

Lemma some_answer m : ∃ r, GetMessageId r = m.
Proof. by exists (RError m []). Qed.

(** The reading goroutine is not in the way. *)
Lemma calm_reader env n c :
  calm env n c → nf (step env) c → midLock c = false ∧ (reader c = RIdle ∨ reader c = RDone).
Proof.
  intros Hc Hnf. assert (Hno : ∀ c', ¬ act env c c').
  { intros c' Ha. apply Hnf. exists c'. split; [apply Hc|done]. }
  pose proof (k_panic _ _ _ Hc) as Hpan. pose proof (k_lock _ _ _ Hc) as Hlk. pose proof (k_inv _ _ _ Hc) as Hinv.
  pose proof (k_open _ _ _ Hc) as Hopen. pose proof (k_closed _ _ _ Hc) as Hclosed.
  assert (Hns : ∀ r k, reader c ≠ RSending r k).
  { intros r k Hrd. destruct (i_send _ Hinv _ _ Hrd) as [_ Hk]. pose proof (in_table_pos _ _ _ Hinv Hk) as Hid.
    destruct (c_closed c) eqn:Ecl; [by destruct (Hclosed eq_refl); congruence|].
    destruct (Hopen eq_refl) as (Hcc & _ & Hway). rewrite Hrd in Hway.
    pose proof (on_the_way_reader (pending c) (arrived c) r (RSending r k) eq_refl Hid) as Hin. rewrite Hway in Hin.
    apply elem_of_waiting in Hin as [j Hj]. assert (table c !! GetMessageId r = Some j) by (apply (i_table _ Hinv); by eexists).
    assert (j = k) as -> by congruence. destruct c; simpl in *; subst. eapply Hno, s_send; [set_solver|done]. }
  assert (Hl : midLock c = false). { destruct (midLock c); [|done]. destruct (Hlk eq_refl) as (r & k & Hrd). by destruct (Hns r k). }
  split; [done|]. destruct c as [cs tbl lk cl cc rd pd ar nn]; simpl in *; subst. destruct rd as [|r|r k| | |]; auto; try done; exfalso.
  - destruct (looks_up r) eqn:El; [|by eapply Hno, s_skip].
    destruct (tbl !! GetMessageId r) as [k|] eqn:Et; [by eapply Hno, s_found|by eapply Hno, s_unknown].
  - by eapply Hns.
  - eapply Hno, s_reader_close.
Qed.

Lemma calm_nf env n c : calm env n c → nf (step env) c → Forall returned (callers c).
Proof.
  intros Hc Hnf. destruct (calm_reader env n c Hc Hnf) as [Hl Hrd].
  assert (Hno : ∀ c', ¬ act env c c').
  { intros c' Ha. apply Hnf. exists c'. split; [apply Hc|done]. }
  destruct Hc as [Hinv _ _ _ Hspin Hopen Hclosed _]. apply Forall_lookup_2. intros k x Hk.
  destruct c as [cs tbl lk cl cc rd pd ar nn]; simpl in *; subst. destruct x as [ | | |m|m|m o|m o]; try done; exfalso.
  - destruct cl; [by eapply Hno, s_refuse|].
    destruct (first_free_or_full (dom tbl)) as [[m Hm]|Hfull]; [by eapply Hno, s_new|by eapply Hno, s_spin].
  - apply Hspin. by eapply list_elem_of_lookup_2.
  - by eapply Hno, s_write.
  - assert (Ht : tbl !! m = Some k) by (apply (i_table _ Hinv); by eexists).
    destruct cl; [destruct (Hclosed eq_refl) as [_ Hall]; eapply Hno, s_lost; [done|by eapply Hall]|].
    destruct (Hopen eq_refl) as (_ & Hnd & Hway). destruct Hrd as [Hi|Hi]; [|done]; subst rd.
    assert (Hin : m ∈ on_the_way pd ar RIdle) by (rewrite Hway; apply elem_of_waiting; eauto).
    destruct pd as [|p pd].
    + destruct ar as [|r ar]; [|by eapply Hno, s_read]. unfold on_the_way in Hin. simpl in Hin. set_solver.
    + destruct (some_answer p) as [r <-]. eapply Hno, (s_reply _ _ _ _ _ _ _ []).
  - by eapply Hno, s_delete.
Qed.

(** *** Runs are finite *)
Definition caller_weight (c : Caller) : nat :=
  match c with CStart => 8 | CWriting _ => 7 | CWaiting _ => 2 | CDeleting _ _ => 1 | _ => 0 end.
Definition reader_weight (rd : Reader) : nat :=
  match rd with RGot _ => 4 | RSending _ _ => 3 | RIdle => 2 | RClosing => 1 | _ => 0 end.
Definition weight (c : Cfg) : nat :=
  sum_list_with caller_weight (callers c) + 4 * length (pending c) + 3 * length (arrived c) + 4 * notices c +
  reader_weight (reader c) + (if c_closed c then 0 else 1).

Lemma sum_list_insert {A} (f : A → nat) l k a b :
  l !! k = Some a → sum_list_with f (<[k := b]> l) + f a = sum_list_with f l + f b.
Proof. revert k. induction l as [|x l IH]; intros [|k] Hk; simplify_eq/=; [lia|]. pose proof (IH k Hk). lia. Qed.

Lemma weight_act env c c' : polite env = true → act env c c' → weight c' < weight c.
Proof.
  intros Hpol Hact. destruct Hact; unfold weight; simpl; rewrite ?length_app; simpl;
    try (match goal with Hk : ?cs !! ?k = Some ?a |- context [insert ?k ?b ?cs] =>
           pose proof (sum_list_insert caller_weight cs k a b Hk) end; simpl in *); try lia. congruence.
Qed.

Lemma weight_steps env n c c' : polite env = true → nsteps (step env) n c c' → n + weight c' ≤ weight c.
Proof.
  intros Hpol. induction 1 as [|n c c1 c' [_ Hact] _ IH]; [lia|]. pose proof (weight_act env c c1 Hpol Hact). lia.
Qed.

Lemma weight_init n m : weight (init n m) = 8 * n + 4 * m + 3.
Proof. unfold weight. simpl. assert (Hs : sum_list_with caller_weight (replicate n CStart) = 8 * n) by (induction n; simpl in *; lia). lia. Qed.

(** ** What holds of the calls *)

(** C14: However goroutines, server and connection are interleaved, and whatever the
    server sends, calls in progress have numbers of their own, the table of calls
    has them all and no others, and a call that comes back with a message
    comes back with one that carries its number. *)
Theorem calls_get_their_replies env n m c :
  rtc (step env) (init n m) c →
  (∀ i j a b mid, callers c !! i = Some a → callers c !! j = Some b → in_flight a = Some mid → in_flight b = Some mid → i = j) ∧
  (∀ mid k, table c !! mid = Some k ↔ ∃ a, callers c !! k = Some a ∧ in_flight a = Some mid) ∧
  (∀ k mid r, callers c !! k = Some (CDone mid (Got r)) → GetMessageId r = mid).
Proof.
  intros [Ht _ _ Ho]%inv_reachable. split_and!; [|exact Ht|].
  - intros i j a b mid Ha Hb Hfa Hfb. assert (table c !! mid = Some i ∧ table c !! mid = Some j) as [??]; [|congruence].
    split; apply Ht; eauto.
  - intros k mid r Hk. exact (Forall_lookup_1 _ _ _ _ Ho Hk).
Qed.

(** C13: When the server answers each request once and nobody else closes the client,
    all calls come back: a run has at most so many steps, nothing panics, and where it
    can go no further each call is finished; unless the connection broke each has the reply
    with its number.  For runs of fewer than 65536 calls: each caller makes one. *)
Theorem calls_return env n m k c :
  polite env = true → may_close env = false → (Z.of_nat n < 2 ^ 16)%Z → nsteps (step env) k (init n m) c →
  k ≤ 8 * n + 4 * m + 3 ∧ reader c ≠ RPanic ∧
  (nf (step env) c →
     Forall returned (callers c) ∧
     (faulty env = false → ∀ x, x ∈ callers c → ∃ mid r, x = CDone mid (Got r) ∧ GetMessageId r = mid)).
Proof.
  intros Hp Hm Hn Hrun. assert (Hc : calm env n c) by (eapply calm_reachable; eauto using rtc_nsteps_2).
  split_and!; [|apply Hc|].
  - pose proof (weight_steps env k _ _ Hp Hrun). rewrite weight_init in H. lia.
  - intros Hnf. pose proof (calm_nf env n c Hc Hnf) as Hall. split; [done|]. intros Hf x Hx.
    destruct (k_faultless _ _ _ Hc Hf) as (_ & _ & Hrep). rewrite Forall_forall in Hall, Hrep.
    pose proof (i_own _ (k_inv _ _ _ Hc)) as Hown. rewrite Forall_forall in Hown.
    specialize (Hall x Hx). specialize (Hrep x Hx). specialize (Hown x Hx).
    destruct x as [ | | | | | |mid o]; try done. simpl in Hrep. destruct Hrep as [r ->]. eauto.
Qed.

(** [newCall] of Client.v takes the number that the rule [s_new] takes. *)
Lemma find_mid_first {Srv} (c : Client.Client (Srv := Srv)) fuel : ∀ k,
  mIdCount c = 0%Z → ¬ all_in_use (calls c) → (1 ≤ k < 2 ^ 16)%Z → (∀ i, (1 ≤ i < k)%Z → i ∈ calls c) →
  (Z.of_nat (size (calls c)) + 2 ≤ k + Z.of_nat fuel)%Z →
  wp (find_mid fuel k) (λ mid c', first_free_mid (calls c) mid ∧ c' = set_calls ({[mid]} ∪ calls c) c) (λ _ _, False) c.
Proof.
  induction fuel as [|fuel IH]; intros k H0 Hfree Hk Hin Hf; pose proof (first_free (calls c) k ltac:(lia) Hin); [lia|].
  cbn [find_mid]. rewrite (bool_decide_eq_false_2 (k = 0)%Z) by lia. wp_step. wp_step.
  rewrite (bool_decide_eq_false_2 (k = mIdCount c)) by lia. case_bool_decide as Hkc.
  - wp_steps. split; [|done]. split_and!; [lia|lia|done|done].
  - assert (Hin' : ∀ i, (1 ≤ i < k + 1)%Z → i ∈ calls c).
    { intros i Hi. destruct (decide (i = k)) as [->|]; [done|]. apply Hin. lia. }
    destruct (decide (k + 1 = 2 ^ 16)%Z) as [He|]; [destruct Hfree; intros i Hi; apply Hin'; lia|].
    rewrite wrap_small by lia. apply IH; [done|done|lia|done|lia].
Qed.

Lemma newCall_first {Srv} (c : Client.Client (Srv := Srv)) :
  closed c = false → mIdCount c = 0%Z → ¬ all_in_use (calls c) →
  wp newCall (λ mid c', first_free_mid (calls c) mid ∧ c' = set_calls ({[mid]} ∪ calls c) c) (λ _ _, False) c.
Proof.
  intros Hcl H0 Hfree. unfold newCall. wp_step. wp_step. rewrite Hcl, H0, wrap_small by lia.
  apply find_mid_first; [done|done|lia|lia|lia].
Qed.

(** ** What goes wrong *)

(** One step, by rule [tac]. *)
Ltac conc tac := split; [done|tac].

Lemma first_mid_free : first_free_mid (dom (∅ : gmap Z nat)) 1.
Proof. split_and!; [lia|lia|set_solver|lia]. Qed.

(** The reading goroutine waits, with the lock, for a call that waits for the lock. *)
Definition deadlocked (c : Cfg) : Prop :=
  midLock c = true ∧ Forall (λ x, returned x = false) (callers c) ∧
  ∃ r, reader c = RSending r 0 ∧ callers c !! 0 = Some (CDeleting 1 (Got r)) ∧ 0 ∉ closed_chans c.

Lemma deadlocked_act env c c' : act env c c' → deadlocked c → deadlocked c'.
Proof.
  intros Hact (Hl & Hr & r & Hrd & H0 & Hcc). destruct Hact; simpl in *; simplify_eq;
    try (split_and!; [done|done|by exists r]).
  all: assert (k ≠ 0) by (intros ->; congruence).
  all: split_and!; [done|by apply Forall_insert|]; exists r; simpl; by rewrite list_lookup_insert_ne.
Qed.

(** A server that answers a call twice stops the client for good: no call, old or
    new, ever returns. *)
Theorem double_reply_deadlocks n m mc :
  ∃ c, rtc (step (mkEnv false false mc)) (init (S n) m) c ∧
       ∀ c', rtc (step (mkEnv false false mc)) c c' → Forall (λ x, returned x = false) (callers c').
Proof.
  set (r := RRemove 1).
  exists (mkCfg (CDeleting 1 (Got r) :: replicate n CStart) {[ 1%Z := 0 ]} true false ∅ (RSending r 0) [] [] m). split.
  - eapply rtc_l; [conc ltac:(apply (s_new _ _ _ _ _ _ _ _ 0 1); [done|apply first_mid_free])|].
    eapply rtc_l; [conc ltac:(by apply (s_write _ _ _ _ _ _ _ _ _ _ 0 1))|].
    eapply rtc_l; [conc ltac:(apply (s_reply _ _ _ _ _ _ _ [] [] _ _ r))|].
    eapply rtc_l; [conc ltac:(by apply (s_rude _ _ _ _ _ _ _ _ _ _ r))|].
    eapply rtc_l; [conc ltac:(apply s_read)|]. eapply rtc_l; [conc ltac:(by apply (s_found _ _ _ _ _ r 0))|].
    eapply rtc_l; [conc ltac:(by apply (s_send _ _ _ _ _ _ r 0 1))|]. eapply rtc_l; [conc ltac:(apply s_read)|].
    eapply rtc_l; [conc ltac:(by apply (s_found _ _ _ _ _ r 0))|]. apply rtc_refl.
  - intros c' Hrun. assert (Hd : deadlocked c'); [|apply Hd].
    revert c' Hrun. apply rtc_ind_r; [|intros c c' _ [_ Hact]; by apply (deadlocked_act _ c c' Hact)].
    split_and!; [done| |by exists r]. constructor; [done|by apply Forall_replicate].
Qed.

(** [Close] between the arrival of a reply and its delivery makes the client panic. *)
Theorem close_during_call_panics n m :
  ∃ c, rtc (step (mkEnv true false true)) (init (S n) m) c ∧ reader c = RPanic.
Proof.
  set (r := RRemove 1).
  exists (mkCfg (CWaiting 1 :: replicate n CStart) {[ 1%Z := 0 ]} true true (close_all {[ 1%Z := 0 ]} ∅) RPanic [] [] m).
  split; [|done].
  eapply rtc_l; [conc ltac:(apply (s_new _ _ _ _ _ _ _ _ 0 1); [done|apply first_mid_free])|].
  eapply rtc_l; [conc ltac:(by apply (s_write _ _ _ _ _ _ _ _ _ _ 0 1))|].
  eapply rtc_l; [conc ltac:(apply (s_reply _ _ _ _ _ _ _ [] [] _ _ r))|].
  eapply rtc_l; [conc ltac:(apply s_read)|]. eapply rtc_l; [conc ltac:(by apply s_close)|].
  eapply rtc_l; [conc ltac:(by apply (s_found _ _ _ _ _ r 0))|].
  apply rtc_once. split; [done|]. apply s_panic. by vm_compute.
Qed.

(** ** Witnesses *)
Module ConcDemo.
Definition reliable : Env := mkEnv true false false.
Definition one_call : Cfg := mkCfg [CDone 1 (Got (RRemove 1))] ∅ false false ∅ RIdle [] [] 0.

Lemma one_call_runs : nsteps (step reliable) 7 (init 1 0) one_call.
Proof.
  eapply nsteps_l; [conc ltac:(apply (s_new _ _ _ _ _ _ _ _ 0 1); [done|apply first_mid_free])|].
  eapply nsteps_l; [conc ltac:(by apply (s_write _ _ _ _ _ _ _ _ _ _ 0 1))|].
  eapply nsteps_l; [conc ltac:(apply (s_reply _ _ _ _ _ _ _ [] [] _ _ (RRemove 1)))|].
  eapply nsteps_l; [conc ltac:(apply s_read)|]. eapply nsteps_l; [conc ltac:(by apply (s_found _ _ _ _ _ _ 0))|].
  eapply nsteps_l; [conc ltac:(by apply (s_send _ _ _ _ _ _ _ 0 1))|].
  eapply nsteps_l; [conc ltac:(by apply (s_delete _ _ _ _ _ _ _ _ _ 0 1))|]. apply nsteps_O.
Qed.

Lemma calls_get_their_replies_witness :
  callers one_call !! 0 = Some (CDone 1 (Got (RRemove 1))) ∧ GetMessageId (RRemove 1) = 1%Z.
Proof.
  split; [reflexivity|]. destruct (calls_get_their_replies reliable 1 0 one_call) as (_ & _ & H).
  - eapply rtc_nsteps_2, one_call_runs.
  - exact (H 0 1%Z (RRemove 1) eq_refl).
Defined.

Lemma one_call_nf : nf (step reliable) one_call.
Proof.
  intros [c' [_ Hact]]. inversion Hact; simplify_eq/=;
    repeat match goal with Hk : [_] !! ?k = Some _ |- _ => destruct k; simplify_eq/= end.
  by destruct l1.
Qed.

Lemma calls_return_witness : Forall returned (callers one_call) ∧ ∃ mid r, CDone 1 (Got (RRemove 1)) = CDone mid (Got r) ∧ GetMessageId r = mid.
Proof.
  destruct (calls_return reliable 1 0 7 one_call eq_refl eq_refl eq_refl one_call_runs) as (_ & _ & H).
  destruct (H one_call_nf) as [Hall Hx]. split; [exact Hall|]. apply Hx; [reflexivity|]. simpl. set_solver.
Defined.
End ConcDemo.
