(* ===== verification/Server9.v ===== *)
(** The 9P server, cmd/bpy/p9/server9/server.go: walks, the table of fids and one
    handler per request, over the interfaces [File] and [Handle].

    A file is a value, a handle is an object that its methods may change; [W] is
    what both share.  The methods get the fields of the message that are about the
    file. *)

From Stdlib Require Import ZArith Lia String.
From stdpp Require Import base list gmap strings.
From coqutil Require Import Byte.
From S2P Require Import Prelude Io Proto9.

Set Default Goal Selector "!".

Definition ErrNoSuchFid : error := ENew "no such fid".
Definition ErrFidInUse : error := ENew "fid in use".
Definition ErrBadFid : error := ENew "bad fid".
Definition ErrBadTag : error := ENew "bad tag".
Definition ErrBadPath : error := ENew "bad path".
Definition ErrNotDir : error := ENew "not a directory path".
Definition ErrNotExist : error := ENew "no such file".
Definition ErrBadRead : error := ENew "bad read".
Definition ErrAuthNotSupported : error := ENew "auth not supported".

Definition NOTAG : Z := 0xFFFF.
Definition NOFID : Z := 0xFFFFFFFF.
Definition ReadOverhead : Z := 5 + 2 + 4.
Definition WriteOverhead : Z := 5 + 2 + 4 + 8 + 4.

(** [err.Error()] *)
Definition error_text (e : error) : bytes :=
  match e with
  | EOF => str "EOF"
  | UnexpectedEOF => str "unexpected EOF"
  | ENew msg => str msg
  end.

(** [None] is the nil [File]. *)
Class File (W F H : Type) := {
  f_Parent : F → M W (option F);
  f_Child : F → bytes → M W F;
  f_Qid : F → M W Qid;
  f_Stat : F → M W Stat;
  f_NewHandle : F → M W H;
}.

Class Handle (W F H : Type) := {
  h_GetFile : M (W * H) F;
  h_GetIounit : H → Z → Z;
  h_Twalk : list bytes → M (W * H) (option F * list Qid);
  h_Topen : Z → M (W * H) Qid;
  (** offset, count, length of the buffer; the bytes put there *)
  h_Tread : Z → Z → nat → M (W * H) bytes;
  h_Twrite : Z → bytes → M (W * H) Z;
  h_Tcreate : bytes → Z → Z → M (W * H) H;
  h_Twstat : Stat → M (W * H) unit;
  h_Tremove : M (W * H) unit;
  h_Tstat : M (W * H) Stat;
  h_Clunk : M (W * H) unit;
}.

Definition dotdot : bytes := str "..".
Definition slash9 : byte := Byte.x2f.
Definition backslash9 : byte := Byte.x5c.

(** ** Walking *)
Section Walk.
Context {W F H : Type} `{File W F H}.

(** The loop of [Walk] at name number [i]; the qid of a step is the one of the
    directory it starts from. *)
Fixpoint walk_from (i : nat) (f : F) (names : list bytes) (wqids : list Qid) : M W (option F * list Qid) :=
  match names with
  | [] => mret (Some f, wqids)
  | name :: names =>
    let walkerr werr := if bool_decide (i = 0) then throw werr else mret (None, wqids) in
    if bool_decide (name = str "." ∨ name = [] ∨ slash9 ∈ name) then throw ErrBadPath
    else if bool_decide (name = dotdot) then
      parent ← f_Parent f;
      match parent with
      | None => panic
      | Some parent =>
        qid ← f_Qid parent;
        walk_from (S i) parent names (wqids ++ [qid])
      end
    else
      qid ← f_Qid f;
      if negb (IsDir qid) then walkerr ErrNotDir
      else
        child ← try (f_Child f name);
        match child with
        | inr e => if bool_decide (e = ErrNotExist) then walkerr ErrNotExist else throw e
        | inl child => walk_from (S i) child names (wqids ++ [qid])
        end
  end.

Definition Walk (f : F) (names : list bytes) : M W (option F * list Qid) := walk_from 0 f names [].
End Walk.

Definition validFileName (name : bytes) : bool :=
  if bool_decide (slash9 ∈ name) || bool_decide (backslash9 ∈ name) then false
  else if bool_decide (name = dotdot ∨ name = str "." ∨ name = []) then false
  else true.

(** ** The server *)
Section Server.
Context {W F H : Type} `{File W F H} `{Handle W F H}.
Variable attachFunc : bytes → M W F.

Record Server := mkServer {
  maxMessageSize : Z;
  negMessageSize : Z;
  inbuf : bytes;
  outbuf : bytes;
  fids : gmap Z H;
  world : W;
}.

Definition NewServer (max : Z) (w : W) : Server := mkServer max max [] [] ∅ w.

Definition set_fids (x : gmap Z H) (s : Server) : Server :=
  mkServer (maxMessageSize s) (negMessageSize s) (inbuf s) (outbuf s) x (world s).
Definition set_world (x : W) (s : Server) : Server :=
  mkServer (maxMessageSize s) (negMessageSize s) (inbuf s) (outbuf s) (fids s) x.
Definition set_bufs (neg : Z) (i o : bytes) (s : Server) : Server :=
  mkServer (maxMessageSize s) neg i o (fids s) (world s).

Definition on_world {A} : M W A → M Server A := zoom world set_world.

(** A method of the handle under [fid], which has one. *)
Definition on_fid {A} (fid : Z) (c : M (W * H) A) : M Server A :=
  s ← get;
  match fids s !! fid with
  | None => panic
  | Some fh => zoom (λ s, (world s, fh)) (λ wh s, set_fids (<[fid := wh.2]> (fids s)) (set_world wh.1 s)) c
  end.

(** A method of a handle that is in no table, which is dropped afterwards. *)
Definition on_loose {A} (fh : H) (c : M (W * H) A) : M Server A :=
  zoom (λ s, (world s, fh)) (λ wh s, set_world wh.1 s) c.

Definition AddFid (fid : Z) (fh : H) : M Server unit :=
  if bool_decide (fid = NOFID) then throw ErrBadFid
  else
    s ← get;
    match fids s !! fid with
    | Some _ => throw ErrFidInUse
    | None => modify (λ s, set_fids (<[fid := fh]> (fids s)) s)
    end.

(** [return proto9.MakeError(tag, err)] for every error of [c]. *)
Definition replying (tag : Z) (c : M Server Msg) : M Server Msg :=
  o ← try c;
  match o with
  | inl resp => mret resp
  | inr e => mret (MakeError tag (error_text e))
  end.

(** Handlers of requests that name a fid. *)
Definition with_fid (tag fid : Z) (c : H → M Server Msg) : M Server Msg :=
  replying tag (
    s ← get;
    match fids s !! fid with
    | None => throw ErrNoSuchFid
    | Some fh => c fh
    end).

Definition handleVersion (tag messageSize : Z) (version : bytes) : M Server Msg :=
  if bool_decide (tag ≠ NOTAG) then mret (MakeError tag (error_text ErrBadTag))
  else
    s ← get;
    let neg := if bool_decide (messageSize > maxMessageSize s)%Z then maxMessageSize s else messageSize in
    let buf := replicate (Z.to_nat neg) Byte.x00 in
    modify (set_bufs neg buf buf);;
    mret (Rversion tag neg (str "9P2000")).

Definition handleAttach (tag fid afid : Z) (aname : bytes) : M Server Msg :=
  replying tag (
    if bool_decide (afid ≠ NOFID) then throw ErrAuthNotSupported
    else
      root ← on_world (attachFunc aname);
      fh ← on_world (f_NewHandle root);
      AddFid fid fh;;
      qid ← on_world (f_Qid root);
      mret (Rattach tag qid)).

Definition handleWalk (tag fid newFid : Z) (names : list bytes) : M Server Msg :=
  with_fid tag fid (λ _,
    '(f, wqids) ← on_fid fid (h_Twalk names);
    match f with
    | Some f =>
      newfh ← on_world (f_NewHandle f);
      (if bool_decide (newFid = fid) then
         _ ← try (on_fid fid h_Clunk);
         modify (λ s, set_fids (delete fid (fids s)) s)
       else mret ());;
      AddFid newFid newfh;;
      mret (Rwalk tag wqids)
    | None => mret (Rwalk tag wqids)
    end).

(** The [Iounit] of the handle under [fid]. *)
Definition iounit (fid : Z) : M Server Z :=
  s ← get;
  match fids s !! fid with
  | None => panic
  | Some fh => mret (h_GetIounit fh (negMessageSize s))
  end.

Definition handleOpen (tag fid mode : Z) : M Server Msg :=
  with_fid tag fid (λ _,
    qid ← on_fid fid (h_Topen mode);
    n ← iounit fid;
    mret (Ropen tag qid n)).

Definition handleCreate (tag fid : Z) (name : bytes) (perm mode : Z) : M Server Msg :=
  with_fid tag fid (λ _,
    if negb (validFileName name) then throw ErrBadPath
    else
      newhandle ← on_fid fid (h_Tcreate name perm mode);
      '(f, newhandle) ← on_loose newhandle (f ← h_GetFile; wh ← get; mret (f, wh.2));
      qid ← on_world (f_Qid f);
      _ ← try (on_fid fid h_Clunk);
      modify (λ s, set_fids (<[fid := newhandle]> (fids s)) s);;
      n ← iounit fid;
      mret (Rcreate tag qid n)).

Definition handleRead (tag fid offset count : Z) : M Server Msg :=
  with_fid tag fid (λ _,
    s ← get;
    let maxbytes := u32 (negMessageSize s - ReadOverhead) in
    let nbytes := if bool_decide (count > maxbytes)%Z then maxbytes else count in
    data ← on_fid fid (h_Tread offset count (Z.to_nat nbytes));
    mret (Rread tag data)).

Definition handleWrite (tag fid offset : Z) (data : bytes) : M Server Msg :=
  with_fid tag fid (λ _,
    n ← on_fid fid (h_Twrite offset data);
    mret (Rwrite tag n)).

Definition handleRemove (tag fid : Z) : M Server Msg :=
  with_fid tag fid (λ fh,
    modify (λ s, set_fids (delete fid (fids s)) s);;
    on_loose fh h_Tremove;;
    mret (Rremove tag)).

Definition handleClunk (tag fid : Z) : M Server Msg :=
  with_fid tag fid (λ fh,
    modify (λ s, set_fids (delete fid (fids s)) s);;
    on_loose fh h_Clunk;;
    mret (Rclunk tag)).

Definition handleStat (tag fid : Z) : M Server Msg :=
  with_fid tag fid (λ _,
    stat ← on_fid fid h_Tstat;
    mret (Rstat tag stat)).

Definition handleWStat (tag fid : Z) (stat : Stat) : M Server Msg :=
  with_fid tag fid (λ _,
    if negb (validFileName (s_Name stat)) then throw ErrBadPath
    else
      on_fid fid (h_Twstat stat);;
      mret (Rwstat tag)).

(** The switch of [Serve]; [Tflush] and replies end the connection. *)
Definition dispatch (msg : Msg) : M Server Msg :=
  match msg with
  | Tversion tag messageSize version => handleVersion tag messageSize version
  | Tattach tag fid afid _ aname => handleAttach tag fid afid aname
  | Twalk tag fid newFid names => handleWalk tag fid newFid names
  | Topen tag fid mode => handleOpen tag fid mode
  | Tread tag fid offset count => handleRead tag fid offset count
  | Tclunk tag fid => handleClunk tag fid
  | Tstat tag fid => handleStat tag fid
  | Twstat tag fid stat => handleWStat tag fid stat
  | Twrite tag fid offset data => handleWrite tag fid offset data
  | Tremove tag fid => handleRemove tag fid
  | Tauth tag _ _ _ => mret (MakeError tag (error_text ErrAuthNotSupported))
  | Tcreate tag fid name perm mode => handleCreate tag fid name perm mode
  | _ => throw (ENew "bad message")
  end.

(** ** The connection *)
Context {R : Type} `{IoReader R} {Out : Type} `{IoWriter Out}.
Record Session := mkSession { ses_srv : Server; ses_in : R; ses_out : Out }.

Definition on_srv {A} : M Server A → M Session A := zoom ses_srv (λ s x, mkSession s (ses_in x) (ses_out x)).

(** [proto9.ReadMsg(rwc, srv.inbuf)] *)
Definition read_request : M Session Msg :=
  zoom (λ x, (ses_in x, inbuf (ses_srv x)))
       (λ rb x, mkSession (set_bufs (negMessageSize (ses_srv x)) rb.2 (outbuf (ses_srv x)) (ses_srv x)) rb.1 (ses_out x))
       ReadMsg.

(** [proto9.WriteMsg(rwc, srv.outbuf, resp)], which leaves the message in the buffer. *)
Definition write_response (resp : Msg) : M Session unit :=
  x ← get;
  packed ← lift (PackMsg (outbuf (ses_srv x)) resp);
  modify (λ x, mkSession (set_bufs (negMessageSize (ses_srv x)) (inbuf (ses_srv x))
                            (packed ++ drop (length packed) (outbuf (ses_srv x))) (ses_srv x)) (ses_in x) (ses_out x));;
  zoom ses_out (λ o x, mkSession (ses_srv x) (ses_in x) o) (io_write packed).

(** The loop of [Serve]; it only ends with an error. *)
Fixpoint serve_loop (fuel : nat) : M Session unit :=
  match fuel with
  | O => diverge
  | S fuel =>
    msg ← read_request;
    resp ← on_srv (dispatch msg);
    write_response resp;;
    serve_loop fuel
  end.

Definition Serve (fuel : nat) : M Session unit :=
  modify (λ x, let s := ses_srv x in
               let buf := replicate (Z.to_nat (maxMessageSize s)) Byte.x00 in
               mkSession (set_fids ∅ (set_bufs (negMessageSize s) buf buf s)) (ses_in x) (ses_out x));;
  serve_loop fuel.
End Server.
