(* ===== verification/P9Files.v ===== *)
(** The stored tree as 9P files, cmd/bpy/p9/files.go and p9.go: [fs9], the root as the
    remote store has it at the moment, files and directories below it, and the
    three kinds of handles.

    A [file] does not change after [CreateFile]; what changes is in the [fs9] it
    points to, in its handles and in the store.  Each attach makes a new [fs9]. *)

From Stdlib Require Import ZArith Lia String.
From stdpp Require Import base list gmap strings.
From coqutil Require Import Byte.
From S2P Require Import Prelude Store Io Htree HtreeProps Fs Refs Remote Proto9 Server9.

Set Default Goal Selector "!".

Definition ErrReadOnly : error := ENew "read only".
Definition DMDIR : Z := 0x80000000.

(** [file]; [f_fs] is the number of its [fs9].  The field [children] is always nil. *)
Inductive file := mkFile {
  f_fs : nat;
  f_parent : option file;
  f_path : bytes;
  f_qid : Qid;
  f_stat : Stat;
  f_ent : DirEnt;
}.

(** The fields of [fs9] that change. *)
Record fs9 := mkFs9 {
  pathCounter : Z;
  version : Z;
  fs_file : option file;
  lastUpdated : Z;
}.

(** The two types that implement [server9.File]. *)
Inductive file9 :=
  | FRoot (r : nat)
  | FFile (f : file).

(** [fmt.Errorf("...: %s", err)] *)
Definition wrap_error (pre : string) (e : error) : error := errorf pre (error_text e) "".
Arguments wrap_error pre%_string_scope.

(** [path.Join] of a rooted path and a name *)
Definition path_Join (p name : bytes) : bytes := Clean (p ++ slash :: name).

Section P9.
Context {P : Params} {St : Type} `{CStore St} {R : Type} `{RemoteClient R}.
Variables (sz : nat → nat) (fuel : nat).
Variable HMAC : bytes → bytes → bytes.
Variable key : Key.
Variable clock : nat → Z.   (* nanoseconds *)

(** The three types that implement [server9.Handle]. *)
Inductive handle9 :=
  | HRoot (fs : nat) (offset : Z) (stats : list Stat)
  | HDir (f : file) (offset : Z) (stats : list Stat)
  | HFile (f : file) (rdr : option (Reader St)).

(** What the files share: store, client, the [fs9]s, the readings of the clock. *)
Record World := mkWorld { w_store : St; w_remote : R; w_fss : list fs9; w_clock : nat }.

Definition on_store {A} : M St A → M World A :=
  zoom w_store (λ s w, mkWorld s (w_remote w) (w_fss w) (w_clock w)).
Definition on_remote {A} : M R A → M World A :=
  zoom w_remote (λ r w, mkWorld (w_store w) r (w_fss w) (w_clock w)).
Definition get_fs (r : nat) : M World fs9 := w ← get; lift (idx (w_fss w) r).
Definition set_fs (r : nat) (x : fs9) : M World unit :=
  modify (λ w, mkWorld (w_store w) (w_remote w) (<[r := x]> (w_fss w)) (w_clock w)).
Definition Now : M World Z :=
  w ← get;
  modify (λ w, mkWorld (w_store w) (w_remote w) (w_fss w) (S (w_clock w)));;
  mret (clock (w_clock w)).

(** [CreateFile] of [fs9] number [r] *)
Definition CreateFile (r : nat) (ent : DirEnt) (parent : option file) (fspath : bytes) : M World file :=
  x ← get_fs r;
  let counter := u64 (pathCounter x + 1) in
  set_fs r (mkFs9 counter (version x) (fs_file x) (lastUpdated x));;
  let mode := Z.land (EntMode ent) 0x1FF in
  let dir := Fs.IsDir ent in
  let qid := mkQid (if dir then QTDIR else QTFILE) (version x) counter in
  let stat := mkStat 0 0 qid (if dir then Z.lor mode DMDIR else mode) 0 0 (u64 (EntSize ent)) (EntName ent)
                (str "nobody") (str "nobody") (str "nobody") in
  mret (mkFile r parent fspath qid stat ent).

Definition half_minute : Z := 30 * 1000000000.

(** [root missing] with its newline *)
Definition root_missing : error := ENew "root missing
".

(** The part of [update] after the age of the root was looked at. *)
Definition refresh (r : nat) : M World unit :=
  g ← try (on_remote (GetRoot HMAC key));
  match g with
  | inr e => throw (wrap_error "error getting root: " e)
  | inl (root, _, ok) =>
    if negb ok then throw root_missing
    else
      ref ← try (on_store (GetRef sz fuel root));
      match ref with
      | inr e => throw (wrap_error "error getting ref: " e)
      | inl ref =>
        x ← get_fs r;
        if match fs_file x with Some f => bool_decide (Refs.Root ref = Data (EntHTree (f_ent f))) | None => false end
        then mret ()
        else
          ents ← try (on_store (ReadDir sz fuel (Refs.Root ref)));
          match ents with
          | inr e => throw (wrap_error "error reading root: " e)
          | inl ents =>
            ent ← lift (idx ents 0);
            f ← CreateFile r ent None (str "/");
            now ← Now;
            x ← get_fs r;
            set_fs r (mkFs9 (pathCounter x) (u32 (version x + 1)) (Some f) now)
          end
      end
  end.

Definition update (r : nat) : M World unit :=
  x ← get_fs r;
  match fs_file x with
  | None => refresh r
  | Some _ =>
    now ← Now;
    if bool_decide (now - lastUpdated x < half_minute)%Z then mret () else refresh r
  end.

(** [h.fs.file], which is dereferenced *)
Definition root_file (r : nat) : M World file :=
  x ← get_fs r;
  match fs_file x with Some f => mret f | None => panic end.

(** ** file *)

Fixpoint create_children (f : file) (ents : list DirEnt) : M World (list file) :=
  match ents with
  | [] => mret []
  | ent :: ents =>
    child ← CreateFile (f_fs f) ent (Some f) (path_Join (f_path f) (EntName ent));
    children ← create_children f ents;
    mret (child :: children)
  end.

Definition getChildren (f : file) : M World (list file) :=
  if negb (Fs.IsDir (f_ent f)) then throw ErrNotDir
  else
    ents ← on_store (ReadDir sz fuel (Data (EntHTree (f_ent f))));
    ents ← lift (slice ents 1 (length ents));
    create_children f ents.

Definition file_Child (f : file) (name : bytes) : M World file :=
  if negb (Fs.IsDir (f_ent f)) then throw (errorf "" (f_path f) " is not a dir")
  else
    children ← getChildren f;
    match list_find (λ c, EntName (f_ent c) = name) children with
    | Some (_, c) => mret c
    | None => throw (errorf "" (path_Join (f_path f) name) " does not exist")
    end.

(** ** The interface [File] *)

Definition fs9_Child (r : nat) (name : bytes) : M World file := update r;; f ← root_file r; file_Child f name.
Definition fs9_Qid (r : nat) : M World Qid := update r;; s ← get_fs r; mret (mkQid QTDIR (version s) 0).
Definition fs9_Stat (r : nat) : M World Stat :=
  update r;;
  f ← root_file r;
  let st := f_stat f in
  mret (mkStat (s_Type st) (s_Dev st) (f_qid f) (s_Mode st) (s_Atime st) (s_Mtime st) (s_Length st)
          (s_Name st) (s_UID st) (s_GID st) (s_MUID st)).
Definition fs9_NewHandle (r : nat) : M World handle9 := update r;; mret (HRoot r 0 []).
Definition file_NewHandle (f : file) : handle9 := if Fs.IsDir (f_ent f) then HDir f 0 [] else HFile f None.

Definition Parent (x : file9) : M World (option file9) :=
  match x with
  | FRoot r => update r;; mret None
  | FFile f => mret (FFile <$> f_parent f)
  end.

Definition Child (x : file9) (name : bytes) : M World file9 :=
  c ← match x with FRoot r => fs9_Child r name | FFile f => file_Child f name end;
  mret (FFile c).

Definition Qid9 (x : file9) : M World Qid :=
  match x with FRoot r => fs9_Qid r | FFile f => mret (f_qid f) end.

Definition Stat9 (x : file9) : M World Stat :=
  match x with FRoot r => fs9_Stat r | FFile f => mret (f_stat f) end.

Definition NewHandle (x : file9) : M World handle9 :=
  match x with FRoot r => fs9_NewHandle r | FFile f => mret (file_NewHandle f) end.

(** ** The interface [Handle] *)

Definition on_w9 {A} : M World A → M (World * handle9) A := zoom fst (λ w x, (w, x.2)).
Definition set_handle (h : handle9) : M (World * handle9) unit := modify (λ x, (x.1, h)).

(** [h.fs.update()], then [h.fs.file] *)
Definition rootHandle_file (r : nat) : M (World * handle9) file := on_w9 (update r);; on_w9 (root_file r).

Definition GetFile : M (World * handle9) file9 :=
  x ← get;
  match x.2 with
  | HRoot r _ _ => f ← rootHandle_file r; mret (FFile f)
  | HDir f _ _ | HFile f _ => mret (FFile f)
  end.

Definition GetIounit (h : handle9) (maxMessageSize : Z) : Z := u32 (maxMessageSize - WriteOverhead).

(** The loop of [Tread] of [rootHandle] and of [dirHandle]: [n] bytes are in the
    buffer already. *)
Fixpoint pack_stats (n : Z) (stats : list Stat) : M bytes (Z * list Stat) :=
  match stats with
  | [] => mret (n, [])
  | curstat :: rest =>
    buf ← get;
    let statlen := u32 (Z.of_nat (StatLen curstat)) in
    if bool_decide (u32 (statlen + n) > Z.of_nat (length buf))%Z then
      if bool_decide (n = 0)%Z then throw ErrBuffTooSmall else mret (n, stats)
    else
      at_slice (Z.to_nat n) (Z.to_nat (u32 (n + statlen))) (PackStat curstat);;
      pack_stats (u32 (n + statlen)) rest
  end.

(** Both directory handles, of which [mk] makes one, at [cur] with [stats] to come. *)
Definition read_dir (mk : Z → list Stat → handle9) (cur : Z) (stats : list Stat) (children : M World (list file))
    (offset : Z) (buflen : nat) : M (World * handle9) bytes :=
  stats ← (if bool_decide (offset = 0)%Z then
             cs ← on_w9 children;
             set_handle (mk cur (f_stat <$> cs));;
             mret (f_stat <$> cs)
           else mret stats);
  if bool_decide (offset ≠ cur) then throw ErrBadRead
  else
    match pack_stats 0 stats (replicate buflen Byte.x00) with
    | (Ok (n, rest), buf) => set_handle (mk (u64 (cur + n)) rest);; mret (take (Z.to_nat n) buf)
    | (Err e, _) => throw e
    | (Panic, _) => panic
    | (OutOfFuel, _) => diverge
    end.

(** [Read] of the reader of a [fileHandle]; the store is the one of the world. *)
Definition with_rdr (f : file) (rdr : Reader St) (c : M (Reader St) bytes) : M (World * handle9) bytes :=
  zoom (λ x, r_set_store (w_store x.1) rdr)
       (λ r x, (mkWorld (r_store r) (w_remote x.1) (w_fss x.1) (w_clock x.1), HFile f (Some r))) c.

Definition not_open (f : file) : error := errorf "fid for '" (f_path f) "' is not open".

Definition rootHandle_Tread (r : nat) (cur : Z) (stats : list Stat) (offset : Z) (buflen : nat) : M (World * handle9) bytes :=
  on_w9 (update r);;
  read_dir (HRoot r) cur stats (f ← root_file r; getChildren f) offset buflen.
Definition dirHandle_Tread (f : file) (cur : Z) (stats : list Stat) (offset : Z) (buflen : nat) : M (World * handle9) bytes :=
  read_dir (HDir f) cur stats (getChildren f) offset buflen.

(** The offset asked for is not looked at when a file is read. *)
Definition fileHandle_Tread (f : file) (rdr : option (Reader St)) (buflen : nat) : M (World * handle9) bytes :=
  match rdr with
  | None => throw (not_open f)
  | Some rdr =>
    o ← try (with_rdr f rdr (Htree.Read buflen));
    match o with
    | inl b => mret b
    | inr e => if bool_decide (e = EOF) then mret [] else throw e
    end
  end.

Definition Tread9 (offset count : Z) (buflen : nat) : M (World * handle9) bytes :=
  x ← get;
  match x.2 with
  | HRoot r cur stats => rootHandle_Tread r cur stats offset buflen
  | HDir f cur stats => dirHandle_Tread f cur stats offset buflen
  | HFile f rdr => fileHandle_Tread f rdr buflen
  end.

Definition fileHandle_Topen (f : file) : M (World * handle9) Qid :=
  set_handle (HFile f None);;
  r ← zoom fst (λ w x, (w, x.2)) (λ w : World,
        let '(o, r) := Htree.NewReader (blank_reader (w_store w) (Data (EntHTree (f_ent f)))) in
        (match o with Ok _ => Ok r | Err e => Err e | Panic => Panic | OutOfFuel => OutOfFuel end,
         mkWorld (r_store r) (w_remote w) (w_fss w) (w_clock w)));
  set_handle (HFile f (Some r));;
  mret (f_qid f).

Definition Topen9 (mode : Z) : M (World * handle9) Qid :=
  x ← get;
  match x.2 with
  | HRoot r _ _ => f ← rootHandle_file r; mret (f_qid f)
  | HDir f _ _ => mret (f_qid f)
  | HFile f _ => fileHandle_Topen f
  end.

Definition Tstat9 : M (World * handle9) Stat :=
  x ← get;
  match x.2 with
  | HRoot r _ _ => on_w9 (update r);; on_w9 (fs9_Stat r)
  | HDir f _ _ | HFile f _ => on_w9 (Stat9 (FFile f))
  end.

Definition Twrite9 (offset : Z) (data : bytes) : M (World * handle9) Z := throw ErrReadOnly.
Definition Tcreate9 (name : bytes) (perm mode : Z) : M (World * handle9) handle9 := throw ErrReadOnly.
Definition Twstat9 (stat : Stat) : M (World * handle9) unit := throw ErrReadOnly.
Definition Tremove9 : M (World * handle9) unit := throw ErrReadOnly.

Definition Clunk9 : M (World * handle9) unit :=
  x ← get;
  match x.2 with
  | HFile f _ => set_handle (HFile f None)
  | _ => mret ()
  end.

#[global] Instance file9_File : File World file9 handle9 :=
  {| f_Parent := Parent; f_Child := Child; f_Qid := Qid9; f_Stat := Stat9; f_NewHandle := NewHandle |}.

Definition Twalk9 (names : list bytes) : M (World * handle9) (option file9 * list Qid) :=
  x ← get;
  match x.2 with
  | HRoot r _ _ => f ← rootHandle_file r; on_w9 (Server9.Walk (FFile f) names)
  | HDir f _ _ | HFile f _ => on_w9 (Server9.Walk (FFile f) names)
  end.

#[global] Instance handle9_Handle : Handle World file9 handle9 :=
  {| h_GetFile := GetFile; h_GetIounit := GetIounit; h_Twalk := Twalk9; h_Topen := Topen9; h_Tread := Tread9;
     h_Twrite := Twrite9; h_Tcreate := Tcreate9; h_Twstat := Twstat9; h_Tremove := Tremove9;
     h_Tstat := Tstat9; h_Clunk := Clunk9 |}.

(** [attachFunc] of [handleConnection]: a new [fs9] *)
Definition attachFunc (aname : bytes) : M World file9 :=
  w ← get;
  modify (λ w, mkWorld (w_store w) (w_remote w) (w_fss w ++ [mkFs9 0 0 None 0]) (w_clock w));;
  mret (FRoot (length (w_fss w))).

(** [server9.NewServer(1024*1024, attachFunc)] *)
Definition new_p9 (s : St) (c : R) : Server := NewServer (W := World) (H := handle9) (1024 * 1024) (mkWorld s c [] 0).
End P9.

Create HintDb p9.
#[export] Hint Unfold fs9_Child fs9_Qid fs9_Stat fs9_NewHandle file_NewHandle rootHandle_file rootHandle_Tread
  dirHandle_Tread fileHandle_Tread fileHandle_Topen : p9.
