(* ===== verification/Server9Props.v ===== *)
(** What the 9P server promises for every implementation of [File] and [Handle]
    that obeys [TreeLaws]: each request is answered under its tag, no request
    panics, and the table of fids changes as 9P says. *)

From Stdlib Require Import ZArith Lia.
From stdpp Require Import base list gmap strings.
From S2P Require Import Prelude Io Proto9 Server9.

Set Default Goal Selector "!".

(** ** The interface *)

(** [world_ok] and the others are what an implementation keeps true of the shared state,
    of files and of handles, also when a method fails; [later] is how the
    shared state may change.  Some walks and some buffers may be out of
    bounds. *)
Class TreeLaws {W F H : Type} `{File W F H} `{Handle W F H} (attachFunc : bytes → M W F) := {
  world_ok : W → Prop;
  file_ok : W → F → Prop;
  handle_ok : W → H → Prop;
  later : W → W → Prop;
  may_walk : W → H → list bytes → Prop;
  may_read : nat → Prop;
  later_refl w : later w w;
  later_trans w1 w2 w3 : later w1 w2 → later w2 w3 → later w1 w3;
  handle_later w w' h : later w w' → handle_ok w h → handle_ok w' h;
  file_later w w' f : later w w' → file_ok w f → file_ok w' f;
  (** [c] goes from a good state to a good state. *)
  fine {A} (c : M W A) (Q : A → W → Prop) (w : W) : Prop :=
    wp c (λ a w', world_ok w' ∧ later w w' ∧ Q a w') (λ _ w', world_ok w' ∧ later w w') w;
  fine_handle {A} (c : M (W * H) A) (Q : A → W → Prop) (w : W) (h : H) : Prop :=
    wp c (λ a x, world_ok x.1 ∧ later w x.1 ∧ handle_ok x.1 x.2 ∧ Q a x.1)
         (λ _ x, world_ok x.1 ∧ later w x.1 ∧ handle_ok x.1 x.2) (w, h);
  attach_law aname w : world_ok w → fine (attachFunc aname) (λ f w', file_ok w' f) w;
  Qid_law f w : world_ok w → file_ok w f → fine (f_Qid f) (λ _ _, True) w;
  NewHandle_law f w : world_ok w → file_ok w f → fine (f_NewHandle f) (λ h w', handle_ok w' h) w;
  GetFile_law w h : world_ok w → handle_ok w h → fine_handle h_GetFile (λ f w', file_ok w' f) w h;
  Twalk_law names w h : world_ok w → handle_ok w h → may_walk w h names →
    fine_handle (h_Twalk names) (λ r w', ∀ f, r.1 = Some f → file_ok w' f) w h;
  Topen_law mode w h : world_ok w → handle_ok w h → fine_handle (h_Topen mode) (λ _ _, True) w h;
  Tread_law off count n w h : world_ok w → handle_ok w h → may_read n → fine_handle (h_Tread off count n) (λ _ _, True) w h;
  Twrite_law off data w h : world_ok w → handle_ok w h → fine_handle (h_Twrite off data) (λ _ _, True) w h;
  Tcreate_law name perm mode w h : world_ok w → handle_ok w h →
    fine_handle (h_Tcreate name perm mode) (λ h' w', handle_ok w' h') w h;
  Twstat_law st w h : world_ok w → handle_ok w h → fine_handle (h_Twstat st) (λ _ _, True) w h;
  Tremove_law w h : world_ok w → handle_ok w h → fine_handle h_Tremove (λ _ _, True) w h;
  Tstat_law w h : world_ok w → handle_ok w h → fine_handle h_Tstat (λ _ _, True) w h;
  Clunk_law w h : world_ok w → handle_ok w h → fine_handle h_Clunk (λ _ _, True) w h;
}.

(** ** The table of fids *)

Definition tag_of (m : Msg) : Z :=
  match m with
  | Tversion t _ _ | Rversion t _ _ | Tauth t _ _ _ | Rauth t _ | Tattach t _ _ _ _ | Rattach t _ | Rerror t _
  | Tflush t _ | Rflush t | Tread t _ _ _ | Rread t _ | Twrite t _ _ _ | Rwrite t _ | Tclunk t _ | Rclunk t
  | Tremove t _ | Rremove t | Topen t _ _ | Ropen t _ _ | Tcreate t _ _ _ _ | Rcreate t _ _ | Tstat t _
  | Rstat t _ | Twstat t _ _ | Rwstat t | Twalk t _ _ _ | Rwalk t _ => t
  end.

Definition is_error (m : Msg) : Prop := ∃ t e, m = Rerror t e.

(** How a request that is answered by [r] changes the set of fids.  A failed attach
    may leave its fid, and a walk that stops half-way makes none. *)
Definition fids_change (m r : Msg) (X X' : gset Z) : Prop :=
  match m with
  | Tattach _ fid _ _ _ =>
    (X' = X ∧ is_error r) ∨ (fid ∉ X ∧ fid ≠ NOFID ∧ X' = {[fid]} ∪ X)
  | Twalk _ fid newFid _ =>
    X' = X ∨ (¬ is_error r ∧ fid ∈ X ∧ (newFid = fid ∨ newFid ∉ X) ∧ newFid ≠ NOFID ∧ X' = {[newFid]} ∪ X)
  | Tclunk _ fid | Tremove _ fid => X' = X ∖ {[fid]}
  | _ => X' = X
  end.

Section Server.
Context {W F H : Type} `{File W F H} `{Handle W F H} (attachFunc : bytes → M W F) `{!TreeLaws attachFunc}.
Abbreviation Server := (Server (W := W) (H := H)).
Implicit Types s : Server.

Record server_ok s : Prop := mkServerOk {
  so_world : world_ok (world s);
  so_nofid : NOFID ∉ dom (fids s);
  so_handles : map_Forall (λ _ h, handle_ok (world s) h) (fids s);
}.

(** The requests within bounds. *)
Definition request_ok s (m : Msg) : Prop :=
  match m with
  | Twalk _ fid _ names => ∀ h, fids s !! fid = Some h → may_walk (world s) h names
  | Tread _ _ _ count =>
    may_read (Z.to_nat (if bool_decide (count > u32 (negMessageSize s - ReadOverhead))%Z
                        then u32 (negMessageSize s - ReadOverhead) else count))
  | _ => True
  end.

(** What a step of a handler leaves, with the fids [X]. *)
Definition stays (X : gset Z) s s' : Prop :=
  server_ok s' ∧ later (world s) (world s') ∧ dom (fids s') = X ∧ negMessageSize s' = negMessageSize s.

Lemma stays_refl s : server_ok s → stays (dom (fids s)) s s.
Proof. intros Hs. split_and!; try done. apply later_refl. Qed.

Lemma handles_later (m : gmap Z H) w w' :
  later w w' → map_Forall (λ _ h, handle_ok w h) m → map_Forall (λ _ h, handle_ok w' h) m.
Proof. intros Hl Hm i h Hi. eapply handle_later; [exact Hl|exact (Hm i h Hi)]. Qed.

Lemma on_world_fine {A} (c : M W A) Q s :
  server_ok s → fine c Q (world s) →
  wp (on_world c) (λ a s', stays (dom (fids s)) s s' ∧ fids s' = fids s ∧ Q a (world s'))
     (λ _ s', stays (dom (fids s)) s s') s.
Proof.
  intros [Hw Hn Hh] Hc. unfold on_world. wp_step. unfold fine in Hc. eapply wp_mono; [exact Hc|..]; cbn beta; unfold stays.
  - intros a w' (Hw' & Hl & HQ). split_and!; try done. split; simpl; [done|done|]. by eapply handles_later.
  - intros e w' (Hw' & Hl). split_and!; try done. split; simpl; [done|done|]. by eapply handles_later.
Qed.

Lemma insert_ok s w' fid h' :
  server_ok s → world_ok w' → later (world s) w' → handle_ok w' h' → fid ≠ NOFID →
  server_ok (set_fids (<[fid := h']> (fids s)) (set_world w' s)).
Proof.
  intros [Hw Hn Hh] Hw' Hl Hh' Hf. split; simpl; [done|set_solver|].
  apply map_Forall_insert_2; [done|]. by eapply handles_later.
Qed.

Lemma fid_not_nofid s fid h : server_ok s → fids s !! fid = Some h → fid ≠ NOFID.
Proof. intros Hs Hf ->. destruct (so_nofid _ Hs). by apply elem_of_dom. Qed.

Lemma dom_insert_present s fid (h h' : H) : fids s !! fid = Some h → dom (<[fid := h']> (fids s)) = dom (fids s).
Proof. intros Hf. rewrite dom_insert_L. assert (fid ∈ dom (fids s)) by (by apply elem_of_dom). set_solver. Qed.

Lemma on_fid_fine {A} fid (c : M (W * H) A) Q s h :
  server_ok s → fids s !! fid = Some h → fine_handle c Q (world s) h →
  wp (on_fid fid c)
    (λ a s', stays (dom (fids s)) s s' ∧ is_Some (fids s' !! fid) ∧ Q a (world s'))
    (λ _ s', stays (dom (fids s)) s s' ∧ is_Some (fids s' !! fid)) s.
Proof.
  intros Hs Hf Hc. unfold on_fid. wp_step. wp_step. rewrite Hf. wp_step. pose proof (fid_not_nofid _ _ _ Hs Hf).
  unfold fine_handle in Hc. eapply wp_mono; [exact Hc|..]; cbn beta; unfold stays.
  - intros a [w' h'] (Hw' & Hl & Hh' & HQ). simpl in *.
    split_and!; [by apply insert_ok|done|by eapply dom_insert_present|done|by rewrite lookup_insert_eq|done].
  - intros e [w' h'] (Hw' & Hl & Hh'). simpl in *.
    split_and!; [by apply insert_ok|done|by eapply dom_insert_present|done|by rewrite lookup_insert_eq].
Qed.

Lemma on_loose_fine {A} (h : H) (c : M (W * H) A) Q s :
  server_ok s → fine_handle c Q (world s) h →
  wp (on_loose h c) (λ a s', stays (dom (fids s)) s s' ∧ fids s' = fids s ∧ Q a (world s'))
     (λ _ s', stays (dom (fids s)) s s' ∧ fids s' = fids s) s.
Proof.
  intros [Hw Hn Hh] Hc. unfold on_loose. wp_step. unfold fine_handle in Hc. eapply wp_mono; [exact Hc|..]; cbn beta; unfold stays.
  - intros a [w' h'] (Hw' & Hl & Hh' & HQ). simpl in *. split_and!; try done.
    split; simpl; [done|done|]. by eapply handles_later.
  - intros e [w' h'] (Hw' & Hl & Hh'). simpl in *. split_and!; try done.
    split; simpl; [done|done|]. by eapply handles_later.
Qed.

(** ** The handlers *)

Definition answers (m r : Msg) s s' : Prop :=
  tag_of r = tag_of m ∧ server_ok s' ∧ later (world s) (world s') ∧ fids_change m r (dom (fids s)) (dom (fids s')).

Lemma error_is tag e : is_error (MakeError tag e).
Proof. by eexists _, _. Qed.

Lemma replying_spec tag (c : M Server Msg) Q E s :
  wp c Q (λ e s', Q (MakeError tag (error_text e)) s') s → wp (replying tag c) Q E s.
Proof.
  intros Hc. unfold replying. wp_step. wp_step. eapply wp_mono; [exact Hc|..]; cbn beta; intros; by wp_step.
Qed.

Lemma with_fid_spec m fid (c : H → M Server Msg) E s :
  (fids_change m (MakeError (tag_of m) (error_text ErrNoSuchFid)) (dom (fids s)) (dom (fids s)) ∨ is_Some (fids s !! fid)) →
  server_ok s →
  (∀ h, fids s !! fid = Some h → wp (c h) (λ r s', answers m r s s')
     (λ e s', answers m (MakeError (tag_of m) (error_text e)) s s') s) →
  wp (with_fid (tag_of m) fid c) (λ r s', answers m r s s') E s.
Proof.
  intros Hno Hs Hc. apply replying_spec. wp_step. wp_step. destruct (fids s !! fid) as [h|] eqn:Hf; [by apply Hc|].
  wp_step. destruct Hno as [Hno|[? ?]]; [|done]. split_and!; [done|done|apply later_refl|done].
Qed.

Lemma later_stays X s s' : stays X s s' → later (world s) (world s').
Proof. by intros (_ & ? & _). Qed.
Hint Resolve later_stays later_trans : core.

Lemma stays_trans X s1 s2 s3 : stays X s1 s2 → stays X s2 s3 → stays X s1 s3.
Proof. intros (? & ? & ? & ?) (? & ? & ? & ?). split_and!; [done|by eapply later_trans|done|congruence]. Qed.

(** Requests that leave the table as it is. *)
Definition plain (m : Msg) : Prop := ∀ r X X', fids_change m r X X' ↔ X' = X.

Lemma stays_answers m r s s' :
  plain m → tag_of r = tag_of m → stays (dom (fids s)) s s' → answers m r s s'.
Proof. intros Hp Ht (Hs' & Hl & Hd & _). split_and!; [done|done|done|]. by apply Hp. Qed.

(** A method, and a reply made of its result. *)
Lemma plain_method {A} m fid (c : M (W * H) A) Q (reply : A → M Server Msg) E s :
  plain m → server_ok s →
  (∀ h, fids s !! fid = Some h → fine_handle c Q (world s) h) →
  (∀ a s', stays (dom (fids s)) s s' → is_Some (fids s' !! fid) →
     wp (reply a) (λ r s'', tag_of r = tag_of m ∧ s'' = s') (λ _ _, False) s') →
  wp (with_fid (tag_of m) fid (λ _, a ← on_fid fid c; reply a)) (λ r s', answers m r s s') E s.
Proof.
  intros Hp Hs Hc Hr. apply with_fid_spec; [left; by apply Hp|done|]. intros h Hf. wp_step.
  eapply wp_mono; [eapply on_fid_fine; [done|done|by apply Hc]|..]; cbn beta.
  - intros a s1 (Hst & Hi & _). eapply wp_mono; [by apply Hr| |done]; cbn beta. intros r s2 [Ht ->]. by apply stays_answers.
  - intros e s1 [Hst _]. by apply stays_answers.
Qed.

Lemma AddFid_spec X fid h s0 s :
  stays X s0 s → handle_ok (world s) h →
  wp (AddFid fid h)
    (λ _ s', stays ({[fid]} ∪ X) s0 s' ∧ fid ∉ X ∧ fid ≠ NOFID ∧ world s' = world s)
    (λ e s', s' = s ∧ (fid = NOFID ∨ fid ∈ X)) s.
Proof.
  intros (Hs & Hl & Hd & Hn) Hh. unfold AddFid. case_bool_decide as Hno; [wp_step; auto|]. wp_step. wp_step.
  destruct (fids s !! fid) as [h'|] eqn:Hf; wp_step.
  - split; [done|right]. rewrite <-Hd. by apply elem_of_dom.
  - assert (fid ∉ X) by (rewrite <-Hd; by apply not_elem_of_dom). split_and!; [|done|done|done].
    split_and!; [|done|simpl; rewrite dom_insert_L; by rewrite Hd|done].
    destruct Hs as [Hw Hnf Hhs]. split; simpl; [done|set_solver|]. by apply map_Forall_insert_2.
Qed.

Lemma handleVersion_spec s tag size version :
  server_ok s → wp (handleVersion tag size version) (λ r s', answers (Tversion tag size version) r s s') (λ _ _, False) s.
Proof.
  intros Hs. unfold handleVersion. case_bool_decide; wp_steps.
  - split_and!; [done|done|apply later_refl|done].
  - split_and!; [done|by destruct Hs|apply later_refl|done].
Qed.

Lemma handleAttach_spec s tag fid afid uname aname :
  server_ok s →
  wp (handleAttach attachFunc tag fid afid aname) (λ r s', answers (Tattach tag fid afid uname aname) r s s') (λ _ _, False) s.
Proof.
  intros Hs. unfold handleAttach. apply replying_spec.
  assert (Hfail : ∀ e s', stays (dom (fids s)) s s' → answers (Tattach tag fid afid uname aname) (MakeError tag (error_text e)) s s').
  { intros e s' (? & ? & Hd & _). split_and!; [done|done|done|]. left. split; [done|apply error_is]. }
  case_bool_decide; [wp_step; by apply Hfail, stays_refl|]. wp_step.
  eapply wp_mono; [eapply on_world_fine; [done|apply attach_law, Hs]|..]; cbn beta; [|auto].
  intros root s1 (S1 & Hf1 & Hroot). wp_step. rewrite <-Hf1 in *.
  eapply wp_mono; [eapply on_world_fine; [apply S1|apply NewHandle_law; [apply S1|done]]|..]; cbn beta;
    [|intros e s2 S2; apply Hfail; eapply stays_trans; [exact S1|exact S2]].
  intros fh s2 (S2 & Hf2 & Hfh). assert (S12 := stays_trans _ _ _ _ S1 S2). wp_step.
  eapply wp_mono; [by eapply AddFid_spec|..]; cbn beta; [|intros e s3 [-> _]; by apply Hfail].
  intros _ s3 (S3 & Hnew & Hno & Hw3). wp_step.
  assert (Hadd : ∀ r s4, tag_of r = tag → stays ({[fid]} ∪ dom (fids s1)) s s4 → answers (Tattach tag fid afid uname aname) r s s4).
  { intros r s4 Ht (? & ? & Hd & _). split_and!; [done|done|done|]. right. by rewrite Hd, Hf1 in *. }
  assert (Hd3 : dom (fids s3) = {[fid]} ∪ dom (fids s1)) by apply S3.
  eapply wp_mono; [eapply on_world_fine; [apply S3|apply Qid_law; [apply S3|]]|..]; cbn beta.
  - rewrite Hw3. eapply file_later; [exact (later_stays _ _ _ S2)|exact Hroot].
  - intros qid s4 (S4 & _). wp_step. apply Hadd; [done|]. rewrite Hd3 in S4. by eapply stays_trans.
  - intros e s4 S4. apply Hadd; [done|]. rewrite Hd3 in S4. by eapply stays_trans.
Qed.

Lemma iounit_spec fid s :
  is_Some (fids s !! fid) → wp (iounit fid) (λ _ s', s' = s) (λ _ _, False) s.
Proof. intros [h Hf]. unfold iounit. wp_step. wp_step. rewrite Hf. by wp_step. Qed.

(** The fid is replaced by the file walked to, or a new one is made. *)
Lemma handleWalk_spec s tag fid newFid names :
  server_ok s → (∀ h, fids s !! fid = Some h → may_walk (world s) h names) →
  wp (handleWalk tag fid newFid names) (λ r s', answers (Twalk tag fid newFid names) r s s') (λ _ _, False) s.
Proof.
  intros Hs Hmay. set (m := Twalk tag fid newFid names).
  assert (Hstay : ∀ r s', tag_of r = tag → stays (dom (fids s)) s s' → answers m r s s').
  { intros r s' Ht (? & ? & Hd & _). split_and!; [done|done|done|]. by left. }
  unfold handleWalk. apply (with_fid_spec m); [left; by left|done|]. intros h Hf. wp_step.
  eapply wp_mono; [eapply on_fid_fine; [done|done|apply Twalk_law; [apply Hs|by apply (so_handles _ Hs fid)|by apply Hmay]]|..];
    cbn beta; [|intros e s1 [S1 _]; by apply Hstay].
  intros [f wqids] s1 (S1 & Hi1 & Hfile). destruct f as [f|]; [|wp_step; by apply Hstay].
  assert (Hd1 : dom (fids s1) = dom (fids s)) by apply S1. wp_step.
  eapply wp_mono; [eapply on_world_fine; [apply S1|apply NewHandle_law; [apply S1|by apply Hfile]]|..]; cbn beta;
    [|intros e s2 S2; apply Hstay; [done|]; rewrite Hd1 in S2; by eapply stays_trans].
  intros newfh s2 (S2 & Hf2 & Hh2). rewrite Hd1 in S2. assert (S02 := stays_trans _ _ _ _ S1 S2).
  assert (Hin : fid ∈ dom (fids s)) by (by apply elem_of_dom).
  assert (Hadd : ∀ s3, stays ({[newFid]} ∪ dom (fids s)) s s3 → (newFid = fid ∨ newFid ∉ dom (fids s)) → newFid ≠ NOFID →
    answers m (Rwalk tag wqids) s s3).
  { intros s3 (? & ? & Hd & _) Hn Hno. split_and!; [done|done|done|]. right. split_and!; try done. by intros (? & ? & ?). }
  case_bool_decide as Hsame.
  - (* the old handle goes first *)
    subst newFid. rewrite <-Hf2 in Hi1. destruct Hi1 as [h1 Hh1]. wp_step. wp_step. wp_step.
    assert (S2' : server_ok s2) by apply S2. assert (Hd2 : dom (fids s2) = dom (fids s)) by apply S2.
    assert (Hdel : ∀ s3, stays (dom (fids s2)) s2 s3 →
      wp (modify (λ s, set_fids (delete fid (fids s)) s);; AddFid fid newfh;; mret (Rwalk tag wqids))
        (λ r s', answers m r s s') (λ _ s', False) s3).
    { intros s3 S3. assert (S03 : stays (dom (fids s)) s s3) by (rewrite Hd2 in S3; by eapply stays_trans).
      wp_step. wp_step. wp_step.
      eapply wp_mono; [eapply (AddFid_spec (dom (fids s) ∖ {[fid]}) fid newfh s)|..]; cbn beta.
      - destruct S03 as ([Hw3 Hn3 Hh3] & L3 & D3 & N3). split_and!; [|done|simpl; by rewrite dom_delete_L, D3|done].
        split; simpl; [done|rewrite dom_delete_L; set_solver|by apply map_Forall_delete].
      - simpl. eapply handle_later; [exact (later_stays _ _ _ S3)|exact Hh2].
      - intros _ s4 (S4 & _ & Hno & _). wp_step. apply Hadd; [|by left|done].
        by replace ({[fid]} ∪ dom (fids s) ∖ {[fid]}) with ({[fid]} ∪ dom (fids s)) in S4
          by (apply set_eq; intros i; destruct (decide (i = fid)); set_solver).
      - intros e s4 [_ [Hno|Hno]]; [by eapply (fid_not_nofid s fid)|set_solver]. }
    eapply wp_mono; [eapply on_fid_fine; [exact S2'|exact Hh1|apply Clunk_law; [apply S2'|by apply (so_handles _ S2' fid)]]|..];
      cbn beta; intros ? s3 (S3 & _); wp_step; (eapply wp_mono; [by apply Hdel|done|done]).
  - wp_step. wp_step. wp_step.
    eapply wp_mono; [by eapply AddFid_spec|..]; cbn beta.
    + intros _ s3 (S3 & Hnew & Hno & _). wp_step. apply Hadd; auto.
    + intros e s3 [-> _]. by apply Hstay.
Qed.

Lemma handle_there s fid h : server_ok s → fids s !! fid = Some h → handle_ok (world s) h.
Proof. intros Hs Hf. exact (so_handles _ Hs fid h Hf). Qed.

(** Requests that a method answers. *)
Lemma handleOpen_spec s tag fid mode :
  server_ok s → wp (handleOpen tag fid mode) (λ r s', answers (Topen tag fid mode) r s s') (λ _ _, False) s.
Proof.
  intros Hs. unfold handleOpen. apply (plain_method (Topen tag fid mode) fid _ (λ _ _, True)); [done|done|..].
  - intros h Hf. apply Topen_law; [apply Hs|by eapply handle_there].
  - intros qid s1 _ Hi. wp_step. eapply wp_mono; [by apply iounit_spec| |done]; cbn beta. intros n s2 ->. by wp_step.
Qed.

Lemma handleWrite_spec s tag fid off data :
  server_ok s → wp (handleWrite tag fid off data) (λ r s', answers (Twrite tag fid off data) r s s') (λ _ _, False) s.
Proof.
  intros Hs. unfold handleWrite. apply (plain_method (Twrite tag fid off data) fid _ (λ _ _, True)); [done|done|..].
  - intros h Hf. apply Twrite_law; [apply Hs|by eapply handle_there].
  - intros n s1 _ _. by wp_step.
Qed.

Lemma handleStat_spec s tag fid :
  server_ok s → wp (handleStat tag fid) (λ r s', answers (Tstat tag fid) r s s') (λ _ _, False) s.
Proof.
  intros Hs. unfold handleStat. apply (plain_method (Tstat tag fid) fid _ (λ _ _, True)); [done|done|..].
  - intros h Hf. apply Tstat_law; [apply Hs|by eapply handle_there].
  - intros st s1 _ _. by wp_step.
Qed.

Lemma handleRead_spec s tag fid off count :
  server_ok s → request_ok s (Tread tag fid off count) →
  wp (handleRead tag fid off count) (λ r s', answers (Tread tag fid off count) r s s') (λ _ _, False) s.
Proof.
  intros Hs Hmay. unfold handleRead. apply (with_fid_spec (Tread tag fid off count)); [by left|done|].
  intros h Hf. wp_step. wp_step. wp_step.
  eapply wp_mono; [eapply on_fid_fine; [done|done|apply Tread_law; [apply Hs|by eapply handle_there|exact Hmay]]|..];
    cbn beta.
  - intros data s1 (S1 & _). wp_step. by apply stays_answers.
  - intros e s1 (S1 & _). by apply stays_answers.
Qed.

Lemma handleWStat_spec s tag fid st :
  server_ok s → wp (handleWStat tag fid st) (λ r s', answers (Twstat tag fid st) r s s') (λ _ _, False) s.
Proof.
  intros Hs. unfold handleWStat. apply (with_fid_spec (Twstat tag fid st)); [by left|done|]. intros h Hf.
  destruct (validFileName (s_Name st)); simpl; [|wp_step; apply stays_answers; [done|done|by apply stays_refl]].
  wp_step. eapply wp_mono; [eapply on_fid_fine; [done|done|apply Twstat_law; [apply Hs|by eapply handle_there]]|..]; cbn beta.
  - intros [] s1 (S1 & _). wp_step. by apply stays_answers.
  - intros e s1 (S1 & _). by apply stays_answers.
Qed.

Lemma handleCreate_spec s tag fid name perm mode :
  server_ok s →
  wp (handleCreate tag fid name perm mode) (λ r s', answers (Tcreate tag fid name perm mode) r s s') (λ _ _, False) s.
Proof.
  intros Hs. set (m := Tcreate tag fid name perm mode). unfold handleCreate. apply (with_fid_spec m); [by left|done|]. intros h Hf.
  assert (Hst : ∀ r s', tag_of r = tag → stays (dom (fids s)) s s' → answers m r s s') by (intros; by apply stays_answers).
  destruct (validFileName name); simpl; [|wp_step; apply Hst; [done|by apply stays_refl]].
  wp_step. eapply wp_mono; [eapply on_fid_fine; [done|done|apply Tcreate_law; [apply Hs|by eapply handle_there]]|..]; cbn beta;
    [|intros e s1 (S1 & _); by apply Hst].
  intros nh s1 (S1 & Hi1 & Hnh). assert (Hd1 : dom (fids s1) = dom (fids s)) by apply S1. wp_step.
  eapply wp_mono; [eapply (on_loose_fine nh _ (λ r w, file_ok w r.1 ∧ handle_ok w r.2)); [apply S1|]|..]; cbn beta.
  - unfold fine_handle. wp_step. eapply wp_mono; [apply GetFile_law; [apply S1|done]|..]; cbn beta; [|done].
    intros f [w' h'] (? & ? & ? & ?). wp_steps. simpl in *. done.
  - intros [f nh'] s2 (S2 & Hf2 & Hfile & Hnh'). simpl in *. rewrite Hd1 in S2.
    assert (S02 := stays_trans _ _ _ _ S1 S2). rewrite <-Hf2 in Hi1. wp_step.
    assert (Hd2 : dom (fids s2) = dom (fids s)) by apply S2.
    eapply wp_mono; [eapply on_world_fine; [apply S2|apply Qid_law; [apply S2|done]]|..]; cbn beta; rewrite Hd2;
      [|intros e s3 S3; apply Hst; [done|by eapply stays_trans]].
    intros qid s3 (S3 & Hf3 & _). rewrite <-Hf3 in Hi1. destruct Hi1 as [h3 Hh3]. wp_step. wp_step.
    assert (S03 := stays_trans _ _ _ _ S02 S3). assert (Hd3 : dom (fids s3) = dom (fids s)) by apply S3.
    assert (Hok3 : server_ok s3) by apply S3.
    eapply wp_mono; [eapply on_fid_fine; [done|done|apply Clunk_law; [apply Hok3|by eapply handle_there]]|..]; cbn beta; rewrite Hd3.
    all: intros ? s4 (S4 & _); wp_step; wp_step; assert (S04 := stays_trans _ _ _ _ S03 S4); wp_step;
      (eapply wp_mono; [apply iounit_spec; simpl; rewrite lookup_insert_eq; by eexists| |done]; cbn beta);
      intros n s5 ->; wp_step; apply Hst; [done|].
    all: assert (handle_ok (world s4) nh') by (eapply handle_later; [|exact Hnh']; eapply later_trans; by eapply later_stays).
    all: pose proof S04 as (Hok4 & L4 & D4 & N4); pose proof (fid_not_nofid _ _ _ Hs Hf).
    all: split_and!; [|done|simpl; rewrite dom_insert_L, D4; apply elem_of_dom_2 in Hf; set_solver|done].
    all: destruct Hok4 as [Hw4 Hn4 Hh4]; split; simpl; [done|set_solver|by apply map_Forall_insert_2].
  - intros e s2 (S2 & _). rewrite Hd1 in S2. apply Hst; [done|by eapply stays_trans].
Qed.

(** Requests that give a fid up, whatever the handle says. *)
Lemma handle_drop_spec {A} m fid (c : M (W * H) A) reply s :
  (∀ r X X', fids_change m r X X' ↔ X' = X ∖ {[fid]}) → tag_of reply = tag_of m → server_ok s →
  (∀ h, fids s !! fid = Some h → fine_handle c (λ _ _, True) (world s) h) →
  wp (with_fid (tag_of m) fid (λ fh, modify (λ s, set_fids (delete fid (fids s)) s);; on_loose fh c;; mret reply))
    (λ r s', answers m r s s') (λ _ _, False) s.
Proof.
  intros Hm Ht Hs Hc. apply (with_fid_spec m); [|done|].
  - rewrite Hm. destruct (fids s !! fid) as [h|] eqn:Hf; [right; by eexists|left].
    apply not_elem_of_dom in Hf. set_solver.
  - intros h Hf. wp_step. wp_step. wp_step. set (s1 := set_fids _ s).
    assert (Hs1 : server_ok s1).
    { destruct Hs as [Hw Hn Hh]. split; simpl; [done|rewrite dom_delete_L; set_solver|by apply map_Forall_delete]. }
    assert (Hd1 : dom (fids s1) = dom (fids s) ∖ {[fid]}) by (simpl; apply dom_delete_L).
    assert (Hend : ∀ r s2, tag_of r = tag_of m → stays (dom (fids s1)) s1 s2 → answers m r s s2).
    { intros r s2 Hr (Hok & Hl & Hd & _). split_and!; [done|done|done|]. apply Hm. by rewrite Hd, Hd1. }
    eapply wp_mono; [eapply on_loose_fine; [exact Hs1|by apply Hc]|..]; cbn beta.
    + intros a s2 (S2 & _). wp_step. by apply Hend.
    + intros e s2 (S2 & _). by apply Hend.
Qed.

(** ** All requests *)

(** Every request that the server knows is answered, under its tag; the invariant is
    kept, also when a method fails; the fids in use change as the request says. *)
Lemma dispatch_spec s m :
  server_ok s → request_ok s m →
  wp (dispatch attachFunc m)
    (λ r s', tag_of r = tag_of m ∧ server_ok s' ∧ later (world s) (world s') ∧
             fids_change m r (dom (fids s)) (dom (fids s')))
    (λ e s', e = ENew "bad message" ∧ s' = s) s.
Proof.
  intros Hs Hm. change (wp (dispatch attachFunc m) (λ r s', answers m r s s') (λ e s', e = ENew "bad message" ∧ s' = s) s).
  destruct m; cbn [dispatch]; try (by wp_step);
    (eapply (wp_mono _ (λ r s', answers _ r s s') _ (λ _ _, False)); [|intros r s' Hr; exact Hr|done]).
  - by apply handleVersion_spec.
  - wp_step. by apply stays_answers, stays_refl.
  - by apply handleAttach_spec.
  - by apply handleRead_spec.
  - by apply handleWrite_spec.
  - apply (handle_drop_spec (Tclunk Tag Fid)); [done|done|done|]. intros h Hf. apply Clunk_law; [apply Hs|by eapply handle_there].
  - apply (handle_drop_spec (Tremove Tag Fid)); [done|done|done|]. intros h Hf. apply Tremove_law; [apply Hs|by eapply handle_there].
  - by apply handleOpen_spec.
  - by apply handleCreate_spec.
  - by apply handleStat_spec.
  - by apply handleWStat_spec.
  - by apply handleWalk_spec.
Qed.
End Server.
