(* ===== verification/P9Tree.v ===== *)
(** What the 9P files show of the stored tree: the entries of a directory in order, the bytes of a
    file, and the node a path names. *)

From Stdlib Require Import ZArith Lia.
From stdpp Require Import base list gmap strings.
From coqutil Require Import Byte.
From S2P Require Import Prelude Io Proto9 Proto9Props Server9.
From S2P Require Import Store Htree HtreeSpec HtreeWrite HtreeRead HtreeProps Fs FsProps FsTree FsFile Refs Remote P9Files.

Set Default Goal Selector "!".

(** The stat of a file is what its entry and its qid say. *)
Definition ent_stat (q : Qid) (e : DirEnt) : Stat :=
  let mode := Z.land (EntMode e) 0x1FF in
  mkStat 0 0 q (if Fs.IsDir e then Z.lor mode DMDIR else mode) 0 0 (u64 (EntSize e)) (EntName e)
    (str "nobody") (str "nobody") (str "nobody").

(** The file that [CreateFile] makes of an entry. *)
Definition made (r : nat) (ent : DirEnt) (parent : option file) (path : bytes) (f : file) : Prop :=
  f_fs f = r ∧ f_ent f = ent ∧ f_parent f = parent ∧ f_path f = path ∧ f_stat f = ent_stat (f_qid f) ent ∧
  q_Type (f_qid f) = (if Fs.IsDir ent then QTDIR else QTFILE) ∧ valid_qid (f_qid f).

Lemma ent_stat_valid q e : valid_qid q → valid_ent e → valid_stat (ent_stat q e).
Proof.
  intros Hq (Hn & _ & _ & Hm & _). unfold valid_stat, fit, fits_str. simpl.
  assert (Hland : (0 ≤ Z.land (EntMode e) 511 < 2 ^ 9)%Z).
  { change 511%Z with (Z.ones 9). rewrite Z.land_ones by lia. apply Z.mod_pos_bound. lia. }
  assert (Hmode : (0 ≤ (if Fs.IsDir e then Z.lor (Z.land (EntMode e) 511) DMDIR else Z.land (EntMode e) 511) < 2 ^ 32)%Z).
  { destruct (Fs.IsDir e); [change DMDIR with ModeDir; apply mode_lor_range; lia|lia]. }
  assert (Hsz' := wrap_range 64 (EntSize e) ltac:(lia)). unfold valid_qid, fit in *. simpl in *.
  split_and!; (lia || apply Hq || done).
Qed.

(** ** Packing stats *)

Definition stats_bytes (stats : list Stat) : bytes := concat (enc_stat <$> stats).

Lemma stats_bytes_cons st stats : stats_bytes (st :: stats) = enc_stat st ++ stats_bytes stats.
Proof. done. Qed.

Lemma StatLen_small st : valid_stat st → StatLen st < Z.to_nat (2 ^ 19).
Proof.
  intros (_ & _ & _ & _ & _ & _ & _ & Hn & Hu & Hg & Hm). unfold StatLen, QidSize, fits_str in *.
  rewrite !truncstrlen_fits by done. lia.
Qed.

(** Whole stats, in order, as many as there is room for, at least one. *)
Lemma pack_stats_spec stats : ∀ pre room,
  Forall valid_stat stats → (Z.of_nat (length (pre ++ room)) < 2 ^ 31)%Z →
  wp (pack_stats (Z.of_nat (length pre)) stats)
    (λ r buf, ∃ now rest, stats = now ++ rest ∧ r = (Z.of_nat (length (pre ++ stats_bytes now)), rest) ∧
       buf = pre ++ stats_bytes now ++ drop (length (stats_bytes now)) room ∧
       length (stats_bytes now) ≤ length room ∧ (pre = [] → stats ≠ [] → now ≠ []))
    (λ e _, e = ErrBuffTooSmall ∧ pre = [] ∧ ∃ st, head stats = Some st ∧ length room < StatLen st)
    (pre ++ room).
Proof.
  induction stats as [|st stats IH]; intros pre room Hv Hlen; cbn [pack_stats].
  { wp_step. exists [], []. simpl. rewrite drop_0, app_nil_r. split_and!; (done || lia). }
  apply Forall_cons in Hv as [Hst Hv]. pose proof (StatLen_small st Hst) as Hsl.
  pose proof (length_enc_stat st Hst) as Hes. wp_step. wp_step.
  rewrite length_app in Hlen. rewrite (wrap_small 32 (Z.of_nat (StatLen st))) by lia.
  rewrite !(wrap_small 32 (_ + _)) by lia. case_bool_decide as Hbig.
  - rewrite length_app in Hbig. case_bool_decide as Hz; wp_step.
    + split_and!; [done|destruct pre; [done|simpl in Hz; lia]|]. exists st. split; [done|lia].
    + exists [], (st :: stats). simpl. rewrite app_nil_r, drop_0. split_and!; try done; [lia|]. by intros ->.
  - rewrite length_app in Hbig. wp_step.
    apply (wp_at_slice _ _ _ _ _ _ _ _ (PackStat_packs st Hst)); [lia|lia|lia|].
    replace (Z.of_nat (length pre) + Z.of_nat (StatLen st))%Z with (Z.of_nat (length (pre ++ enc_stat st)))
      by (rewrite length_app; lia).
    eapply wp_mono; [apply (IH (pre ++ enc_stat st) (drop (length (enc_stat st)) room)); [done|]|..]; cbn beta.
    + rewrite !length_app, length_drop. lia.
    + intros r buf (now & rest & -> & -> & -> & Hle & _). exists (st :: now), rest.
      rewrite length_drop in Hle. rewrite stats_bytes_cons. split_and!; [done|by rewrite <-app_assoc| | |done].
      * rewrite <-!app_assoc, drop_drop, !length_app. done.
      * rewrite length_app. lia.
    + intros e b (_ & Hnil & _). apply app_eq_nil in Hnil as [_ Hnil]. rewrite Hnil in Hes. unfold StatLen in Hes. simpl in Hes. lia.
Qed.

Section Tree.
Context {P : Params} {Pok : ParamsOk} {St : Type} `{CStoreLaws St} {R : Type} `{RemoteClient R}.
Variables (sz : nat → nat) (fuel : nat) (HMAC : bytes → bytes → bytes) (key : Key) (clock : nat → Z).
Hypothesis Hsz : ∀ i, 1 ≤ sz i.
Hypothesis Heof : ¬ get_fails EOF.

Abbreviation World := (World (St := St) (R := R)).
Abbreviation handle9 := (handle9 (St := St)).
Implicit Types (s : St) (w : World) (h : handle9).

(** A reader of [data] that has [rest] still to deliver. *)
Definition reads s (data : bytes) (r : Reader St) (rest : bytes) : Prop :=
  stream (some_size data) (r_set_store s r) rest ∧ progress (some_size data) r.

Lemma stream_set_store minsz (r : Reader St) s' rest :
  keeps (r_store r) s' → stream minsz r rest → stream minsz (r_set_store s' r) rest.
Proof.
  intros Hk (Hst & body & R0 & Hb & Hp & ->). split; [by apply steady_store|]. exists body, R0.
  split_and!; [done| |done]. by eapply rpend_keeps.
Qed.

Lemma reads_keeps s s' data r rest : keeps s s' → reads s data r rest → reads s' data r rest.
Proof.
  intros Hk [Hs Hp]. split; [|done].
  change (r_set_store s' r) with (r_set_store s' (r_set_store s r)). by apply stream_set_store.
Qed.

(** ** What reading leaves true of the store *)
Section Preserved.
Variable I : St → Prop.
Hypothesis Get_I : ∀ hash s, I s → I (Get hash s).2.
Definition preserves {A} (c : M (Reader St) A) : Prop := ∀ r, I (r_store r) → I (r_store (c r).2).

Lemma pr_bind {A B} (c : M (Reader St) A) (k : A → M (Reader St) B) :
  preserves c → (∀ a, preserves (k a)) → preserves (c ≫= k).
Proof.
  intros Hc Hk r Hr. unfold mbind, M_bind. specialize (Hc r Hr). destruct (c r) as [[a|e| |] r']; simpl in *; try done.
  by apply Hk.
Qed.
Lemma pr_pure {A} (f : Reader St → outcome A) : preserves (λ r, (f r, r)).
Proof. by intros r. Qed.
Lemma pr_try {A} (c : M (Reader St) A) : preserves c → preserves (try c).
Proof. intros Hc r Hr. unfold try. specialize (Hc r Hr). by destruct (c r) as [[] ?]. Qed.
Lemma pr_get hash : preserves (r_get hash).
Proof.
  intros r Hr. unfold r_get, zoom. pose proof (Get_I hash (r_store r) Hr). by destruct (Get hash (r_store r)).
Qed.

Ltac pr :=
  repeat lazymatch goal with
  | |- preserves (_ ≫= _) => apply pr_bind; [|intros ?]
  | |- preserves (r_get _) => apply pr_get
  | |- preserves (try _) => apply pr_try
  | |- preserves (if bool_decide _ then _ else _) => case_bool_decide
  | |- preserves (if ?b then _ else _) => destruct b
  | |- preserves (match ?x with inl _ => _ | inr _ => _ end) => destruct x
  | |- preserves (next_from _ _) => fail
  | |- preserves (Htree.Read _) => fail
  | |- preserves (ReadAll_from _ _ _) => fail
  | |- preserves _ =>
    first [apply pr_pure | (by intros ? ?)
          | progress unfold leaf_window, r_row, r_posn, r_len, r_set_posn, r_set_len, r_set_row,
              next, load_child, load_root, GetHeight]
  end.

Lemma pr_next k lvl : preserves (next_from k lvl).
Proof. revert lvl. induction k as [|k IH]; intros lvl; [apply pr_pure|]. cbn [next_from]. pr. apply IH. Qed.
Lemma pr_Read n : preserves (Htree.Read n).
Proof. unfold Htree.Read. pr. apply pr_next. Qed.
Lemma pr_ReadAll k i : preserves (ReadAll_from sz k i).
Proof. revert i. induction k as [|k IH]; intros i; [apply pr_pure|]. cbn [ReadAll_from]. pr; [apply pr_Read|apply IH]. Qed.
Lemma pr_NewReader : preserves NewReader.
Proof. unfold NewReader. pr. Qed.

Lemma pr_with_reader {A} root (c : M (Reader St) A) s : preserves c → I s → I (with_reader root c s).2.
Proof.
  intros Hc Hs. unfold with_reader. pose proof (pr_bind _ _ pr_NewReader (λ _, Hc) (blank_reader s root) Hs) as Hr.
  by destruct ((NewReader;; c) (blank_reader s root)).
Qed.

Lemma pr_ReadDir root s : I s → I (ReadDir sz fuel root s).2.
Proof.
  intros Hs. unfold ReadDir, mbind, M_bind, lift.
  pose proof (pr_with_reader root (d ← ReadAll_from sz fuel 0; n ← GetHeight; mret (d, n)) s) as Hr.
  destruct (with_reader root _ s) as [[[d n]|e| |] s']; simpl in *.
  - assert (I s') by (apply Hr; [pr; apply pr_ReadAll|done]).
    destruct (decode_dir (length d) d) as [dir|e| |]; simpl; try done. destruct (idx dir 0); done.
  - apply Hr; [pr; apply pr_ReadAll|done].
  - apply Hr; [pr; apply pr_ReadAll|done].
  - apply Hr; [pr; apply pr_ReadAll|done].
Qed.

Lemma pr_GetRef root s : I s → I (GetRef sz fuel root s).2.
Proof.
  intros Hs. unfold GetRef, mbind, M_bind, lift, try.
  pose proof (pr_with_reader root (ReadAll_from sz fuel 0) s (pr_ReadAll fuel 0) Hs) as Hr.
  destruct (with_reader root _ s) as [[d|e| |] s']; simpl in *; try done.
Qed.

(** What only reads the store. *)
Definition only_store w w' : Prop :=
  keeps (w_store w) (w_store w') ∧ I (w_store w') ∧ w' = mkWorld (w_store w') (w_remote w) (w_fss w) (w_clock w).

(** A file hands out the next bytes of its stream, at least one while there are any; a
    read that fails can be tried again. *)
Lemma Tread_file_spec f rdr data rest off count n w :
  I (w_store w) → reads (w_store w) data rdr rest →
  wp (Tread9 sz fuel HMAC key clock off count n)
    (λ b x, only_store w x.1 ∧
       ∃ rdr' rest', x.2 = HFile f (Some rdr') ∧ reads (w_store x.1) data rdr' rest' ∧ rest = b ++ rest' ∧
         length b ≤ n ∧ (1 ≤ n → b = [] → rest = []))
    (λ e x, get_fails e ∧ only_store w x.1 ∧
       ∃ rdr', x.2 = HFile f (Some rdr') ∧ reads (w_store x.1) data rdr' rest)
    (w, HFile f (Some rdr)).
Proof.
  intros Hw [Hs Hp]. unfold Tread9. wp_step. wp_step. simpl. autounfold with p9. wp_step. wp_step. unfold with_rdr. wp_step. simpl.
  pose proof (pr_Read n (r_set_store (w_store w) rdr) Hw) as Hz.
  pose proof (Read_retry _ _ _ n Hs) as Hr. unfold wp in Hr.
  unfold wp. destruct (Htree.Read n (r_set_store (w_store w) rdr)) as [[b|e| |] r']; try done; simpl in *.
  - destruct Hr as (R' & -> & Hs' & _ & Hh & Hk & _ & Hlen & Hne). split; [by split_and!|].
    exists r', R'. split_and!; [done|split; [by destruct r'|unfold progress in *; simpl in *; by rewrite Hh]|done|done|].
    intros Hn ->. by destruct (Hne Hp Hn).
  - destruct Hr as (He & Hs' & _ & Hh & _ & Hk).
    assert (Hrd : reads (r_store r') data r' rest).
    { split; [by destruct r'|]. unfold progress in *. simpl in *. by rewrite Hh. }
    case_bool_decide as Heo; simpl.
    + destruct He as [[_ ->]|He]; [|by subst e]. split; [by split_and!|]. exists r', []. split_and!; try done. simpl. lia.
    + destruct He as [[-> _]|He]; [done|]. split_and!; [done|by split_and!|]. by exists r'.
Qed.

(** [Topen] makes a reader at the start of the file. *)
Lemma Topen_file_spec f rdr mode data w :
  I (w_store w) → file_content (w_store w) (EntHTree (f_ent f)) data →
  wp (Topen9 sz fuel HMAC key clock mode)
    (λ q x, q = f_qid f ∧ only_store w x.1 ∧ ∃ rdr', x.2 = HFile f (Some rdr') ∧ reads (w_store x.1) data rdr' data)
    (λ e x, get_fails e ∧ only_store w x.1 ∧ x.2 = HFile f None)
    (w, HFile f rdr).
Proof.
  intros Hw (Ht & Hlvl & Hnil & _). unfold Topen9. wp_step. wp_step. simpl. autounfold with p9. unfold set_handle.
  wp_step. wp_step. wp_step. wp_step. unfold wp at 1. simpl.
  set (br := blank_reader (w_store w) (Data (EntHTree (f_ent f)))).
  pose proof (pr_NewReader br Hw) as Hz.
  pose proof (NewReader_keeps _ _ _ _ _ Ht Hlvl) as Hr. fold br in Hr. unfold wp in Hr.
  destruct (Htree.NewReader br) as [[[]|e| |] r']; try done; simpl in *.
  - destruct Hr as (Hs & _ & Hh & _ & Hk). wp_steps. split_and!; [done|by split_and!|]. exists r'.
    split; [done|]. split; [by destruct r'|]. apply progress_saved. by rewrite Hh.
  - destruct Hr as [He Hk]. split_and!; [done|by split_and!|done].
Qed.
End Preserved.

(** ** Reading on and on

    A client that reads with buffers of [ns] bytes, each time where the last read
    ended. *)
Fixpoint tread_seq (off : Z) (ns : list nat) : M (World * handle9) (list bytes) :=
  match ns with
  | [] => mret []
  | n :: ns =>
    b ← Tread9 sz fuel HMAC key clock off (Z.of_nat n) n;
    bs ← tread_seq (off + Z.of_nat (length b)) ns;
    mret (b :: bs)
  end.

Definition anything : St → Prop := λ _, True.

Lemma tread_file_seq f data ns : ∀ off rdr rest w,
  reads (w_store w) data rdr rest →
  wp (tread_seq off ns)
    (λ bs _, ∃ rest', rest = concat bs ++ rest' ∧ Forall2 (λ b n, length b ≤ n) bs ns ∧
       (Forall (λ n, 1 ≤ n) ns → length rest ≤ length ns → rest' = []))
    (λ e _, get_fails e) (w, HFile f (Some rdr)).
Proof.
  induction ns as [|n ns IH]; intros off rdr rest w Hr; cbn [tread_seq].
  { wp_step. exists rest. split_and!; [done|constructor|]. destruct rest; simpl; [done|lia]. }
  wp_step. eapply wp_mono; [by apply (Tread_file_spec anything ltac:(done) f rdr data rest)|..]; cbn beta; [|by intros ? ? [? _]].
  intros b [w1 h1] (_ & rdr' & rest' & Hx & Hr' & -> & Hlen & Hne). simpl in *. subst h1. wp_step.
  eapply wp_mono; [by apply IH|..]; cbn beta; [|done]. intros bs x (rest2 & -> & Hbs & Hall). wp_step.
  exists rest2. split_and!; [simpl; by rewrite app_assoc|by constructor|].
  intros [Hn Hns]%Forall_cons Hl. apply Hall; [done|]. rewrite length_app in Hl. simpl in Hl.
  destruct b as [|? b]; [|simpl in Hl; lia]. specialize (Hne Hn eq_refl). simpl in Hne. rewrite Hne. simpl. lia.
Qed.

(** ** Listing a directory *)

Definition versions_fit w : Prop := Forall (λ x, fit 4 (version x)) (w_fss w).

(** The shared state but for the counters of the [fs9]s and for what reading does to the store. *)
Definition frame w w' : Prop :=
  keeps (w_store w) (w_store w') ∧ w_remote w' = w_remote w ∧ length (w_fss w') = length (w_fss w) ∧
  (versions_fit w → versions_fit w').

Lemma frame_refl w : frame w w.
Proof. by split_and!. Qed.
Lemma frame_trans w1 w2 w3 : frame w1 w2 → frame w2 w3 → frame w1 w3.
Proof.
  intros (? & ? & ? & ?) (? & ? & ? & ?). split_and!; [by transitivity (w_store w2)|congruence|congruence|auto].
Qed.
Hint Resolve frame_refl frame_trans : core.

Lemma wp_get_fs r x (Q : fs9 → World → Prop) E w : w_fss w !! r = Some x → Q x w → wp (get_fs r) Q E w.
Proof. intros Hx HQ. unfold get_fs. wp_step. wp_step. eapply wp_lift_ok; [by apply idx_ok|done]. Qed.

Lemma CreateFile_made r ent parent path w :
  r < length (w_fss w) → versions_fit w → 
  wp (CreateFile r ent parent path) (λ f w', made r ent parent path f ∧ frame w w') (λ _ _, False) w.
Proof.
  intros [x Hx]%lookup_lt_is_Some Hv. unfold CreateFile, set_fs. wp_step. apply (wp_get_fs _ x); [done|]. wp_steps. pose proof (Forall_lookup_1 _ _ _ _ Hv Hx) as Hvx. cbn beta in Hvx.
  assert (Hc := wrap_range 64 (pathCounter x + 1) ltac:(lia)).
  split; [|split_and!; simpl; [done|done|by rewrite length_insert|intros _; by apply Forall_insert]].
  split_and!; try done; simpl. split_and!; [by destruct (Fs.IsDir ent)|done|exact Hc].
Qed.

Lemma create_children_made f ents : ∀ w,
  f_fs f < length (w_fss w) → versions_fit w →
  wp (create_children f ents)
    (λ cs w', Forall2 (λ e c, made (f_fs f) e (Some f) (path_Join (f_path f) (EntName e)) c) ents cs ∧ frame w w')
    (λ _ _, False) w.
Proof.
  induction ents as [|e ents IH]; intros w Hf Hv; cbn [create_children]; [wp_step; auto|].
  wp_step. eapply wp_mono; [by apply CreateFile_made| |done]; cbn beta. intros c w1 [Hc F1].
  pose proof F1 as (_ & _ & Hl1 & Hv1). wp_step.
  eapply wp_mono; [apply IH; [lia|auto]| |done]; cbn beta. intros cs w2 [Hcs F2]. wp_step. eauto.
Qed.

(** The children of a directory are the entries after the first, in order. *)
Lemma getChildren_made f t mode ents w :
  f_fs f < length (w_fss w) → versions_fit w → Fs.IsDir (f_ent f) = true →
  Data (EntHTree (f_ent f)) = Data t → dir_at fuel (w_store w) t mode ents →
  wp (getChildren sz fuel f)
    (λ cs w', Forall2 (λ e c, made (f_fs f) e (Some f) (path_Join (f_path f) (EntName e)) c) ents cs ∧ frame w w')
    (λ e w', get_fails e ∧ frame w w') w.
Proof.
  intros Hf Hv Hd Ht Hdir. unfold getChildren. rewrite Hd, Ht. simpl. wp_step. unfold on_store. wp_step.
  eapply wp_mono; [by apply (ReadDir_keeps sz fuel Hsz Heof)|..]; cbn beta; [|by intros e s' [? Hk]; split_and!].
  intros ? s' [-> Hk]. wp_step. eapply wp_lift_ok; [apply slice_ok; simpl; lia|]. simpl. rewrite drop_0, take_ge by lia.
  eapply wp_mono; [by apply create_children_made| |done]; cbn beta. intros cs w' [Hcs F].
  split; [done|]. eapply frame_trans; [|exact F]. by split_and!.
Qed.

(** The bytes a stat takes; the qid does not matter. *)
Definition stat_size (e : DirEnt) : nat := StatLen (ent_stat (mkQid 0 0 0) e).

(** The stats of files made of the entries. *)
Definition listing (ents : list DirEnt) (stats : list Stat) : Prop :=
  Forall2 (λ e st, st = ent_stat (s_Qid st) e ∧ valid_qid (s_Qid st)) ents stats.

Lemma made_listing r p paths ents cs :
  Forall2 (λ e c, made r e p (paths e) c) ents cs → listing ents (f_stat <$> cs).
Proof.
  intros Hcs. apply Forall2_fmap_r. eapply Forall2_impl; [exact Hcs|]. cbn beta.
  intros e c (_ & He & _ & _ & Hst & _ & Hq). simpl. rewrite Hst. by subst e.
Qed.

Lemma listing_valid ents stats : Forall valid_ent ents → listing ents stats → Forall valid_stat stats.
Proof.
  intros He Hl. apply (Forall2_Forall_r _ _ _ _ Hl). eapply Forall_impl; [exact He|]. cbn beta.
  intros e Hv st [-> Hq]. by apply ent_stat_valid.
Qed.

Lemma listing_sizes ents stats : listing ents stats → StatLen <$> stats = stat_size <$> ents.
Proof. induction 1 as [|e st ents stats [-> _] _ IH]; [done|]. rewrite !fmap_cons. by rewrite IH. Qed.

Definition may_read9 (n : nat) : Prop := (Z.of_nat n < 2 ^ 31)%Z.

(** What one read takes from [stats]. *)
Definition packed (n : nat) (stats now rest : list Stat) (b : bytes) : Prop :=
  stats = now ++ rest ∧ b = stats_bytes now ∧ length b ≤ n ∧ (stats ≠ [] → now ≠ []).
Definition too_small (n : nat) (stats : list Stat) (e : error) : Prop :=
  e = ErrBuffTooSmall ∧ ∃ st, st ∈ stats ∧ n < StatLen st.

Lemma pack_reply mk cur stats n Q E w h :
  Forall valid_stat stats → may_read9 n →
  (∀ now rest b, packed n stats now rest b → Q b (w, mk (u64 (cur + Z.of_nat (length b))) rest)) →
  (∀ e, too_small n stats e → E e (w, h)) →
  wp (if bool_decide (cur ≠ cur) then throw ErrBadRead
      else match pack_stats 0 stats (replicate n Byte.x00) with
           | (Ok (k, rest), buf) => set_handle (St := St) (R := R) (mk (u64 (cur + k)) rest);; mret (take (Z.to_nat k) buf)
           | (Err e, _) => throw e | (Panic, _) => panic | (OutOfFuel, _) => diverge
           end) Q E (w, h).
Proof.
  intros Hv Hn HQ HE. rewrite bool_decide_eq_false_2 by naive_solver.
  assert (Hp := pack_stats_spec stats [] (replicate n Byte.x00) Hv ltac:(rewrite app_nil_l, length_replicate; exact Hn)).
  rewrite app_nil_l in Hp. change (Z.of_nat (length [])) with 0%Z in Hp. unfold wp in Hp.
  destruct (pack_stats 0 stats _) as [[[k rest]|e| |] buf]; try done.
  - destruct Hp as (now & rest' & Hst & Hkr & -> & Hle & Hne). injection Hkr as -> ->. rewrite !app_nil_l.
    unfold set_handle. wp_steps. rewrite length_replicate in Hle.
    rewrite Nat2Z.id, take_app_length. apply (HQ now rest' (stats_bytes now)). by split_and!; auto.
  - wp_step. apply HE. destruct Hp as (-> & _ & st & Hh & Hl). split; [done|]. rewrite length_replicate in Hl.
    exists st. split; [|done]. destruct stats; [done|]. injection Hh as ->. apply list_elem_of_here.
Qed.

(** The reads after the first. *)
Lemma tread_dir_more f ns : ∀ cur stats w,
  (0 < cur)%Z → (cur + Z.of_nat (sum_list ns) < 2 ^ 64)%Z → Forall valid_stat stats → Forall may_read9 ns →
  wp (tread_seq cur ns)
    (λ bs _, ∃ groups rest, stats = concat groups ++ rest ∧ bs = stats_bytes <$> groups ∧
       (length stats ≤ length ns → rest = []))
    (λ e _, ∃ n, n ∈ ns ∧ too_small n stats e) (w, HDir f cur stats).
Proof.
  induction ns as [|n ns IH]; intros cur stats w Hcur Hsum Hv Hns; cbn [tread_seq].
  { wp_step. exists [], stats. split_and!; [done|done|]. destruct stats; simpl; [done|lia]. }
  apply Forall_cons in Hns as [Hn Hns]. cbn [sum_list_with] in Hsum. unfold id in Hsum at 1. wp_step. unfold Tread9. wp_step. wp_step. simpl. autounfold with p9.
  unfold read_dir. rewrite (bool_decide_eq_false_2 (cur = 0%Z)) by lia. wp_step. wp_step.
  apply (pack_reply (HDir f)); [done|done|..].
  - intros now rest b (Hst & Hb & Hlen & Hne). rewrite (wrap_small 64) by lia. wp_step.
    rewrite Hst in Hv. apply Forall_app in Hv as [_ Hvr].
    eapply wp_mono; [apply IH; [lia|lia|done|done]|..]; cbn beta.
    + intros bs x (groups & rest' & Hr & -> & Hall). wp_step. exists (now :: groups), rest'. split_and!.
      * rewrite Hst, Hr. simpl. by rewrite app_assoc.
      * by rewrite Hb.
      * intros Hl. apply Hall. rewrite Hst, length_app in Hl. simpl in Hl.
        destruct now as [|? now]; [|simpl in Hl; lia]. destruct rest; [simpl; lia|]. by destruct Hne; [rewrite Hst|].
    + intros e x (n' & Hn' & He & st & Hin & Hsl). exists n'. split; [by right|]. split; [done|]. exists st.
      rewrite Hst. set_solver.
  - intros e He. exists n. split; [by left|done].
Qed.

Lemma listing_some ents : ∃ stats, listing ents stats.
Proof.
  exists (ent_stat (mkQid 0 0 0) <$> ents). apply Forall2_fmap_r, Forall_Forall2_diag, Forall_forall. by intros e _.
Qed.

Lemma listing_too_small n ents stats e :
  listing ents stats → too_small n stats e → e = ErrBuffTooSmall ∧ ∃ x, x ∈ ents ∧ n < stat_size x.
Proof.
  intros Hl (He & st & Hin & Hs). split; [done|]. assert (Hin' : StatLen st ∈ StatLen <$> stats) by (by apply list_elem_of_fmap_2).
  rewrite (listing_sizes _ _ Hl) in Hin'. apply list_elem_of_fmap in Hin' as (x & Hx & Hxin). exists x. by rewrite <-Hx.
Qed.

Section Listing.
Variables (f : file) (t : HTree) (mode : Z) (ents : list DirEnt).
Hypothesis Hdir : Fs.IsDir (f_ent f) = true.
Hypothesis Ht : Data (EntHTree (f_ent f)) = Data t.

Definition listable w : Prop :=
  f_fs f < length (w_fss w) ∧ versions_fit w ∧ dir_at fuel (w_store w) t mode ents.

Lemma listable_frame w w' : frame w w' → listable w → listable w'.
Proof. intros (Hk & _ & Hl & Hv) (? & ? & ?). split_and!; [lia|auto|by eapply dir_at_keeps]. Qed.

(** The first read, which lists the directory again. *)
Lemma tread_dir_first st0 count n Q E w :
  listable w → may_read9 n →
  (∀ w' stats now rest b, frame w w' → listing ents stats → packed n stats now rest b →
     Q b (w', HDir f (u64 (Z.of_nat (length b))) rest)) →
  (∀ e x, get_fails e ∨ e = ErrBuffTooSmall ∧ (∃ x, x ∈ ents ∧ n < stat_size x) → E e x) →
  wp (Tread9 sz fuel HMAC key clock 0 count n) Q E (w, HDir f 0 st0).
Proof.
  intros (Hf & Hv & Hd) Hn HQ HE. unfold Tread9. wp_step. wp_step. simpl. autounfold with p9. unfold read_dir. wp_step.
  rewrite bool_decide_eq_true_2 by done. wp_step. unfold on_w9. wp_step. cbn [fst snd].
  eapply wp_mono; [by eapply getChildren_made|..]; cbn beta; [|intros e w' [He _]; apply HE; by left].
  intros cs w1 [Hcs%made_listing F1]. unfold set_handle at 1. wp_step. wp_step. cbn [fst snd]. wp_step.
  apply (pack_reply (HDir f)); [|done|..].
  - eapply listing_valid; [|exact Hcs]. apply Hd.
  - intros now rest b Hb. rewrite Z.add_0_l. by eapply HQ.
  - intros e He. apply HE. right. by eapply listing_too_small.
Qed.

(** The listing of an empty directory. *)
Lemma tread_dir_empty ns : ∀ st0 w,
  ents = [] → listable w → Forall may_read9 ns →
  wp (tread_seq 0 ns) (λ bs _, bs = (λ _, []) <$> ns) (λ e _, get_fails e) (w, HDir f 0 st0).
Proof.
  induction ns as [|n ns IH]; intros st0 w Hnil Hw Hns; cbn [tread_seq]; [by wp_step|].
  apply Forall_cons in Hns as [Hn Hns]. wp_step. apply tread_dir_first; [done|done|..].
  - intros w' stats now rest b F Hl (Hst & Hb & _). unfold listing in Hl. rewrite Hnil in Hl.
    apply Forall2_nil_inv_l in Hl as ->. symmetry in Hst. apply app_eq_nil in Hst as [-> ->]. subst b. wp_step. simpl.
    eapply wp_mono; [apply (IH [] w'); [done|by eapply listable_frame|done]| |done]; cbn beta.
    intros bs x ->. by wp_step.
  - intros e x [He|(_ & y & Hy & _)]; [done|]. rewrite Hnil in Hy. by apply not_elem_of_nil in Hy.
Qed.

(** What a client gets that reads with buffers of [ns] bytes. *)
Definition listed (ns : list nat) (bs : list bytes) : Prop :=
  ∃ stats groups rest, listing ents stats ∧ stats = concat groups ++ rest ∧ bs = stats_bytes <$> groups ∧
    (length ents ≤ length ns → rest = []).

Lemma tread_dir_seq ns st0 w :
  listable w → Forall may_read9 ns → (Z.of_nat (sum_list ns) < 2 ^ 64)%Z →
  wp (tread_seq 0 ns) (λ bs _, listed ns bs)
    (λ e _, get_fails e ∨ e = ErrBuffTooSmall ∧ ∃ x n, x ∈ ents ∧ n ∈ ns ∧ n < stat_size x) (w, HDir f 0 st0).
Proof.
  intros Hw Hns Hsum. destruct (decide (ents = [])) as [Hnil|Hne].
  { eapply wp_mono; [by apply tread_dir_empty|..]; cbn beta; [|auto]. intros bs _ ->. unfold listed, listing. rewrite Hnil.
    exists [], ((λ _, []) <$> ns), []. split_and!; [constructor| | |done].
    - rewrite app_nil_r. symmetry. clear. induction ns; [done|]. by rewrite fmap_cons.
    - by rewrite <-list_fmap_compose. }
  destruct ns as [|n ns]; cbn [tread_seq].
  { wp_step. destruct (listing_some ents) as [stats Hl]. exists stats, [], stats. split_and!; [done|done|done|].
    destruct ents; [done|simpl; lia]. }
  apply Forall_cons in Hns as [Hn Hns]. cbn [sum_list_with] in Hsum. unfold id in Hsum at 1. wp_step.
  apply tread_dir_first; [done|done|..].
  - intros w' stats now rest b F Hl (Hst & Hb & Hlen & Hnow). wp_step.
    assert (Hv : Forall valid_stat stats) by (eapply listing_valid; [apply Hw|done]).
    assert (stats ≠ []) by (intros ->; apply Forall2_nil_inv_r in Hl; done).
    assert (Hpos : 0 < length b).
    { rewrite Hst in Hv. destruct now as [|st now]; [by destruct (Hnow ltac:(done))|]. simpl in Hv.
      apply Forall_cons in Hv as [Hv _]. rewrite Hb, stats_bytes_cons, length_app, length_enc_stat by done.
      unfold StatLen. lia. }
    rewrite (wrap_small 64) by lia. rewrite Z.add_0_l.
    assert (Hvr : Forall valid_stat rest) by (rewrite Hst in Hv; by apply Forall_app in Hv as [_ ?]).
    eapply wp_mono; [apply tread_dir_more; [lia|lia|exact Hvr|exact Hns]|..]; cbn beta.
    + intros bs x (groups & rest' & Hr & -> & Hall). wp_step. exists stats, (now :: groups), rest'. split_and!.
      * done.
      * rewrite Hst, Hr. simpl. by rewrite app_assoc.
      * by rewrite Hb.
      * intros Hle. apply Hall. rewrite (Forall2_length _ _ _ Hl), Hst, length_app in Hle. simpl in Hle.
        assert (length now ≠ 0) by (intros ?%nil_length_inv; naive_solver). lia.
    + intros e x (n' & Hn' & Hsm). right.
      assert (Hsm' : too_small n' stats e).
      { destruct Hsm as (He & st & Hin & ?). split; [done|]. exists st. rewrite Hst. set_solver. }
      destruct (listing_too_small _ _ _ _ Hl Hsm') as (He & y & Hy & Hys). split; [done|]. exists y, n'. set_solver.
  - intros e x [He|(He & y & Hy & Hys)]; [by left|right]. split; [done|]. exists y, n. set_solver.
Qed.
End Listing.

(** ** Walking *)

(** [f] is the directory [kids]. *)
Definition shows w (f : file) (kids : kidmap) : Prop :=
  f_fs f < length (w_fss w) ∧ versions_fit w ∧ Fs.IsDir (f_ent f) = true ∧ q_Type (f_qid f) = QTDIR ∧
  ∃ mode, dirs fuel (w_store w) (Data (EntHTree (f_ent f))) mode kids.

Lemma find_child r parent paths ents cs name :
  Forall2 (λ e c, made r e parent (paths e) c) ents cs →
  match list_find (λ c, EntName (f_ent c) = name) cs with
  | Some (_, c) => ∃ e, e ∈ ents ∧ EntName e = name ∧ made r e parent (paths e) c
  | None => name ∉ EntName <$> ents
  end.
Proof.
  intros Hcs. destruct (list_find _ cs) as [[i c]|] eqn:Hfind.
  - apply list_find_Some in Hfind as (Hi & Hname & _). destruct (Forall2_lookup_r _ _ _ _ _ Hcs Hi) as (e & He & Hm).
    exists e. split_and!; [by eapply list_elem_of_lookup_2|by destruct Hm as (_ & <- & _)|done].
  - apply list_find_None in Hfind. rewrite Forall_forall in Hfind.
    intros (e & Hn & He)%list_elem_of_fmap. apply list_elem_of_lookup in He as [i Hi].
    destruct (Forall2_lookup_l _ _ _ _ _ Hcs Hi) as (c & Hc & Hm). apply (Hfind c); [by eapply list_elem_of_lookup_2|].
    by destruct Hm as (_ & -> & _).
Qed.

(** A child stands for what the directory has under the name. *)
Lemma file_Child_spec f name kids w :
  shows w f kids →
  wp (file_Child sz fuel f name)
    (λ c w', frame w w' ∧ ∃ n, kids !! name = Some n ∧ made (f_fs f) (f_ent c) (Some f) (path_Join (f_path f) name) c ∧
       EntName (f_ent c) = name ∧ ent_repr fuel (w_store w') (f_ent c) n)
    (λ e w', frame w w' ∧ (get_fails e ∨ kids !! name = None)) w.
Proof.
  intros (Hf & Hv & Hd & _ & mode & Hdirs). unfold file_Child. rewrite Hd. simpl. wp_step.
  apply (dirs_lists sz fuel Hsz Heof) in Hdirs as (t & ents & Ht & Hdir & Hl).
  eapply wp_mono; [by eapply getChildren_made|..]; cbn beta; [|intros e w' [? ?]; auto].
  intros cs w1 [Hcs F]. pose proof (find_child _ _ _ _ _ name Hcs) as Hfind.
  pose proof Hl as (_ & _ & Hdom & Hr). destruct (list_find _ cs) as [[i c]|]; wp_step.
  - destruct Hfind as (e & He & Hname & Hm). split; [done|]. destruct (Hr e He) as (n & Hn & Hrep). exists n.
    assert (Hce : f_ent c = e) by apply Hm. rewrite Hce. rewrite Hname in Hn, Hm.
    split_and!; [done|done|done|]. eapply ent_repr_keeps; [apply F|done].
  - split; [done|]. right. apply not_elem_of_dom. rewrite Hdom. set_solver.
Qed.

(** What a walk from [f] along [names] leads to. *)
Definition walked (w w' : World) (names : list bytes) (kids : kidmap) (wqids : list Qid) (r : option file9 * list Qid) : Prop :=
  frame w w' ∧
  match r.1 with
  | Some x => ∃ c n qs, x = FFile c ∧ t_lookup kids names = Some n ∧ ent_repr fuel (w_store w') (f_ent c) n ∧
                last names = Some (EntName (f_ent c)) ∧ r.2 = wqids ++ qs ∧ length qs = length names
  | None => t_lookup kids names = None
  end.

#[local] Existing Instances file9_File handle9_Handle.

(** There is nothing below a file. *)
Lemma walk_below_file i f name names wqids Q E w :
  q_Type (f_qid f) = QTFILE → good_name name → Q (None, wqids) w →
  wp (walk_from (H := handle9) (H0 := file9_File sz fuel HMAC key clock) (S i) (FFile f) (name :: names) wqids) Q E w.
Proof.
  intros Hq (Hg1 & Hg2 & Hg3 & Hg4) HQ. cbn [walk_from].
  rewrite (bool_decide_eq_false_2 (name = _ ∨ _)) by (intros [?|[?|?]]; done). rewrite bool_decide_eq_false_2 by done. wp_step. simpl. wp_step.
  replace (Proto9.IsDir (f_qid f)) with false by (unfold Proto9.IsDir; by rewrite Hq). simpl. by wp_step.
Qed.

Lemma t_lookup_below kids name name' path :
  t_lookup kids (name :: name' :: path) =
  match kids !! name with Some (Folder _ _ ks) => t_lookup ks (name' :: path) | _ => None end.
Proof. done. Qed.

Lemma walk_spec names : ¬ get_fails ErrNotExist → ∀ i f wqids w kids,
  shows w f kids → Forall good_name names → names ≠ [] →
  wp (walk_from (H := handle9) (H0 := file9_File sz fuel HMAC key clock) i (FFile f) names wqids)
    (λ r w', walked w w' names kids wqids r)
    (λ e _, get_fails e ∨ t_lookup kids names = None) w.
Proof.
  intros Hne. induction names as [|name names IH]; intros i f wqids w kids Hs Hgood Hnil; [done|]. cbn [walk_from].
  apply Forall_cons in Hgood as [(Hg1 & Hg2 & Hg3 & Hg4) Hgood].
  rewrite (bool_decide_eq_false_2 (name = _ ∨ _)) by (intros [?|[?|?]]; done). rewrite bool_decide_eq_false_2 by done.
  wp_step. simpl f_Qid. wp_step. pose proof Hs as (Hf & Hv & Hd & Hq & Hdirs).
  replace (Proto9.IsDir (f_qid f)) with true by (unfold Proto9.IsDir; by rewrite Hq). cbn [negb]. wp_step. wp_step.
  simpl f_Child. unfold Child. wp_step.
  eapply wp_mono; [by apply file_Child_spec|..]; cbn beta.
  - intros c w1 [F (n & Hn & Hm & Hname & Hrep)]. wp_step. destruct names as [|name' names].
    { cbn [walk_from]. wp_step. split; [done|]. exists c, n, [f_qid f]. split_and!; try done. simpl. by rewrite Hname. }
    destruct Hm as (Hfs & _ & _ & _ & _ & Hct & _). pose proof F as (_ & _ & Hl1 & Hv1).
    destruct Hrep as [_ Hrep]. destruct (Fs.IsDir (f_ent c)) eqn:Hcd.
    + destruct Hrep as (dm & ks & -> & Hks).
      eapply wp_mono; [apply (IH (S i) c (wqids ++ [f_qid f]) w1 ks); [|done|done]|..]; cbn beta.
      * split_and!; [lia|auto|done|done|by exists dm].
      * intros r w2 [F2 Hr]. split; [eauto|]. rewrite t_lookup_below, Hn. destruct (r.1) as [x|]; [|done].
        destruct Hr as (c' & n' & qs & -> & ? & ? & ? & -> & Hl). exists c', n', (f_qid f :: qs).
        split_and!; [done|done|done|done|by rewrite <-app_assoc|simpl in *; lia].
      * intros e w2 He. by rewrite t_lookup_below, Hn.
    + apply walk_below_file; [done|by apply Forall_cons in Hgood as [? _]|]. split; [done|]. cbn [fst].
      rewrite t_lookup_below, Hn. by subst n.
  - intros e w1 [F He]. assert (Hno : kids !! name = None → t_lookup kids (name :: names) = None).
    { intros Hn. destruct names; [done|]. by rewrite t_lookup_below, Hn. }
    case_bool_decide as Hen; [|wp_step; naive_solver]. subst e. destruct He as [He|He]; [done|].
    destruct (bool_decide (i = 0)); wp_step; [right; by apply Hno|]. split; [done|]. by apply Hno.
Qed.

(** ** The root *)

(** The root of [fs9] number [r] is the tree [root]. *)
Definition root_is (root : hash) (r : nat) w : Prop :=
  ∃ x f, w_fss w !! r = Some x ∧ fs_file x = Some f ∧ Data (EntHTree (f_ent f)) = root.

Lemma refresh_spec newest ver rem ref t mode ents r w :
  72 < fuel → (∀ e, ¬ get_fails e) → r < length (w_fss w) → versions_fit w →
  GetRoot HMAC key (w_remote w) = (Ok (newest, ver, true), rem) →
  ref_at (w_store w) newest ref → Refs.Root ref = Data t → dir_at fuel (w_store w) t mode ents →
  wp (refresh sz fuel HMAC key clock r) (λ _ w', root_is (Data t) r w') (λ _ _, False) w.
Proof.
  intros Hfuel Hno Hr Hv Hget Href Hroot Hdir. unfold refresh. wp_step. wp_step. unfold on_remote. wp_step. unfold wp at 1.
  rewrite Hget. cbn [negb]. wp_step. wp_step. unfold on_store at 1. wp_step. cbn [w_store].
  eapply wp_mono; [by apply (GetRef_spec sz fuel Hsz Hfuel Heof)| |done]; cbn beta.
  intros ref' s1 [Hk1 [->|[_ [e He]]]]; [|by destruct (Hno e)]. rewrite Hroot.
  apply lookup_lt_is_Some in Hr as [x Hx]. cbn iota. simpl. wp_step. apply (wp_get_fs _ x); [done|].
  destruct (match fs_file x with Some f => _ | None => false end) eqn:Hsame.
  { wp_step. destruct (fs_file x) as [f|] eqn:Hf; [|done]. apply bool_decide_eq_true_1 in Hsame. by exists x, f. }
  wp_step. wp_step. unfold on_store at 1. wp_step. simpl.
  eapply wp_mono; [apply (ReadDir_keeps sz fuel Hsz Heof); by eapply dir_at_keeps|..]; cbn beta;
    [|intros e s2 [He _]; by destruct (Hno e)].
  intros ? s2 [-> Hk2]. wp_step. eapply wp_lift_ok; [done|]. simpl. wp_step.
  eapply wp_mono; [apply CreateFile_made; [by eapply lookup_lt_Some|done]| |done]; cbn beta.
  intros f w3 [(_ & Hfe & _) (_ & _ & Hl3 & _)]. simpl in Hl3. unfold Now. wp_steps.
  destruct (lookup_lt_is_Some_2 (w_fss w3) r) as [x3 Hx3]; [rewrite Hl3; by eapply lookup_lt_Some|].
  apply (wp_get_fs _ x3); [done|]. unfold set_fs. wp_steps.
  eexists _, f. simpl. split_and!; [apply list_lookup_insert_eq; by eapply lookup_lt_Some|done|by rewrite Hfe].
Qed.

(** ** Theorems *)

(** When the root of an attached tree is new or half a minute old, using it
    fetches the root the remote names at that moment: with a store that does not fail,
    the root directory is the tree of the newest reference. *)
Theorem p9_root_current newest ver rem ref t mode ents r w :
  72 < fuel → (∀ e, ¬ get_fails e) → r < length (w_fss w) → Forall (λ x, fit 4 (version x)) (w_fss w) →
  (∀ x f, w_fss w !! r = Some x → fs_file x = Some f → (half_minute ≤ clock (w_clock w) - lastUpdated x)%Z) →
  GetRoot HMAC key (w_remote w) = (Ok (newest, ver, true), rem) →
  ref_at (w_store w) newest ref → Refs.Root ref = Data t → dir_at fuel (w_store w) t mode ents →
  wp (update sz fuel HMAC key clock r) (λ _ w', root_is (Refs.Root ref) r w') (λ _ _, False) w.
Proof.
  intros Hfuel Hno Hr Hv Hold Hget Href Hroot Hdir. pose proof (lookup_lt_is_Some_2 _ _ Hr) as [x Hx].
  rewrite Hroot. unfold update. wp_step. apply (wp_get_fs _ x); [done|].
  destruct (fs_file x) as [f|] eqn:Hf; [|by eapply refresh_spec].
  unfold Now. wp_steps. rewrite bool_decide_eq_false_2 by (pose proof (Hold x f Hx Hf); lia). by eapply refresh_spec.
Qed.

(** C18: A file that is opened and read on and on gives its bytes in order, each read as many
    as fit its buffer or fewer: after as many reads as the file has bytes all of
    them are there.  The only errors are the store's. *)
Theorem p9_file_reads f rdr mode data ns w :
  file_content (w_store w) (EntHTree (f_ent f)) data →
  wp (Topen9 sz fuel HMAC key clock mode;; tread_seq 0 ns)
    (λ bs _, ∃ rest, data = concat bs ++ rest ∧ Forall2 (λ b n, length b ≤ n) bs ns ∧
       (Forall (λ n, 1 ≤ n) ns → length data ≤ length ns → rest = []))
    (λ e _, get_fails e) (w, HFile f rdr).
Proof.
  intros Hc. wp_step. eapply wp_mono; [by apply (Topen_file_spec anything ltac:(done))|..]; cbn beta; [|by intros ? ? [? _]].
  intros _ [w1 h1] (_ & _ & rdr' & Hx & Hr). simpl in *. subst h1. by apply (tread_file_seq f data).
Qed.

(** C17: A directory below the root ([dirHandle]) that is read on and on, each read where the last one
    ended, gives the stats of its entries in the order of the directory, only whole ones, and all
    of them after as many reads as there are entries.  Each stat has the name, the size and
    the mode of its entry.  The only errors are the store's and a buffer smaller than
    a stat. *)
Theorem p9_dir_reads f t mode ents ns stats0 w :
  Fs.IsDir (f_ent f) = true → Data (EntHTree (f_ent f)) = Data t → dir_at fuel (w_store w) t mode ents →
  f_fs f < length (w_fss w) → Forall (λ x, fit 4 (version x)) (w_fss w) →
  Forall (λ n, (Z.of_nat n < 2 ^ 31)%Z) ns → (Z.of_nat (sum_list ns) < 2 ^ 64)%Z →
  wp (tread_seq 0 ns)
    (λ bs _, ∃ stats groups rest,
       Forall2 (λ e st, st = ent_stat (s_Qid st) e ∧ valid_qid (s_Qid st)) ents stats ∧
       stats = concat groups ++ rest ∧ bs = stats_bytes <$> groups ∧ (length ents ≤ length ns → rest = []))
    (λ e _, get_fails e ∨ e = ErrBuffTooSmall ∧ ∃ x n, x ∈ ents ∧ n ∈ ns ∧ n < stat_size x) (w, HDir f 0 stats0).
Proof. intros Hd Ht Hdir Hf Hv Hns Hsum. by apply (tread_dir_seq f t mode ents Hd Ht). Qed.

(** C16: A walk is a lookup in the abstract tree: it ends at a file that stands for the node the
    names lead to, with one qid for each name, and fails or stops half-way
    only where there is no such node or where the store fails.  The names are names of entries, not
    [".."]. *)
Theorem p9_walk_refines f names kids w :
  ¬ get_fails ErrNotExist → shows w f kids → Forall good_name names → names ≠ [] →
  wp (Server9.Walk (H := handle9) (H0 := file9_File sz fuel HMAC key clock) (FFile f) names)
    (λ r w', keeps (w_store w) (w_store w') ∧
       match r with
       | (Some x, qids) => ∃ c n, x = FFile c ∧ t_lookup kids names = Some n ∧
           ent_repr fuel (w_store w') (f_ent c) n ∧ last names = Some (EntName (f_ent c)) ∧ length qids = length names
       | (None, _) => t_lookup kids names = None
       end)
    (λ e _, get_fails e ∨ t_lookup kids names = None) w.
Proof.
  intros Hne Hs Hg Hnil. eapply wp_mono; [by apply (walk_spec names Hne 0 f [] w kids)| |done]; cbn beta.
  intros [[x|] qids] w' [F Hr]; (split; [apply F|]); [|done].
  destruct Hr as (c & n & qs & -> & ? & ? & ? & Hq & ?). simpl in Hq. subst qids. by exists c, n.
Qed.

(** A walk upwards from the root panics: the root has no parent, and its nil is
    asked for its qid. *)
Theorem p9_walk_above_root f names w :
  f_parent f = None →
  Server9.Walk (H := handle9) (H0 := file9_File sz fuel HMAC key clock) (FFile f) (dotdot :: names) w = (Panic, w).
Proof.
  intros Hp. unfold Server9.Walk. cbn [walk_from]. rewrite bool_decide_eq_false_2.
  - rewrite bool_decide_eq_true_2 by done. unfold mbind, M_bind. simpl. by rewrite Hp.
  - by apply (bool_decide_unpack _).
Qed.
End Tree.
