(* ===== verification/P9Props.v ===== *)
(** The 9P files obey the laws of Server9Props.v: whatever the store and the
    remote report, a request leaves readable trees readable, and every file and handle
    stays one that the next request can use. *)

From Stdlib Require Import ZArith Lia.
From stdpp Require Import base list gmap strings.
From coqutil Require Import Byte.
From S2P Require Import Prelude Io Proto9 Proto9Props Server9 Server9Props.
From S2P Require Import Store Htree HtreeSpec HtreeWrite HtreeRead HtreeProps Fs FsProps FsTree FsFile Refs Remote P9Files P9Tree.

Set Default Goal Selector "!".

(** Names walked from a file [d] levels below the root stay below the root. *)
Fixpoint stays_below (d : nat) (names : list bytes) : bool :=
  match names with
  | [] => true
  | name :: names =>
    if bool_decide (name = dotdot) then match d with O => false | S d => stays_below d names end
    else stays_below (S d) names
  end.

Fixpoint depth (f : file) : nat :=
  match f with
  | mkFile _ (Some p) _ _ _ _ => S (depth p)
  | mkFile _ None _ _ _ _ => 0
  end.

Lemma depth_parent f : depth f = match f_parent f with Some p => S (depth p) | None => 0 end.
Proof. by destruct f as [? [p|] ? ? ? ?]. Qed.

Section P9Props.
Context {P : Params} {Pok : ParamsOk} {St : Type} `{CStoreLaws St} {R : Type} `{RemoteClient R}.
Variables (sz : nat → nat) (fuel : nat) (HMAC : bytes → bytes → bytes) (key : Key) (clock : nat → Z).
Hypothesis Hsz : ∀ i, 1 ≤ sz i.
Hypothesis Hfuel : 72 < fuel.
Hypothesis Heof : ¬ get_fails EOF.

Abbreviation World := (World (St := St) (R := R)).
Abbreviation handle9 := (handle9 (St := St)).
Implicit Types (s : St) (w : World) (h : handle9).

(** ** Trees *)

(** Every file below has a content. *)
Definition readable s (kids : kidmap) : Prop :=
  ∀ path m t, t_lookup kids path = Some (File m t) → ∃ data, file_content s t data.

Definition tree_ok s (root : hash) : Prop := ∃ mode kids, dirs fuel s root mode kids ∧ readable s kids.

Definition ent_ok s (e : DirEnt) : Prop :=
  valid_ent e ∧
  if Fs.IsDir e then tree_ok s (Data (EntHTree e)) else ∃ data, file_content s (EntHTree e) data.

Lemma readable_keeps s s' kids : keeps s s' → readable s kids → readable s' kids.
Proof. intros Hk Hr path m t Hl. destruct (Hr path m t Hl) as [data ?]. exists data. by eapply file_content_keeps. Qed.

Lemma tree_ok_keeps s s' root : keeps s s' → tree_ok s root → tree_ok s' root.
Proof. intros Hk (mode & kids & ? & ?). exists mode, kids. eauto using dirs_keeps, readable_keeps. Qed.

Lemma ent_ok_keeps s s' e : keeps s s' → ent_ok s e → ent_ok s' e.
Proof.
  intros Hk [Hv He]. split; [done|]. destruct (Fs.IsDir e); [by eapply tree_ok_keeps|].
  destruct He as [data ?]. exists data. by eapply file_content_keeps.
Qed.

Lemma readable_kid s kids name m dm ks : readable s kids → kids !! name = Some (Folder m dm ks) → readable s ks.
Proof.
  intros Hr Hn path m' t Hl. destruct path as [|n path]; [done|]. apply (Hr (name :: n :: path) m').
  cbn [t_lookup]. by rewrite Hn.
Qed.

(** The entries of a directory that can be read. *)
Lemma lists_ents_ok s ents kids : lists fuel s ents kids → readable s kids → Forall (ent_ok s) ents.
Proof.
  intros (_ & _ & _ & Hr) Hread. apply Forall_forall. intros e He. destruct (Hr e He) as (n & Hn & Hv & Hrep).
  split; [done|]. destruct (Fs.IsDir e).
  - destruct Hrep as (dm & ks & -> & Hd). exists dm, ks. split; [done|]. by eapply readable_kid.
  - subst n. by apply (Hread [EntName e] (meta_of e)).
Qed.

(** What [ReadDir] of such a directory gives, and what is left when it fails. *)
Definition dir_read (root : hash) (r : list DirEnt) s' : Prop :=
  ∃ mode t ents, root = Data t ∧ r = dot_ent mode t :: ents ∧
    ent_ok s' (dot_ent mode t) ∧ Fs.IsDir (dot_ent mode t) = true ∧ Forall (ent_ok s') ents.

Lemma ReadDir_ok s root :
  tree_ok s root →
  wp (ReadDir sz fuel root) (λ r s', keeps s s' ∧ dir_read root r s') (λ e s', keeps s s') s.
Proof.
  intros (mode & kids & Hd & Hread). pose proof Hd as (t & ents & -> & Hdir & Hl)%(dirs_lists sz fuel Hsz Heof).
  eapply wp_mono; [by apply ReadDir_keeps| |]; cbn beta; [|by intros ? ? []].
  intros r s' [-> Hk]. split; [done|]. exists mode, t, ents.
  pose proof Hdir as (Hm & Hmd & _ & Hdep & _). pose proof nlevels_byte.
  split_and!; [done|done| |done|].
  - split; [apply dot_ent_valid; [done|lia|by eapply dir_at_hash]|].
    change (Fs.IsDir (dot_ent mode t)) with (mode_IsDir mode). rewrite Hmd. exists mode, kids. split.
    + by eapply dirs_keeps.
    + by eapply readable_keeps.
  - eapply lists_ents_ok; [by eapply lists_keeps|by eapply readable_keeps].
Qed.

(** ** Files and handles *)

Inductive p9file_ok s (n : nat) : file → Prop :=
  | p9file_ok_intro r parent path qid stat ent :
      r < n → ent_ok s ent → q_Type qid = (if Fs.IsDir ent then QTDIR else QTFILE) → valid_stat stat →
      (∀ p, parent = Some p → p9file_ok s n p) → (∀ p, parent = Some p → Fs.IsDir (f_ent p) = true) →
      p9file_ok s n (mkFile r parent path qid stat ent).

Lemma p9file_ok_inv s n f :
  p9file_ok s n f →
  f_fs f < n ∧ ent_ok s (f_ent f) ∧ q_Type (f_qid f) = (if Fs.IsDir (f_ent f) then QTDIR else QTFILE) ∧ valid_stat (f_stat f) ∧
  ∀ p, f_parent f = Some p → p9file_ok s n p ∧ Fs.IsDir (f_ent p) = true.
Proof. intros []. simpl. naive_solver. Qed.

Lemma p9file_ok_keeps s s' n n' f : keeps s s' → n ≤ n' → p9file_ok s n f → p9file_ok s' n' f.
Proof.
  intros Hk Hn. induction 1 as [r parent path qid stat ent Hr He Hq Hs Hp IH Hd]. constructor; eauto using ent_ok_keeps. lia.
Qed.

Definition root_ok s n (f : file) : Prop := p9file_ok s n f ∧ Fs.IsDir (f_ent f) = true ∧ f_parent f = None.

Definition fs9_ok s n (x : fs9) : Prop :=
  fit 4 (version x) ∧ ∀ f, fs_file x = Some f → root_ok s n f.

Definition reading s (r : Reader St) : Prop := ∃ data rest, reads s data r rest.

Definition p9handle_ok s n h : Prop :=
  match h with
  | HRoot r _ stats => r < n ∧ Forall valid_stat stats
  | HDir f _ stats => p9file_ok s n f ∧ Fs.IsDir (f_ent f) = true ∧ Forall valid_stat stats
  | HFile f rdr => p9file_ok s n f ∧ Fs.IsDir (f_ent f) = false ∧ ∀ r, rdr = Some r → reading s r
  end.

Lemma reading_keeps s s' r : keeps s s' → reading s r → reading s' r.
Proof. intros Hk (data & rest & Hr). exists data, rest. by eapply reads_keeps. Qed.

Lemma p9handle_ok_keeps s s' n n' h : keeps s s' → n ≤ n' → p9handle_ok s n h → p9handle_ok s' n' h.
Proof.
  intros Hk Hn. destruct h as [r off stats|f off stats|f rdr]; simpl.
  - intros [? ?]. split; [lia|done].
  - intros (? & ? & ?). eauto using p9file_ok_keeps.
  - intros (? & ? & Hr). split_and!; eauto using p9file_ok_keeps, reading_keeps.
Qed.

(** ** The world

    What the files rely on.  [has_root s r]: if the remote names a root, it is a reference to
    a readable tree of the store.  [no_zero s]: the store has no block under the zero hash, which
    [GetRef] returns when it cannot read. *)
Class RootLaws : Type := {
  has_root : St → R → Prop;
  no_zero : St → Prop;
  has_root_keeps s s' r : keeps s s' → has_root s r → has_root s' r;
  GetRoot_law s r : has_root s r →
    wp (GetRoot HMAC key)
      (λ x r', has_root s r' ∧ (x.2 = true → ∃ ref, ref_at s x.1.1 ref ∧ tree_ok s (Refs.Root ref)))
      (λ _ r', has_root s r') r;
  Get_no_zero hash s : no_zero s → no_zero (Get hash s).2;
  Get_zero s : no_zero s → wp (Get no_hash) (λ _ _, False) (λ _ s', keeps s s') s;
}.
Context {RL : RootLaws}.

Record p9world_ok w : Prop := mkWorldOk {
  wo_root : has_root (w_store w) (w_remote w);
  wo_zero : no_zero (w_store w);
  wo_fss : Forall (fs9_ok (w_store w) (length (w_fss w))) (w_fss w);
}.

Definition later9 w w' : Prop := keeps (w_store w) (w_store w') ∧ length (w_fss w) ≤ length (w_fss w').

Lemma later9_refl w : later9 w w.
Proof. split; [done|lia]. Qed.
Lemma later9_trans w1 w2 w3 : later9 w1 w2 → later9 w2 w3 → later9 w1 w3.
Proof. intros [? ?] [? ?]. split; [by transitivity (w_store w2)|lia]. Qed.
Hint Resolve later9_refl later9_trans : core.

(** From a good world to a good world. *)
Definition ok9 {A} (c : M World A) (Q : A → World → Prop) w : Prop :=
  wp c (λ a w', p9world_ok w' ∧ later9 w w' ∧ Q a w') (λ _ w', p9world_ok w' ∧ later9 w w') w.

Lemma ok9_bind {A B} (c : M World A) (k : A → M World B) Q Q' w :
  ok9 c Q w → (∀ a w', p9world_ok w' → later9 w w' → Q a w' → ok9 (k a) Q' w') → ok9 (c ≫= k) Q' w.
Proof.
  intros Hc Hk. unfold ok9. wp_step. eapply wp_mono; [exact Hc|..]; cbn beta; [|done].
  intros a w1 (Hw1 & L1 & HQ). eapply wp_mono; [by apply (Hk a w1)|..]; cbn beta.
  - intros b w2 (? & ? & ?). split_and!; [done|by eapply later9_trans|done].
  - intros e w2 (? & ?). split; [done|by eapply later9_trans].
Qed.
Lemma ok9_ret {A} (a : A) (Q : A → World → Prop) w : p9world_ok w → Q a w → ok9 (mret a) Q w.
Proof. intros. unfold ok9. wp_step. auto. Qed.
Lemma ok9_throw {A} e (Q : A → World → Prop) w : p9world_ok w → ok9 (throw e) Q w.
Proof. intros. unfold ok9. wp_step. auto. Qed.
Lemma ok9_mono {A} (c : M World A) (Q Q' : A → World → Prop) w :
  ok9 c Q w → (∀ a w', later9 w w' → Q a w' → Q' a w') → ok9 c Q' w.
Proof. intros Hc HQ. eapply wp_mono; [exact Hc| |done]. cbn beta. intros a w' (? & ? & ?). auto. Qed.
Lemma ok9_try {A} (c : M World A) Q w : ok9 c Q w → ok9 (try c) (λ o w', ∀ a, o = inl a → Q a w') w.
Proof.
  intros Hc. unfold ok9. wp_step. eapply wp_mono; [exact Hc|..]; cbn beta.
  - intros a w' (? & ? & ?). split_and!; [done|done|]. by intros ? [= <-].
  - intros e w' (? & ?). split_and!; [done|done|done].
Qed.

Lemma fs9_ok_keeps s s' n n' x : keeps s s' → n ≤ n' → fs9_ok s n x → fs9_ok s' n' x.
Proof.
  intros Hk Hn [Hv Hf]. split; [done|]. intros f Hx. destruct (Hf f Hx) as (? & ? & ?). split_and!; try done.
  by eapply p9file_ok_keeps.
Qed.

Lemma world_ok_keeps w s' :
  p9world_ok w → no_zero s' → keeps (w_store w) s' → p9world_ok (mkWorld s' (w_remote w) (w_fss w) (w_clock w)).
Proof.
  intros [Hr Hz Hf] Hz' Hk. split; simpl; [by eapply has_root_keeps|done|].
  eapply Forall_impl; [exact Hf|]. intros x Hx. eapply fs9_ok_keeps; [exact Hk|done|exact Hx].
Qed.

Lemma only_store_ok w w' : p9world_ok w → only_store no_zero w w' → p9world_ok w' ∧ later9 w w'.
Proof. intros Hw (Hk & Hz & ->). split; [by apply world_ok_keeps|]. by split. Qed.

Lemma ok9_store {A} (c : M St A) (Q : A → St → Prop) w :
  p9world_ok w → (∀ s, no_zero s → no_zero (c s).2) →
  wp c (λ a s', keeps (w_store w) s' ∧ Q a s') (λ _ s', keeps (w_store w) s') (w_store w) →
  ok9 (on_store c) (λ a w', Q a (w_store w') ∧ w_fss w' = w_fss w) w.
Proof.
  intros Hw Hp Hc. unfold ok9, on_store. wp_step. specialize (Hp (w_store w) (wo_zero _ Hw)). unfold wp in *.
  destruct (c (w_store w)) as [[a|e| |] s']; simpl in *; try done.
  - destruct Hc as [Hk HQ]. split_and!; [by apply world_ok_keeps|by split|done|done].
  - split; [by apply world_ok_keeps|by split].
Qed.

Lemma ok9_ReadDir root w :
  p9world_ok w → tree_ok (w_store w) root →
  ok9 (on_store (ReadDir sz fuel root)) (λ r w', dir_read root r (w_store w') ∧ w_fss w' = w_fss w) w.
Proof. intros Hw Ht. apply ok9_store; [done|apply (pr_ReadDir sz fuel no_zero), Get_no_zero|by apply ReadDir_ok]. Qed.

Lemma ok9_get_fs r w :
  p9world_ok w → r < length (w_fss w) →
  ok9 (get_fs r) (λ x w', w' = w ∧ w_fss w !! r = Some x ∧ fs9_ok (w_store w) (length (w_fss w)) x) w.
Proof.
  intros Hw Hr. unfold ok9, get_fs. wp_step. wp_step. apply lookup_lt_is_Some in Hr as [x Hx].
  eapply wp_lift_ok; [by apply idx_ok|]. split_and!; auto. exact (Forall_lookup_1 _ _ _ _ (wo_fss _ Hw) Hx).
Qed.

Lemma ok9_set_fs r x w :
  p9world_ok w → fs9_ok (w_store w) (length (w_fss w)) x →
  ok9 (set_fs r x) (λ _ w', w_store w' = w_store w ∧ w_fss w' = <[r := x]> (w_fss w)) w.
Proof.
  intros [Hr Hz Hf] Hx. unfold ok9, set_fs. wp_step. split_and!; [|split; simpl; [done|by rewrite length_insert]|done|done].
  split; simpl; [done|done|]. rewrite length_insert. by apply Forall_insert.
Qed.

Lemma ok9_now w : p9world_ok w → ok9 (Now clock) (λ _ w', w_store w' = w_store w ∧ w_fss w' = w_fss w) w.
Proof. intros [Hr Hz Hf]. unfold ok9, Now. wp_steps. done. Qed.

(** ** Making files *)

Lemma CreateFile_ok r ent parent path w :
  p9world_ok w → r < length (w_fss w) → ent_ok (w_store w) ent →
  (∀ p, parent = Some p → p9file_ok (w_store w) (length (w_fss w)) p ∧ Fs.IsDir (f_ent p) = true) →
  ok9 (CreateFile r ent parent path)
    (λ f w', made r ent parent path f ∧ p9file_ok (w_store w') (length (w_fss w')) f ∧ w_store w' = w_store w ∧
             length (w_fss w') = length (w_fss w)) w.
Proof.
  intros Hw Hr He Hp. unfold CreateFile. eapply ok9_bind; [by apply ok9_get_fs|]. cbn beta.
  intros x w1 _ _ (-> & Hx & [Hv Hf]). eapply ok9_bind; [by apply ok9_set_fs|]. cbn beta.
  intros _ w2 Hw2 _ [Hs2 Hf2]. apply ok9_ret; [done|]. rewrite Hf2, length_insert, Hs2.
  assert (Hc := wrap_range 64 (pathCounter x + 1) ltac:(lia)).
  set (q := mkQid _ _ _). assert (Hq : valid_qid q) by (split_and!; [by destruct (Fs.IsDir ent)|apply Hv|exact Hc]).
  split_and!; [by split_and!| |done|done]. constructor; try done; try (by apply Hp).
  apply (ent_stat_valid q ent); [done|apply He].
Qed.

Lemma create_children_ok f ents : ∀ w,
  p9world_ok w → p9file_ok (w_store w) (length (w_fss w)) f → Fs.IsDir (f_ent f) = true → Forall (ent_ok (w_store w)) ents →
  ok9 (create_children f ents)
    (λ cs w', Forall2 (λ e c, made (f_fs f) e (Some f) (path_Join (f_path f) (EntName e)) c) ents cs ∧
              Forall (p9file_ok (w_store w') (length (w_fss w'))) cs ∧ w_store w' = w_store w) w.
Proof.
  induction ents as [|e ents IH]; intros w Hw Hf Hd Hents; cbn [create_children]; [by apply ok9_ret|].
  apply Forall_cons in Hents as [He Hents]. destruct (p9file_ok_inv _ _ _ Hf) as (Hr & _).
  eapply ok9_bind; [apply CreateFile_ok; [done|done|done|by intros ? [= <-]]|]. cbn beta.
  intros c w1 Hw1 L1 (Hc & Hcok & Hs1 & Hl1). eapply ok9_bind; [apply IH; rewrite ?Hs1, ?Hl1; done|]. cbn beta.
  intros cs w2 Hw2 L2 (Hcs & Hcsok & Hs2). apply ok9_ret; [done|].
  split_and!; [by constructor| |congruence]. constructor; [|done]. destruct L2. by eapply p9file_ok_keeps.
Qed.

(** ** Methods of files *)

Lemma getChildren_ok f w :
  p9world_ok w → p9file_ok (w_store w) (length (w_fss w)) f → Fs.IsDir (f_ent f) = true →
  ok9 (getChildren sz fuel f)
    (λ cs w', ∃ ents, Forall2 (λ e c, made (f_fs f) e (Some f) (path_Join (f_path f) (EntName e)) c) ents cs ∧
              Forall (p9file_ok (w_store w') (length (w_fss w'))) cs) w.
Proof.
  intros Hw Hf Hd. unfold getChildren. rewrite Hd. simpl. destruct (p9file_ok_inv _ _ _ Hf) as (_ & [_ He] & _).
  rewrite Hd in He.
  eapply ok9_bind; [by apply ok9_ReadDir|]. cbn beta.
  intros ents w1 Hw1 L1 ((mode & t & es & _ & -> & _ & _ & Hes) & Hfss).
  unfold ok9. wp_step. eapply wp_lift_ok; [apply slice_ok; simpl; lia|]. simpl. rewrite drop_0, take_ge by lia.
  assert (Hf1 : p9file_ok (w_store w1) (length (w_fss w1)) f) by (destruct L1; by eapply p9file_ok_keeps).
  eapply ok9_mono; [by apply create_children_ok|]. cbn beta. intros cs w2 _ (? & ? & _). by exists es.
Qed.

Lemma file_Child_ok f name w :
  p9world_ok w → p9file_ok (w_store w) (length (w_fss w)) f →
  ok9 (file_Child sz fuel f name)
    (λ c w', p9file_ok (w_store w') (length (w_fss w')) c ∧ EntName (f_ent c) = name ∧ f_parent c = Some f) w.
Proof.
  intros Hw Hf. unfold file_Child. destruct (Fs.IsDir (f_ent f)) eqn:Hd; simpl; [|by apply ok9_throw].
  eapply ok9_bind; [by apply getChildren_ok|]. cbn beta. intros cs w1 Hw1 L1 (ents & Hmade & Hcs).
  destruct (list_find _ cs) as [[i c]|] eqn:Hfind; [|by apply ok9_throw].
  apply list_find_Some in Hfind as (Hi & Hname & _). apply ok9_ret; [done|].
  destruct (Forall2_lookup_r _ _ _ _ _ Hmade Hi) as (e & _ & _ & _ & Hpar & _).
  split_and!; [exact (Forall_lookup_1 _ _ _ _ Hcs Hi)|done|done].
Qed.

(** ** The root *)

Lemma ReadDir_no_zero s :
  no_zero s → wp (ReadDir sz fuel no_hash) (λ r s', keeps s s' ∧ dir_read no_hash r s') (λ _ s', keeps s s') s.
Proof.
  intros Hz. unfold ReadDir. wp_step. apply wp_with_reader. wp_step. unfold NewReader. wp_step. wp_step. wp_step.
  unfold r_get. wp_step. eapply wp_mono; [by apply Get_zero|done|done].
Qed.

Lemma ok9_GetRoot w :
  p9world_ok w →
  ok9 (on_remote (GetRoot HMAC key))
    (λ x w', (x.2 = true → ∃ ref, ref_at (w_store w') x.1.1 ref ∧ tree_ok (w_store w') (Refs.Root ref)) ∧
             w_fss w' = w_fss w) w.
Proof.
  intros [Hr Hz Hf]. unfold ok9, on_remote. wp_step. eapply wp_mono; [by apply (GetRoot_law (w_store w))|..]; cbn beta.
  - intros x r' [Hr' Hx]. split_and!; [by split|by split|done|done].
  - intros e r' Hr'. split; [by split|by split].
Qed.

Lemma ok9_GetRef root ref w :
  p9world_ok w → ref_at (w_store w) root ref → tree_ok (w_store w) (Refs.Root ref) →
  ok9 (on_store (GetRef sz fuel root))
    (λ r w', (r = zero_ref ∨ tree_ok (w_store w') (Refs.Root r)) ∧ w_fss w' = w_fss w) w.
Proof.
  intros Hw Hr Ht. apply (ok9_store _ (λ r s', r = zero_ref ∨ tree_ok s' (Refs.Root r)) w Hw).
  - apply (pr_GetRef sz fuel no_zero), Get_no_zero.
  - eapply wp_mono; [by eapply GetRef_spec| |done]; cbn beta. intros r s' [Hk [->|[-> _]]]; split; auto.
    right. by eapply tree_ok_keeps.
Qed.

Definition has_file (r : nat) w : Prop := ∃ x f, w_fss w !! r = Some x ∧ fs_file x = Some f.

Lemma refresh_ok r w :
  p9world_ok w → r < length (w_fss w) → ok9 (refresh sz fuel HMAC key clock r) (λ _ w', has_file r w') w.
Proof.
  intros Hw Hr. unfold refresh. eapply ok9_bind; [by apply ok9_try, ok9_GetRoot|]. cbn beta.
  intros [[[root ver] ok]|e] w1 Hw1 L1 Hq; [|by apply ok9_throw]. destruct (Hq _ eq_refl) as [Hroot Hf1].
  destruct ok; simpl; [|by apply ok9_throw]. destruct (Hroot eq_refl) as (ref & Href & Htree). simpl in Href.
  eapply ok9_bind; [by eapply ok9_try, ok9_GetRef|]. cbn beta.
  intros [ref'|e] w2 Hw2 L2 Hq2; [|by apply ok9_throw]. destruct (Hq2 _ eq_refl) as [Hr2 Hf2].
  assert (Hlen2 : r < length (w_fss w2)) by congruence.
  eapply ok9_bind; [by apply ok9_get_fs|]. cbn beta. intros x w3 _ _ (-> & Hx & Hxok).
  destruct (match fs_file x with Some f => _ | None => false end) eqn:Hsame.
  { apply ok9_ret; [done|]. destruct (fs_file x) as [f|] eqn:Hfile; [|done]. by exists x, f. }
  eapply (ok9_bind _ _ (λ o w', ∀ ents, o = inl ents → dir_read (Refs.Root ref') ents (w_store w') ∧ w_fss w' = w_fss w2)).
  { apply ok9_try. destruct Hr2 as [->|Ht2]; [|by apply ok9_ReadDir].
    apply (ok9_store _ _ w2 Hw2); [apply (pr_ReadDir sz fuel no_zero), Get_no_zero|]. apply ReadDir_no_zero, Hw2. }
  cbn beta. intros [ents|e] w4 Hw4 L4 Hq4; [|by apply ok9_throw].
  destruct (Hq4 _ eq_refl) as [(mode & t & es & _ & -> & Hdot & Hdir & _) Hf4].
  assert (Hlen4 : r < length (w_fss w4)) by congruence.
  unfold ok9. wp_step. eapply wp_lift_ok; [done|]. simpl.
  change (ok9 (f ← CreateFile r (dot_ent mode t) None (str "/"); now ← Now clock; x ← get_fs r;
    set_fs r (mkFs9 (pathCounter x) (u32 (version x + 1)) (Some f) now)) (λ _ w', has_file r w') w4).
  eapply ok9_bind; [by apply CreateFile_ok|]. cbn beta. intros f w5 Hw5 L5 ((_ & Hfe & Hfp & _) & Hfok & Hs5 & Hl5).
  eapply ok9_bind; [by apply ok9_now|]. cbn beta. intros now w6 Hw6 L6 [Hs6 Hf6].
  assert (Hlen6 : r < length (w_fss w6)) by congruence.
  eapply ok9_bind; [by apply ok9_get_fs|]. cbn beta. intros x7 w7 _ _ (-> & Hx7 & [Hv7 _]).
  eapply ok9_mono; [apply ok9_set_fs; [done|]|]; cbn beta.
  - split; simpl; [apply wrap_range; lia|]. intros f' [= <-]. rewrite Hs6, Hf6. split_and!; [done|by rewrite Hfe|done].
  - intros _ w8 _ [_ Hf8]. eexists _, f. rewrite Hf8. split; [by apply list_lookup_insert_eq|done].
Qed.

Lemma update_ok r w :
  p9world_ok w → r < length (w_fss w) → ok9 (update sz fuel HMAC key clock r) (λ _ w', has_file r w') w.
Proof.
  intros Hw Hr. unfold update. eapply ok9_bind; [by apply ok9_get_fs|]. cbn beta. intros x w1 _ _ (-> & Hx & _).
  destruct (fs_file x) as [f|] eqn:Hf; [|by apply refresh_ok].
  eapply ok9_bind; [by apply ok9_now|]. cbn beta. intros now w2 Hw2 L2 [Hs2 Hf2].
  case_bool_decide; [|apply refresh_ok; [done|congruence]]. apply ok9_ret; [done|]. exists x, f. by rewrite Hf2.
Qed.

Lemma root_file_ok r w :
  p9world_ok w → has_file r w →
  ok9 (root_file r) (λ f w', w' = w ∧ root_ok (w_store w) (length (w_fss w)) f) w.
Proof.
  intros Hw (x & f & Hx & Hf). unfold root_file. eapply ok9_bind; [apply ok9_get_fs; [done|by eapply lookup_lt_Some]|].
  cbn beta. intros x' w1 Hw1 _ (-> & Hx' & [_ Hok]). assert (x' = x) as -> by congruence. rewrite Hf.
  apply ok9_ret; [done|]. split; [done|by apply Hok].
Qed.

(** ** The methods of [File] *)

Definition file9_ok w (x : file9) : Prop :=
  match x with
  | FRoot r => r < length (w_fss w)
  | FFile f => p9file_ok (w_store w) (length (w_fss w)) f
  end.

Lemma file9_later w w' x : later9 w w' → file9_ok w x → file9_ok w' x.
Proof. intros [Hk Hl]. destruct x; simpl; [lia|]. by apply p9file_ok_keeps. Qed.

Lemma Qid9_ok x w : p9world_ok w → file9_ok w x → ok9 (Qid9 sz fuel HMAC key clock x) (λ _ _, True) w.
Proof.
  intros Hw Hx. destruct x as [r|f]; simpl; autounfold with p9; [|by apply ok9_ret].
  eapply ok9_bind; [by apply update_ok|]. cbn beta. intros _ w1 Hw1 L1 (y & f & Hy & _).
  eapply ok9_bind; [apply ok9_get_fs; [done|by eapply lookup_lt_Some]|]. cbn beta. intros ? w2 Hw2 _ _. by apply ok9_ret.
Qed.

Lemma Stat9_ok x w : p9world_ok w → file9_ok w x → ok9 (Stat9 sz fuel HMAC key clock x) (λ _ _, True) w.
Proof.
  intros Hw Hx. destruct x as [r|f]; simpl; autounfold with p9; [|by apply ok9_ret].
  eapply ok9_bind; [by apply update_ok|]. cbn beta. intros _ w1 Hw1 L1 Hf.
  eapply ok9_bind; [by apply root_file_ok|]. cbn beta. intros f w2 Hw2 _ _. by apply ok9_ret.
Qed.

Lemma NewHandle_ok x w :
  p9world_ok w → file9_ok w x →
  ok9 (NewHandle sz fuel HMAC key clock x) (λ h w', p9handle_ok (w_store w') (length (w_fss w')) h) w.
Proof.
  intros Hw Hx. destruct x as [r|f]; simpl; autounfold with p9.
  - eapply ok9_bind; [by apply update_ok|]. cbn beta. intros _ w1 Hw1 [_ L1] _. apply ok9_ret; [done|].
    split; [simpl in Hx; lia|done].
  - apply ok9_ret; [done|]. destruct (Fs.IsDir (f_ent f)) eqn:Hd; by split_and!.
Qed.

#[local] Existing Instances file9_File handle9_Handle.

(** Walks that stay below the root do not leave the tree. *)
Lemma walk_ok names : ∀ i f wqids w,
  p9world_ok w → p9file_ok (w_store w) (length (w_fss w)) f → stays_below (depth f) names = true →
  ok9 (walk_from (H := handle9) (H0 := file9_File sz fuel HMAC key clock) i (FFile f) names wqids)
    (λ r w', ∀ x, r.1 = Some x → file9_ok w' x) w.
Proof.
  induction names as [|name names IH]; intros i f wqids w Hw Hf Hb; cbn [walk_from].
  { apply ok9_ret; [done|]. by intros ? [= <-]. }
  case_bool_decide; [by apply ok9_throw|]. cbn [stays_below] in Hb. case_bool_decide as Hdd.
  - (* up *)
    rewrite depth_parent in Hb. destruct (p9file_ok_inv _ _ _ Hf) as (_ & _ & _ & _ & Hp).
    destruct (f_parent f) as [p|] eqn:Hpar; [|done]. destruct (Hp p eq_refl) as [Hpok _].
    eapply (ok9_bind _ _ (λ o w', o = Some (FFile p) ∧ w' = w)); [simpl; rewrite Hpar; by apply ok9_ret|].
    cbn beta. intros ? w1 _ _ [-> ->].
    eapply (ok9_bind _ _ (λ _ w', w' = w)); [by apply ok9_ret|]. cbn beta. intros q w1 _ _ ->. by apply IH.
  - eapply (ok9_bind _ _ (λ _ w', w' = w)); [by apply ok9_ret|]. cbn beta. intros q w1 _ _ ->.
    assert (Hwerr : ∀ e w', p9world_ok w' → ok9 (if bool_decide (i = 0) then throw e else mret (None, wqids))
      (λ r w'', ∀ x, r.1 = Some x → file9_ok w'' x) w').
    { intros e w' Hw'. case_bool_decide; [by apply ok9_throw|]. apply (ok9_ret (None, wqids)); [done|]. by intros ?. }
    destruct (negb (Proto9.IsDir q)); [by apply Hwerr|].
    eapply (ok9_bind _ _ (λ o w', ∀ x, o = inl x → ∃ c, x = FFile c ∧ p9file_ok (w_store w') (length (w_fss w')) c ∧ f_parent c = Some f)).
    { apply ok9_try. simpl. eapply ok9_bind; [by apply file_Child_ok|]. cbn beta.
      intros c w1 Hw1 _ (Hc & _ & Hpar). apply ok9_ret; [done|]. by exists c. }
    cbn beta. intros [x|e] w1 Hw1 _ Hx; [|destruct (bool_decide (e = ErrNotExist)); [by apply Hwerr|by apply ok9_throw]].
    destruct (Hx x eq_refl) as (c & -> & Hc & Hpar). apply IH; [done|done|]. by rewrite depth_parent, Hpar.
Qed.

(** ** The methods of [Handle] *)

Definition okh {A} (c : M (World * handle9) A) (Q : A → World → Prop) w h : Prop :=
  wp c (λ a x, p9world_ok x.1 ∧ later9 w x.1 ∧ p9handle_ok (w_store x.1) (length (w_fss x.1)) x.2 ∧ Q a x.1)
       (λ _ x, p9world_ok x.1 ∧ later9 w x.1 ∧ p9handle_ok (w_store x.1) (length (w_fss x.1)) x.2) (w, h).

Lemma handle9_later w w' h :
  later9 w w' → p9handle_ok (w_store w) (length (w_fss w)) h → p9handle_ok (w_store w') (length (w_fss w')) h.
Proof. intros [Hk Hl]. by apply p9handle_ok_keeps. Qed.

Lemma okh_bind {A B} (c : M World A) (k : A → M (World * handle9) B) Q Q' w h :
  ok9 c Q w → p9handle_ok (w_store w) (length (w_fss w)) h →
  (∀ a w', p9world_ok w' → later9 w w' → Q a w' → okh (k a) Q' w' h) → okh (on_w9 c ≫= k) Q' w h.
Proof.
  intros Hc Hh Hk. unfold okh, on_w9. wp_step. wp_step. eapply wp_mono; [exact Hc|..]; cbn beta; simpl.
  - intros a w1 (Hw1 & L1 & HQ). eapply wp_mono; [by apply (Hk a w1)|..]; cbn beta.
    + intros b [w2 h2] (? & ? & ? & ?). split_and!; try done. by eapply later9_trans.
    + intros e [w2 h2] (? & ? & ?). split_and!; try done. by eapply later9_trans.
  - intros e w1 (Hw1 & L1). split_and!; [done|done|]. by eapply handle9_later.
Qed.

Lemma okh_w {A} (c : M World A) Q w h :
  ok9 c Q w → p9handle_ok (w_store w) (length (w_fss w)) h → okh (on_w9 c) Q w h.
Proof.
  intros Hc Hh. unfold okh, on_w9. wp_step. eapply wp_mono; [exact Hc|..]; cbn beta; simpl.
  - intros a w1 (Hw1 & L1 & HQ). split_and!; try done. by eapply handle9_later.
  - intros e w1 (Hw1 & L1). split_and!; try done. by eapply handle9_later.
Qed.

Lemma okh_ret {A} (a : A) (Q : A → World → Prop) w h :
  p9world_ok w → p9handle_ok (w_store w) (length (w_fss w)) h → Q a w → okh (mret a) Q w h.
Proof. intros. unfold okh. wp_step. auto. Qed.
Lemma okh_throw {A} e (Q : A → World → Prop) w h :
  p9world_ok w → p9handle_ok (w_store w) (length (w_fss w)) h → okh (throw e) Q w h.
Proof. intros. unfold okh. wp_step. auto. Qed.
Lemma okh_set {B} h' (k : M (World * handle9) B) Q w h :
  okh k Q w h' → okh (set_handle h';; k) Q w h.
Proof. intros Hk. unfold okh, set_handle. wp_step. wp_step. exact Hk. Qed.

(** Both kinds of directories; [mk] makes the handle. *)
Lemma read_dir_ok mk cur stats children off n w :
  p9world_ok w → may_read9 n →
  (∀ w' c st, later9 w w' → Forall valid_stat st → p9handle_ok (w_store w') (length (w_fss w')) (mk c st)) →
  Forall valid_stat stats →
  ok9 children (λ cs w', Forall (p9file_ok (w_store w') (length (w_fss w'))) cs) w →
  okh (read_dir mk cur stats children off n) (λ _ _, True) w (mk cur stats).
Proof.
  intros Hw Hn Hmk Hst Hch. unfold read_dir.
  assert (Hrest : ∀ st w', p9world_ok w' → later9 w w' → Forall valid_stat st →
    okh (if bool_decide (off ≠ cur) then throw ErrBadRead
         else match pack_stats 0 st (replicate n Byte.x00) with
              | (Ok (k, rest), buf) => set_handle (mk (u64 (cur + k)) rest);; mret (take (Z.to_nat k) buf)
              | (Err e, _) => throw e | (Panic, _) => panic | (OutOfFuel, _) => diverge
              end) (λ _ _, True) w' (mk cur st)).
  { intros st w' Hw' L' Hv. destruct (decide (off = cur)) as [->|Hoff].
    - unfold okh. apply (pack_reply clock); [done|done|..]; cbn [fst snd].
      + intros now rest b (-> & _). apply Forall_app in Hv as [_ Hv]. split_and!; auto.
      + intros e _. split_and!; auto.
    - rewrite bool_decide_eq_true_2 by done. apply okh_throw; auto. }
  unfold okh. wp_step. destruct (bool_decide (off = 0%Z)); [|wp_step; by apply Hrest].
  wp_step. unfold on_w9. wp_step. eapply wp_mono; [exact Hch|..]; cbn beta; simpl.
  - intros cs w1 (Hw1 & L1 & Hcs). assert (Hv : Forall valid_stat (f_stat <$> cs)).
    { apply Forall_fmap. eapply Forall_impl; [exact Hcs|]. intros f Hf. by destruct (p9file_ok_inv _ _ _ Hf) as (_ & _ & _ & ? & _). }
    unfold set_handle. wp_step. wp_step. wp_step. simpl.
    eapply wp_mono; [by apply (Hrest (f_stat <$> cs) w1)|..]; cbn beta.
    + intros b x (? & ? & ? & ?). split_and!; try done. by eapply later9_trans.
    + intros e x (? & ? & ?). split_and!; try done. by eapply later9_trans.
  - intros e w1 (Hw1 & L1). split_and!; auto.
Qed.

Lemma okh_assoc {A B C} (c : M (World * handle9) A) (f : A → M (World * handle9) B) (g : B → M (World * handle9) C) Q w h :
  okh (c ≫= λ a, f a ≫= g) Q w h → okh ((c ≫= f) ≫= g) Q w h.
Proof. unfold okh, wp, mbind, M_bind. by destruct (c (w, h)) as [[] ?]. Qed.

(** The root of [fs9] number [r], brought up to date. *)
Lemma okh_root {B} r (k : file → M (World * handle9) B) Q w h :
  p9world_ok w → p9handle_ok (w_store w) (length (w_fss w)) h → r < length (w_fss w) →
  (∀ f w', p9world_ok w' → later9 w w' → root_ok (w_store w') (length (w_fss w')) f →
     p9handle_ok (w_store w') (length (w_fss w')) h → okh (k f) Q w' h) →
  okh (f ← rootHandle_file sz fuel HMAC key clock r; k f) Q w h.
Proof.
  intros Hw Hh Hr Hk. unfold rootHandle_file. apply okh_assoc. eapply okh_bind; [by apply update_ok|done|]. cbn beta. intros _ w1 Hw1 L1 Hf.
  assert (Hh1 := handle9_later _ _ _ L1 Hh).
  eapply okh_bind; [by apply root_file_ok|done|]. cbn beta. intros f w2 Hw2 _ [-> Hroot]. by apply Hk.
Qed.

(** The handle looked at first. *)
Lemma okh_get {A} (k : World * handle9 → M (World * handle9) A) Q w h : okh (k (w, h)) Q w h → okh (x ← get; k x) Q w h.
Proof. intros Hk. unfold okh. wp_step. by wp_step. Qed.

Lemma GetFile_ok w h :
  p9world_ok w → p9handle_ok (w_store w) (length (w_fss w)) h →
  okh (GetFile sz fuel HMAC key clock) (λ f w', file9_ok w' f) w h.
Proof.
  intros Hw Hh. apply okh_get. destruct h as [r o st|f o st|f rdr]; simpl in *.
  - apply okh_root; [done|done|apply Hh|]. intros f w1 Hw1 L1 [Hf _] Hh1. by apply okh_ret.
  - apply okh_ret; [done|done|apply Hh].
  - apply okh_ret; [done|done|apply Hh].
Qed.

(** Walks are looked at from the file of the handle. *)
Definition may_walk9 (h : handle9) (names : list bytes) : Prop :=
  stays_below (match h with HRoot _ _ _ => 0 | HDir f _ _ | HFile f _ => depth f end) names = true.

Lemma Twalk9_ok names w h :
  p9world_ok w → p9handle_ok (w_store w) (length (w_fss w)) h → may_walk9 h names →
  okh (Twalk9 sz fuel HMAC key clock names) (λ r w', ∀ f, r.1 = Some f → file9_ok w' f) w h.
Proof.
  intros Hw Hh Hmay. apply okh_get. unfold may_walk9 in Hmay. destruct h as [r o st|f o st|f rdr]; simpl in *.
  - apply okh_root; [done|done|apply Hh|]. intros f w1 Hw1 L1 (Hf & _ & Hp) Hh1. apply okh_w; [|done].
    apply walk_ok; [done|done|]. by rewrite depth_parent, Hp.
  - apply okh_w; [|done]. apply walk_ok; [done|apply Hh|done].
  - apply okh_w; [|done]. apply walk_ok; [done|apply Hh|done].
Qed.

Lemma file_handle_ok w w' f rdr :
  later9 w w' → p9file_ok (w_store w) (length (w_fss w)) f → Fs.IsDir (f_ent f) = false →
  (∀ r, rdr = Some r → reading (w_store w') r) → p9handle_ok (w_store w') (length (w_fss w')) (HFile f rdr).
Proof. intros [Hk Hl] Hf Hd Hr. split_and!; [by eapply p9file_ok_keeps|done|done]. Qed.

Lemma Topen9_ok mode w h :
  p9world_ok w → p9handle_ok (w_store w) (length (w_fss w)) h →
  okh (Topen9 sz fuel HMAC key clock mode) (λ _ _, True) w h.
Proof.
  intros Hw Hh. destruct h as [r o st|f o st|f rdr].
  - apply okh_get. simpl in *. apply okh_root; [done|done|apply Hh|]. intros. by apply okh_ret.
  - apply okh_get. simpl in *. by apply okh_ret.
  - destruct Hh as (Hf & Hd & _). destruct (p9file_ok_inv _ _ _ Hf) as (_ & [_ He] & _). rewrite Hd in He.
    destruct He as [data Hc]. unfold okh. eapply wp_mono; [by apply (Topen_file_spec sz fuel HMAC key clock no_zero Get_no_zero); [apply Hw|]|..]; cbn beta.
    + intros q [w1 h1] (_ & O1 & rdr' & Hx & Hrd). simpl in *. subst h1.
      destruct (only_store_ok _ _ Hw O1) as [Hw1 L1]. split_and!; try done.
      apply (file_handle_ok w); try done. intros r [= <-]. by exists data, data.
    + intros e [w1 h1] (_ & O1 & Hx). simpl in *. subst h1.
      destruct (only_store_ok _ _ Hw O1) as [Hw1 L1]. split_and!; try done. by apply (file_handle_ok w).
Qed.

Lemma Tread9_ok off count n w h :
  p9world_ok w → p9handle_ok (w_store w) (length (w_fss w)) h → may_read9 n →
  okh (Tread9 sz fuel HMAC key clock off count n) (λ _ _, True) w h.
Proof.
  intros Hw Hh Hn. destruct h as [r o st|f o st|f [rdr|]].
  - apply okh_get. simpl. autounfold with p9. eapply okh_bind; [apply update_ok; [done|apply Hh]|done|]. cbn beta. intros _ w1 Hw1 L1 Hf.
    destruct Hh as [Hr Hst]. apply read_dir_ok; [done|done| |done|].
    + intros w2 c st' [_ L2] Hst'. destruct L1. split; [lia|done].
    + eapply ok9_bind; [by apply root_file_ok|]. cbn beta. intros f w2 Hw2 _ [-> (Hfok & Hd & _)].
      eapply ok9_mono; [by apply getChildren_ok|]. cbn beta. by intros cs w3 _ (ents & _ & ?).
  - apply okh_get. simpl. autounfold with p9. destruct Hh as (Hf & Hd & Hst). apply read_dir_ok; [done|done| |done|].
    + intros w2 c st' [Hk L2] Hst'. split_and!; [by eapply p9file_ok_keeps|done|done].
    + eapply ok9_mono; [by apply getChildren_ok|]. cbn beta. by intros cs w3 _ (ents & _ & ?).
  - destruct Hh as (Hf & Hd & Hr). destruct (Hr rdr eq_refl) as (data & rest & Hrd).
    unfold okh. eapply wp_mono; [by eapply (Tread_file_spec sz fuel HMAC key clock Heof no_zero Get_no_zero); [apply Hw|]|..]; cbn beta.
    + intros b [w1 h1] (O1 & rdr' & rest' & Hx & Hrd' & _). simpl in *. subst h1.
      destruct (only_store_ok _ _ Hw O1) as [Hw1 L1]. split_and!; try done.
      apply (file_handle_ok w); try done. intros r [= <-]. by exists data, rest'.
    + intros e [w1 h1] (_ & O1 & rdr' & Hx & Hrd'). simpl in *. subst h1.
      destruct (only_store_ok _ _ Hw O1) as [Hw1 L1]. split_and!; try done.
      apply (file_handle_ok w); try done. intros r [= <-]. by exists data, rest.
  - apply okh_get. simpl. autounfold with p9. by apply okh_throw.
Qed.

Lemma Tstat9_ok w h :
  p9world_ok w → p9handle_ok (w_store w) (length (w_fss w)) h → okh (Tstat9 sz fuel HMAC key clock) (λ _ _, True) w h.
Proof.
  intros Hw Hh. apply okh_get. destruct h as [r o st|f o st|f rdr]; simpl in *.
  - eapply okh_bind; [apply update_ok; [done|apply Hh]|done|]. cbn beta. intros _ w1 Hw1 L1 Hf.
    apply okh_w; [|by eapply handle9_later]. apply (Stat9_ok (FRoot r)); [done|]. destruct Hh, L1. simpl. lia.
  - apply okh_w; [|done]. by apply ok9_ret.
  - apply okh_w; [|done]. by apply ok9_ret.
Qed.

Lemma Clunk9_ok w h :
  p9world_ok w → p9handle_ok (w_store w) (length (w_fss w)) h → okh Clunk9 (λ _ _, True) w h.
Proof.
  intros Hw Hh. apply okh_get. destruct h as [r o st|f o st|f rdr]; simpl in *; try (by apply okh_ret).
  unfold okh, set_handle. wp_step. simpl. destruct Hh as (? & ? & _). done.
Qed.

Lemma attach9_ok aname w : p9world_ok w → ok9 (attachFunc aname) (λ f w', file9_ok w' f) w.
Proof.
  intros [Hr Hz Hf]. unfold ok9, attachFunc. wp_steps. simpl. split_and!.
  - split; simpl; [done|done|]. rewrite length_app. simpl. apply Forall_app. split; [|by repeat constructor].
    eapply Forall_impl; [exact Hf|]. intros x Hx. eapply fs9_ok_keeps; [done| |exact Hx]. lia.
  - split; simpl; [done|]. rewrite length_app. lia.
  - rewrite length_app. simpl. lia.
Qed.

#[global] Instance p9_laws :
  TreeLaws (H0 := file9_File sz fuel HMAC key clock) (H1 := handle9_Handle sz fuel HMAC key clock) attachFunc.
Proof.
  refine {| world_ok := p9world_ok; file_ok := file9_ok;
    handle_ok := λ w h, p9handle_ok (w_store w) (length (w_fss w)) h;
    later := later9; may_walk := λ _ h names, may_walk9 h names; may_read := may_read9 |}.
  - apply later9_refl.
  - apply later9_trans.
  - apply handle9_later.
  - apply file9_later.
  - apply attach9_ok.
  - apply Qid9_ok.
  - apply NewHandle_ok.
  - apply GetFile_ok.
  - apply Twalk9_ok.
  - apply Topen9_ok.
  - apply Tread9_ok.
  - intros off data w h Hw Hh. exact (okh_throw (A := Z) ErrReadOnly (λ _ _, True) w h Hw Hh).
  - intros name perm mode w h Hw Hh. exact (okh_throw (A := handle9) ErrReadOnly (λ h' w', p9handle_ok (w_store w') (length (w_fss w')) h') w h Hw Hh).
  - intros st w h Hw Hh. exact (okh_throw (A := unit) ErrReadOnly (λ _ _, True) w h Hw Hh).
  - intros w h Hw Hh. exact (okh_throw (A := unit) ErrReadOnly (λ _ _, True) w h Hw Hh).
  - apply Tstat9_ok.
  - apply Clunk9_ok.
Defined.

(** ** Theorems *)

Abbreviation attach := (attachFunc (St := St) (R := R)).
Abbreviation Server := (Server9.Server (W := World) (H := handle9)).
Definition p9_ok : Server → Prop := server_ok (TreeLaws0 := p9_laws) attach.

(** Walks stay below the root, buffers below 2 GB. *)
Definition p9_request_ok (srv : Server) (m : Msg) : Prop :=
  match m with
  | Twalk _ fid _ names => ∀ h, fids srv !! fid = Some h → may_walk9 h names
  | Tread _ _ _ count =>
    may_read9 (Z.to_nat (if bool_decide (count > u32 (negMessageSize srv - ReadOverhead))%Z
                         then u32 (negMessageSize srv - ReadOverhead) else count))
  | _ => True
  end.
Definition p9_answer : Msg → M Server Msg :=
  dispatch (H0 := file9_File sz fuel HMAC key clock) (H1 := handle9_Handle sz fuel HMAC key clock) attach.

(** C15: The 9P server over the stored tree answers every request it knows, under its tag, and no
    request panics whatever the store and the remote report, walks above the root
    apart; all files and handles stay usable for the next request; and the fids in use
    change as the request says: a clunk or a remove frees its fid whatever happens, a
    walk makes its new fid only when it succeeds and the fid was free or the one
    walked from, and nothing else changes the table.  The only error that ends the
    connection is a message that is not a request. *)
Theorem p9_dispatch srv m :
  p9_ok srv → p9_request_ok srv m →
  wp (p9_answer m)
    (λ r srv', tag_of r = tag_of m ∧ p9_ok srv' ∧ keeps (w_store (world srv)) (w_store (world srv')) ∧
               fids_change m r (dom (fids srv)) (dom (fids srv')))
    (λ e srv', e = ENew "bad message" ∧ srv' = srv) srv.
Proof.
  intros Hs Hm. eapply wp_mono; [by apply (dispatch_spec attach)| |done]; cbn beta.
  intros r srv' (? & ? & [? _] & ?). by split_and!.
Qed.
End P9Props.
