(* ===== verification/P9Demo.v ===== *)
(** The 9P server over the tree of FsDemo, whose root a remote in memory names. *)

From Stdlib Require Import ZArith Lia.
From stdpp Require Import base list gmap strings.
From coqutil Require Import Byte.
From S2P Require Import Prelude Io Proto9 Proto9Props Server9 Server9Props.
From S2P Require Import Store Htree HtreeSpec HtreeWrite HtreeRead HtreeProps Fs FsProps FsTree FsFile FsDemo.
From S2P Require Import Refs Remote Packs PacksMem GcProps P9Files P9Tree P9Props.

Set Default Goal Selector "!".

Module P9Demo.
Import FsDemo GcDemo.
#[local] Existing Instances params fs_params_ok FsDemo.store laws mem_client.

Definition HMAC1 (key msg : bytes) : bytes := [].
Definition clock1 (i : nat) : Z := 0.
Abbreviation World := (World (St := MemStore.MemStore) (R := MemRemote)).

(** ** The laws of the remote *)

Definition names_tree (s : MemStore.MemStore) (r : MemRemote) : Prop :=
  match (GetRoot HMAC1 key1 r).1 with
  | Ok (h, _, ok) => ok = true → ∃ ref, ref_at s h ref ∧ tree_ok fuel s (Refs.Root ref)
  | Err _ => True
  | _ => False
  end.

Lemma GetRoot_same r : (GetRoot HMAC1 key1 r).2 = r.
Proof.
  unfold GetRoot, mbind, M_bind. simpl. destruct (ReplyOk (m_root r)); simpl; [|done].
  destruct (bool_decide _); [done|]. unfold lift. by destruct (ParseHash _).
Qed.

#[local] Program Instance demo_roots : RootLaws fuel HMAC1 key1 :=
  {| has_root := names_tree; no_zero := λ s, MemStore.vals s !! no_hash = None |}.
Next Obligation.
  intros s s' r Hk. unfold names_tree. destruct (GetRoot HMAC1 key1 r) as [[[[h v] ok]|e| |] r']; try done. simpl.
  intros Hr Hok. destruct (Hr Hok) as (ref & Href & Ht). exists ref.
  split; [by eapply ref_at_keeps|by eapply tree_ok_keeps].
Qed.
Next Obligation.
  intros s r Hr. unfold wp. pose proof (GetRoot_same r) as Hsame. unfold names_tree in *.
  destruct (GetRoot HMAC1 key1 r) as [[[[h v] ok]|e| |] r'] eqn:Hget; simpl in *; subst r'; try done; rewrite Hget; simpl; auto.
Qed.
Next Obligation. intros h s Hz. simpl. unfold MemStore.get, mbind, M_bind, get. simpl. by destruct (MemStore.vals s !! h). Qed.
Next Obligation. intros s Hz. simpl. unfold MemStore.get. wp_step. wp_step. rewrite Hz. by wp_step. Qed.

(** ** The tree *)

Lemma s1_s4 : keeps s1 s4.
Proof. destruct root_written as [Hk _], ref1_stored as [_ Hk']. by transitivity s2. Qed.

Lemma fox_content : file_content s4 t1 data.
Proof. eapply file_content_keeps; [apply s1_s4|apply data_stored]. Qed.

Lemma root_dirs : dirs fuel s4 (Data (EntHTree root)) mode kids.
Proof. destruct root_written as [_ Hd], ref1_stored as [_ Hk']. by eapply dirs_keeps. Qed.

Lemma root_readable : readable s4 kids.
Proof.
  intros path m t Hl. destruct path as [|n path]; [done|]. destruct (decide (n = name)) as [->|Hn].
  - destruct path as [|n' path]; [|done]. cbn [t_lookup] in Hl. unfold kids in Hl. rewrite lookup_singleton_eq in Hl.
    injection Hl as _ <-. exists data. apply fox_content.
  - assert (Hk : kids !! n = None) by (by apply lookup_singleton_ne).
    cbn [t_lookup] in Hl. rewrite Hk in Hl. by destruct path.
Qed.

Lemma root_dir : dir_at fuel s4 (EntHTree root) (Z.lor mode ModeDir) [file].
Proof.
  assert (Hw : wp (WriteDir [file] mode) (λ e s', ∃ t, e = dot_ent (Z.lor mode ModeDir) t ∧
    keeps s1 s' ∧ distinct [file] ∧ dir_at fuel s' t (Z.lor mode ModeDir) (Sort [file])) (λ _ _, True) s1).
  { eapply wp_mono; [apply (WriteDir_spec fuel s1 [file] mode)|done|done].
    - apply Forall_singleton. left. apply file_valid.
    - by vm_compute.
    - by apply Nat.ltb_lt.
    - eapply Nat.lt_le_trans; [|apply fuel_capacity]. by apply Nat.ltb_lt. }
  destruct (step_ok _ zero_dirent _ _ _ Hw) as (t & Ht & _ & _ & Hd); [by vm_compute|].
  assert (Hroot : EntHTree root = t) by (unfold root; rewrite Ht; reflexivity). rewrite Hroot.
  eapply dir_at_keeps; [apply ref1_stored|]. exact Hd.
Qed.

(** ** The server *)

Definition fs1 : fs9 := mkFs9 0 0 None 0.
Definition world1 : World := mkWorld s4 remote1 [fs1] 0.
Definition server0 : Server9.Server (W := World) (H := handle9) := new_p9 s4 remote1.

Abbreviation server_fine := (p9_ok sz fuel HMAC1 key1 clock1 sz_pos fuel_72 no_eof).
Abbreviation answer := (p9_answer sz fuel HMAC1 key1 clock1).

Lemma world0_ok : p9world_ok fuel HMAC1 key1 (world server0).
Proof.
  assert (Hz : bool_decide (MemStore.vals s4 !! no_hash = None) = true) by (vm_cast_no_check (eq_refl true)).
  split; [|exact (bool_decide_eq_true_1 _ Hz)|constructor].
  assert (Hget : (GetRoot HMAC1 key1 remote1).1 = Ok (root1, [], true)) by (by vm_compute).
  change (names_tree s4 remote1). unfold names_tree. rewrite Hget. intros _. exists ref1. split; [apply ref1_stored|].
  exists mode, kids. split; [apply root_dirs|apply root_readable].
Qed.

Lemma server0_ok : server_fine server0.
Proof. split; [apply world0_ok|set_solver|apply map_Forall_empty]. Qed.

Lemma p9_dispatch_witness :
  wp (answer (Tattach 1 7 NOFID [] []))
    (λ r srv', tag_of r = 1%Z ∧ server_fine srv' ∧ keeps (w_store (world server0)) (w_store (world srv')) ∧
               fids_change (Tattach 1 7 NOFID [] []) r (dom (fids server0)) (dom (fids srv')))
    (λ e srv', e = ENew "bad message" ∧ srv' = server0) server0.
Proof.
  exact (p9_dispatch sz fuel HMAC1 key1 clock1 sz_pos fuel_72 no_eof server0 (Tattach 1 7 NOFID [] []) server0_ok I).
Defined.

(** Attach, walk to the file, open it, read it to its end, give it up. *)
Definition session : list Msg :=
  [Tattach 1 7 NOFID [] []; Twalk 2 7 8 [name]; Topen 3 8 0; Tread 4 8 0 9; Tread 5 8 9 100; Tread 6 8 43 100;
   Tclunk 7 8; Tread 8 8 43 100; Twalk 9 7 9 [other]].
Fixpoint serve (ms : list Msg) (srv : Server9.Server (W := World) (H := handle9)) : list (outcome Msg) :=
  match ms with
  | [] => []
  | m :: ms => let '(r, srv') := answer m srv in r :: serve ms srv'
  end.

Example session_runs :
  serve session server0 =
  [Ok (Rattach 1 (mkQid QTDIR 1 0)); Ok (Rwalk 2 [mkQid QTDIR 0 1]); Ok (Ropen 3 (mkQid QTFILE 1 2) 1048553);
   Ok (Rread 4 (str "the quick")); Ok (Rread 5 (str " brown fox jumps over the lazy dog")); Ok (Rread 6 []);
   Ok (Rclunk 7); Ok (MakeError 8 (str "no such fid")); Ok (MakeError 9 (str "/dog does not exist"))].
Proof. by vm_compute. Qed.

(** A walk above the root takes the server down. *)
Example walk_up_panics :
  serve [Tattach 1 7 NOFID [] []; Twalk 2 7 8 [dotdot]] server0 = [Ok (Rattach 1 (mkQid QTDIR 1 0)); Panic].
Proof. by vm_compute. Qed.

(** A second listing through the same handle fails. *)
Example second_listing :
  serve [Tattach 1 7 NOFID [] []; Tread 2 7 0 1000; Tread 3 7 0 1000] server0 !! 2 = Some (Ok (MakeError 3 (str "bad read"))).
Proof. by vm_compute. Qed.

Definition root9 : P9Files.file :=
  mkFile 0 None (str "/") (mkQid QTDIR 0 1) (ent_stat (mkQid QTDIR 0 1) root) root.
Definition fox9 : P9Files.file :=
  mkFile 0 (Some root9) (str "/fox") (mkQid QTFILE 1 2) (ent_stat (mkQid QTFILE 1 2) file) file.

Lemma p9_file_reads_witness :
  wp (Topen9 sz fuel HMAC1 key1 clock1 0;; tread_seq sz fuel HMAC1 key1 clock1 0 [9; 100])
    (λ bs _, ∃ rest, data = concat bs ++ rest ∧ Forall2 (λ b n, length b ≤ n) bs [9; 100] ∧
       (Forall (λ n, 1 ≤ n) [9; 100] → length data ≤ length [9; 100] → rest = []))
    (λ e _, get_fails (H := FsDemo.store) e) (world1, HFile fox9 None).
Proof. exact (p9_file_reads sz fuel HMAC1 key1 clock1 no_eof fox9 None 0 data [9; 100] world1 fox_content). Defined.

Lemma p9_dir_reads_witness :
  wp (tread_seq sz fuel HMAC1 key1 clock1 0 [200; 300])
    (λ bs _, ∃ stats groups rest,
       Forall2 (λ e st, st = ent_stat (s_Qid st) e ∧ valid_qid (s_Qid st)) [file] stats ∧
       stats = concat groups ++ rest ∧ bs = stats_bytes <$> groups ∧ (length [file] ≤ length [200; 300] → rest = []))
    (λ e _, get_fails (H := FsDemo.store) e ∨ e = ErrBuffTooSmall ∧ ∃ x n, x ∈ [file] ∧ n ∈ [200; 300] ∧ n < stat_size x)
    (world1, HDir root9 0 []).
Proof.
  apply (p9_dir_reads sz fuel HMAC1 key1 clock1 sz_pos no_eof root9 (EntHTree root) (Z.lor mode ModeDir) [file] [200; 300] [] world1).
  - by vm_compute.
  - done.
  - apply root_dir.
  - simpl. lia.
  - apply Forall_singleton. by vm_compute.
  - repeat constructor.
  - by vm_compute.
Defined.

Lemma root9_shows : shows fuel world1 root9 kids.
Proof.
  split_and!; [simpl; lia|apply Forall_singleton; by vm_compute|by vm_compute|done|].
  exists mode. apply root_dirs.
Qed.

Lemma p9_walk_refines_witness :
  wp (Server9.Walk (H := handle9) (H0 := file9_File sz fuel HMAC1 key1 clock1) (FFile root9) [name])
    (λ r w', keeps (w_store world1) (w_store w') ∧
       match r with
       | (Some x, qids) => ∃ c n, x = FFile c ∧ t_lookup kids [name] = Some n ∧
           ent_repr fuel (w_store w') (f_ent c) n ∧ last [name] = Some (EntName (f_ent c)) ∧ length qids = length [name]
       | (None, _) => t_lookup kids [name] = None
       end)
    (λ e _, get_fails (H := FsDemo.store) e ∨ t_lookup kids [name] = None) world1.
Proof.
  apply (p9_walk_refines sz fuel HMAC1 key1 clock1 sz_pos no_eof root9 [name] kids world1).
  - by intros [].
  - apply root9_shows.
  - apply Forall_singleton, good_name_fox.
  - done.
Defined.

Lemma p9_walk_above_root_witness :
  Server9.Walk (H := handle9) (H0 := file9_File sz fuel HMAC1 key1 clock1) (FFile root9) [dotdot; name] world1 = (Panic, world1).
Proof. exact (p9_walk_above_root sz fuel HMAC1 key1 clock1 root9 [name] world1 eq_refl). Defined.

Lemma p9_root_current_witness :
  wp (update sz fuel HMAC1 key1 clock1 0) (λ _ w', root_is (Refs.Root ref1) 0 w') (λ _ _, False) world1.
Proof.
  apply (p9_root_current sz fuel HMAC1 key1 clock1 sz_pos no_eof root1 [] remote1 ref1 (EntHTree root) (Z.lor mode ModeDir) [file] 0 world1).
  - apply fuel_72.
  - by intros e [].
  - simpl. lia.
  - apply Forall_singleton. by vm_compute.
  - intros x f [= <-] Hf. discriminate Hf.
  - by vm_compute.
  - apply ref1_stored.
  - done.
  - apply root_dir.
Defined.
End P9Demo.
