(* ===== verification/Host.v ===== *)
(** Trees of the host in and out of a store: fs/fsutil/cp.go.

    The host's file system is a tree of nodes.  A path is the list of the names of an
    absolute path; symbolic links are not followed.  Every system call may
    fail as [fault] decides, [rd] says how much a read returns, and [umask] is the
    one of the process. *)

From Stdlib Require Import ZArith Lia.
From stdpp Require Import base list strings gmap sorting.
From coqutil Require Import Byte.
From S2P Require Import Prelude Store Io Htree HtreeProps Fs.

Set Default Goal Selector "!".

(** ** os.FileMode *)

Definition ModeSymlink : Z := 2 ^ 27.
Definition ModeDevice : Z := 2 ^ 26.
Definition ModeNamedPipe : Z := 2 ^ 25.
Definition ModeSocket : Z := 2 ^ 24.
Definition ModeSetuid : Z := 2 ^ 23.
Definition ModeSetgid : Z := 2 ^ 22.
Definition ModeSticky : Z := 2 ^ 20.
Definition ModePerm : Z := 0x1ff.
Definition ModeType : Z :=
  Z.lor ModeDir (Z.lor ModeSymlink (Z.lor ModeNamedPipe (Z.lor ModeSocket ModeDevice))).
Definition mode_IsRegular (m : Z) : bool := bool_decide (Z.land m ModeType = 0%Z).

(** ** The host *)

(** [HOther] is what is neither a file nor a directory. *)
Inductive hnode :=
  | HReg (mode : Z) (data : bytes)
  | HDir (mode : Z) (kids : gmap bytes hnode)
  | HOther (mode : Z) (data : bytes).

Definition h_mode (n : hnode) : Z := match n with HReg m _ | HDir m _ | HOther m _ => m end.

(** [os.FileInfo] *)
Record FileInfo := mkInfo { fi_Name : bytes; fi_Size : Z; fi_Mode : Z }.
Definition info_of (name : bytes) (n : hnode) : FileInfo :=
  mkInfo name (match n with HReg _ d | HOther _ d => Z.of_nat (length d) | HDir _ _ => 0 end) (h_mode n).

Fixpoint h_lookup (n : hnode) (path : list bytes) : option hnode :=
  match path with
  | [] => Some n
  | name :: path =>
    match n with
    | HDir _ kids => match kids !! name with Some n' => h_lookup n' path | None => None end
    | _ => None
    end
  end.

(** Put [x] at [path], whose directory has to be there. *)
Fixpoint h_insert (x : hnode) (n : hnode) (path : list bytes) : option hnode :=
  match path with
  | [] => Some x
  | name :: path =>
    match n with
    | HDir m kids =>
      match path with
      | [] => Some (HDir m (<[name := x]> kids))
      | _ :: _ => n' ← kids !! name; n'' ← h_insert x n' path; Some (HDir m (<[name := n'']> kids))
      end
    | _ => None
    end
  end.

Record Host := mkHost { h_tree : hnode; h_calls : nat }.

Definition ENOENT : error := ENew "no such file or directory".
Definition EEXIST : error := ENew "file exists".
Definition ENOTDIR : error := ENew "not a directory".
Definition EISDIR : error := ENew "is a directory".

(** [filepath.Join] of an absolute path and a name *)
Definition path_join (path : list bytes) (name : bytes) : list bytes := clean_elems (path ++ Split name).
(** [filepath.Base] *)
Definition path_base (path : list bytes) : bytes := match last path with Some name => name | None => [slash] end.

Definition name_le (a b : FileInfo) : Prop := str_lt (fi_Name b) (fi_Name a) = false.
#[global] Instance name_le_dec : RelDecision name_le.
Proof. intros a b. unfold name_le. apply _. Defined.

(** The buffer of [io.Copy]. *)
Definition copy_buf : nat := Z.to_nat 32768.

Section Host.
Variables (fault : nat → option error) (rd : nat → nat) (umask : Z).

(** A system call that may fail; its number. *)
Definition syscall : M Host nat :=
  h ← get;
  modify (λ h, mkHost (h_tree h) (S (h_calls h)));;
  match fault (h_calls h) with Some e => throw e | None => mret (h_calls h) end.

Definition os_Stat (path : list bytes) : M Host FileInfo :=
  syscall;;
  h ← get;
  match h_lookup (h_tree h) path with
  | Some n => mret (info_of (path_base path) n)
  | None => throw ENOENT
  end.

(** [ioutil.ReadDir]: the entries in the order of their names *)
Definition ioutil_ReadDir (path : list bytes) : M Host (list FileInfo) :=
  syscall;;
  h ← get;
  match h_lookup (h_tree h) path with
  | Some (HDir _ kids) => mret (merge_sort name_le ((λ x, info_of x.1 x.2) <$> map_to_list kids))
  | Some _ => throw ENOTDIR
  | None => throw ENOENT
  end.

(** What reading an open file gives. *)
Definition os_Open (path : list bytes) : M Host bytes :=
  syscall;;
  h ← get;
  match h_lookup (h_tree h) path with
  | Some (HReg _ data) | Some (HOther _ data) => mret data
  | Some (HDir _ _) => throw EISDIR
  | None => throw ENOENT
  end.

(** The next bytes of a file that has [rest] left; [io.EOF] is an empty answer. *)
Definition os_Read (rest : bytes) : M Host bytes :=
  i ← syscall;
  mret (take (S (rd i `min` pred copy_buf)) rest).

(** A new node at [path], where there must be none. *)
Definition h_create (path : list bytes) (n : hnode) : M Host unit :=
  syscall;;
  h ← get;
  match h_lookup (h_tree h) path, h_insert n (h_tree h) path with
  | Some _, _ => throw EEXIST
  | None, Some t => modify (λ h, mkHost t (h_calls h))
  | None, None => throw ENOENT
  end.
(** What mkdir(2) and open(2) make of a mode: of a directory's they take the permissions and the
    sticky bit, of a file's the set-user-ID and set-group-ID bits as well.  (The set-group-ID bit that
    a directory may get from the one it is in is left out.) *)
Definition dir_bits : Z := Z.lor ModePerm ModeSticky.
Definition file_bits : Z := Z.lor (Z.lor ModePerm ModeSticky) (Z.lor ModeSetuid ModeSetgid).
Definition created_dir (mode : Z) : Z := Z.lor ModeDir (Z.ldiff (Z.land mode dir_bits) umask).
Definition created_file (mode : Z) : Z := Z.ldiff (Z.land mode file_bits) umask.
Definition os_Mkdir (path : list bytes) (mode : Z) : M Host unit := h_create path (HDir (created_dir mode) ∅).
(** [os.OpenFile(path, os.O_EXCL|os.O_CREATE|os.O_WRONLY, mode)] *)
Definition os_OpenFile (path : list bytes) (mode : Z) : M Host unit := h_create path (HReg (created_file mode) []).

(** [Write] of the file at [path]. *)
Definition os_Write (path : list bytes) (d : bytes) : M Host unit :=
  syscall;;
  h ← get;
  match h_lookup (h_tree h) path with
  | Some (HReg m data) =>
    match h_insert (HReg m (data ++ d)) (h_tree h) path with
    | Some t => modify (λ h, mkHost t (h_calls h))
    | None => throw ENOENT
    end
  | _ => throw ENOENT
  end.

(** ** cp.go *)
Context {P : Params} {St : Type} `{CStore St}.
Variables (sz : nat → nat) (fuel : nat).

Record FsHost := mkFsHost { fh_store : St; fh_host : Host }.
Definition on_fs {A} : M St A → M FsHost A := zoom fh_store (λ s x, mkFsHost s (fh_host x)).
Definition on_host {A} : M Host A → M FsHost A := zoom fh_host (λ h x, mkFsHost (fh_store x) h).

(** A new writer, a new reader, beside the host *)
Definition with_fout {A} (c : M (Writer St * Host) A) : M FsHost A := λ x,
  let '(o, (w, h)) := c (NewWriter (fh_store x), fh_host x) in (o, mkFsHost (w_store w) h).
Definition with_f {A} (hash : hash) (c : M (Reader St * Host) A) : M FsHost A := λ x,
  let '(o, (r, h)) := c (blank_reader (fh_store x) hash, fh_host x) in (o, mkFsHost (r_store r) h).
Definition of_fst {T A} : M T A → M (T * Host) A := zoom fst (λ t y, (t, y.2)).
Definition of_snd {T A} : M Host A → M (T * Host) A := zoom snd (λ h y, (y.1, h)).

(** [io.Copy(fout, fin)] into a tree: a read gives at least one byte or the end. *)
Fixpoint copy_in (fuel : nat) (rest : bytes) : M (Writer St * Host) unit :=
  match fuel with
  | O => diverge
  | S fuel =>
    d ← of_snd (os_Read rest);
    if bool_decide (d = []) then mret ()
    else
      of_fst (Htree.Write d);;
      copy_in fuel (drop (length d) rest)
  end.

Definition hostFileToHashTree (path : list bytes) : M FsHost HTree :=
  fin ← on_host (os_Open path);
  deferred
    (with_fout (copy_in (S (length fin)) fin;; of_fst CloseWriter))
    (on_host syscall).

(** [io.Copy(fout, f)] to the file at [dst] *)
Fixpoint copy_out (fuel : nat) (dst : list bytes) : M (Reader St * Host) unit :=
  match fuel with
  | O => diverge
  | S fuel =>
    o ← try (of_fst (Htree.Read copy_buf));
    match o with
    | inl d =>
      (if bool_decide (d = []) then mret () else of_snd (os_Write dst d));;
      copy_out fuel dst
    | inr e => if bool_decide (e = EOF) then mret () else throw e
    end
  end.

Definition hashTreeToHostFile (hash : hash) (dst : list bytes) (mode : Z) : M FsHost unit :=
  with_f hash (
    of_fst Htree.NewReader;;
    of_snd (os_OpenFile dst mode);;
    o ← try (copy_out fuel dst);
    match o with
    | inr err => _ ← try (of_snd syscall); throw err
    | inl _ => of_snd syscall;; mret ()
    end).

(** The loop of [cpHostDirToFs]; [rec] copies a directory below. *)
Fixpoint cp_host_ents (rec : list bytes → M FsHost DirEnt) (path : list bytes) (ents : list FileInfo) : M FsHost (list DirEnt) :=
  match ents with
  | [] => mret []
  | e :: ents =>
    if mode_IsRegular (fi_Mode e) then
      t ← hostFileToHashTree (path_join path (fi_Name e));
      dir ← cp_host_ents rec path ents;
      mret (mkDirEnt (fi_Name e) (fi_Size e) 0 (fi_Mode e) t :: dir)
    else if mode_IsDir (fi_Mode e) then
      newEnt ← rec (path_join path (fi_Name e));
      dir ← cp_host_ents rec path ents;
      mret (mkDirEnt (fi_Name e) 0 0 (fi_Mode e) (EntHTree newEnt) :: dir)
    else cp_host_ents rec path ents
  end.

Fixpoint cpHostDirToFs (depth : nat) (path : list bytes) : M FsHost DirEnt :=
  match depth with
  | O => diverge
  | S depth =>
    st ← on_host (os_Stat path);
    ents ← on_host (ioutil_ReadDir path);
    dir ← cp_host_ents (cpHostDirToFs depth) path ents;
    dirEnt ← on_fs (WriteDir dir (fi_Mode st));
    mret (set_EntName (path_base path) dirEnt)
  end.

Fixpoint cp_fs_ents (rec : hash → list bytes → M FsHost unit) (dest : list bytes) (ents : list DirEnt) : M FsHost unit :=
  match ents with
  | [] => mret ()
  | e :: ents =>
    let subp := path_join dest (EntName e) in
    (if mode_IsDir (EntMode e) then rec (Data (EntHTree e)) subp
     else if mode_IsRegular (EntMode e) then hashTreeToHostFile (Data (EntHTree e)) subp (EntMode e)
     else mret ());;
    cp_fs_ents rec dest ents
  end.

Fixpoint cpFsDirToHost (depth : nat) (hash : hash) (dest : list bytes) : M FsHost unit :=
  match depth with
  | O => diverge
  | S depth =>
    ents ← on_fs (ReadDir sz fuel hash);
    e0 ← lift (idx ents 0);
    on_host (os_Mkdir dest (EntMode e0));;
    ents ← lift (slice ents 1 (length ents));
    cp_fs_ents (cpFsDirToHost depth) dest ents
  end.

Definition CpHostToFs (depth : nat) (src : list bytes) : M FsHost DirEnt :=
  st ← on_host (os_Stat src);
  if mode_IsDir (fi_Mode st) then cpHostDirToFs depth src
  else
    t ← hostFileToHashTree src;
    mret (mkDirEnt (fi_Name st) (fi_Size st) 0 (fi_Mode st) t).

Definition CpFsToHost (depth : nat) (root : hash) (src : bytes) (dst : list bytes) : M FsHost unit :=
  ent ← on_fs (Walk sz fuel root src);
  if Fs.IsDir ent then cpFsDirToHost depth (Data (EntHTree ent)) dst
  else hashTreeToHostFile (Data (EntHTree ent)) dst (EntMode ent).
End Host.
