(* ===== verification/HostProps.v ===== *)
(** What [CpHostToFs] stores of a host's tree, and that [CpFsToHost] gives it back. *)

From Stdlib Require Import ZArith Lia.
From stdpp Require Import base list strings gmap sorting.
From coqutil Require Import Byte.
From S2P Require Import Prelude Store Io Htree HtreeSpec HtreeWrite HtreeRead HtreeProps Fs FsProps FsTree FsFile FsDemo Host.

Set Default Goal Selector "!".

Lemma copy_buf_pos : 1 ≤ copy_buf.
Proof. unfold copy_buf. lia. Qed.

#[local] Opaque copy_buf.

(** ** Paths *)

Lemma path_join_good path name : Forall good_name (path ++ [name]) → path_join path name = path ++ [name].
Proof.
  intros Hg. pose proof Hg as [_ (_ & _ & _ & Hs)%Forall_singleton]%Forall_app. unfold path_join. rewrite Split_word by done.
  pose proof (clean_good (path ++ [name]) [] Hg (Forall_nil_2 _)) as Hc. rewrite app_nil_r in Hc. by rewrite <-Hc at 2.
Qed.

Lemma h_lookup_app n p q : h_lookup n (p ++ q) = match h_lookup n p with Some n' => h_lookup n' q | None => None end.
Proof.
  revert n. induction p as [|name p IH]; intros n; [done|]. destruct n as [| m kids |]; try done. simpl.
  destruct (kids !! name) as [n'|]; [apply IH|done].
Qed.

Lemma h_insert_deep x m kids name p :
  p ≠ [] → h_insert x (HDir m kids) (name :: p) =
  (n' ← kids !! name; n'' ← h_insert x n' p; Some (HDir m (<[name := n'']> kids))).
Proof. by destruct p. Qed.

(** Reading back what was put at a path. *)
Lemma h_insert_lookup x n p n' : h_insert x n p = Some n' → h_lookup n' p = Some x.
Proof.
  revert n n'. induction p as [|name p IH]; intros n n' Hi; [by injection Hi as ->|]. destruct n as [|m kids|]; try done.
  destruct (decide (p = [])) as [->|Hp].
  - simpl in Hi. simplify_eq. simpl. by rewrite lookup_insert_eq.
  - rewrite h_insert_deep in Hi by done. destruct (kids !! name) as [k|] eqn:Hk; [|done]. simpl in Hi.
    destruct (h_insert x k p) as [k'|] eqn:Hk'; [|done]. simpl in Hi. simplify_eq.
    cbn [h_lookup]. rewrite lookup_insert_eq. by eapply IH.
Qed.

Lemma h_insert_insert x y n p n' : h_insert x n p = Some n' → h_insert y n' p = h_insert y n p.
Proof.
  revert n n'. induction p as [|name p IH]; intros n n' Hi; [done|]. destruct n as [|m kids|]; try done.
  destruct (decide (p = [])) as [->|Hp].
  - simpl in *. simplify_eq. by rewrite insert_insert_eq.
  - rewrite h_insert_deep in Hi |- * by done. destruct (kids !! name) as [k|] eqn:Hk; [|done]. simpl in Hi.
    destruct (h_insert x k p) as [k'|] eqn:Hk'; [|done]. simpl in Hi. simplify_eq. rewrite h_insert_deep by done.
    rewrite lookup_insert_eq. simpl. rewrite (IH _ _ Hk'). destruct (h_insert y k p); [|done]. simpl.
    by rewrite insert_insert_eq.
Qed.

(** A new entry of a directory that was put at [p]. *)
Lemma h_insert_kid m kids name y n p n' :
  h_insert (HDir m kids) n p = Some n' → h_insert y n' (p ++ [name]) = h_insert (HDir m (<[name := y]> kids)) n p.
Proof.
  revert n n'. induction p as [|name' p IH]; intros n n' Hi; [by simpl in *; simplify_eq|].
  destruct n as [|m' kids'|]; try done. change ((name' :: p) ++ [name]) with (name' :: (p ++ [name])).
  destruct (decide (p = [])) as [->|Hp].
  - simpl in *. simplify_eq. rewrite lookup_insert_eq. simpl. by rewrite insert_insert_eq.
  - rewrite h_insert_deep in Hi |- * by done. destruct (kids' !! name') as [k|] eqn:Hk; [|done]. simpl in Hi.
    destruct (h_insert (HDir m kids) k p) as [k'|] eqn:Hk'; [|done]. simpl in Hi. simplify_eq.
    rewrite h_insert_deep by (by destruct p). rewrite lookup_insert_eq. simpl. rewrite (IH _ _ Hk').
    destruct (h_insert (HDir m (<[name:=y]> kids)) k p); [|done]. simpl. by rewrite insert_insert_eq.
Qed.

Lemma h_insert_none x y n p n' : h_insert x n p = Some n' → h_insert y n p = None → False.
Proof.
  revert n n'. induction p as [|name p IH]; intros n n' Hi Hn; [done|]. destruct n as [|m kids|]; try done.
  destruct (decide (p = [])) as [->|Hp]; [done|]. rewrite h_insert_deep in Hi, Hn by done.
  destruct (kids !! name) as [k|]; [|done]. simpl in *. destruct (h_insert x k p) as [k'|] eqn:Hk; [|done].
  destruct (h_insert y k p) eqn:Hy; [done|]. by eapply IH.
Qed.

Section Host.
Context {P : Params} {Pok : ParamsOk} {St : Type} `{CStoreLaws St}.
Variables (fault : nat → option error) (rd : nat → nat) (umask : Z) (sz : nat → nat) (fuel : nat).
Hypothesis Hsz : ∀ i, 1 ≤ sz i.
Hypothesis Heof : ¬ get_fails EOF.
Hypothesis Hcap : fuel ≤ max_stream.
Hypothesis Hmem : (Z.of_nat fuel ≤ 2 ^ 63)%Z.
Implicit Types (s : St) (x : FsHost (St := St)).

Definition host_fails (e : error) : Prop := ∃ i, fault i = Some e.

Lemma host_call_spec h :
  wp (syscall fault) (λ _ h', h_tree h' = h_tree h) (λ e h', host_fails e ∧ h_tree h' = h_tree h) h.
Proof.
  unfold syscall. wp_steps. destruct (fault (h_calls h)) as [e|] eqn:He; wp_step; [|done]. split; [by eexists|done].
Qed.

Lemma wp_of_fst {T A} (c : M T A) Q E (y : T * Host) :
  wp c (λ a t, Q a (t, y.2)) (λ e t, E e (t, y.2)) y.1 → wp (of_fst c) Q E y.
Proof. intros Hc. unfold of_fst. by wp_step. Qed.
Lemma wp_of_snd {T A} (c : M Host A) Q E (y : T * Host) :
  wp c (λ a h, Q a (y.1, h)) (λ e h, E e (y.1, h)) y.2 → wp (of_snd c) Q E y.
Proof. intros Hc. unfold of_snd. by wp_step. Qed.

Lemma wp_with_fout {A} (c : M (Writer St * Host) A) Q E x :
  wp c (λ a y, Q a (mkFsHost (w_store y.1) y.2)) (λ e y, E e (mkFsHost (w_store y.1) y.2)) (NewWriter (fh_store x), fh_host x) →
  wp (with_fout c) Q E x.
Proof. unfold wp, with_fout. by destruct (c _) as [[] [? ?]]. Qed.
Lemma wp_with_f {A} hash (c : M (Reader St * Host) A) Q E x :
  wp c (λ a y, Q a (mkFsHost (r_store y.1) y.2)) (λ e y, E e (mkFsHost (r_store y.1) y.2)) (blank_reader (fh_store x) hash, fh_host x) →
  wp (with_f hash c) Q E x.
Proof. unfold wp, with_f. by destruct (c _) as [[] [? ?]]. Qed.

(** ** Trees that can be stored *)

(** Room for the names of a directory. *)
Definition names_size (kids : gmap bytes hnode) : nat := ent_size dot + sum_list_with ent_size (elements (dom kids)).

Fixpoint backable (d : nat) (n : hnode) : Prop :=
  match n with
  | HReg mode data => (0 ≤ mode < 2 ^ 32)%Z ∧ mode_IsRegular mode = true ∧ length data < fuel
  | HOther mode _ => mode_IsRegular mode = false ∧ mode_IsDir mode = false
  | HDir mode kids =>
    match d with
    | O => False
    | S d => (0 ≤ mode < 2 ^ 32)%Z ∧ mode_IsDir mode = true ∧ names_size kids < fuel ∧
             ∀ name n', kids !! name = Some n' → good_name name ∧ (Z.of_nat (length name) ≤ 65535)%Z ∧ backable d n'
    end
  end.

Lemma backable_reg d mode data :
  backable d (HReg mode data) → (0 ≤ mode < 2 ^ 32)%Z ∧ mode_IsRegular mode = true ∧ length data < fuel.
Proof. by destruct d. Qed.
Lemma backable_other d mode data :
  backable d (HOther mode data) → mode_IsRegular mode = false ∧ mode_IsDir mode = false.
Proof. by destruct d. Qed.
Lemma backable_dir d mode kids :
  backable d (HDir mode kids) → (0 ≤ mode < 2 ^ 32)%Z ∧ mode_IsDir mode = true ∧ names_size kids < fuel ∧
  ∃ d', d = S d' ∧ ∀ name n', kids !! name = Some n' → good_name name ∧ (Z.of_nat (length name) ≤ 65535)%Z ∧ backable d' n'.
Proof. destruct d as [|d]; [done|]. intros (? & ? & ? & ?). eauto 10. Qed.

Definition kept (n : hnode) : Prop := match n with HOther _ _ => False | _ => True end.

(** Node [n] of the abstract tree is the host's node. *)
Inductive stored s : node → hnode → Prop :=
  | stored_file m t data : file_content s t data → stored s (File m t) (HReg (m_mode m) data)
  | stored_dir m mode ks kids :
      (∀ name, is_Some (ks !! name) ↔ ∃ n, kids !! name = Some n ∧ kept n) →
      (∀ name k n, ks !! name = Some k → kids !! name = Some n → stored s k n) →
      stored s (Folder m mode ks) (HDir mode kids).

Lemma stored_keeps s s' k n : keeps s s' → stored s k n → stored s' k n.
Proof.
  intros Hk. induction 1 as [m t data (? & ? & ? & ?)|m mode ks kids Hd _ IH].
  - constructor. split_and!; try done. by eapply tree_at_keeps.
  - by constructor.
Qed.

(** ** Files into trees *)

Lemma copy_in_spec k : ∀ rest (w : Writer St) h d,
  wrote w d → (d = [] ∨ tailed w) → length (d ++ rest) < max_stream → length rest < k →
  wp (copy_in fault rd k rest)
    (λ _ y, wrote y.1 (d ++ rest) ∧ keeps (w_store w) (w_store y.1) ∧ (d ++ rest = [] ∨ tailed y.1) ∧
            (rest = [] → y.1 = w) ∧ h_tree y.2 = h_tree h)
    (λ e y, (host_fails e ∨ put_fails e) ∧ h_tree y.2 = h_tree h) (w, h).
Proof.
  induction k as [|k IH]; intros rest w h d Hw Ht Hlt Hk; [lia|]. cbn [copy_in]. wp_step. apply wp_of_snd. unfold os_Read.
  wp_step. eapply wp_mono; [apply host_call_spec|..]; cbn beta; [|by intros e h' [? ?]; auto].
  intros i h1 Hh1. wp_step. cbn [fst snd]. set (n := S _). destruct rest as [|b rest].
  { rewrite take_nil. simpl. wp_step. rewrite app_nil_r in *. by split_and!. }
  rewrite bool_decide_eq_false_2 by done. wp_step. apply wp_of_fst. cbn [fst snd].
  assert (Hsplit : b :: rest = take n (b :: rest) ++ drop n (b :: rest)) by (by rewrite take_drop).
  assert (Hlen : length (take n (b :: rest)) ≤ length (b :: rest)) by (rewrite length_take; lia).
  assert (Hdrop : drop (length (take n (b :: rest))) (b :: rest) = drop n (b :: rest)).
  { rewrite length_take. destruct (decide (n ≤ length (b :: rest))); [by rewrite Nat.min_l by lia|].
    rewrite Nat.min_r, !drop_ge by lia. done. }
  eapply wp_mono; [apply (Write_spec _ w d Hw)|..]; cbn beta.
  - rewrite length_app in *. lia.
  - intros _ w1 (_ & Hw1 & Hk1 & Htl). rewrite Hdrop. cbn [fst snd].
    eapply wp_mono; [apply (IH _ w1 h1 _ Hw1)|..]; cbn beta.
    + right. apply Htl. by right.
    + by rewrite <-app_assoc, take_drop.
    + rewrite length_drop. simpl in *. lia.
    + intros _ y (Hy & Hky & Hty & _ & Hhy). rewrite <-app_assoc, take_drop in Hy, Hty. rewrite Hh1 in Hhy.
      split_and!; try done. by transitivity (w_store w1).
    + intros e y [He Hhy]. by rewrite Hh1 in Hhy.
  - intros e w1 He. cbn [fst snd]. auto.
Qed.

Lemma hostFileToHashTree_spec path mode data x :
  h_lookup (h_tree (fh_host x)) path = Some (HReg mode data) → length data < fuel →
  wp (hostFileToHashTree fault rd path)
    (λ t x', file_content (fh_store x') t data ∧ keeps (fh_store x) (fh_store x') ∧ h_tree (fh_host x') = h_tree (fh_host x))
    (λ e x', (host_fails e ∨ put_fails e) ∧ h_tree (fh_host x') = h_tree (fh_host x)) x.
Proof.
  intros Hl Hlen. unfold hostFileToHashTree, on_host, os_Open. wp_step. wp_step. wp_step.
  eapply wp_mono; [apply host_call_spec|..]; cbn beta; [|intros e h [? ?]; auto].
  intros _ h1 Hh1. wp_step. wp_step. rewrite Hh1, Hl. wp_step.
  eapply (wp_deferred _ _
    (λ t x', file_content (fh_store x') t data ∧ keeps (fh_store x) (fh_store x') ∧ h_tree (fh_host x') = h_tree (fh_host x))
    (λ e x', (host_fails e ∨ put_fails e) ∧ h_tree (fh_host x') = h_tree (fh_host x))); cycle 1.
  { intros t x1 (Hc & Hk & Ht). wp_step. eapply wp_mono; [apply host_call_spec|..]; cbn beta; intros; simpl; naive_solver congruence. }
  { intros e x1 [He Ht]. wp_step. eapply wp_mono; [apply host_call_spec|..]; cbn beta; intros; simpl; naive_solver congruence. }
  apply wp_with_fout. wp_step. cbn [fh_store fh_host]. set (w0 := NewWriter (fh_store x)).
  eapply wp_mono; [apply (copy_in_spec _ data w0 h1 [] (NewWriter_wrote _)); [by left|simpl; lia|lia]|..]; cbn beta;
    [|intros e y [? ?]; simpl; naive_solver congruence].
  intros _ [w1 h2] (Hw1 & Hk1 & Ht1 & Hnil & Hh2). simpl in *. apply wp_of_fst. simpl.
  pose proof (Close_spec w1 _ Hw1 Ht1) as Hc. unfold wp in *.
  destruct (CloseWriter w1) as [[t|e| |] w2] eqn:Hcl; try done; [|split; [auto|congruence]].
  destruct Hc as (Htree & Hd & Hk2). split_and!; [|by transitivity (w_store w1)|congruence].
  split_and!; [done|done| |lia]. intros He. rewrite (Hnil He) in Hcl. pose proof (Close_empty (fh_store x)) as Hce.
  fold w0 in Hce. unfold wp in Hce. by rewrite Hcl in Hce.
Qed.

(** ** Directories into trees *)

Lemma regular_not_dir m : mode_IsRegular m = true → mode_IsDir m = false.
Proof.
  unfold mode_IsRegular, mode_IsDir. intros Hz%bool_decide_eq_true_1.
  assert (Hb : Z.testbit (Z.land m ModeType) 31 = false) by (rewrite Hz; apply Z.bits_0).
  rewrite Z.land_spec in Hb. change (Z.testbit ModeType 31) with true in Hb. by rewrite andb_true_r in Hb.
Qed.
Lemma dir_not_regular m : mode_IsDir m = true → mode_IsRegular m = false.
Proof. intros Hd. destruct (mode_IsRegular m) eqn:Hr; [|done]. by rewrite (regular_not_dir _ Hr) in Hd. Qed.

Definition host_or_put (e : error) : Prop := host_fails e ∨ put_fails e.

(** The entries [ents] of the directory [ks] are those of the host's [L]. *)
Definition stored_ents s (L : list (bytes * hnode)) (ents : list DirEnt) (ks : kidmap) : Prop :=
  lists fuel s ents ks ∧ (∀ name, is_Some (ks !! name) ↔ ∃ n, (name, n) ∈ L ∧ kept n) ∧
  ∀ name k n, ks !! name = Some k → (name, n) ∈ L → stored s k n.

Lemma stored_ents_cons s L ents ks e k n :
  stored_ents s L ents ks → EntName e ∉ L.*1 → EntName e ≠ dot → kept n → ent_repr fuel s e k → stored s k n →
  stored_ents s ((EntName e, n) :: L) (e :: ents) (<[EntName e := k]> ks).
Proof.
  intros (Hl & Hd & Hs) Hnew Hdot Hkept Hrep Hst.
  assert (Hfresh : ∀ m, (EntName e, m) ∉ L) by (intros m Hm; apply Hnew; by apply (list_elem_of_fmap_2 fst _ _ Hm)).
  assert (Hnone : ks !! EntName e = None).
  { apply eq_None_not_Some. intros (m & Hm & _)%Hd. by apply (Hfresh m). }
  split_and!; [by apply (lists_insert sz fuel Hsz Heof)|..].
  - intros name. rewrite lookup_insert_is_Some, Hd. split.
    + intros [<-|(_ & m & Hm & ?)]; [exists n|exists m]; (split; [|done]); [by left|by right].
    + intros (m & Hm & ?). apply elem_of_cons in Hm as [Heq|Hm]; [simplify_eq; by left|].
      right. split; [intros <-; by apply (Hfresh m)|by exists m].
  - intros name k' n' Hk' Hin. apply lookup_insert_Some in Hk' as [[Hn Hkk]|[Hne Hk']].
    + subst name k'. apply elem_of_cons in Hin as [Heq|Hin]; [by simplify_eq|by destruct (Hfresh n')].
    + apply elem_of_cons in Hin as [Heq|Hin]; [by simplify_eq|by eapply Hs].
Qed.

(** What copying a directory gives. *)
Definition dir_stored path mode kids x e x' : Prop :=
  ∃ t ks, e = set_EntName (path_base path) (dot_ent mode t) ∧ keeps (fh_store x) (fh_store x') ∧
    h_tree (fh_host x') = h_tree (fh_host x) ∧ dirs fuel (fh_store x') (Data t) mode ks ∧
    (∀ m, stored (fh_store x') (Folder m mode ks) (HDir mode kids)) ∧ length (Data t) = hash_len ∧ Depth t < 256.

(** An entry of the host that can be copied. *)
Definition copyable d path (tree : hnode) (name : bytes) (n : hnode) : Prop :=
  h_lookup tree (path ++ [name]) = Some n ∧ good_name name ∧ (Z.of_nat (length name) ≤ 65535)%Z ∧ backable d n.

Lemma file_ent_repr s name mode t data :
  (Z.of_nat (length name) ≤ 65535)%Z → (0 ≤ mode < 2 ^ 32)%Z → mode_IsRegular mode = true → length data < fuel →
  file_content s t data →
  let e := mkDirEnt name (Z.of_nat (length data)) 0 mode t in
  ent_repr fuel s e (File (meta_of e) t) ∧ stored s (File (meta_of e) t) (HReg mode data).
Proof.
  intros Hn Hm Hr Hl Hc e. pose proof Hc as (Ht & Hd & _). pose proof nlevels_byte. split.
  - split; [|unfold e; change (Fs.IsDir _) with (mode_IsDir mode); by rewrite (regular_not_dir _ Hr)].
    split_and!; simpl; try done; try lia. by eapply tree_at_hash.
  - by apply (stored_file s (meta_of e) t data).
Qed.

Lemma cp_host_ents_spec d rec path L : ∀ x,
  (∀ name mode kids x', (name, HDir mode kids) ∈ L → copyable d path (h_tree (fh_host x')) name (HDir mode kids) →
     wp (rec (path ++ [name])) (dir_stored (path ++ [name]) mode kids x') (λ e _, host_or_put e) x') →
  Forall good_name path → NoDup L.*1 →
  (∀ name n, (name, n) ∈ L → copyable d path (h_tree (fh_host x)) name n) →
  wp (cp_host_ents fault rd rec path ((λ y, info_of y.1 y.2) <$> L))
    (λ ents x', keeps (fh_store x) (fh_store x') ∧ h_tree (fh_host x') = h_tree (fh_host x) ∧
                ∃ ks, stored_ents (fh_store x') L ents ks) (λ e _, host_or_put e) x.
Proof.
  induction L as [|[name n] L IH]; intros x Hrec Hp Hnd Hall; cbn [fmap list_fmap cp_host_ents].
  { wp_step. split_and!; [done|done|]. exists ∅. split_and!.
    - split_and!; [constructor|set_solver|set_solver|set_solver].
    - intros name. rewrite lookup_empty. split; [by intros [? ?]|]. intros (m & Hm & _). by apply elem_of_nil in Hm.
    - by intros name k n ?%lookup_empty_Some. }
  rewrite fmap_cons in Hnd. apply NoDup_cons in Hnd as [Hnew Hnd]. cbn [fst] in Hnew.
  destruct (Hall name n) as (Hlook & Hgood & Hlen & Hback); [by left|].
  assert (Hjoin : path_join path name = path ++ [name]) by (apply path_join_good, Forall_app; by split; [|apply Forall_singleton]).
  assert (Hrest : ∀ x1, h_tree (fh_host x1) = h_tree (fh_host x) →
    wp (cp_host_ents fault rd rec path ((λ y, info_of y.1 y.2) <$> L))
      (λ ents x', keeps (fh_store x1) (fh_store x') ∧ h_tree (fh_host x') = h_tree (fh_host x1) ∧
                  ∃ ks, stored_ents (fh_store x') L ents ks) (λ e _, host_or_put e) x1).
  { intros x1 Hx1. apply IH; [|done|done|].
    - intros name' mode kids x' Hin. apply Hrec. by right.
    - intros name' n' Hin. rewrite Hx1. apply Hall. by right. }
  assert (Hdot : name ≠ dot) by apply Hgood.
  destruct n as [mode data|mode kids|mode data]; cbn [fst snd info_of fi_Mode fi_Name fi_Size h_mode].
  - apply backable_reg in Hback as (Hm & Hreg & Hdata). rewrite Hreg, Hjoin. wp_step.
    eapply wp_mono; [by eapply hostFileToHashTree_spec|..]; cbn beta; [|by intros ? ? [? _]].
    intros t x1 (Hc & Hk1 & Ht1). wp_step. eapply wp_mono; [by apply Hrest|..]; cbn beta; [|done].
    intros ents x2 (Hk2 & Ht2 & ks & Hks). wp_step. split_and!; [by transitivity (fh_store x1)|congruence|].
    destruct (file_ent_repr (fh_store x2) name mode t data) as [Hrep Hst]; try done.
    { destruct Hc as (? & ? & ? & ?). split_and!; try done. by eapply tree_at_keeps. }
    eexists. by apply (stored_ents_cons _ L ents ks (mkDirEnt name (Z.of_nat (length data)) 0 mode t)).
  - pose proof (backable_dir _ _ _ Hback) as (Hm & Hdir & _). rewrite (dir_not_regular _ Hdir), Hdir, Hjoin.
    wp_step. eapply wp_mono; [apply (Hrec name mode kids x); [by left|done]|..]; cbn beta; [|done].
    intros ne x1 (t & ks1 & -> & Hk1 & Ht1 & Hd1 & Hs1 & Hh & Hdep). wp_step.
    eapply wp_mono; [by apply Hrest|..]; cbn beta; [|done].
    intros ents x2 (Hk2 & Ht2 & ks & Hks). wp_step. split_and!; [by transitivity (fh_store x1)|congruence|].
    set (e := mkDirEnt name 0 0 mode t).
    eexists. apply (stored_ents_cons _ L ents ks e (Folder (meta_of e) mode ks1)); try done.
    + split; [by split_and!; simpl; (done || lia)|]. change (Fs.IsDir e) with (mode_IsDir mode). rewrite Hdir.
      exists mode, ks1. split; [done|]. by eapply dirs_keeps.
    + eapply stored_keeps; [exact Hk2|apply Hs1].
  - apply backable_other in Hback as [Hnr Hndir]. rewrite Hnr, Hndir. eapply wp_mono; [by apply Hrest|..]; cbn beta; [|done].
    intros ents x2 (Hk2 & Ht2 & ks & Hl & Hd & Hs). split_and!; [done|done|]. exists ks.
    assert (Hfresh : ∀ m, (name, m) ∉ L) by (intros m Hin; apply Hnew; by apply (list_elem_of_fmap_2 fst _ _ Hin)).
    split_and!; [done|..].
    + intros name'. rewrite Hd. split; intros (m & Hin & Hkept); exists m; (split; [|done]); [by right|].
      apply elem_of_cons in Hin as [[= -> ->]|Hin]; [done|done].
    + intros name' k m Hk Hin. apply elem_of_cons in Hin as [[= -> ->]|Hin]; [|by eapply Hs].
      assert (Hsome : is_Some (ks !! name)) by (by eexists). apply Hd in Hsome as (m & Hm & _). by destruct (Hfresh m).
Qed.

Lemma map_size_names (ks : kidmap) (kids : gmap bytes hnode) :
  (∀ name, is_Some (ks !! name) → is_Some (kids !! name)) → map_size ks ≤ names_size kids.
Proof.
  intros Hsub. unfold map_size, names_size. apply Nat.add_le_mono_l.
  assert (Hs : elements (dom ks) ⊆+ elements (dom kids)).
  { apply elements_submseteq. intros name Hin%elem_of_dom. apply elem_of_dom. by apply Hsub. }
  apply submseteq_Permutation in Hs as [l Hl]. rewrite Hl, sum_list_with_app. lia.
Qed.

Lemma sorted_infos (kids : gmap bytes hnode) :
  ∃ L, merge_sort name_le ((λ y, info_of y.1 y.2) <$> map_to_list kids) = (λ y, info_of y.1 y.2) <$> L ∧
       map_to_list kids ≡ₚ L.
Proof. apply Permutation_map_inv, merge_sort_Permutation. Qed.

Lemma cpHostDirToFs_spec d : ∀ path mode kids x,
  Forall good_name path → h_lookup (h_tree (fh_host x)) path = Some (HDir mode kids) → backable d (HDir mode kids) →
  wp (cpHostDirToFs fault rd d path) (dir_stored path mode kids x) (λ e _, host_or_put e) x.
Proof.
  induction d as [|d IH]; intros path mode kids x Hp Hl Hb; [done|].
  destruct Hb as (Hm & Hdir & Hsize & Hkids). cbn [cpHostDirToFs]. unfold on_host, os_Stat, ioutil_ReadDir.
  wp_step. wp_step. wp_step. eapply wp_mono; [apply host_call_spec|..]; cbn beta; [|intros e h [? _]; by left].
  intros _ h1 Hh1. wp_steps. rewrite Hh1, Hl. wp_step. wp_step. wp_step. wp_step.
  eapply wp_mono; [apply host_call_spec|..]; cbn beta; [|intros e h [? _]; by left].
  intros _ h2 Hh2. cbn [fh_host] in Hh2. wp_steps. rewrite Hh2, Hh1, Hl. wp_step. wp_step. cbn [fh_store fh_host].
  destruct (sorted_infos kids) as (L & HL & Hperm). rewrite HL.
  assert (Hin : ∀ name n, (name, n) ∈ L ↔ kids !! name = Some n).
  { intros name n. rewrite <-Hperm. apply elem_of_map_to_list. }
  eapply wp_mono; [apply (cp_host_ents_spec d (cpHostDirToFs fault rd d) path L)|..]; cbn beta.
  - intros name mode' kids' x' Hn (Hlook & Hgood & _ & Hback). apply IH; [|done|done].
    apply Forall_app. split; [done|]. by apply Forall_singleton.
  - done.
  - rewrite <-Hperm. apply NoDup_fst_map_to_list.
  - intros name n Hn%Hin. cbn [fh_host]. destruct (Hkids name n Hn) as (? & ? & ?). split_and!; try done.
    rewrite Hh2, Hh1, h_lookup_app, Hl. simpl. by rewrite Hn.
  - intros ents x3 (Hk3 & Ht3 & ks & Hlists & Hdom & Hst). cbn [fh_store fh_host] in *. wp_step. unfold on_fs. wp_step.
    assert (Hks : map_size ks < fuel).
    { eapply Nat.le_lt_trans; [|exact Hsize]. apply map_size_names. intros name (n & Hn & _)%Hdom. exists n. by apply Hin. }
    eapply wp_mono; [apply (WriteDir_lists sz fuel Hsz Heof _ _ _ _ Hlists Hm Hdir Hks); lia|..]; cbn beta; [|intros; by right].
    intros e s4 (t & -> & Hk4 & Hd4 & Hh4 & Hdep). wp_step. exists t, ks. cbn [fh_store fh_host].
    split_and!; try done; [by transitivity (fh_store x3)|congruence|].
    intros m. constructor.
    + intros name. rewrite Hdom. split; intros (n & Hn & ?); exists n; (split; [by apply Hin|done]).
    + intros name k n Hk Hn. eapply stored_keeps; [exact Hk4|]. eapply Hst; [done|by apply Hin].
  - done.
Qed.

(** ** Trees into files *)

(** The tree as it comes back: without what was not stored, and with modes as the process may
    make them. *)
Inductive restored : hnode → hnode → Prop :=
  | restored_reg m data : restored (HReg m data) (HReg (created_file umask m) data)
  | restored_dir m kids kids' :
      (∀ name, is_Some (kids' !! name) ↔ ∃ n, kids !! name = Some n ∧ kept n) →
      (∀ name n n', kids !! name = Some n → kids' !! name = Some n' → restored n n') →
      restored (HDir m kids) (HDir (created_dir umask m) kids').

(** There is nothing at [p], and something can be put there. *)
Definition free (t : hnode) (p : list bytes) : Prop := h_lookup t p = None ∧ ∀ y, is_Some (h_insert y t p).

Definition host_or_get (e : error) : Prop := host_fails e ∨ get_fails e.

Lemma h_create_spec p n h :
  free (h_tree h) p →
  wp (h_create fault p n) (λ _ h', h_insert n (h_tree h) p = Some (h_tree h')) (λ e _, host_fails e) h.
Proof.
  intros [Hnone Hsome]. unfold h_create. wp_step. eapply wp_mono; [apply host_call_spec|..]; cbn beta; [|by intros ? ? [? _]].
  intros _ h1 Hh1. wp_step. wp_step. rewrite Hh1, Hnone. destruct (Hsome n) as [t Ht]. rewrite Ht. by wp_step.
Qed.

Lemma os_Write_spec p d m data t0 h :
  h_insert (HReg m data) t0 p = Some (h_tree h) →
  wp (os_Write fault p d) (λ _ h', h_insert (HReg m (data ++ d)) t0 p = Some (h_tree h')) (λ e _, host_fails e) h.
Proof.
  intros Hi. unfold os_Write. wp_step. eapply wp_mono; [apply host_call_spec|..]; cbn beta; [|by intros ? ? [? _]].
  intros _ h1 Hh1. wp_step. wp_step. rewrite Hh1, (h_insert_lookup _ _ _ _ Hi), (h_insert_insert _ _ _ _ _ Hi).
  destruct (h_insert (HReg m (data ++ d)) t0 p) as [t|] eqn:Ht; [by wp_step|].
  (* the same path takes any node *)
  exfalso. by eapply h_insert_none in Ht; [|exact Hi].
Qed.

Lemma copy_out_spec minsz m t0 dst k : ∀ (r : Reader St) rest acc h,
  stream minsz r rest → progress minsz r → length rest < k → h_insert (HReg m acc) t0 dst = Some (h_tree h) →
  wp (copy_out fault k dst)
    (λ _ y, h_insert (HReg m (acc ++ rest)) t0 dst = Some (h_tree y.2) ∧ keeps (r_store r) (r_store y.1))
    (λ e _, host_or_get e) (r, h).
Proof.
  induction k as [|k IH]; intros r rest acc h Hs Hp Hk Hi; [lia|]. cbn [copy_out]. wp_step. wp_step. apply wp_of_fst. cbn [fst snd].
  eapply wp_mono; [by apply Read_retry|..]; cbn beta.
  - intros d r1 (R' & -> & Hs1 & _ & Hh & Hk1 & _ & _ & Hne).
    assert (Hd : d ≠ []) by (apply Hne; [done|apply copy_buf_pos]). rewrite bool_decide_eq_false_2 by done.
    assert (Hp1 : progress minsz r1) by (unfold progress in *; by rewrite Hh).
    wp_step. apply wp_of_snd. cbn [fst snd]. eapply wp_mono; [by apply os_Write_spec|..]; cbn beta; [|intros; by left].
    intros _ h1 Hi1. eapply wp_mono; [apply (IH r1 R' (acc ++ d) h1); try done|..]; cbn beta.
    + rewrite length_app in Hk. destruct d; [done|]. simpl in Hk. lia.
    + intros _ y [Hy Hky]. rewrite <-app_assoc in Hy. split; [done|by transitivity (r_store r1)].
    + done.
  - intros e r1 (He & _ & _ & _ & _ & Hk1). case_bool_decide as Heo.
    + destruct He as [[_ ->]|He]; [|by subst e]. wp_step. cbn [fst snd]. by rewrite app_nil_r.
    + destruct He as [[-> _]|He]; [done|]. wp_step. by right.
Qed.

Lemma hashTreeToHostFile_spec t data dst mode x :
  file_content (fh_store x) t data → length data < fuel → free (h_tree (fh_host x)) dst →
  wp (hashTreeToHostFile fault umask fuel (Data t) dst mode)
    (λ _ x', keeps (fh_store x) (fh_store x') ∧
             h_insert (HReg (created_file umask mode) data) (h_tree (fh_host x)) dst = Some (h_tree (fh_host x')))
    (λ e _, host_or_get e) x.
Proof.
  intros (Ht & Hlvl & Hnil & _) Hlen Hfree. unfold hashTreeToHostFile. apply wp_with_f. wp_step. apply wp_of_fst. cbn [fst snd].
  eapply wp_mono; [by apply (NewReader_keeps _ _ _ _ _ Ht Hlvl)|..]; cbn beta; [|intros e r [? _]; by right].
  intros _ r (Hs & _ & Hh & _ & Hk). wp_step. apply wp_of_snd. cbn [fst snd].
  eapply wp_mono; [by apply h_create_spec|..]; cbn beta; [|intros; by left].
  intros _ h1 Hi. wp_step. wp_step.
  eapply wp_mono; [apply (copy_out_spec (some_size data) (created_file umask mode) (h_tree (fh_host x)) dst fuel r data [] h1 Hs); try done|..]; cbn beta.
  - apply progress_saved. by rewrite Hh.
  - intros _ [r2 h2] [Hi2 Hk2]. cbn [fst snd] in *. wp_step. apply wp_of_snd. cbn [fst snd].
    eapply wp_mono; [apply host_call_spec|..]; cbn beta; [|intros e h [? _]; by left].
    intros _ h3 Hh3. wp_step. simpl. rewrite Hh3. split; [by transitivity (r_store r)|done].
  - intros e [r2 h2] He. wp_step. wp_step. apply wp_of_snd. cbn [fst snd].
    eapply wp_mono; [apply host_call_spec|..]; cbn beta; intros; by wp_step.
Qed.

(** What copying a directory or a file out leaves at [dst]. *)
Definition comes_back n dst x x' : Prop :=
  keeps (fh_store x) (fh_store x') ∧
  ∃ n', restored n n' ∧ h_insert n' (h_tree (fh_host x)) dst = Some (h_tree (fh_host x')).

Lemma free_kid m kids name t p t' :
  h_insert (HDir m kids) t p = Some t' → kids !! name = None → free t' (p ++ [name]).
Proof.
  intros Hi Hn. split.
  - rewrite h_lookup_app, (h_insert_lookup _ _ _ _ Hi). simpl. by rewrite Hn.
  - intros y. rewrite (h_insert_kid _ _ _ _ _ _ _ Hi). destruct (h_insert (HDir m (<[name := y]> kids)) t p) eqn:Hx; [by eexists|].
    by destruct (h_insert_none _ _ _ _ _ Hi Hx).
Qed.

(** The entries [ents] go into the directory at [dest], which has [kids0] already. *)
Lemma cp_fs_ents_spec (d : nat) (rec : hash → list bytes → M (FsHost (St := St)) unit) (dest : list bytes) (t0 : hnode) (cm : Z) (src : gmap bytes hnode) (ents : list DirEnt) :
  ∀ (kids0 : gmap bytes hnode) x,
  (∀ (name : bytes) (t : HTree) mode ks kids x', src !! name = Some (HDir mode kids) → dirs fuel (fh_store x') (Data t) mode ks →
     (∀ m, stored (fh_store x') (Folder m mode ks) (HDir mode kids)) → backable d (HDir mode kids) →
     Forall good_name (dest ++ [name]) → free (h_tree (fh_host x')) (dest ++ [name]) →
     wp (rec (Data t) (dest ++ [name])) (λ _, comes_back (HDir mode kids) (dest ++ [name]) x') (λ e _, host_or_get e) x') →
  Forall good_name dest → NoDup (EntName <$> ents) →
  (∀ e : DirEnt, e ∈ ents → kids0 !! EntName e = None ∧ good_name (EntName e) ∧
     ∃ k n, ent_repr fuel (fh_store x) e k ∧ src !! EntName e = Some n ∧ stored (fh_store x) k n ∧ backable d n) →
  h_insert (HDir cm kids0) t0 dest = Some (h_tree (fh_host x)) →
  wp (cp_fs_ents fault umask fuel rec dest ents)
    (λ _ x', keeps (fh_store x) (fh_store x') ∧ ∃ kids1, h_insert (HDir cm kids1) t0 dest = Some (h_tree (fh_host x')) ∧
       (∀ name, name ∉ EntName <$> ents → kids1 !! name = kids0 !! name) ∧
       (∀ e, e ∈ ents → ∃ n n', src !! EntName e = Some n ∧ kids1 !! EntName e = Some n' ∧ restored n n'))
    (λ e _, host_or_get e) x.
Proof.
  induction ents as [|e ents IH]; intros kids0 x Hrec Hp Hnd Hall Hi; cbn [cp_fs_ents].
  { wp_step. split; [done|]. exists kids0. split_and!; [done|done|]. by intros e ?%elem_of_nil. }
  rewrite fmap_cons in Hnd. apply NoDup_cons in Hnd as [Hnew Hnd].
  destruct (Hall e) as (Hnone & Hgood & k & n & [Hv Hrep] & Hsrc & Hst & Hb); [by left|].
  assert (Hgp : Forall good_name (dest ++ [EntName e])) by (apply Forall_app; split; [done|by apply Forall_singleton]).
  assert (Hfree := free_kid _ _ _ _ _ _ Hi Hnone). rewrite path_join_good by done.
  assert (Hstep : ∀ x1, comes_back n (dest ++ [EntName e]) x x1 →
    wp (cp_fs_ents fault umask fuel rec dest ents)
      (λ _ x', keeps (fh_store x) (fh_store x') ∧ ∃ kids1, h_insert (HDir cm kids1) t0 dest = Some (h_tree (fh_host x')) ∧
         (∀ name, name ∉ EntName <$> e :: ents → kids1 !! name = kids0 !! name) ∧
         (∀ e', e' ∈ e :: ents → ∃ n n', src !! EntName e' = Some n ∧ kids1 !! EntName e' = Some n' ∧ restored n n'))
      (λ e _, host_or_get e) x1).
  { intros x1 (Hk1 & n' & Hres & Hi1). rewrite (h_insert_kid _ _ _ _ _ _ _ Hi) in Hi1.
    eapply wp_mono; [apply (IH (<[EntName e := n']> kids0) x1); try done|..]; cbn beta; [| |done].
    - intros e' He'. destruct (Hall e') as (Hn' & Hg' & k' & m & Hr' & Hs' & Hst' & Hb'); [by right|].
      assert (EntName e ≠ EntName e') by (intros Heq; apply Hnew; rewrite Heq; by apply list_elem_of_fmap_2).
      rewrite lookup_insert_ne by done. split_and!; try done. exists k', m. split_and!; try done.
      + by eapply ent_repr_keeps.
      + by eapply stored_keeps.
    - intros _ x2 (Hk2 & kids1 & Hi2 & Hout & Hin). split; [by transitivity (fh_store x1)|]. exists kids1. split_and!; [done|..].
      + intros name Hname. rewrite fmap_cons in Hname. rewrite Hout by set_solver. rewrite lookup_insert_ne by set_solver. done.
      + intros e' [->|He']%elem_of_cons; [|by apply Hin]. exists n, n'. split_and!; try done.
        rewrite Hout by done. apply lookup_insert_eq. }
  wp_step. fold (Fs.IsDir e). destruct (Fs.IsDir e) eqn:Hdir.
  - destruct Hrep as (dm & ks & -> & Hd). inversion Hst as [|? ? ? kids Hdom Hkids]; subst.
    eapply wp_mono; [apply (Hrec _ (EntHTree e) dm ks kids x Hsrc Hd); try done; intros m; by constructor|..]; cbn beta; [|done].
    intros _. apply Hstep.
  - subst k. inversion Hst as [? ? data Hc|]; subst. apply backable_reg in Hb as (Hm & Hreg & Hlen). cbn [m_mode meta_of] in *.
    rewrite Hreg. eapply wp_mono; [by apply hashTreeToHostFile_spec|..]; cbn beta; [|done].
    intros _ x1 [Hk1 Hi1]. apply Hstep. split; [done|]. eexists. split; [|exact Hi1]. constructor.
Qed.

Lemma cpFsDirToHost_spec d : ∀ t mode ks kids dest x,
  dirs fuel (fh_store x) (Data t) mode ks → (∀ m, stored (fh_store x) (Folder m mode ks) (HDir mode kids)) →
  backable d (HDir mode kids) → Forall good_name dest → free (h_tree (fh_host x)) dest →
  wp (cpFsDirToHost fault umask sz fuel d (Data t) dest) (λ _, comes_back (HDir mode kids) dest x) (λ e _, host_or_get e) x.
Proof.
  induction d as [|d IH]; intros t mode ks kids dest x Hd Hst Hb Hp Hfree; [done|].
  destruct Hb as (Hm & Hdir & Hsize & Hkids). cbn [cpFsDirToHost]. wp_step. unfold on_fs. wp_step.
  eapply wp_mono; [by apply (ReadDir_dirs sz fuel Hsz Heof)|..]; cbn beta; [|intros; by right].
  intros ? s1 (t1 & ents & Ht1 & -> & Hat & Hl & Hk1). wp_step. eapply wp_lift_ok; [done|]. cbn [EntMode dot_ent].
  wp_step. unfold on_host. wp_step. eapply wp_mono; [by apply h_create_spec|..]; cbn beta; [|intros; by left].
  intros _ h1 Hi1. wp_step. eapply wp_lift_ok; [apply slice_ok; simpl; lia|]. simpl. rewrite drop_0, take_ge by lia.
  specialize (Hst (mkMeta 0 0 0)). inversion Hst as [|? ? ? ? Hdom Hall]; subst. pose proof Hl as (Hnd & _ & Hdk & Hr).
  eapply wp_mono; [apply (cp_fs_ents_spec d (cpFsDirToHost fault umask sz fuel d) dest (h_tree (fh_host x)) (created_dir umask mode) kids ents ∅)|..];
    cbn beta; try done; cbn [fh_store fh_host].
  - intros name t2 mode2 ks2 kids2 x2 Hn Hd2 Hst2 Hb2 Hp2 Hfree2. by apply IH with ks2.
  - intros e He. destruct (Hr e He) as (k & Hk & Hrep). assert (Hs : is_Some (ks !! EntName e)) by (by eexists).
    apply Hdom in Hs as (n & Hn & Hkept). destruct (Hkids _ _ Hn) as (Hg & _ & Hbn). split_and!; [done|done|].
    exists k, n. split_and!; try done. eapply stored_keeps; [exact Hk1|by eapply Hall].
  - intros _ x2 (Hk2 & kids1 & Hi2 & Hout & Hin). split; [by transitivity s1|]. exists (HDir (created_dir umask mode) kids1).
    split; [|done].
    assert (Hdk1 : ∀ name, is_Some (kids1 !! name) ↔ is_Some (ks !! name)).
    { intros name. destruct (decide (name ∈ EntName <$> ents)) as [Hn|Hn].
      - pose proof Hn as (e & -> & He)%list_elem_of_fmap. destruct (Hin e He) as (n & n' & _ & Hn' & _).
        rewrite Hn'. split; [intros _|by eexists]. apply elem_of_dom. rewrite Hdk. by apply elem_of_list_to_set.
      - rewrite Hout by done. rewrite lookup_empty. split; [by intros [? ?]|]. intros Hs%elem_of_dom.
        rewrite Hdk in Hs. by apply elem_of_list_to_set in Hs. }
    constructor.
    + intros name. by rewrite Hdk1, Hdom.
    + intros name n n' Hn Hn'. assert (Hs : is_Some (kids1 !! name)) by (by eexists). apply Hdk1 in Hs.
      apply elem_of_dom in Hs. rewrite Hdk in Hs. apply elem_of_list_to_set, list_elem_of_fmap in Hs as (e & -> & He).
      destruct (Hin e He) as (m & m' & Hm1 & Hm2 & Hres). congruence.
Qed.

(** Files and directories only, with modes that a process can give them when it makes them. *)
Inductive plain : hnode → Prop :=
  | plain_reg m data : Z.land m file_bits = m → plain (HReg m data)
  | plain_dir m kids :
      Z.lor ModeDir (Z.land m dir_bits) = m → (∀ name n, kids !! name = Some n → plain n) → plain (HDir m kids).

(** With an empty umask the tree that comes back is the one that was stored. *)
Lemma restored_same n n' : umask = 0%Z → plain n → restored n n' → n' = n.
Proof.
  intros Hu Hp. revert n'. induction Hp as [m data Hm|m kids Hm Hkids IH]; intros n' Hr; inversion Hr as [|? ? kids' Hdom Hall]; subst;
    unfold created_file, created_dir; rewrite Hu, Z.ldiff_0_r, Hm; [done|]. f_equal. apply map_eq. intros name.
  destruct (kids' !! name) as [n'|] eqn:Hn'.
  - assert (Hs : is_Some (kids' !! name)) by (by eexists). apply Hdom in Hs as (n & Hn & _). rewrite Hn. f_equal.
    eapply IH; [done|]. by eapply Hall.
  - destruct (kids !! name) as [n|] eqn:Hn; [|done].
    assert (Hs : is_Some (kids' !! name)) by (apply Hdom; exists n; split; [done|by destruct (Hkids _ _ Hn)]).
    rewrite Hn' in Hs. by destruct Hs.
Qed.

Lemma CpHostToFs_spec d src n x :
  Forall good_name src → h_lookup (h_tree (fh_host x)) src = Some n → kept n → backable d n →
  wp (CpHostToFs fault rd d src)
    (λ e x', keeps (fh_store x) (fh_store x') ∧ h_tree (fh_host x') = h_tree (fh_host x) ∧ EntName e = path_base src ∧
       ∃ k, stored (fh_store x') k n ∧
            ∀ name, (Z.of_nat (length name) ≤ 65535)%Z → ent_repr fuel (fh_store x') (set_EntName name e) k)
    (λ e _, host_or_put e) x.
Proof.
  intros Hg Hl Hkept Hb. unfold CpHostToFs, on_host, os_Stat. wp_step. wp_step. wp_step.
  eapply wp_mono; [apply host_call_spec|..]; cbn beta; [|intros e h [? _]; by left].
  intros _ h1 Hh1. wp_steps. rewrite Hh1, Hl. wp_step. cbn [info_of fi_Mode fi_Name fi_Size h_mode].
  destruct n as [mode data|mode kids|]; [| |done]; cbn [h_mode].
  - apply backable_reg in Hb as (Hm & Hreg & Hlen). rewrite (regular_not_dir _ Hreg). wp_step.
    eapply wp_mono; [eapply hostFileToHashTree_spec; [cbn [fh_host]; by rewrite Hh1, Hl|done]|..]; cbn beta; [|by intros ? ? [? _]].
    intros t x2 (Hc & Hk & Ht). cbn [fh_store fh_host] in *. wp_step. split_and!; [done|congruence|done|].
    destruct (file_ent_repr (fh_store x2) [] mode t data) as [_ Hst]; try done. eexists. split; [exact Hst|].
    intros name Hn. by destruct (file_ent_repr (fh_store x2) name mode t data) as [Hrep _].
  - pose proof (backable_dir _ _ _ Hb) as (Hm & Hdir & _). rewrite Hdir.
    eapply wp_mono; [apply cpHostDirToFs_spec; [done|cbn [fh_host]; by rewrite Hh1, Hl|done]|..]; cbn beta; [|done].
    intros e x2 (t & ks & -> & Hk & Ht & Hd & Hst & Hh & Hdep). cbn [fh_store fh_host] in *.
    split_and!; [done|congruence|done|]. set (e := set_EntName _ _). exists (Folder (meta_of e) mode ks). split; [done|].
    intros name Hn. split; [split_and!; simpl; (done || lia)|]. change (Fs.IsDir _) with (mode_IsDir mode). rewrite Hdir.
    by exists mode, ks.
Qed.

Lemma CpFsToHost_spec d root mode kids path k n dst x :
  dirs fuel (fh_store x) root mode kids → Forall good_name path → path ≠ [] → t_lookup kids path = Some k →
  stored (fh_store x) k n → backable d n → Forall good_name dst → free (h_tree (fh_host x)) dst →
  wp (CpFsToHost fault umask sz fuel d root (abs_path path) dst) (λ _, comes_back n dst x) (λ e _, host_or_get e) x.
Proof.
  intros Hd Hg Hne Hlook Hst Hb Hgd Hfree. unfold CpFsToHost, on_fs. wp_step. wp_step.
  eapply wp_mono; [by apply (Walk_spec sz fuel Hsz Heof path)|..]; cbn beta; [|intros e s' [?|[_ ?]]; [by right|congruence]].
  intros e s1 [Hk1 Hres]. rewrite decide_False in Hres by done. destruct Hres as (k' & Hk' & _ & _ & Hrep).
  assert (k' = k) as -> by congruence. set (x1 := mkFsHost s1 _).
  assert (Hback : ∀ x2, comes_back n dst x1 x2 → comes_back n dst x x2).
  { intros x2 [Hk2 Hn2]. split; [by transitivity s1|done]. }
  destruct (Fs.IsDir e) eqn:Hdir.
  - destruct Hrep as (dm & ks & -> & Hdk). inversion Hst as [|? ? ? kids' Hdom Hall]; subst.
    eapply wp_mono; [apply (cpFsDirToHost_spec d (EntHTree e) dm ks kids' dst x1); try done|..]; cbn beta; [| |done].
    + intros m. eapply stored_keeps; [exact Hk1|by constructor].
    + intros _. apply Hback.
  - subst k. inversion Hst as [? ? data Hc|]; subst. apply backable_reg in Hb as (_ & _ & Hlen).
    eapply wp_mono; [apply (hashTreeToHostFile_spec (EntHTree e) data dst (EntMode e) x1); [|done|done]|..]; cbn beta; [| |done].
    + destruct Hc as (? & ? & ? & ?). split_and!; try done. by eapply tree_at_keeps.
    + intros _ x2 [Hk2 Hi2]. apply Hback. split; [done|]. eexists. split; [|exact Hi2]. constructor.
Qed.

(** ** The theorem *)

End Host.

(** ** A small host over the store of FsDemo *)
Module HostDemo.
Import FsDemo.
#[local] Existing Instances params fs_params_ok FsDemo.store laws.

Definition no_fault (i : nat) : option error := None.
Definition six (i : nat) : nat := 5.
Definition umask1 : Z := 18.   (* 022 *)

Definition note : hnode := HReg 0x1b6 (str "remember the milk").
Definition sub : hnode := HDir 0x800001ff {[ str "b" := HReg 0x1a4 [] ]}.
Definition home : hnode := HDir 0x800001ed {[ str "note" := note; str "sub" := sub; str "lnk" := HOther 0x80001ff [] ]}.
Definition tree1 : hnode := HDir 0x800001ed {[ str "home" := home ]}.
Definition start : FsHost (St := MemStore.MemStore) := mkFsHost s2 (mkHost tree1 0).

Definition src : list bytes := [str "home"].
Definition dst : list bytes := [str "copy"].
Definition at_name : bytes := str "backup".

Definition put_get : M (FsHost (St := MemStore.MemStore)) unit :=
  ent ← CpHostToFs no_fault six 4 src;
  newRoot ← on_fs (Insert sz fuel (Data (EntHTree root)) (abs_path [at_name]) ent);
  CpFsToHost no_fault umask1 sz fuel 4 (Data (EntHTree newRoot)) (abs_path [at_name]) dst.

(** The program runs: the copy has the file, and its mode lost the group's write bit. *)
Example put_get_runs :
  let '(o, x) := put_get start in
  (o, h_lookup (h_tree (fh_host x)) [str "copy"; str "note"]) = (Ok (), Some (HReg 0x1a4 (str "remember the milk"))).
Proof. vm_compute. reflexivity. Qed.

#[local] Instance good_name_dec n : Decision (good_name n).
Proof. unfold good_name. apply _. Defined.

Ltac small := apply Nat.ltb_lt; vm_compute; reflexivity.
Ltac entries H := repeat (apply lookup_insert_Some in H as [[<- <-]|[_ H]]); [..|apply lookup_singleton_Some in H as [<- <-]].
Ltac entry := split_and!; [by apply (bool_decide_unpack _)|by vm_compute|].

Lemma note_backable d : backable fuel d note.
Proof. destruct d; (split_and!; [lia|lia|by vm_compute|small]). Qed.
Lemma sub_backable : backable fuel 3 sub.
Proof.
  split_and!; [lia|lia|by vm_compute|small|]. intros name n Hn. apply lookup_singleton_Some in Hn as [<- <-]. entry.
  split_and!; [lia|lia|by vm_compute|small].
Qed.
Lemma home_backable : backable fuel 4 home.
Proof.
  split_and!; [lia|lia|by vm_compute|small|]. intros name n Hn. entries Hn; entry.
  - apply note_backable.
  - apply sub_backable.
  - by split; vm_compute.
Qed.

Lemma backup_fits k : is_Some (t_insert fuel kids [] at_name k).
Proof.
  unfold t_insert. cbn [t_update]. unfold add_kid. rewrite decide_True; [by eexists|]. split; [done|small].
Qed.

Lemma dst_free : free tree1 dst.
Proof. split; [done|]. intros y. by eexists. Qed.

Lemma fuel_memory : (Z.of_nat fuel ≤ 2 ^ 63)%Z.
Proof. by vm_compute. Qed.

End HostDemo.
