(* ===== verification/Commands.v ===== *)
(** The commands that read and change the stored tree: cmd/bpy/rm, mkdir, mv, cp, put, get, revert,
    hist, ls, cat and the clearing of the history in gc, the root that
    cmd/bpy/common/common.go makes for a new server, and when/when.go.

    A command ends with [common.Die] on an error; here it ends with the error that the
    message reports.  What a command prints is its result.  [Put], [Get] and [Ls] take their
    arguments after they were counted, host paths absolute. *)

From Stdlib Require Import ZArith Lia String.
From stdpp Require Import base list strings gmap.
From coqutil Require Import Byte.
From S2P Require Import Prelude Store Io Htree HtreeProps Fs Refs Remote Host.

Set Default Goal Selector "!".

Definition root_missing : error := ENew "root missing".
Definition concurrently_modified : error := ENew "root concurrently modified, try again".
Definition bad_usage : error := ENew "please specify a path".
Definition did_not_exist : error := ENew "ref did not exist".

(** [strings.HasSuffix] *)
Definition HasSuffix (s suffix : bytes) : bool :=
  bool_decide (length suffix ≤ length s) && bool_decide (drop (length s - length suffix) s = suffix).

Section Commands.
Context {P : Params} {St : Type} `{CStore St} {R : Type} `{RemoteClient R}.
Variables (fault : nat → option error) (rd : nat → nat) (umask : Z).
Variables (sz : nat → nat) (fuel : nat).
Variable Sum256 : bytes → hash.
Variable HMAC : bytes → bytes → bytes.
Variable key : Key.
Variable clock : nat → Z.   (* nanoseconds *)

Record Cmd := mkCmd { cm_fs : FsHost (St := St); cm_remote : R; cm_clock : nat }.
Definition on_both {A} : M (FsHost (St := St)) A → M Cmd A := zoom cm_fs (λ f x, mkCmd f (cm_remote x) (cm_clock x)).
Definition on_st {A} (c : M St A) : M Cmd A := on_both (on_fs c).
Definition on_rm {A} : M R A → M Cmd A := zoom cm_remote (λ r x, mkCmd (cm_fs x) r (cm_clock x)).
Definition time_Now : M Cmd Z :=
  x ← get;
  modify (λ x, mkCmd (cm_fs x) (cm_remote x) (S (cm_clock x)));;
  mret (clock (cm_clock x)).
(** [t.Unix()] *)
Definition Unix (t : Z) : Z := (t / 1000000000)%Z.

(** [common.GetCStore(cfg, &k, c)]: a new store over the packs of the server *)
Variable GetCStore : M Cmd unit.
(** [time.ParseDuration] and [time.ParseInLocation] with the layout of when.go *)
Variables (ParseDuration ParseInLocation : bytes → outcome Z).

Definition when_Parse (whenString : bytes) : M Cmd Z :=
  if HasSuffix whenString (str " ago") then
    d ← lift (ParseDuration (take (length whenString - 4) whenString));
    now ← time_Now;
    mret (now - d)%Z
  else lift (ParseInLocation whenString).

(** ** common.go *)

(** [GetRemote] after the connection was made: a server without root gets an empty
    directory. *)
Definition GetRemote : M Cmd unit :=
  '(_, version, ok) ← on_rm (GetRoot HMAC key);
  if (ok : bool) then mret ()
  else
    epoch ← on_rm GetEpoch;
    GetCStore;;
    ent ← on_st (EmptyDir 0x1ed);
    now ← time_Now;
    hash ← on_st (PutRef (mkRef (Unix now) (Data (EntHTree ent)) false no_hash));
    on_st Store.Close;;
    on_rm (CasRoot HMAC key hash (NextRootVersion Sum256 version) epoch);;
    mret ().

(** [remote.GetRoot], and a death when there is none *)
Definition must_GetRoot : M Cmd (hash * bytes) :=
  '(rootHash, rootVersion, ok) ← on_rm (GetRoot HMAC key);
  if negb ok then throw root_missing else mret (rootHash, rootVersion).

(** The new reference, whose predecessor is the root. *)
Definition next_ref (now : Z) (newRoot rootHash : hash) : Ref := mkRef (Unix now) newRoot true rootHash.

(** [newRefHash, err := refs.PutRef(...)] where [err] is not looked at *)
Definition PutRef_unchecked (ref : Ref) : M Cmd hash :=
  o ← try (on_st (PutRef ref));
  mret (match o with inl h => h | inr _ => no_hash end).

Definition swap (newRefHash : hash) (rootVersion epoch : bytes) : M Cmd bool :=
  on_rm (CasRoot HMAC key newRefHash (NextRootVersion Sum256 rootVersion) epoch).

(** ** rm *)

Fixpoint remove_all (newRoot : hash) (args : list bytes) : M Cmd hash :=
  match args with
  | [] => mret newRoot
  | toRemove :: args =>
    newRootEnt ← on_st (Fs.Remove sz fuel newRoot toRemove);
    remove_all (Data (EntHTree newRootEnt)) args
  end.

(** One round of the loop of [Rm]: whether the root was swapped. *)
Definition rm_round (args : list bytes) (epoch : bytes) : M Cmd bool :=
  '(rootHash, rootVersion) ← must_GetRoot;
  ref ← on_st (GetRef sz fuel rootHash);
  newRoot ← remove_all (Root ref) args;
  now ← time_Now;
  newRefHash ← PutRef_unchecked (next_ref now newRoot rootHash);
  on_st Store.Close;;
  swap newRefHash rootVersion epoch.

(** Rounds until one swaps the root, at most [tries]. *)
Fixpoint rounds (tries : nat) (round : M Cmd bool) : M Cmd unit :=
  match tries with
  | O => diverge
  | S tries => ok ← round; if (ok : bool) then mret () else rounds tries round
  end.

Definition Rm (tries : nat) (args : list bytes) : M Cmd unit :=
  GetRemote;;
  epoch ← on_rm GetEpoch;
  GetCStore;;
  rounds tries (rm_round args epoch).

(** ** mkdir *)

Definition Mkdir (args : list bytes) : M Cmd unit :=
  match args with
  | [destPath] =>
    GetRemote;;
    epoch ← on_rm GetEpoch;
    GetCStore;;
    '(rootHash, rootVersion) ← must_GetRoot;
    ref ← on_st (GetRef sz fuel rootHash);
    emptyDirEnt ← on_st (EmptyDir 0x1ed);
    newRootEnt ← on_st (Fs.Insert sz fuel (Root ref) destPath emptyDirEnt);
    now ← time_Now;
    newRefHash ← PutRef_unchecked (next_ref now (Data (EntHTree newRootEnt)) rootHash);
    on_st Store.Close;;
    ok ← swap newRefHash rootVersion epoch;
    if (ok : bool) then mret () else throw concurrently_modified
  | _ => throw bad_usage
  end.

(** ** mv and cp *)

Definition mv_round (destPath srcPath epoch : bytes) : M Cmd bool :=
  GetCStore;;
  '(rootHash, rootVersion) ← must_GetRoot;
  ref ← on_st (GetRef sz fuel rootHash);
  newRoot ← on_st (Fs.Move sz fuel (Root ref) destPath srcPath);
  now ← time_Now;
  newRefHash ← on_st (PutRef (next_ref now (Data (EntHTree newRoot)) rootHash));
  on_st Store.Close;;
  swap newRefHash rootVersion epoch.

Definition Mv (tries : nat) (args : list bytes) : M Cmd unit :=
  match args with
  | [srcPath; destPath] =>
    GetRemote;;
    epoch ← on_rm GetEpoch;
    rounds tries (mv_round destPath srcPath epoch)
  | _ => throw bad_usage
  end.

(** The reference of the time asked for, the newest where none is asked for; [depth] bounds
    the history. *)
Definition at_when (depth : nat) (whenArg : bytes) (ref : Ref) : M Cmd Ref :=
  if bool_decide (whenArg = []) then mret ref
  else
    refTime ← when_Parse whenArg;
    '(refPast, ok) ← on_st (GetAtTime sz fuel depth ref (Unix refTime));
    if (ok : bool) then mret refPast else throw did_not_exist.

Definition cp_round (depth : nat) (whenArg destPath srcPath epoch : bytes) : M Cmd bool :=
  GetCStore;;
  '(rootHash, rootVersion) ← must_GetRoot;
  ref ← on_st (GetRef sz fuel rootHash);
  ref ← at_when depth whenArg ref;
  newRoot ← on_st (Fs.Copy sz fuel (Root ref) destPath srcPath);
  now ← time_Now;
  newRefHash ← on_st (PutRef (next_ref now (Data (EntHTree newRoot)) rootHash));
  on_st Store.Close;;
  swap newRefHash rootVersion epoch.

Definition Cp (tries depth : nat) (whenArg : bytes) (args : list bytes) : M Cmd unit :=
  match args with
  | [srcPath; destPath] =>
    GetRemote;;
    epoch ← on_rm GetEpoch;
    rounds tries (cp_round depth whenArg destPath srcPath epoch)
  | _ => throw bad_usage
  end.

(** ** put and get; [depth] bounds the depth of the trees copied *)

Definition put_round (depth : nat) (srcPath : list bytes) (destPath epoch : bytes) : M Cmd bool :=
  GetCStore;;
  '(rootHash, rootVersion) ← must_GetRoot;
  ref ← on_st (GetRef sz fuel rootHash);
  srcDirEnt ← on_both (CpHostToFs fault rd depth srcPath);
  newRootEnt ← on_st (Fs.Insert sz fuel (Root ref) destPath srcDirEnt);
  now ← time_Now;
  newRefHash ← PutRef_unchecked (next_ref now (Data (EntHTree newRootEnt)) rootHash);
  on_st Store.Close;;
  swap newRefHash rootVersion epoch.

(** [destPath] is ["/"] where none is given. *)
Definition Put (tries depth : nat) (srcPath : list bytes) (destArg : option bytes) : M Cmd unit :=
  let destPath := match destArg with Some p => p | None => [slash] end in
  GetRemote;;
  epoch ← on_rm GetEpoch;
  rounds tries (put_round depth srcPath destPath epoch).

Definition Get (depth : nat) (pathArg : bytes) (dest : list bytes) : M Cmd unit :=
  if bool_decide (pathArg = []) then throw bad_usage
  else
    GetRemote;;
    GetCStore;;
    '(rootHash, _) ← must_GetRoot;
    ref ← on_st (GetRef sz fuel rootHash);
    on_both (CpFsToHost fault umask sz fuel depth (Root ref) pathArg dest);;
    on_st Store.Close.

(** ** revert *)

Definition Revert (args : list bytes) : M Cmd unit :=
  match args with
  | [arg] =>
    revertToHash ← lift (ParseHash arg);
    GetRemote;;
    epoch ← on_rm GetEpoch;
    GetCStore;;
    '(rootHash, rootVersion) ← must_GetRoot;
    revertToRef ← on_st (GetRef sz fuel revertToHash);
    now ← time_Now;
    newRefHash ← on_st (PutRef (next_ref now (Root revertToRef) rootHash));
    on_st Store.Close;;
    ok ← swap newRefHash rootVersion epoch;
    if (ok : bool) then mret () else throw concurrently_modified
  | _ => throw bad_usage
  end.

(** ** hist, ls and cat *)

Fixpoint hist_from (depth : nat) (rootHash : hash) : M Cmd (list (bytes * Z)) :=
  match depth with
  | O => diverge
  | S depth =>
    ref ← on_st (GetRef sz fuel rootHash);
    let line := (EncodeToString rootHash, CreatedAt ref) in
    if negb (HasPrev ref) then mret [line]
    else lines ← hist_from depth (Prev ref); mret (line :: lines)
  end.

Definition Hist (depth : nat) : M Cmd (list (bytes * Z)) :=
  GetRemote;;
  GetCStore;;
  '(rootHash, _) ← must_GetRoot;
  lines ← hist_from depth rootHash;
  on_st Store.Close;;
  mret lines.

Definition Ls (depth : nat) (whenArg lsPath : bytes) : M Cmd (list bytes) :=
  GetRemote;;
  GetCStore;;
  '(rootHash, _) ← must_GetRoot;
  ref ← on_st (GetRef sz fuel rootHash);
  ref ← at_when depth whenArg ref;
  ents ← on_st (Fs.Ls sz fuel (Root ref) lsPath);
  ents ← lift (slice ents 1 (length ents));
  on_st Store.Close;;
  mret (((λ e, EntName e ++ [slash]) <$> filter (λ e, mode_IsDir (EntMode e) = true) ents)
        ++ (EntName <$> filter (λ e, mode_IsDir (EntMode e) = false) ents)).

(** [io.Copy(os.Stdout, rdr)] *)
Fixpoint copy_stdout (fuel : nat) : M (FileReader (St := St)) bytes :=
  match fuel with
  | O => diverge
  | S fuel =>
    o ← try (FileRead copy_buf);
    match o with
    | inl d => rest ← copy_stdout fuel; mret (d ++ rest)
    | inr e => if bool_decide (e = EOF) then mret [] else throw e
    end
  end.

Definition Cat (depth : nat) (whenArg : bytes) (args : list bytes) : M Cmd bytes :=
  match args with
  | [fpath] =>
    GetRemote;;
    GetCStore;;
    '(rootHash, _) ← must_GetRoot;
    ref ← on_st (GetRef sz fuel rootHash);
    ref ← at_when depth whenArg ref;
    out ← on_st (with_file sz fuel (Root ref) fpath (copy_stdout fuel));
    on_st Store.Close;;
    mret out
  | _ => throw bad_usage
  end.

(** ** gc: the history is cleared *)

Definition clear_history : M Cmd unit :=
  epoch ← on_rm GetEpoch;
  '(rootHash, rootVersion) ← must_GetRoot;
  ref ← on_st (GetRef sz fuel rootHash);
  newRefHash ← on_st (PutRef (mkRef (CreatedAt ref) (Root ref) false (Prev ref)));
  on_st Store.Flush;;
  ok ← swap newRefHash rootVersion epoch;
  if (ok : bool) then mret () else throw concurrently_modified.
End Commands.
