(* ===== verification/CommandsProps.v ===== *)
(** The commands are transactions on the stored tree, also when other clients change the
    root at the same time. *)

From Stdlib Require Import ZArith Lia.
From stdpp Require Import base list strings gmap.
From coqutil Require Import Byte.
From S2P Require Import Prelude Store Io Htree HtreeSpec HtreeWrite HtreeRead HtreeProps Fs FsProps FsTree FsFile Refs Remote.
From S2P Require Import Host HostProps Commands.

Set Default Goal Selector "!".

(** ** Reading without a reference *)

Lemma ParseHash_total s : (∃ h, ParseHash s = Ok h) ∨ (∃ e, ParseHash s = Err e).
Proof.
  unfold ParseHash. case_bool_decide as Hl; [by eauto|clear Hl]. remember (length s) as n eqn:Hn.
  revert s Hn. induction (lt_wf n) as [n _ IH]. intros [|a [|b s]] Hn; simpl in *; [by eauto..|].
  destruct (from_hex a), (from_hex b); try by eauto.
  destruct (IH (length s) ltac:(lia) s eq_refl) as [[d ->]|[e ->]]; simpl; by eauto.
Qed.

Section Commands.
Context {P : Params} {Pok : ParamsOk} {St : Type} `{CStoreLaws St} {R : Type} `{RemoteClient R}.
Variables (fault : nat → option error) (rd : nat → nat) (umask : Z) (sz : nat → nat) (fuel : nat).
Variables (Sum256 : bytes → hash) (HMAC : bytes → bytes → bytes) (key : Key) (clock : nat → Z).
Variable GetCStore : M (Cmd (St := St) (R := R)) unit.
Hypothesis Hsz : ∀ i, 1 ≤ sz i.
Hypothesis Hfuel : 72 < fuel.
Hypothesis Heof : ¬ get_fails EOF.
Hypothesis Hcap : fuel ≤ max_stream.
Hypothesis Hclock : ∀ i, (- 2 ^ 63 ≤ clock i < 2 ^ 63)%Z.
(** What other clients leave true of the tree, and of the host at [src]. *)
Variables (fits : kidmap → Prop) (src : list bytes) (src_node : option hnode).

Abbreviation Cmd := (Cmd (St := St) (R := R)).
Implicit Types (s : St) (r : R) (x : Cmd).
Definition st x : St := fh_store (cm_fs x).
Definition src_at x : option hnode := h_lookup (h_tree (fh_host (cm_fs x))) src.
Definition next (version : bytes) : bytes := NextRootVersion Sum256 version.

(** ** The server *)

Definition signed (e : RootReply) : Prop := SignValue HMAC key (Value e) (Version e) = Signature e.

(** [h] names a reference whose tree can be used. *)
Definition repo_root s (h : hash) : Prop :=
  ∃ ref mode kids, ref_at s h ref ∧ dirs fuel s (Root ref) mode kids ∧ fits kids.

(** The server keeps the roots it was given one after the other.  The next one is accepted if
    its version follows the version of the last.  Other clients may add roots at
    any time, [left r] of them at most; their trees are saved, where every client finds them, before
    the roots are given to the server.  A call that fails may have been carried out.
    [GetCStore] opens a new store: of the blocks of the old one it has those that were saved. *)
Class LogLaws := {
  log : R → list RootReply;
  base : bytes;
  left : R → nat;
  visible : St → R → Prop;
  lastv (l : list RootReply) : bytes := match last l with Some e => Version e | None => base end;
  grows s r r' : Prop := visible s r' ∧ ∃ l, log r' = log r ++ l ∧ length l + left r' ≤ left r;
  swapped s (e : RootReply) r r' : Prop :=
    ∃ r1, grows s r r1 ∧ log r' = log r1 ++ [e] ∧ Version e = next (lastv (log r1));
  log_versions s r : visible s r → NoDup ((λ e, next (Version e)) <$> log r);
  visible_saves s s' r : saves s s' → visible s r → visible s' r;
  visible_root s r e h : visible s r → last (log r) = Some e → signed e → ParseHash (Value e) = Ok h → repo_root (saved s) h;
  TGetRoot_law s r : visible s r →
    wp TGetRoot
      (λ rep r', grows s r r' ∧
         match last (log r') with Some e => rep = e ∧ ReplyOk e = true | None => ReplyOk rep = false ∧ Version rep = base end)
      (λ _ r', grows s r r') r;
  TGetEpoch_law s r : visible s r → wp TGetEpoch (λ _ r', grows s r r') (λ _ r', grows s r r') r;
  TCasRoot_law s r value version sg epoch : visible s r →
    wp (TCasRoot value version sg epoch)
      (λ ok r', if (ok : bool) then swapped s (mkRootReply value version sg true) r r'
                else grows s r r' ∧ version ≠ next (lastv (log r')))
      (λ _ r', grows s r r' ∨ swapped s (mkRootReply value version sg true) r r') r;
  GetCStore_law x : visible (st x) (cm_remote x) →
    wp GetCStore
      (λ _ x', saves (st x) (st x') ∧ src_at x' = src_at x ∧ grows (st x) (cm_remote x) (cm_remote x'))
      (λ _ x', grows (st x) (cm_remote x) (cm_remote x')) x;
}.
Context {SL : LogLaws}.

Lemma grows_refl s r : visible s r → grows s r r.
Proof. intros Hv. split; [done|]. exists []. by split; [rewrite app_nil_r|]. Qed.
Lemma grows_trans s1 s2 r1 r2 r3 : grows s1 r1 r2 → grows s2 r2 r3 → grows s2 r1 r3.
Proof.
  intros [_ (l1 & Hl1 & ?)] [? (l2 & Hl2 & ?)]. split; [done|]. exists (l1 ++ l2).
  split; [by rewrite Hl2, Hl1, app_assoc|]. rewrite length_app. clear Hfuel Hcap. lia.
Qed.
Lemma grows_saves s s' r r' : saves s s' → grows s r r' → grows s' r r'.
Proof. intros Hk [Hv Hl]. split; [by eapply visible_saves|done]. Qed.
Lemma grows_visible s r r' : grows s r r' → visible s r'.
Proof. by intros [? _]. Qed.

(** A version that follows the one of the last root of [l1] follows no later one. *)
Lemma versions_unique l1 l2 e :
  NoDup ((λ e, next (Version e)) <$> l1 ++ l2) → last l1 = Some e → next (Version e) = next (lastv (l1 ++ l2)) → l2 = [].
Proof.
  intros Hnd Hlast Heq. destruct l2 as [|e' l _] using rev_ind; [done|]. exfalso.
  unfold lastv in Heq. rewrite app_assoc, last_snoc in Heq. rewrite app_assoc, fmap_app in Hnd.
  apply NoDup_app in Hnd as (_ & Hdisj & _). apply (Hdisj (next (Version e'))); [|by apply list_elem_of_singleton].
  rewrite <-Heq. apply (list_elem_of_fmap_2 (λ e, next (Version e))), elem_of_app. left. apply last_Some in Hlast as [l' ->].
  apply elem_of_app. right. by apply list_elem_of_singleton.
Qed.

(** ** Steps *)

Lemma wp_on_st {A} (c : M St A) Q E x :
  wp c (λ a s, Q a (mkCmd (mkFsHost s (fh_host (cm_fs x))) (cm_remote x) (cm_clock x)))
       (λ e s, E e (mkCmd (mkFsHost s (fh_host (cm_fs x))) (cm_remote x) (cm_clock x))) (st x) →
  wp (on_st c) Q E x.
Proof. intros Hc. unfold on_st, on_both, on_fs. wp_step. wp_step. exact Hc. Qed.

Lemma wp_on_rm {A} (c : M R A) Q E x :
  wp c (λ a r, Q a (mkCmd (cm_fs x) r (cm_clock x))) (λ e r, E e (mkCmd (cm_fs x) r (cm_clock x))) (cm_remote x) →
  wp (on_rm c) Q E x.
Proof. intros Hc. unfold on_rm. by wp_step. Qed.

(** A root that was read: [e] is the entry of the log, [h] the reference. *)
Definition root_read (e : RootReply) (h : hash) (version : bytes) s r : Prop :=
  last (log r) = Some e ∧ ParseHash (Value e) = Ok h ∧ signed e ∧ version = Version e ∧ repo_root (saved s) h.

Lemma GetRoot_log s r :
  visible s r →
  wp (GetRoot HMAC key)
    (λ '(h, version, ok) r', grows s r r' ∧
       if (ok : bool) then ∃ e, root_read e h version s r' else log r' = [] ∧ version = base)
    (λ _ r', grows s r r') r.
Proof.
  intros Hv. unfold GetRoot. wp_step. eapply wp_mono; [by apply TGetRoot_law|..]; cbn beta; [|done].
  intros rep r1 [G1 Hrep]. destruct (last (log r1)) as [e|] eqn:Hlast.
  - destruct Hrep as [-> Hok]. rewrite Hok. cbn [negb]. case_bool_decide as Hsig; [wp_step; done|].
    assert (Hs : signed e) by (destruct (decide (SignValue HMAC key (Value e) (Version e) = Signature e)); done).
    wp_step. destruct (ParseHash_total (Value e)) as [[h Hp]|[err Hp]].
    + eapply wp_lift_ok; [done|]. wp_step. split; [done|]. exists e. split_and!; try done.
      eapply visible_root; [by eapply grows_visible|done..].
    + unfold wp, lift. by rewrite Hp.
  - destruct Hrep as [Hok Hb]. rewrite Hok. cbn [negb]. wp_step. split; [done|]. by apply last_None in Hlast.
Qed.

(** The command may go on: what it reads is there. *)
Definition ready x : Prop := visible (st x) (cm_remote x) ∧ src_at x = src_node.
(** What others did while the command ran. *)
Definition later x x' : Prop :=
  saves (st x) (st x') ∧ src_at x' = src_at x ∧ grows (st x') (cm_remote x) (cm_remote x').

Lemma later_refl x : ready x → later x x.
Proof. intros [Hv _]. split_and!; [done..|by apply grows_refl]. Qed.
Lemma later_trans x1 x2 x3 : later x1 x2 → later x2 x3 → later x1 x3.
Proof.
  intros (? & Hs1 & ?) (? & Hs2 & ?). split_and!; [by transitivity (st x2)|by rewrite Hs2|by eapply grows_trans].
Qed.
Lemma later_ready x x' : ready x → later x x' → ready x'.
Proof. intros [_ Hs] (_ & Hs' & Hg). split; [by eapply grows_visible|congruence]. Qed.

(** Only the store changes. *)
Definition stored_more x x' : Prop := keeps (st x) (st x') ∧ src_at x' = src_at x ∧ cm_remote x' = cm_remote x.
Lemma stored_more_trans x1 x2 x3 : stored_more x1 x2 → stored_more x2 x3 → stored_more x1 x3.
Proof. intros (? & Hs1 & Hr1) (? & Hs2 & Hr2). split_and!; [by transitivity (st x2)|by rewrite Hs2|by rewrite Hr2]. Qed.
Lemma stored_more_later x x' : ready x → stored_more x x' → later x x'.
Proof.
  intros [Hv _] (Hk & ? & Hr). apply keeps_saves in Hk. split_and!; [done..|]. rewrite Hr. apply grows_refl. by eapply visible_saves.
Qed.
Lemma stored_more_store x s : keeps (st x) s → stored_more x (mkCmd (mkFsHost s (fh_host (cm_fs x))) (cm_remote x) (cm_clock x)).
Proof. done. Qed.

Lemma must_GetRoot_spec x :
  ready x →
  wp (must_GetRoot HMAC key)
    (λ '(h, version) x', later x x' ∧ ∃ e, root_read e h version (st x') (cm_remote x'))
    (λ _ x', grows (st x) (cm_remote x) (cm_remote x')) x.
Proof.
  intros [Hv Hs]. unfold must_GetRoot. wp_step. apply wp_on_rm. eapply wp_mono; [by apply GetRoot_log|..]; cbn beta; [|done].
  intros [[h version] ok] r1 [G1 Hr]. destruct ok; cbn [negb]; wp_step; [|done]. by split_and!.
Qed.

(** ** Publishing a new root *)

Variable tr : St → kidmap → kidmap → Prop.
Hypothesis tr_keeps : ∀ s s' kids kids', keeps s s' → tr s kids kids' → tr s' kids kids'.

(** The command took effect in one step: it added the one root [e1] after the root [e0],
    whichever client made that, and the tree of the new reference is the tree of
    [e0]'s reference, changed as [tr] says. *)
Definition committed s r r' : Prop :=
  ∃ l e0 e1 h0 h1 ref0 ref1 mode kids kids',
    last (log r ++ l) = Some e0 ∧ log r' = (log r ++ l) ++ [e1] ∧
    signed e1 ∧ Version e1 = next (Version e0) ∧
    ParseHash (Value e0) = Ok h0 ∧ ParseHash (Value e1) = Ok h1 ∧
    ref_at s h0 ref0 ∧ ref_at s h1 ref1 ∧ HasPrev ref1 = true ∧ Prev ref1 = h0 ∧
    dirs fuel s (Root ref0) mode kids ∧ dirs fuel s (Root ref1) mode kids' ∧ tr s kids kids'.

(** So did a command whose root is saved: a client that opens the store anew finds the new tree.  A
    [Close] that dropped the error of its flush leaves a root whose tree may be in the command's
    store only. *)
Definition transacted s r r' : Prop :=
  committed (saved s) r r' ∨ lossy s ∧ committed s r r'.

(** The new root names no reference. *)
Definition lost r r' : Prop :=
  ∃ l e1, log r' = (log r ++ l) ++ [e1] ∧ Value e1 = EncodeToString no_hash.

(** Without the check of [PutRef]'s error a root may be lost. *)
Definition published (checked : bool) s r r' : Prop :=
  transacted s r r' ∨ checked = false ∧ (∃ e, put_fails e) ∧ lost r r'.

Definition put_ref (checked : bool) (ref : Ref) : M Cmd hash :=
  if checked then on_st (PutRef ref) else PutRef_unchecked ref.

Lemma put_ref_spec checked ref x :
  valid_ref ref →
  wp (put_ref checked ref)
    (λ h x', stored_more x x' ∧
       (ref_at (st x') h ref ∨ checked = false ∧ (∃ e, put_fails e) ∧ h = no_hash))
    (λ _ x', cm_remote x' = cm_remote x) x.
Proof.
  intros Hv. destruct checked; unfold put_ref, PutRef_unchecked.
  - apply wp_on_st. eapply wp_mono; [by apply PutRef_spec|..]; cbn beta; [|done].
    intros h s' [Hr Hk]. split; [by apply stored_more_store|by left].
  - wp_step. wp_step. apply wp_on_st. eapply wp_mono; [by apply PutRef_spec|..]; cbn beta.
    + intros h s' [Hr Hk]. wp_step. split; [by apply stored_more_store|by left].
    + intros e s' [He Hk]. wp_step. split; [by apply stored_more_store|eauto 6].
Qed.

Lemma next_ref_valid i newRoot h : length newRoot = hash_len → length h = hash_len → valid_ref (next_ref (clock i) newRoot h).
Proof.
  intros Hn Hh. split_and!; try done; cbn [CreatedAt next_ref]; unfold Unix; pose proof (Hclock i).
  - apply Z.div_le_lower_bound; clear Hfuel Hcap; lia.
  - apply Z.div_lt_upper_bound; clear Hfuel Hcap; lia.
Qed.

(** The end of a round: the new reference is stored and the root swapped. *)
Definition finish (checked : bool) (rootHash : hash) (rootVersion epoch : bytes) (newRoot : hash) : M Cmd bool :=
  now ← time_Now clock;
  newRefHash ← put_ref checked (next_ref now newRoot rootHash);
  on_st Store.Close;;
  swap Sum256 HMAC key newRefHash rootVersion epoch.

(** The answer of the server, given what was stored. *)
Lemma swap_committed e0 h0 s r h1 newRoot i mode kids kids' ref0 r' s0 :
  last (log r) = Some e0 → ParseHash (Value e0) = Ok h0 → visible s0 r →
  ref_at s h0 ref0 → dirs fuel s (Root ref0) mode kids → dirs fuel s newRoot mode kids' → tr s kids kids' →
  ref_at s h1 (next_ref (clock i) newRoot h0) →
  swapped s0 (mkRootReply (EncodeToString h1) (next (Version e0)) (SignValue HMAC key (EncodeToString h1) (next (Version e0))) true) r r' →
  committed s r r'.
Proof.
  intros Hl Hp0 Hv Hr0 Hd Hd' Htr Hr1 (r1 & [Hv1 (l & Hl1 & _)] & Hlog & Hver). cbn [Version] in Hver.
  pose proof (log_versions _ _ Hv1) as Hnd. rewrite Hl1 in Hnd, Hver, Hlog.
  assert (l = []) as -> by (by eapply versions_unique). rewrite app_nil_r in Hlog.
  eexists [], e0, _, h0, h1, ref0, _, mode, kids, kids'. rewrite app_nil_r. split_and!; try done; try exact Hr1; try done.
  apply ParseHash_Encode. destruct Hr1 as (_ & lvl & _ & Ht). by eapply tree_at_hash.
Qed.

Lemma swap_lost s0 r r' version sg :
  swapped s0 (mkRootReply (EncodeToString no_hash) version sg true) r r' → lost r r'.
Proof. intros (r1 & [_ (l & Hl & _)] & Hlog & _). exists l. eexists. split; [by rewrite Hlog, Hl|done]. Qed.

(** What [Close] saved: the tree before, the new one and its reference. *)
Lemma swap_published checked e0 h0 s s' r h1 newRoot i mode kids kids' ref0 r' :
  last (log r) = Some e0 → ParseHash (Value e0) = Ok h0 → visible s' r →
  keeps s s' → keeps s (saved s') ∨ lossy s' →
  ref_at s h0 ref0 → dirs fuel s (Root ref0) mode kids → dirs fuel s newRoot mode kids' → tr s kids kids' →
  (ref_at s h1 (next_ref (clock i) newRoot h0) ∨ checked = false ∧ (∃ e, put_fails e) ∧ h1 = no_hash) →
  swapped s' (mkRootReply (EncodeToString h1) (next (Version e0)) (SignValue HMAC key (EncodeToString h1) (next (Version e0))) true) r r' →
  published checked s' r r'.
Proof.
  intros Hl Hp0 Hv Hk Hclose Hr0 Hd Hd' Htr [Hr1|(? & ? & ->)] Hsw.
  2: { right. split_and!; [done..|by eapply swap_lost]. }
  left. destruct Hclose as [Hc|Hc]; [left|right; split; [done|]];
    eapply swap_committed; eauto using ref_at_keeps, dirs_keeps; exact (ref_at_keeps _ _ _ _ ltac:(eassumption) Hr1).
Qed.

(** The command died: only others changed the log, or its root was taken and the answer lost. *)
Definition stopped (checked : bool) x x' : Prop :=
  (∃ l, log (cm_remote x') = log (cm_remote x) ++ l) ∨ published checked (st x') (cm_remote x) (cm_remote x').

Lemma grows_log s r r' : grows s r r' → ∃ l, log r' = log r ++ l.
Proof. intros [_ (l & ? & _)]. by exists l. Qed.
Lemma later_log x x' : later x x' → ∃ l, log (cm_remote x') = log (cm_remote x) ++ l.
Proof. intros (_ & _ & Hg). by eapply grows_log. Qed.
Lemma later_left x x' : later x x' → left (cm_remote x') ≤ left (cm_remote x).
Proof. intros (_ & _ & _ & l & _ & ?). clear Hfuel Hcap. lia. Qed.
Lemma committed_later s r r1 r' l : log r1 = log r ++ l → committed s r1 r' → committed s r r'.
Proof. intros Hl (l' & Hc). exists (l ++ l'). by rewrite app_assoc, <-Hl. Qed.
Lemma published_later checked s r r1 r' l : log r1 = log r ++ l → published checked s r1 r' → published checked s r r'.
Proof.
  intros Hl [[Hc|[? Hc]]|(? & ? & l' & e1 & Hlog & He)].
  - left. left. by eapply committed_later.
  - left. right. split; [done|by eapply committed_later].
  - right. split_and!; [done..|]. exists (l ++ l'), e1. by rewrite app_assoc, <-Hl.
Qed.
Lemma stopped_later checked x x1 x' : later x x1 → stopped checked x1 x' → stopped checked x x'.
Proof.
  intros [l Hl]%later_log [[l' Hl']|Hp]; [left|right].
  - exists (l ++ l'). by rewrite app_assoc, <-Hl.
  - by eapply published_later.
Qed.

Lemma finish_spec checked e0 h0 ref0 mode kids newRoot kids' epoch x :
  ready x → last (log (cm_remote x)) = Some e0 → ParseHash (Value e0) = Ok h0 → ref_at (st x) h0 ref0 →
  dirs fuel (st x) (Root ref0) mode kids → dirs fuel (st x) newRoot mode kids' → tr (st x) kids kids' →
  wp (finish checked h0 (Version e0) epoch newRoot)
    (λ ok x', if (ok : bool) then published checked (st x') (cm_remote x) (cm_remote x')
              else later x x' ∧ left (cm_remote x') < left (cm_remote x))
    (λ _, stopped checked x) x.
Proof.
  intros Hrdy Hl Hp Hr0 Hd Hd' Htr. pose proof Hrdy as [Hv Hsrc].
  assert (Hv1 : ∀ i, valid_ref (next_ref (clock i) newRoot h0)).
  { intros i. apply next_ref_valid; [|by eapply ParseHash_length].
    apply (dirs_lists sz fuel Hsz Heof) in Hd' as (t & ents & -> & Hat & _). by eapply dir_at_hash. }
  unfold finish, time_Now. wp_step. wp_steps.
  set (x1 := mkCmd (cm_fs x) (cm_remote x) (S (cm_clock x))).
  eapply wp_mono; [by apply (put_ref_spec checked _ x1)|..]; cbn beta.
  2: { intros e x2 Hrm. left. exists []. by rewrite app_nil_r, Hrm. }
  intros h1 x2 [(Hk2 & Hs2 & Hrm2) Hput]. change (st x1) with (st x) in *. change (src_at x1) with (src_at x) in *.
  change (cm_remote x1) with (cm_remote x) in *. wp_step. apply wp_on_st.
  eapply wp_mono; [apply Close_law|..]; cbn beta.
  2: { intros e s3 _. left. exists []. cbn [cm_remote]. by rewrite app_nil_r, Hrm2. }
  intros _ s3 [Hk3 Hclose]. unfold swap. apply wp_on_rm. cbn [cm_remote cm_fs]. rewrite Hrm2.
  assert (Hk : keeps (st x) s3) by (by transitivity (st x2)).
  assert (Hv3 : visible s3 (cm_remote x)) by (by eapply visible_saves; [apply keeps_saves|]).
  assert (Hcommit : ∀ r', swapped s3 (mkRootReply (EncodeToString h1) (next (Version e0))
      (SignValue HMAC key (EncodeToString h1) (next (Version e0))) true) (cm_remote x) r' → published checked s3 (cm_remote x) r').
  { intros r'. apply (swap_published checked e0 h0 (st x2) s3 (cm_remote x) h1 newRoot (cm_clock x) mode kids kids' ref0);
      eauto using ref_at_keeps, dirs_keeps. }
  unfold CasRoot. eapply wp_mono; [by apply (TCasRoot_law s3)|..]; cbn beta.
  - intros [] r' Hans; [by apply Hcommit|]. destruct Hans as [Hg Hne].
    split; [split_and!; [by apply keeps_saves|done|done]|]. cbn [cm_remote].
    destruct Hg as [_ (l & Hlog & Hleft)]. destruct l as [|e l]; simpl in Hleft; [|lia]. exfalso. apply Hne.
    unfold lastv. by rewrite Hlog, app_nil_r, Hl.
  - intros _ r' [Hg|Hsw]; [left; by eapply grows_log|right; by apply Hcommit].
Qed.

(** ** A round *)

(** [edit root k]: what a command does with the tree [root] before it goes on with the new
    one. *)
Variable edit : hash → (hash → M Cmd bool) → M Cmd bool.
Hypothesis edit_ok : ∀ k Q E x root mode kids,
  ready x → dirs fuel (st x) root mode kids → fits kids →
  (∀ newRoot kids' x', stored_more x x' → tr (st x') kids kids' → dirs fuel (st x') newRoot mode kids' → wp (k newRoot) Q E x') →
  (∀ e x', cm_remote x' = cm_remote x → E e x') → wp (edit root k) Q E x.
Hypothesis edit_zero : (∃ e, get_fails e) → ∀ k Q E x, ready x → (∀ e x', cm_remote x' = cm_remote x → E e x') → wp (edit no_hash k) Q E x.

Definition round (checked : bool) (epoch : bytes) : M Cmd bool :=
  '(rootHash, rootVersion) ← must_GetRoot HMAC key;
  ref ← on_st (GetRef sz fuel rootHash);
  edit (Root ref) (finish checked rootHash rootVersion epoch).

Definition round_ends (checked : bool) x (ok : bool) x' : Prop :=
  if ok then published checked (st x') (cm_remote x) (cm_remote x')
  else later x x' ∧ left (cm_remote x') < left (cm_remote x).

Lemma round_ends_later checked x x1 ok x' : later x x1 → round_ends checked x1 ok x' → round_ends checked x ok x'.
Proof.
  intros Hl Hr. destruct ok; simpl in *.
  - destruct (later_log _ _ Hl) as [l ?]. by eapply published_later.
  - destruct Hr as [? ?]. pose proof (later_left _ _ Hl). split; [by eapply later_trans|clear Hfuel Hcap; lia].
Qed.

Lemma round_spec checked epoch x :
  ready x → wp (round checked epoch) (round_ends checked x) (λ _, stopped checked x) x.
Proof.
  intros Hrdy. unfold round. wp_step. eapply wp_mono; [by apply must_GetRoot_spec|..]; cbn beta.
  2: { intros e x' Hg. left. by eapply grows_log. }
  intros [h0 v0] x1 [L1 (e0 & Hlast & Hp0 & Hs0 & -> & ref & mode & kids & Hr0 & Hd & Hfits)].
  apply (ref_at_keeps _ _ _ _ (saved_keeps _)) in Hr0. apply (dirs_keeps _ _ _ _ _ _ (saved_keeps _)) in Hd.
  pose proof (later_ready _ _ Hrdy L1) as Hrdy1. wp_step. apply wp_on_st.
  eapply wp_mono; [by apply (GetRef_spec sz fuel Hsz Hfuel Heof)|..]; cbn beta; [|done].
  intros ref' s2 [Hk2 Href]. set (x2 := mkCmd _ _ _). assert (Hm2 : stored_more x1 x2) by (by apply stored_more_store).
  pose proof (stored_more_later _ _ Hrdy1 Hm2) as L2. pose proof (later_ready _ _ Hrdy1 L2) as Hrdy2.
  assert (L : later x x2) by (by eapply later_trans).
  assert (Hdie : ∀ e x', cm_remote x' = cm_remote x2 → (λ _ : error, stopped checked x) e x').
  { intros _ x' Hrm. eapply stopped_later; [exact L|]. left. exists []. by rewrite app_nil_r, Hrm. }
  destruct Href as [->|[-> Hfail]]; [|by apply edit_zero].
  eapply (edit_ok _ _ _ x2); [done|by eapply dirs_keeps|done| |exact Hdie].
  intros newRoot kids' x3 Hm3 Htr Hd'. pose proof (stored_more_later _ _ Hrdy2 Hm3) as L3.
  assert (L' : later x x3) by (by eapply later_trans). destruct Hm3 as (Hk3 & Hs3 & Hrm3).
  eapply wp_mono; [eapply (finish_spec checked e0 h0 ref mode kids newRoot kids' epoch x3)|..]; cbn beta; try done.
  - by eapply later_ready.
  - by rewrite Hrm3.
  - eapply ref_at_keeps; [|done]. by transitivity s2.
  - eapply dirs_keeps; [|done]. by transitivity s2.
  - intros ok x' Hend. by eapply round_ends_later.
  - intros e x' Hst. by eapply stopped_later.
Qed.

(** A round may open the store anew. *)
Lemma reopen_spec {A} (c : M Cmd A) Q checked x :
  ready x → (∀ x1, later x x1 → ready x1 → wp c Q (λ _, stopped checked x) x1) →
  wp (GetCStore;; c) Q (λ _, stopped checked x) x.
Proof.
  intros Hrdy Hc. pose proof Hrdy as [Hv Hs]. wp_step. eapply wp_mono; [by apply GetCStore_law|..]; cbn beta.
  2: { intros e x' Hg. left. by eapply grows_log. }
  intros _ x1 (Hk & Hs1 & Hg). assert (L : later x x1) by (split_and!; [done..|by eapply grows_saves]).
  apply Hc; [done|by eapply later_ready].
Qed.

(** As many rounds as others have roots to add, and one more, are enough. *)
Lemma rounds_spec checked (c : M Cmd bool) :
  (∀ x, ready x → wp c (round_ends checked x) (λ _, stopped checked x) x) →
  ∀ tries x, ready x → left (cm_remote x) < tries →
  wp (rounds tries c) (λ _ x', published checked (st x') (cm_remote x) (cm_remote x')) (λ _, stopped checked x) x.
Proof.
  intros Hc. clear Hfuel Hcap. induction tries as [|tries IH]; intros x Hrdy Hleft; [lia|]. cbn [rounds]. wp_step.
  eapply wp_mono; [by apply Hc|..]; cbn beta; [|done]. intros [] x1 Hend; simpl in Hend; [by wp_step|].
  destruct Hend as [L Hlt]. eapply wp_mono; [apply (IH x1); [by eapply later_ready|lia]|..]; cbn beta.
  - intros _ x' Hp. destruct (later_log _ _ L) as [l ?]. by eapply published_later.
  - intros e x'. by apply stopped_later.
Qed.

(** ** The beginning of a command *)

Lemma GetRemote_present x :
  ready x → log (cm_remote x) ≠ [] →
  wp (GetRemote Sum256 HMAC key clock GetCStore) (λ _ x', later x x') (λ _ x', ∃ l, log (cm_remote x') = log (cm_remote x) ++ l) x.
Proof.
  intros [Hv Hs] Hne. unfold GetRemote. wp_step. apply wp_on_rm. eapply wp_mono; [by apply GetRoot_log|..]; cbn beta.
  2: { intros e r' Hg. by eapply grows_log. }
  intros [[h version] ok] r1 [G1 Hr]. destruct ok; [wp_step; by split_and!|]. destruct Hr as [Hnil _]. exfalso.
  destruct (grows_log _ _ _ G1) as [l Hl]. rewrite Hnil in Hl. by apply Hne; destruct (log (cm_remote x)).
Qed.

Lemma GetEpoch_spec x :
  ready x → wp (on_rm GetEpoch) (λ _ x', later x x') (λ _ x', ∃ l, log (cm_remote x') = log (cm_remote x) ++ l) x.
Proof.
  intros [Hv Hs]. apply wp_on_rm. unfold GetEpoch. eapply wp_mono; [by apply TGetEpoch_law|..]; cbn beta.
  - intros _ r' Hg. by split_and!.
  - intros _ r' Hg. by eapply grows_log.
Qed.

(** A command: connect, ask for the epoch, and then [c]. *)
Lemma command_spec {A} checked (c : bytes → M Cmd A) (Q : Cmd → A → Cmd → Prop) x :
  ready x → log (cm_remote x) ≠ [] →
  (∀ x1 a x', later x x1 → Q x1 a x' → Q x a x') →
  (∀ epoch x1, ready x1 → left (cm_remote x1) ≤ left (cm_remote x) → wp (c epoch) (Q x1) (λ _, stopped checked x1) x1) →
  wp (GetRemote Sum256 HMAC key clock GetCStore;; epoch ← on_rm GetEpoch; c epoch) (Q x) (λ _, stopped checked x) x.
Proof.
  intros Hrdy Hne HQ Hc. wp_step. eapply wp_mono; [by apply GetRemote_present|..]; cbn beta; [|by left].
  intros _ x1 L1. pose proof (later_ready _ _ Hrdy L1) as Hrdy1. wp_step.
  eapply wp_mono; [by apply GetEpoch_spec|..]; cbn beta.
  2: { intros e x' Hl. eapply stopped_later; [exact L1|by left]. }
  intros epoch x2 L2. assert (L : later x x2) by (by eapply later_trans).
  eapply wp_mono; [apply Hc; [by eapply later_ready|by apply later_left]|..]; cbn beta; [by eauto|].
  intros e x'. by apply stopped_later.
Qed.
End Commands.

(** The server's laws determine what the definitions are about. *)
Arguments log {P St H H0 R H1 fuel Sum256 HMAC key GetCStore fits src LogLaws} _ : assert.
Arguments left {P St H H0 R H1 fuel Sum256 HMAC key GetCStore fits src LogLaws} _ : assert.
Arguments visible {P St H H0 R H1 fuel Sum256 HMAC key GetCStore fits src LogLaws} _ _ : assert.
Arguments grows {P St H H0 R H1 fuel Sum256 HMAC key GetCStore fits src LogLaws} _ _ _ : assert.
Arguments swapped {P St H H0 R H1 fuel Sum256 HMAC key GetCStore fits src LogLaws} _ _ _ _ : assert.
Arguments lastv {P St H H0 R H1 fuel Sum256 HMAC key GetCStore fits src LogLaws} _ : assert.
Arguments base {P St H H0 R H1 fuel Sum256 HMAC key GetCStore fits src LogLaws} : assert.
Arguments ready {P St H H0 R H1 fuel Sum256 HMAC key GetCStore fits src} src_node {SL} x : assert.
Arguments later {P St H H0 R H1 fuel Sum256 HMAC key GetCStore fits src SL} x x' : assert.
Arguments committed {P St H H0 R H1 fuel Sum256 HMAC key GetCStore fits src SL} tr s r r' : assert.
Arguments transacted {P St H H0 R H1 fuel Sum256 HMAC key GetCStore fits src SL} tr s r r' : assert.
Arguments lost {P St H H0 R H1 fuel Sum256 HMAC key GetCStore fits src SL} r r' : assert.
Arguments published {P St H H0 R H1 fuel Sum256 HMAC key GetCStore fits src SL} tr checked s r r' : assert.
Arguments stopped {P St H H0 R H1 fuel Sum256 HMAC key GetCStore fits src SL} tr checked x x' : assert.
Arguments round_ends {P St H H0 R H1 fuel Sum256 HMAC key GetCStore fits src SL} tr checked x ok x' : assert.
Arguments visible_saves {P St H H0 R H1 fuel Sum256 HMAC key GetCStore fits src LogLaws} s s' r _ _ : assert.
Arguments TCasRoot_law {P St H H0 R H1 fuel Sum256 HMAC key GetCStore fits src LogLaws} s r value version sg epoch _ : assert.
Arguments GetCStore_law {P St H H0 R H1 fuel Sum256 HMAC key GetCStore fits src LogLaws} x _ : assert.

(** ** The changes of the tree *)

(** The directory [mkdir] makes. *)
Definition new_dir_mode : Z := 0x800001ed.
Definition new_dir : node := Folder (mkMeta 0 0 new_dir_mode) new_dir_mode ∅.

(** An argument: the names of the directory and the name in it *)
Definition arg : Type := list bytes * bytes.
Definition arg_path (a : arg) : bytes := abs_path (a.1 ++ [a.2]).
Definition good_arg (a : arg) : Prop := Forall good_name (a.1 ++ [a.2]) ∧ (Z.of_nat (length a.2) ≤ 65535)%Z.

(** Where [put] puts [src]: at its argument, or under its own name in the root. *)
Definition put_dst (src : list bytes) (destArg : option arg) : arg :=
  match destArg with Some a => a | None => ([], path_base src) end.

Definition cp_op (cap : nat) (src dst : arg) (kids : kidmap) : option kidmap :=
  n ← t_lookup kids (src.1 ++ [src.2]);
  t_insert cap kids dst.1 dst.2 n.
Definition mv_op (cap : nat) (src dst : arg) (kids : kidmap) : option kidmap :=
  kids1 ← cp_op cap src dst kids;
  t_remove kids1 src.1 src.2.
Fixpoint rm_op (args : list arg) (kids : kidmap) : option kidmap :=
  match args with
  | [] => Some kids
  | a :: args => kids1 ← t_remove kids a.1 a.2; rm_op args kids1
  end.
Definition mkdir_op (cap : nat) (dst : arg) (kids : kidmap) : option kidmap := t_insert cap kids dst.1 dst.2 new_dir.

Section Edits.
Context {P : Params} {Pok : ParamsOk} {St : Type} `{CStoreLaws St}.
Variables (sz : nat → nat) (fuel : nat).
Hypothesis Hsz : ∀ i, 1 ≤ sz i.
Hypothesis Hfuel : 72 < fuel.
Hypothesis Heof : ¬ get_fails EOF.
Hypothesis Hcap : fuel ≤ max_stream.
Hypothesis Hzero : ∀ s, wp (Store.Get no_hash) (λ _ _, False) (λ _ _, True) s.
Implicit Types (s : St).

Lemma no_dir_at_zero s : wp (ReadDir sz fuel no_hash) (λ _ _, False) (λ _ _, True) s.
Proof.
  unfold ReadDir. wp_step. apply wp_with_reader. wp_step. unfold NewReader, r_get. wp_step. wp_step. wp_step. wp_step.
  eapply wp_mono; [apply Hzero|..]; done.
Qed.

Lemma Copy_spec src dst s h mode kids kids' :
  dirs fuel s h mode kids → good_arg src → good_arg dst → cp_op fuel src dst kids = Some kids' →
  wp (Copy sz fuel h (arg_path dst) (arg_path src)) (changed fuel s mode kids') (λ _ _, True) s.
Proof.
  intros Hd [Hs _] [Hdst Hlen] (n & Hl & Hi)%bind_Some. unfold Copy, arg_path. wp_step.
  eapply wp_mono; [by apply (Walk_spec sz fuel Hsz Heof)| |done]; cbn beta.
  intros e s1 [Hk Hres]. rewrite decide_False in Hres by (by destruct src.1).
  destruct Hres as (n' & Hn' & _ & Hrep). assert (n' = n) as -> by congruence.
  eapply wp_mono; [eapply (Insert_spec sz fuel Hsz Heof Hcap); [by eapply dirs_keeps|done|by apply ent_repr_rename|done]| |done].
  cbn beta. intros e' s2 Hc. by eapply changed_after.
Qed.

Lemma Move_spec src dst s h mode kids kids' :
  dirs fuel s h mode kids → good_arg src → good_arg dst → mv_op fuel src dst kids = Some kids' →
  wp (Fs.Move sz fuel h (arg_path dst) (arg_path src)) (changed fuel s mode kids') (λ _ _, True) s.
Proof.
  intros Hd Hs Hdst (kids1 & Hc & Hr)%bind_Some. unfold Fs.Move. wp_step.
  eapply wp_mono; [by eapply Copy_spec| |done]. cbn beta. intros ? s1 (t & -> & Hk1 & Hd1 & _). cbn [EntHTree dot_ent].
  eapply wp_mono; [by eapply (Remove_spec sz fuel Hsz Heof Hcap); [done|apply Hs|done]| |done].
  cbn beta. intros e' s2 Hc'. by eapply changed_after.
Qed.

Lemma Insert_zero a ent s : good_arg a → wp (Fs.Insert sz fuel no_hash (arg_path a) ent) (λ _ _, False) (λ _ _, True) s.
Proof.
  intros [Hg _]. pose proof Hg as [Hg1 (_ & Hdot & _)%Forall_singleton]%Forall_app.
  unfold Fs.Insert, arg_path. rewrite rooted_abs. rewrite bool_decide_eq_false_2 by (by apply last_abs).
  rewrite Dir_abs, Base_abs by done. wp_step. eapply wp_lift_ok; [by apply path_elems_abs|].
  destruct a.1; cbn [insert]; wp_step; (eapply wp_mono; [apply no_dir_at_zero|done..]).
Qed.

Lemma Copy_zero a b s : good_arg b → wp (Copy sz fuel no_hash (arg_path a) (arg_path b)) (λ _ _, False) (λ _ _, True) s.
Proof.
  intros [Hg _]. unfold Copy, Walk, arg_path. wp_step. wp_step. eapply wp_lift_ok; [by apply walk_elems_abs|]. wp_step.
  eapply wp_mono; [apply no_dir_at_zero|done..].
Qed.

Lemma Remove_zero a s : good_arg a → wp (Fs.Remove sz fuel no_hash (arg_path a)) (λ _ _, False) (λ _ _, True) s.
Proof.
  intros [Hg _]. unfold arg_path. rewrite (Remove_names sz fuel) by done.
  destruct a.1; cbn [Fs.remove app]; wp_step; (eapply wp_mono; [apply no_dir_at_zero|done..]).
Qed.

(** [Insert] where [put] puts its source. *)
Lemma Insert_put src destArg ent n s h mode kids kids' :
  dirs fuel s h mode kids → good_arg (put_dst src destArg) → EntName ent = path_base src →
  ent_repr fuel s (set_EntName (put_dst src destArg).2 ent) n →
  t_insert fuel kids (put_dst src destArg).1 (put_dst src destArg).2 n = Some kids' →
  wp (Fs.Insert sz fuel h (match destArg with Some a => arg_path a | None => [slash] end) ent)
     (changed fuel s mode kids') (λ _ _, True) s.
Proof.
  intros Hd [Hg _] Hname Hrep Hi. destruct destArg as [a|]; cbn [put_dst fst snd] in *.
  - eapply wp_mono; [by eapply (Insert_spec sz fuel Hsz Heof Hcap)|done|done].
  - unfold Fs.Insert. change (rooted [slash]) with [slash]. rewrite bool_decide_eq_true_2 by done. wp_step.
    eapply wp_lift_ok; [by vm_compute|]. apply Forall_singleton in Hg as (_ & Hdot & _). rewrite <-Hname in Hrep, Hi, Hdot.
    eapply wp_mono; [apply (insert_spec sz fuel Hsz Heof Hcap [] s h mode kids ent n kids'); done|done|done].
Qed.
Lemma Insert_put_zero src destArg ent s :
  good_arg (put_dst src destArg) →
  wp (Fs.Insert sz fuel no_hash (match destArg with Some a => arg_path a | None => [slash] end) ent) (λ _ _, False) (λ _ _, True) s.
Proof.
  intros Hg. destruct destArg as [a|]; [by apply Insert_zero|].
  unfold Fs.Insert. change (rooted [slash]) with [slash]. rewrite bool_decide_eq_true_2 by done. wp_step.
  eapply wp_lift_ok; [by vm_compute|]. cbn [insert]. wp_step. eapply wp_mono; [apply no_dir_at_zero|done..].
Qed.

Lemma EmptyDir_spec s :
  wp (EmptyDir 0x1ed) (λ e s', keeps s s' ∧ ∀ name, (Z.of_nat (length name) ≤ 65535)%Z → ent_repr fuel s' (set_EntName name e) new_dir)
     (λ _ _, True) s.
Proof.
  clear Hzero. change (EmptyDir 0x1ed) with (WriteDir [] new_dir_mode).
  assert (Hsize : map_size ∅ = 56) by (unfold map_size; rewrite dom_empty_L, elements_empty; reflexivity).
  eapply wp_mono; [apply (WriteDir_lists sz fuel Hsz Heof s [] ∅ new_dir_mode)|..]; cbn beta; try done.
  - split_and!; [constructor|set_solver|set_solver|set_solver].
  - rewrite Hsize. lia.
  - rewrite Hsize. lia.
  - intros ? s' (t & -> & Hk & Hd & Hh & Hdep). split; [done|]. intros name Hn.
    split; [split_and!; simpl; unfold new_dir_mode; (done || lia)|]. by exists new_dir_mode, ∅.
Qed.
End Edits.
