(* ===== verification/CommandsSpec.v ===== *)
(** What the commands mv, cp, rm, mkdir and put do to the stored tree. *)

From Stdlib Require Import ZArith Lia.
From stdpp Require Import base list strings gmap.
From coqutil Require Import Byte.
From S2P Require Import Prelude Store Io Htree HtreeSpec HtreeWrite HtreeRead HtreeProps Fs FsProps FsTree FsFile Refs Remote.
From S2P Require Import Host HostProps Commands CommandsProps.

Set Default Goal Selector "!".

Section Spec.
Context {P : Params} {Pok : ParamsOk} {St : Type} `{CStoreLaws St} {R : Type} `{RemoteClient R}.
Variables (fault : nat → option error) (rd : nat → nat) (sz : nat → nat) (fuel : nat).
Variables (Sum256 : bytes → hash) (HMAC : bytes → bytes → bytes) (key : Key) (clock : nat → Z).
Variable GetCStore : M (Cmd (St := St) (R := R)) unit.
Variables (ParseDuration ParseInLocation : bytes → outcome Z).
Hypothesis Hsz : ∀ i, 1 ≤ sz i.
Hypothesis Hfuel : 72 < fuel.
Hypothesis Heof : ¬ get_fails EOF.
Hypothesis Hcap : fuel ≤ max_stream.
Hypothesis Hmem : (Z.of_nat fuel ≤ 2 ^ 63)%Z.
Hypothesis Hclock : ∀ i, (- 2 ^ 63 ≤ clock i < 2 ^ 63)%Z.
(** A store whose reads may fail has nothing under the hash of zeros, which the empty reference has. *)
Hypothesis Hzero : (∃ e, get_fails e) → ∀ s, wp (Store.Get no_hash) (λ _ _, False) (λ _ _, True) s.

Abbreviation Cmd := (Cmd (St := St) (R := R)).
Implicit Types (s : St) (x : Cmd).

(** A change of the tree that depends on the tree only. *)
Definition by_op (op : kidmap → option kidmap) s (kids kids' : kidmap) : Prop := op kids = Some kids'.

Section Tx.
Variables (fits : kidmap → Prop) (src : list bytes) (src_node : option hnode).
Context {SL : LogLaws fuel Sum256 HMAC key GetCStore fits src}.
Variable tr : St → kidmap → kidmap → Prop.
(** Round after round, each with a new store. *)
Lemma reopened checked (c : M Cmd bool) :
  (∀ x, ready src_node x → wp c (round_ends tr checked x) (λ _, stopped tr checked x) x) →
  ∀ x, ready src_node x → wp (GetCStore;; c) (round_ends tr checked x) (λ _, stopped tr checked x) x.
Proof.
  intros Hc x Hrdy. apply reopen_spec with src_node; [done|]. intros x1 L Hrdy1.
  eapply wp_mono; [by apply Hc|..]; cbn beta.
  - intros ok x'. by apply round_ends_later.
  - intros _ x'. by apply stopped_later.
Qed.

Lemma retried checked tries (c : bytes → M Cmd bool) x :
  (∀ epoch x, ready src_node x → wp (c epoch) (round_ends tr checked x) (λ _, stopped tr checked x) x) →
  ready src_node x → log (cm_remote x) ≠ [] → left (cm_remote x) < tries →
  wp (GetRemote Sum256 HMAC key clock GetCStore;; epoch ← on_rm GetEpoch; rounds tries (c epoch))
    (λ _ x', published tr checked (st x') (cm_remote x) (cm_remote x')) (λ _, stopped tr checked x) x.
Proof.
  intros Hc Hrdy Hne Hleft.
  apply (command_spec fuel Sum256 HMAC key clock GetCStore fits src src_node tr checked _
    (λ x _ x', published tr checked (st x') (cm_remote x) (cm_remote x'))); [done|done|..].
  - intros x1 _ x' [l Hl]%later_log. by apply published_later with l.
  - intros epoch x1 Hrdy1 Hle. apply (rounds_spec fuel Sum256 HMAC key GetCStore fits src src_node); [by apply Hc|done|lia].
Qed.

(** The store is opened once. *)
Lemma retried_open checked tries (c : bytes → M Cmd bool) x :
  (∀ epoch x, ready src_node x → wp (c epoch) (round_ends tr checked x) (λ _, stopped tr checked x) x) →
  ready src_node x → log (cm_remote x) ≠ [] → left (cm_remote x) < tries →
  wp (GetRemote Sum256 HMAC key clock GetCStore;; epoch ← on_rm GetEpoch; GetCStore;; rounds tries (c epoch))
    (λ _ x', published tr checked (st x') (cm_remote x) (cm_remote x')) (λ _, stopped tr checked x) x.
Proof.
  intros Hc Hrdy Hne Hleft.
  apply (command_spec fuel Sum256 HMAC key clock GetCStore fits src src_node tr checked (λ epoch, GetCStore;; rounds tries (c epoch))
    (λ x _ x', published tr checked (st x') (cm_remote x) (cm_remote x'))); [done|done|..].
  - intros x1 _ x' [l Hl]%later_log. by apply published_later with l.
  - intros epoch x1 Hrdy1 Hle. apply reopen_spec with src_node; [done|]. intros x2 L Hrdy2.
    assert (left (cm_remote x2) ≤ left (cm_remote x1)) by (by eapply later_left).
    eapply wp_mono; [apply (rounds_spec fuel Sum256 HMAC key GetCStore fits src src_node); [by apply Hc|done|lia]|..]; cbn beta.
    + intros _ x' Hp. apply later_log in L as [l Hl]. by eapply published_later.
    + intros _ x'. by apply stopped_later.
Qed.

(** A checked command does not lose the root. *)
Lemma published_checked s r r' : published tr true s r r' → transacted tr s r r'.
Proof. by intros [?|[? _]]. Qed.
Lemma stopped_checked x x' :
  stopped tr true x x' →
  (∃ l, log (cm_remote x') = log (cm_remote x) ++ l) ∨ transacted tr (st x') (cm_remote x) (cm_remote x').
Proof. intros [?|?%published_checked]; auto. Qed.
End Tx.

Section Op.
Variables (op : kidmap → option kidmap) (src : list bytes) (src_node : option hnode).
Abbreviation fits := (λ kids, is_Some (op kids)).
Context {SL : LogLaws fuel Sum256 HMAC key GetCStore fits src}.

(** An edit of the store alone. *)
Lemma store_edit (c : hash → M St DirEnt) checked epoch :
  (∀ s root mode kids kids', dirs fuel s root mode kids → op kids = Some kids' →
    wp (c root) (changed fuel s mode kids') (λ _ _, True) s) →
  ((∃ e, get_fails e) → ∀ s, wp (c no_hash) (λ _ _, False) (λ _ _, True) s) →
  ∀ x, ready src_node x →
  wp (round sz fuel Sum256 HMAC key clock (λ root k, e ← on_st (c root); k (Data (EntHTree e))) checked epoch)
    (round_ends (by_op op) checked x) (λ _, stopped (by_op op) checked x) x.
Proof.
  intros Hc Hc0 x Hrdy. apply (round_spec sz fuel Sum256 HMAC key clock GetCStore Hsz Hfuel Heof Hcap Hclock fits src src_node); [done|..|done].
  - intros k Q E x0 root mode kids _ Hd [kids' Hop] Hk HE. wp_step. apply wp_on_st.
    eapply wp_mono; [by eapply Hc|..]; cbn beta; [|by intros; apply HE].
    intros ? s' (t & -> & Hkeep & Hd' & _). cbn [EntHTree dot_ent]. eapply Hk; [by apply stored_more_store|done|done].
  - intros Hf k Q E x0 _ HE. wp_step. apply wp_on_st. eapply wp_mono; [by apply Hc0|..]; cbn beta; [done|by intros; apply HE].
Qed.

End Op.

(** ** mv and cp *)

(** C3: [mv] is a transaction: it adds one root to the server, and the tree of this root is the tree of
    the root just before it, made by whichever client, with the entry moved; nothing another
    client did is lost, and the reference before stays the predecessor.  All of the new tree was
    saved when the root was given to the server, so a client that opens the store anew reads it; only
    if the flush failed and [Close] dropped the error ([lossy]) may it be in the command's own store
    alone.  When it dies it has added no root, unless the server took the root
    and its answer was lost.  It needs one more round than others have roots to add. *)
Theorem mv_commits a b src src_node {SL : LogLaws fuel Sum256 HMAC key GetCStore (λ kids, is_Some (mv_op fuel a b kids)) src} tries x :
  good_arg a → good_arg b → ready src_node x → log (cm_remote x) ≠ [] → left (cm_remote x) < tries →
  wp (Mv sz fuel Sum256 HMAC key clock GetCStore tries [arg_path a; arg_path b])
    (λ _ x', transacted (by_op (mv_op fuel a b)) (st x') (cm_remote x) (cm_remote x'))
    (λ _ x', (∃ l, log (cm_remote x') = log (cm_remote x) ++ l) ∨
             transacted (by_op (mv_op fuel a b)) (st x') (cm_remote x) (cm_remote x')) x.
Proof.
  intros Ha Hb Hrdy Hne Hleft.
  eapply wp_mono; [apply (retried _ src src_node (by_op (mv_op fuel a b)) true tries); [|done|done|done]|..]; cbn beta.
  - intros epoch. apply reopened.
    apply (store_edit (mv_op fuel a b) src src_node (λ root, Fs.Move sz fuel root (arg_path b) (arg_path a)) true epoch).
    + intros s root mode kids kids' Hd Hop. by eapply (Move_spec sz fuel Hsz Heof Hcap).
    + intros Hf s. unfold Fs.Move. wp_step. eapply wp_mono; [by apply (Copy_zero sz fuel (Hzero Hf))|done..].
  - intros _ x'. by apply published_checked.
  - intros _ x'. by apply stopped_checked.
Qed.

(** [cp] without a time is a transaction of the same kind. *)
Theorem cp_commits a b src src_node {SL : LogLaws fuel Sum256 HMAC key GetCStore (λ kids, is_Some (cp_op fuel a b kids)) src} tries depth x :
  good_arg a → good_arg b → ready src_node x → log (cm_remote x) ≠ [] → left (cm_remote x) < tries →
  wp (Cp sz fuel Sum256 HMAC key clock GetCStore ParseDuration ParseInLocation tries depth [] [arg_path a; arg_path b])
    (λ _ x', transacted (by_op (cp_op fuel a b)) (st x') (cm_remote x) (cm_remote x'))
    (λ _ x', (∃ l, log (cm_remote x') = log (cm_remote x) ++ l) ∨
             transacted (by_op (cp_op fuel a b)) (st x') (cm_remote x) (cm_remote x')) x.
Proof.
  intros Ha Hb Hrdy Hne Hleft.
  eapply wp_mono; [apply (retried _ src src_node (by_op (cp_op fuel a b)) true tries); [|done|done|done]|..]; cbn beta.
  - intros epoch. apply reopened.
    apply (store_edit (cp_op fuel a b) src src_node (λ root, Fs.Copy sz fuel root (arg_path b) (arg_path a)) true epoch).
    + intros s root mode kids kids' Hd Hop. by eapply (Copy_spec sz fuel Hsz Heof Hcap).
    + intros Hf s. by apply (Copy_zero sz fuel (Hzero Hf)).
  - intros _ x'. by apply published_checked.
  - intros _ x'. by apply stopped_checked.
Qed.

(** ** rm *)

Lemma removals_spec args mode kids kids' x root :
  Forall good_arg args → dirs fuel (st x) root mode kids → rm_op args kids = Some kids' →
  wp (remove_all sz fuel root (arg_path <$> args))
    (λ newRoot x', (∃ s', keeps (st x) s' ∧ x' = mkCmd (mkFsHost s' (fh_host (cm_fs x))) (cm_remote x) (cm_clock x)) ∧
                   dirs fuel (st x') newRoot mode kids')
    (λ _ x', cm_remote x' = cm_remote x) x.
Proof.
  intros Hg. revert x root kids. induction Hg as [|a args [Ha _] Hg IH]; intros x root kids Hd Hop; cbn [fmap list_fmap remove_all].
  - injection Hop as ->. wp_step. split; [|done]. exists (st x). split; [done|]. by destruct x as [[] ? ?].
  - apply bind_Some in Hop as (kids1 & Hrm & Hop). wp_step. apply wp_on_st.
    eapply wp_mono; [by eapply (Remove_spec sz fuel Hsz Heof Hcap)|..]; cbn beta; [|done].
    intros ? s1 (t & -> & Hk & Hd1 & _). cbn [EntHTree dot_ent]. set (x1 := mkCmd _ _ _).
    eapply wp_mono; [by apply (IH x1 _ kids1)|..]; cbn beta; [|done].
    intros newRoot x' [(s' & Hk' & ->) Hd']. split; [|done]. exists s'. split; [by transitivity s1|done].
Qed.

Lemma rm_round_spec args src src_node {SL : LogLaws fuel Sum256 HMAC key GetCStore (λ kids, is_Some (rm_op args kids)) src} epoch x :
  args ≠ [] → Forall good_arg args → ready src_node x →
  wp (rm_round sz fuel Sum256 HMAC key clock (arg_path <$> args) epoch)
    (round_ends (by_op (rm_op args)) false x) (λ _, stopped (by_op (rm_op args)) false x) x.
Proof.
  intros Hne Hg Hrdy. set (edit := λ root (k : hash → M Cmd bool), newRoot ← remove_all sz fuel root (arg_path <$> args); k newRoot).
  change (rm_round _ _ _ _ _ _ _ _) with (round sz fuel Sum256 HMAC key clock edit false epoch).
  apply (round_spec sz fuel Sum256 HMAC key clock GetCStore Hsz Hfuel Heof Hcap Hclock _ src src_node); [done|..|done]; unfold edit.
  - intros k Q E x1 root mode kids _ Hd [kids' Hop] Hk HE. wp_step.
    eapply wp_mono; [by eapply removals_spec|..]; cbn beta; [|by intros; apply HE].
    intros newRoot x' [(s' & Hkeep & ->) Hd']. eapply Hk; [by apply stored_more_store|done|done].
  - intros Hf k Q E x1 _ HE. destruct Hg as [|a args Ha Hg]; [done|]. cbn [fmap list_fmap remove_all]. wp_step. wp_step.
    apply wp_on_st. eapply wp_mono; [by apply (Remove_zero sz fuel (Hzero Hf))|..]; cbn beta; [done|by intros; apply HE].
Qed.

(** [rm] removes all its arguments in one transaction; as it does not look at [PutRef]'s error it may
    publish, over a store that fails, a root that names no reference. *)
Theorem rm_commits args src src_node {SL : LogLaws fuel Sum256 HMAC key GetCStore (λ kids, is_Some (rm_op args kids)) src} tries x :
  args ≠ [] → Forall good_arg args → ready src_node x → log (cm_remote x) ≠ [] → left (cm_remote x) < tries →
  wp (Rm sz fuel Sum256 HMAC key clock GetCStore tries (arg_path <$> args))
    (λ _ x', published (by_op (rm_op args)) false (st x') (cm_remote x) (cm_remote x'))
    (λ _, stopped (by_op (rm_op args)) false x) x.
Proof. intros Hne Hg. apply retried_open. intros epoch x0. by apply rm_round_spec. Qed.

(** ** mkdir *)

Definition mkdir_edit (destPath : bytes) (root : hash) (k : hash → M Cmd bool) : M Cmd bool :=
  emptyDirEnt ← on_st (EmptyDir 0x1ed);
  newRootEnt ← on_st (Fs.Insert sz fuel root destPath emptyDirEnt);
  k (Data (EntHTree newRootEnt)).

(** [mkdir] is one round of this edit. *)
Lemma Mkdir_round destPath x :
  Mkdir sz fuel Sum256 HMAC key clock GetCStore [destPath] x =
  (GetRemote Sum256 HMAC key clock GetCStore;;
   epoch ← on_rm GetEpoch;
   GetCStore;;
   ok ← round sz fuel Sum256 HMAC key clock (mkdir_edit destPath) false epoch;
   if (ok : bool) then mret () else throw concurrently_modified) x.
Proof.
  unfold Mkdir, round, mkdir_edit, finish, put_ref, mbind, M_bind.
  repeat (case_match; try done); simplify_eq; try done.
Qed.

(** [mkdir] adds an empty directory in one transaction, and gives up when another client was
    faster. *)
Theorem mkdir_commits a src src_node {SL : LogLaws fuel Sum256 HMAC key GetCStore (λ kids, is_Some (mkdir_op fuel a kids)) src} x :
  good_arg a → ready src_node x → log (cm_remote x) ≠ [] →
  wp (Mkdir sz fuel Sum256 HMAC key clock GetCStore [arg_path a])
    (λ _ x', published (by_op (mkdir_op fuel a)) false (st x') (cm_remote x) (cm_remote x'))
    (λ _, stopped (by_op (mkdir_op fuel a)) false x) x.
Proof.
  intros Ha Hrdy Hne. unfold wp. rewrite Mkdir_round.
  apply (command_spec fuel Sum256 HMAC key clock GetCStore _ src src_node (by_op (mkdir_op fuel a)) false
    (λ epoch, GetCStore;; ok ← round sz fuel Sum256 HMAC key clock (mkdir_edit (arg_path a)) false epoch;
              if (ok : bool) then mret () else throw concurrently_modified)
    (λ x _ x', published (by_op (mkdir_op fuel a)) false (st x') (cm_remote x) (cm_remote x'))); [done|done|..].
  { intros x1 _ x' [l Hl]%later_log. by apply published_later with l. }
  intros epoch x1 Hrdy1 _. apply reopen_spec with src_node; [done|]. intros x2 L Hrdy2. wp_step.
  eapply wp_mono; [apply (round_spec sz fuel Sum256 HMAC key clock GetCStore Hsz Hfuel Heof Hcap Hclock _ src src_node (by_op (mkdir_op fuel a)));
    [done|..|done]|..]; cbn beta.
  - intros k Q E x0 root mode kids _ Hd [kids' Hop] Hk HE. unfold mkdir_edit. wp_step. apply wp_on_st.
    eapply wp_mono; [by apply (EmptyDir_spec sz fuel Hsz Hfuel Heof Hcap)|..]; cbn beta; [|by intros; apply HE].
    intros e s1 [Hk1 Hrep]. wp_step. apply wp_on_st. cbn [st cm_fs fh_store fh_host cm_remote cm_clock].
    eapply wp_mono; [eapply (Insert_spec sz fuel Hsz Heof Hcap); [by eapply dirs_keeps|apply Ha|by apply Hrep, Ha|done]|..]; cbn beta; [|by intros; apply HE].
    intros ? s2 (t & -> & Hk2 & Hd' & _). cbn [EntHTree dot_ent]. eapply Hk; [|done|done]. apply stored_more_store. by transitivity s1.
  - intros Hf k Q E x0 _ HE. unfold mkdir_edit. wp_step. apply wp_on_st.
    eapply wp_mono; [by apply (EmptyDir_spec sz fuel Hsz Hfuel Heof Hcap)|..]; cbn beta; [|by intros; apply HE].
    intros e s1 _. wp_step. apply wp_on_st. eapply wp_mono; [by apply (Insert_zero sz fuel (Hzero Hf))|..]; cbn beta; [done|by intros; apply HE].
  - intros [] x' Hend; simpl in Hend.
    + wp_step. apply later_log in L as [l Hl]. by eapply published_later.
    + wp_step. destruct Hend as [L' _]. left. apply (later_log _ _ _ _ _ _ _ _ _). by eapply later_trans.
  - intros _ x'. by apply stopped_later.
Qed.

(** ** put *)

(** The new tree has at [dst] what the host has. *)
Definition put_tr (dst : arg) (n : hnode) s (kids kids' : kidmap) : Prop :=
  ∃ k, stored s k n ∧ t_insert fuel kids dst.1 dst.2 k = Some kids'.
Definition put_fits (dst : arg) (kids : kidmap) : Prop := ∀ k, is_Some (t_insert fuel kids dst.1 dst.2 k).

Lemma put_tr_keeps dst n s s' kids kids' : keeps s s' → put_tr dst n s kids kids' → put_tr dst n s' kids kids'.
Proof. intros Hk (k & Hst & Hi). exists k. split; [by eapply stored_keeps|done]. Qed.

Lemma put_round_spec d destArg n src {SL : LogLaws fuel Sum256 HMAC key GetCStore (put_fits (put_dst src destArg)) src} epoch x :
  Forall good_name src → kept n → backable fuel d n → good_arg (put_dst src destArg) → ready (Some n) x →
  wp (put_round fault rd sz fuel Sum256 HMAC key clock GetCStore d src (match destArg with Some a => arg_path a | None => [slash] end) epoch)
    (round_ends (put_tr (put_dst src destArg) n) false x) (λ _, stopped (put_tr (put_dst src destArg) n) false x) x.
Proof.
  intros Hsrc Hkept Hb Hdst Hrdy. set (dst := put_dst src destArg) in *. set (p := match destArg with Some a => arg_path a | None => [slash] end).
  set (edit := λ root (k : hash → M Cmd bool), srcDirEnt ← on_both (CpHostToFs fault rd d src);
    newRootEnt ← on_st (Fs.Insert sz fuel root p srcDirEnt); k (Data (EntHTree newRootEnt))).
  revert x Hrdy. change (put_round _ _ _ _ _ _ _ _ _ _ _ _ _) with (GetCStore;; round sz fuel Sum256 HMAC key clock edit false epoch).
  apply reopened. intros x Hrdy.
  assert (Hcp : ∀ x0, ready (Some n) x0 → wp (CpHostToFs fault rd d src)
    (λ e f, stored_more src x0 (mkCmd f (cm_remote x0) (cm_clock x0)) ∧
       EntName e = path_base src ∧ ∃ k, stored (fh_store f) k n ∧ ent_repr fuel (fh_store f) (set_EntName dst.2 e) k) (λ _ _, True) (cm_fs x0)).
  { intros x0 [_ Hs0]. eapply wp_mono; [by apply (CpHostToFs_spec fault rd sz fuel Hsz Heof Hcap Hmem d src n)| |done]. cbn beta.
    intros e f (Hk & Ht & Hname & k & Hst & Hrep). split; [|split; [done|by exists k; split; [|apply Hrep, Hdst]]].
    split_and!; [done| |done]. unfold src_at. cbn [cm_fs]. by rewrite Ht. }
  apply (round_spec sz fuel Sum256 HMAC key clock GetCStore Hsz Hfuel Heof Hcap Hclock _ src (Some n)); [apply put_tr_keeps|..|done]; unfold edit.
  - intros k Q E x0 root mode kids Hrdy0 Hd Hfits Hk HE. wp_step. unfold on_both. wp_step.
    eapply wp_mono; [by apply Hcp|..]; cbn beta; [|by intros; apply HE].
    intros e f (Hm & Hname & nd & Hst & Hrep). set (x1 := mkCmd _ _ _) in *. destruct (Hfits nd) as [kids' Hop]. wp_step. apply wp_on_st.
    eapply wp_mono; [eapply (Insert_put sz fuel Hsz Heof Hcap src destArg e nd (st x1)); [eapply dirs_keeps; [apply Hm|done]|done..]|..];
      cbn beta; [|by intros; apply HE].
    intros ? s2 (t & -> & Hk2 & Hd' & _). cbn [EntHTree dot_ent]. eapply Hk; [|exists nd; split; [|done]|done].
    + eapply stored_more_trans; [exact Hm|by apply stored_more_store].
    + by eapply stored_keeps.
  - intros Hf k Q E x0 Hrdy0 HE. wp_step. unfold on_both. wp_step.
    eapply wp_mono; [by apply Hcp|..]; cbn beta; [|by intros; apply HE].
    intros e f _. wp_step. apply wp_on_st. eapply wp_mono; [by apply (Insert_put_zero sz fuel (Hzero Hf) src)|..]; cbn beta; [done|by intros; apply HE].
Qed.

(** C4: [put] is a backup in one transaction: the tree of the root it adds is the tree of the root just
    before it, made by whichever client, with the host's file or directory at the destination, or
    under its own name where none is given; below the directory what is neither a file nor a
    directory is left out.  The tree was saved when the root was given to the server, unless the
    flush failed and [Close] dropped its error.  It needs one more round than others have roots to add; each
    round copies the host again.  When it dies it has added no root, unless the answer was lost.  As
    [put] does not look at [PutRef]'s error, the root may instead name no reference, where the store
    fails. *)
Theorem put_commits d destArg n src {SL : LogLaws fuel Sum256 HMAC key GetCStore (put_fits (put_dst src destArg)) src} tries x :
  Forall good_name src → kept n → backable fuel d n → good_arg (put_dst src destArg) →
  ready (Some n) x → log (cm_remote x) ≠ [] → left (cm_remote x) < tries →
  wp (Put fault rd sz fuel Sum256 HMAC key clock GetCStore tries d src (arg_path <$> destArg))
    (λ _ x', published (put_tr (put_dst src destArg) n) false (st x') (cm_remote x) (cm_remote x'))
    (λ _, stopped (put_tr (put_dst src destArg) n) false x) x.
Proof.
  intros Hsrc Hkept Hb Hdst. unfold Put. replace (match arg_path <$> destArg with Some p => p | None => [slash] end)
    with (match destArg with Some a => arg_path a | None => [slash] end) by (by destruct destArg).
  apply retried. intros epoch x0. by apply put_round_spec.
Qed.

(** ** A new server *)
Section New.
Variables (fits : kidmap → Prop) (src : list bytes) (src_node : option hnode).
Context {SL : LogLaws fuel Sum256 HMAC key GetCStore fits src}.

(** [e] is a first root: a reference without predecessor, to an empty directory. *)
Definition first_root s (e : RootReply) : Prop :=
  ∃ h ref, signed HMAC key e ∧ ParseHash (Value e) = Ok h ∧ ref_at s h ref ∧ HasPrev ref = false ∧
           dirs fuel s (Root ref) new_dir_mode ∅.

Lemma EmptyDir_root s :
  wp (EmptyDir 0x1ed) (λ e s', keeps s s' ∧ dirs fuel s' (Data (EntHTree e)) new_dir_mode ∅ ∧ length (Data (EntHTree e)) = hash_len)
     (λ _ _, True) s.
Proof.
  eapply wp_mono; [by apply (EmptyDir_spec sz fuel Hsz Hfuel Heof Hcap)|..]; cbn beta; [|done]. intros e s' [Hk Hrep].
  destruct (Hrep []) as [(_ & _ & _ & _ & _ & Hl) Hd]; [done|]. split_and!; [done| |done]. cbn [EntHTree set_EntName] in *.
  destruct (IsDir _); [|done]. destruct Hd as (dm & ks & Heq & Hd). unfold new_dir in Heq. by simplify_eq.
Qed.

(** The root is one that every client can use; only if a [Close] dropped the error of its flush may
    its directory be in the store of the client that made it and nowhere else. *)
Definition inited x x' : Prop :=
  ∃ l, log (cm_remote x') = log (cm_remote x) ++ l ∨
       ∃ e, log (cm_remote x') = (log (cm_remote x) ++ l) ++ [e] ∧
            (first_root (saved (st x')) e ∨ lossy (st x') ∧ first_root (st x') e).

Lemma inited_later x x1 x' : later x x1 → inited x1 x' → inited x x'.
Proof.
  intros [l Hl]%later_log [l' Hi]. exists (l ++ l'). by rewrite app_assoc, <-Hl.
Qed.
Lemma inited_log x x' : (∃ l, log (cm_remote x') = log (cm_remote x) ++ l) → inited x x'.
Proof. intros [l ?]. exists l. by left. Qed.

Lemma first_ref_valid i root : length root = hash_len → valid_ref (mkRef (Unix (clock i)) root false no_hash).
Proof.
  intros Hl. destruct (next_ref_valid clock Hclock i root no_hash Hl eq_refl) as (? & ? & ? & _). split; [done|by split_and!].
Qed.

(** What follows when there is no root. *)
Definition make_root (epoch version : bytes) : M Cmd unit :=
  ent ← on_st (EmptyDir 0x1ed);
  now ← time_Now clock;
  hash ← on_st (PutRef (mkRef (Unix now) (Data (EntHTree ent)) false no_hash));
  on_st Store.Close;;
  on_rm (CasRoot HMAC key hash (NextRootVersion Sum256 version) epoch);;
  mret ().

Lemma make_root_spec epoch x :
  ready src_node x →
  wp (make_root epoch base) (λ _ x', log (cm_remote x') ≠ [] ∧ inited x x') (λ _, inited x) x.
Proof.
  intros [Hv _]. unfold make_root, time_Now.
  assert (Hdie : ∀ f c, inited x (mkCmd f (cm_remote x) c)) by (intros; apply inited_log; exists []; by rewrite app_nil_r).
  wp_step. apply wp_on_st. eapply wp_mono; [apply EmptyDir_root|..]; cbn beta; [|by intros].
  intros e s1 (Hk1 & Hd1 & Hl1). wp_step. wp_steps. apply wp_on_st. cbn [cm_clock cm_fs cm_remote fh_host st fh_store].
  eapply wp_mono; [by apply PutRef_spec, first_ref_valid|..]; cbn beta; [|by intros].
  intros h s2 [Hr2 Hk2]. wp_step. apply wp_on_st. cbn [cm_clock cm_fs cm_remote fh_host st fh_store].
  eapply wp_mono; [apply Close_law|..]; cbn beta; [|by intros].
  intros _ s3 [Hk3 Hclose]. wp_step. apply wp_on_rm. cbn [cm_clock cm_fs cm_remote fh_host st fh_store].
  assert (Hk : keeps (st x) s3) by (transitivity s2; [by transitivity s1|done]).
  assert (Hv3 : visible s3 (cm_remote x)) by (by eapply visible_saves; [apply keeps_saves|]).
  set (rep := mkRootReply (EncodeToString h) (next Sum256 base) (SignValue HMAC key (EncodeToString h) (next Sum256 base)) true).
  assert (Hfirst : ∀ s', keeps s2 s' → first_root s' rep).
  { intros s' Hk'. eexists h, _. split_and!; [done| |exact (ref_at_keeps _ _ _ _ Hk' Hr2)|done|eapply dirs_keeps; [|exact Hd1]; by transitivity s2].
    apply ParseHash_Encode. destruct Hr2 as (_ & lvl & _ & Ht). by eapply tree_at_hash. }
  assert (Hnew : ∀ e r', swapped s3 rep (cm_remote x) r' →
    log r' ≠ [] ∧ inited x (mkCmd (mkFsHost s3 e) r' (S (cm_clock x)))).
  { intros hst r' (r1 & [_ (l & Hl & _)] & Hlog & _). split; [rewrite Hlog; by destruct (log r1)|].
    exists l. right. eexists. split; [cbn [cm_remote]; by rewrite Hlog, Hl|].
    destruct Hclose as [?|?]; [left|right; split; [done|]]; by apply Hfirst. }
  unfold CasRoot. eapply wp_mono; [by apply (TCasRoot_law s3)|..]; cbn beta.
  - intros [] r' Hans; wp_step; [by apply Hnew|]. destruct Hans as [Hg Hne]. split; [|by apply inited_log; eapply grows_log].
    intros Hnil. cbn [cm_remote] in Hnil. apply Hne. unfold lastv. by rewrite Hnil.
  - intros _ r' [Hg|Hsw]; [by apply inited_log; eapply grows_log|by apply Hnew].
Qed.

(** C20: [GetRemote] leaves no server without root: when it returns, the server has one, made by
    another client or the first root, an empty directory, that it stored and signed itself;
    the directory was saved when the root was given to the server, unless the flush failed and [Close]
    dropped its error.  When it fails it has added at most this root. *)
Theorem getremote_init x :
  ready src_node x →
  wp (GetRemote Sum256 HMAC key clock GetCStore) (λ _ x', log (cm_remote x') ≠ [] ∧ inited x x') (λ _, inited x) x.
Proof.
  intros Hrdy. pose proof Hrdy as [Hv Hs]. unfold GetRemote. wp_step. apply wp_on_rm.
  eapply wp_mono; [by apply (GetRoot_log fuel Sum256 HMAC key GetCStore fits src)|..]; cbn beta.
  2: { intros e r' Hg. apply inited_log. by eapply grows_log. }
  intros [[h version] ok] r1 [G1 Hr]. set (x1 := mkCmd (cm_fs x) r1 (cm_clock x)). assert (L1 : later x x1) by (by split_and!).
  destruct ok.
  { wp_step. destruct Hr as (e & Hlast & _). split; [intros Hnil; cbn [x1 cm_remote] in Hnil; by rewrite Hnil in Hlast|].
    by apply inited_log, later_log. }
  destruct Hr as [Hnil ->]. pose proof (later_ready _ _ _ _ _ _ _ _ _ _ Hrdy L1) as Hrdy1. wp_step.
  eapply wp_mono; [by apply (GetEpoch_spec fuel Sum256 HMAC key GetCStore fits src src_node)|..]; cbn beta.
  2: { intros e x' Hl. eapply inited_later; [exact L1|by apply inited_log]. }
  intros epoch x2 L2. assert (L : later x x2) by (by eapply later_trans). wp_step.
  pose proof (later_ready _ _ _ _ _ _ _ _ _ _ Hrdy L) as Hrdy2.
  eapply wp_mono; [apply GetCStore_law, Hrdy2|..]; cbn beta.
  2: { intros e x' Hg. eapply inited_later; [exact L|]. apply inited_log. by eapply grows_log. }
  intros _ x3 (Hk3 & Hs3 & G3). assert (L3 : later x x3) by (eapply later_trans; [exact L|]; split_and!; [done..|by eapply grows_saves]).
  eapply wp_mono; [apply (make_root_spec epoch x3); exact (later_ready _ _ _ _ _ _ _ _ _ _ Hrdy L3)|..]; cbn beta.
  - intros _ x' [? ?]. split; [done|by eapply inited_later].
  - intros _ x' ?. by eapply inited_later.
Qed.
End New.
End Spec.
