(* ===== verification/CommandsDemo.v ===== *)
(** A server with another client, and a store that buffers what a client puts: the commands meet a
    root that was not there when they read, what they leave is looked at through a store opened
    anew, and the theorems of CommandsSpec apply. *)

From Stdlib Require Import ZArith Lia.
From stdpp Require Import base list strings gmap.
From coqutil Require Import Byte.
From S2P Require Import Prelude Store Io Htree HtreeSpec HtreeWrite HtreeRead HtreeProps Fs FsProps FsTree FsFile FsDemo Refs Remote.
From S2P Require Import Host HostProps Commands CommandsProps CommandsSpec.

Set Default Goal Selector "!".

Module CommandsDemo.
Import FsDemo.
#[local] Existing Instances params fs_params_ok FsDemo.store laws.

(** ** The server *)

(** [s_log] are the roots; another client adds the first of [s_script] before the next swap is looked at. *)
Record Srv := mkSrv { s_log : list RootReply; s_script : list RootReply }.
Definition Sum (d : bytes) : hash := Demo.toy_hash (str "v" ++ d).
Definition version0 : bytes := str "0".
Definition s_lastv (l : list RootReply) : bytes := match last l with Some e => Version e | None => version0 end.
Definition others_act : M Srv unit :=
  modify (λ r, match s_script r with [] => r | e :: es => mkSrv (s_log r ++ [e]) es end).
Definition unused {A} : M Srv A := throw (ENew "unused").

#[local] Instance srv : RemoteClient Srv := {|
  ReadDirFile _ := unused;
  TGetRoot :=
    r ← get;
    mret (match last (s_log r) with Some e => e | None => mkRootReply [] version0 [] false end);
  TCasRoot value version sg epoch :=
    others_act;;
    r ← get;
    if bool_decide (version = NextRootVersion Sum (s_lastv (s_log r))) then
      modify (λ r, mkSrv (s_log r ++ [mkRootReply value version sg true]) (s_script r));; mret true
    else mret false;
  TRemove _ _ := unused;
  TGetEpoch := mret (str "epoch");
  TStartGC := unused;
  TStopGC := unused;
|}.

Definition hmac (key msg : bytes) : bytes := take 4 (key ++ msg).
Definition key : Key := mkKey (str "c") (str "h") (str "i").
Definition clock (i : nat) : Z := 5000000000.
Lemma clock_bounds i : (- 2 ^ 63 ≤ clock i < 2 ^ 63)%Z.
Proof. unfold clock. lia. Qed.
Lemma fuel_ref : 72 < fuel.
Proof. by apply Nat.ltb_lt. Qed.

(** ** Two roots *)

Definition ref0 : Ref := mkRef 1 (Data (EntHTree root)) false no_hash.
Definition h0 : hash := (step (PutRef ref0) [] s2).1.
Definition s3 : MemStore.MemStore := (step (PutRef ref0) [] s2).2.
(** The other client adds a second name for the file. *)
Definition other_ent : DirEnt := set_EntName other file.
Definition root1 : DirEnt := (step (Insert sz fuel (Data (EntHTree root)) (abs_path [other]) file) zero_dirent s3).1.
Definition s4 : MemStore.MemStore := (step (Insert sz fuel (Data (EntHTree root)) (abs_path [other]) file) zero_dirent s3).2.
Definition kids1 : kidmap := <[other := File (meta_of file) t1]> kids.
Definition ref1 : Ref := mkRef 2 (Data (EntHTree root1)) true h0.
Definition h1 : hash := (step (PutRef ref1) [] s4).1.
Definition s5 : MemStore.MemStore := (step (PutRef ref1) [] s4).2.

Definition signed_root (h : hash) (version : bytes) : RootReply :=
  mkRootReply (EncodeToString h) version (SignValue hmac key (EncodeToString h) version) true.
Definition e0 : RootReply := signed_root h0 (NextRootVersion Sum version0).
Definition e1 : RootReply := signed_root h1 (NextRootVersion Sum (Version e0)).
Definition known : list RootReply := [e0; e1].

(** ** The store of a client *)

Abbreviation Buf := Buffered.Buffered.
(** A store that works; [failing] does not save what it holds when it is closed. *)
Definition buffered : CStore Buf := Buffered.buffered_cstore Demo.toy_hash false.
Definition failing : CStore Buf := Buffered.buffered_cstore Demo.toy_hash true.
Definition buffered_laws : @CStoreLaws _ buffered := Buffered.buffered_laws Demo.toy_hash Demo.toy_hash_len false.
#[local] Existing Instances buffered buffered_laws.
(** All that is in [s5] is on the disk. *)
Definition opened : Buf := Buffered.mkBuffered (MemStore.vals s5) ∅ false.
Lemma no_eof_buf : ¬ get_fails (CStoreLaws := buffered_laws) EOF.
Proof. intros []. Qed.

Definition cmd : Type := Cmd (St := Buf) (R := Srv).
(** A new store has what is on the disk. *)
Definition GetCStore : M cmd unit := modify (λ x,
  mkCmd (mkFsHost (Buffered.reopened (fh_store (cm_fs x))) (fh_host (cm_fs x))) (cm_remote x) (cm_clock x)).
Definition start (host : hnode) : cmd := mkCmd (mkFsHost opened (mkHost host 0)) (mkSrv [e0] [e1]) 0.

Definition from : arg := ([], name).
Definition to : arg := ([], str "cat").

(** The names in the root of the last reference, as a client reads them that opens the store anew. *)
Definition names_of (x : cmd) : option (list bytes) :=
  match last (s_log (cm_remote x)) with
  | Some e =>
    match ParseHash (Value e) with
    | Ok h => match (ref ← GetRef sz fuel h; ReadDir sz fuel (Root ref)) (Buffered.reopened (st x)) with (Ok ents, _) => Some (EntName <$> ents) | _ => None end
    | _ => None
    end
  | None => None
  end.

(** The first swap is refused, and the second keeps what the other client did. *)
Example mv_runs :
  let '(o, x) := Mv sz fuel Sum hmac key clock GetCStore 3 [arg_path from; arg_path to] (start (HDir 0 ∅)) in
  (o, length (s_log (cm_remote x)), names_of x) = (Ok (), 3, Some [dot; str "cat"; other]).
Proof. vm_compute. reflexivity. Qed.

(** Over a store whose flush fails [mv] reports success as well, and the new root has no tree: what
    [lossy] stands for. *)
Example mv_unsaved :
  let '(o, x) := Mv (H := failing) sz fuel Sum hmac key clock GetCStore 3 [arg_path from; arg_path to] (start (HDir 0 ∅)) in
  (o, length (s_log (cm_remote x)), names_of x, Buffered.dropped (st x)) = (Ok (), 3, None, true).
Proof. vm_compute. reflexivity. Qed.

(** [cp -when] starts from the tree of that time, and the root it adds has lost what came later. *)
Definition ParseDuration (d : bytes) : outcome Z := Ok 4000000000%Z.
Definition ParseInLocation (d : bytes) : outcome Z := Err (ENew "parsing time").
Example cp_when_reverts :
  let '(o, x) := Cp sz fuel Sum hmac key clock GetCStore ParseDuration ParseInLocation 3 3 (str "4s ago") [arg_path from; arg_path to]
                   (mkCmd (mkFsHost opened (mkHost (HDir 0 ∅) 0)) (mkSrv [e0; e1] []) 0) in
  (o, names_of x) = (Ok (), Some [dot; str "cat"; name]).
Proof. vm_compute. reflexivity. Qed.

(** [revert] to a hash that names nothing succeeds: the read error is taken for an empty reference, and
    the root it adds has no tree. *)
Example revert_unknown :
  let '(o, x) := Revert sz fuel Sum hmac key clock GetCStore [EncodeToString (replicate 32 Byte.xff)]
                   (mkCmd (mkFsHost opened (mkHost (HDir 0 ∅) 0)) (mkSrv [e0; e1] []) 0) in
  (o, length (s_log (cm_remote x)), names_of x) = (Ok (), 3, None).
Proof. vm_compute. reflexivity. Qed.

(** ** The laws *)

Lemma ref0_stored : ref_at s3 h0 ref0 ∧ keeps s2 s3.
Proof.
  apply (step_ok _ [] s2 _ _ (PutRef_spec s2 ref0 ltac:(split_and!; vm_compute; congruence))). by vm_compute.
Qed.
Lemma root1_stored : keeps s3 s4 ∧ dirs fuel s4 (Data (EntHTree root1)) mode kids1.
Proof.
  destruct root_written as [_ Hd]. assert (Hd3 : dirs fuel s3 (Data (EntHTree root)) mode kids) by (eapply dirs_keeps; [apply ref0_stored|done]).
  assert (Hi : t_insert fuel kids [] other (File (meta_of file) t1) = Some kids1).
  { unfold t_insert. cbn [t_update]. unfold add_kid. rewrite decide_True; [done|]. split; [done|apply Nat.ltb_lt; by vm_compute]. }
  destruct (step_ok _ zero_dirent s3 _ _ (Insert_spec sz fuel sz_pos no_eof fuel_capacity [] other s3 _ mode kids file _ kids1 Hd3
    ltac:(constructor; [apply good_name_dog|constructor]) ltac:(split; [split_and!; vm_compute; (congruence || lia || done)|done]) Hi)) as (t & Ht & Hk & Hd1 & _);
    [by vm_compute|].
  unfold root1, s4. change ([] ++ [other]) with [other] in *. rewrite Ht. by split.
Qed.
Lemma other_ref_stored : ref_at s5 h1 ref1 ∧ keeps s4 s5.
Proof.
  apply (step_ok _ [] s4 _ _ (PutRef_spec s4 ref1 ltac:(split_and!; vm_compute; congruence))). by vm_compute.
Qed.

Lemma same_hash h h' : length h = hash_len → ParseHash (EncodeToString h) = Ok h' → h' = h.
Proof. intros Hl Hp. rewrite ParseHash_Encode in Hp by done. by injection Hp. Qed.

#[local] Opaque h0 h1 s2 s3 s4 s5 root root1.

(** *** From one store to another that has its blocks *)
Section Transfer.
Variables (m : MemStore.MemStore) (s : Buf).
Hypothesis Hall : ∀ h d, holds (CStoreLaws := laws) m h d → holds (CStoreLaws := buffered_laws) s h d.

Lemma tree_forest_moves minsz :
  (∀ lvl h off d, tree_at (H0 := laws) minsz m lvl h off d → tree_at (H0 := buffered_laws) minsz s lvl h off d) ∧
  (∀ lvl off es d, forest_at (H0 := laws) minsz m lvl off es d → forest_at (H0 := buffered_laws) minsz s lvl off es d).
Proof. apply tree_forest_ind; intros; eauto using tree_leaf, tree_node, forest_at. Qed.
Lemma dirs_moves h dm ks : dirs (H0 := laws) fuel m h dm ks → dirs (H0 := buffered_laws) fuel s h dm ks.
Proof.
  induction 1 as [t dm ents dms kss (? & ? & ? & ? & ? & Ht) Hn Hdot _ IH]. econstructor; [|done..].
  split_and!; try done; try lia. by apply (proj1 (tree_forest_moves _)).
Qed.
Lemma ref_at_moves h ref : ref_at (H0 := laws) m h ref → ref_at (H0 := buffered_laws) s h ref.
Proof. intros (? & lvl & ? & Ht). split; [done|]. exists lvl. split; [done|]. by apply (proj1 (tree_forest_moves _)). Qed.
End Transfer.

(** The store has saved all that was there. *)
Definition has_all (s : Buf) : Prop := saves opened s.
Lemma opened_all : has_all opened.
Proof. exact (reflexivity (R := saves) opened). Qed.
Lemma opened_holds h d : holds (CStoreLaws := laws) s5 h d → holds (saved opened) h d.
Proof. simpl. rewrite Buffered.found_reopened. done. Qed.
Lemma has_all_moves m s : keeps (CStoreLaws := laws) m s5 → has_all s → ∀ h d, holds (CStoreLaws := laws) m h d → holds (saved s) h d.
Proof. intros [Hk _] Hs h d Hh. by apply Hs, opened_holds, Hk. Qed.

Section Laws.
Variables (fits : kidmap → Prop) (src : list bytes).
Hypotheses (Hfits0 : fits kids) (Hfits1 : fits kids1).

Definition seen (all : list RootReply) (s : Buf) (r : Srv) : Prop := s_log r ++ s_script r = all ∧ has_all s.

Lemma root0_known h s : ParseHash (Value e0) = Ok h → has_all s → repo_root fuel fits (saved s) h.
Proof.
  intros Hp Hs. apply (same_hash h0) in Hp as ->; [|by vm_compute]. pose proof root1_stored as [Hk4 _]. pose proof other_ref_stored as [_ Hk5].
  pose proof (transitivity Hk4 Hk5) as Hk3. pose proof ref0_stored as [Hr0 Hk2]. pose proof root_written as [_ Hd].
  exists ref0, mode, kids. split_and!; [| |exact Hfits0].
  - eapply ref_at_moves; [exact (has_all_moves _ _ Hk3 Hs)|exact Hr0].
  - eapply dirs_moves; [exact (has_all_moves _ _ (transitivity Hk2 Hk3) Hs)|exact Hd].
Qed.
Lemma root1_known h s : ParseHash (Value e1) = Ok h → has_all s → repo_root fuel fits (saved s) h.
Proof.
  intros Hp Hs. apply (same_hash h1) in Hp as ->; [|by vm_compute]. pose proof root1_stored as [_ Hd]. pose proof other_ref_stored as [Hr Hk5].
  exists ref1, mode, kids1. split_and!; [| |exact Hfits1].
  - eapply ref_at_moves; [exact (has_all_moves s5 _ (reflexivity _) Hs)|exact Hr].
  - eapply dirs_moves; [exact (has_all_moves _ _ Hk5 Hs)|exact Hd].
Qed.
Lemma known_root e h s : e ∈ known → ParseHash (Value e) = Ok h → has_all s → repo_root fuel fits (saved s) h.
Proof.
  intros He. revert h. assert (Hall : Forall (λ e, ∀ h, ParseHash (Value e) = Ok h → has_all s → repo_root fuel fits (saved s) h) known).
  { repeat constructor; intros h; [apply root0_known|apply root1_known]. }
  exact (proj1 (Forall_forall _ _) Hall e He).
Qed.

(** Some of the known roots are there, and others come. *)
Definition upto (s : Buf) (r : Srv) : Prop := seen known s r ∨ seen [] s r.

Lemma upto_step s r : upto s r → upto s (others_act r).2 ∧
  ∃ l, s_log (others_act r).2 = s_log r ++ l ∧ length l + length (s_script (others_act r).2) ≤ length (s_script r).
Proof.
  destruct r as [l [|e es]]; unfold upto, seen; simpl; intros Hs.
  - split; [done|]. exists []. rewrite app_nil_r. split; [done|]. simpl. lia.
  - rewrite <-app_assoc. split; [exact Hs|]. exists [e]. split; [done|]. simpl. lia.
Qed.
Lemma upto_elem s r e : upto s r → last (s_log r) = Some e → e ∈ known ∧ has_all s.
Proof.
  intros [[Hs Hk]|[Hs Hk]] (l & Hl)%last_Some; rewrite Hl in Hs; split; try done.
  - rewrite <-Hs. set_solver.
  - by destruct l.
Qed.

Lemma upto_versions s r : upto s r → NoDup ((λ e, next Sum (Version e)) <$> s_log r).
Proof.
  intros Hs. assert (Hnd : NoDup ((λ e, next Sum (Version e)) <$> s_log r ++ s_script r)).
  { destruct Hs as [[-> _]|[-> _]]; [|constructor]. apply (bool_decide_unpack _). by vm_compute. }
  rewrite fmap_app in Hnd. by apply NoDup_app in Hnd as [? _].
Qed.

Lemma upto_root s r :
  upto s r →
  wp TGetRoot (λ rep r', r' = r ∧
    match last (s_log r') with Some e => rep = e ∧ ReplyOk e = true | None => ReplyOk rep = false ∧ Version rep = version0 end)
    (λ _ _, False) r.
Proof.
  intros Hs. cbn [TGetRoot srv]. wp_steps. split; [done|]. destruct (last (s_log r)) as [e|] eqn:Hl; [|done]. split; [done|].
  destruct (upto_elem _ _ _ Hs Hl) as [He _]. assert (Hall : Forall (λ e, ReplyOk e = true) known) by (by repeat constructor).
  exact (proj1 (Forall_forall _ _) Hall e He).
Qed.

Lemma upto_cas s r value version sg epoch :
  upto s r →
  wp (TCasRoot value version sg epoch)
    (λ ok r', let r1 := (others_act r).2 in
       if (ok : bool) then s_log r' = s_log r1 ++ [mkRootReply value version sg true] ∧ version = next Sum (s_lastv (s_log r1))
       else r' = r1 ∧ version ≠ next Sum (s_lastv (s_log r1))) (λ _ _, False) r.
Proof.
  intros Hs. cbn [TCasRoot srv]. wp_step. unfold others_act at 1. wp_step. wp_step. wp_step. case_bool_decide as Hv; by wp_steps.
Qed.

#[local] Instance srv_laws : LogLaws fuel Sum hmac key GetCStore fits src.
Proof.
  assert (Hstay : ∀ s r, upto s r → upto s r ∧ ∃ l, s_log r = s_log r ++ l ∧ length l + length (s_script r) ≤ length (s_script r)).
  { intros s r Hs. split; [done|]. exists []. by rewrite app_nil_r. }
  unshelve refine {| log := s_log; base := version0; left r := length (s_script r); visible := upto |}.
  - apply upto_versions.
  - intros s s' r Hk [[? ?]|[? ?]]; [left|right]; (split; [done|unfold has_all; by transitivity s]).
  - intros s r e h Hs Hl _ Hp. destruct (upto_elem _ _ _ Hs Hl). by eapply known_root.
  - intros s r Hs. eapply wp_mono; [by eapply upto_root|..]; cbn beta; [|done]. intros rep r' [-> Hrep]. split; [by apply Hstay|done].
  - intros s r Hs. cbn [TGetEpoch srv]. wp_step. by apply Hstay.
  - intros s r value version sg epoch Hs. destruct (upto_step _ _ Hs) as [Hs1 Hl1].
    eapply wp_mono; [by apply (upto_cas s)|..]; cbn beta zeta; [|done]. intros [] r' Hans.
    + exists (others_act r).2. destruct Hans as [Hlog Hver]. by split_and!.
    + destruct Hans as [-> Hne]. by split_and!.
  - intros x Hs. unfold GetCStore. wp_step. split; [by cbv|]. split; [done|by apply Hstay].
Defined.
End Laws.

(** ** The theorems apply *)

Lemma some_true {A} (o : option A) : match o with Some _ => true | None => false end = true → is_Some o.
Proof. destruct o; [by eexists|done]. Qed.
Lemma mv_fits0 : is_Some (mv_op fuel from to kids).
Proof. apply some_true. vm_compute. reflexivity. Qed.
Lemma mv_fits1 : is_Some (mv_op fuel from to kids1).
Proof. apply some_true. vm_compute. reflexivity. Qed.

Lemma start_ready fits src (H0 : fits kids) (H1 : fits kids1) host :
  ready (SL := srv_laws fits src H0 H1) (h_lookup host src) (start host).
Proof. split; [left; split; [done|exact opened_all]|done]. Qed.

Definition empty_host : hnode := HDir 0 ∅.
#[local] Instance mv_laws : LogLaws fuel Sum hmac key GetCStore (λ kids, is_Some (mv_op fuel from to kids)) [] :=
  srv_laws (λ kids, is_Some (mv_op fuel from to kids)) [] mv_fits0 mv_fits1.

Lemma good_from : good_arg from.
Proof. split; [constructor; [apply good_name_fox|constructor]|by vm_compute]. Qed.
Lemma good_to : good_arg to.
Proof. split; [constructor; [split_and!; by apply (bool_decide_unpack _)|constructor]|by vm_compute]. Qed.
Lemma no_zero : (∃ e, get_fails (CStoreLaws := buffered_laws) e) → ∀ s, wp (Store.Get no_hash) (λ _ _, False) (λ _ _, True) s.
Proof. by intros [? []]. Qed.

Lemma mv_commits_witness :
  wp (Mv sz fuel Sum hmac key clock GetCStore 2 [arg_path from; arg_path to])
    (λ _ x', transacted (by_op (mv_op fuel from to)) (st x') (cm_remote (start empty_host)) (cm_remote x'))
    (λ _ x', (∃ l, log (cm_remote x') = log (cm_remote (start empty_host)) ++ l) ∨
             transacted (by_op (mv_op fuel from to)) (st x') (cm_remote (start empty_host)) (cm_remote x')) (start empty_host).
Proof.
  apply (mv_commits sz fuel Sum hmac key clock GetCStore sz_pos fuel_ref no_eof_buf fuel_capacity clock_bounds no_zero
    from to [] (h_lookup empty_host []) 2 (start empty_host)).
  - apply good_from.
  - apply good_to.
  - apply start_ready.
  - done.
  - apply Nat.ltb_lt. reflexivity.
Defined.

(** A new server: the first client makes the first root. *)
Definition new_server : cmd := mkCmd (mkFsHost opened (mkHost empty_host 0)) (mkSrv [] []) 0.
Example getremote_runs :
  let '(o, x) := GetRemote Sum hmac key clock GetCStore new_server in (o, names_of x) = (Ok (), Some [dot]).
Proof. vm_compute. reflexivity. Qed.

Lemma getremote_init_witness :
  wp (GetRemote Sum hmac key clock GetCStore)
    (λ _ x', log (cm_remote x') ≠ [] ∧
       inited fuel Sum hmac key GetCStore (λ kids, is_Some (mv_op fuel from to kids)) [] new_server x')
    (λ _, inited fuel Sum hmac key GetCStore (λ kids, is_Some (mv_op fuel from to kids)) [] new_server) new_server.
Proof.
  apply (getremote_init sz fuel Sum hmac key clock GetCStore sz_pos fuel_ref no_eof_buf fuel_capacity clock_bounds
    (λ kids, is_Some (mv_op fuel from to kids)) [] (Some empty_host) new_server).
  split; [right; split; [done|exact opened_all]|done].
Defined.
Definition backup : arg := ([], HostDemo.at_name).
Lemma good_backup : good_arg backup.
Proof. split; [constructor; [split_and!; by apply (bool_decide_unpack _)|constructor]|by vm_compute]. Qed.
Lemma backup_fits0 : put_fits fuel backup kids.
Proof. intros k. apply HostDemo.backup_fits. Qed.
Lemma backup_fits1 : put_fits fuel backup kids1.
Proof.
  intros k. unfold t_insert. cbn [t_update backup fst snd]. unfold add_kid. rewrite decide_True; [by eexists|].
  split; [done|apply Nat.ltb_lt; vm_compute; reflexivity].
Qed.
#[local] Instance put_laws : LogLaws fuel Sum hmac key GetCStore (put_fits fuel (put_dst HostDemo.src (Some backup))) HostDemo.src :=
  srv_laws (put_fits fuel backup) HostDemo.src backup_fits0 backup_fits1.

(** The program runs: the other client's file is there beside the backup. *)
Example put_runs :
  let '(o, x) := Put HostDemo.no_fault HostDemo.six sz fuel Sum hmac key clock GetCStore 2 4 HostDemo.src (Some (arg_path backup))
                   (start HostDemo.tree1) in
  (o, length (s_log (cm_remote x)), names_of x) = (Ok (), 3, Some [dot; HostDemo.at_name; other; name]).
Proof. vm_compute. reflexivity. Qed.

(** Without a destination the directory goes into the root, under its own name. *)
Example put_default_runs :
  let '(o, x) := Put HostDemo.no_fault HostDemo.six sz fuel Sum hmac key clock GetCStore 2 4 HostDemo.src None
                   (start HostDemo.tree1) in
  (o, length (s_log (cm_remote x)), names_of x) = (Ok (), 3, Some [dot; str "home"; other; name]).
Proof. vm_compute. reflexivity. Qed.

Lemma put_commits_witness :
  wp (Put HostDemo.no_fault HostDemo.six sz fuel Sum hmac key clock GetCStore 2 4 HostDemo.src (arg_path <$> Some backup))
    (λ _ x', published (put_tr fuel (put_dst HostDemo.src (Some backup)) HostDemo.home) false (st x') (cm_remote (start HostDemo.tree1)) (cm_remote x'))
    (λ _, stopped (put_tr fuel (put_dst HostDemo.src (Some backup)) HostDemo.home) false (start HostDemo.tree1)) (start HostDemo.tree1).
Proof.
  apply (put_commits HostDemo.no_fault HostDemo.six sz fuel Sum hmac key clock GetCStore sz_pos fuel_ref no_eof_buf fuel_capacity
    HostDemo.fuel_memory clock_bounds no_zero 4 (Some backup) HostDemo.home HostDemo.src 2 (start HostDemo.tree1)).
  - constructor; [split_and!; by apply (bool_decide_unpack _)|constructor].
  - done.
  - apply HostDemo.home_backable.
  - apply good_backup.
  - apply (start_ready (put_fits fuel backup) HostDemo.src backup_fits0 backup_fits1 HostDemo.tree1).
  - done.
  - apply Nat.ltb_lt. reflexivity.
Defined.
End CommandsDemo.
