(* ===== verification/Config.v ===== *)
(** Where a client keeps its files: cmd/bpy/common/config.go. *)

From Stdlib Require Import ZArith Lia String.
From stdpp Require Import base list strings.
From coqutil Require Import Byte.
From S2P Require Import Prelude.

Set Default Goal Selector "!".

Record Config := mkConfig {
  BuppyPath : bytes;
  RemoteCommand : bytes;
  ICachePath : bytes;
  CacheFile : bytes;
  CacheSize : Z;
  CacheSocketType : bytes;
  CacheListenAddr : bytes;
  KeyPath : bytes;
}.
Definition zero_config : Config := mkConfig [] [] [] [] 0 [] [] [].

(** ** strconv.ParseInt(s, 10, 64) *)

Definition ErrSyntax : error := ENew "invalid syntax".
Definition ErrRange : error := ENew "value out of range".

Definition digit (b : byte) : option Z :=
  let n := byte.unsigned b in if bool_decide (48 ≤ n ≤ 57)%Z then Some (n - 48)%Z else None.
Fixpoint digits (acc : Z) (s : bytes) : option Z :=
  match s with
  | [] => Some acc
  | b :: s => d ← digit b; digits (10 * acc + d) s
  end.
Definition ParseInt (s : bytes) : outcome Z :=
  let '(neg, ds) := match s with
    | b :: ds => if bool_decide (b = Byte.x2d) then (true, ds) else if bool_decide (b = Byte.x2b) then (false, ds) else (false, s)
    | [] => (false, [])
    end in
  match ds, digits 0 ds with
  | [], _ | _, None => Err ErrSyntax
  | _, Some n =>
    let v := if neg : bool then (- n)%Z else n in
    if bool_decide (- 2 ^ 63 ≤ v < 2 ^ 63)%Z then Ok v else Err ErrRange
  end.

Section Config.
(** [os.Getenv] is empty for what is not set; [user.Current] may fail. *)
Variable Getenv : bytes → bytes.
Variable HomeDir : outcome bytes.
Variable windows : bool.   (* [runtime.GOOS == "windows"] *)
Variable Join : bytes → bytes → bytes.   (* [filepath.Join] *)

(** [if v == "" { v = new }] *)
Definition or_else (v new : bytes) : bytes := if bool_decide (v = []) then new else v.

Definition parse_error (szStr : bytes) : error := ENew "error parsing BPY_CACHE_SIZE".

Definition setEnvConfigValues (cfg : Config) : outcome Config :=
  let cfg := mkConfig
    (or_else (BuppyPath cfg) (Getenv (str "BPY_PATH")))
    (or_else (RemoteCommand cfg) (Getenv (str "BPY_REMOTE_CMD")))
    (or_else (ICachePath cfg) (Getenv (str "BPY_ICACHE_PATH")))
    (or_else (CacheFile cfg) (Getenv (str "BPY_CACHE_FILE")))
    (CacheSize cfg)
    (or_else (CacheSocketType cfg) (Getenv (str "BPY_CACHE_SOCKET_TYPE")))
    (or_else (CacheListenAddr cfg) (Getenv (str "BPY_CACHE_LISTEN_ADDR")))
    (KeyPath cfg) in
  size ← (if bool_decide (CacheSize cfg = 0)%Z then
            let szStr := Getenv (str "BPY_CACHE_SIZE") in
            if bool_decide (szStr = []) then Ok 0%Z
            else match ParseInt szStr with Ok v => Ok v | Err _ => Err (parse_error szStr) | Panic => Panic | OutOfFuel => OutOfFuel end
          else Ok (CacheSize cfg));
  Ok (mkConfig (BuppyPath cfg) (RemoteCommand cfg) (ICachePath cfg)
        (if bool_decide (KeyPath cfg = []) then Getenv (str "BPY_KEY_PATH") else CacheFile cfg)
        size (CacheSocketType cfg) (CacheListenAddr cfg) (KeyPath cfg)).

(** The package variables that the last default is taken from are never set. *)
Definition DefaultCacheListenAddr : bytes := [].

Definition setDefaultConfigValues (cfg : Config) : outcome Config :=
  path ← (if bool_decide (BuppyPath cfg = []) then home ← HomeDir; Ok (Join home (str ".bpy")) else Ok (BuppyPath cfg));
  let socket := if windows then str "tcp" else str "unix" in
  let addr := if windows then str "127.0.0.1:8877" else Join path (str "cache.sock") in
  Ok (mkConfig path (RemoteCommand cfg)
        (or_else (ICachePath cfg) (Join path (str "icache")))
        (or_else (CacheFile cfg) (Join path (str "chunks.db")))
        (if bool_decide (CacheSize cfg = 0)%Z then 512 * 1024 * 1024 else CacheSize cfg)%Z
        (or_else (CacheSocketType cfg) socket)
        (or_else (or_else (CacheListenAddr cfg) addr) DefaultCacheListenAddr)
        (or_else (KeyPath cfg) (Join path (str "bpy.key")))).

Definition GetConfig : outcome Config :=
  cfg ← setEnvConfigValues zero_config;
  setDefaultConfigValues cfg.

(** The directory of a client *)
Definition bpy_path : outcome bytes :=
  if bool_decide (Getenv (str "BPY_PATH") = []) then home ← HomeDir; Ok (Join home (str ".bpy")) else Ok (Getenv (str "BPY_PATH")).

Lemma setEnv_fields c0 :
  setEnvConfigValues zero_config = Ok c0 →
  BuppyPath c0 = Getenv (str "BPY_PATH") ∧ RemoteCommand c0 = Getenv (str "BPY_REMOTE_CMD") ∧
  ICachePath c0 = Getenv (str "BPY_ICACHE_PATH") ∧ CacheFile c0 = Getenv (str "BPY_KEY_PATH") ∧ KeyPath c0 = [].
Proof.
  unfold setEnvConfigValues, mbind, outcome_bind. destruct (if bool_decide _ then _ else _) as [size| | |]; [|done..].
  intros Heq. injection Heq as <-. by split_and!.
Qed.

(** The variable that names the key file is taken for the name of the cache: the key is always
    looked for in the client's directory, and [BPY_CACHE_FILE] has no effect. *)
Theorem config_key_misread cfg :
  GetConfig = Ok cfg →
  ∃ path, bpy_path = Ok path ∧ KeyPath cfg = Join path (str "bpy.key") ∧
          CacheFile cfg = or_else (Getenv (str "BPY_KEY_PATH")) (Join path (str "chunks.db")).
Proof.
  unfold GetConfig, mbind, outcome_bind. destruct (setEnvConfigValues zero_config) as [c0| | |] eqn:He; [|done..].
  apply setEnv_fields in He as (Hb & _ & _ & Hf & Hk). unfold setDefaultConfigValues. rewrite Hb, Hf, Hk. fold bpy_path.
  destruct bpy_path as [path| | |]; [|done..]. intros Heq. injection Heq as <-. by exists path.
Qed.
End Config.

Module ConfigDemo.
Definition env (name : bytes) : bytes :=
  if bool_decide (name = str "BPY_PATH") then str "/b" else if bool_decide (name = str "BPY_KEY_PATH") then str "/secret/key"
  else if bool_decide (name = str "BPY_CACHE_SIZE") then str "-12" else [].
Definition join (a b : bytes) : bytes := a ++ str "/" ++ b.
(** The key of the environment would be overwritten as the database of the cache. *)
Example config_runs :
  match GetConfig env (Ok []) false join with
  | Ok c => (KeyPath c, CacheFile c, CacheSize c, CacheListenAddr c) = (str "/b/bpy.key", str "/secret/key", (-12)%Z, str "/b/cache.sock")
  | _ => False
  end.
Proof. reflexivity. Qed.
End ConfigDemo.
