(* ===== verification/Connect.v ===== *)
(** How a client reaches the cache daemon: [GetCacheClient] of cmd/bpy/common/common.go. *)

From Stdlib Require Import ZArith Lia String.
From stdpp Require Import base list strings.
From coqutil Require Import Byte.
From S2P Require Import Prelude Config.

Set Default Goal Selector "!".

Section Connect.
(** What the [i]-th [net.Dial] reports; the connections are named by their dials. *)
Variable refused : nat → option error.

Record Net := mkNet {
  dials : list (bytes * bytes);   (* the network and address of each dial, in order *)
  daemons : nat;                  (* cache daemons started *)
  slept : nat;                    (* tenths of a second *)
}.

Definition Dial (network addr : bytes) : M Net nat :=
  n ← get;
  modify (λ n, mkNet (dials n ++ [(network, addr)]) (daemons n) (slept n));;
  match refused (length (dials n)) with Some e => throw e | None => mret (length (dials n)) end.
(** [cmd.Start()], whose error is not looked at *)
Definition start_cache_daemon : M Net unit := modify (λ n, mkNet (dials n) (S (daemons n)) (slept n)).
Definition sleep : M Net unit := modify (λ n, mkNet (dials n) (daemons n) (S (slept n))).

(** The loop: [conn] and [err] are those of the last dial, [None] is a nil connection. *)
Fixpoint redial (tries : nat) (cfg : Config) (conn : option nat) (err : option error) (connected : bool)
  : M Net (option nat * option error * bool) :=
  match tries with
  | O => mret (conn, err, connected)
  | S tries =>
    o ← try (Dial (CacheSocketType cfg) (CacheListenAddr cfg));
    match o with
    | inr e => sleep;; redial tries cfg None (Some e) connected
    | inl c => redial tries cfg (Some c) None true
    end
  end.

(** The connection that [cache.NewClient] gets, [None] if it is nil. *)
Definition GetCacheClient (cfg : Config) : M Net (option nat) :=
  o ← try (Dial (str "tcp") (CacheListenAddr cfg));
  match o with
  | inl c => mret (Some c)
  | inr e =>
    start_cache_daemon;;
    '(conn, err, connected) ← redial 10 cfg None (Some e) false;
    if negb connected then match err with Some e => throw e | None => mret None end
    else mret conn
  end.

(** ** What it does *)

Definition dialed (n : Net) (i : nat) : bool := match refused (length (dials n) + i) with Some _ => false | None => true end.

Lemma Dial_eq network addr n :
  Dial network addr n =
  (match refused (length (dials n)) with Some e => Err e | None => Ok (length (dials n)) end,
   mkNet (dials n ++ [(network, addr)]) (daemons n) (slept n)).
Proof. unfold Dial, mbind, M_bind, get, modify. simpl. by destruct (refused _). Qed.

(** The loop dials as often as it may, and keeps what the last dial gave. *)
Lemma redial_spec tries cfg conn err connected n :
  wp (redial tries cfg conn err connected)
    (λ '(conn', err', connected') n',
       dials n' = dials n ++ replicate tries (CacheSocketType cfg, CacheListenAddr cfg) ∧ daemons n' = daemons n ∧
       (connected' = true ↔ connected = true ∨ ∃ i, i < tries ∧ refused (length (dials n) + i) = None) ∧
       match tries with
       | O => conn' = conn ∧ err' = err
       | S k => err' = refused (length (dials n) + k) ∧
                conn' = match err' with Some _ => None | None => Some (length (dials n) + k) end
       end) (λ _ _, False) n.
Proof.
  revert conn err connected n. induction tries as [|k IH]; intros conn err connected n; cbn [redial].
  { wp_step. rewrite app_nil_r. split_and!; try done. split; [by left|]. intros [?|(i & ? & _)]; [done|lia]. }
  wp_step. wp_step. unfold wp at 1. rewrite Dial_eq.
  set (n1 := mkNet _ _ _). assert (Hlen : length (dials n1) = S (length (dials n))) by (simpl; rewrite length_app; simpl; lia).
  assert (Hstep : ∀ conn1 err1 connected1 n2, length (dials n2) = S (length (dials n)) → dials n2 = dials n1 → daemons n2 = daemons n →
    err1 = refused (length (dials n)) → conn1 = match err1 with Some _ => None | None => Some (length (dials n)) end →
    (connected1 = true ↔ connected = true ∨ refused (length (dials n)) = None) →
    wp (redial k cfg conn1 err1 connected1)
      (λ '(conn', err', connected') n',
         dials n' = dials n ++ replicate (S k) (CacheSocketType cfg, CacheListenAddr cfg) ∧ daemons n' = daemons n ∧
         (connected' = true ↔ connected = true ∨ ∃ i, i < S k ∧ refused (length (dials n) + i) = None) ∧
         err' = refused (length (dials n) + k) ∧
         conn' = match err' with Some _ => None | None => Some (length (dials n) + k) end) (λ _ _, False) n2).
  { intros conn1 err1 connected1 n2 Hl Hd Hdm Herr Hconn Hcon. eapply wp_mono; [apply IH|..]; cbn beta; [|done].
    intros [[conn' err'] connected'] n' (Hd' & Hdm' & Hc' & Hlast). rewrite Hd in Hd'. simpl in Hd'. rewrite <-app_assoc in Hd'.
    rewrite Hl in Hc', Hlast. split_and!; [done|congruence| |..].
    - rewrite Hc', Hcon. split.
      + intros [[?|?]|(i & ? & Hi)]; [by left|right; exists 0; split; [lia|by rewrite Nat.add_0_r]|].
        right. exists (S i). split; [lia|]. by rewrite Nat.add_succ_r.
      + intros [?|([|i] & ? & Hi)]; [by left; left|left; right; by rewrite Nat.add_0_r in Hi|].
        right. exists i. split; [lia|]. by rewrite Nat.add_succ_r in Hi.
    - destruct k; [rewrite Nat.add_0_r; by destruct Hlast; subst|]. rewrite Nat.add_succ_r. by destruct Hlast.
    - destruct k; [rewrite Nat.add_0_r; by destruct Hlast; subst|]. rewrite Nat.add_succ_r. by destruct Hlast. }
  destruct (refused (length (dials n))) as [e|] eqn:Hr.
  - unfold sleep. wp_step. wp_step. apply Hstep; try done. by split; [left|intros [?|?]].
  - apply Hstep; try done. by split; [right|].
Qed.

(** A daemon that does not answer the first dial, which never uses the configured network, is started and then
    dialed ten times: the loop goes on after a dial that worked.  The connection used is
    that of the last dial, nil if that one failed. *)
Theorem cache_client_dials cfg n e :
  refused (length (dials n)) = Some e →
  wp (GetCacheClient cfg)
    (λ conn n', dials n' = dials n ++ (str "tcp", CacheListenAddr cfg) :: replicate 10 (CacheSocketType cfg, CacheListenAddr cfg) ∧
       daemons n' = S (daemons n) ∧ (∃ i, i < 10 ∧ refused (S (length (dials n) + i)) = None) ∧
       conn = match refused (length (dials n) + 10) with Some _ => None | None => Some (length (dials n) + 10) end)
    (λ e' _, ∀ i, i ≤ 10 → refused (length (dials n) + i) ≠ None) n.
Proof.
  intros Hr. unfold GetCacheClient. wp_step. wp_step. unfold wp at 1. rewrite Dial_eq, Hr. unfold start_cache_daemon. wp_step. wp_step. wp_step.
  set (n1 := mkNet _ _ _). assert (Hlen : length (dials n1) = S (length (dials n))) by (simpl; rewrite length_app; simpl; lia).
  eapply wp_mono; [apply redial_spec|..]; cbn beta; [|done]. intros [[conn err] connected] n' (Hd & Hdm & Hc & He & Hconn).
  rewrite Hlen in *. destruct connected; cbn [negb].
  - wp_step. split_and!; [by rewrite Hd; simpl; rewrite <-app_assoc|done| |].
    + destruct Hc as [Hc _]. destruct (Hc eq_refl) as [?|(i & ? & Hi)]; [done|]. exists i. by split.
    + rewrite Hconn, He. by replace (S (length (dials n)) + 9) with (length (dials n) + 10) by lia.
  - assert (Hno : ∀ i, i ≤ 10 → refused (length (dials n) + i) ≠ None).
    { intros [|i] Hi Hi'; [rewrite Nat.add_0_r in Hi'; congruence|]. destruct Hc as [_ Hc].
      assert (false = true) as Hf; [|done]. apply Hc. right. exists i. split; [lia|]. by rewrite Nat.add_succ_r in Hi'. }
    destruct err as [e'|]; [by wp_step|]. exfalso. apply (Hno 10); [lia|]. rewrite He. f_equal. lia.
Qed.
End Connect.

(** The daemon answers from the second dial on, but not the last. *)
Module ConnectDemo.
Definition flaky (i : nat) : option error := if bool_decide (i = 0 ∨ i = 10) then Some (ENew "connection refused") else None.
Example nil_connection :
  let '(o, n) := GetCacheClient flaky zero_config (mkNet [] 0 0) in (o, length (dials n), daemons n) = (Ok None, 11, 1).
Proof. reflexivity. Qed.
End ConnectDemo.
