(* ===== verification/OpenStore.v ===== *)
(** Opening the store of a client: [GetCStore] of cmd/bpy/common/common.go.

    The index cache of the key is made, a writer is opened over the packs of the server, and the
    cache daemon is connected.  [store_reopens] is what the commands take from it
    ([GetCStore_law] and [Store.Close_law]): what was closed is there when the store is opened anew,
    unless the flush failed. *)

From Stdlib Require Import ZArith Lia String.
From stdpp Require Import base list gmap sets strings.
From S2P Require Import Prelude Store Io Bpack BpackProps Remote Packs PacksMem Cstore CstoreIndex CstoreProps Config Connect.

Set Default Goal Selector "!".

Section Open.
Context {R : Type} `{PackLaws R}.
Variables (fault : nat → option (nat * error)) (refused : nat → option error).
Variables (deflate : bytes → bytes) (inflate : bytes → outcome bytes) (Sum256 : bytes → hash).
Abbreviation Shared := (Shared (R := R)).
Abbreviation Writer := (Writer (R := R)).
Implicit Types (B : gmap bytes bytes).

Record Client := mkClient { cl_shared : Shared; cl_net : Net }.
Definition on_shared {A} : M Shared A → M Client A := zoom cl_shared (λ s x, mkClient s (cl_net x)).
Definition on_net {A} : M Net A → M Client A := zoom cl_net (λ n x, mkClient (cl_shared x) n).

(** The writer and the connection that [NewCachedCStore] puts in front of it.  The directory of
    the indexes is that of the key in [Shared]; [os.MkdirAll] is a system call on it. *)
Definition GetCStore (cfg : Config) : M Client (Writer * option nat) :=
  on_shared (on_dir (syscall fault));;
  store ← on_shared (NewWriter fault);
  cacheClient ← on_net (GetCacheClient refused cfg);
  mret (store, cacheClient).

(** Connecting ends, and fails only as a dial does. *)
Lemma GetCacheClient_ends cfg n :
  wp (GetCacheClient refused cfg) (λ _ _, True) (λ e _, ∃ i, refused i = Some e) n.
Proof.
  unfold GetCacheClient. wp_step. wp_step. unfold wp at 1. rewrite Dial_eq. destruct (refused (length (dials n))) as [e|] eqn:He; [|by wp_step].
  unfold start_cache_daemon. wp_step. wp_step. wp_step. eapply wp_mono; [apply redial_spec|..]; cbn beta; [|done].
  intros [[conn err] connected] n' (_ & _ & _ & Herr & _). destruct connected; cbn [negb]; [by wp_step|].
  destruct err as [e'|]; wp_step; [|done]. by eexists.
Qed.

Definition open_fails (e : error) : Prop := cs_fails fault e ∨ ∃ i, refused i = Some e.

(** The store that is opened has the blocks of the packs. *)
Theorem store_opens B cfg x :
  packs_hold inflate B (cl_shared x) →
  wp (GetCStore cfg)
    (λ '(w, _) _, store_ok inflate B w ∧ writable inflate B w)
    (λ e x', open_fails e) x.
Proof.
  intros Hp. unfold GetCStore, on_shared, on_net, on_dir. wp_step. wp_step. wp_step.
  eapply wp_mono; [apply syscall_spec|..]; cbn beta.
  2: { intros e d [He _]. left. right. by left. }
  intros _ d Hd. wp_step. wp_step.
  assert (Hp1 : packs_hold inflate B (mkShared (remote (cl_shared x)) d)).
  { eapply packs_hold_keep; [|exact Hp]. apply step_keep. by apply step_of_files. }
  eapply wp_mono; [by apply cs_NewWriter_spec|..]; cbn beta; [|intros e s [? _]; by left].
  intros w s [Hok Hwr]. wp_step. wp_step. eapply wp_mono; [apply GetCacheClient_ends|..]; cbn beta; [|by right].
  intros conn n _. by wp_step.
Qed.

(** Closing a store and opening it anew loses no block, unless the flush failed. *)
Theorem store_reopens B cfg w net :
  store_ok inflate B w → writable inflate B w →
  wp (Cstore.Close fault)
    (λ _ w', (∃ e, cs_fails fault e ∧ (flushWorkingSet fault w).1 = Err e) ∨
       wp (GetCStore cfg) (λ '(w2, _) _, store_ok inflate B w2 ∧ writable inflate B w2) (λ e _, open_fails e)
         (mkClient (w_sh w') net))
    (λ e w', cs_fails fault e) w.
Proof.
  intros Hok Hwr. eapply wp_mono; [by apply (cstore_close_saves fault inflate B)|..]; cbn beta; [|by intros e w' [? _]].
  intros _ w' [Hp|(e & ? & ? & _)]; [right|left; eauto]. by apply store_opens.
Qed.
End Open.

(** The store of CstoreProps with a block that is not flushed. *)
Module OpenDemo.
Import CstoreDemo.
#[local] Existing Instances mem_client mem_packs mem_laws.

Definition net0 : Net := mkNet [] 0 0.
Definition shared1 : Shared (R := MemRemote) := w_sh (Cstore.Close no_fault w1).2.
Definition reopened : outcome bytes :=
  match GetCStore no_fault (λ _, None) zero_config (mkClient shared1 net0) with
  | (Ok (w2, _), _) => (Cstore.Get no_fault Ok (Sum256 fresh) w2).1
  | _ => Panic
  end.
Example reopened_has : reopened = Ok fresh.
Proof. vm_compute. reflexivity. Qed.

(** Without [Close] it is not there. *)
Example unclosed_lost :
  match GetCStore no_fault (λ _, None) zero_config (mkClient (w_sh w1) net0) with
  | (Ok (w2, _), _) => (Cstore.Get no_fault Ok (Sum256 fresh) w2).1
  | _ => Panic
  end = Err NotFound.
Proof. vm_compute. reflexivity. Qed.
End OpenDemo.
