(* ===== verification/Daemon.v ===== *)
(** The idle timer of the cache daemon: cmd/bpy/cachedaemon/cachedaemon.go.

    The goroutines [deadman], [listenLoop], one per connection and the main one meet on
    unbuffered channels, so a send and its receive are one step.  The timer is
    the one of Go's [time] package: when it expires it puts a value into its channel [C], and
    [Stop] and [Reset] leave that value there. *)

From Stdlib Require Import ZArith Lia.
From stdpp Require Import base list relations.
From S2P Require Import Prelude.

Set Default Goal Selector "!".

(** ** time.Timer *)

Record Timer := mkTimer { armed : bool; ticked : bool (* a value in [C] *) }.
Definition NewTimer : Timer := mkTimer true false.
Definition Stop (t : Timer) : Timer := mkTimer false (ticked t).
(** [Reset] reports whether the timer was still running. *)
Definition Reset (t : Timer) : bool * Timer := (armed t, mkTimer true (ticked t)).
(** A value is received from [C]. *)
Definition drained (t : Timer) : Timer := mkTimer (armed t) false.

(** ** The goroutines *)

Inductive Deadman :=
  | DSelect    (* at the [select] *)
  | DAck       (* at [conOk <- struct{}{}] *)
  | DTimeout   (* at [shutdown <- struct{}{}] *)
  | DGone.
Inductive Listener :=
  | LAccept
  | LSend      (* at [newCon <- struct{}{}] *)
  | LWait.     (* at [<-conOk] *)

Record Daemon := mkDaemon {
  counter : Z;          (* [uint64] *)
  timer : Timer;
  deadman : Deadman;
  listener : Listener;
  serving : nat;        (* connections in [ServeConn] *)
  closing : nat;        (* those at [conClosed <- struct{}{}] *)
  exited : bool;
}.

(** [deadman] receives from [newCon]. *)
Definition deadman_newCon (d : Daemon) : Daemon :=
  let t := Stop (timer d) in
  if ticked t then mkDaemon (u64 (counter d + 1)) (drained t) DTimeout LWait (serving d) (closing d) (exited d)
  else mkDaemon (u64 (counter d + 1)) t DAck LWait (serving d) (closing d) (exited d).

(** [deadman] receives from [conClosed]. *)
Definition deadman_conClosed (d : Daemon) (closing' : nat) : Daemon :=
  let n := u64 (counter d - 1) in
  if bool_decide (n = 0)%Z then
    let '(was_active, t) := Reset (timer d) in
    mkDaemon n t (if was_active then DTimeout else DSelect) (listener d) (serving d) closing' (exited d)
  else mkDaemon n (timer d) DSelect (listener d) (serving d) closing' (exited d).

Inductive Event := EAccept | ENewCon | EConOk | EServed | EConClosed | EExpire | ETimeout | EShutdown.

(** The step of an event, where it can happen. *)
Definition act (e : Event) (d : Daemon) : option Daemon :=
  let '(mkDaemon n t dm l s c x) := d in
  if x then None
  else
    match e, dm, l with
    | EAccept, _, LAccept => Some (mkDaemon n t dm LSend s c x)
    | ENewCon, DSelect, LSend => Some (deadman_newCon d)
    | EConOk, DAck, LWait => Some (mkDaemon n t DSelect LAccept (S s) c x)
    | EServed, _, _ => match s with S s => Some (mkDaemon n t dm l s (S c) x) | O => None end
    | EConClosed, DSelect, _ => match c with S c => Some (deadman_conClosed d c) | O => None end
    | EExpire, _, _ => if armed t then Some (mkDaemon n (mkTimer false true) dm l s c x) else None
    | ETimeout, DSelect, _ => if ticked t then Some (mkDaemon n (drained t) DTimeout l s c x) else None
    | EShutdown, DTimeout, _ => Some (mkDaemon n t DGone l s c true)
    | _, _, _ => None
    end.

(** [CacheDaemon] starts the goroutines. *)
Definition start_daemon : Daemon := mkDaemon 0 NewTimer DSelect LAccept 0 0 false.

(** Connections [deadman] has counted and not yet seen closed. *)
Definition counted (d : Daemon) : nat :=
  serving d + closing d + (match deadman d with DAck => 1 | _ => 0 end).

(** A run in which fewer than 2^64 connections are open at a time. *)
Inductive runs : Daemon → Daemon → Prop :=
  | runs_refl d : runs d d
  | runs_step d d1 d2 e : runs d d1 → act e d1 = Some d2 → (Z.of_nat (counted d2) < 2 ^ 64)%Z → runs d d2.

(** ** The invariant *)

Definition timer_on (d : Daemon) : bool := armed (timer d) || ticked (timer d).

(** While [deadman] selects it has counted the connections, and the timer runs exactly when there are
    none. *)
Definition daemon_ok (d : Daemon) : Prop :=
  match deadman d with
  | DSelect => exited d = false ∧ listener d ≠ LWait ∧ counter d = Z.of_nat (counted d) ∧
               (Z.of_nat (counted d) < 2 ^ 64)%Z ∧ timer_on d = bool_decide (counted d = 0)
  | DAck => exited d = false ∧ listener d = LWait ∧ counter d = Z.of_nat (counted d) ∧
            (Z.of_nat (counted d) < 2 ^ 64)%Z ∧ timer_on d = false
  | DTimeout => exited d = false ∧ counted d = 0
  | DGone => exited d = true ∧ counted d = 0
  end.

Lemma start_ok : daemon_ok start_daemon.
Proof. by split_and!. Qed.

Lemma newCon_ok d :
  daemon_ok d → deadman d = DSelect → (Z.of_nat (counted d) + 1 < 2 ^ 64)%Z → daemon_ok (deadman_newCon d).
Proof.
  destruct d as [n [a k] dm l s c x]. unfold daemon_ok, deadman_newCon, timer_on, counted.
  cbn [deadman counter timer listener serving closing exited armed ticked Stop drained].
  intros Hok -> Hlt. destruct Hok as (-> & _ & -> & _ & Ht). destruct k; cbn [deadman].
  - rewrite orb_true_r in Ht. symmetry in Ht. apply bool_decide_eq_true in Ht. split; [done|]. simpl. lia.
  - split_and!; try done; simpl; [|lia]. rewrite wrap_small by lia. lia.
Qed.

Lemma conClosed_ok d c :
  daemon_ok d → deadman d = DSelect → closing d = S c → daemon_ok (deadman_conClosed d c).
Proof.
  destruct d as [n [a k] dm l s c' x]. unfold daemon_ok, deadman_conClosed, timer_on, counted, Reset.
  cbn [deadman counter timer listener serving closing exited armed ticked].
  intros Hok -> ->. destruct Hok as (-> & Hl & -> & Hlt & Ht). rewrite bool_decide_eq_false_2 in Ht by lia.
  apply orb_false_iff in Ht as [-> ->]. rewrite wrap_small by lia. case_bool_decide as Hz; cbn [deadman].
  - split_and!; try done; simpl; try lia. rewrite bool_decide_eq_true_2 by lia. done.
  - split_and!; try done; simpl; try lia. rewrite bool_decide_eq_false_2 by lia. done.
Qed.

Lemma served_counted n t dm l s c x : counted (mkDaemon n t dm l s (S c) x) = counted (mkDaemon n t dm l (S s) c x).
Proof. unfold counted. cbn [deadman serving closing]. lia. Qed.

Lemma newCon_counted d : daemon_ok d → deadman d = DSelect →
  (Z.of_nat (counted (deadman_newCon d)) < 2 ^ 64)%Z → (Z.of_nat (counted d) + 1 < 2 ^ 64)%Z.
Proof.
  destruct d as [n [a k] dm l s c x]. unfold daemon_ok, deadman_newCon, timer_on, counted.
  cbn [deadman counter timer listener serving closing exited armed ticked Stop drained].
  intros Hok -> Hlt. destruct Hok as (_ & _ & _ & _ & Ht). destruct k; cbn [deadman serving closing] in *; [|lia].
  rewrite orb_true_r in Ht. symmetry in Ht. apply bool_decide_eq_true in Ht. lia.
Qed.

Ltac daemon_case := unfold daemon_ok, timer_on in *;
  cbn [deadman counter timer listener serving closing exited armed ticked drained] in *; rewrite ?served_counted in *;
  unfold counted in *; cbn [deadman serving closing] in *; destruct_and?; split_and?; simplify_eq/=; try done; try lia.

Lemma act_ok e d d' :
  daemon_ok d → act e d = Some d' → (Z.of_nat (counted d') < 2 ^ 64)%Z → daemon_ok d'.
Proof.
  intros Hok Hact Hlt. destruct d as [n [a k] dm l s c x]. unfold act in Hact. destruct x; [done|]. destruct e.
  - destruct l; try done. destruct dm; simplify_eq; daemon_case.
  - destruct dm, l; try done. simplify_eq. apply newCon_ok; [done..|]. by apply newCon_counted.
  - destruct dm, l; try done. simplify_eq. daemon_case.
  - destruct s as [|s]; [by destruct dm, l|]. destruct dm, l; simplify_eq; daemon_case.
  - destruct c as [|c]; [by destruct dm, l|]. destruct dm, l; try done; simplify_eq; by apply conClosed_ok.
  - destruct a; [|by destruct dm, l]. destruct dm, l; simplify_eq; daemon_case.
  - destruct k; [|by destruct dm, l]. destruct dm; try done. destruct Hok as (_ & _ & _ & _ & Ht).
    unfold timer_on in Ht. cbn [timer armed ticked] in Ht. rewrite orb_true_r in Ht. symmetry in Ht. apply bool_decide_eq_true in Ht.
    destruct l; cbn [ticked drained armed] in Hact; simplify_eq; unfold daemon_ok; cbn [deadman exited]; (split; [done|exact Ht]).
  - destruct dm, l; try done; simplify_eq; daemon_case.
Qed.

Lemma runs_ok d d' : daemon_ok d → runs d d' → daemon_ok d'.
Proof. intros Hok. induction 1 as [|? ? ? ? _ IH Ha Hlt]; [done|]. by eapply act_ok, Hlt; [apply IH|]. Qed.

(** ** The theorems *)

(** C26: The daemon never exits under a connection: whatever the order in which connections come, are served
    and end and the timer expires, when it has shut down no connection is being
    served or waits to be counted out. *)
Theorem daemon_cuts_nobody d :
  runs start_daemon d → exited d = true → serving d = 0 ∧ closing d = 0.
Proof.
  intros Hr He. pose proof (runs_ok _ _ start_ok Hr) as Hok. unfold daemon_ok, counted in Hok.
  destruct (deadman d); destruct Hok as [Hx Hc]; [destruct_and?; congruence..| |]; [congruence|lia].
Qed.

(** What is left to do when no connection is accepted any more. *)
Definition work (d : Daemon) : nat :=
  (match listener d with LAccept => 0 | LSend => 7 | LWait => 6 end) + 5 * serving d + 4 * closing d +
  (if armed (timer d) then 2 else 0) + (if ticked (timer d) then 1 else 0) +
  (match deadman d with DSelect | DAck => 2 | DTimeout => 1 | DGone => 0 end).

Lemma act_work e d d' : e ≠ EAccept → act e d = Some d' → work d' < work d.
Proof.
  intros He Ha. destruct d as [n [a k] dm l s c x]. unfold act in Ha. destruct x; [done|]. unfold work.
  destruct e; try done.
  - destruct dm, l; try done. simplify_eq. unfold deadman_newCon, Stop. cbn [ticked timer]. destruct a, k; cbn; lia.
  - destruct dm, l; try done. simplify_eq. cbn. lia.
  - destruct s as [|s]; [by destruct dm, l|]. destruct dm, l; simplify_eq; cbn; lia.
  - destruct c as [|c]; [by destruct dm, l|]. destruct dm, l; try done; simplify_eq; unfold deadman_conClosed, Reset;
      cbn [counter timer armed ticked]; case_bool_decide; destruct a, k; cbn; lia.
  - destruct a; [|by destruct dm, l]. destruct dm, l; simplify_eq/=; destruct k; lia.
  - destruct k; [|by destruct dm, l]. destruct dm, l; simplify_eq/=; lia.
  - destruct dm, l; simplify_eq/=; lia.
Qed.

Lemma idle_acts d : daemon_ok d → exited d = false → ∃ e d', e ≠ EAccept ∧ act e d = Some d'.
Proof.
  destruct d as [n [a k] dm l s c x]. intros Hok Hx. cbn [exited] in Hx. subst x. destruct dm.
  - destruct Hok as (_ & Hl & _ & _ & Ht). cbn [listener] in Hl. destruct l; [|by eexists ENewCon, _|done].
    destruct s as [|s]; [|by eexists EServed, _]. destruct c as [|c]; [|by eexists EConClosed, _].
    unfold timer_on in Ht. cbn [timer armed ticked] in Ht. rewrite bool_decide_eq_true_2 in Ht by done.
    destruct a; [by eexists EExpire, _|]. simpl in Ht. subst k. by eexists ETimeout, _.
  - destruct Hok as (_ & Hl & _). cbn [listener] in Hl. subst l. by eexists EConOk, _.
  - by eexists EShutdown, _; destruct l.
  - by destruct Hok.
Qed.

(** A run of [n] steps without a new connection *)
Inductive quiet : nat → Daemon → Daemon → Prop :=
  | quiet_refl d : quiet 0 d d
  | quiet_step n d d1 d2 e :
      e ≠ EAccept → act e d = Some d1 → (Z.of_nat (counted d1) < 2 ^ 64)%Z → quiet n d1 d2 → quiet (S n) d d2.

Lemma quiet_work n d d' : quiet n d d' → n + work d' ≤ work d.
Proof. induction 1 as [|n d d1 d2 e He Ha _ _ IH]; [lia|]. pose proof (act_work _ _ _ He Ha). lia. Qed.
Lemma quiet_ok n d d' : quiet n d d' → daemon_ok d → daemon_ok d'.
Proof. induction 1 as [|n d d1 d2 e He Ha Hlt _ IH]; [done|]. intros Hok. by eapply IH, act_ok. Qed.

(** C28: The idle daemon exits: from any state it can get into, once no more connections are accepted and
    those there are end, it takes a bounded number of steps, never gets stuck, and
    stops only when it has shut down. *)
Theorem daemon_idle_exits d n d' :
  runs start_daemon d → quiet n d d' →
  n ≤ work d ∧ (exited d' = true ∨ ∃ e d'', e ≠ EAccept ∧ act e d' = Some d'').
Proof.
  intros Hr Hq. pose proof (quiet_work _ _ _ Hq). split; [lia|].
  destruct (exited d') eqn:Hx; [by left|right]. apply idle_acts; [|done]. eapply quiet_ok; [done|]. by eapply runs_ok; [apply start_ok|].
Qed.

(** ** Without a time limit *)

(** [runForever] takes the place of [deadman]: it answers every connection, and neither counts nor stops. *)
Definition act_forever (e : Event) (d : Daemon) : option Daemon :=
  let '(mkDaemon n t dm l s c x) := d in
  match e, dm, l with
  | EAccept, _, LAccept => Some (mkDaemon n t dm LSend s c x)
  | ENewCon, DSelect, LSend => Some (mkDaemon n t DAck LWait s c x)
  | EConOk, DAck, LWait => Some (mkDaemon n t DSelect LAccept (S s) c x)
  | EServed, _, _ => match s with S s => Some (mkDaemon n t dm l s (S c) x) | O => None end
  | EConClosed, DSelect, _ => match c with S c => Some (mkDaemon n t dm l s c x) | O => None end
  | _, _, _ => None
  end.

Inductive runs_forever : Daemon → Daemon → Prop :=
  | forever_refl d : runs_forever d d
  | forever_step d d1 d2 e : runs_forever d d1 → act_forever e d1 = Some d2 → runs_forever d d2.

(** The two loops wait for each other only where the other one is about to come. *)
Definition forever_ok (d : Daemon) : Prop :=
  exited d = false ∧
  match deadman d with DSelect => listener d ≠ LWait | DAck => listener d = LWait | _ => False end.

Lemma forever_act_ok e d d' : forever_ok d → act_forever e d = Some d' → forever_ok d'.
Proof.
  destruct d as [n t dm l s c x]. intros [Hx Hd] Ha. simpl in *.
  destruct e, dm, l; try done; simpl in Ha; repeat case_match; by simplify_eq.
Qed.

(** A daemon without a time limit never exits and never gets stuck: from every state it can serve one more connection
    after at most three steps of its two loops. *)
Theorem forever_serves d :
  runs_forever start_daemon d →
  exited d = false ∧
  ∃ es d', length es ≤ 3 ∧ foldl (λ o e, o ≫= act_forever e) (Some d) es = Some d' ∧ serving d' = S (serving d).
Proof.
  intros Hr. assert (Hok : forever_ok d).
  { remember start_daemon as d0. induction Hr as [|d d1 d2 e Hr IH Ha]; [by subst|]. eapply forever_act_ok; [by apply IH|done]. }
  split; [apply Hok|]. destruct d as [n t dm l s c x]. destruct Hok as [Hx Hd]. simpl in *. destruct dm; try done.
  - destruct l; [exists [EAccept; ENewCon; EConOk]|exists [ENewCon; EConOk]|done]; eexists; (split; [simpl; lia|]); by split.
  - subst l. exists [EConOk]. eexists. split; [simpl; lia|]. by split.
Qed.

(** ** A run: two connections, then silence *)
Module DaemonDemo.
Fixpoint acts (es : list Event) (d : Daemon) : option Daemon :=
  match es with
  | [] => Some d
  | e :: es =>
    match act e d with
    | Some d1 => if bool_decide (Z.of_nat (counted d1) < 2 ^ 64)%Z then acts es d1 else None
    | None => None
    end
  end.
Definition busy : list Event := [EAccept; ENewCon; EConOk; EAccept; EServed; ENewCon; EConOk; EConClosed].
Definition ends : list Event := [EServed; EConClosed; EExpire; ETimeout; EShutdown].
Definition middle : Daemon := mkDaemon 1 (mkTimer false false) DSelect LAccept 1 0 false.
Definition final : Daemon := mkDaemon 0 (mkTimer false false) DGone LAccept 0 0 true.

Example daemon_runs : (acts busy start_daemon, acts ends middle) = (Some middle, Some final).
Proof. reflexivity. Qed.

Lemma acts_runs es d d' : acts es d = Some d' → ∀ d0, runs d0 d → runs d0 d'.
Proof.
  revert d. induction es as [|e es IH]; intros d Ha d0 Hr; simpl in Ha; [by simplify_eq|].
  destruct (act e d) as [d1|] eqn:He; [|done]. case_bool_decide; [|done]. eapply IH; [done|]. by eapply runs_step.
Qed.
Lemma acts_quiet es d d' : acts es d = Some d' → EAccept ∉ es → quiet (length es) d d'.
Proof.
  revert d. induction es as [|e es IH]; intros d Ha Hn; simpl in Ha; [simplify_eq; constructor|].
  destruct (act e d) as [d1|] eqn:He; [|done]. case_bool_decide; [|done].
  rewrite not_elem_of_cons in Hn. destruct Hn. econstructor; [by apply not_eq_sym|done..|by apply IH].
Qed.

Lemma daemon_cuts_nobody_witness : exited final = true ∧ serving final = 0 ∧ closing final = 0.
Proof.
  split; [reflexivity|]. apply (daemon_cuts_nobody final); [|reflexivity].
  apply (acts_runs (busy ++ ends) start_daemon); [reflexivity|constructor].
Defined.

Lemma daemon_idle_exits_witness :
  length ends ≤ work middle ∧ (exited final = true ∨ ∃ e d'', e ≠ EAccept ∧ act e final = Some d'').
Proof.
  apply (daemon_idle_exits middle (length ends) final).
  - apply (acts_runs busy start_daemon); [reflexivity|constructor].
  - apply acts_quiet; [reflexivity|]. unfold ends. rewrite !not_elem_of_cons. split_and!; try done. apply not_elem_of_nil.
Defined.
End DaemonDemo.
