(* ===== verification/Archive.v ===== *)
(** Stored trees as archives: archive/tar.go, archive/zip.go and the commands cmd/bpy/tar and cmd/bpy/zip.

    An archive is the list of its entries; how archive/tar and archive/zip of the Go library write an
    entry down is left out.  Of a tar writer it matters that a header announces the size, and that neither
    more nor fewer bytes may follow.  Every write may fail as [fault] decides. *)

From Stdlib Require Import ZArith Lia.
From stdpp Require Import base list strings gmap.
From coqutil Require Import Byte.
From S2P Require Import Prelude Store Io Htree HtreeProps Fs FsTree Refs Remote Host Commands.

Set Default Goal Selector "!".

(** ** path.Join *)

(** [path.Clean] of a path that is not rooted keeps leading [".."]s. *)
Definition rel_step (acc : list bytes) (e : bytes) : list bytes :=
  if decide (e = [] ∨ e = dot) then acc
  else if decide (e = str "..") then
    match acc with
    | [] => [e]
    | e' :: acc' => if decide (e' = str "..") then e :: acc else acc'
    end
  else e :: acc.
Definition path_Clean (p : bytes) : bytes :=
  if decide (p = []) then dot
  else if decide (head p = Some slash) then Clean p
  else match rev (foldl rel_step [] (Split p)) with [] => dot | els => Join els end.
Definition path_Join (a b : bytes) : bytes :=
  if decide (a ≠ []) then path_Clean (a ++ slash :: b)
  else if decide (b ≠ []) then path_Clean b
  else [].

(** ** The entries of an archive *)

Record Header := mkHeader { hd_Name : bytes; hd_Meta : meta }.
Abbreviation item := (Header * bytes)%type.

Definition sockets : error := ENew "archive/tar: sockets not supported".
Definition ErrWriteTooLong : error := ENew "archive/tar: write too long".
Definition missed_writing : error := ENew "archive/tar: missed writing bytes".

(** The calls of a tar or zip writer that the loop makes. *)
Class ArchiveWriter (W : Type) := {
  aw_header : DirEnt → bytes → M W unit;   (* the header of an entry, its name replaced *)
  aw_Write : bytes → M W unit;
}.

Section Writers.
Variable fault : nat → option error.

(** The entries, the newest first, and the number of calls made. *)
Record Items := mkItems { it_list : list item; it_calls : nat }.
Definition it_call : M Items unit :=
  x ← get;
  modify (λ x, mkItems (it_list x) (S (it_calls x)));;
  match fault (it_calls x) with Some e => throw e | None => mret () end.
Definition it_push (h : Header) : M Items unit := modify (λ x, mkItems ((h, []) :: it_list x) (it_calls x)).
(** More bytes of the newest entry. *)
Definition it_append (d : bytes) : M Items unit :=
  modify (λ x, mkItems (match it_list x with (h, c) :: l => (h, c ++ d) :: l | [] => [] end) (it_calls x)).

(** *** archive/tar *)

Record TarWriter := mkTar { tw_items : Items; tw_nb : Z (* bytes that must still come *) }.
Definition on_items {A} : M Items A → M TarWriter A := zoom tw_items (λ i t, mkTar i (tw_nb t)).

(** [tar.FileInfoHeader], for what is not a directory *)
Definition FileInfoHeader (ent : DirEnt) : outcome Header :=
  if Z.testbit (EntMode ent) 24 then Err sockets else Ok (mkHeader (EntName ent) (meta_of ent)).

Definition tar_WriteHeader (h : Header) : M TarWriter unit :=
  t ← get;
  if bool_decide (0 < tw_nb t)%Z then throw missed_writing
  else
    on_items it_call;;
    on_items (it_push h);;
    modify (λ t, mkTar (tw_items t) (m_size (hd_Meta h))).

Definition tar_Write (d : bytes) : M TarWriter unit :=
  t ← get;
  let n := Z.to_nat (tw_nb t `min` Z.of_nat (length d)) in
  on_items it_call;;
  on_items (it_append (take n d));;
  modify (λ t, mkTar (tw_items t) (tw_nb t - Z.of_nat n)%Z);;
  if bool_decide (n < length d) then throw ErrWriteTooLong else mret ().

Definition tar_Close : M TarWriter unit :=
  t ← get;
  if bool_decide (0 < tw_nb t)%Z then throw missed_writing else on_items it_call.

#[local] Instance tar_writer : ArchiveWriter TarWriter := {|
  aw_header ent name := hdr ← lift (FileInfoHeader ent); tar_WriteHeader (mkHeader name (hd_Meta hdr));
  aw_Write := tar_Write;
|}.

(** *** archive/zip *)

#[local] Instance zip_writer : ArchiveWriter Items := {|
  aw_header ent name := it_call;; it_push (mkHeader name (meta_of ent));
  aw_Write d := it_call;; it_append d;
|}.
Definition zip_Close : M Items unit := it_call.

(** ** The loops *)
Context {P : Params} {St : Type} `{CStore St}.
Variables (sz : nat → nat) (fuel : nat).

Section Loop.
Context {W : Type} `{ArchiveWriter W}.

Record Arch := mkArch { ar_store : St; ar_out : W }.
Definition on_store {A} : M St A → M Arch A := zoom ar_store (λ s x, mkArch s (ar_out x)).

(** [fs.Open], and then a session on the file and the archive *)
Definition open_into {A} (roothash : hash) (fpath : bytes) (c : M (FileReader (St := St) * W) A) : M Arch A :=
  dirent ← on_store (Walk sz fuel roothash fpath);
  if IsDir dirent then throw (errorf "" fpath " is a directory")
  else λ x,
    match NewReader (blank_reader (ar_store x) (Data (EntHTree dirent))) with
    | (Ok _, r) => let '(o, (f, out)) := c (mkFileReader 0 (EntSize dirent) r, ar_out x) in (o, mkArch (r_store (f_rdr f)) out)
    | (Err e, r) => (Err e, mkArch (r_store r) (ar_out x))
    | (Panic, r) => (Panic, mkArch (r_store r) (ar_out x))
    | (OutOfFuel, r) => (OutOfFuel, mkArch (r_store r) (ar_out x))
    end.
Definition of_f {A} : M (FileReader (St := St)) A → M (FileReader (St := St) * W) A := zoom fst (λ f y, (f, y.2)).
Definition of_out {A} : M W A → M (FileReader (St := St) * W) A := zoom snd (λ o y, (y.1, o)).

(** [io.Copy(out, f)] *)
Fixpoint copy_entry (fuel : nat) : M (FileReader (St := St) * W) unit :=
  match fuel with
  | O => diverge
  | S fuel =>
    o ← try (of_f (FileRead copy_buf));
    match o with
    | inl d => of_out (aw_Write d);; copy_entry fuel
    | inr e => if bool_decide (e = EOF) then mret () else throw e
    end
  end.

(** The loop of [writeTar] and [writeZip] over the entries of [dir]; [rec] writes a directory
    below. *)
Fixpoint write_ents (rec : bytes → hash → M Arch unit) (curpath : bytes) (dir : hash) (ents : list DirEnt) : M Arch unit :=
  match ents with
  | [] => mret ()
  | ent :: ents =>
    let name := path_Join curpath (EntName ent) in
    (if IsDir ent then rec name (Data (EntHTree ent))
     else open_into dir (EntName ent) (of_out (aw_header ent name);; copy_entry fuel;; of_f FileClose));;
    write_ents rec curpath dir ents
  end.

Fixpoint write_tree (depth : nat) (curpath : bytes) (dirHash : hash) : M Arch unit :=
  match depth with
  | O => diverge
  | S depth =>
    ents ← on_store (ReadDir sz fuel dirHash);
    e0 ← lift (idx ents 0);
    ents ← lift (slice ents 1 (length ents));
    write_ents (write_tree depth) curpath (Data (EntHTree e0)) ents
  end.
End Loop.

(** [depth] bounds the depth of the tree. *)
Definition writeTar (depth : nat) : bytes → hash → M (Arch (W := TarWriter)) unit := write_tree depth.
Definition writeZip (depth : nat) : bytes → hash → M (Arch (W := Items)) unit := write_tree depth.

Definition new_items : Items := mkItems [] 0.

(** What was written, the oldest first. *)
Definition Tar (depth : nat) (dirHash : hash) : M St (list item) := λ s,
  let '(o, x) := (writeTar depth [] dirHash;; zoom ar_out (λ t x, mkArch (ar_store x) t) tar_Close) (mkArch s (mkTar new_items 0)) in
  (_ ← o; Ok (reverse (it_list (tw_items (ar_out x)))), ar_store x).
Definition Zip (depth : nat) (dirHash : hash) : M St (list item) := λ s,
  let '(o, x) := (writeZip depth [] dirHash;; zoom ar_out (λ t x, mkArch (ar_store x) t) zip_Close) (mkArch s new_items) in
  (_ ← o; Ok (reverse (it_list (ar_out x))), ar_store x).
End Writers.

(** ** cmd/bpy/tar and cmd/bpy/zip *)
Section Commands.
Context {P : Params} {St : Type} `{CStore St} {R : Type} `{RemoteClient R}.
Variables (fault : nat → option error) (sz : nat → nat) (fuel : nat).
Variables (Sum256 : bytes → hash) (HMAC : bytes → bytes → bytes) (key : Key) (clock : nat → Z).
Variable GetCStore : M (Cmd (St := St) (R := R)) unit.

(** What both commands do; [write] is the archive package's function. *)
Definition archive_command (write : hash → M St (list item)) (args : list bytes) : M (Cmd (St := St) (R := R)) (list item) :=
  match args with
  | [srcPath] =>
    GetRemote Sum256 HMAC key clock GetCStore;;
    GetCStore;;
    '(rootHash, _) ← must_GetRoot HMAC key;
    ref ← on_st (GetRef sz fuel rootHash);
    dirEnt ← on_st (Walk sz fuel (Root ref) srcPath);
    if negb (IsDir dirEnt) then throw (errorf "'" srcPath "' is not a directory")
    else
      out ← on_st (write (Data (EntHTree dirEnt)));
      on_st Store.Close;;
      mret out
  | _ => throw bad_usage
  end.
Definition cmd_Tar (depth : nat) := archive_command (Tar fault sz fuel depth).
Definition cmd_Zip (depth : nat) := archive_command (Zip fault sz fuel depth).
End Commands.
