(* ===== verification/ArchiveProps.v ===== *)
(** Archives have exactly the files of the stored tree, with their bytes. *)

From Stdlib Require Import ZArith Lia.
From stdpp Require Import base list strings gmap.
From coqutil Require Import Byte.
From S2P Require Import Packs Prelude Store Io Htree HtreeSpec HtreeWrite HtreeRead HtreeProps Fs FsProps FsTree FsFile FsDemo Host HostProps Commands Archive.

Set Default Goal Selector "!".

#[local] Opaque copy_buf.

(** ** Names *)

Lemma foldl_rel names acc : Forall good_name names → foldl rel_step acc names = rev names ++ acc.
Proof.
  intros Hg. revert acc. induction Hg as [|n names (Hn & Hd & Hdd & _) _ IH]; intros acc; [done|]. cbn [foldl].
  assert (rel_step acc n = n :: acc) as -> by (unfold rel_step; rewrite decide_False by tauto; by rewrite decide_False).
  rewrite IH. simpl. by rewrite <-app_assoc.
Qed.

Lemma path_Clean_good names : Forall good_name names → names ≠ [] → path_Clean (Join names) = Join names.
Proof.
  intros Hg Hne. unfold path_Clean. assert (Hns : Forall (λ n, slash ∉ n) names) by (by apply good_no_slash).
  pose proof (Split_Join names Hns Hne) as Hsp. destruct names as [|n names]; [done|].
  pose proof Hg as [(Hn & _ & _ & Hs) _]%Forall_cons.
  assert (Hh : ∃ b r, Join (n :: names) = b :: r ∧ b ≠ slash).
  { destruct n as [|b n]; [done|]. apply not_elem_of_cons in Hs as [Hb _]. destruct names; simpl; eauto using not_eq_sym. }
  destruct Hh as (b & r & Hj & Hb). rewrite Hj in *. rewrite decide_False by done. rewrite decide_False by (simpl; congruence).
  rewrite Hsp, foldl_rel, app_nil_r, rev_involutive by done. by rewrite <-Hj.
Qed.

Lemma Join_snoc names n : names ≠ [] → Join (names ++ [n]) = Join names ++ slash :: n.
Proof.
  induction names as [|a names IH]; intros Hne; [done|]. destruct names as [|b names]; [done|].
  change ((a :: b :: names) ++ [n]) with (a :: (b :: names) ++ [n]).
  assert (Hj : ∀ w l, l ≠ [] → Join (w :: l) = w ++ slash :: Join l) by (intros w [|? ?] ?; done).
  rewrite (Hj a ((b :: names) ++ [n])), IH by (done || by destruct names). rewrite (Hj a (b :: names)) by done.
  by rewrite <-app_assoc.
Qed.

Lemma path_Join_good prefix n : Forall good_name (prefix ++ [n]) → path_Join (Join prefix) n = Join (prefix ++ [n]).
Proof.
  intros Hg. pose proof Hg as [Hgp (Hn & _)%Forall_singleton]%Forall_app. unfold path_Join. destruct prefix as [|p prefix].
  - rewrite decide_False by (simpl; tauto). rewrite decide_True by done. by apply (path_Clean_good [n]).
  - assert (Hj : Join (p :: prefix) ≠ []).
    { apply Forall_cons in Hgp as [(Hp & _) _]. destruct p as [|b p]; [done|]. by destruct prefix. }
    rewrite decide_True by done. rewrite <-Join_snoc by done. by apply path_Clean_good; [|destruct prefix].
Qed.
(** The paths of packs, which Packs.v has without the cleaning. *)
Lemma path_Join_packs n : good_name n → path_Join (str "packs") n = Packs.pack_path n.
Proof.
  intros Hn. change (str "packs") with (Join [str "packs"]).
  rewrite path_Join_good; [by rewrite (Join_snoc [str "packs"])|].
  constructor; [split_and!; by apply (bool_decide_unpack _)|by constructor].
Qed.

(** ** What an archive has *)
Section Archive.
Context {P : Params} {Pok : ParamsOk} {St : Type} `{CStoreLaws St}.
Variables (sz : nat → nat) (fuel : nat).
Hypothesis Hsz : ∀ i, 1 ≤ sz i.
Hypothesis Heof : ¬ get_fails EOF.
Implicit Types (s : St).
(** The bytes of the files. *)
Variable content : HTree → bytes.

(** All files below a directory, [prefix] the names that lead there *)
Fixpoint t_files (depth : nat) (prefix : list bytes) (kids : kidmap) : list item :=
  match depth with
  | O => []
  | S depth =>
    map_to_list kids ≫= λ '(name, n),
      match n with
      | File m t => [(mkHeader (Join (prefix ++ [name])) m, content t)]
      | Folder _ _ ks => t_files depth (prefix ++ [name]) ks
      end
  end.
Definition node_items (depth : nat) (prefix : list bytes) (name : bytes) (n : node) : list item :=
  match n with
  | File m t => [(mkHeader (Join (prefix ++ [name])) m, content t)]
  | Folder _ _ ks => t_files depth (prefix ++ [name]) ks
  end.

(** Files are regular, of the size the directory says; names are proper. *)
Fixpoint archivable (d : nat) s (n : node) : Prop :=
  match n with
  | File m t =>
    mode_IsRegular (m_mode m) = true ∧ file_content s t (content t) ∧ Z.of_nat (length (content t)) = m_size m ∧ length (content t) < fuel
  | Folder _ _ kids =>
    match d with
    | O => False
    | S d => ∀ name n', kids !! name = Some n' → good_name name ∧ archivable d s n'
    end
  end.

Lemma archivable_file d s m t : archivable d s (File m t) →
  mode_IsRegular (m_mode m) = true ∧ file_content s t (content t) ∧ Z.of_nat (length (content t)) = m_size m ∧ length (content t) < fuel.
Proof. by destruct d. Qed.
Lemma archivable_keeps d s s' n : keeps s s' → archivable d s n → archivable d s' n.
Proof.
  intros Hk. revert n. induction d as [|d IH]; intros [m t|m dm kids] Ha; try done.
  1,2: apply archivable_file in Ha as (? & ? & ? & ?); simpl; eauto using file_content_keeps.
  intros name n' Hn. destruct (Ha name n' Hn). by split; [|apply IH].
Qed.

(** ** Writers *)

Class ArchiveLaws (W : Type) `{ArchiveWriter W} := {
  aw_full : W → list item → Prop;                       (* whole entries *)
  aw_part : W → list item → Header → bytes → Prop;      (* and an entry that is being written *)
  aw_fails : error → Prop;
  aw_header_law o l ent name :
    aw_full o l → mode_IsRegular (EntMode ent) = true →
    wp (aw_header ent name) (λ _ o', aw_part o' l (mkHeader name (meta_of ent)) []) (λ e _, aw_fails e) o;
  aw_Write_law o l h d b :
    aw_part o l h d → (Z.of_nat (length (d ++ b)) ≤ m_size (hd_Meta h))%Z →
    wp (aw_Write b) (λ _ o', aw_part o' l h (d ++ b)) (λ e _, aw_fails e) o;
  aw_part_full o l h d : aw_part o l h d → Z.of_nat (length d) = m_size (hd_Meta h) → aw_full o (l ++ [(h, d)]);
}.

Section Loop.
Context {W : Type} `{AL : ArchiveLaws W}.
Implicit Types (x : Arch (St := St) (W := W)).

Definition arch_fails (e : error) : Prop := get_fails e ∨ aw_fails e.

Lemma wp_of_f {A} (c : M (FileReader (St := St)) A) Q E (y : FileReader (St := St) * W) :
  wp c (λ a f, Q a (f, y.2)) (λ e f, E e (f, y.2)) y.1 → wp (of_f c) Q E y.
Proof. intros Hc. unfold of_f. by wp_step. Qed.
Lemma wp_of_out {A} (c : M W A) Q E (y : FileReader (St := St) * W) :
  wp c (λ a o, Q a (y.1, o)) (λ e o, E e (y.1, o)) y.2 → wp (of_out c) Q E y.
Proof. intros Hc. unfold of_out. by wp_step. Qed.

Lemma FileRead_keeps skew delta (f : FileReader (St := St)) c p n :
  file_at skew delta f c p → 1 ≤ n →
  wp (FileRead n) (λ _ f', keeps (r_store (f_rdr f)) (r_store (f_rdr f')))
    (λ e f', e = EOF → keeps (r_store (f_rdr f)) (r_store (f_rdr f'))) f.
Proof.
  intros (Hs & Hop & Hpr & Hp & Hc & Ho & Hro) Hn. unfold FileRead. wp_step. wp_step.
  eapply wp_mono; [by eapply Read_spec|..]; cbn beta.
  - intros b r' (R' & HR & Hs' & Hroot & Hh & Hk & _). by wp_steps.
  - intros e r' [(_ & _ & Hk)|He] Heq; [done|]. by subst e.
Qed.

Lemma copy_entry_spec k : ∀ c p (f : FileReader (St := St)) o l h,
  file_at 0 0 f c p → aw_part o l h (take p c) → Z.of_nat (length c) = m_size (hd_Meta h) → length c - p < k →
  wp (copy_entry k) (λ _ y, aw_part y.2 l h c ∧ keeps (r_store (f_rdr f)) (r_store (f_rdr y.1))) (λ e _, arch_fails e) (f, o).
Proof.
  induction k as [|k IH]; intros c p f o l h Hf Ho Hc Hk; [lia|]. cbn [copy_entry]. wp_step. wp_step. apply wp_of_f. cbn [fst snd].
  pose proof copy_buf_pos. eapply wp_mono; [apply wp_and; [by eapply FileRead_spec|by eapply FileRead_keeps]|..]; cbn beta.
  - intros b f' [(Hb & _ & Hf' & Heq & Hle) Hk']. wp_step. apply wp_of_out. cbn [fst snd].
    assert (Htk : take p c ++ b = take (p + length b) c) by (rewrite Heq at 1; by rewrite take_take_drop).
    assert (Hb1 : 1 ≤ length b) by (destruct b; simpl; [done|lia]).
    eapply wp_mono; [eapply aw_Write_law; [done|rewrite Htk, length_take; lia]|..]; cbn beta; [|by right].
    intros _ o' Ho'. rewrite Htk in Ho'. eapply wp_mono; [apply (IH c (p + length b) f' o' l h Hf' Ho' Hc); lia|..]; cbn beta; [|done].
    intros _ y [? ?]. split; [done|by transitivity (r_store (f_rdr f'))].
  - intros e f' [[[-> Hp]|He] Hke].
    + rewrite bool_decide_eq_true_2 by done. wp_step. rewrite take_ge in Ho by lia. split; [done|by apply Hke].
    + rewrite bool_decide_eq_false_2 by (by intros ->). wp_step. by left.
Qed.

Lemma open_into_spec {A} name s dir mode kids m t (c : M (FileReader (St := St) * W) A) Q E o :
  dirs fuel s dir mode kids → good_name name → kids !! name = Some (File m t) → file_content s t (content t) →
  (∀ f, file_at 0 0 f (content t) 0 → keeps s (r_store (f_rdr f)) →
        wp c (λ a y, Q a (mkArch (r_store (f_rdr y.1)) y.2)) (λ e y, E e (mkArch (r_store (f_rdr y.1)) y.2)) (f, o)) →
  (∀ e x', get_fails e → E e x') →
  wp (open_into sz fuel dir name c) Q E (mkArch s o).
Proof.
  intros Hd Hg Hl (Ht & Hdep & Hnil & Hlen) Hc HE. unfold open_into, on_store. wp_step. wp_step.
  assert (Hw : Walk sz fuel dir name = Walk sz fuel dir (abs_path [name])).
  { assert (Hr : rooted name = rooted (abs_path [name])); [|unfold Walk, walk_elems; by rewrite Hr].
    rewrite rooted_abs. destruct Hg as (Hn & _ & _ & Hs). destruct name as [|b name]; [done|]. apply not_elem_of_cons in Hs as [Hb _].
    unfold rooted. rewrite decide_False; [done|]. simpl. congruence. }
  rewrite Hw. eapply wp_mono; [by apply (Walk_spec sz fuel Hsz Heof [name]); [|constructor]|..]; cbn beta.
  2: { intros e s' [?|[_ Hno]]; [by apply HE|simpl in Hno; congruence]. }
  intros e s1 [Hk Hres]. rewrite decide_False in Hres by done. destruct Hres as (n & Hn & _ & _ & Hrep). simpl in Hn.
  assert (n = File m t) as -> by congruence. destruct (IsDir e) eqn:Hdir; [by destruct Hrep as (? & ? & ? & _)|]. simplify_eq.
  assert (Ht1 : tree_at (some_size (content (EntHTree e))) s1 (Depth (EntHTree e)) (Data (EntHTree e)) 0 (content (EntHTree e)))
    by (by eapply tree_at_keeps).
  pose proof (NewReader_spec _ s1 _ _ _ Ht1 Hdep) as Hnr. unfold wp in Hnr |- *. cbn [ar_store ar_out].
  destruct (NewReader _) as [[[]|err| |] r]; try done; [|by apply HE].
  destruct Hnr as (Hs & Hroot & Hh & Ho & Hk1).
  specialize (Hc (mkFileReader 0 (EntSize e) r)). unfold wp in Hc. destruct (c _) as [oc [f' o']]. simpl in *.
  apply Hc; [|by transitivity s1]. unfold file_at. simpl. rewrite drop_0. split_and!; try done; try lia.
  - split; [apply Hs|]. rewrite Hh, Hroot. by eapply tree_at_keeps.
  - apply progress_saved. by rewrite Hh.
Qed.

(** What [rec] does with a directory below. *)
Definition writes_dir d (rec : bytes → hash → M (Arch (St := St) (W := W)) unit) : Prop :=
  ∀ prefix h m dm ks x l, Forall good_name prefix → dirs fuel (ar_store x) h dm ks → archivable d (ar_store x) (Folder m dm ks) →
  aw_full (ar_out x) l →
  wp (rec (Join prefix) h)
    (λ _ x', keeps (ar_store x) (ar_store x') ∧ ∃ L, L ≡ₚ t_files d prefix ks ∧ aw_full (ar_out x') (l ++ L)) (λ e _, arch_fails e) x.

Lemma write_entries_spec d rec prefix dir mode kids ents : ∀ x l,
  writes_dir d rec → Forall good_name prefix → dirs fuel (ar_store x) dir mode kids → aw_full (ar_out x) l →
  (∀ e, e ∈ ents → ∃ n, kids !! EntName e = Some n ∧ ent_repr fuel (ar_store x) e n ∧ good_name (EntName e) ∧ archivable d (ar_store x) n) →
  wp (write_ents sz fuel rec (Join prefix) dir ents)
    (λ _ x', keeps (ar_store x) (ar_store x') ∧
       ∃ L, L ≡ₚ (ents ≫= λ e, match kids !! EntName e with Some n => node_items d prefix (EntName e) n | None => [] end) ∧
            aw_full (ar_out x') (l ++ L)) (λ e _, arch_fails e) x.
Proof.
  induction ents as [|e ents IH]; intros x l Hrec Hp Hd Hl Hall; cbn [write_ents].
  { wp_step. split; [done|]. exists []. by rewrite app_nil_r. }
  destruct (Hall e) as (n & Hn & [Hv Hrep] & Hg & Har); [by left|]. rewrite path_Join_good by (apply Forall_app; by split; [|constructor]).
  assert (Hrest : ∀ x1 L, keeps (ar_store x) (ar_store x1) → L ≡ₚ node_items d prefix (EntName e) n → aw_full (ar_out x1) (l ++ L) →
    wp (write_ents sz fuel rec (Join prefix) dir ents)
      (λ _ x', keeps (ar_store x) (ar_store x') ∧
         ∃ L', L' ≡ₚ ((e :: ents) ≫= λ e, match kids !! EntName e with Some n => node_items d prefix (EntName e) n | None => [] end) ∧
               aw_full (ar_out x') (l ++ L')) (λ e _, arch_fails e) x1).
  { intros x1 L Hk HL Hl1. eapply wp_mono; [apply (IH x1 (l ++ L)); try done|..]; cbn beta; [by eapply dirs_keeps| | |done].
    - intros e' He'. destruct (Hall e') as (n' & Hn' & Hr' & Hg' & Ha'); [by right|]. exists n'.
      split_and!; [done|by eapply ent_repr_keeps|done|by eapply archivable_keeps].
    - intros _ x2 (Hk2 & L2 & HL2 & Hl2). split; [by transitivity (ar_store x1)|]. exists (L ++ L2). rewrite app_assoc. split; [|done].
      rewrite bind_cons. cbn beta. rewrite Hn. by apply Permutation_app. }
  wp_step. destruct (IsDir e) eqn:Hdir.
  - destruct Hrep as (dm & ks & -> & Hdk). eapply wp_mono; [apply (Hrec (prefix ++ [EntName e]) _ (meta_of e) dm ks x l); try done|..]; cbn beta; [| |done].
    + apply Forall_app. by split; [|constructor].
    + intros _ x1 (Hk & L & HL & Hl1). by eapply Hrest.
  - subst n. apply archivable_file in Har as (Hreg & Hc & Hsize & Hlt). destruct x as [s o]. cbn [ar_store ar_out] in *.
    eapply open_into_spec; [done..| |by left]. intros f Hf Hkf. wp_step. apply wp_of_out. cbn [fst snd].
    eapply wp_mono; [by apply aw_header_law|..]; cbn beta; [|by right]. intros _ o1 Ho1. wp_step.
    eapply wp_mono; [apply (copy_entry_spec fuel (content (EntHTree e)) 0 f o1 l); [done|done|done|lia]|..]; cbn beta; [|done].
    intros _ [f2 o2] [Ho2 Hk2]. cbn [fst snd] in *. apply wp_of_f. unfold FileClose. wp_step. cbn [fst snd].
    apply (Hrest _ [(mkHeader (Join (prefix ++ [EntName e])) (meta_of e), content (EntHTree e))]); cbn [ar_store ar_out].
    + by transitivity (r_store (f_rdr f)).
    + done.
    + by apply aw_part_full.
Qed.

(** A directory's entries are those of its map. *)
Lemma lists_items s ents kids d prefix :
  lists fuel s ents kids →
  (ents ≫= λ e, match kids !! EntName e with Some n => node_items d prefix (EntName e) n | None => [] end) ≡ₚ t_files (S d) prefix kids.
Proof.
  intros (Hnd & _ & Hdom & Hall). set (nd e := default (File (mkMeta 0 0 0) (mkHTree 0 [])) (kids !! EntName e)).
  assert (Hk : ∀ e, e ∈ ents → kids !! EntName e = Some (nd e)).
  { intros e He. destruct (Hall e He) as (n & Hn & _). unfold nd. by rewrite Hn. }
  assert (Hkids : kids = list_to_map ((λ e, (EntName e, nd e)) <$> ents)).
  { apply map_eq. intros name. destruct (kids !! name) as [n|] eqn:Hn.
    - symmetry. apply elem_of_list_to_map; [by rewrite <-list_fmap_compose|].
      assert (Hin : name ∈ dom kids) by (apply elem_of_dom; by eexists). rewrite Hdom in Hin.
      apply elem_of_list_to_set, list_elem_of_fmap in Hin as (e & -> & He). apply list_elem_of_fmap. exists e. split; [|done].
      f_equal. specialize (Hk e He). congruence.
    - symmetry. apply not_elem_of_list_to_map_1. rewrite <-list_fmap_compose. intros (e & -> & He)%list_elem_of_fmap.
      cbn [fst compose] in Hn. specialize (Hk e He). congruence. }
  assert (Hp : map_to_list kids ≡ₚ (λ e, (EntName e, nd e)) <$> ents).
  { rewrite Hkids at 1. apply map_to_list_to_map. by rewrite <-list_fmap_compose. }
  cbn [t_files]. rewrite Hp. rewrite list_fmap_bind. apply reflexive_eq. clear -Hk. induction ents as [|e ents IH]; [done|].
  rewrite !bind_cons, IH by (intros; apply Hk; by right). rewrite (Hk e) by (by left). done.
Qed.

Lemma write_tree_spec d : writes_dir d (write_tree sz fuel d).
Proof.
  induction d as [|d IH]; intros prefix h m dm ks x l Hp Hd Ha Hl; [done|]. cbn [write_tree]. wp_step. unfold on_store. wp_step.
  eapply wp_mono; [by apply (ReadDir_dirs sz fuel Hsz Heof)|..]; cbn beta; [|by left].
  intros ? s1 (t & ents & -> & -> & Hat & Hls & Hk1). wp_step. eapply wp_lift_ok; [done|].
  wp_step. eapply wp_lift_ok; [apply slice_ok; simpl; lia|]. simpl. rewrite drop_0, take_ge by lia.
  eapply wp_mono; [apply (write_entries_spec d _ prefix _ dm ks ents (mkArch s1 (ar_out x)) l IH Hp); cbn [ar_store ar_out]|..]; cbn beta; cbn [ar_store ar_out].
  - by eapply dirs_keeps.
  - done.
  - intros e He. pose proof Hls as (_ & _ & _ & Hall). destruct (Hall e He) as (n & Hn & Hr). exists n. destruct (Ha _ _ Hn).
    split_and!; [done..|by eapply archivable_keeps].
  - intros _ x' (Hk2 & L & HL & Hl'). split; [by transitivity s1|]. exists L. split; [|done]. by rewrite HL, (lists_items s1).
  - done.
Qed.
End Loop.

(** ** The two formats *)
Variable fault : nat → option error.
Definition write_fails (e : error) : Prop := ∃ i, fault i = Some e.

Lemma it_call_spec i : wp (it_call fault) (λ _ i', it_list i' = it_list i) (λ e _, write_fails e) i.
Proof. unfold it_call. wp_steps. destruct (fault (it_calls i)) as [e|] eqn:He; wp_step; [by eexists|done]. Qed.

(** Of a tar file the bytes still missing are known. *)
Definition tar_part (t : TarWriter) (l : list item) (h : Header) (d : bytes) : Prop :=
  it_list (tw_items t) = (h, d) :: reverse l ∧ tw_nb t = (m_size (hd_Meta h) - Z.of_nat (length d))%Z.
Definition tar_full (t : TarWriter) (l : list item) : Prop := it_list (tw_items t) = reverse l ∧ (tw_nb t ≤ 0)%Z.

Lemma not_socket m : mode_IsRegular m = true → Z.testbit m 24 = false.
Proof.
  unfold mode_IsRegular. intros Hz%bool_decide_eq_true_1.
  assert (Hb : Z.testbit (Z.land m ModeType) 24 = false) by (rewrite Hz; apply Z.bits_0).
  rewrite Z.land_spec in Hb. change (Z.testbit ModeType 24) with true in Hb. by rewrite andb_true_r in Hb.
Qed.

#[refine, local] Instance tar_laws : ArchiveLaws TarWriter (H1 := tar_writer fault) :=
  {| aw_full := tar_full; aw_part := tar_part; aw_fails := write_fails |}.
Proof.
  - intros t l ent name [Hl Hnb] Hreg. cbn [aw_header tar_writer]. unfold FileInfoHeader. rewrite not_socket by done. wp_step. wp_step.
    unfold tar_WriteHeader, on_items. wp_step. wp_step. rewrite bool_decide_eq_false_2 by lia. wp_step. wp_step.
    eapply wp_mono; [apply it_call_spec|..]; cbn beta; [|done]. intros _ i' Hi. unfold it_push. wp_steps.
    split; simpl; [by rewrite Hi, Hl|lia].
  - intros t l h d b [Hl Hnb] Hlen. cbn [aw_Write tar_writer]. unfold tar_Write, on_items. wp_step. wp_step. rewrite length_app in Hlen.
    replace (Z.to_nat (tw_nb t `min` Z.of_nat (length b))) with (length b) by lia. wp_step. wp_step.
    eapply wp_mono; [apply it_call_spec|..]; cbn beta; [|done]. intros _ i' Hi. unfold it_append. wp_steps.
    rewrite bool_decide_eq_false_2 by lia. wp_step. rewrite take_ge by lia. split; simpl; [by rewrite Hi, Hl|rewrite length_app; lia].
  - intros t l h d [Hl Hnb] Hlen. split; [by rewrite Hl, reverse_snoc|lia].
Defined.

#[refine, local] Instance zip_laws : ArchiveLaws Items (H1 := zip_writer fault) :=
  {| aw_full i l := it_list i = reverse l; aw_part i l h d := it_list i = (h, d) :: reverse l; aw_fails := write_fails |}.
Proof.
  - intros i l ent name Hl Hreg. cbn [aw_header zip_writer]. wp_step. eapply wp_mono; [apply it_call_spec|..]; cbn beta; [|done].
    intros _ i' Hi. unfold it_push. wp_step. simpl. by rewrite Hi, Hl.
  - intros i l h d b Hl _. cbn [aw_Write zip_writer]. wp_step. eapply wp_mono; [apply it_call_spec|..]; cbn beta; [|done].
    intros _ i' Hi. unfold it_append. wp_step. simpl. by rewrite Hi, Hl.
  - intros i l h d Hl _. by rewrite Hl, reverse_snoc.
Defined.

(** A session that starts in [start s]; its result is read off its last state. *)
Lemma wp_session {S T A B} (c : M T A) (start : S → T) (out : T → B) (back : T → S) Q E (y : S) :
  wp c (λ _ x, Q (out x) (back x)) (λ e x, E e (back x)) (start y) →
  wp (λ y, let '(o, x) := c (start y) in (_ ← o; Ok (out x), back x)) Q E y.
Proof. unfold wp. by destruct (c (start y)) as [[] ?]. Qed.

(** C27: [Tar] writes an archive with exactly the files of the directory: each file once, under the path that leads to
    it, with its size, mode and time and all of its bytes, and nothing else.  The directory is [archivable]: names are
    path elements, and every file is a regular one that has as many bytes as its entry says.  For such a
    directory the only errors are those of the store and of the output; a file of another size makes [Tar] fail
    ([tar_short]). *)
Theorem tar_exact d s h m mode kids :
  dirs fuel s h mode kids → archivable d s (Folder m mode kids) →
  wp (Tar fault sz fuel d h) (λ l s', l ≡ₚ t_files d [] kids ∧ keeps s s') (λ e _, get_fails e ∨ write_fails e) s.
Proof.
  intros Hd Ha. apply (wp_session (writeTar fault sz fuel d [] h;; zoom ar_out (λ t x, mkArch (ar_store x) t) (tar_Close fault))
    (λ s, mkArch s (mkTar new_items 0)) (λ x, reverse (it_list (tw_items (ar_out x)))) ar_store). wp_step.
  eapply wp_mono; [apply (write_tree_spec (AL := tar_laws) d [] h m mode kids _ []); [constructor|done|done|by split]|..]; cbn beta; [|done].
  intros _ x1 (Hk & L & HL & [Hl Hnb]). wp_step. unfold tar_Close, on_items. wp_step. wp_step. rewrite bool_decide_eq_false_2 by lia. wp_step.
  eapply wp_mono; [apply it_call_spec|..]; cbn beta; [|by right]. intros _ i' Hi. simpl. by rewrite Hi, Hl, reverse_involutive.
Qed.

(** So does [Zip]. *)
Theorem zip_exact d s h m mode kids :
  dirs fuel s h mode kids → archivable d s (Folder m mode kids) →
  wp (Zip fault sz fuel d h) (λ l s', l ≡ₚ t_files d [] kids ∧ keeps s s') (λ e _, get_fails e ∨ write_fails e) s.
Proof.
  intros Hd Ha. apply (wp_session (writeZip fault sz fuel d [] h;; zoom ar_out (λ t x, mkArch (ar_store x) t) (zip_Close fault))
    (λ s, mkArch s new_items) (λ x, reverse (it_list (ar_out x))) ar_store). wp_step.
  eapply wp_mono; [apply (write_tree_spec (AL := zip_laws) d [] h m mode kids _ []); [constructor|done|done|done]|..]; cbn beta; [|done].
  intros _ x1 (Hk & L & HL & Hl). wp_step. unfold zip_Close.
  eapply wp_mono; [apply it_call_spec|..]; cbn beta; [|by right]. intros _ i' Hi. simpl. by rewrite Hi, Hl, reverse_involutive.
Qed.
End Archive.

(** ** A directory with a folder in it, over the store of FsDemo *)
Module ArchiveDemo.
Import FsDemo.
#[local] Existing Instances params fs_params_ok FsDemo.store laws.

Definition no_fault (i : nat) : option error := None.
Definition boxed : DirEnt := mkDirEnt (str "box") 0 0 mode (EntHTree root).
Definition top : DirEnt := (step (WriteDir [boxed] mode) zero_dirent s2).1.
Definition s_top : MemStore.MemStore := (step (WriteDir [boxed] mode) zero_dirent s2).2.
Definition top_kids : kidmap := {[ str "box" := Folder (meta_of boxed) mode kids ]}.
Definition the_content (t : HTree) : bytes := data.

(** The program runs. *)
Example tar_runs :
  (Tar no_fault sz fuel 3 (Data (EntHTree top)) s_top).1 = Ok [(mkHeader (str "box/fox") (meta_of file), data)].
Proof. vm_compute. reflexivity. Qed.
(** A file that is shorter than its entry says makes [Tar] fail at the end; [Zip] does not notice. *)
Example tar_short :
  let '(e, s) := step (WriteDir [mkDirEnt name 44 0 0x1a4 t1] mode) zero_dirent s1 in
  (Tar no_fault sz fuel 2 (Data (EntHTree e)) s).1 = Err missed_writing ∧
  match (Zip no_fault sz fuel 2 (Data (EntHTree e)) s).1 with Ok l => snd <$> l = [data] | _ => False end.
Proof. vm_compute. done. Qed.

Lemma top_written : keeps s2 s_top ∧ dirs fuel s_top (Data (EntHTree top)) mode top_kids.
Proof.
  destruct root_written as [_ Hd].
  assert (Hl : lists fuel s2 [boxed] top_kids).
  { split_and!; [apply NoDup_singleton|by apply (bool_decide_unpack _)|unfold top_kids; rewrite dom_singleton_L; simpl; set_solver|].
    intros e ->%list_elem_of_singleton. exists (Folder (meta_of boxed) mode kids). split; [apply lookup_singleton_eq|].
    split; [split_and!; vm_compute; (congruence || lia || done)|]. by exists mode, kids. }
  assert (Hsize : map_size top_kids < fuel) by (rewrite (lists_size _ _ _ _ Hl); by apply Nat.ltb_lt).
  pose proof fuel_capacity.
  destruct (step_ok (WriteDir [boxed] mode) zero_dirent s2 _ _
    (WriteDir_lists sz fuel sz_pos no_eof s2 [boxed] top_kids mode Hl ltac:(by vm_compute) eq_refl Hsize ltac:(lia)))
    as (t & Ht & Hk & Hdt & _); [by vm_compute|].
  unfold top, s_top. rewrite Ht. split; [exact Hk|exact Hdt].
Qed.

Lemma top_archivable : archivable fuel the_content 2 s_top (Folder (meta_of top) mode top_kids).
Proof.
  intros name n Hn. unfold top_kids in Hn. apply lookup_singleton_Some in Hn as [<- <-]. split; [by apply (bool_decide_unpack _)|].
  intros name' n' Hn. unfold kids in Hn. apply lookup_singleton_Some in Hn as [<- <-]. split; [apply good_name_fox|].
  split_and!; [by vm_compute| |by vm_compute|by apply Nat.ltb_lt].
  destruct top_written as [Hk _]. destruct root_written as [Hk1 _]. exact (file_content_keeps _ _ _ _ (transitivity Hk1 Hk) data_stored).
Qed.

Lemma tar_exact_witness :
  wp (Tar no_fault sz fuel 2 (Data (EntHTree top)))
    (λ l s', l ≡ₚ t_files the_content 2 [] top_kids ∧ keeps s_top s') (λ e _, get_fails e ∨ write_fails no_fault e) s_top.
Proof.
  apply (tar_exact sz fuel sz_pos no_eof the_content no_fault 2 s_top (Data (EntHTree top)) (meta_of top) mode top_kids).
  - apply top_written.
  - apply top_archivable.
Defined.
End ArchiveDemo.
