(* ===== verification/Browse.v ===== *)
(** The stored tree in a web browser: cmd/bpy/browse/browse.go.

    A handler is a function from the path of the request to the response.  Its normal results are
    responses, also those that report an error; it ends with an error only where the
    source calls [common.Die].  How the template renders a page is left out.  [http_Open] and the
    methods behind it are what [http.FileServer] calls; [serveContent] is its use of them for one file. *)

From Stdlib Require Import ZArith Lia.
From stdpp Require Import base list strings gmap.
From coqutil Require Import Byte.
From S2P Require Import Prelude Store Io Htree HtreeProps Fs Refs Remote Host Commands Archive.

Set Default Goal Selector "!".

(** ** strings.Trim(s, "/") *)

Fixpoint TrimLeft (s : bytes) : bytes :=
  match s with
  | c :: s' => if decide (c = slash) then TrimLeft s' else s
  | [] => []
  end.
Definition Trim (s : bytes) : bytes := rev (TrimLeft (rev (TrimLeft s))).

Inductive Response :=
  | Failed (status : Z) (why : error)
  | Page (Path : bytes) (PathParts : list bytes) (Name : bytes) (DirEnts : list DirEnt)
  | Attachment (filename : bytes) (archive : list item + error)   (* or why it is cut short *)
  | Raw (status : Z) (body : bytes)
  | Listing (ents : list DirEnt).

Definition StatusOK : Z := 200.
Definition StatusPartialContent : Z := 206.
Definition StatusNotFound : Z := 404.
Definition StatusRequestedRangeNotSatisfiable : Z := 416.
Definition StatusInternalServerError : Z := 500.
Definition StatusBadRequest : Z := 400.

Definition not_a_directory : error := ENew "not a directory".
Definition cannot_serve : error := ENew "cannot serve this file type".
Definition not_a_file : error := ENew "not a file".

Section Browse.
Context {P : Params} {St : Type} `{CStore St} {R : Type} `{RemoteClient R}.
Variables (fault : nat → option error) (sz : nat → nat) (fuel depth : nat).
Variables (HMAC : bytes → bytes → bytes) (key : Key).

(** What the handlers share: their fields [store] and [c]. *)
Record Site := mkSite { si_store : St; si_remote : R }.
Definition on_st9 {A} : M St A → M Site A := zoom si_store (λ s x, mkSite s (si_remote x)).
Definition on_c9 {A} : M R A → M Site A := zoom si_remote (λ r x, mkSite (si_store x) r).

(** [if err != nil { w.WriteHeader(http.StatusInternalServerError) ... return }] *)
Definition or_500 {A} (c : M Site A) (k : A → M Site Response) : M Site Response :=
  o ← try c;
  match o with
  | inl a => k a
  | inr e => mret (Failed StatusInternalServerError e)
  end.

(** How both handlers find the entry of [walkPath] in the current tree. *)
Definition current_entry (walkPath : bytes) (k : DirEnt → M Site Response) : M Site Response :=
  or_500 (on_c9 (GetRoot HMAC key)) (λ '(rootHash, _, ok),
    if negb ok then mret (Failed StatusNotFound root_missing)
    else
      ref ← on_st9 (GetRef sz fuel rootHash);
      or_500 (on_st9 (Walk sz fuel (Root ref) walkPath)) k).

Definition rootHandler_ServeHTTP (urlPath : bytes) : M Site Response :=
  walkPath ← lift (slice urlPath 1 (length urlPath));
  current_entry walkPath (λ ent,
    or_500 (on_st9 (ReadDir sz fuel (Data (EntHTree ent)))) (λ dirEnts,
      let pathParts := Split (Trim urlPath) in
      name ← lift (idx pathParts (length pathParts - 1));
      mret (Page walkPath pathParts name dirEnts))).

Definition archiveName (walkPath : bytes) : bytes :=
  let base := Base walkPath in
  if decide (base = dot ∨ base = [slash]) then str "root.zip" else base ++ str ".zip".

(** The error of [archive.Zip] is not looked at; what was written has been sent. *)
Definition archiveHandler_ServeHTTP (urlPath : bytes) : M Site Response :=
  walkPath ← lift (slice urlPath 1 (length urlPath));
  current_entry walkPath (λ ent,
    if negb (IsDir ent) then mret (Failed StatusBadRequest not_a_directory)
    else
      zip ← try (on_st9 (Zip fault sz fuel depth (Data (EntHTree ent))));
      mret (Attachment (archiveName walkPath) zip)).

(** ** Files and directories for [http.FileServer] *)

Record httpDir := mkHttpDir { hd_root : hash; hd_path : bytes; hd_ent : DirEnt }.

(** [httpFs.Open]: [file] is what is done with an [httpFile], [dir] with an [httpDir]. *)
Definition http_Open {A} (fullPath : bytes) (file : DirEnt → M (FileReader (St := St)) A) (dir : httpDir → M Site A)
  : M Site (A + error) :=
  o ← try (on_c9 (GetRoot HMAC key));
  match o with
  | inr e => mret (inr e)
  | inl (rootHash, _, ok) =>
    if negb ok then mret (inr root_missing)
    else
      ref ← on_st9 (GetRef sz fuel rootHash);
      o ← try (on_st9 (Walk sz fuel (Root ref) fullPath));
      match o with
      | inr e => mret (inr e)
      | inl ent =>
        if mode_IsRegular (EntMode ent) then try (on_st9 (with_file sz fuel (Root ref) fullPath (file ent)))
        else if IsDir ent then a ← dir (mkHttpDir (Root ref) fullPath ent); mret (inl a)
        else mret (inr cannot_serve)
      end
  end.

Definition httpFile_Seek (offset whence : Z) : M (FileReader (St := St)) Z := FileSeek offset whence.
Definition httpFile_Read (n : nat) : M (FileReader (St := St)) bytes := FileRead n.
Definition httpFile_Close : M (FileReader (St := St)) unit := FileClose.
Definition httpFile_Stat (ent : DirEnt) : outcome DirEnt := Ok ent.
Definition httpFile_Readdir (count : Z) : outcome (list DirEnt) := Err (ENew "not a dir").

Definition httpDir_Seek (d : httpDir) (offset whence : Z) : outcome Z := Err not_a_file.
Definition httpDir_Read (d : httpDir) (n : nat) : outcome bytes := Err not_a_file.
Definition httpDir_Close (d : httpDir) : outcome unit := Err not_a_file.
Definition httpDir_Stat (d : httpDir) : outcome DirEnt := Ok (hd_ent d).
Definition httpDir_Readdir (d : httpDir) (count : Z) : M Site (list DirEnt) :=
  ents ← on_st9 (Fs.Ls sz fuel (hd_root d) (hd_path d));
  finfo ← lift (slice ents 1 (length ents));
  if bool_decide (0 ≤ count)%Z && bool_decide (count < Z.of_nat (length finfo))%Z
  then lift (slice finfo 0 (Z.to_nat count))
  else mret finfo.

(** ** net/http: serveContent *)

Definition sniffLen : nat := 512.

(** [io.ReadFull] and [io.CopyN] whose errors are not looked at: reads of at most [buf] bytes until [n] bytes have
    come. *)
Fixpoint read_up_to (buf fuel n : nat) : M (FileReader (St := St)) bytes :=
  match n with
  | O => mret []
  | _ =>
    match fuel with
    | O => diverge
    | S fuel =>
      o ← try (httpFile_Read (n `min` buf));
      match o with
      | inl b => rest ← read_up_to buf fuel (n - length b); mret (b ++ rest)
      | inr _ => mret []
      end
    end
  end.

(** Where the name does not tell the type of a file its first bytes do ([sniff]); [range] is the one range that the
    request asks for. *)
Definition serveContent (sniff : bool) (range : option (nat * nat)) (ent : DirEnt) : M (FileReader (St := St)) Response :=
  o ← (if sniff then read_up_to sniffLen sniffLen sniffLen;; try (httpFile_Seek 0 0) else mret (inl 0%Z));
  match o, range with
  | inr e, _ => mret (Failed StatusInternalServerError e)
  | inl _, None =>
    let n := Z.to_nat (EntSize ent) in
    body ← read_up_to copy_buf n n;
    mret (Raw StatusOK body)
  | inl _, Some (start, n) =>
    o ← try (httpFile_Seek (Z.of_nat start) 0);
    match o with
    | inr e => mret (Failed StatusRequestedRangeNotSatisfiable e)
    | inl _ => body ← read_up_to copy_buf n n; mret (Raw StatusPartialContent body)
    end
  end.

(** Its listing of a directory. *)
Definition dirList (d : httpDir) : M Site Response :=
  o ← try (httpDir_Readdir d (-1));
  mret (match o with inl ents => Listing ents | inr e => Failed StatusInternalServerError e end).

(** A request below /raw; that an index.html takes the place of its directory is left out. *)
Definition serve_raw (sniff : bool) (range : option (nat * nat)) (fullPath : bytes) : M Site (Response + error) :=
  http_Open fullPath (serveContent sniff range) dirList.
End Browse.
