(* ===== verification/BrowseProps.v ===== *)
(** What a browser sees: pages list the directories of the current tree, archives have their files, and a file is served
    with its bytes, except after a seek that the tree reader ignores. *)

From Stdlib Require Import ZArith Lia.
From stdpp Require Import base list strings gmap.
From coqutil Require Import Byte.
From S2P Require Import Prelude Store Io Htree HtreeSpec HtreeWrite HtreeRead HtreeProps Fs FsProps FsTree FsFile FsDemo Refs Remote Host HostProps.
From S2P Require Import Commands Archive ArchiveProps Browse Packs PacksMem Gc GcProps.

Set Default Goal Selector "!".
#[local] Opaque copy_buf.

(** ** Paths *)

(** How the pages link to the directory [path]. *)
Definition dir_url (path : list bytes) : bytes := if decide (path = []) then [slash] else abs_path path ++ [slash].

Lemma dir_url_cut path : slice (dir_url path) 1 (length (dir_url path)) = Ok (drop 1 (dir_url path)).
Proof.
  assert (1 ≤ length (dir_url path)) by (unfold dir_url; destruct (decide _); simpl; lia).
  rewrite slice_ok by lia. by rewrite take_ge by (rewrite length_drop; lia).
Qed.

Lemma rooted_url path : Forall good_name path → rooted (drop 1 (dir_url path)) = dir_url path.
Proof.
  intros Hg. unfold dir_url. destruct (decide _) as [->|Hne]; [done|]. destruct path as [|n path]; [done|].
  apply Forall_cons in Hg as [(Hn & _ & _ & Hs) _]. destruct n as [|b n]; [done|]. apply not_elem_of_cons in Hs as [Hb _].
  unfold rooted, abs_path. destruct path; simpl; rewrite decide_False; congruence.
Qed.

Lemma Clean_url path : Forall good_name path → Clean (dir_url path) = abs_path path.
Proof.
  intros Hg. unfold dir_url. destruct (decide _) as [->|Hne]; [done|]. unfold Clean, abs_path at 1.
  rewrite <-app_comm_cons, Split_slash, Split_Join_app by (try apply good_no_slash; done).
  unfold abs_path. do 2 f_equal. apply clean_good; [done|by apply Forall_singleton].
Qed.

Lemma Walk_url {P : Params} {St} `{CStore St} sz fuel h path :
  Forall good_name path → Walk sz fuel h (drop 1 (dir_url path)) = Walk sz fuel h (abs_path path).
Proof. intros Hg. unfold Walk, walk_elems. by rewrite rooted_url, Clean_url, rooted_abs, Clean_abs. Qed.

(** The parts of a page's path are the names that lead to it. *)
Definition url_parts (path : list bytes) : list bytes := if decide (path = []) then [[]] else path.

Lemma TrimLeft_other c s : c ≠ slash → TrimLeft (c :: s) = c :: s.
Proof. intros Hc. simpl. by rewrite decide_False. Qed.

Lemma Join_ends path : Forall good_name path → path ≠ [] →
  (∃ c s, Join path = c :: s ∧ c ≠ slash) ∧ (∃ s c, Join path = s ++ [c] ∧ c ≠ slash).
Proof.
  induction 1 as [|n path (Hn & _ & _ & Hs) Hg IH]; intros Hne; [done|].
  assert (Hfirst : ∃ c s, n = c :: s ∧ c ≠ slash).
  { destruct n as [|c s]; [done|]. apply not_elem_of_cons in Hs as [? _]. eauto. }
  destruct path as [|n' path].
  - split; [by destruct Hfirst as (c & s & -> & ?); exists c, s|].
    destruct n as [|c s _] using rev_ind; [done|]. apply not_elem_of_app in Hs as [_ Hs]. rewrite list_elem_of_singleton in Hs. eauto.
  - change (Join (n :: n' :: path)) with (n ++ slash :: Join (n' :: path)). split.
    + destruct Hfirst as (c & s & -> & ?). by exists c, (s ++ slash :: Join (n' :: path)).
    + destruct (IH ltac:(done)) as (_ & s & c & -> & ?). exists (n ++ slash :: s), c. by rewrite <-app_assoc, <-app_comm_cons.
Qed.

Lemma url_parts_split path : Forall good_name path → Split (Trim (dir_url path)) = url_parts path.
Proof.
  intros Hg. unfold dir_url, url_parts. destruct (decide _) as [->|Hne]; [done|].
  destruct (Join_ends path Hg Hne) as [(c & s & Hj & Hc) (s' & c' & Hj' & Hc')].
  unfold Trim, abs_path. rewrite <-app_comm_cons. assert (HL : TrimLeft (slash :: Join path ++ [slash]) = Join path ++ [slash]).
  { cbn [TrimLeft]. rewrite decide_True by done. rewrite Hj, <-app_comm_cons. by apply TrimLeft_other. }
  rewrite HL, rev_app_distr. assert (HR : TrimLeft (rev [slash] ++ rev (Join path)) = rev (Join path)).
  { cbn [rev app TrimLeft]. rewrite decide_True by done. rewrite Hj', rev_app_distr. by apply TrimLeft_other. }
  rewrite HR, rev_involutive. apply Split_Join; [by apply good_no_slash|done].
Qed.

Lemma url_parts_last path : idx (url_parts path) (length (url_parts path) - 1) = Ok (default [] (last path)).
Proof.
  unfold url_parts. destruct (decide _) as [->|Hne]; [done|]. destruct path as [|n path _] using rev_ind; [done|].
  rewrite last_snoc, length_app. simpl. unfold idx. rewrite list_lookup_middle by lia. done.
Qed.

(** ** One file *)
Section File.
Context {P : Params} {Pok : ParamsOk} {St : Type} `{CStoreLaws St}.
Hypothesis Heof : ¬ get_fails EOF.
Hypothesis Hno : ∀ e, ¬ get_fails e.
Implicit Types (f : FileReader (St := St)) (s : St).

(** A read at the end leaves the reader where it is. *)
Lemma FileRead_stays skew delta f c p n :
  file_at skew delta f c p → wp (FileRead n) (λ _ _, True) (λ _ f', file_at skew delta f' c p) f.
Proof.
  intros (Hs & [_ Ht] & Hpr & Hp & Hc & Ho & Hro). unfold FileRead. wp_step. wp_step.
  eapply wp_mono; [by apply Read_retry|..]; cbn beta; [intros; by wp_steps|].
  intros e r' (_ & Hs' & Hroot & Hh & Hoff & Hk). unfold file_at. simpl. split_and!; try done.
  - split; [apply Hs'|]. rewrite Hh, Hroot. by eapply tree_at_keeps.
  - unfold progress in *. by rewrite Hh.
  - by rewrite Hoff.
Qed.

Lemma read_up_to_spec skew delta c buf k : 1 ≤ buf → ∀ n f p,
  file_at skew delta f c p → n ≤ k →
  wp (read_up_to buf k n)
    (λ b f', b = take n (drop p c) ∧ file_at skew delta f' c (p + n `min` (length c - p))) (λ _ _, False) f.
Proof.
  intros Hbuf. induction k as [|k IH]; intros n f p Hf Hn; destruct n as [|n]; try lia; cbn [read_up_to].
  1,2: wp_step; rewrite take_0, Nat.min_0_l, Nat.add_0_r; done.
  wp_step. wp_step. unfold httpFile_Read. pose proof Hf as (_ & _ & _ & Hp & _).
  eapply wp_mono; [apply wp_and; [apply (FileRead_spec _ _ _ _ _ _ Hf); lia|by eapply FileRead_stays]|..]; cbn beta.
  - intros b f1 [(Hb & Hlb & Hf1 & Heq & Hle) _]. wp_step. assert (1 ≤ length b) by (destruct b; [done|simpl; lia]).
    eapply wp_mono; [apply (IH _ _ _ Hf1); lia|..]; cbn beta; [|done]. intros rest f2 [-> Hf2]. wp_step. split.
    + rewrite Heq at 1. rewrite <-drop_drop, take_take_drop. f_equal. lia.
    + replace (p + S n `min` (length c - p)) with (p + length b + (S n - length b) `min` (length c - (p + length b))) by lia. done.
  - intros e f1 [[[_ Hend]|He] Hf1]; [|by destruct (Hno e)]. wp_step. rewrite drop_ge, take_nil by lia.
    replace (p + _) with p by lia. done.
Qed.

(** A file of the size its entry says, whole or the part asked for. *)
Lemma serveContent_whole sniff c f ent :
  file_at 0 0 f c 0 → EntSize ent = Z.of_nat (length c) →
  wp (serveContent sniff None ent) (λ r _, r = Raw StatusOK c) (λ _ _, False) f.
Proof.
  intros Hf Hsize. pose proof copy_buf_pos as Hcb. unfold serveContent. wp_step.
  apply (wp_mono _ (λ o f', (∃ z, o = inl z) ∧ ∃ skew delta, file_at skew delta f' c 0) _ (λ _ _, False)); [|cbn beta|done].
  - destruct sniff; [|wp_step; eauto]. wp_step.
    eapply wp_mono; [apply (read_up_to_spec 0 0 c sniffLen sniffLen ltac:(unfold sniffLen; lia) sniffLen f 0 Hf); lia|..]; cbn beta; [|done].
    intros _ f1 [_ Hf1]. rewrite Nat.sub_0_r in Hf1. wp_step. unfold httpFile_Seek. pose proof Hf1 as (_ & _ & _ & _ & Hc & _).
    destruct (decide (length c = 0)) as [Hz|Hnz].
    + rewrite Hz, Nat.min_0_r in Hf1. eapply wp_mono; [apply (FileSeek_ignored _ _ _ _ 0 Hf1); [lia|by rewrite wrap_small]|..]; cbn beta; [|done].
      intros o f2 [-> Hf2]. eauto.
    + eapply wp_mono; [apply (FileSeek_moves _ _ _ _ 0 Hf1); [lia|unfold sniffLen; rewrite wrap_small; lia]|..]; cbn beta; [|intros e ? He; by destruct (Hno e)].
      intros o f2 [-> Hf2]. eauto.
  - intros o f1 [[z ->] (skew & delta & Hf1)]. wp_step.
    eapply wp_mono; [apply (read_up_to_spec _ _ c copy_buf _ Hcb _ f1 0 Hf1); done|..]; cbn beta; [|done].
    intros b f2 [-> _]. wp_step. rewrite Hsize, drop_0, take_ge by lia. done.
Qed.

Lemma serveContent_range c f ent start n :
  file_at 0 0 f c 0 → start + n ≤ length c →
  wp (serveContent false (Some (start, n)) ent) (λ r _, r = Raw StatusPartialContent (take n (drop start c))) (λ _ _, False) f.
Proof.
  intros Hf Hle. pose proof copy_buf_pos as Hcb. pose proof Hf as (_ & _ & _ & _ & Hc & _). unfold serveContent. wp_step. wp_step. wp_step. wp_step. unfold httpFile_Seek.
  apply (wp_mono _ (λ _ f', ∃ skew delta, file_at skew delta f' c start) _ (λ _ _, False)); [|cbn beta|done].
  - destruct (decide (start = 0)) as [->|Hs].
    + eapply wp_mono; [apply (FileSeek_ignored _ _ _ _ 0 Hf); [lia|by rewrite wrap_small]|..]; cbn beta; [|done]. intros o f2 [-> Hf2]. eauto.
    + eapply wp_mono; [apply (FileSeek_moves _ _ _ _ start Hf); [lia|rewrite wrap_small; lia]|..]; cbn beta; [|intros e ? He; by destruct (Hno e)].
      intros o f2 [-> Hf2]. eauto.
  - intros _ f1 (skew & delta & Hf1). wp_step. eapply wp_mono; [apply (read_up_to_spec _ _ c copy_buf _ Hcb _ f1 start Hf1); done|..]; cbn beta; [|done].
    intros b f2 [-> _]. by wp_step.
Qed.

(** After the first bytes were looked at, the tree reader takes a seek to their end for done: the range is
    served from the start of the file. *)
Lemma serveContent_stale c f ent n :
  file_at 0 0 f c 0 → sniffLen + n ≤ length c →
  wp (serveContent true (Some (sniffLen, n)) ent) (λ r _, r = Raw StatusPartialContent (take n c)) (λ _ _, False) f.
Proof.
  intros Hf Hle. pose proof copy_buf_pos as Hcb. pose proof Hf as (_ & _ & _ & _ & Hc & _). unfold serveContent. wp_step. wp_step.
  eapply wp_mono; [apply (read_up_to_spec 0 0 c sniffLen sniffLen ltac:(unfold sniffLen; lia) sniffLen f 0 Hf); lia|..]; cbn beta; [|done].
  intros _ f1 [_ Hf1]. rewrite Nat.sub_0_r, Nat.min_l in Hf1 by lia. wp_step. unfold httpFile_Seek.
  eapply wp_mono; [apply (FileSeek_moves _ _ _ _ 0 Hf1); [lia|unfold sniffLen in *; rewrite wrap_small; lia]|..]; cbn beta; [|intros e ? He; by destruct (Hno e)].
  intros o f2 [-> Hf2]. wp_step. wp_step.
  eapply wp_mono; [apply (FileSeek_ignored _ _ _ _ sniffLen Hf2); [lia|unfold sniffLen in *; rewrite wrap_small; lia]|..]; cbn beta; [|done].
  intros o f3 [-> Hf3]. wp_step. eapply wp_mono; [apply (read_up_to_spec _ _ c copy_buf _ Hcb _ f3 0 Hf3); done|..]; cbn beta; [|done].
  intros b f4 [-> _]. by wp_step.
Qed.
End File.

(** ** The handlers *)
Section Site.
Context {P : Params} {Pok : ParamsOk} {St : Type} `{CStoreLaws St} {R : Type} `{RemoteClient R}.
Variables (fault : nat → option error) (sz : nat → nat) (fuel depth : nat) (HMAC : bytes → bytes → bytes) (key : Key).
Hypothesis Hsz : ∀ i, 1 ≤ sz i.
Hypothesis Hfuel : 72 < fuel.
Hypothesis Heof : ¬ get_fails EOF.
Hypothesis Hno : ∀ e, ¬ get_fails e.
Abbreviation Site := (Site (St := St) (R := R)).
Implicit Types (x : Site) (s : St).

(** The newest root the remote names is the tree [kids] in directory [root]. *)
Definition current_tree x (root : hash) mode kids : Prop :=
  ∃ newest ver rem ref, GetRoot HMAC key (si_remote x) = (Ok (newest, ver, true), rem) ∧
    ref_at (si_store x) newest ref ∧ Root ref = root ∧ dirs fuel (si_store x) root mode kids.

(** What there is at [path], the tree itself at the empty path. *)
Definition node_at mode kids (path : list bytes) : option node :=
  if decide (path = []) then Some (Folder (mkMeta 0 0 mode) mode kids) else t_lookup kids path.
(** Entry [e] that was found there is a directory. *)
Definition dir_entry s (e : DirEnt) dm ks : Prop := IsDir e = true ∧ dirs fuel s (Data (EntHTree e)) dm ks.

Lemma Walk_node path s h mode kids :
  dirs fuel s h mode kids → Forall good_name path →
  wp (Walk sz fuel h (abs_path path))
    (λ e s', keeps s s' ∧ match node_at mode kids path with
                          | Some (Folder _ dm ks) => dir_entry s' e dm ks
                          | Some (File m t) => e = mkDirEnt (EntName e) (m_size m) (m_mtime m) (m_mode m) t ∧ IsDir e = false
                          | None => False
                          end)
    (λ _ _, node_at mode kids path = None) s.
Proof.
  intros Hd Hg. unfold node_at. eapply wp_mono; [by apply (Walk_spec sz fuel Hsz Heof)|..]; cbn beta.
  2: { intros e s' [He|[Hne Hl]]; [by destruct (Hno e)|]. by rewrite decide_False. }
  intros e s' [Hk Hres]. split; [done|]. destruct (decide (path = [])) as [->|Hne].
  - destruct Hres as (t & Ht & ->). subst h. split; [|by eapply dirs_keeps].
    apply (dirs_lists sz fuel Hsz Heof) in Hd as (t' & ents & _ & (_ & Hdir & _) & _). exact Hdir.
  - destruct Hres as (n & -> & _ & _ & Hrep). destruct (IsDir e) eqn:Hdir.
    + destruct Hrep as (dm & ks & -> & Hd'). by split.
    + subst n. split; [by destruct e|done].
Qed.

Lemma current_entry_spec path x root mode kids (k : DirEnt → M Site Response) Q E :
  current_tree x root mode kids → Forall good_name path →
  (∀ m dm ks e x', node_at mode kids path = Some (Folder m dm ks) → keeps (si_store x) (si_store x') → dir_entry (si_store x') e dm ks → wp (k e) Q E x') →
  (∀ m t e x', node_at mode kids path = Some (File m t) → keeps (si_store x) (si_store x') → IsDir e = false → wp (k e) Q E x') →
  (∀ e x', node_at mode kids path = None → Q (Failed StatusInternalServerError e) x') →
  wp (current_entry sz fuel HMAC key (drop 1 (dir_url path)) k) Q E x.
Proof.
  intros (newest & ver & rem & ref & Hget & Href & <- & Hd) Hg Hdir Hfile Hmiss. unfold current_entry, or_500.
  wp_step. wp_step. unfold on_c9. wp_step. unfold wp at 1. rewrite Hget. cbn [negb]. wp_step. unfold on_st9 at 1. wp_step.
  eapply wp_mono; [by apply (GetRef_spec sz fuel Hsz Hfuel Heof)| |done]; cbn beta. cbn [si_store].
  intros ref' s1 [Hk1 [->|[_ [e He]]]]; [|by destruct (Hno e)]. wp_step. wp_step. unfold on_st9. wp_step. cbn [si_store si_remote].
  rewrite Walk_url by done. eapply wp_mono; [apply Walk_node; [by eapply dirs_keeps|done]|..]; cbn beta.
  2: { intros e s2 Hn. wp_step. by apply Hmiss. }
  intros e s2 [Hk2 Hres]. assert (keeps (si_store x) s2) by (by transitivity s1).
  destruct (node_at mode kids path) as [[m t|m dm ks]|] eqn:Hnode; [|by eapply Hdir|done].
  destruct Hres as [_ Hf]. by eapply Hfile.
Qed.

(** C19: The page of a directory lists the entries that it has in the current tree, under the path that was asked
    for; what is not there is reported as an error of the server.  The store does not fail. *)
Theorem browse_shows_current path x root mode kids :
  current_tree x root mode kids → Forall good_name path → (∀ m t, node_at mode kids path ≠ Some (File m t)) →
  wp (rootHandler_ServeHTTP sz fuel HMAC key (dir_url path))
    (λ r x', match node_at mode kids path with
             | Some (Folder _ dm ks) =>
               ∃ t ents, r = Page (drop 1 (dir_url path)) (url_parts path) (default [] (last path)) (dot_ent dm t :: ents) ∧
                         lists fuel (si_store x') ents ks ∧ keeps (si_store x) (si_store x')
             | _ => ∃ e, r = Failed StatusInternalServerError e
             end) (λ _ _, False) x.
Proof.
  intros Hcur Hg Hnf. unfold rootHandler_ServeHTTP. wp_step. eapply wp_lift_ok; [apply dir_url_cut|].
  eapply current_entry_spec; [done..| | |].
  - intros m dm ks e x1 -> Hk [_ Hd]. unfold or_500, on_st9. wp_step. wp_step. wp_step.
    eapply wp_mono; [by apply (ReadDir_dirs sz fuel Hsz Heof)|..]; cbn beta; [|intros e' ? He; by destruct (Hno e')].
    intros ents s2 (t & es & Ht & -> & _ & Hl & Hk2). rewrite url_parts_split by done.
    wp_step. eapply wp_lift_ok; [apply url_parts_last|]. wp_step. eexists t, es. split_and!; [done|done|]. by transitivity (si_store x1).
  - intros m t e x1 Hf. by destruct (Hnf m t).
  - intros e x1 ->. by exists e.
Qed.

(** The archive of a directory has the files it has in the current tree, or was cut short by an error of the connection;
    a file is not archived. *)
Theorem browse_zips_current content path x root mode kids :
  current_tree x root mode kids → Forall good_name path →
  (∀ m dm ks, node_at mode kids path = Some (Folder m dm ks) → archivable fuel content depth (si_store x) (Folder m dm ks)) →
  wp (archiveHandler_ServeHTTP fault sz fuel depth HMAC key (dir_url path))
    (λ r x', match node_at mode kids path with
             | Some (Folder _ dm ks) =>
               ∃ o, r = Attachment (archiveName (drop 1 (dir_url path))) o ∧
                    match o with inl l => l ≡ₚ t_files content depth [] ks | inr e => write_fails fault e end
             | Some (File _ _) => r = Failed StatusBadRequest not_a_directory
             | None => ∃ e, r = Failed StatusInternalServerError e
             end) (λ _ _, False) x.
Proof.
  intros Hcur Hg Harch. unfold archiveHandler_ServeHTTP. wp_step. eapply wp_lift_ok; [apply dir_url_cut|].
  eapply current_entry_spec; [done..| | |].
  - intros m dm ks e x1 Hn Hk [Hdir Hd]. rewrite Hn, Hdir. cbn [negb]. wp_step. wp_step. unfold on_st9. wp_step.
    eapply wp_mono; [apply (zip_exact sz fuel Hsz Heof content fault depth _ _ m dm ks Hd)|..]; cbn beta.
    + eapply archivable_keeps; [done|]. by apply Harch.
    + intros l s2 [Hl _]. wp_step. by eexists (inl l).
    + intros e' s2 [He|He]; [by destruct (Hno e')|]. wp_step. by eexists (inr e').
  - intros m t e x1 -> Hk ->. cbn [negb]. by wp_step.
  - intros e x1 ->. by exists e.
Qed.

Lemma serve_raw_file path x root mode kids m t data sniff range Q :
  current_tree x root mode kids → Forall good_name path → path ≠ [] →
  t_lookup kids path = Some (File m t) → mode_IsRegular (m_mode m) = true → file_content (si_store x) t data →
  (∀ ent f, EntSize ent = m_size m → file_at 0 0 f data 0 → wp (serveContent sniff range ent) (λ r _, Q (inl r)) (λ _ _, False) f) →
  wp (serve_raw sz fuel HMAC key sniff range (abs_path path)) (λ r _, Q r) (λ _ _, False) x.
Proof.
  intros (newest & ver & rem & ref & Hget & Href & <- & Hd) Hg Hne Hl Hreg Hc Hserve. unfold serve_raw, http_Open.
  wp_step. wp_step. unfold on_c9. wp_step. unfold wp at 1. rewrite Hget. cbn [negb]. wp_step. unfold on_st9 at 1. wp_step.
  eapply wp_mono; [by apply (GetRef_spec sz fuel Hsz Hfuel Heof)| |done]; cbn beta. cbn [si_store].
  intros ref' s1 [Hk1 [->|[_ [e He]]]]; [|by destruct (Hno e)]. wp_step. wp_step. unfold on_st9 at 1. wp_step. cbn [si_store si_remote].
  assert (Hn : node_at mode kids path = Some (File m t)) by (unfold node_at; by rewrite decide_False).
  eapply wp_mono; [apply Walk_node; [by eapply dirs_keeps|done]|..]; cbn beta; rewrite Hn; [|done].
  intros e s2 [Hk2 [He _]]. assert (Hk : keeps (si_store x) s2) by (by transitivity s1).
  assert (EntMode e = m_mode m ∧ EntSize e = m_size m) as [Hmode Hsize] by (rewrite He; done).
  rewrite Hmode, Hreg. wp_step. unfold on_st9. wp_step. cbn [si_store].
  eapply wp_mono; [eapply (with_file_spec Heof sz fuel Hsz path _ _ mode kids m t data _ (λ r _, Q (inl r)) (λ _ _, False))|..]; cbn beta; try done.
  - by eapply dirs_keeps.
  - by eapply file_content_keeps.
  - intros f Hf _. by apply Hserve.
  - intros e' ? He'. by destruct (Hno e').
Qed.

(** A file below /raw is served whole, byte for byte, whether its first bytes are looked at for its type or not. *)
Theorem browse_raw_exact path x root mode kids m t data sniff :
  current_tree x root mode kids → Forall good_name path → path ≠ [] →
  t_lookup kids path = Some (File m t) → mode_IsRegular (m_mode m) = true →
  file_content (si_store x) t data → m_size m = Z.of_nat (length data) →
  wp (serve_raw sz fuel HMAC key sniff None (abs_path path)) (λ r _, r = inl (Raw StatusOK data)) (λ _ _, False) x.
Proof.
  intros Hcur Hg Hne Hl Hreg Hc Hsize. eapply serve_raw_file; [done..|]. intros ent f He Hf.
  eapply wp_mono; [by apply serveContent_whole; [..|rewrite He]| |done]. by intros r f' ->.
Qed.

(** A range of a file whose name tells its type is served exactly. *)
Theorem browse_range_exact path x root mode kids m t data start n :
  current_tree x root mode kids → Forall good_name path → path ≠ [] →
  t_lookup kids path = Some (File m t) → mode_IsRegular (m_mode m) = true →
  file_content (si_store x) t data → start + n ≤ length data →
  wp (serve_raw sz fuel HMAC key false (Some (start, n)) (abs_path path))
    (λ r _, r = inl (Raw StatusPartialContent (take n (drop start data)))) (λ _ _, False) x.
Proof.
  intros Hcur Hg Hne Hl Hreg Hc Hle. eapply serve_raw_file; [done..|]. intros ent f He Hf.
  eapply wp_mono; [by apply serveContent_range| |done]. by intros r f' ->.
Qed.

(** C38: When the first 512 bytes of a file were looked at for its type, the range that starts behind them is answered
    with the bytes at the start of the file. *)
Theorem browse_range_stale path x root mode kids m t data n :
  current_tree x root mode kids → Forall good_name path → path ≠ [] →
  t_lookup kids path = Some (File m t) → mode_IsRegular (m_mode m) = true →
  file_content (si_store x) t data → 512 + n ≤ length data →
  wp (serve_raw sz fuel HMAC key true (Some (512, n)) (abs_path path))
    (λ r _, r = inl (Raw StatusPartialContent (take n data))) (λ _ _, False) x.
Proof.
  intros Hcur Hg Hne Hl Hreg Hc Hle. eapply serve_raw_file; [done..|]. intros ent f He Hf.
  eapply wp_mono; [by apply serveContent_stale| |done]. by intros r f' ->.
Qed.
End Site.

(** ** The tree of FsDemo in a browser *)
Module BrowseDemo.
Import FsDemo GcDemo ArchiveDemo.
#[local] Existing Instances params fs_params_ok FsDemo.store laws mem_client.

Definition hmac (key msg : bytes) : bytes := [].
Definition site0 : Site (St := MemStore.MemStore) (R := MemRemote) := mkSite s4 remote1.

(** The pages, an archive and a file. *)
Example page_runs :
  let '(o, _) := rootHandler_ServeHTTP sz fuel hmac key1 (str "/") site0 in
  match o with Ok (Page [] [[]] [] ents) => tail ents = [file] | _ => False end.
Proof. vm_compute. reflexivity. Qed.
Example missing_page_runs :
  match (rootHandler_ServeHTTP sz fuel hmac key1 (str "/dog/") site0).1 with Ok (Failed 500 _) => True | _ => False end.
Proof. vm_compute. done. Qed.
Example archive_runs :
  (archiveHandler_ServeHTTP no_fault sz fuel 2 hmac key1 (str "/") site0).1 =
  Ok (Attachment (str "root.zip") (inl [(mkHeader name (meta_of file), data)])).
Proof. vm_compute. reflexivity. Qed.
Example raw_runs : (serve_raw sz fuel hmac key1 true None (str "/fox") site0).1 = Ok (inl (Raw 200 data)).
Proof. vm_compute. reflexivity. Qed.

(** The last bytes of a file without an extension are asked for, and its first ones served. *)
Definition big : bytes := replicate 512 Byte.x61 ++ str "tail".
Definition big_tree : HTree := (step (save [big]) (mkHTree 0 []) s0).1.
Definition sb : MemStore.MemStore := (step (save [big]) (mkHTree 0 []) s0).2.
Definition big_ent : DirEnt := mkDirEnt (str "big") 516 0 0x1a4 big_tree.
Definition big_root : DirEnt * MemStore.MemStore := step (WriteDir [big_ent] mode) zero_dirent sb.
Definition big_kids : kidmap := {[ str "big" := File (meta_of big_ent) big_tree ]}.
Definition ref_big : Ref := mkRef 0 (Data (EntHTree big_root.1)) false no_hash.
Definition big_ref : hash * MemStore.MemStore := step (PutRef ref_big) [] big_root.2.
Definition big_remote : MemRemote := mkMem (mkView ∅ ∅ ∅) 0 (mkRootReply (EncodeToString big_ref.1) [] [] true).
Definition big_site : Site (St := MemStore.MemStore) (R := MemRemote) := mkSite big_ref.2 big_remote.
Example range_runs :
  ((serve_raw sz fuel hmac key1 false (Some (512, 4)) (str "/big") big_site).1,
   (serve_raw sz fuel hmac key1 true (Some (512, 4)) (str "/big") big_site).1) =
  (Ok (inl (Raw 206 (str "tail"))), Ok (inl (Raw 206 (str "aaaa")))).
Proof. vm_compute. reflexivity. Qed.

Lemma fuel_many : 72 < fuel.
Proof. by apply Nat.ltb_lt. Qed.
Lemma no_fails : ∀ e, ¬ get_fails (H := FsDemo.store) e.
Proof. by intros e []. Qed.
Lemma s2_s4 : keeps s2 s4.
Proof. apply ref1_stored. Qed.
Lemma fox_stored : file_content s4 t1 data.
Proof. eapply file_content_keeps; [apply s2_s4|]. eapply file_content_keeps; [apply root_written|apply data_stored]. Qed.
Lemma site_tree : current_tree fuel hmac key1 site0 (Data (EntHTree root)) mode kids.
Proof.
  exists root1, [], remote1, ref1. split_and!; [by vm_compute|apply ref1_stored|done|].
  eapply dirs_keeps; [apply s2_s4|apply root_written].
Qed.
Lemma fox_path : Forall good_name [name].
Proof. constructor; [apply good_name_fox|constructor]. Qed.

Lemma browse_shows_current_witness :
  wp (rootHandler_ServeHTTP sz fuel hmac key1 (dir_url []))
    (λ r x', match node_at mode kids [] with
             | Some (Folder _ dm ks) =>
               ∃ t ents, r = Page (drop 1 (dir_url [])) (url_parts []) (default [] (last [])) (dot_ent dm t :: ents) ∧
                         lists fuel (si_store x') ents ks ∧ keeps (si_store site0) (si_store x')
             | _ => ∃ e, r = Failed StatusInternalServerError e
             end) (λ _ _, False) site0.
Proof.
  apply (browse_shows_current sz fuel hmac key1 sz_pos fuel_many no_eof no_fails [] site0 (Data (EntHTree root)) mode kids).
  - apply site_tree.
  - constructor.
  - intros m t [=].
Defined.

Lemma browse_zips_current_witness :
  wp (archiveHandler_ServeHTTP no_fault sz fuel 2 hmac key1 (dir_url []))
    (λ r x', match node_at mode kids [] with
             | Some (Folder _ dm ks) =>
               ∃ o, r = Attachment (archiveName (drop 1 (dir_url []))) o ∧
                    match o with inl l => l ≡ₚ t_files the_content 2 [] ks | inr e => write_fails no_fault e end
             | Some (File _ _) => r = Failed StatusBadRequest not_a_directory
             | None => ∃ e, r = Failed StatusInternalServerError e
             end) (λ _ _, False) site0.
Proof.
  apply (browse_zips_current no_fault sz fuel 2 hmac key1 sz_pos fuel_many no_eof no_fails the_content [] site0 (Data (EntHTree root)) mode kids).
  - apply site_tree.
  - constructor.
  - intros m dm ks [= <- <- <-] name' n' Hn. unfold kids in Hn. apply lookup_singleton_Some in Hn as [<- <-]. split; [apply good_name_fox|].
    split_and!; [by vm_compute|apply fox_stored|by vm_compute|by apply Nat.ltb_lt].
Defined.

Lemma browse_raw_exact_witness :
  wp (serve_raw sz fuel hmac key1 true None (abs_path [name])) (λ r _, r = inl (Raw StatusOK data)) (λ _ _, False) site0.
Proof.
  apply (browse_raw_exact sz fuel hmac key1 sz_pos fuel_many no_eof no_fails [name] site0 (Data (EntHTree root)) mode kids (meta_of file) t1 data true).
  - apply site_tree.
  - apply fox_path.
  - done.
  - apply lookup_singleton_eq.
  - by vm_compute.
  - apply fox_stored.
  - by vm_compute.
Defined.

Lemma big_some : big ≠ [].
Proof. intros Hb. apply (f_equal length) in Hb. vm_compute in Hb. discriminate Hb. Qed.
Lemma big_length : length big = 516.
Proof. by vm_compute. Qed.
#[local] Opaque big.

Lemma big_stored : file_content sb big_tree big.
Proof.
  assert (Hlt : length (concat [big]) < max_stream)
    by (apply (Nat.lt_le_trans _ fuel); [simpl; rewrite app_nil_r, big_length; by apply Nat.ltb_lt|apply fuel_capacity]).
  destruct (step_ok _ (mkHTree 0 []) _ _ _ (save_spec [big] s0 Hlt)) as (Ht & Hd & _ & _); [by vm_compute|].
  unfold big_tree, sb. cbn [concat] in Ht. rewrite app_nil_r in Ht. split; [exact Ht|]. split; [exact Hd|].
  split; [intros Hb; by destruct big_some|]. rewrite big_length. lia.
Qed.
Lemma EntHTree_eq n a b c t : EntHTree (mkDirEnt n a b c t) = t.
Proof. done. Qed.
Lemma big_ent_tree : EntHTree big_ent = big_tree.
Proof. apply EntHTree_eq. Qed.

Lemma big_lists : lists fuel sb [big_ent] big_kids.
Proof.
  split_and!; [apply NoDup_singleton|by apply (bool_decide_unpack _)|unfold big_kids; rewrite dom_singleton_L; simpl; set_solver|].
  intros e ->%list_elem_of_singleton. exists (File (meta_of big_ent) big_tree). split; [apply lookup_singleton_eq|].
  split; [split_and!; vm_compute; (congruence || lia || done)|]. change (IsDir big_ent) with false. cbn iota. by rewrite big_ent_tree.
Qed.
Lemma big_size : map_size big_kids < fuel.
Proof. rewrite (lists_size _ _ _ _ big_lists). by apply Nat.ltb_lt. Qed.

Lemma big_written : keeps sb big_root.2 ∧ dirs fuel big_root.2 (Data (EntHTree big_root.1)) mode big_kids.
Proof.
  pose proof fuel_capacity. pose proof big_size.
  destruct (step_ok (WriteDir [big_ent] mode) zero_dirent sb _ _
    (WriteDir_lists sz fuel sz_pos no_eof sb [big_ent] big_kids mode big_lists ltac:(by vm_compute) eq_refl big_size ltac:(lia)))
    as (t & Ht & Hk & Hd & _); [by vm_compute|].
  unfold big_root. rewrite Ht. split; [exact Hk|exact Hd].
Qed.

Lemma ref_big_valid : valid_ref ref_big.
Proof. split; [split; [by vm_compute|done]|]. split; [by vm_compute|]. by split. Qed.
Lemma big_ref_stored : ref_at big_ref.2 big_ref.1 ref_big ∧ keeps big_root.2 big_ref.2.
Proof.
  assert (Hok : succeeds (PutRef ref_big) big_root.2 = true) by (by vm_compute).
  pose proof (step_ok (PutRef ref_big) [] big_root.2 _ _ (PutRef_spec big_root.2 ref_big ref_big_valid) Hok) as Hp.
  unfold big_ref. exact Hp.
Qed.

Lemma browse_range_stale_witness :
  wp (serve_raw sz fuel hmac key1 true (Some (512, 4)) (abs_path [str "big"]))
    (λ r _, r = inl (Raw StatusPartialContent (take 4 big))) (λ _ _, False) big_site.
Proof.
  apply (browse_range_stale sz fuel hmac key1 sz_pos fuel_many no_eof no_fails [str "big"] big_site (Data (EntHTree big_root.1)) mode big_kids
    (meta_of big_ent) big_tree big 4).
  - exists big_ref.1, [], big_remote, ref_big. split_and!; [by vm_compute|apply big_ref_stored|done|].
    eapply dirs_keeps; [apply big_ref_stored|apply big_written].
  - constructor; [split_and!; by apply (bool_decide_unpack _)|constructor].
  - done.
  - apply lookup_singleton_eq.
  - by vm_compute.
  - eapply file_content_keeps; [apply big_ref_stored|]. eapply file_content_keeps; [apply big_written|apply big_stored].
  - by apply Nat.leb_le.
Defined.
End BrowseDemo.
