(* ===== verification/Bpy.v ===== *)
(** The rest of bpy.go: new keys, random names, and the buffered writer through which packs are written.

    [crypto/rand] is any reader; [bufio.Writer] is modelled with its buffer and the error it keeps. *)

From Stdlib Require Import ZArith Lia String.
From stdpp Require Import base list strings gmap.
From coqutil Require Import Byte.
From S2P Require Import Prelude Io Cryptofile CryptofileProps Bpack BpackProps Encrypted Remote.

Set Default Goal Selector "!".

(** ** Random bytes *)
Section Random.
Context {S : Type} `{IoReader S}.

Definition gen (what : string) : M S bytes :=
  o ← try (ReadFull 32);
  match o with inl b => mret b | inr _ => throw (ENew what) end.
Definition NewKey : M S Key :=
  cipherKey ← gen "error generating cipher key";
  hmacKey ← gen "error generating hmac key";
  id ← gen "error generating id";
  mret (mkKey cipherKey hmacKey id).

Definition RandomFileName : M S bytes := b ← ReadFull 32; mret (EncodeToString b).
Definition NewRootVersion : M S bytes := r ← ReadFull 32; mret (EncodeToString r).
End Random.

Section RandomLaws.
Context {S : Type} `{IoReaderLaws S}.

Lemma gen_spec what (s : S) c p :
  at_pos s c p →
  wp (gen what) (λ b s', b = take 32 (drop p c) ∧ length b = 32 ∧ at_pos s' c (p + 32)) (λ e _, e = ENew what) s.
Proof.
  intros Hat. unfold gen. wp_step. wp_step. eapply wp_mono; [by apply ReadFull_spec|..]; cbn beta.
  - intros b s' (-> & Hl & Hat' & _). by wp_step.
  - intros e s' _. by wp_step.
Qed.

(** A key is made of 96 bytes in a row that no other key is made of. *)
Theorem new_key_fresh (s : S) c p :
  at_pos s c p →
  wp NewKey
    (λ k s', CipherKey k ++ HmacKey k ++ Id k = take 96 (drop p c) ∧ at_pos s' c (p + 96) ∧
             length (CipherKey k) = 32 ∧ length (HmacKey k) = 32 ∧ length (Id k) = 32)
    (λ e _, e ∈ ENew <$> ["error generating cipher key"; "error generating hmac key"; "error generating id"]%string) s.
Proof.
  intros Hat. unfold NewKey. wp_step.
  eapply wp_mono; [by apply gen_spec|..]; cbn beta; [|intros e ? ->; set_solver]. intros k1 s1 (-> & Hl1 & Hat1). wp_step.
  eapply wp_mono; [by apply gen_spec|..]; cbn beta; [|intros e ? ->; set_solver]. intros k2 s2 (-> & Hl2 & Hat2). wp_step.
  eapply wp_mono; [by apply gen_spec|..]; cbn beta; [|intros e ? ->; set_solver]. intros k3 s3 (-> & Hl3 & Hat3). wp_step.
  cbn [CipherKey HmacKey Id]. split_and!; [|by rewrite <-!Nat.add_assoc in Hat3|done..].
  by rewrite <-!drop_drop, !take_take_drop.
Qed.

(** Names are equal only if the bytes drawn for them are. *)
Theorem random_names_differ (s : S) c p :
  at_pos s c p →
  wp (n1 ← RandomFileName; n2 ← RandomFileName; mret (n1, n2))
    (λ '(n1, n2) _, length n1 = 64 ∧ length n2 = 64 ∧ (n1 = n2 ↔ take 32 (drop p c) = take 32 (drop (p + 32) c)))
    (λ e _, short_read e c p 32 ∨ short_read e c (p + 32) 32) s.
Proof.
  intros Hat. unfold RandomFileName. wp_step. wp_step.
  eapply wp_mono; [by apply ReadFull_spec|..]; cbn beta; [|by left]. intros b s1 (Hb & Hl & Hat1 & _). wp_step. wp_step. wp_step.
  eapply wp_mono; [by apply ReadFull_spec|..]; cbn beta; [|by right]. intros b' s2 (Hb' & Hl' & _). wp_step. wp_step.
  rewrite <-Hb, <-Hb', !length_EncodeToString, Hl, Hl'. split_and!; [done..|]. split; [|by intros ->].
  intros Heq. pose proof (hex_roundtrip b) as Hr. rewrite Heq, hex_roundtrip in Hr. congruence.
Qed.
End RandomLaws.

(** ** BufferedWriteCloser *)
Section Buffered.
Variable size : nat.   (* of the buffer *)
Context {W : Type} `{IoWriter W}.

(** The [bufio.Writer] and the writer below it, which [Close] closes. *)
Record BufferedWriteCloser := mkBuffered { bw_W : W; bw_buf : bytes; bw_err : option error }.

(** [b.wr.Write(p)]: an error is kept. *)
Definition bw_down (p : bytes) : M BufferedWriteCloser unit :=
  o ← try (zoom bw_W (λ w b, mkBuffered w (bw_buf b) (bw_err b)) (io_write p));
  match o with
  | inl _ => mret ()
  | inr e => modify (λ b, mkBuffered (bw_W b) (bw_buf b) (Some e));; throw e
  end.
Definition set_buf (buf : bytes) : M BufferedWriteCloser unit := modify (λ b, mkBuffered (bw_W b) buf (bw_err b)).

Definition bw_Flush : M BufferedWriteCloser unit :=
  b ← get;
  match bw_err b with
  | Some e => throw e
  | None => if bool_decide (bw_buf b = []) then mret () else bw_down (bw_buf b);; set_buf []
  end.

(** The loop: what is left fits the buffer. *)
Fixpoint bw_fill (fuel : nat) (p : bytes) : M BufferedWriteCloser bytes :=
  b ← get;
  let available := size - length (bw_buf b) in
  if bool_decide (length p ≤ available) then mret p
  else
    match fuel with
    | O => diverge
    | S fuel =>
      if bool_decide (bw_buf b = []) then bw_down p;; bw_fill fuel []
      else set_buf (bw_buf b ++ take available p);; bw_Flush;; bw_fill fuel (drop available p)
    end.

Definition bwc_Write (buf : bytes) : M BufferedWriteCloser unit :=
  b ← get;
  match bw_err b with
  | Some e => throw e
  | None => rest ← bw_fill 2 buf; b ← get; set_buf (bw_buf b ++ rest)
  end.
Definition bwc_Close : M BufferedWriteCloser unit :=
  bw_Flush;;
  zoom bw_W (λ w b, mkBuffered w (bw_buf b) (bw_err b)) io_wclose.

Definition buffered_writer : IoWriter BufferedWriteCloser := {| io_write := bwc_Write; io_wclose := bwc_Close |}.
(** [&BufferedWriteCloser{W: f, B: bufio.NewWriterSize(f, size)}] *)
Definition new_buffered (f : W) : BufferedWriteCloser := mkBuffered f [] None.
End Buffered.
Arguments BufferedWriteCloser : clear implicits.

Section BufferedLaws.
Variable size : nat.
Context {W : Type} `{IoWriterLaws W}.
Implicit Types (b : BufferedWriteCloser W).

(** What was written is below, and then in the buffer. *)
Definition bw_written b (d : bytes) : Prop :=
  bw_err b = None ∧ length (bw_buf b) ≤ size ∧ ∃ d0, written (bw_W b) d0 ∧ d = d0 ++ bw_buf b.

Lemma bw_down_spec b p d0 :
  written (bw_W b) d0 → bw_err b = None →
  wp (bw_down p) (λ _ b', written (bw_W b') (d0 ++ p) ∧ bw_buf b' = bw_buf b ∧ bw_err b' = None) (λ e _, write_fails e) b.
Proof.
  intros Hw He. unfold bw_down. wp_step. wp_step. wp_step. eapply wp_mono; [by apply io_write_law|..]; cbn beta.
  - intros _ w' Hw'. by wp_step.
  - intros e w' Hf. by wp_steps.
Qed.

Lemma bw_Flush_spec b d :
  bw_written b d → wp bw_Flush (λ _ b', bw_written b' d ∧ bw_buf b' = []) (λ e _, write_fails e) b.
Proof.
  intros (He & Hl & d0 & Hw & ->). unfold bw_Flush. wp_step. wp_step. rewrite He. case_bool_decide as Hb.
  - wp_step. split; [|done]. rewrite Hb. split_and!; [done|simpl; lia|]. exists d0. by rewrite ?Hb.
  - wp_step. eapply wp_mono; [by eapply bw_down_spec|..]; cbn beta; [|done]. intros _ b' (Hw' & _ & He').
    unfold set_buf. wp_step. split; [|done]. split_and!; [done|simpl; lia|]. eexists. split; [done|]. by rewrite app_nil_r.
Qed.

(** Two turns of the loop are enough. *)
Lemma bw_fill_spec fuel b p d :
  bw_written b d → (if decide (bw_buf b = []) then 1 else 2) ≤ fuel →
  wp (bw_fill size fuel p)
    (λ rest b', length (bw_buf b') + length rest ≤ size ∧ ∃ d', bw_written b' d' ∧ d ++ p = d' ++ rest) (λ e _, write_fails e) b.
Proof.
  revert b p d. induction fuel as [|fuel IH]; intros b p d Hb Hf; pose proof Hb as (He & Hl & d0 & Hw & Hd).
  { by destruct (decide _); lia. }
  assert (Hfits : ∀ k q, length q ≤ size - length (bw_buf b) →
    wp (bw_fill size k q) (λ rest b', length (bw_buf b') + length rest ≤ size ∧ ∃ d', bw_written b' d' ∧ d ++ q = d' ++ rest) (λ e _, write_fails e) b).
  { intros k q Hq. destruct k; cbn [bw_fill]; wp_step; wp_step; rewrite bool_decide_eq_true_2 by done; wp_step; (split; [lia|eauto]). }
  destruct (decide (length p ≤ size - length (bw_buf b))) as [|Hbig]; [by apply Hfits|].
  cbn [bw_fill]. wp_step. wp_step. rewrite bool_decide_eq_false_2 by done. case_bool_decide as Hemp.
  - wp_step. eapply wp_mono; [by eapply bw_down_spec|..]; cbn beta; [|done]. intros _ b' (Hw' & Hb' & He').
    destruct fuel; cbn [bw_fill]; wp_step; wp_step; rewrite bool_decide_eq_true_2 by (simpl; lia); wp_step; rewrite Hb', Hemp;
      (split; [simpl; lia|exists (d ++ p)]); (split; [|by rewrite app_nil_r]); (split_and!; [done|rewrite Hb', Hemp; simpl; lia|]);
      eexists; (split; [done|]); by rewrite Hd, Hb', Hemp, !app_nil_r.
  - rewrite decide_False in Hf by done. wp_step. unfold set_buf. wp_step. wp_step.
    eapply wp_mono; [apply (bw_Flush_spec _ (d ++ take (size - length (bw_buf b)) p))|..]; cbn beta; [|
      |done].
    + split_and!; [done|simpl; rewrite length_app, length_take; lia|]. exists d0. split; [done|]. simpl. by rewrite Hd, <-app_assoc.
    + intros _ b' [Hb' Hnil]. eapply wp_mono; [apply (IH b' _ _ Hb')|..]; cbn beta; [rewrite decide_True by done; lia| |done].
      intros rest b2 (Hl2 & d' & Hd' & Heq). split; [done|]. exists d'. split; [done|].
      by rewrite <-Heq, <-app_assoc, take_drop.
Qed.

(** A buffered writer is a writer like the one below it. *)
Program Definition buffered_laws : @IoWriterLaws (BufferedWriteCloser W) (buffered_writer size) :=
  {| written := bw_written; finished b d := finished (bw_W b) d; write_fails := write_fails |}.
Next Obligation.
  intros b d p Hb. pose proof Hb as (He & _). simpl. unfold bwc_Write. wp_step. wp_step. rewrite He. wp_step.
  eapply wp_mono; [apply (bw_fill_spec 2 b p d Hb); destruct (decide _); lia|..]; cbn beta; [|done].
  intros rest b1 (Hl & d' & (He' & _ & d0 & Hw & ->) & Heq). wp_step. wp_step. unfold set_buf. wp_step.
  split_and!; [done|simpl; rewrite length_app; lia|]. exists d0. split; [done|]. simpl. by rewrite Heq, <-app_assoc.
Qed.
Next Obligation.
  intros b d Hb. simpl. unfold bwc_Close. wp_step. eapply wp_mono; [by apply bw_Flush_spec|..]; cbn beta; [|done].
  intros _ b' [(_ & _ & d0 & Hw & ->) ->]. wp_step. rewrite app_nil_r. eapply wp_mono; [by apply io_wclose_law|..]; done.
Qed.

Lemma new_buffered_written (f : W) d : written f d → bw_written (new_buffered f) d.
Proof. intros Hw. split_and!; [done|simpl; lia|]. exists d. by rewrite app_nil_r. Qed.
End BufferedLaws.

(** ** The packs of the store and of the collector

    Cstore and Gc open a pack with [NewEncryptedWriter] over a buffer of 65536 bytes over the remote file.  What is added to
    it is in the remote file after [Close], for a reader that has the key, whatever the sizes of the values. *)
Definition pack_buffer : nat := Z.to_nat 65536.

Section Packs.
Context {W : Type} `{IoWriterLaws W}.
#[local] Instance bwc_io : IoWriter (BufferedWriteCloser W) := buffered_writer pack_buffer.
#[local] Instance bwc_laws : IoWriterLaws (BufferedWriteCloser W) := buffered_laws pack_buffer.

Theorem buffered_pack_roundtrip {B : Block} {Bok : BlockOk} (NewCipher : bytes → outcome Block)
    (ckey : bytes) {R : Type} `{ReadSeekCloserLaws R} (w : W) iv kvs key :
  NewCipher ckey = Ok B → (∀ e : error, ¬ read_fails e) → (∀ e : error, ¬ seek_fails e) →
  written w [] → length iv = BlockSize → Forall fits kvs →
  (Z.of_nat (vals_len kvs) < 2 ^ 61)%Z → (Z.of_nat (length kvs) < 2 ^ 36)%Z →
  (Z.of_nat BlockSize < 2 ^ 32)%Z →
  wpo (NewEncryptedWriter NewCipher (Ok iv) ckey (new_buffered w))
    (λ pw, wp (Adds kvs;; Bpack.CloseWriter)
      (λ _ pw', ∃ c, finished (bw_W (Cryptofile.w_w (Bpack.w_w pw'))) c ∧
         ∀ (f : R) q fuel, at_pos f c q → length kvs ≤ fuel →
           wpo (NewEncryptedReader NewCipher ckey (Z.of_nat (length c)) f)
             (λ pr, wp (Reader_ReadIndex fuel;; Get key)
                (λ v _, pack_map kvs !! key = Some v)
                (λ e _, e = NotFound ∧ pack_map kvs !! key = None) pr)
             (λ _, False))
      (λ e _, write_fails (S := W) e) pw)
    (write_fails (S := W)).
Proof.
  intros Hc Hr Hs Hw Hiv Hf Hv Hl Hb.
  pose proof (encrypted_session_spec (W := BufferedWriteCloser W) (R := R) NewCipher ckey (new_buffered w) iv kvs key Hc Hr Hs
    (new_buffered_written pack_buffer w [] Hw) Hiv Hf Hv Hl Hb) as Hrun.
  unfold wpo in *. by destruct (NewEncryptedWriter _ _ _ _).
Qed.
End Packs.

(** ** Runs *)
Module BpyDemo.
(** A buffer of four bytes: what fits stays, a large write goes past it. *)
Example buffered_runs :
  let '(o, b) := (bwc_Write 4 (str "ab");; bwc_Write 4 (str "cde");; bwc_Write 4 (str "0123456789");; bwc_Write 4 (str "x"))
    (new_buffered (mkMemSink [] false)) in
  (o, bw_W b, bw_buf b, (bwc_Close b).1, bw_W (bwc_Close b).2) =
  (Ok (), mkMemSink (str "abcde0123456789") false, str "x", Ok (), mkMemSink (str "abcde0123456789x") true).
Proof. reflexivity. Qed.
Example name_runs : (RandomFileName (mkMemFile (replicate 32 Byte.xa5) 0)).1 = Ok (concat (replicate 32 (str "a5"))).
Proof. reflexivity. Qed.
End BpyDemo.
