(* ===== verification/Dbg.v ===== *)
(** The debugging commands: cmd/bpy/dbg/dbg.go and cmd/bpy/dbg/listpacks. *)

From Stdlib Require Import ZArith Lia.
From stdpp Require Import base list strings gmap.
From coqutil Require Import Byte.
From S2P Require Import Prelude Store Io Htree HtreeSpec HtreeProps Fs Refs Remote Host Commands.

Set Default Goal Selector "!".

(** The loop of [inspecthtree] over the entries of a block, with the hashes as they are printed. *)
Fixpoint inspect_entries (fuel : nat) (data : bytes) : outcome (list (Z * bytes)) :=
  match data with
  | [] => Ok []
  | _ =>
    match fuel with
    | O => OutOfFuel
    | S fuel =>
      offset ← slice data 0 8;
      h ← slice data 8 40;
      data ← slice data 40 (length data);
      rest ← inspect_entries fuel data;
      Ok ((get_le offset, EncodeToString h) :: rest)
    end
  end.

(** What [inspecthtree] prints of a block: its level, and the entries of an inner one. *)
Definition inspect_data (data : bytes) : outcome (Z * list (Z * bytes)) :=
  level ← idx data 0;
  if bool_decide (level = b0) then Ok (0%Z, [])
  else
    rest ← slice data 1 (length data);
    ents ← inspect_entries (length data) rest;
    Ok (byte.unsigned level, ents).

Section Dbg.
Context {P : Params} {St : Type} `{CStore St} {R : Type} `{RemoteClient R}.
Variables (Sum256 : bytes → hash) (HMAC : bytes → bytes → bytes) (key : Key) (clock : nat → Z).
Variable GetCStore : M (Cmd (St := St) (R := R)) unit.

Definition inspect_block (h : hash) : M St (Z * list (Z * bytes)) :=
  data ← Store.Get h;
  lift (inspect_data data).

Definition inspecthtree (args : list bytes) : M (Cmd (St := St) (R := R)) (Z * list (Z * bytes)) :=
  match args with
  | [arg] =>
    h ← lift (ParseHash arg);
    GetRemote Sum256 HMAC key clock GetCStore;;
    GetCStore;;
    on_st (inspect_block h)
  | _ => throw bad_usage
  end.

(** [io.Copy(w, os.Stdin)]: standard input comes in [chunks], and may end with an error. *)
Definition copy_stdin (chunks : list bytes) (err : option error) : M (Writer St) unit :=
  Writes chunks;;
  match err with Some e => throw e | None => mret () end.

Definition writehtree (chunks : list bytes) (err : option error) : M (Cmd (St := St) (R := R)) bytes :=
  GetRemote Sum256 HMAC key clock GetCStore;;
  GetCStore;;
  h ← on_st (with_writer (copy_stdin chunks err;; CloseWriter));
  on_st Store.Close;;
  mret (EncodeToString (Data h)).

(** The names and sizes that [list-packs] prints. *)
Definition dbg_ListPacks : M (Cmd (St := St) (R := R)) (list (bytes * Z)) :=
  GetRemote Sum256 HMAC key clock GetCStore;;
  packs ← on_rm ListPacks;
  mret ((λ p, (PackName p, PackSize p)) <$> packs).
End Dbg.

(** ** What is printed *)

(** The loop ends on every input: it prints an entry for each 40 bytes, and panics on what is left over. *)
Theorem inspect_total fuel data :
  length data ≤ fuel →
  match inspect_entries fuel data with
  | Ok l => length data = 40 * length l
  | Panic => length data mod 40 ≠ 0
  | _ => False
  end.
Proof.
  revert data. induction fuel as [|fuel IH]; intros data Hl; [by destruct data; [|simpl in Hl; lia]|].
  destruct data as [|b data]; [done|]. cbn [inspect_entries]. set (d := b :: data) in *.
  assert (Hd : length d ≠ 0) by done. clearbody d.
  unfold mbind, outcome_bind. destruct (decide (length d < 40)) as [Hs|Hs].
  { assert (Hmod : length d mod 40 ≠ 0) by (rewrite Nat.mod_small by lia; done).
    unfold slice. destruct (decide (0 ≤ 8 ∧ 8 ≤ length d)); [|done]. by rewrite decide_False by lia. }
  assert (Hrest : take (length d - 40) (drop 40 d) = drop 40 d) by (apply take_ge; rewrite length_drop; lia).
  rewrite !slice_ok, Hrest by lia. specialize (IH (drop 40 d)). rewrite length_drop in IH. specialize (IH ltac:(lia)).
  destruct (inspect_entries fuel (drop 40 d)); try done; [cbn [length]; lia|].
  intros Hm. apply IH. pose proof (Nat.div_mod_eq (length d) 40). symmetry. apply (Nat.mod_unique _ _ (length d / 40 - 1)); lia.
Qed.

Section Inspect.
Context {P : Params} {Pok : ParamsOk} {St : Type} `{CStoreLaws St}.
Variable minsz : nat → nat.
Implicit Types (s : St).

(** Subtrees one after the other from [off] on: their offsets, hashes and contents. *)
Fixpoint children_at s lvl off (cs : list (nat * hash * bytes)) : Prop :=
  match cs with
  | [] => True
  | (o, h, d) :: cs => o = off ∧ tree_at minsz s lvl h off d ∧ children_at s lvl (off + length d) cs
  end.
Definition child_line (c : nat * hash * bytes) : Z * bytes := (Z.of_nat c.1.1, EncodeToString c.1.2).

Lemma inspect_forest s lvl off es d fuel :
  forest_at minsz s lvl off es d → (Z.of_nat (off + length d) < 2 ^ 64)%Z → length es ≤ fuel →
  ∃ cs, inspect_entries fuel es = Ok (child_line <$> cs) ∧ children_at s lvl off cs ∧ concat (cs.*2) = d.
Proof.
  intros Hf. revert fuel. induction Hf as [|lvl off h d es ds Ht Hf IH]; intros fuel Hb Hfuel; [by exists []; destruct fuel|].
  pose proof (tree_at_hash _ _ _ _ _ _ Ht) as Hh. unfold hash_len in Hh. unfold entry in *.
  rewrite !length_app, length_put_le in Hfuel. rewrite length_app in Hb. destruct fuel as [|fuel]; [lia|].
  destruct (IH fuel) as (cs & He & Hc & Hd); [lia|lia|].
  exists ((off, h, d) :: cs). split_and!; [|done|by rewrite fmap_cons, concat_cons, Hd].
  set (all := (put_le 8 (Z.of_nat off) ++ h) ++ es). assert (Hl : length all = 40 + length es).
  { unfold all. rewrite !length_app, length_put_le. lia. }
  assert (H8 : take 8 all = put_le 8 (Z.of_nat off)) by (unfold all; rewrite <-app_assoc; apply take_app_length'; by rewrite length_put_le).
  assert (H32 : take 32 (drop 8 all) = h).
  { unfold all. rewrite <-app_assoc, drop_app_length' by (by rewrite length_put_le). by apply take_app_length'. }
  assert (Hes : drop 40 all = es) by (apply drop_app_length'; rewrite length_app, length_put_le; lia).
  destruct all as [|b all'] eqn:Hall; [simpl in Hl; lia|]. rewrite <-Hall in *. cbn [inspect_entries].
  rewrite Hall. rewrite <-Hall. unfold mbind, outcome_bind. rewrite !slice_ok by lia. change (take (8 - 0) (drop 0 all)) with (take 8 all). rewrite H8.
  replace (40 - 8) with 32 by lia. rewrite H32, Hes, take_ge by lia. rewrite He. unfold child_line at 2. simpl.
  by rewrite get_put_le_small by lia.
Qed.

(** Of an inner block of a stored tree [inspect-htree] prints the level and for each subtree the offset at which its bytes
    start and its hash: these lines cover the whole content, in order. *)
Theorem inspect_lists_children s lvl h off d :
  tree_at minsz s (S lvl) h off d → S lvl < 256 → (Z.of_nat (off + length d) < 2 ^ 64)%Z →
  wp (inspect_block h)
    (λ '(level, lines) s', level = Z.of_nat (S lvl) ∧
       ∃ cs, lines = child_line <$> cs ∧ children_at s lvl off cs ∧ concat (cs.*2) = d) (λ e _, get_fails e) s.
Proof.
  intros Ht Hlvl Hb. inversion Ht as [|? ? ? es ? Hhold Hlen Hmax Hmin Hne Hf]; subst. unfold inspect_block. wp_step.
  eapply wp_mono; [by eapply Get_law|..]; cbn beta; [|by intros ? ? []]. intros ? s' [-> _].
  destruct (inspect_forest _ _ _ _ _ (S (length es)) Hf Hb ltac:(lia)) as (cs & He & Hc & Hd).
  apply (wp_lift_ok _ (Z.of_nat (S lvl), child_line <$> cs)); [|split; [done|by exists cs]].
  unfold inspect_data. rewrite (idx_ok _ _ (nbyte (S lvl))) by done. unfold mbind, outcome_bind.
  assert (Hn : byte.unsigned (nbyte (S lvl)) = Z.of_nat (S lvl)) by (by apply unsigned_nbyte).
  rewrite bool_decide_eq_false_2; [|intros Hz; rewrite Hz in Hn; simpl in Hn; change (byte.unsigned b0) with 0%Z in Hn; lia].
  rewrite slice_ok by (simpl; lia). cbn [drop]. rewrite (take_ge es) by (cbn [length]; lia). cbn [length]. by rewrite He, Hn.
Qed.
End Inspect.

(** ** Runs *)
Module DbgDemo.
Import HtreeProps.Demo.
#[local] Existing Instances params store.

(** The level and the offsets of the top block of a small tree; a block that was cut off panics. *)
Example inspect_runs :
  match save chunks MemStore.NewMemStore with
  | (Ok t, s) => match (inspect_block (Data t) s).1 with Ok (level, lines) => Some (level, lines.*1) | _ => None end
  | _ => None
  end = Some (1%Z, [0%Z; 80%Z]).
Proof. vm_compute. reflexivity. Qed.
Example inspect_cut : inspect_data (Byte.x01 :: replicate 41 b0) = Panic.
Proof. reflexivity. Qed.
Example inspect_empty : inspect_data [] = Panic.
Proof. reflexivity. Qed.
End DbgDemo.
